(* ===== verification/_CoqProject ===== *)
-Q . S2P
Prelude.v
GoNum.v
GoTime.v
Errors.v
Job.v
GoJson.v
Json.v
GoText.v
Redis.v
RefRedis.v
Scripts.v
QueueSpec.v
QueueRep.v
ScriptsOk.v
QueueSteps.v
Retry.v
GoDuration.v
GoFloat.v
Store.v
JobCodec.v
StoreOk.v
EnqueueOk.v
ClaimOk.v
Demo.v
QueueProps.v
StoreProps.v
ClaimProps.v
EnqueueProps.v
StoreRun.v
Backend.v
StoreBackend.v
Queue.v
Worker.v
LeaseLaws.v
WorkerRun.v
WorkerRunOk.v
WorkerRunProps.v
WorkerRunLive.v
WorkerProps.v
WorkerStore.v
StoreLeases.v
SettleOnce.v
WorkerRunStore.v
Fleet.v
FleetStore.v
Tracing.v
PromMetrics.v
PromProps.v
Tasks.v
Downstream.v
Chaos.v
ChaosReport.v
ChaosRun.v
ChaosCtl.v
ChaosCtlProps.v
Sharded.v
LongPoll.v
ShardedOk.v
LongPollOk.v
ShardedProps.v
ShardedBatch.v
ShardedDemo.v
ShardedBackend.v
Flags.v
RedisUtil.v
StoreClient.v
RedisUtilProps.v
Tools.v
DemoCmds.v
TestRedis.v
RedisUtilDemo.v
LongPollProps.v
LongPollDemo.v
PrettyLog.v
PrettyFormat.v
Bench.v
BenchProps.v
BenchRun.v
BenchCtl.v
ChaosPrint.v
