(* ===== verification/Prelude.v ===== *)
(** * A distributed task queue on Redis Streams: the verification library

    The program (package [dist_tasks_go]) is a task queue: producers enqueue
    jobs, workers lease them, run a handler and settle them. Its state lives in
    Redis (a stream with a consumer group, a schedule made of a sorted set and a
    hash, a dead-letter stream, idempotency keys) and is changed by Lua scripts
    and single commands. A job's lease is its entry in the group's pending list;
    the delivery count is the fencing token.

    ** The parts, and the files that model them

    - [queue/job.go], [queue/errors.go]: [Job], [Errors]. Records and sentinel
      errors as in the source; times are integer nanoseconds since 1970.
    - Go's integers, [strconv], [time] formatting, [encoding/json] of string
      maps and of structs: [GoNum], [GoTime], [GoJson], [Json]. [int] and [int64]
      are [Z] with [wrap64]. [GoText]: white space, splitting; [GoDuration],
      [GoFloat]: durations, and float64 as text and its arithmetic; [Flags]: the
      [flag] package.
    - [queue/retry.go]: [Retry], with int64 wrap-around and double rounding.
    - Redis: a parameter. [Redis] is the class of the commands the program uses
      and, in [RedisLaws], their documented behaviour; [RefRedis] is one
      implementation, which shows the laws can hold and runs the witnesses.
    - [redisstream/scripts.go]: [Scripts], one definition per script.
    - [redisstream/store.go]: [Store], one definition per method. go-redis is the
      class [Client]: a request may run any number of times and its reply may be
      lost ([ClientLaws]). There the re-sendings of one call follow each other at
      once; [SharedClientLaws] lets other clients act between them ([resent]). A
      theorem that needs a client which delivers each request once and its reply
      says so ([reliable]). [StoreClient]: who closes a client, and the warnings of
      [warnStuckBlock] as interleaved calls ([wstep]).
    - [queue/backend.go], [queue/metrics.go], [queue/tracing.go]: [Backend], the
      interface between the worker, the producer and the store;
      [StoreBackend] makes the store an instance of it. [Tracing]: the spans of an
      enqueue and of a run, over any propagator ([Propagator]), and
      [internal/telemetry].
      [LeaseLaws] is what a worker relies on about leases, a class over the order
      on the backend's states; [StoreLeases] shows that the store keeps it.
    - [queue/queue.go]: [Queue]. [queue/worker.go]: [Worker] (the operations as
      functions, and the loop of [Run] with a job, a heartbeat and a batch of acks
      as single steps, [rstep]); [WorkerRun] (the goroutines of [Run], each with
      its own program counter: the step relation [ustep] has one step per backend
      call or operation on a shared variable or channel). [Fleet]: any number of such
      processes on one server ([fstep]), each with its own value of the backend.
    - [redisstream/sharded.go]: [Sharded]: opening, routing, sweeps, settling,
      batches. Parallel calls on several partitions run one after the other in
      an arbitrary order. [LongPoll]: claims, long polls, heartbeats and [Close]
      as the step relation [lstep], one step per critical section or call of the
      store, with a label that tells a wait that expired from one that was woken
      ([LExpired]), and the sockets of the polls. [ShardedBackend]: the sharded store as an
      instance of [Backend], with what runs meanwhile as a parameter.
    - [prommetrics/metrics.go]: [PromMetrics], the collectors with the kinds and labels
      they are created with, each callback as the calls it makes on them.
    - [internal/redisutil]: [RedisUtil]. [SCAN] and [DEL] are a parameter.
    - [examples/tasks]: [Tasks], with the payloads of [cmd/enqueue-demo];
      [cmd/enqueue-demo], [cmd/worker-demo]: [DemoCmds] (options, the worker's
      configuration, the producer's loop, how the processes end).
    - The options of [cmd/chaos] and [cmd/bench] and the command lines of their worker
      processes: [Tools].
    - [cmd/chaos]: [Downstream] (downstream.go; Lua's numbers are doubles), [Chaos] (the jobs, the handler in
      sections that interleave, the report), [ChaosCtl] (the controller of the worker
      processes: main goroutine, waiting goroutines, timers, the mutex they share and
      the signals as the step relation [kstep], whose labels tell the faults injected
      and the workers that end unasked from the rest), [ChaosPrint] (what is printed, how the processes end).
    - [cmd/bench]: [Bench] (producers of the backlog, the start barrier, quantiles),
      [BenchRun] (the handler, when a test ends, the table, [redisutil.CPUSeconds]),
      [BenchCtl] (the controller and the worker processes of a test as the step relation
      [test_step], the tests of a run as [gstep]).
    - [internal/testredis]: [TestRedis].
    - [internal/prettylog]: [PrettyLog] (the handlers, their attribute slices on a
      heap of arrays), [PrettyFormat] ([Format]).

    ** The abstract queue and the refinement

    [QueueSpec] is the abstract queue (entries, pending list, schedule, dead
    letters, idempotency keys) with its invariant [q_wf]; [QueueSteps] its atomic
    steps [qstep]. [QueueRep] says when a keyspace holds a queue ([represents])
    and gives the simulation triples [wpq]; [ScriptsOk] proves every script
    against it. [StoreOk], [EnqueueOk] and [ClaimOk] lift this to the store's
    methods over an unreliable client (triple [wpc]); [StoreRun] shows that any
    sequence of store operations is a run of the abstract queue. [JobCodec] has
    the encoding of jobs; [Demo] the keyspaces of the witnesses.

    ** What the theorems show

    - [StoreRun], on top of [QueueProps]: the store refines the queue, a scheduled job
      stays scheduled until it is promoted or replaced under its own ID, no entry is
      stuck. [SettleOnce]: a delivery is settled at most once,
      whatever the workers and the client do.
    - [StoreProps]: [Ack], [Retry], [DeadLetter], [Extend] are fenced and atomic;
      a lease that was taken over is dead for good.
    - [ClaimProps]: what claims and recoveries hand out, malformed entries,
      completeness of recovery, promotion, gauges.
    - [EnqueueProps]: exactly-once enqueueing under an idempotency key whatever other
      clients do between re-sendings, atomic batches, the idempotency window, round trips of the encoding, batches equal to single calls.
    - [WorkerProps], [WorkerStore]: the concurrency bound and shutdown in every
      interleaving, poison jobs, no loss in [handleOne], completion means acked,
      group commit and heartbeats over any client, and transparent and exact over a
      reliable one.
    - [WorkerRunOk], [WorkerRunProps], [WorkerRunLive]: one invariant of all the
      worker's goroutines, over any backend with [LeaseLaws]; it bounds the jobs in
      flight, makes the map of running jobs exact and the reports true; [Run]
      returns clean and can return from everywhere. [WorkerRunStore]: the worker
      on the store, where a job reported as settled is settled for good, and a
      scheduler that runs the step relation.
    - [Fleet], [FleetStore]: over a backend that also promises to end a delivery at most
      once ([SettleLaws], which the store keeps), in every interleaving of all the
      goroutines of all the workers: each lease has one goroutine, at most one goroutine
      of a delivery has a lease that is honoured, and the workers together report a
      delivery settled at most once.
    - [Downstream]: effects at most once, the fence exact for tokens below 2^53,
      zombies refused. [Job]: the order of
      fencing tokens. [Retry]: the backoff.
    - [ShardedOk], [ShardedProps], [ShardedBatch], [ShardedDemo]: partitions do
      not interfere; settling, claiming, idempotency and batches across them.
      [ShardedBackend]: recoveries across partitions, and the worker's concurrency
      bound over a sharded queue, from the interface alone.
    - [LongPollOk], [LongPollProps], [LongPollDemo]: in every interleaving the
      jobs of the long polls are leased, conserved and delivered by the pollers'
      signal, without any wait expiring; the buffer is bounded and [Close] ends. [LongPollDemo] runs the
      step relation.
    - [PromProps]: well-typed callbacks, exact start times and durations, and
      that start times neither pile up nor tell a redelivery apart.
    - [RedisUtilProps], [RedisUtilDemo]: flags round-trip to child processes, a
      prefix holds the queue opened under it, deleting it removes the keys its glob
      pattern matches, which are exactly those under a prefix without glob characters.
    - [GoDuration], [GoFloat], [Flags], [Tools]: every int64 duration and every finite
      double, of either sign, is read back as printed, so a worker process runs with what its
      controller was told.
    - [Tracing]: a run's span has the enqueue's as its parent and gets one outcome.
      [StoreClient]: no client leaks; warnings are a minute apart.
    - [Tasks], [DemoCmds]: the demo's jobs end as their names say; the producer sends
      as many as asked for; default worker IDs do not collide.
    - [ChaosReport], [ChaosRun]: the report's counts and verdict are exact, and
      whatever happens to the workers it raises no false alarm. [ChaosCtlProps]: the
      controller takes no fault for a crash and, once it injects no more faults, always
      goes on to its report: no run is longer than a bound, and what it waits for ends
      by a signal it sent. [ChaosPrint]: the
      printed marks agree with the verdict.
    - [BenchProps]: the backlog has each payload once in every interleaving of the
      producers, no worker starts before all are ready, the quantiles are ordered.
      [BenchRun]: the latencies reported are those of jobs. [BenchCtl]: tests do not
      overlap, a test that stops can finish, workers start together; a fatal error
      leaves the workers behind.
    - [TestRedis]: tests do not see each other's keys while FLUSHDB works.
    - [PrettyLog]: handlers write their own attributes unless one is grouped twice.
      [PrettyFormat]: [Format] of a record as JSON is the handler's line for it.

    ** Bounds

    Scripts: recovery scans at most 10 slices and promotion moves at most 100
    jobs, as in the source, so the completeness of recovery is stated for up to
    100 pending deliveries. [ackLoop] and [chunks] take as fuel the number of
    requests, each round handling at least one. Tokens are ordered for attempts
    below 2^31 and delivery counts below 2^32; the downstream fence compares them as
    doubles, exactly below 2^53. Jobs enqueued as JSON are valid
    UTF-8 and times lie in the years 0 to 9999, where the source's formats are
    faithful. A sweep's start is an [int]: the claim counter must be below 2^63.

    The JSON parser and the deletion of a prefix take fuel: twice the length of
    the text, and more than the calls a full [SCAN] can take. The handler's calls
    of the downstream system go to its abstract ledger, which [Downstream] shows
    the scripts implement while their counters are in range. Ledger lines name
    ASCII worker IDs without white space. The benchmark's loop variables must not
    overflow [int] and its samples have less than 2^50 entries; inserting commas takes
    as fuel the length of the number.

    ** Not modelled

    The program's own log lines, timers' durations, connection set-up; the metrics
    endpoint of the demos, which is net/http; OpenTelemetry and the Prometheus client
    beyond the calls made on them; hexadecimal floats on the command line and the sign of
    a zero. A call of a backend is one step of a worker: what other clients do in the
    middle of it is a parameter of the call ([Env], [ShEnv]), not a step of the fleet. The
    fleet is of workers on a [Store]; a sharded backend keeps leased jobs in its own
    buffer, which [LongPoll] follows instead. *)

From stdpp Require Export base tactics list gmap strings sorting.
From Stdlib Require Export ZArith Lia.

(** ** Generic tactics *)

(** Case analysis on every [match]/[if] scrutinee of the goal, then closing. *)
Ltac split_cases := repeat (case_match; simplify_eq/=; try done).

(** Destruct the existentials and conjunctions of the context. *)
Ltac deex := repeat match goal with
  | H : exists _, _ |- _ => let x := fresh in destruct H as [x H]
  | H : _ /\ _ |- _ => let H1 := fresh H in let H2 := fresh H in destruct H as [H1 H2]
  end.

Create HintDb dtq discriminated.

(** ** Results and the state-and-error monad

    A call into a stateful collaborator (the Redis server, a backend) threads
    the collaborator's state and returns either a value or an error.  Lua's
    [redis.call] and Go's early [return err] both keep the effects made before
    the error, and so does [bind]. *)
Inductive result (E A : Type) : Type :=
  | Ok (a : A)
  | Err (e : E).
Arguments Ok {E A} a.
Arguments Err {E A} e.

Definition SE (S E A : Type) : Type := S -> S * result E A.

Definition ret {S E A} (a : A) : SE S E A := fun s => (s, Ok a).

Definition throw {S E A} (e : E) : SE S E A := fun s => (s, Err e).

Definition bind {S E A B} (m : SE S E A) (k : A -> SE S E B) : SE S E B := fun s =>
  match m s with
  | (s', Ok a) => k a s'
  | (s', Err e) => (s', Err e)
  end.

Declare Scope se_scope.
Delimit Scope se_scope with se.
Notation "'let!' x ':=' m 'in' k" := (bind m (fun x => k))
  (at level 10, x name, m at level 100, k at level 200) : se_scope.
Notation "'do!' m 'in' k" := (bind m (fun _ => k))
  (at level 10, m at level 100, k at level 200) : se_scope.

(** Total-correctness triple: the call returns a value (it does not fail) and
    the final state and value satisfy the postcondition. *)
Definition runs {S E A} (m : SE S E A) (s : S) (Q : S -> A -> Prop) : Prop :=
  exists s' a, m s = (s', Ok a) /\ Q s' a.

Section runs_rules.
Context {S E : Type}.

Lemma runs_ret {A} (a : A) (s : S) (Q : S -> A -> Prop) :
  Q s a -> runs (E:=E) (ret a) s Q.
Proof. intros HQ. by exists s, a. Qed.

Lemma runs_bind {A B} (m : SE S E A) (k : A -> SE S E B) s Q R :
  runs m s R ->
  (forall s' a, R s' a -> runs (k a) s' Q) ->
  runs (bind m k) s Q.
Proof.
  intros (s' & a & Hm & HR) Hk. destruct (Hk s' a HR) as (s'' & b & Hk' & HQ).
  exists s'', b. unfold bind. by rewrite Hm.
Qed.

Lemma runs_mono {A} (m : SE S E A) s (Q R : S -> A -> Prop) :
  runs m s Q -> (forall s' a, Q s' a -> R s' a) -> runs m s R.
Proof. intros (s' & a & Hm & HQ) Himp. exists s', a. auto. Qed.

(** A triple determines the outcome: any run of the call satisfies it. *)
Lemma runs_det {A} (m : SE S E A) s s' r Q :
  runs m s Q -> m s = (s', r) -> exists a, r = Ok a /\ Q s' a.
Proof. intros (s1 & a & Hm & HQ) Heq. rewrite Hm in Heq. simplify_eq. eauto. Qed.
End runs_rules.

(** Sequential steps of a triple: [wp_bind] peels one call off a block. *)
Ltac wp_bind lem := eapply runs_bind; [lem | cbn beta; intros].

(** ** Lists *)

Section list_lemmas.
Context {A : Type}.

Lemma filter_ext_elem (P Q : A -> Prop)
    `{!forall x, Decision (P x), !forall x, Decision (Q x)} (l : list A) :
  (forall x, x ∈ l -> P x <-> Q x) -> filter P l = filter Q l.
Proof.
  induction l as [|x l IH]; intros Hiff; [done|].
  specialize (IH ltac:(intros; apply Hiff; by right)).
  destruct (decide (P x)) as [HP|HP].
  - rewrite !filter_cons_True; [by f_equal | by apply Hiff; [left|] | done].
  - rewrite !filter_cons_False; [done | | done]. intros HQ. apply HP, Hiff; [left | done].
Qed.
Lemma NoDup_fmap_elem {B} (f : A -> B) (l : list A) x y :
  NoDup (f <$> l) -> x ∈ l -> y ∈ l -> f x = f y -> x = y.
Proof.
  induction l as [|a l IH]; intros Hnd Hx Hy Hf; [by apply not_elem_of_nil in Hx|].
  apply NoDup_cons in Hnd as [Hnin Hnd].
  apply elem_of_cons in Hx, Hy. destruct Hx as [->|Hx], Hy as [->|Hy]; auto.
  - destruct Hnin. rewrite Hf. by apply list_elem_of_fmap_2.
  - destruct Hnin. rewrite <- Hf. by apply list_elem_of_fmap_2.
Qed.
End list_lemmas.

(** ** Strings (byte strings, as in Go) *)

Lemma str_app_nil_l (t : string) : "" +:+ t = t.
Proof. done. Qed.
Lemma str_app_cons c (s t : string) : String c s +:+ t = String c (s +:+ t).
Proof. done. Qed.
Lemma str_app_nil_r (s : string) : s +:+ "" = s.
Proof. induction s as [|c s IH]; [done|]. by rewrite str_app_cons, IH. Qed.
Lemma str_app_assoc (a b c : string) : (a +:+ b) +:+ c = a +:+ b +:+ c.
Proof. induction a as [|x a IH]; [done|]. by rewrite !str_app_cons, IH. Qed.
Lemma str_length_app (a b : string) :
  String.length (a +:+ b) = (String.length a + String.length b)%nat.
Proof. induction a as [|x a IH]; [done|]. rewrite str_app_cons. simpl. by rewrite IH. Qed.
Lemma str_app_inj_l (a b c : string) : a +:+ b = a +:+ c -> b = c.
Proof. apply (inj (String.app a)). Qed.

Create Rewrite HintDb strs.
#[export] Hint Rewrite str_app_nil_l str_app_cons str_app_nil_r str_app_assoc : strs.

(** Normalises concatenations to constructor form, associated to the right. *)
Ltac norm_str := autorewrite with strs.

(** Iteration of a state transformer: what a client does when it sends the same
    request several times. *)
Fixpoint repeat_run {S E A} (n : nat) (m : SE S E A) (d : result E A) (s : S) : S * result E A :=
  match n with
  | O => (s, d)
  | Datatypes.S n' => let '(s', r) := m s in repeat_run n' m r s'
  end.
