(* ===== verification/GoNum.v ===== *)
(** * Go's machine integers and their decimal text

    The parts of the Go language and of [strconv]/[encoding/hex] that the
    program uses: 64-bit signed arithmetic with its wrap-around, [strconv.Itoa],
    [strconv.Atoi], fixed-width digit fields, and lower-case hex. *)

From S2P Require Import Prelude.
From Stdlib Require Import Ascii String Decimal DecimalString DecimalZ DecimalFacts.
From stdpp Require Import strings.

Open Scope Z_scope.

(** ** 64-bit signed integers *)

Definition min_int64 : Z := - 2 ^ 63.
Definition max_int64 : Z := 2 ^ 63 - 1.
Definition int64_ok (z : Z) : Prop := min_int64 <= z <= max_int64.

(** The value an [int64] holds after an operation whose exact result is [z]. *)
Definition wrap64 (z : Z) : Z := (z + 2 ^ 63) mod 2 ^ 64 - 2 ^ 63.

#[export] Instance int64_ok_dec z : Decision (int64_ok z).
Proof. unfold int64_ok. apply _. Defined.

Lemma wrap64_ok z : int64_ok (wrap64 z).
Proof.
  unfold int64_ok, wrap64, min_int64, max_int64.
  pose proof (Z.mod_pos_bound (z + 2 ^ 63) (2 ^ 64)). lia.
Qed.

Lemma wrap64_id z : int64_ok z -> wrap64 z = z.
Proof.
  unfold int64_ok, wrap64, min_int64, max_int64. intros H.
  rewrite Z.mod_small by lia. lia.
Qed.

(** ** [strconv.Itoa] and [strconv.Atoi] *)

Definition Itoa (z : Z) : string := NilZero.string_of_int (Z.to_int z).

(** [Atoi] takes an optional sign and at least one digit, and refuses a value
    outside the range of [int]. *)
Definition Atoi (s : string) : option Z :=
  let parsed :=
    match s with
    | String "+"%char rest => Z.of_uint <$> NilZero.uint_of_string rest
    | _ => Z.of_int <$> NilZero.int_of_string s
    end in
  match parsed with
  | Some z => if decide (int64_ok z) then Some z else None
  | None => None
  end.

Lemma string_of_uint_not_plus d s : NilZero.string_of_uint d <> String "+"%char s.
Proof. destruct d; simpl; congruence. Qed.

Lemma to_uint_not_nil p : Pos.to_uint p <> Decimal.Nil.
Proof.
  intros H. pose proof (DecimalPos.Unsigned.of_to p) as Hp. by rewrite H in Hp.
Qed.

(** No leading zero. *)
Lemma to_uint_head p d : Pos.to_uint p <> Decimal.D0 d.
Proof.
  intros E. pose proof (DecimalN.Unsigned.to_of (N.to_uint (Npos p))) as Hn.
  rewrite DecimalN.Unsigned.of_to in Hn. simpl in Hn. rewrite E in Hn.
  unfold Decimal.unorm in Hn. destruct (Decimal.nzhead (Decimal.D0 d)) eqn:Ez; try discriminate Hn.
  - injection Hn as ->. apply (DecimalPos.Unsigned.to_uint_nonzero p E).
  - by apply nzhead_nonzero in Ez.
Qed.

Lemma int_of_string_Itoa z : Z.of_int <$> NilZero.int_of_string (Itoa z) = Some z.
Proof.
  unfold Itoa. rewrite NilZero.isi.
  - simpl. f_equal. apply DecimalZ.of_to.
  - destruct z; simpl; [done | | done]. intros [=]. by eapply to_uint_not_nil.
  - destruct z; simpl; [done | done |]. intros [=]. by eapply to_uint_not_nil.
Qed.

Lemma Itoa_inj z1 z2 : Itoa z1 = Itoa z2 -> z1 = z2.
Proof.
  intros E. pose proof (int_of_string_Itoa z1) as H1. pose proof (int_of_string_Itoa z2) as H2.
  rewrite E in H1. congruence.
Qed.

Lemma Itoa_not_plus z s : Itoa z <> String "+"%char s.
Proof.
  unfold Itoa. destruct (Z.to_int z); simpl; [apply string_of_uint_not_plus | congruence].
Qed.

(** Printing an [int] and reading it back gives the same [int]. *)
Lemma Atoi_Itoa z : int64_ok z -> Atoi (Itoa z) = Some z.
Proof.
  intros Hz. unfold Atoi. pose proof (Itoa_not_plus z) as Hp.
  pose proof (int_of_string_Itoa z) as Hi.
  destruct (Itoa z) as [|a r]; [discriminate Hi|].
  destruct (decide (a = "+"%char)) as [->|Ha]; [by destruct (Hp r)|].
  assert (match a with
          | "+"%char => Z.of_uint <$> NilZero.uint_of_string r
          | _ => Z.of_int <$> NilZero.int_of_string (String a r)
          end = Some z) as ->.
  { destruct a as [[] [] [] [] [] [] [] []]; try exact Hi. by destruct Ha. }
  by rewrite decide_True.
Qed.

Lemma Atoi_range s z : Atoi s = Some z -> int64_ok z.
Proof. unfold Atoi. intros H. repeat case_match; by simplify_eq. Qed.
