(* ===== verification/GoTime.v ===== *)
(** * Go's [time] package, as far as the program uses it

    An instant is its number of nanoseconds since the Unix epoch; the program
    works in UTC.  [RFC3339Nano] is [Time.Format(time.RFC3339Nano)] and
    [ParseRFC3339Nano] is [time.Parse(time.RFC3339Nano, s)], with the proleptic
    Gregorian calendar, an optional fraction and a zone offset. *)

From S2P Require Import Prelude GoNum.
From Stdlib Require Import Ascii.
From stdpp Require Import strings.

Open Scope Z_scope.

Definition second : Z := 10 ^ 9.
Definition millisecond : Z := 10 ^ 6.
Definition minute : Z := 60 * second.
Definition hour : Z := 60 * minute.
Definition day : Z := 24 * hour.

(** [Time.UnixMilli] and [Duration.Milliseconds]: the first rounds down (a
    [Time] stores whole seconds plus a non-negative remainder), the second
    toward zero. *)
Definition UnixMilli (t : Z) : Z := t / millisecond.
Definition Milliseconds (d : Z) : Z := Z.quot d millisecond.

(** ** The calendar *)

Definition leap (y : Z) : bool :=
  (y mod 4 =? 0) && (negb (y mod 100 =? 0) || (y mod 400 =? 0)).

(** Days from January 1 of year 1 to January 1 of year [y]. *)
Definition days_before_year (y : Z) : Z :=
  let p := y - 1 in 365 * p + p / 4 - p / 100 + p / 400.

Definition unix_epoch_day : Z := 719162.

Definition month_lengths (y : Z) : list Z :=
  [31; (if leap y then 29 else 28); 31; 30; 31; 30; 31; 31; 30; 31; 30; 31].

Fixpoint sum_list (l : list Z) : Z :=
  match l with [] => 0 | x :: l' => x + sum_list l' end.

(** Month and day of the month for a day of the year (from 0). *)
Fixpoint find_month (lens : list Z) (m doy : Z) : Z * Z :=
  match lens with
  | [] => (m, doy + 1)
  | len :: lens' => if doy <? len then (m, doy + 1) else find_month lens' (m + 1) (doy - len)
  end.

(** The year of a day: at most one year per 366 days to start with, then up. *)
Fixpoint year_up (fuel : nat) (y d : Z) : Z :=
  match fuel with
  | O => y
  | S fuel' => if days_before_year (y + 1) <=? d then year_up fuel' (y + 1) d else y
  end.

Definition year_fuel : nat := 30.
Definition year_of (d : Z) : Z := year_up year_fuel (d / 366 + 1) d.

Definition days_before_month (y m : Z) : Z := sum_list (take (Z.to_nat (m - 1)) (month_lengths y)).

(** ** Digits *)

Definition digit (d : Z) : ascii := ascii_of_N (Z.to_N (48 + d)).
Definition digit_val (c : ascii) : option Z :=
  let n := Z.of_N (N_of_ascii c) in
  if (48 <=? n) && (n <=? 57) then Some (n - 48) else None.

(** [n] decimal digits of [z], zero padded. *)
Fixpoint pad (n : nat) (z : Z) : string :=
  match n with
  | O => ""
  | S n' => String (digit (z / 10 ^ Z.of_nat n' mod 10)) (pad n' (z mod 10 ^ Z.of_nat n'))
  end.

Fixpoint read_digits (n : nat) (acc : Z) (s : string) : option (Z * string) :=
  match n, s with
  | O, _ => Some (acc, s)
  | S n', String c s' =>
      match digit_val c with
      | Some d => read_digits n' (acc * 10 + d) s'
      | None => None
      end
  | S _, "" => None
  end.

(** A fraction of a second has up to nine significant digits. *)
Fixpoint read_frac (n : nat) (acc : Z) (s : string) : Z * string :=
  match s with
  | "" => (acc * 10 ^ Z.of_nat n, "")
  | String c s' =>
      match digit_val c with
      | Some d => match n with
                  | O => read_frac O acc s'
                  | S n' => read_frac n' (acc * 10 + d) s'
                  end
      | None => (acc * 10 ^ Z.of_nat n, s)
      end
  end.

Fixpoint strip_zeros (s : string) : string :=
  match s with
  | "" => ""
  | String c s' =>
      match strip_zeros s' with
      | "" => if bool_decide (c = "0"%char) then "" else String c ""
      | r => String c r
      end
  end.

(** ** Format *)

Definition fmt_year (y : Z) : string :=
  if (0 <=? y) && (y <? 10000) then pad 4 y
  else if y <? 0 then "-" +:+ (if (- y <? 10000) then pad 4 (- y) else Itoa (- y))
  else Itoa y.

Definition fmt_frac (ns : Z) : string :=
  if ns =? 0 then "" else "." +:+ strip_zeros (pad 9 ns).

Definition RFC3339Nano (t : Z) : string :=
  let d := t / day + unix_epoch_day in
  let r := t mod day in
  let y := year_of d in
  let md := find_month (month_lengths y) 1 (d - days_before_year y) in
  fmt_year y +:+ "-" +:+ pad 2 md.1 +:+ "-" +:+ pad 2 md.2 +:+ "T" +:+
  pad 2 (r / hour) +:+ ":" +:+ pad 2 (r mod hour / minute) +:+ ":" +:+
  pad 2 (r mod minute / second) +:+ fmt_frac (r mod second) +:+ "Z".

(** ** Parse *)

Definition expect (c : ascii) (s : string) : option string :=
  match s with String c' s' => if bool_decide (c = c') then Some s' else None | "" => None end.

Definition read_opt_frac (s : string) : Z * string :=
  match s with
  | String c s' =>
      if bool_decide (c = "."%char) || bool_decide (c = ","%char) then
        match s' with
        | String c' _ => match digit_val c' with Some _ => read_frac 9 0 s' | None => (0, s) end
        | "" => (0, s)
        end
      else (0, s)
  | "" => (0, s)
  end.

(** The zone: "Z" or a signed hh:mm, in nanoseconds east of UTC. *)
Definition read_zone (s : string) : option Z :=
  match s with
  | String "Z" "" => Some 0
  | String sg s1 =>
      '(hh, s2) ← read_digits 2 0 s1;
      s3 ← expect ":" s2;
      '(mm, s4) ← read_digits 2 0 s3;
      if bool_decide (s4 = "") && (hh <=? 24) && (mm <=? 60) then
        if bool_decide (sg = "+"%char) then Some (hh * hour + mm * minute)
        else if bool_decide (sg = "-"%char) then Some (- (hh * hour + mm * minute))
        else None
      else None
  | "" => None
  end.

Definition valid_date (y m d : Z) : bool :=
  (1 <=? m) && (m <=? 12) && (1 <=? d) &&
  (d <=? nth (Z.to_nat (m - 1)) (month_lengths y) 0).

(** The hour may have one digit. *)
Definition read_hour (s : string) : option (Z * string) :=
  match s with
  | String c s1 =>
      d ← digit_val c;
      match s1 with
      | String c' s2 => match digit_val c' with Some d' => Some (d * 10 + d', s2) | None => Some (d, s1) end
      | "" => Some (d, s1)
      end
  | "" => None
  end.

(** The time on the clock of the zone, and the zone. *)
Definition ParseRFC3339 (s : string) : option (Z * Z) :=
  '(y, s) ← read_digits 4 0 s;
  s ← expect "-" s;
  '(m, s) ← read_digits 2 0 s;
  s ← expect "-" s;
  '(d, s) ← read_digits 2 0 s;
  s ← expect "T" s;
  '(h, s) ← read_hour s;
  s ← expect ":" s;
  '(mi, s) ← read_digits 2 0 s;
  s ← expect ":" s;
  '(se, s) ← read_digits 2 0 s;
  let '(ns, s) := read_opt_frac s in
  z ← read_zone s;
  if valid_date y m d && (h <? 24) && (mi <? 60) && (se <? 60) then
    Some ((days_before_year y + days_before_month y m + d - 1 - unix_epoch_day) * day +
          h * hour + mi * minute + se * second + ns, z)
  else None.

Definition ParseRFC3339Nano (s : string) : option Z :=
  '(wall, z) ← ParseRFC3339 s; Some (wall - z).

(** ** Round trip *)

(** Instants in the years 0 to 9999, the ones RFC 3339 can write. *)
Definition time_ok (t : Z) : Prop :=
  (days_before_year 0 - unix_epoch_day) * day <= t < (days_before_year 10000 - unix_epoch_day) * day.

#[export] Instance time_ok_dec t : Decision (time_ok t).
Proof. unfold time_ok. apply _. Defined.

(** *** The year *)

Lemma days_before_year_next y :
  days_before_year (y + 1) = days_before_year y + 365 + (if leap y then 1 else 0).
Proof.
  unfold days_before_year, leap. replace (y + 1 - 1) with y by lia.
  destruct (Z.eqb_spec (y mod 4) 0), (Z.eqb_spec (y mod 100) 0), (Z.eqb_spec (y mod 400) 0);
    simpl; Z.div_mod_to_equations; lia.
Qed.

Lemma year_up_spec fuel y d :
  days_before_year y <= d < days_before_year (y + Z.of_nat fuel) ->
  days_before_year (year_up fuel y d) <= d < days_before_year (year_up fuel y d + 1).
Proof.
  revert y. induction fuel as [|fuel IH]; intros y Hd; simpl.
  { rewrite Z.add_0_r in Hd. lia. }
  destruct (Z.leb_spec (days_before_year (y + 1)) d); [|lia].
  apply IH. replace (y + 1 + Z.of_nat fuel) with (y + Z.of_nat (S fuel)) by lia. lia.
Qed.

Lemma days_before_year_0 : days_before_year 0 = -366.
Proof. reflexivity. Qed.
Lemma days_before_year_10000 : days_before_year 10000 = 3652059.
Proof. reflexivity. Qed.

Lemma year_of_spec d :
  days_before_year 0 <= d < days_before_year 10000 ->
  days_before_year (year_of d) <= d < days_before_year (year_of d + 1) /\
  0 <= year_of d < 10000.
Proof.
  rewrite days_before_year_0, days_before_year_10000. intros Hd.
  assert (days_before_year (year_of d) <= d < days_before_year (year_of d + 1)) as Hy.
  { apply year_up_spec. unfold days_before_year, year_fuel.
    replace (d / 366 + 1 - 1) with (d / 366) by lia.
    replace (d / 366 + 1 + Z.of_nat 30 - 1) with (d / 366 + 30) by lia.
    Z.div_mod_to_equations. lia. }
  split; [done|]. unfold days_before_year in Hy. Z.div_mod_to_equations. lia.
Qed.

Lemma year_length y : sum_list (month_lengths y) = 365 + (if leap y then 1 else 0).
Proof. unfold month_lengths. destruct (leap y); reflexivity. Qed.

(** *** The month *)

Lemma find_month_spec lens m doy :
  Forall (fun l => 0 < l) lens -> 0 <= doy < sum_list lens ->
  let r := find_month lens m doy in
  m <= r.1 < m + Z.of_nat (length lens) /\
  1 <= r.2 <= nth (Z.to_nat (r.1 - m)) lens 0 /\
  sum_list (take (Z.to_nat (r.1 - m)) lens) + r.2 - 1 = doy.
Proof.
  revert m doy. induction lens as [|len lens IH]; intros m doy Hpos Hd; simpl in *; [lia|].
  inversion Hpos; subst. destruct (Z.ltb_spec doy len); simpl.
  { rewrite Z.sub_diag. simpl. lia. }
  destruct (IH (m + 1) (doy - len)) as (H3 & H4 & H5); [done | lia |].
  set (r := find_month lens (m + 1) (doy - len)) in *.
  replace (Z.to_nat (r.1 - m)) with (S (Z.to_nat (r.1 - (m + 1)))) by lia. simpl. lia.
Qed.

Lemma month_lengths_pos y : Forall (fun l => 0 < l) (month_lengths y).
Proof. unfold month_lengths. destruct (leap y); repeat constructor. Qed.

(** *** Digits *)

Lemma digit_val_digit d : 0 <= d < 10 -> digit_val (digit d) = Some d.
Proof.
  intros Hd. unfold digit_val, digit.
  assert (Z.of_N (N_of_ascii (ascii_of_N (Z.to_N (48 + d)))) = 48 + d) as ->.
  { rewrite N_ascii_embedding by lia. lia. }
  rewrite (proj2 (Z.leb_le 48 (48 + d))) by lia.
  rewrite (proj2 (Z.leb_le (48 + d) 57)) by lia. simpl. f_equal. lia.
Qed.

Lemma pow10_pos n : 0 < 10 ^ Z.of_nat n.
Proof. apply Z.pow_pos_nonneg; lia. Qed.

Lemma pow10_S n : 10 ^ Z.of_nat (S n) = 10 * 10 ^ Z.of_nat n.
Proof. rewrite Nat2Z.inj_succ, Z.pow_succ_r by lia. done. Qed.

Lemma pad_head n z :
  0 <= z < 10 ^ Z.of_nat (S n) ->
  0 <= z / 10 ^ Z.of_nat n < 10 /\ 0 <= z mod 10 ^ Z.of_nat n < 10 ^ Z.of_nat n /\
  (z / 10 ^ Z.of_nat n) mod 10 = z / 10 ^ Z.of_nat n /\
  z = z / 10 ^ Z.of_nat n * 10 ^ Z.of_nat n + z mod 10 ^ Z.of_nat n.
Proof.
  rewrite pow10_S. intros Hz. pose proof (pow10_pos n).
  assert (0 <= z / 10 ^ Z.of_nat n < 10) as Hq.
  { split; [apply Z.div_pos; lia | apply Z.div_lt_upper_bound; lia]. }
  split_and!; try lia.
  - apply Z.mod_pos_bound. lia.
  - apply Z.mod_pos_bound. lia.
  - by apply Z.mod_small.
  - pose proof (Z.div_mod z (10 ^ Z.of_nat n)). lia.
Qed.

Lemma read_digits_pad n acc z rest :
  0 <= z < 10 ^ Z.of_nat n ->
  read_digits n acc (pad n z +:+ rest) = Some (acc * 10 ^ Z.of_nat n + z, rest).
Proof.
  revert acc z. induction n as [|n IH]; intros acc z Hz.
  { change (10 ^ Z.of_nat 0) with 1 in *. cbn. do 2 f_equal. lia. }
  destruct (pad_head n z Hz) as (Hq & Hr & Hm & Heq).
  cbn [pad]. rewrite str_app_cons. cbn [read_digits]. rewrite Hm, digit_val_digit by done.
  rewrite IH by done. rewrite pow10_S. do 2 f_equal. lia.
Qed.

Lemma strip_pad_nil n z :
  0 <= z < 10 ^ Z.of_nat n -> strip_zeros (pad n z) = "" -> z = 0.
Proof.
  revert z. induction n as [|n IH]; intros z Hz.
  { change (10 ^ Z.of_nat 0) with 1 in *. lia. }
  destruct (pad_head n z Hz) as (Hq & Hr & Hm & Heq). cbn [pad strip_zeros]. rewrite Hm.
  destruct (strip_zeros (pad n (z mod 10 ^ Z.of_nat n))) eqn:E; [|done].
  apply IH in E; [|done]. case_bool_decide as H0; [|done]. intros _.
  apply (f_equal digit_val) in H0. rewrite digit_val_digit in H0 by done.
  change (digit_val "0") with (Some 0) in H0. injection H0 as H0. rewrite Heq, H0, E. lia.
Qed.

(** A string that does not continue a number. *)
Definition no_digit (s : string) : Prop :=
  match s with String c _ => digit_val c = None | "" => True end.

Lemma read_frac_stop n acc rest :
  no_digit rest -> read_frac n acc rest = (acc * 10 ^ Z.of_nat n, rest).
Proof. destruct rest as [|c r]; [done|]. cbn. by intros ->. Qed.

Lemma read_frac_pad n acc z rest :
  0 <= z < 10 ^ Z.of_nat n -> no_digit rest ->
  read_frac n acc (strip_zeros (pad n z) +:+ rest) = (acc * 10 ^ Z.of_nat n + z, rest).
Proof.
  revert acc z. induction n as [|n IH]; intros acc z Hz Hrest.
  { change (10 ^ Z.of_nat 0) with 1 in *. rewrite read_frac_stop by done.
    change (10 ^ Z.of_nat 0) with 1. f_equal. lia. }
  destruct (pad_head n z Hz) as (Hq & Hr & Hm & Heq). cbn [pad strip_zeros]. rewrite Hm, pow10_S.
  specialize (IH (acc * 10 + z / 10 ^ Z.of_nat n) _ Hr Hrest).
  destruct (strip_zeros (pad n (z mod 10 ^ Z.of_nat n))) as [|c t] eqn:E.
  - apply strip_pad_nil in E; [|done]. rewrite E in *. rewrite str_app_nil_l in IH.
    case_bool_decide as H0.
    + apply (f_equal digit_val) in H0. rewrite digit_val_digit in H0 by done.
      change (digit_val "0") with (Some 0) in H0. injection H0 as H0.
      rewrite str_app_nil_l, read_frac_stop by done. rewrite pow10_S. f_equal. lia.
    + rewrite str_app_cons, str_app_nil_l. cbn [read_frac]. rewrite digit_val_digit, IH by done.
      f_equal. lia.
  - rewrite str_app_cons. cbn [read_frac]. rewrite digit_val_digit, IH by done. f_equal. lia.
Qed.

Lemma expect_ok c s : expect c (String c s) = Some s.
Proof. unfold expect. by rewrite bool_decide_eq_true_2. Qed.

Lemma fmt_year_pad y : 0 <= y < 10000 -> fmt_year y = pad 4 y.
Proof.
  intros Hy. unfold fmt_year.
  rewrite (proj2 (Z.leb_le 0 y)), (proj2 (Z.ltb_lt y 10000)) by lia. done.
Qed.

Lemma strip_pad_head n z :
  0 <= z < 10 ^ Z.of_nat n -> z <> 0 ->
  exists c t, strip_zeros (pad n z) = String c t /\ is_Some (digit_val c).
Proof.
  destruct n as [|n]; intros Hz Hne; [change (10 ^ Z.of_nat 0) with 1 in Hz; lia|].
  destruct (pad_head n z Hz) as (Hq & _ & Hm & _).
  destruct (strip_zeros (pad (S n) z)) as [|c t] eqn:E; [by apply strip_pad_nil in E|].
  exists c, t. split; [done|]. cbn [pad strip_zeros] in E. rewrite Hm in E.
  assert (c = digit (z / 10 ^ Z.of_nat n)) as ->.
  { destruct (strip_zeros _); [|congruence]. case_bool_decide; congruence. }
  rewrite digit_val_digit by done. eauto.
Qed.

Lemma read_opt_frac_fmt ns rest :
  0 <= ns < second -> no_digit rest ->
  (match rest with String c _ => c <> "."%char /\ c <> ","%char | "" => True end) ->
  read_opt_frac (fmt_frac ns +:+ rest) = (ns, rest).
Proof.
  intros Hns Hrest Hsep. unfold fmt_frac. destruct (Z.eqb_spec ns 0) as [->|Hne].
  - rewrite str_app_nil_l. unfold read_opt_frac. destruct rest as [|c r]; [done|].
    destruct Hsep. rewrite !bool_decide_eq_false_2 by done. done.
  - destruct (strip_pad_head 9 ns) as (c & t & Hc & [v Hv]); [exact Hns | done |].
    pose proof (read_frac_pad 9 0 ns rest Hns Hrest) as Hf. rewrite Hc in *.
    rewrite str_app_assoc, !str_app_cons, str_app_nil_l in *. unfold read_opt_frac.
    rewrite bool_decide_eq_true_2 by done. cbn [orb]. rewrite Hv. exact Hf.
Qed.

(** Splitting an instant into calendar day and time of day, and back. *)
Lemma time_of_day t :
  let r := t mod day in
  t = t / day * day + (r / hour * hour + r mod hour / minute * minute +
                       r mod minute / second * second + r mod second) /\
  0 <= r / hour < 24 /\ 0 <= r mod hour / minute < 60 /\
  0 <= r mod minute / second < 60 /\ 0 <= r mod second < second.
Proof.
  assert (0 <= t mod day < day) as Hr by (apply Z.mod_pos_bound; reflexivity).
  pose proof (Z.div_mod t day ltac:(discriminate)) as Ht. cbn zeta.
  remember (t mod day) as r. remember (t / day) as q.
  unfold day, hour, minute, second in *. change (10 ^ 9) with 1000000000 in *.
  clear Heqr Heqq. Z.div_mod_to_equations. lia.
Qed.

Lemma time_ok_day t :
  time_ok t -> days_before_year 0 <= t / day + unix_epoch_day < days_before_year 10000.
Proof.
  unfold time_ok. rewrite days_before_year_0, days_before_year_10000. unfold unix_epoch_day.
  assert (0 < day) as Hd by reflexivity. remember day as D. intros [H1 H2].
  assert (-366 - 719162 <= t / D) by (apply Z.div_le_lower_bound; lia).
  assert (t / D < 3652059 - 719162) by (apply Z.div_lt_upper_bound; lia). lia.
Qed.

Lemma nth_month_lengths y n : nth n (month_lengths y) 0 <= 31.
Proof.
  unfold month_lengths. do 12 (destruct n as [|n]; [simpl; destruct (leap y); lia|]).
  destruct n; simpl; lia.
Qed.

Lemma read_hour_pad z rest : 0 <= z < 100 -> read_hour (pad 2 z +:+ rest) = Some (z, rest).
Proof.
  intros Hz. cbn [pad]. rewrite !str_app_cons, str_app_nil_l. cbn [read_hour].
  change (10 ^ Z.of_nat 1) with 10. change (10 ^ Z.of_nat 0) with 1.
  rewrite !digit_val_digit by (apply Z.mod_pos_bound; lia). cbn [mbind option_bind]. do 2 f_equal.
  Z.div_mod_to_equations. lia.
Qed.

(** Parsing a formatted instant of the years 0 to 9999 gives it back, in UTC. *)
Lemma Parse_RFC3339 t : time_ok t -> ParseRFC3339 (RFC3339Nano t) = Some (t, 0).
Proof.
  intros Ht. pose proof (time_ok_day t Ht) as Hd.
  destruct (year_of_spec _ Hd) as [Hy Hyr]. destruct (time_of_day t) as (Et & Hh & Hmi & Hse & Hns).
  unfold RFC3339Nano. set (d := t / day + unix_epoch_day) in *. set (y := year_of d) in *.
  rewrite days_before_year_next in Hy.
  destruct (find_month_spec (month_lengths y) 1 (d - days_before_year y)) as (Hm & Hdd & Esum).
  { apply month_lengths_pos. }
  { rewrite year_length. lia. }
  set (md := find_month (month_lengths y) 1 (d - days_before_year y)) in *.
  change (length (month_lengths y)) with 12%nat in Hm. rewrite (fmt_year_pad y Hyr).
  assert (md.2 <= 31).
  { etrans; [apply Hdd | apply nth_month_lengths]. }
  unfold ParseRFC3339.
  repeat (first [rewrite read_hour_pad by lia |
                 rewrite read_digits_pad by (change (10 ^ Z.of_nat 4) with 10000;
                   change (10 ^ Z.of_nat 2) with 100; lia)];
          cbn [mbind option_bind]; rewrite ?str_app_cons, ?str_app_nil_l, ?expect_ok;
          cbn [mbind option_bind]).
  rewrite read_opt_frac_fmt by done. cbn [read_zone mbind option_bind].
  rewrite !Z.mul_0_l, !Z.add_0_l.
  assert (valid_date y md.1 md.2 = true) as ->.
  { unfold valid_date. rewrite !andb_true_iff, !Z.leb_le. split_and!; lia. }
  rewrite (proj2 (Z.ltb_lt _ _) (proj2 Hh)), (proj2 (Z.ltb_lt _ _) (proj2 Hmi)),
    (proj2 (Z.ltb_lt _ _) (proj2 Hse)). cbn [andb]. do 2 f_equal.
  assert (days_before_year y + days_before_month y md.1 + md.2 - 1 - unix_epoch_day = t / day) as ->.
  { unfold days_before_month. clear -Esum. unfold d in *. lia. }
  etrans; [|symmetry; exact Et]. ring.
Qed.

Lemma Parse_RFC3339Nano t : time_ok t -> ParseRFC3339Nano (RFC3339Nano t) = Some t.
Proof. intros Ht. unfold ParseRFC3339Nano. rewrite Parse_RFC3339 by done. cbn. f_equal. lia. Qed.
