(* ===== verification/Errors.v ===== *)
(** * Error values

    The sentinel errors of [queue/errors.go], the errors the Go runtime and the
    Redis client hand to the program, and the wrapping done by [fmt.Errorf]
    with [%w].  [errors_Is] is Go's [errors.Is]: it looks through wrapping. *)

From S2P Require Import Prelude.

Inductive error : Type :=
  | ErrNotImplemented
  | ErrUnknownTask
  | ErrInvalidJob
  | ErrLeaseLost
  | ErrCanceled                 (* context.Canceled *)
  | ErrDeadlineExceeded         (* context.DeadlineExceeded, or a network timeout *)
  | ErrShutdown                 (* worker.go: errShutdown *)
  | ErrNet                      (* the client gave up: no reply from Redis *)
  | ErrReply (msg : string)     (* an error reply from Redis *)
  | ErrMsg (msg : string)       (* errors.New / a handler's error *)
  | ErrWrap (pre : string) (e : error) (post : string).  (* fmt.Errorf with %w *)

#[export] Instance error_eq_dec : EqDecision error.
Proof. solve_decision. Defined.

Fixpoint errors_Is (e target : error) : bool :=
  bool_decide (e = target) ||
  match e with ErrWrap _ e' _ => errors_Is e' target | _ => false end.

(** [err.Error()]. *)
Fixpoint error_string (e : error) : string :=
  match e with
  | ErrNotImplemented => "not implemented"
  | ErrUnknownTask => "unknown task"
  | ErrInvalidJob => "invalid job"
  | ErrLeaseLost => "lease lost"
  | ErrCanceled => "context canceled"
  | ErrDeadlineExceeded => "context deadline exceeded"
  | ErrShutdown => "worker shutdown timed out"
  | ErrNet => "i/o error"
  | ErrReply m | ErrMsg m => m
  | ErrWrap pre e' post => pre +:+ error_string e' +:+ post
  end.

Lemma errors_Is_refl e : errors_Is e e = true.
Proof. destruct e; cbn [errors_Is]; by rewrite bool_decide_eq_true_2. Qed.

Lemma errors_Is_wrap pre e post t :
  errors_Is e t = true -> errors_Is (ErrWrap pre e post) t = true.
Proof. intros H. cbn [errors_Is]. by rewrite H, orb_true_r. Qed.
