(* ===== verification/Job.v ===== *)
(** * Jobs and leases ([queue/job.go])

    The job record, its lease, the fencing token that orders the runs of a job,
    and the checks on a job. Times are nanoseconds since the Unix epoch (UTC);
    [int] and [int64] fields are integers kept at 64 bits. *)

From S2P Require Import Prelude GoNum Errors.
From Stdlib Require Import Ascii.
From stdpp Require Import strings.

Open Scope Z_scope.

(** A Redis stream entry ID, "<ms>-<seq>", as its two numbers. *)
Abbreviation eid := (N * N)%type.

Definition eid_lt (a b : eid) : Prop :=
  (a.1 < b.1)%N \/ (a.1 = b.1 /\ (a.2 < b.2)%N).
Definition eid_le (a b : eid) : Prop := a = b \/ eid_lt a b.

#[export] Instance eid_lt_dec : RelDecision eid_lt.
Proof. intros a b. unfold eid_lt. apply _. Defined.
#[export] Instance eid_le_dec : RelDecision eid_le.
Proof. intros a b. unfold eid_le. apply _. Defined.

(** ** Data *)

(** [Lease] identifies one delivery of a job to one worker. *)
Record Lease := mkLease {
  MessageID : eid;
  Owner : string;
  Token : Z;
  Partition : Z;
}.

Record Job := mkJob {
  ID : string;
  Task : string;
  Payload : string;
  Attempt : Z;
  MaxAttempts : Z;
  TraceParent : string;
  CreatedAt : Z;
  AvailableAt : Z;
  IdempotencyKey : string;
  JLease : Lease;
}.

Record EnqueueOptions := mkEnqueueOptions {
  eo_MaxAttempts : Z;
  eo_Delay : Z;
  eo_IdempotencyKey : string;
}.

Record JobResult := mkJobResult {
  Retryable : bool;
  ResErr : option error;
}.

#[export] Instance Lease_eq_dec : EqDecision Lease.
Proof. solve_decision. Defined.
#[export] Instance Job_eq_dec : EqDecision Job.
Proof. solve_decision. Defined.

Definition zeroLease : Lease := mkLease (0%N, 0%N) "" 0 0.

(** Record updates the program performs on a job. *)
Definition set_ID (j : Job) (i : string) : Job :=
  mkJob i (Task j) (Payload j) (Attempt j) (MaxAttempts j) (TraceParent j)
    (CreatedAt j) (AvailableAt j) (IdempotencyKey j) (JLease j).
Definition set_Attempt (j : Job) (a : Z) : Job :=
  mkJob (ID j) (Task j) (Payload j) a (MaxAttempts j) (TraceParent j)
    (CreatedAt j) (AvailableAt j) (IdempotencyKey j) (JLease j).
Definition set_TraceParent (j : Job) (t : string) : Job :=
  mkJob (ID j) (Task j) (Payload j) (Attempt j) (MaxAttempts j) t
    (CreatedAt j) (AvailableAt j) (IdempotencyKey j) (JLease j).
Definition set_Lease (j : Job) (l : Lease) : Job :=
  mkJob (ID j) (Task j) (Payload j) (Attempt j) (MaxAttempts j) (TraceParent j)
    (CreatedAt j) (AvailableAt j) (IdempotencyKey j) l.
Definition set_Partition (l : Lease) (p : Z) : Lease :=
  mkLease (MessageID l) (Owner l) (Token l) p.

(** ** Operations *)

Definition hex_digit (n : N) : ascii :=
  ascii_of_N (if (n <? 10)%N then 48 + n else 87 + n)%N.

(** [hex.EncodeToString]. *)
Fixpoint hex_encode (bs : list ascii) : string :=
  match bs with
  | [] => ""
  | b :: bs' =>
      String (hex_digit (N_of_ascii b / 16))
        (String (hex_digit (N_of_ascii b mod 16)) (hex_encode bs'))
  end.

(** [NewJobID] of the 16 random bytes read from [crypto/rand]. *)
Definition NewJobID (b : list ascii) : string := hex_encode b.

Definition FencingToken (j : Job) : Z :=
  Z.lor (wrap64 (Z.shiftl (Attempt j) 32)) (Token (JLease j)).

Definition NewRetryableError (e : error) : JobResult := mkJobResult true (Some e).
Definition NewPermanentError (e : error) : JobResult := mkJobResult false (Some e).

Definition Validate (j : Job) : option error :=
  if bool_decide (Task j = "") || (String.length (Payload j) =? 0)%nat then Some ErrInvalidJob
  else if MaxAttempts j <=? 0 then Some ErrInvalidJob
  else None.

Definition Exhausted (j : Job) : bool := MaxAttempts j <=? wrap64 (Attempt j + 1).

(** ** The order of stream IDs *)

Lemma eid_lt_irrefl a : ~ eid_lt a a.
Proof. unfold eid_lt. lia. Qed.

Lemma eid_lt_trans a b c : eid_lt a b -> eid_lt b c -> eid_lt a c.
Proof. unfold eid_lt. lia. Qed.

Lemma eid_le_lt_trans a b c : eid_le a b -> eid_lt b c -> eid_lt a c.
Proof. intros [->|?] ?; [done|]. by eapply eid_lt_trans. Qed.

Lemma eid_lt_le_trans a b c : eid_lt a b -> eid_le b c -> eid_lt a c.
Proof. intros ? [->|?]; [done|]. by eapply eid_lt_trans. Qed.

Lemma eid_le_trans a b c : eid_le a b -> eid_le b c -> eid_le a c.
Proof. intros [->|?] ?; [done|]. right. by eapply eid_lt_le_trans. Qed.

Lemma eid_le_refl a : eid_le a a.
Proof. by left. Qed.

Lemma eid_le_zero a : eid_le (0%N, 0%N) a.
Proof. destruct a as [a b]. unfold eid_le, eid_lt. simpl. destruct a, b; naive_solver lia. Qed.

Lemma eid_lt_neq a b : eid_lt a b -> a <> b.
Proof. intros H ->. by apply eid_lt_irrefl in H. Qed.

Lemma eid_not_lt a b : ~ eid_lt a b <-> eid_le b a.
Proof.
  destruct a as [a1 a2], b as [b1 b2]. unfold eid_le, eid_lt. simpl. split.
  - intros H. destruct (decide (a1 = b1)) as [->|]; [|right; left; lia].
    destruct (decide (a2 = b2)) as [->|]; [by left | right; right; lia].
  - intros [[= -> ->]|?]; lia.
Qed.

Lemma eid_not_le a b : ~ eid_le a b <-> eid_lt b a.
Proof.
  rewrite <- eid_not_lt. split; [|tauto]. intros H. destruct (decide (eid_lt b a)); tauto.
Qed.

#[export] Hint Resolve eid_le_refl eid_lt_irrefl : dtq.

(** ** Fencing tokens *)

(** Within 31-bit attempts and 32-bit delivery counts the two halves of a token
    do not overlap. *)
Definition token_fits (j : Job) : Prop :=
  0 <= Attempt j < 2 ^ 31 /\ 0 <= Token (JLease j) < 2 ^ 32.

Lemma FencingToken_fits j :
  token_fits j -> FencingToken j = Attempt j * 2 ^ 32 + Token (JLease j).
Proof.
  intros [Ha Ht]. unfold FencingToken.
  rewrite Z.shiftl_mul_pow2 by lia.
  rewrite wrap64_id by (unfold int64_ok, min_int64, max_int64; lia).
  assert (Z.land (Attempt j * 2 ^ 32) (Token (JLease j)) = 0) as Hdisj.
  { apply Z.bits_inj'. intros n Hn. rewrite Z.land_spec, Z.bits_0.
    destruct (decide (n < 32)).
    { rewrite Z.mul_pow2_bits_low by lia. done. }
    rewrite (Z.bits_above_log2 (Token (JLease j)) n); [apply andb_false_r | lia |].
    destruct (decide (Token (JLease j) = 0)) as [->|]; [simpl; lia |].
    apply Z.log2_lt_pow2; [lia |]. eapply Z.lt_le_trans; [apply Ht |].
    apply Z.pow_le_mono_r; lia. }
  by rewrite Z.add_nocarry_lxor, Z.lxor_lor.
Qed.

(** A later run of a job: a retry of it, or a redelivery of the same attempt. *)
Definition later_run (j1 j2 : Job) : Prop :=
  Attempt j1 < Attempt j2 \/
  (Attempt j1 = Attempt j2 /\ Token (JLease j1) < Token (JLease j2)).

(** Fencing tokens order the runs of a job: while the attempt number and
    the delivery count stay in range, a run has a higher token than another
    exactly if it is a later attempt or a later delivery of the same attempt. *)
Theorem FencingToken_order j1 j2 :
  token_fits j1 -> token_fits j2 ->
  later_run j1 j2 <-> FencingToken j1 < FencingToken j2.
Proof.
  intros H1 H2. rewrite !FencingToken_fits by done.
  destruct H1 as [? ?], H2 as [? ?]. unfold later_run.
  split; [nia |]. intros Hlt.
  destruct (Z.lt_trichotomy (Attempt j1) (Attempt j2)) as [?|[?|?]]; [by left | right; nia | nia].
Qed.

Lemma FencingToken_order_witness :
  let run a n := mkJob "a1" "email" "{}" a 3 "" 0 0 "" (mkLease (5%N, 0%N) "w1" n 0) in
  later_run (run 0 7) (run 1 1) <-> FencingToken (run 0 7) < FencingToken (run 1 1).
Proof. intros run. apply (FencingToken_order (run 0 7) (run 1 1)); split; simpl; lia. Defined.

(** ** Job IDs *)

Lemma hex_encode_length bs : String.length (hex_encode bs) = (2 * length bs)%nat.
Proof. induction bs as [|b bs IH]; simpl; [done|]. rewrite IH. lia. Qed.

Lemma hex_digit_inj m n :
  (m < 16)%N -> (n < 16)%N -> hex_digit m = hex_digit n -> m = n.
Proof.
  unfold hex_digit. intros Hm Hn H. apply (f_equal N_of_ascii) in H.
  rewrite !N_ascii_embedding in H; repeat case_match; try lia.
  all: repeat match goal with H : (_ <? _)%N = true |- _ => apply N.ltb_lt in H
    | H : (_ <? _)%N = false |- _ => apply N.ltb_ge in H end; lia.
Qed.

Lemma hex_encode_inj bs cs : hex_encode bs = hex_encode cs -> bs = cs.
Proof.
  revert cs. induction bs as [|b bs IH]; intros [|c cs]; simpl; try congruence.
  intros [= H1 H2 H3]. f_equal; [|auto].
  pose proof (N_ascii_bounded b). pose proof (N_ascii_bounded c).
  apply hex_digit_inj in H1; [|apply N.Div0.div_lt_upper_bound; lia..].
  apply hex_digit_inj in H2; [|apply N.mod_lt; lia..].
  rewrite <- (ascii_N_embedding b), <- (ascii_N_embedding c). f_equal.
  rewrite (N.div_mod' (N_of_ascii b) 16), (N.div_mod' (N_of_ascii c) 16). congruence.
Qed.

(** ** Validation *)

Lemma Validate_ok j :
  Validate j = None <-> Task j <> "" /\ Payload j <> "" /\ 0 < MaxAttempts j.
Proof.
  unfold Validate. rewrite <- (bool_decide_eq_false (Task j = "")).
  destruct (bool_decide (Task j = "")); simpl; [naive_solver|].
  destruct (Payload j); simpl; [naive_solver|].
  destruct (Z.leb_spec (MaxAttempts j) 0); naive_solver lia.
Qed.
