(* ===== verification/GoJson.v ===== *)
(** * JSON text of a string map

    [encoding/json]'s encoding of a [map[string]string], which is how the store
    writes a job's fields for the Lua scripts: keys in byte order, strings
    quoted with Go's escapes, bytes that are not UTF-8 replaced by [\ufffd].
    [json_members] reads such an object back; it is the reference decoder the
    reference Redis of [RefRedis] uses in place of [cjson.decode]. *)

From S2P Require Import Prelude Job.
From Stdlib Require Import Ascii String.
From stdpp Require Import strings.

Open Scope string_scope.

Definition dq : ascii := "034".
Definition bslash : ascii := "092".

(** ** Encoding *)

(** The escape of a byte below 0x80. *)
Definition esc_byte (c : ascii) : string :=
  let n := N_of_ascii c in
  if bool_decide (c = dq) then String bslash (String dq "")
  else if bool_decide (c = bslash) then String bslash (String bslash "")
  else if (n =? 8)%N then String bslash "b"
  else if (n =? 12)%N then String bslash "f"
  else if (n =? 10)%N then String bslash "n"
  else if (n =? 13)%N then String bslash "r"
  else if (n =? 9)%N then String bslash "t"
  else if (n <? 32)%N || (n =? 60)%N || (n =? 62)%N || (n =? 38)%N
  then String bslash ("u00" +:+
         String (hex_digit (n / 16)) (String (hex_digit (n mod 16)) ""))
  else String c "".

Definition in_range (c : ascii) (lo hi : N) : bool :=
  ((lo <=? N_of_ascii c) && (N_of_ascii c <=? hi))%N.
Definition cont (c : ascii) : bool := in_range c 128 191.

(** Well-formed UTF-8 sequences of two, three and four bytes. *)
Definition utf8_2 (a b : ascii) : bool := in_range a 194 223 && cont b.
Definition utf8_3 (a b c : ascii) : bool :=
  cont c &&
  ((in_range a 224 224 && in_range b 160 191) ||
   (in_range a 225 236 && cont b) ||
   (in_range a 237 237 && in_range b 128 159) ||
   (in_range a 238 239 && cont b)).
Definition utf8_4 (a b c d : ascii) : bool :=
  cont c && cont d &&
  ((in_range a 240 240 && in_range b 144 191) ||
   (in_range a 241 243 && cont b) ||
   (in_range a 244 244 && in_range b 128 143)).

(** U+2028 and U+2029 are escaped. *)
Definition line_sep (a b c : ascii) : option string :=
  if bool_decide (a = "226"%char) && bool_decide (b = "128"%char) then
    if bool_decide (c = "168"%char) then Some (String bslash "u2028")
    else if bool_decide (c = "169"%char) then Some (String bslash "u2029")
    else None
  else None.

Definition replacement : string := String bslash "ufffd".

Fixpoint quote_body (s : string) : string :=
  match s with
  | "" => ""
  | String a r =>
      if (N_of_ascii a <? 128)%N then esc_byte a +:+ quote_body r
      else match r with
      | "" => replacement
      | String b r2 =>
          if utf8_2 a b then String a (String b (quote_body r2))
          else match r2 with
          | "" => replacement +:+ quote_body r
          | String c r3 =>
              if utf8_3 a b c then
                match line_sep a b c with
                | Some e => e +:+ quote_body r3
                | None => String a (String b (String c (quote_body r3)))
                end
              else match r3 with
              | "" => replacement +:+ quote_body r
              | String d r4 =>
                  if utf8_4 a b c d
                  then String a (String b (String c (String d (quote_body r4))))
                  else replacement +:+ quote_body r
              end
          end
      end
  end.

Fixpoint utf8_valid (s : string) : bool :=
  match s with
  | "" => true
  | String a r =>
      if (N_of_ascii a <? 128)%N then utf8_valid r
      else match r with
      | "" => false
      | String b r2 =>
          if utf8_2 a b then utf8_valid r2
          else match r2 with
          | "" => false
          | String c r3 =>
              if utf8_3 a b c then utf8_valid r3
              else match r3 with
              | "" => false
              | String d r4 => if utf8_4 a b c d then utf8_valid r4 else false
              end
          end
      end
  end.

(** The text [quote_body] stands for: bytes that are not UTF-8 become U+FFFD. *)
Definition rune_error_bytes (s : string) : string := String "239" (String "191" (String "189" s)).

Fixpoint coerce_utf8 (s : string) : string :=
  match s with
  | "" => ""
  | String a r =>
      if (N_of_ascii a <? 128)%N then String a (coerce_utf8 r)
      else match r with
      | "" => rune_error_bytes ""
      | String b r2 =>
          if utf8_2 a b then String a (String b (coerce_utf8 r2))
          else match r2 with
          | "" => rune_error_bytes (coerce_utf8 r)
          | String c r3 =>
              if utf8_3 a b c then String a (String b (String c (coerce_utf8 r3)))
              else match r3 with
              | "" => rune_error_bytes (coerce_utf8 r)
              | String d r4 =>
                  if utf8_4 a b c d
                  then String a (String b (String c (String d (coerce_utf8 r4))))
                  else rune_error_bytes (coerce_utf8 r)
              end
          end
      end
  end.

Definition quote (s : string) : string := String dq (quote_body s +:+ String dq "").

Definition member (kv : string * string) : string := quote kv.1 +:+ ":" +:+ quote kv.2.

Fixpoint members (l : list (string * string)) : string :=
  match l with
  | [] => ""
  | [kv] => member kv
  | kv :: l' => member kv +:+ "," +:+ members l'
  end.

Definition key_le (a b : string * string) : Prop := String.le a.1 b.1.
#[export] Instance key_le_dec : RelDecision key_le.
Proof. intros a b. unfold key_le. apply _. Defined.

(** [json.Marshal] of a [map[string]string]. *)
Definition json_Marshal (m : gmap string string) : string :=
  "{" +:+ members (merge_sort key_le (map_to_list m)) +:+ "}".

(** ** Decoding *)

Definition hex_val (c : ascii) : option N :=
  let n := N_of_ascii c in
  if in_range c 48 57 then Some (n - 48)%N
  else if in_range c 97 102 then Some (n - 87)%N
  else if in_range c 65 70 then Some (n - 55)%N
  else None.

Definition utf8_encode (n : N) : string :=
  if (n <? 128)%N then String (ascii_of_N n) ""
  else if (n <? 2048)%N then
    String (ascii_of_N (192 + n / 64)) (String (ascii_of_N (128 + n mod 64)) "")
  else
    String (ascii_of_N (224 + n / 4096))
      (String (ascii_of_N (128 + (n / 64) mod 64))
        (String (ascii_of_N (128 + n mod 64)) "")).

Definition push (p : string) (o : option (string * string)) : option (string * string) :=
  match o with Some (s, rest) => Some (p +:+ s, rest) | None => None end.

(** The simple escapes. *)
Definition unesc (e : ascii) : option ascii :=
  if bool_decide (e = dq) then Some dq
  else if bool_decide (e = bslash) then Some bslash
  else if bool_decide (e = "b"%char) then Some "008"%char
  else if bool_decide (e = "f"%char) then Some "012"%char
  else if bool_decide (e = "n"%char) then Some "010"%char
  else if bool_decide (e = "r"%char) then Some "013"%char
  else if bool_decide (e = "t"%char) then Some "009"%char
  else if bool_decide (e = "/"%char) then Some "/"%char
  else None.

Definition hex4 (a b c d : ascii) : option N :=
  match hex_val a, hex_val b, hex_val c, hex_val d with
  | Some a, Some b, Some c, Some d => Some (a * 4096 + b * 256 + c * 16 + d)%N
  | _, _, _, _ => None
  end.

(** The string up to the closing quote, and the rest. *)
Fixpoint unquote (s : string) : option (string * string) :=
  match s with
  | "" => None
  | String c r =>
      if bool_decide (c = dq) then Some ("", r)
      else if bool_decide (c = bslash) then
        match r with
        | "" => None
        | String e r' =>
            match unesc e with
            | Some x => push (String x "") (unquote r')
            | None =>
                match r' with
                | String h1 (String h2 (String h3 (String h4 r''))) =>
                    if bool_decide (e = "u"%char) then
                      match hex4 h1 h2 h3 h4 with
                      | Some n => push (utf8_encode n) (unquote r'')
                      | None => None
                      end
                    else None
                | _ => None
                end
            end
        end
      else push (String c "") (unquote r)
  end.

(** The members after the opening brace. *)
Fixpoint json_members (fuel : nat) (s : string) : option (list (string * string)) :=
  match fuel, s with
  | S fuel', String q s1 =>
      if bool_decide (q = dq) then
        match unquote s1 with
        | Some (k, String ":" (String q' s2)) =>
            if bool_decide (q' = dq) then
              match unquote s2 with
              | Some (v, String "}" "") => Some [(k, v)]
              | Some (v, String "," s3) => cons (k, v) <$> json_members fuel' s3
              | _ => None
              end
            else None
        | _ => None
        end
      else None
  | _, _ => None
  end.

Definition json_object (s : string) : option (list (string * string)) :=
  match s with
  | String "{" "}" => Some []
  | String "{" r => json_members (String.length r) r
  | _ => None
  end.

(** ** Round trip *)

Lemma unquote_esc_byte c t :
  (N_of_ascii c <? 128)%N = true ->
  unquote (esc_byte c +:+ t) = push (String c "") (unquote t).
Proof. destruct c as [[] [] [] [] [] [] [] []]; intros H; try discriminate H; reflexivity. Qed.

Lemma high_byte_plain c t :
  (N_of_ascii c <? 128)%N = false -> unquote (String c t) = push (String c "") (unquote t).
Proof.
  intros H. simpl. rewrite !bool_decide_eq_false_2; [done | |];
    intros ->; vm_compute in H; discriminate.
Qed.

Lemma cont_high c : cont c = true -> (N_of_ascii c <? 128)%N = false.
Proof.
  unfold cont, in_range. intros H. apply andb_true_iff in H as [H _].
  apply N.leb_le in H. apply N.ltb_ge. lia.
Qed.

Lemma in_range_high c lo hi :
  in_range c lo hi = true -> (128 <= lo)%N -> (N_of_ascii c <? 128)%N = false.
Proof.
  unfold in_range. intros H ?. apply andb_true_iff in H as [H _].
  apply N.leb_le in H. apply N.ltb_ge. lia.
Qed.

(** Splits the boolean range checks of a multi-byte sequence. *)
Ltac split_ranges :=
  repeat match goal with
    | H : _ && _ = true |- _ => apply andb_true_iff in H as [? ?]
    | H : _ || _ = true |- _ => apply orb_true_iff in H as [H|H]
    end.
Ltac solve_high :=
  split_ranges;
  first [by apply cont_high | eapply in_range_high; [eassumption | lia]].

Lemma push_push p q o : push p (push q o) = push (p +:+ q) o.
Proof. destruct o as [[? ?]|]; simpl; [|done]. by rewrite str_app_assoc. Qed.

Lemma unquote_line_sep a b c e t :
  line_sep a b c = Some e ->
  unquote (e +:+ t) = push (String a (String b (String c ""))) (unquote t).
Proof. unfold line_sep. intros H. repeat case_match; simplify_eq; repeat case_bool_decide; simplify_eq; done. Qed.

Lemma unquote_replacement t : unquote (replacement +:+ t) = push (rune_error_bytes "") (unquote t).
Proof. reflexivity. Qed.

(** Induction on strings by their length. *)
Lemma string_length_ind (P : string -> Prop) :
  (forall s, (forall t, (String.length t < String.length s)%nat -> P t) -> P s) -> forall s, P s.
Proof. intros H s. by induction (Wf_nat.well_founded_ltof _ String.length s) as [t _ IH]; apply H, IH. Qed.

(** Decoding a quoted string gives the string back, with U+FFFD for what is not UTF-8. *)
Lemma unquote_quote s rest : unquote (quote_body s +:+ String dq rest) = Some (coerce_utf8 s, rest).
Proof.
  induction s as [[|a r] IH] using string_length_ind; [done|]. cbn [String.length] in IH.
  cbn [quote_body coerce_utf8]. destruct (N_of_ascii a <? 128)%N eqn:Ha.
  { rewrite str_app_assoc, unquote_esc_byte, IH by (done || lia). done. }
  destruct r as [|b r2]; [done|]. cbn [String.length] in IH.
  destruct (utf8_2 a b) eqn:H2.
  { rewrite !str_app_cons. unfold utf8_2 in H2.
    rewrite !high_byte_plain by solve_high. rewrite IH by lia. done. }
  assert (unquote ((replacement +:+ quote_body (String b r2)) +:+ String dq rest) =
    Some (rune_error_bytes (coerce_utf8 (String b r2)), rest)) as Hbad.
  { rewrite str_app_assoc, unquote_replacement, IH by (simpl; lia). done. }
  destruct r2 as [|c r3]; [exact Hbad|]. cbn [String.length] in IH.
  destruct (utf8_3 a b c) eqn:H3.
  { destruct (line_sep a b c) as [e|] eqn:Hl.
    { rewrite str_app_assoc, (unquote_line_sep a b c), IH by (done || lia). done. }
    rewrite !str_app_cons. unfold utf8_3 in H3.
    rewrite !high_byte_plain by solve_high. rewrite IH by lia. done. }
  destruct r3 as [|d r4]; [exact Hbad|]. cbn [String.length] in IH.
  destruct (utf8_4 a b c d) eqn:H4; [|exact Hbad].
  rewrite !str_app_cons. unfold utf8_4 in H4.
  rewrite !high_byte_plain by solve_high. rewrite IH by lia. done.
Qed.

Lemma coerce_utf8_valid s : utf8_valid s = true -> coerce_utf8 s = s.
Proof.
  induction s as [[|a r] IH] using string_length_ind; [done|]. cbn [String.length utf8_valid coerce_utf8] in *.
  intros Hv. repeat case_match; subst; simpl in *; try done; rewrite IH; try done; lia.
Qed.

Lemma members_cons kv l :
  members (kv :: l) = member kv +:+ match l with [] => "" | _ => "," +:+ members l end.
Proof. destruct l; simpl; [|done]. by rewrite str_app_nil_r. Qed.

Lemma member_app kv t :
  member kv +:+ t =
  String dq (quote_body kv.1 +:+ String dq (String ":" (String dq (quote_body kv.2 +:+ String dq t)))).
Proof. unfold member, quote. by norm_str. Qed.

Lemma json_members_app l fuel :
  l <> [] -> (length l <= fuel)%nat ->
  json_members fuel (members l +:+ "}") = Some (prod_map coerce_utf8 coerce_utf8 <$> l).
Proof.
  revert fuel. induction l as [|kv l IH]; intros fuel Hne Hf; [done|].
  destruct fuel as [|fuel]; [simpl in Hf; lia|].
  rewrite members_cons, str_app_assoc, member_app.
  cbn [json_members]. rewrite bool_decide_eq_true_2 by done.
  rewrite unquote_quote. rewrite bool_decide_eq_true_2 by done.
  rewrite unquote_quote. destruct kv as [k v].
  destruct l as [|kv' l]; [done|].
  change (("," +:+ members (kv' :: l)) +:+ "}") with (String "," (members (kv' :: l) +:+ "}")).
  cbv iota. rewrite IH; [done | done | simpl in *; lia].
Qed.

Lemma members_length l : (length l <= String.length (members l +:+ "}"))%nat.
Proof.
  induction l as [|kv l IH]; [simpl; lia|].
  rewrite members_cons, str_app_assoc, member_app.
  assert (length l <= String.length (match l with [] => "" | _ => "," +:+ members l end +:+ "}"))%nat.
  { destruct l; [simpl; lia|]. rewrite str_app_assoc, str_length_app. simpl in *. lia. }
  simpl. rewrite str_length_app. simpl. rewrite str_length_app. simpl. lia.
Qed.

(** Decoding the JSON of a string map gives its members, in some order. *)
Lemma json_roundtrip (m : gmap string string) :
  (forall k, is_Some (m !! k) -> utf8_valid k = true) ->
  exists l, json_object (json_Marshal m) = Some l /\ l ≡ₚ map_to_list (coerce_utf8 <$> m).
Proof.
  intros Hv. set (ms := merge_sort key_le (map_to_list m)).
  assert (ms ≡ₚ map_to_list m) as Hp by apply merge_sort_Permutation.
  exists (prod_map coerce_utf8 coerce_utf8 <$> ms). split.
  - unfold json_Marshal. fold ms. simpl. clearbody ms. destruct ms as [|kv l]; [done|].
    pose proof (members_length (kv :: l)) as Hlen.
    destruct (members (kv :: l) +:+ "}") as [|c t] eqn:Et;
      [rewrite ?Et in Hlen; simpl in Hlen; lia|].
    assert (json_members (String.length (String c t)) (String c t) =
      Some (prod_map coerce_utf8 coerce_utf8 <$> kv :: l)) as Hj.
    { rewrite <- Et. apply json_members_app; [done | first [exact Hlen | rewrite Et; exact Hlen]]. }
    rewrite members_cons, str_app_assoc, member_app in Et. injection Et as <- _.
    exact Hj.
  - rewrite map_to_list_fmap, Hp. apply reflexive_eq, Forall_fmap_ext_1, Forall_forall.
    intros [k v] Hkv%elem_of_map_to_list. unfold prod_map. simpl.
    rewrite (coerce_utf8_valid k); [done | eauto].
Qed.

Lemma coerce_utf8_map (m : gmap string string) :
  (forall k v, m !! k = Some v -> utf8_valid v = true) -> coerce_utf8 <$> m = m.
Proof.
  intros H. apply map_eq. intros k. rewrite lookup_fmap. destruct (m !! k) as [v|] eqn:E; [|done].
  simpl. by rewrite coerce_utf8_valid by eauto.
Qed.
