(* ===== verification/Json.v ===== *)
(** * Decoding JSON into structs

    [encoding/json]'s [Unmarshal] into a struct of strings, integers and booleans,
    which is how task handlers read their payloads, and [Marshal] of such a
    struct. The whole of JSON is parsed: other members are ignored, member names
    match ignoring case, [null] leaves a field alone, a value of another type is
    an error. *)

From S2P Require Import Prelude GoNum Job GoJson.
From Stdlib Require Import Ascii String DecimalString.
From stdpp Require Import strings.

Open Scope string_scope.

(** ** Strings *)

(** U+FFFD, and a rune above U+FFFF, in UTF-8. *)
Definition rune_error : string := utf8_encode 65533.

Definition utf8_encode4 (n : N) : string :=
  String (ascii_of_N (240 + n / 262144)) (String (ascii_of_N (128 + (n / 4096) mod 64))
    (String (ascii_of_N (128 + (n / 64) mod 64)) (String (ascii_of_N (128 + n mod 64)) ""))).

Definition surrogate (n : N) : bool := ((55296 <=? n) && (n <? 57344))%N.

Definition surrogate_pair (n m : N) : option N :=
  if ((n <? 56320) && (56320 <=? m) && (m <? 57344))%N
  then Some ((n - 55296) * 1024 + (m - 56320) + 65536)%N else None.

(** The string up to the closing quote, and the rest: control characters are
    refused; a lone surrogate and a byte that is not UTF-8 become U+FFFD. *)
Fixpoint go_unquote (s : string) : option (string * string) :=
  match s with
  | "" => None
  | String a r =>
      if bool_decide (a = dq) then Some ("", r)
      else if bool_decide (a = bslash) then
        match r with
        | "" => None
        | String e r' =>
            match unesc e with
            | Some x => push (String x "") (go_unquote r')
            | None =>
                match r' with
                | String h1 (String h2 (String h3 (String h4 r''))) =>
                    if bool_decide (e = "u"%char) then
                      match hex4 h1 h2 h3 h4 with
                      | None => None
                      | Some n =>
                          if surrogate n then
                            match r'' with
                            | String b (String u (String k1 (String k2 (String k3 (String k4 r3))))) =>
                                match (if bool_decide (b = bslash) && bool_decide (u = "u"%char)
                                       then m ← hex4 k1 k2 k3 k4; surrogate_pair n m else None) with
                                | Some x => push (utf8_encode4 x) (go_unquote r3)
                                | None => push rune_error (go_unquote r'')
                                end
                            | _ => push rune_error (go_unquote r'')
                            end
                          else push (utf8_encode n) (go_unquote r'')
                      end
                    else None
                | _ => None
                end
            end
        end
      else if (N_of_ascii a <? 32)%N then None
      else if (N_of_ascii a <? 128)%N then push (String a "") (go_unquote r)
      else match r with
      | String b r2 =>
          if utf8_2 a b then push (String a (String b "")) (go_unquote r2)
          else match r2 with
          | String c r3 =>
              if utf8_3 a b c then push (String a (String b (String c ""))) (go_unquote r3)
              else match r3 with
              | String d r4 =>
                  if utf8_4 a b c d then push (String a (String b (String c (String d "")))) (go_unquote r4)
                  else push rune_error (go_unquote r)
              | "" => push rune_error (go_unquote r)
              end
          | "" => push rune_error (go_unquote r)
          end
      | "" => push rune_error (go_unquote r)
      end
  end.

(** ** Values *)

#[warnings="-register-all"] Inductive jval :=
  | JNull
  | JBool (b : bool)
  | JNum (literal : string)
  | JStr (s : string)
  | JArr (l : list jval)
  | JObj (members : list (string * jval)).

Definition is_ws (c : ascii) : bool :=
  let n := N_of_ascii c in ((n =? 32) || (n =? 9) || (n =? 10) || (n =? 13))%N.

Fixpoint skip_ws (s : string) : string :=
  match s with String c r => if is_ws c then skip_ws r else s | "" => "" end.

Definition is_digit (c : ascii) : bool := in_range c 48 57.

(** The digits at the start, and the rest. *)
Fixpoint span_digits (s : string) : string * string :=
  match s with
  | String c r => if is_digit c then let '(d, t) := span_digits r in (String c d, t) else ("", s)
  | "" => ("", "")
  end.

(** At least one digit. *)
Definition digits1 (s : string) : option (string * string) :=
  match span_digits s with ("", _) => None | p => Some p end.

Definition num_int (s : string) : option (string * string) :=
  match s with
  | String c r => if bool_decide (c = "0"%char) then Some ("0", r) else digits1 s
  | "" => None
  end.

Definition num_frac (s : string) : option (string * string) :=
  match s with
  | String c r => if bool_decide (c = "."%char) then push "." (digits1 r) else Some ("", s)
  | "" => Some ("", s)
  end.

Definition num_exp (s : string) : option (string * string) :=
  match s with
  | String c r =>
      if bool_decide (c = "e"%char) || bool_decide (c = "E"%char) then
        match r with
        | String g r' =>
            if bool_decide (g = "+"%char) || bool_decide (g = "-"%char)
            then push (String c (String g "")) (digits1 r') else push (String c "") (digits1 r)
        | "" => None
        end
      else Some ("", s)
  | "" => Some ("", s)
  end.

Definition num_tail (s : string) : option (string * string) :=
  match num_int s with
  | Some (i, r) =>
      match num_frac r with
      | Some (f, r') => push (i +:+ f) (num_exp r')
      | None => None
      end
  | None => None
  end.

Definition parse_num (s : string) : option (string * string) :=
  match s with
  | String c r => if bool_decide (c = "-"%char) then push "-" (num_tail r) else num_tail s
  | "" => None
  end.

(** A literal name. *)
Fixpoint strip (p s : string) : option string :=
  match p, s with
  | "", _ => Some s
  | String a p', String b s' => if bool_decide (a = b) then strip p' s' else None
  | _, "" => None
  end.

Definition parse_lit (s : string) : option (jval * string) :=
  match strip "null" s with
  | Some r => Some (JNull, r)
  | None =>
      match strip "true" s with
      | Some r => Some (JBool true, r)
      | None =>
          match strip "false" s with
          | Some r => Some (JBool false, r)
          | None => match parse_num s with Some (n, r) => Some (JNum n, r) | None => None end
          end
      end
  end.

Definition max_depth : N := 10000.

(** A value, the members of an object and the elements of an array, the opening
    bracket read. [depth] is the nesting so far. *)
Fixpoint parse_val (fuel : nat) (depth : N) (s : string) : option (jval * string) :=
  match fuel, skip_ws s with
  | S fuel', String c r =>
      if bool_decide (c = dq) then
        match go_unquote r with Some (x, t) => Some (JStr x, t) | None => None end
      else if bool_decide (c = "{"%char) then
        if (max_depth <=? depth)%N then None else
        match skip_ws r with
        | String "}" t => Some (JObj [], t)
        | r' => match parse_members fuel' (N.succ depth) r' with Some (l, t) => Some (JObj l, t) | None => None end
        end
      else if bool_decide (c = "["%char) then
        if (max_depth <=? depth)%N then None else
        match skip_ws r with
        | String "]" t => Some (JArr [], t)
        | r' => match parse_elems fuel' (N.succ depth) r' with Some (l, t) => Some (JArr l, t) | None => None end
        end
      else parse_lit (String c r)
  | _, _ => None
  end
with parse_members (fuel : nat) (depth : N) (s : string) : option (list (string * jval) * string) :=
  match fuel, skip_ws s with
  | S fuel', String q s1 =>
      if bool_decide (q = dq) then
        match go_unquote s1 with
        | Some (k, s2) =>
            match skip_ws s2 with
            | String ":" s3 =>
                match parse_val fuel' depth s3 with
                | Some (v, s4) =>
                    match skip_ws s4 with
                    | String "}" t => Some ([(k, v)], t)
                    | String "," s5 =>
                        match parse_members fuel' depth s5 with
                        | Some (l, t) => Some ((k, v) :: l, t)
                        | None => None
                        end
                    | _ => None
                    end
                | None => None
                end
            | _ => None
            end
        | None => None
        end
      else None
  | _, _ => None
  end
with parse_elems (fuel : nat) (depth : N) (s : string) : option (list jval * string) :=
  match fuel with
  | S fuel' =>
      match parse_val fuel' depth s with
      | Some (v, s1) =>
          match skip_ws s1 with
          | String "]" t => Some ([v], t)
          | String "," s2 =>
              match parse_elems fuel' depth s2 with Some (l, t) => Some (v :: l, t) | None => None end
          | _ => None
          end
      | None => None
      end
  | O => None
  end.

(** The whole text; each level of recursion reads at least one byte or enters
    a value, so twice the length is enough fuel. *)
Definition parse_json (s : string) : option jval :=
  match parse_val (2 * String.length s + 2) 0 s with
  | Some (v, r) => match skip_ws r with "" => Some v | _ => None end
  | None => None
  end.

(** ** Structs *)

(** Letters that match ignoring case: ASCII, the long s and the Kelvin sign. *)
Fixpoint fold_name (s : string) : string :=
  match s with
  | "" => ""
  | String a r =>
      let n := N_of_ascii a in
      if in_range a 65 90 then String (ascii_of_N (n + 32)) (fold_name r)
      else match r with
      | String b r2 =>
          if ((n =? 197) && (N_of_ascii b =? 191))%N then String "s" (fold_name r2)
          else match r2 with
          | String c r3 =>
              if ((n =? 226) && (N_of_ascii b =? 132) && (N_of_ascii c =? 170))%N
              then String "k" (fold_name r3)
              else String a (fold_name r)
          | "" => String a (fold_name r)
          end
      | "" => String a (fold_name r)
      end
  end.

(** A field: its name (in lower case) and how it takes a value that is not
    [null]. *)
Abbreviation setter S := (string * (jval -> S -> option S))%type.

Fixpoint find_setter {S} (fs : list (setter S)) (name : string) : option (jval -> S -> option S) :=
  match fs with
  | [] => None
  | (n, f) :: fs' => if bool_decide (n = name) then Some f else find_setter fs' name
  end.

Definition set_member {S} (fs : list (setter S)) (m : string * jval) (s : S) : option S :=
  match find_setter fs (fold_name m.1) with
  | None => Some s
  | Some f => match m.2 with JNull => Some s | v => f v s end
  end.

Fixpoint set_members {S} (fs : list (setter S)) (ms : list (string * jval)) (s : S) : option S :=
  match ms with
  | [] => Some s
  | m :: ms' => match set_member fs m s with Some s' => set_members fs ms' s' | None => None end
  end.

(** [json.Unmarshal] into the struct [s] with the fields [fs]; [None] is an
    error. *)
Definition json_Unmarshal {S} (fs : list (setter S)) (text : string) (s : S) : option S :=
  match parse_json text with
  | Some JNull => Some s
  | Some (JObj ms) => set_members fs ms s
  | _ => None
  end.

Definition of_string {S} (set : string -> S -> S) (v : jval) (s : S) : option S :=
  match v with JStr x => Some (set x s) | _ => None end.

Definition of_int {S} (set : Z -> S -> S) (v : jval) (s : S) : option S :=
  match v with JNum n => (fun z => set z s) <$> Atoi n | _ => None end.

Definition of_bool {S} (set : bool -> S -> S) (v : jval) (s : S) : option S :=
  match v with JBool b => Some (set b s) | _ => None end.

(** [json.Marshal] of a struct of such fields, those that are set. *)
Definition jtext (v : jval) : string :=
  match v with
  | JNull => "null"
  | JBool b => if b then "true" else "false"
  | JNum n => n
  | JStr s => quote s
  | JArr _ | JObj _ => ""
  end.

Fixpoint fields_text (l : list (string * jval)) : string :=
  match l with
  | [] => "}"
  | [m] => quote m.1 +:+ ":" +:+ jtext m.2 +:+ "}"
  | m :: l' => quote m.1 +:+ ":" +:+ jtext m.2 +:+ "," +:+ fields_text l'
  end.

Definition json_struct (l : list (string * jval)) : string := "{" +:+ fields_text l.

(** ** Round trip *)

Lemma go_unquote_esc c t :
  (N_of_ascii c <? 128)%N = true ->
  go_unquote (esc_byte c +:+ t) = push (String c "") (go_unquote t).
Proof. destruct c as [[] [] [] [] [] [] [] []]; intros H; try discriminate H; reflexivity. Qed.

Lemma go_unquote_line_sep a b c e t :
  line_sep a b c = Some e ->
  go_unquote (e +:+ t) = push (String a (String b (String c ""))) (go_unquote t).
Proof. unfold line_sep. intros H. repeat case_match; simplify_eq; repeat case_bool_decide; simplify_eq; done. Qed.

(** A byte that starts a multi-byte sequence. *)
Lemma go_unquote_high a r :
  (N_of_ascii a <? 128)%N = false ->
  go_unquote (String a r) = match r with
    | String b r2 =>
        if utf8_2 a b then push (String a (String b "")) (go_unquote r2)
        else match r2 with
        | String c r3 =>
            if utf8_3 a b c then push (String a (String b (String c ""))) (go_unquote r3)
            else match r3 with
            | String d r4 =>
                if utf8_4 a b c d then push (String a (String b (String c (String d "")))) (go_unquote r4)
                else push rune_error (go_unquote r)
            | "" => push rune_error (go_unquote r)
            end
        | "" => push rune_error (go_unquote r)
        end
    | "" => push rune_error (go_unquote r)
    end.
Proof.
  intros H. cbn [go_unquote]. rewrite !bool_decide_eq_false_2 by (intros ->; vm_compute in H; discriminate).
  rewrite H. apply N.ltb_ge in H. destruct (N.ltb_spec (N_of_ascii a) 32); [lia | done].
Qed.

Lemma go_unquote_quote s rest :
  utf8_valid s = true -> go_unquote (quote_body s +:+ String dq rest) = Some (s, rest).
Proof.
  remember (String.length s) as n eqn:Hn. assert (String.length s <= n)%nat as Hle by lia.
  clear Hn. revert s Hle. induction n as [|n IH]; intros s Hle Hv.
  { destruct s; [done | simpl in Hle; lia]. }
  destruct s as [|a r]; [done|]. cbn [utf8_valid quote_body String.length] in *.
  destruct (N_of_ascii a <? 128)%N eqn:Ha.
  { rewrite str_app_assoc, go_unquote_esc, IH by (done || lia). done. }
  destruct r as [|b r2]; [done|]. cbn [String.length] in Hle.
  destruct (utf8_2 a b) eqn:H2.
  { rewrite !str_app_cons, go_unquote_high by done. rewrite H2, IH by (done || lia). done. }
  destruct r2 as [|c r3]; [done|]. cbn [String.length] in Hle.
  destruct (utf8_3 a b c) eqn:H3.
  { destruct (line_sep a b c) as [e|] eqn:Hl.
    { rewrite str_app_assoc, (go_unquote_line_sep a b c), IH by (done || lia). done. }
    rewrite !str_app_cons, go_unquote_high by done. rewrite H2, H3, IH by (done || lia). done. }
  destruct r3 as [|d r4]; [done|]. cbn [String.length] in Hle.
  destruct (utf8_4 a b c d) eqn:H4; [|done].
  rewrite !str_app_cons, go_unquote_high by done. rewrite H2, H3, H4, IH by (done || lia). done.
Qed.

(** The scalars of a struct, and what may follow one in an object. *)
Inductive scalar : jval -> Prop :=
  | scalar_num z : scalar (JNum (Itoa z))
  | scalar_str s : utf8_valid s = true -> scalar (JStr s)
  | scalar_bool b : scalar (JBool b).

Definition closes (t : string) : Prop := exists c r, t = String c r /\ (c = ","%char \/ c = "}"%char).

Lemma span_digits_uint d t :
  closes t -> span_digits (NilEmpty.string_of_uint d +:+ t) = (NilEmpty.string_of_uint d, t).
Proof.
  intros (c & r & -> & Hc). induction d; cbn [NilEmpty.string_of_uint]; rewrite ?str_app_cons, ?str_app_nil_l;
    [by destruct Hc as [-> | ->] | cbn [span_digits]; rewrite IHd; reflexivity..].
Qed.

Lemma num_tail_int i t : closes t -> num_int (i +:+ t) = Some (i, t) -> num_tail (i +:+ t) = Some (i, t).
Proof.
  intros (c & r & -> & Hc) E. unfold num_tail. rewrite E.
  assert (num_frac (String c r) = Some ("", String c r)) as -> by (by destruct Hc as [-> | ->]).
  assert (num_exp (String c r) = Some ("", String c r)) as -> by (by destruct Hc as [-> | ->]).
  unfold push. by rewrite !str_app_nil_r.
Qed.

Lemma num_int_pos p t :
  closes t -> num_int (NilZero.string_of_uint (Pos.to_uint p) +:+ t) =
    Some (NilZero.string_of_uint (Pos.to_uint p), t).
Proof.
  intros Ht. pose proof (to_uint_head p) as H0. pose proof (to_uint_not_nil p) as Hn.
  pose proof (span_digits_uint (Pos.to_uint p) t Ht) as E.
  destruct (Pos.to_uint p); [done | by edestruct H0 |..]; cbn [NilEmpty.string_of_uint] in *;
    unfold num_int; cbn -[digits1 span_digits] in *; unfold digits1; rewrite E; reflexivity.
Qed.

Lemma parse_num_Itoa z t : closes t -> parse_num (Itoa z +:+ t) = Some (Itoa z, t).
Proof.
  intros Ht. unfold Itoa, parse_num. destruct z as [|p|p].
  - cbn -[num_tail]. apply (num_tail_int "0"); done.
  - simpl Z.to_int. cbn [NilZero.string_of_int].
    pose proof (num_tail_int _ t Ht (num_int_pos p t Ht)) as E. pose proof (to_uint_not_nil p).
    destruct (Pos.to_uint p); [done|..]; cbn -[num_tail] in *; exact E.
  - simpl Z.to_int. cbn [NilZero.string_of_int]. rewrite str_app_cons.
    rewrite (bool_decide_eq_true_2 (_ = _)) by done.
    by rewrite (num_tail_int _ t Ht (num_int_pos p t Ht)).
Qed.

(** A value that does not start with white space, a quote or a bracket. *)
Lemma parse_val_lit fuel d c r v t :
  is_ws c = false -> c <> dq -> c <> "{"%char -> c <> "["%char ->
  parse_lit (String c r) = Some (v, t) -> parse_val (S fuel) d (String c r) = Some (v, t).
Proof.
  intros Hw H1 H2 H3 E. cbn [parse_val skip_ws]. rewrite Hw, !bool_decide_eq_false_2 by done. exact E.
Qed.

Lemma Itoa_head z : exists c r, Itoa z = String c r /\ (c = "-"%char \/ is_digit c = true).
Proof.
  assert (forall d, exists c r, NilZero.string_of_uint d = String c r /\ is_digit c = true) as Hd
    by (intros [ ]; eexists _, _; (split; [reflexivity | done])).
  unfold Itoa. destruct (Z.to_int z) as [d|d]; simpl.
  - destruct (Hd d) as (c & r & -> & Hc). eauto.
  - eexists _, _. split; [reflexivity | by left].
Qed.

Lemma parse_val_scalar fuel d v t :
  (0 < fuel)%nat -> scalar v -> closes t -> parse_val fuel d (jtext v +:+ t) = Some (v, t).
Proof.
  intros Hf Hv Ht. destruct fuel as [|fuel]; [lia|]. clear Hf. destruct Hv as [z|s Hs|b]; cbn [jtext].
  - pose proof (parse_num_Itoa z t Ht) as E. destruct (Itoa_head z) as (c & r & Ei & Hc).
    rewrite Ei, str_app_cons in *.
    assert (is_ws c = false /\ c <> dq /\ c <> "{"%char /\ c <> "["%char /\
      c <> "n"%char /\ c <> "t"%char /\ c <> "f"%char) as (Hw & H1 & H2 & H3 & H4 & H5 & H6).
    { destruct Hc as [->|Hc]; [repeat split; discriminate|].
      split_and!; [|intros ->; discriminate Hc..].
      by destruct c as [[] [] [] [] [] [] [] []]. }
    apply parse_val_lit; [done..|]. unfold parse_lit. cbn [strip].
    rewrite !bool_decide_eq_false_2 by done. by rewrite E.
  - unfold quote. rewrite str_app_cons, str_app_assoc. cbn [parse_val skip_ws].
    change (is_ws dq) with false. cbn iota. rewrite (bool_decide_eq_true_2 (dq = dq)) by done.
    change (String dq "" +:+ t) with (String dq t). by rewrite go_unquote_quote.
  - by destruct b.
Qed.

Lemma skip_ws_closes t : closes t -> skip_ws t = t.
Proof. by intros (c & r & -> & [-> | ->]). Qed.

Definition fields_ok (l : list (string * jval)) : Prop :=
  Forall (fun m => utf8_valid m.1 = true /\ scalar m.2) l.

Lemma parse_members_text l : forall fuel d, l <> [] -> fields_ok l -> (S (length l) <= fuel)%nat ->
  parse_members fuel d (fields_text l) = Some (l, "").
Proof.
  induction l as [|[k v] l IH]; intros fuel d Hne Hok Hf; [done|].
  destruct fuel as [|fuel]; [simpl in Hf; lia|].
  apply Forall_cons in Hok as [[Hk Hv] Hok]. simpl in Hk, Hv.
  assert (fields_text ((k, v) :: l) = String dq (quote_body k +:+ String dq (String ":" (jtext v +:+
    match l with [] => "}" | _ => String "," (fields_text l) end)))) as ->.
  { destruct l; cbn [fields_text fst snd]; unfold quote; by norm_str. }
  cbn [parse_members skip_ws]. change (is_ws dq) with false. cbn iota.
  rewrite (bool_decide_eq_true_2 (dq = dq)) by done. rewrite go_unquote_quote by done.
  cbn [skip_ws is_ws]. change (is_ws ":") with false. cbn iota.
  rewrite parse_val_scalar; [|simpl in Hf; lia|done|destruct l; eexists _, _; (split; [reflexivity | auto])].
  destruct l as [|m l]; [done|]. cbn [skip_ws]. change (is_ws ",") with false. cbn iota.
  rewrite IH; [done | done | done | simpl in *; lia].
Qed.

Lemma fields_text_length l : (length l <= String.length (fields_text l))%nat.
Proof.
  induction l as [|m l IH]; [simpl; lia|].
  change (fields_text (m :: l)) with (match l with
    | [] => quote m.1 +:+ ":" +:+ jtext m.2 +:+ "}"
    | _ => quote m.1 +:+ ":" +:+ jtext m.2 +:+ "," +:+ fields_text l end).
  destruct l as [|m' l]; rewrite !str_length_app; unfold quote; cbn [String.length length] in *; lia.
Qed.

Lemma parse_json_struct l : fields_ok l -> parse_json (json_struct l) = Some (JObj l).
Proof.
  intros Hok. unfold parse_json, json_struct. pose proof (fields_text_length l) as Hlen.
  rewrite str_app_cons, str_app_nil_l.
  replace (2 * String.length (String "{" (fields_text l)) + 2)%nat
    with (S (2 * String.length (fields_text l) + 3)) by (simpl; lia).
  cbn [parse_val skip_ws]. change (is_ws "{") with false. cbn iota.
  rewrite (bool_decide_eq_false_2 ("{"%char = dq)), (bool_decide_eq_true_2 ("{"%char = "{"%char)) by done.
  change (max_depth <=? 0)%N with false. cbn iota.
  destruct l as [|m l]; [done|].
  assert (exists r, fields_text (m :: l) = String dq r) as [r Er].
  { destruct l; cbn [fields_text]; unfold quote; rewrite str_app_cons; eauto. }
  pose proof (parse_members_text (m :: l) (2 * String.length (fields_text (m :: l)) + 3) (N.succ 0)) as E.
  rewrite Er in *. cbn [skip_ws]. change (is_ws dq) with false. cbn iota.
  unfold dq in E, Hlen |- *. cbv iota. rewrite E; [done | done | done | simpl in *; lia].
Qed.

(** Decoding the encoding of a struct sets its fields, in order. *)
Lemma json_Unmarshal_struct {S} (fs : list (setter S)) l s :
  fields_ok l -> json_Unmarshal fs (json_struct l) s = set_members fs l s.
Proof. intros Hok. unfold json_Unmarshal. by rewrite parse_json_struct. Qed.
