(* ===== verification/GoText.v ===== *)
(** * Text helpers of the Go standard library

    [strings.TrimSpace], [strings.Split] and [strings.Cut] at one byte, and the number
    of runes of a text. *)

From S2P Require Import Prelude GoNum Job GoJson Json.
From Stdlib Require Import Ascii.
From stdpp Require Import strings.

Open Scope Z_scope.

(** ** White space *)

Fixpoint of_bytes (l : list N) : string :=
  match l with [] => "" | n :: l' => String (ascii_of_N n) (of_bytes l') end.

(** The characters [unicode.IsSpace] holds of, in UTF-8. *)
Definition spaces : list string :=
  of_bytes <$> ([[9]; [10]; [11]; [12]; [13]; [32]; [194; 133]; [194; 160]; [225; 154; 128]] ++
    ((fun n => [226; 128; n]) <$> [128; 129; 130; 131; 132; 133; 134; 135; 136; 137; 138; 168; 169; 175]) ++
    [[226; 129; 159]; [227; 128; 128]])%N.

Fixpoint strip_any (ps : list string) (s : string) : option string :=
  match ps with
  | [] => None
  | p :: ps' => match strip p s with Some r => Some r | None => strip_any ps' s end
  end.

(** Each step drops at least one byte, so the length is enough fuel. *)
Fixpoint trim_with (ps : list string) (fuel : nat) (s : string) : string :=
  match fuel with
  | O => s
  | S fuel' => match strip_any ps s with Some r => trim_with ps fuel' r | None => s end
  end.

Fixpoint str_rev (s acc : string) : string :=
  match s with "" => acc | String c r => str_rev r (String c acc) end.

Definition TrimLeft (s : string) : string := trim_with spaces (String.length s) s.

(** From the right: the same on the reversed text. *)
Definition TrimRight (s : string) : string :=
  let r := str_rev s "" in
  str_rev (trim_with ((fun p => str_rev p "") <$> spaces) (String.length r) r) "".

Definition TrimSpace (s : string) : string := TrimRight (TrimLeft s).

Example TrimSpace_ex : TrimSpace (of_bytes [194; 160; 32; 97; 32; 98; 226; 128; 168; 10]%N) = "a b".
Proof. reflexivity. Qed.

(** ** Splitting *)

(** [strings.Split] by one byte. *)
Fixpoint split_on (sep : ascii) (s : string) : list string :=
  match s with
  | "" => [""]
  | String c r =>
      if bool_decide (c = sep) then "" :: split_on sep r
      else match split_on sep r with
           | p :: ps => String c p :: ps
           | [] => [String c ""]
           end
  end.

(** [strings.Cut] at the first [sep]. *)
Fixpoint Cut (sep : ascii) (s : string) : option (string * string) :=
  match s with
  | "" => None
  | String c r =>
      if bool_decide (c = sep) then Some ("", r)
      else match Cut sep r with Some (a, b) => Some (String c a, b) | None => None end
  end.

(** The runes of valid UTF-8: the bytes that do not continue one. *)
Fixpoint rune_count (s : string) : nat :=
  match s with "" => 0 | String c r => (if cont c then 0 else 1) + rune_count r end.

(** ** Lemmas *)

Lemma str_rev_app s t acc : str_rev (s +:+ t) acc = str_rev t (str_rev s acc).
Proof. revert acc. induction s as [|c s IH]; intros acc; [done|]. rewrite str_app_cons. apply IH. Qed.

Lemma str_rev_acc s acc : str_rev s acc = str_rev s "" +:+ acc.
Proof.
  revert acc. induction s as [|c s IH]; intros acc; [done|]. cbn [str_rev]. rewrite IH, (IH (String c "")).
  by rewrite str_app_assoc, str_app_cons, str_app_nil_l.
Qed.

Lemma str_rev_rev s : str_rev (str_rev s "") "" = s.
Proof.
  induction s as [|c s IH]; [done|]. cbn [str_rev]. rewrite (str_rev_acc s (String c "")), str_rev_app. cbn [str_rev]. by rewrite IH.
Qed.

Lemma trim_with_stop ps fuel s : strip_any ps s = None -> trim_with ps fuel s = s.
Proof. intros H. destruct fuel; [done|]. cbn. by rewrite H. Qed.

Lemma trim_with_step ps fuel s r : strip_any ps s = Some r -> trim_with ps (S fuel) s = trim_with ps fuel r.
Proof. intros H. cbn. by rewrite H. Qed.

(** A line of text that starts and ends with no space. *)
Lemma TrimSpace_line s r : s = String "{" r -> (exists t, str_rev s "" = String "}" t) -> TrimSpace (s +:+ String "010" "") = s.
Proof.
  intros Hs [t Ht]. unfold TrimSpace.
  assert (TrimLeft (s +:+ String "010" "") = s +:+ String "010" "") as ->.
  { unfold TrimLeft. apply trim_with_stop. by rewrite Hs, str_app_cons. }
  unfold TrimRight. rewrite str_rev_app, Ht. cbn [str_rev String.length].
  rewrite (trim_with_step _ _ _ (String "}" t)) by reflexivity.
  rewrite trim_with_stop by reflexivity. by rewrite <- Ht, str_rev_rev.
Qed.
