(* ===== verification/Redis.v ===== *)
(** * The Redis server the program talks to

    Redis is not part of the repository: it is a parameter of the model.  The
    class [Redis] is the set of commands the Lua scripts and the Go client
    issue, as functions on an unspecified server state; the class [RedisLaws]
    states the documented behaviour of each command, through [view], the
    documented contents of the keyspace.  Nothing below this file depends on
    how a server implements the commands; [RefRedis] gives one implementation,
    which is what the witnesses run on.

    Scores and times are integer milliseconds (a sorted-set score is a double,
    exact for integers below 2^53).  A law applies when the key holds the type
    the command expects; on another type Redis replies with an error, about
    which nothing is assumed. *)

From S2P Require Import Prelude GoNum Errors Job GoJson.
From stdpp Require Import strings.

Open Scope Z_scope.

Abbreviation fields := (list (string * string)).

(** ** The documented contents of the keyspace *)

(** A pending entry of a consumer group: who holds it, when it was last
    delivered (or claimed), how many times it was delivered. *)
Record pentry := PEntry { pe_owner : string; pe_time : Z; pe_count : Z }.

Record group := Group {
  g_last : eid;                  (* last-delivered-id *)
  g_pel : gmap eid pentry;       (* pending entries list *)
  g_cons : gmap string Z;        (* consumers, with the time each was last seen *)
}.

Record stream := Stream {
  s_entries : list (eid * fields);
  s_top : eid;                   (* last-generated-id *)
  s_groups : gmap string group;
}.

Inductive value :=
  | VStr (s : string) (expire : option Z)
  | VHash (h : gmap string string)
  | VZSet (z : gmap string Z)
  | VStream (st : stream).

Record rview := RView { rv_keys : gmap string value; rv_now : Z }.

Definition empty_stream : stream := Stream [] (0%N, 0%N) ∅.

(** Readers. [None] means the key holds another type (or, for [stream_at] and
    [group_at], does not exist). *)
Definition stream_at (v : rview) (k : string) : option stream :=
  match rv_keys v !! k with Some (VStream st) => Some st | _ => None end.

Definition stream_or_new (v : rview) (k : string) : option stream :=
  match rv_keys v !! k with
  | Some (VStream st) => Some st
  | Some _ => None
  | None => Some empty_stream
  end.

Definition group_at (v : rview) (k g : string) : option group :=
  st ← stream_at v k; s_groups st !! g.

Definition hash_at (v : rview) (k : string) : option (gmap string string) :=
  match rv_keys v !! k with
  | Some (VHash h) => Some h
  | Some _ => None
  | None => Some ∅
  end.

Definition zset_at (v : rview) (k : string) : option (gmap string Z) :=
  match rv_keys v !! k with
  | Some (VZSet z) => Some z
  | Some _ => None
  | None => Some ∅
  end.

Definition str_at (v : rview) (k : string) : option (option string) :=
  match rv_keys v !! k with
  | Some (VStr s _) => Some (Some s)
  | Some _ => None
  | None => Some None
  end.

(** Writers. A hash or sorted set that becomes empty ceases to exist. *)
Definition put_key (k : string) (x : option value) (v : rview) : rview :=
  RView (partial_alter (fun _ => x) k (rv_keys v)) (rv_now v).

Definition put_stream (k : string) (st : stream) : rview -> rview := put_key k (Some (VStream st)).

Definition put_hash (k : string) (h : gmap string string) : rview -> rview :=
  put_key k (if decide (h = ∅) then None else Some (VHash h)).

Definition put_zset (k : string) (z : gmap string Z) : rview -> rview :=
  put_key k (if decide (z = ∅) then None else Some (VZSet z)).

Definition put_str (k : string) (s : string) (expire : option Z) : rview -> rview :=
  put_key k (Some (VStr s expire)).

Definition put_group (k g : string) (gr : group) (v : rview) : rview :=
  match stream_at v k with
  | Some st => put_stream k (Stream (s_entries st) (s_top st) (<[g := gr]> (s_groups st))) v
  | None => v
  end.

(** Keys whose time to live has passed are gone. *)
Definition live (now : Z) (x : value) : Prop :=
  match x with VStr _ (Some e) => now < e | _ => True end.
#[export] Instance live_dec now x : Decision (live now x).
Proof. destruct x as [s [e|]| | |]; simpl; apply _. Defined.

Definition at_time (now : Z) (v : rview) : rview :=
  RView (filter (fun kx => live now kx.2) (rv_keys v)) now.

(** *** Entries of a stream *)

Definition has_entry (st : stream) (id : eid) : Prop := id ∈ (s_entries st).*1.

Fixpoint entry_fields (es : list (eid * fields)) (id : eid) : option fields :=
  match es with
  | [] => None
  | e :: es' => if decide (e.1 = id) then Some e.2 else entry_fields es' id
  end.

Definition without (id : eid) (es : list (eid * fields)) : list (eid * fields) :=
  filter (fun e => e.1 <> id) es.

(** The entries a group has not delivered yet. *)
Definition undelivered (last : eid) (es : list (eid * fields)) : list (eid * fields) :=
  filter (fun e => eid_lt last e.1) es.

Definition deliver_all (who : string) (now : Z) (new : list (eid * fields))
    (pel : gmap eid pentry) : gmap eid pentry :=
  foldr (fun e p => <[e.1 := PEntry who now 1]> p) pel new.

Definition last_of (d : eid) (new : list (eid * fields)) : eid :=
  default d (fst <$> last new).

(** The IDs of the pending entries from [start] on, in order. *)
Definition pel_scan (pel : gmap eid pentry) (start : eid) (l : list eid) : Prop :=
  StronglySorted eid_lt l /\
  forall id, id ∈ l <-> is_Some (pel !! id) /\ eid_le start id.

Definition idle_of (now : Z) (pel : gmap eid pentry) (id : eid) : Z :=
  match pel !! id with Some p => now - pe_time p | None => 0 end.

(** A claimed entry: new owner, delivery time now, one more delivery. *)
Definition claim_one (who : string) (now : Z) (pel : gmap eid pentry) (id : eid) : gmap eid pentry :=
  match pel !! id with
  | Some p => <[id := PEntry who now (pe_count p + 1)]> pel
  | None => pel
  end.

Definition expired (now minIdle : Z) (pel : gmap eid pentry) (id : eid) : Prop :=
  minIdle <= idle_of now pel id.

#[export] Instance expired_dec now m pel id : Decision (expired now m pel id).
Proof. unfold expired. apply _. Defined.

Definition owned_by (c : string) (p : pentry) : Prop := pe_owner p = c.
#[export] Instance owned_by_dec c p : Decision (owned_by c p).
Proof. unfold owned_by. apply _. Defined.

Definition pending_of (gr : group) (c : string) : nat :=
  size (filter (fun ip => owned_by c ip.2) (g_pel gr)).

(** A scheduled job is due when its score is at most [now]. *)
Definition zle (z : gmap string Z) (a b : string) : Prop :=
  default 0 (z !! a) <= default 0 (z !! b).

Definition due_list (z : gmap string Z) (now : Z) (l : list string) : Prop :=
  NoDup l /\ Sorted (zle z) l /\
  forall id, id ∈ l <-> exists sc, z !! id = Some sc /\ sc <= now.

(** A row of XINFO CONSUMERS. *)
Record cinfo := CInfo { ci_name : string; ci_pending : Z; ci_idle : Z }.

Definition cinfo_of (gr : group) (now : Z) (ct : string * Z) : cinfo :=
  CInfo ct.1 (Z.of_nat (pending_of gr ct.1)) (now - ct.2).

(** ** The commands *)

Class Redis := {
  rdb : Type;
  view : rdb -> rview;
  (* time passes *)
  tick : Z -> rdb -> rdb;
  (* streams *)
  XADD : string -> fields -> SE rdb error eid;
  XDEL : string -> eid -> SE rdb error unit;
  XLEN : string -> SE rdb error Z;
  XGROUP_CREATE : string -> string -> SE rdb error unit;          (* from ID 0, MKSTREAM *)
  XGROUP_DELCONSUMER : string -> string -> string -> SE rdb error unit;
  XREADGROUP : string -> string -> string -> Z ->                 (* key group consumer count, ID > *)
    SE rdb error (option (list (eid * fields)));
  XACK : string -> string -> eid -> SE rdb error unit;
  XCLAIM_JUSTID : string -> string -> string -> eid -> SE rdb error unit;  (* min-idle 0 *)
  XAUTOCLAIM : string -> string -> string -> Z -> eid -> Z ->     (* .. min-idle start count *)
    SE rdb error (eid * list (eid * fields));
  XPENDING_ONE : string -> string -> eid ->                       (* XPENDING key group id id 1 *)
    SE rdb error (list (eid * string * Z * Z));
  XPENDING_CONSUMER : string -> string -> string ->               (* XPENDING key group - + 1 c *)
    SE rdb error (list eid);
  XPENDING_COUNT : string -> string -> SE rdb error Z;
  XINFO_CONSUMERS : string -> string -> SE rdb error (list cinfo);
  (* hashes *)
  HSET : string -> string -> string -> SE rdb error unit;
  HSETNX : string -> string -> string -> SE rdb error bool;
  HGET : string -> string -> SE rdb error (option string);
  HDEL : string -> string -> SE rdb error unit;
  HINCRBY : string -> string -> Z -> SE rdb error Z;
  (* sorted sets *)
  ZADD : string -> Z -> string -> SE rdb error unit;
  ZREM : string -> string -> SE rdb error unit;
  ZCARD : string -> SE rdb error Z;
  ZRANGEBYSCORE : string -> Z -> Z -> SE rdb error (list string); (* -inf max LIMIT 0 n *)
  (* strings *)
  GET : string -> SE rdb error (option string);
  SET_PX : string -> string -> Z -> SE rdb error unit;
  (* the cjson library of the Lua sandbox: the members of an object, in the
     order [pairs] walks them *)
  cjson_decode : string -> result error fields;
}.

(** ** Documented behaviour *)

Definition busygroup : error := ErrReply "BUSYGROUP Consumer Group name already exists".

Class RedisLaws (R : Redis) : Prop := {
  tick_law s d : 0 <= d -> view (tick d s) = at_time (rv_now (view s) + d) (view s);

  (* XADD key * field value ...: a new ID above the last one, at the end *)
  XADD_law s k fs st :
    fs <> [] -> stream_or_new (view s) k = Some st ->
    runs (XADD k fs) s (fun s' id =>
      eid_lt (s_top st) id /\
      view s' = put_stream k (Stream (s_entries st ++ [(id, fs)]) id (s_groups st)) (view s));

  XDEL_law s k id st :
    stream_at (view s) k = Some st ->
    runs (XDEL k id) s (fun s' _ =>
      view s' = put_stream k (Stream (without id (s_entries st)) (s_top st) (s_groups st)) (view s));

  XLEN_law s k st :
    stream_or_new (view s) k = Some st ->
    runs (XLEN k) s (fun s' n => view s' = view s /\ n = Z.of_nat (length (s_entries st)));

  XGROUP_CREATE_law s k g st :
    stream_or_new (view s) k = Some st -> s_groups st !! g = None ->
    runs (XGROUP_CREATE k g) s (fun s' _ =>
      view s' = put_stream k (Stream (s_entries st) (s_top st)
                  (<[g := Group (0%N, 0%N) ∅ ∅]> (s_groups st))) (view s));

  XGROUP_CREATE_busy s k g gr :
    group_at (view s) k g = Some gr ->
    exists s', XGROUP_CREATE k g s = (s', Err busygroup) /\ view s' = view s;

  (* DELCONSUMER drops the consumer and its pending entries *)
  XGROUP_DELCONSUMER_law s k g c gr :
    group_at (view s) k g = Some gr ->
    runs (XGROUP_DELCONSUMER k g c) s (fun s' _ =>
      view s' = put_group k g (Group (g_last gr)
                  (filter (fun ip => ~ owned_by c ip.2) (g_pel gr))
                  (delete c (g_cons gr))) (view s));

  (* XREADGROUP ... >: the first entries never delivered to the group *)
  XREADGROUP_law s k g c n st gr :
    0 < n -> stream_at (view s) k = Some st -> s_groups st !! g = Some gr ->
    let new := take (Z.to_nat n) (undelivered (g_last gr) (s_entries st)) in
    runs (XREADGROUP k g c n) s (fun s' r =>
      r = (match new with [] => None | _ => Some new end) /\
      view s' = put_group k g (Group (last_of (g_last gr) new)
                  (deliver_all c (rv_now (view s)) new (g_pel gr))
                  (<[c := rv_now (view s)]> (g_cons gr))) (view s));

  XACK_law s k g id gr :
    group_at (view s) k g = Some gr ->
    runs (XACK k g id) s (fun s' _ =>
      view s' = put_group k g (Group (g_last gr) (delete id (g_pel gr)) (g_cons gr)) (view s));

  (* XCLAIM ... 0 id JUSTID: new owner, idle time reset, same delivery count *)
  XCLAIM_law s k g c id st gr p :
    stream_at (view s) k = Some st -> s_groups st !! g = Some gr ->
    g_pel gr !! id = Some p -> has_entry st id ->
    runs (XCLAIM_JUSTID k g c id) s (fun s' _ =>
      view s' = put_group k g (Group (g_last gr)
                  (<[id := PEntry c (rv_now (view s)) (pe_count p)]> (g_pel gr))
                  (<[c := rv_now (view s)]> (g_cons gr))) (view s));

  (* XAUTOCLAIM scans the pending entries from [start], at most ten times
     [count] of them, and claims those idle at least [minIdle], at most
     [count]; it returns where to resume, 0-0 at the end of the list *)
  XAUTOCLAIM_law s k g c minIdle start count st gr l :
    0 < count -> stream_at (view s) k = Some st -> s_groups st !! g = Some gr ->
    (forall id, is_Some (g_pel gr !! id) -> has_entry st id) ->
    pel_scan (g_pel gr) start l ->
    let now := rv_now (view s) in
    runs (XAUTOCLAIM k g c minIdle start count) s (fun s' r => exists n,
      let claimed := filter (expired now minIdle (g_pel gr)) (take n l) in
      Z.of_nat (length claimed) <= count /\
      ((n < length l)%nat -> Z.of_nat (length claimed) = count \/ Z.of_nat n = 10 * count) /\
      r.1 = (match drop n l with [] => (0%N, 0%N) | id :: _ => id end) /\
      r.2 = omap (fun id => pair id <$> entry_fields (s_entries st) id) claimed /\
      view s' = put_group k g (Group (g_last gr)
                  (foldl (claim_one c now) (g_pel gr) claimed)
                  (<[c := now]> (g_cons gr))) (view s));

  XPENDING_ONE_law s k g id gr :
    group_at (view s) k g = Some gr ->
    runs (XPENDING_ONE k g id) s (fun s' r =>
      view s' = view s /\
      r = match g_pel gr !! id with
          | Some p => [(id, pe_owner p, rv_now (view s) - pe_time p, pe_count p)]
          | None => []
          end);

  XPENDING_CONSUMER_law s k g c gr :
    group_at (view s) k g = Some gr ->
    runs (XPENDING_CONSUMER k g c) s (fun s' r =>
      view s' = view s /\ length r = Nat.min 1 (pending_of gr c));

  XPENDING_COUNT_law s k g gr :
    group_at (view s) k g = Some gr ->
    runs (XPENDING_COUNT k g) s (fun s' n => view s' = view s /\ n = Z.of_nat (size (g_pel gr)));

  XINFO_CONSUMERS_law s k g gr :
    group_at (view s) k g = Some gr ->
    runs (XINFO_CONSUMERS k g) s (fun s' r =>
      view s' = view s /\
      r ≡ₚ cinfo_of gr (rv_now (view s)) <$> map_to_list (g_cons gr));

  HSET_law s k f x h :
    hash_at (view s) k = Some h ->
    runs (HSET k f x) s (fun s' _ => view s' = put_hash k (<[f := x]> h) (view s));

  HSETNX_law s k f x h :
    hash_at (view s) k = Some h ->
    runs (HSETNX k f x) s (fun s' b =>
      b = bool_decide (h !! f = None) /\
      view s' = if b then put_hash k (<[f := x]> h) (view s) else view s);

  HGET_law s k f h :
    hash_at (view s) k = Some h ->
    runs (HGET k f) s (fun s' r => view s' = view s /\ r = h !! f);

  HDEL_law s k f h :
    hash_at (view s) k = Some h ->
    runs (HDEL k f) s (fun s' _ => view s' = put_hash k (delete f h) (view s));

  HINCRBY_law s k f d h n :
    hash_at (view s) k = Some h -> Atoi (default "0" (h !! f)) = Some n -> int64_ok (n + d) ->
    runs (HINCRBY k f d) s (fun s' r =>
      r = n + d /\ view s' = put_hash k (<[f := Itoa (n + d)]> h) (view s));

  ZADD_law s k sc m z :
    zset_at (view s) k = Some z ->
    runs (ZADD k sc m) s (fun s' _ => view s' = put_zset k (<[m := sc]> z) (view s));

  ZREM_law s k m z :
    zset_at (view s) k = Some z ->
    runs (ZREM k m) s (fun s' _ => view s' = put_zset k (delete m z) (view s));

  ZCARD_law s k z :
    zset_at (view s) k = Some z ->
    runs (ZCARD k) s (fun s' n => view s' = view s /\ n = Z.of_nat (size z));

  (* ZRANGEBYSCORE key -inf max LIMIT 0 n: lowest scores first *)
  ZRANGEBYSCORE_law s k mx n z :
    0 <= n -> zset_at (view s) k = Some z ->
    runs (ZRANGEBYSCORE k mx n) s (fun s' r =>
      view s' = view s /\ exists l, due_list z mx l /\ r = take (Z.to_nat n) l);

  GET_law s k o :
    str_at (view s) k = Some o ->
    runs (GET k) s (fun s' r => view s' = view s /\ r = o);

  (* SET key value PX ttl replaces whatever the key held *)
  SET_PX_law s k x ttl :
    0 < ttl ->
    runs (SET_PX k x ttl) s (fun s' _ =>
      view s' = put_str k x (Some (rv_now (view s) + ttl)) (view s));

  (* cjson.decode reads JSON objects; what Go wrote for text that is not UTF-8
     reads as U+FFFD *)
  cjson_law (m : gmap string string) :
    (forall k, is_Some (m !! k) -> utf8_valid k = true) ->
    exists l, cjson_decode (json_Marshal m) = Ok l /\ l ≡ₚ map_to_list (coerce_utf8 <$> m);
}.
