(* ===== verification/RefRedis.v ===== *)
(** * A reference Redis

    One implementation of the commands of [Redis], used to show that the laws
    of [RedisLaws] are consistent and to run the witnesses: the server state is
    the documented keyspace itself. *)

From S2P Require Import Prelude GoNum Errors Job GoJson Redis.
From stdpp Require Import strings sorting.

Open Scope Z_scope.

Definition wrongtype : error := ErrReply "WRONGTYPE Operation against a key holding the wrong kind of value".
Definition nogroup : error := ErrReply "NOGROUP No such key or consumer group".

(** Runs [f] on what [get] reads, or replies with [e]. *)
Definition with_val {A B} (get : rview -> option A) (e : error)
    (f : A -> rview -> rview * B) : SE rview error B := fun v =>
  match get v with
  | Some a => let '(v', b) := f a v in (v', Ok b)
  | None => (v, Err e)
  end.

Lemma runs_with_val {A B} get e (f : A -> rview -> rview * B) v a Q :
  get v = Some a -> Q (f a v).1 (f a v).2 -> runs (with_val get e f) v Q.
Proof.
  intros Hg HQ. exists (f a v).1, (f a v).2. unfold with_val. rewrite Hg.
  by destruct (f a v).
Qed.

Definition ref_next_id (now : Z) (top : eid) : eid :=
  if decide (top.1 < Z.to_N now)%N then (Z.to_N now, 0%N) else (top.1, (top.2 + 1)%N).

Lemma ref_next_id_lt now top : eid_lt top (ref_next_id now top).
Proof. unfold ref_next_id, eid_lt. case_decide; simpl; lia. Qed.

Definition stream_group_at (k g : string) (v : rview) : option (stream * group) :=
  st ← stream_at v k; gr ← s_groups st !! g; Some (st, gr).

Definition ref_pel_list (pel : gmap eid pentry) (start : eid) : list eid :=
  merge_sort eid_le (filter (eid_le start) (map_to_list pel).*1).

(** How many entries XAUTOCLAIM examines. *)
Fixpoint scan_len (hit : eid -> bool) (count attempts : nat) (l : list eid) : nat :=
  match count, attempts, l with
  | S c, S a, id :: l' =>
      S (scan_len hit (if hit id then c else count) a l')
  | _, _, _ => O
  end.

#[export] Instance ref_zle_dec z : RelDecision (zle z).
Proof. intros a b. unfold zle. apply _. Defined.

Definition ref_due (z : gmap string Z) (mx : Z) : list string :=
  merge_sort (zle z) (map_to_list (filter (fun ms => ms.2 <= mx) z)).*1.

#[export] Instance ref_redis : Redis := {|
  rdb := rview;
  view := fun v => v;
  tick d v := at_time (rv_now v + d) v;
  XADD k fs := with_val (fun v => stream_or_new v k) wrongtype (fun st v =>
    let id := ref_next_id (rv_now v) (s_top st) in
    (put_stream k (Stream (s_entries st ++ [(id, fs)]) id (s_groups st)) v, id));
  XDEL k id := with_val (fun v => stream_at v k) wrongtype (fun st v =>
    (put_stream k (Stream (without id (s_entries st)) (s_top st) (s_groups st)) v, ()));
  XLEN k := with_val (fun v => stream_or_new v k) wrongtype (fun st v =>
    (v, Z.of_nat (length (s_entries st))));
  XGROUP_CREATE k g := fun v =>
    match stream_or_new v k with
    | None => (v, Err wrongtype)
    | Some st =>
        match s_groups st !! g with
        | Some _ => (v, Err busygroup)
        | None => (put_stream k (Stream (s_entries st) (s_top st)
                     (<[g := Group (0%N, 0%N) ∅ ∅]> (s_groups st))) v, Ok ())
        end
    end;
  XGROUP_DELCONSUMER k g c := with_val (fun v => group_at v k g) nogroup (fun gr v =>
    (put_group k g (Group (g_last gr) (filter (fun ip => ~ owned_by c ip.2) (g_pel gr))
       (delete c (g_cons gr))) v, ()));
  XREADGROUP k g c n := with_val (stream_group_at k g) nogroup (fun sg v =>
    let '(st, gr) := sg in
    let new := take (Z.to_nat n) (undelivered (g_last gr) (s_entries st)) in
    (put_group k g (Group (last_of (g_last gr) new)
       (deliver_all c (rv_now v) new (g_pel gr)) (<[c := rv_now v]> (g_cons gr))) v,
     match new with [] => None | _ => Some new end));
  XACK k g id := with_val (fun v => group_at v k g) nogroup (fun gr v =>
    (put_group k g (Group (g_last gr) (delete id (g_pel gr)) (g_cons gr)) v, ()));
  XCLAIM_JUSTID k g c id := with_val (fun v => group_at v k g) nogroup (fun gr v =>
    match g_pel gr !! id with
    | Some p =>
        (put_group k g (Group (g_last gr) (<[id := PEntry c (rv_now v) (pe_count p)]> (g_pel gr))
           (<[c := rv_now v]> (g_cons gr))) v, ())
    | None => (v, ())
    end);
  XAUTOCLAIM k g c minIdle start count := with_val (stream_group_at k g) nogroup (fun sg v =>
    let '(st, gr) := sg in
    let l := ref_pel_list (g_pel gr) start in
    let n := scan_len (fun id => bool_decide (expired (rv_now v) minIdle (g_pel gr) id))
               (Z.to_nat count) (Z.to_nat (10 * count)) l in
    let claimed := filter (expired (rv_now v) minIdle (g_pel gr)) (take n l) in
    (put_group k g (Group (g_last gr) (foldl (claim_one c (rv_now v)) (g_pel gr) claimed)
       (<[c := rv_now v]> (g_cons gr))) v,
     (match drop n l with [] => (0%N, 0%N) | id :: _ => id end,
      omap (fun id => pair id <$> entry_fields (s_entries st) id) claimed)));
  XPENDING_ONE k g id := with_val (fun v => group_at v k g) nogroup (fun gr v =>
    (v, match g_pel gr !! id with
        | Some p => [(id, pe_owner p, rv_now v - pe_time p, pe_count p)]
        | None => []
        end));
  XPENDING_CONSUMER k g c := with_val (fun v => group_at v k g) nogroup (fun gr v =>
    (v, take 1 (map_to_list (filter (fun ip => owned_by c ip.2) (g_pel gr))).*1));
  XPENDING_COUNT k g := with_val (fun v => group_at v k g) nogroup (fun gr v =>
    (v, Z.of_nat (size (g_pel gr))));
  XINFO_CONSUMERS k g := with_val (fun v => group_at v k g) nogroup (fun gr v =>
    (v, cinfo_of gr (rv_now v) <$> map_to_list (g_cons gr)));
  HSET k f x := with_val (fun v => hash_at v k) wrongtype (fun h v =>
    (put_hash k (<[f := x]> h) v, ()));
  HSETNX k f x := with_val (fun v => hash_at v k) wrongtype (fun h v =>
    if decide (h !! f = None) then (put_hash k (<[f := x]> h) v, true) else (v, false));
  HGET k f := with_val (fun v => hash_at v k) wrongtype (fun h v => (v, h !! f));
  HDEL k f := with_val (fun v => hash_at v k) wrongtype (fun h v =>
    (put_hash k (delete f h) v, ()));
  HINCRBY k f d := fun v =>
    match hash_at v k with
    | None => (v, Err wrongtype)
    | Some h =>
        match Atoi (default "0" (h !! f)) with
        | None => (v, Err (ErrReply "ERR hash value is not an integer"))
        | Some n => (put_hash k (<[f := Itoa (n + d)]> h) v, Ok (n + d))
        end
    end;
  ZADD k sc m := with_val (fun v => zset_at v k) wrongtype (fun z v =>
    (put_zset k (<[m := sc]> z) v, ()));
  ZREM k m := with_val (fun v => zset_at v k) wrongtype (fun z v =>
    (put_zset k (delete m z) v, ()));
  ZCARD k := with_val (fun v => zset_at v k) wrongtype (fun z v => (v, Z.of_nat (size z)));
  ZRANGEBYSCORE k mx n := with_val (fun v => zset_at v k) wrongtype (fun z v =>
    (v, take (Z.to_nat n) (ref_due z mx)));
  GET k := with_val (fun v => str_at v k) wrongtype (fun o v => (v, o));
  SET_PX k x ttl := fun v => (put_str k x (Some (rv_now v + ttl)) v, Ok ());
  cjson_decode s :=
    match json_object s with
    | Some l => Ok l
    | None => Err (ErrReply "Expected value but found invalid token")
    end;
|}.

(** ** The laws hold *)

#[export] Instance eid_le_total : Total eid_le.
Proof.
  intros a b. destruct (decide (eid_le a b)); [by left|]. right. right. by apply eid_not_le.
Qed.

#[export] Instance eid_le_antisymm : AntiSymm (=) eid_le.
Proof.
  intros a b [?|Hab] [?|Hba]; try done.
  by destruct (eid_lt_irrefl a (eid_lt_trans _ _ _ Hab Hba)).
Qed.

#[export] Instance eid_le_transitive : Transitive eid_le.
Proof. intros a b c. apply eid_le_trans. Qed.

Lemma StronglySorted_lt_le l : StronglySorted eid_lt l -> StronglySorted eid_le l.
Proof.
  induction 1 as [|a l _ IH Ha]; constructor; [done|].
  eapply Forall_impl; [exact Ha|]. intros. by right.
Qed.

Lemma StronglySorted_lt_NoDup l : StronglySorted eid_lt l -> NoDup l.
Proof.
  induction 1 as [|a l _ IH Ha]; constructor; [|done].
  intros Hin. rewrite Forall_forall in Ha. apply Ha in Hin. by apply eid_lt_irrefl in Hin.
Qed.

Lemma ref_pel_list_perm pel start :
  ref_pel_list pel start ≡ₚ filter (eid_le start) (map_to_list pel).*1.
Proof. apply merge_sort_Permutation. Qed.

Lemma elem_of_ref_pel_list pel start id :
  id ∈ ref_pel_list pel start <-> is_Some (pel !! id) /\ eid_le start id.
Proof.
  rewrite ref_pel_list_perm, list_elem_of_filter, list_elem_of_fmap. split.
  - intros [Hle ([i p] & -> & Hin)]. apply elem_of_map_to_list in Hin. eauto.
  - intros [[p Hp] Hle]. split; [done|]. exists (id, p). by rewrite elem_of_map_to_list.
Qed.

(** The scan order of the pending list is determined. *)
Lemma pel_scan_unique pel start l : pel_scan pel start l -> l = ref_pel_list pel start.
Proof.
  intros [Hs Hl]. apply (Sorted_unique eid_le).
  - apply StronglySorted_Sorted. by apply StronglySorted_lt_le.
  - unfold ref_pel_list. apply (Sorted_merge_sort eid_le).
  - apply NoDup_Permutation; [by apply StronglySorted_lt_NoDup | |].
    + rewrite ref_pel_list_perm. apply NoDup_filter. apply NoDup_fst_map_to_list.
    + intros id. by rewrite Hl, elem_of_ref_pel_list.
Qed.

Lemma StronglySorted_le_lt l : StronglySorted eid_le l -> NoDup l -> StronglySorted eid_lt l.
Proof.
  induction 1 as [|a l _ IH Ha]; intros Hnd; [constructor|].
  apply NoDup_cons in Hnd as [Hnin Hnd]. constructor; [auto|].
  rewrite Forall_forall in *. intros x Hx. destruct (Ha x Hx) as [->|?]; done.
Qed.

Lemma pel_scan_ref pel start : pel_scan pel start (ref_pel_list pel start).
Proof.
  split; [|intros; apply elem_of_ref_pel_list]. apply StronglySorted_le_lt.
  - apply Sorted_StronglySorted; [apply _|]. apply (Sorted_merge_sort eid_le).
  - rewrite ref_pel_list_perm. apply NoDup_filter, NoDup_fst_map_to_list.
Qed.

(** The scan claims at most [count] entries and stops early only when it has
    them all or has examined its quota. *)
Lemma scan_len_spec (P : eid -> Prop) `{!forall x, Decision (P x)} count attempts l :
  let n := scan_len (fun id => bool_decide (P id)) count attempts l in
  (length (filter P (take n l)) <= count)%nat /\
  ((n < length l)%nat -> length (filter P (take n l)) = count \/ n = attempts).
Proof.
  revert count l. induction attempts as [|a IH]; intros [|c] [|id l]; simpl; try lia.
  destruct (decide (P id)) as [HP|HP].
  - rewrite bool_decide_eq_true_2 by done. rewrite filter_cons_True by done. simpl.
    destruct (IH c l) as [H1 H2]. split; lia.
  - rewrite bool_decide_eq_false_2 by done. rewrite filter_cons_False by done.
    destruct (IH (S c) l) as [H1 H2]. split; lia.
Qed.

#[export] Instance zle_total z : Total (zle z).
Proof. intros a b. unfold zle. lia. Qed.

Lemma ref_due_spec z mx : due_list z mx (ref_due z mx).
Proof.
  assert (ref_due z mx ≡ₚ (map_to_list (filter (fun ms => ms.2 <= mx) z)).*1) as Hp
    by apply merge_sort_Permutation.
  split; [|split].
  - rewrite Hp. apply NoDup_fst_map_to_list.
  - apply Sorted_merge_sort. apply _.
  - intros id. rewrite Hp, list_elem_of_fmap. split.
    + intros ([i sc] & -> & Hin). apply elem_of_map_to_list, map_lookup_filter_Some in Hin.
      simpl in *. naive_solver.
    + intros (sc & Hz & Hle). exists (id, sc).
      rewrite elem_of_map_to_list, map_lookup_filter_Some. naive_solver.
Qed.

Lemma group_at_split v k g gr :
  group_at v k g = Some gr -> exists st, stream_at v k = Some st /\ s_groups st !! g = Some gr.
Proof. unfold group_at. intros (st & H1 & H2)%bind_Some. eauto. Qed.

Lemma stream_group_at_intro v k g st gr :
  stream_at v k = Some st -> s_groups st !! g = Some gr ->
  stream_group_at k g v = Some (st, gr).
Proof. intros H1 H2. unfold stream_group_at. rewrite H1. simpl. by rewrite H2. Qed.

Ltac ref_law := intros; (eapply runs_with_val; [eassumption | simpl; auto]).

Lemma group_at_intro v k g st gr :
  stream_at v k = Some st -> s_groups st !! g = Some gr -> group_at v k g = Some gr.
Proof. intros H1 H2. unfold group_at. by rewrite H1. Qed.

#[export] Instance ref_redis_laws : RedisLaws ref_redis.
Proof.
  split.
  - done.
  - intros; eapply runs_with_val; [eassumption|]; simpl; split; [apply ref_next_id_lt | done].
  - ref_law.
  - ref_law.
  - intros s k g st Hst Hg. exists (put_stream k (Stream (s_entries st) (s_top st)
                  (<[g := Group (0%N, 0%N) ∅ ∅]> (s_groups st))) s), ().
    simpl in *. by rewrite Hst, Hg.
  - intros s k g gr (st & Hst & Hg)%group_at_split. exists s. simpl in *.
    assert (stream_or_new s k = Some st) as ->.
    { unfold stream_at, stream_or_new in *. by repeat case_match. }
    by rewrite Hg.
  - ref_law.
  - intros s k g c n st gr Hn Hst Hg new. eapply runs_with_val; [by apply stream_group_at_intro|done].
  - ref_law.
  - intros s k g c id st gr p Hst Hg Hp _. eapply runs_with_val; [by eapply group_at_intro|].
    simpl. by rewrite Hp.
  - intros s k g c minIdle start count st gr l Hc Hst Hg Hlive Hl now.
    eapply runs_with_val; [by apply stream_group_at_intro|].
    apply pel_scan_unique in Hl. subst l. simpl.
    eexists. split; [|split; [|split; [reflexivity|split; reflexivity]]].
    all: pose proof (scan_len_spec (expired now minIdle (g_pel gr)) (Z.to_nat count)
           (Z.to_nat (10 * count)) (ref_pel_list (g_pel gr) start)) as [H1 H2].
    + unfold now in *. simpl in *. lia.
    + unfold now in *. simpl in *. intros Hlt. destruct (H2 Hlt); lia.
  - ref_law.
  - intros; eapply runs_with_val; [eassumption|]; simpl; split; [done|].
    unfold pending_of. by rewrite length_take, length_fmap, length_map_to_list.
  - ref_law.
  - ref_law.
  - ref_law.
  - intros; eapply runs_with_val; [eassumption|]; simpl.
    case_decide; simpl; [rewrite bool_decide_eq_true_2 | rewrite bool_decide_eq_false_2]; done.
  - ref_law.
  - ref_law.
  - intros s k f d h n Hh Ha _. exists (put_hash k (<[f := Itoa (n + d)]> h) s), (n + d).
    simpl in *. by rewrite Hh, Ha.
  - ref_law.
  - ref_law.
  - ref_law.
  - intros; eapply runs_with_val; [eassumption|]; simpl; split; [done|].
    eexists. split; [apply ref_due_spec | done].
  - ref_law.
  - intros s k x ttl _. by exists (put_str k x (Some (rv_now s + ttl)) s), ().
  - intros m Hm. destruct (json_roundtrip m Hm) as (l & Hl & Hp). exists l.
    simpl in *. by rewrite Hl.
Qed.
