(* ===== verification/Scripts.v ===== *)
(** * The Lua scripts ([redisstream/scripts.go])

    Each script is the sequence of [redis.call]s it makes, in the monad of
    [Prelude]: an error reply aborts the script and keeps the effects made so
    far, as in Redis.  A script runs as one step of the server. KEYS and ARGV
    are the arguments of the definitions, in the order of the source. *)

From S2P Require Import Prelude GoNum Errors Job GoJson Redis.
From stdpp Require Import strings.

Open Scope Z_scope.
Open Scope se_scope.

(** The ID 0-0, which XAUTOCLAIM returns at the end of the pending list. *)
Definition zero_id : eid := (0%N, 0%N).

Section scripts.
Context {R : Redis}.

Abbreviation M := (SE rdb error).

(** ** leaseLua *)

(** Lua holds the delivery count and the token as doubles, whose comparison is
    that of the integers while the count is below 2^53. *)
Definition owns (stream group : string) (id : eid) (owner : string) (token : Z) : M bool :=
  let! p := XPENDING_ONE stream group id in
  match p with
  | [] => ret false
  | (_, consumer, _, count) :: _ => ret (bool_decide (consumer = owner) && (count =? token))
  end.

Definition settle (stream group : string) (id : eid) : M unit :=
  do! XACK stream group id in
  XDEL stream id.

Definition renew (stream group : string) (id : eid) (owner : string) : M unit :=
  XCLAIM_JUSTID stream group owner id.

(** A delivery in a batch's ARGV: message ID, owner, token. *)
Definition triple : Type := eid * string * Z.

Fixpoint each_owned (stream group : string) (action : eid -> string -> M unit)
    (argv : list triple) : M (list Z) :=
  match argv with
  | [] => ret []
  | (id, owner, token) :: argv' =>
      let! mine := owns stream group id owner token in
      if mine : bool then
        do! action id owner in
        let! out := each_owned stream group action argv' in
        ret (1 :: out)
      else
        let! out := each_owned stream group action argv' in
        ret (0 :: out)
  end.

(** ** xaddJSONLua *)

Definition lift_result {A} (r : result error A) : M A :=
  match r with Ok a => ret a | Err e => throw e end.

Definition xadd_json (stream fields_json : string) : M unit :=
  let! fs := lift_result (cjson_decode fields_json) in
  do! XADD stream fs in
  ret tt.

(** ** Settling one delivery *)

Definition ackScript (stream group : string) (id : eid) (owner : string) (token : Z) : M Z :=
  let! mine := owns stream group id owner token in
  if negb mine then ret 0 else
  do! settle stream group id in
  ret 1.

Definition extendScript (stream group : string) (id : eid) (owner : string) (token : Z) : M Z :=
  let! mine := owns stream group id owner token in
  if negb mine then ret 0 else
  do! renew stream group id owner in
  ret 1.

Definition retryScript (stream zset data group : string) (id : eid) (owner : string)
    (token runAt : Z) (jobID fields_json : string) : M Z :=
  let! mine := owns stream group id owner token in
  if negb mine then ret 0 else
  do! HSET data jobID fields_json in
  do! ZADD zset runAt jobID in
  do! settle stream group id in
  ret 1.

Definition deadLetterScript (stream dead group : string) (id : eid) (owner : string)
    (token : Z) (pairs : fields) : M Z :=
  let! mine := owns stream group id owner token in
  if negb mine then ret 0 else
  do! XADD dead pairs in
  do! settle stream group id in
  ret 1.

(** ** Promotion of due jobs *)

Definition promote_one (zset data stream id : string) : M unit :=
  let! fields_json := HGET data id in
  do! (match fields_json with
       | Some j => xadd_json stream j
       | None => ret tt
       end) in
  do! HDEL data id in
  ZREM zset id.

Fixpoint promote_all (zset data stream : string) (ids : list string) : M unit :=
  match ids with
  | [] => ret tt
  | id :: ids' => do! promote_one zset data stream id in promote_all zset data stream ids'
  end.

Definition promote (zset data stream : string) (now limit : Z) : M Z :=
  let! ids := ZRANGEBYSCORE zset now limit in
  do! promote_all zset data stream ids in
  ret (Z.of_nat (length ids)).

Definition promoteScript (zset data stream : string) (now limit : Z) : M Z :=
  promote zset data stream now limit.

(** ** Claiming and recovering *)

Definition claimScript (stream zset data group consumer : string) (count now : Z) :
    M (list (eid * fields)) :=
  do! promote zset data stream now 100 in
  let! res := XREADGROUP stream group consumer count in
  match res with
  | None => ret []
  | Some es => ret es
  end.

(** Each claimed entry is returned with its new delivery count. *)
Fixpoint with_counts (stream group : string) (es : list (eid * fields)) :
    M (list (eid * fields * Z)) :=
  match es with
  | [] => ret []
  | (id, fs) :: es' =>
      let! p := XPENDING_ONE stream group id in
      match p with
      | [] => throw (ErrReply "attempt to index a nil value")
      | (_, _, _, count) :: _ =>
          let! rest := with_counts stream group es' in
          ret ((id, fs, count) :: rest)
      end
  end.

Fixpoint recover_loop (fuel : nat) (stream group consumer : string) (minIdle want : Z)
    (cursor : eid) (out : list (eid * fields * Z)) : M (eid * list (eid * fields * Z)) :=
  match fuel with
  | O => ret (cursor, out)
  | S fuel' =>
      let! res := XAUTOCLAIM stream group consumer minIdle cursor (want - Z.of_nat (length out)) in
      let! got := with_counts stream group res.2 in
      let out' := out ++ got in
      if (want <=? Z.of_nat (length out')) || bool_decide (res.1 = zero_id)
      then ret (res.1, out')
      else recover_loop fuel' stream group consumer minIdle want res.1 out'
  end.

Definition recoverScript (stream group consumer : string) (minIdle count : Z) (cursor : eid) :
    M (eid * list (eid * fields * Z)) :=
  recover_loop 10 stream group consumer minIdle count cursor [].

(** ** Consumers *)

Definition deregisterScript (stream group consumer : string) : M Z :=
  let! p := XPENDING_CONSUMER stream group consumer in
  if (0 <? length p)%nat then ret 0 else
  do! XGROUP_DELCONSUMER stream group consumer in
  ret 1.

Fixpoint prune_loop (stream group : string) (minIdle : Z) (cs : list cinfo) : M Z :=
  match cs with
  | [] => ret 0
  | c :: cs' =>
      if (ci_pending c =? 0) && (minIdle <=? ci_idle c) then
        do! XGROUP_DELCONSUMER stream group (ci_name c) in
        let! removed := prune_loop stream group minIdle cs' in
        ret (removed + 1)
      else prune_loop stream group minIdle cs'
  end.

Definition pruneConsumersScript (stream group : string) (minIdle : Z) : M Z :=
  let! cs := XINFO_CONSUMERS stream group in
  prune_loop stream group minIdle cs.

(** ** Idempotent enqueue *)

Definition enqueueOnceScript (dedupe stream zset data jobID : string) (window runAt : Z)
    (fields_json : string) : M string :=
  let! existing := GET dedupe in
  match existing with
  | Some id => ret id
  | None =>
      do! SET_PX dedupe jobID window in
      do! (if 0 <? runAt then
             do! HSET data jobID fields_json in
             ZADD zset runAt jobID
           else xadd_json stream fields_json) in
      ret jobID
  end.

(** ** Batches *)

Definition ackBatchScript (stream group : string) (argv : list triple) : M (list Z) :=
  each_owned stream group (fun id _ => settle stream group id) argv.

Definition extendBatchScript (stream group : string) (argv : list triple) : M (list Z) :=
  each_owned stream group (fun id owner => renew stream group id owner) argv.
End scripts.
