(* ===== verification/QueueSpec.v ===== *)
(** * The abstract queue

    What a queue on one stream is, apart from how Redis stores it: the entries
    of the stream, the consumer group's progress and pending entries, the retry
    schedule, the dead-letter stream and the remembered idempotency keys, with
    the pure effect of each atomic operation.  [q_wf] is the invariant every
    operation preserves; in particular an entry of the stream is either not yet
    delivered or pending, so it can always be claimed or recovered. *)

From S2P Require Import Prelude GoNum Errors Job GoJson Redis.
From stdpp Require Import strings sorting.

Open Scope Z_scope.

Record qstate := QState {
  q_entries : list (eid * fields);        (* the stream *)
  q_top : eid;                            (* last generated ID *)
  q_last : eid;                           (* last delivered ID *)
  q_pel : gmap eid pentry;                (* deliveries in flight *)
  q_cons : gmap string Z;                 (* consumers *)
  q_sched : gmap string Z;                (* job ID -> run-at (unix ms) *)
  q_data : gmap string string;            (* job ID -> job fields as JSON *)
  q_dead : list (eid * fields);           (* the dead-letter stream *)
  q_dedupe : gmap string (string * Z);    (* idempotency key -> job ID, expiry *)
  q_now : Z;                              (* the server's clock (unix ms) *)
}.

(** Reduces the projections of an explicit [QState], and nothing else. *)
Ltac qsimpl := cbn [q_entries q_top q_last q_pel q_cons q_sched q_data q_dead q_dedupe q_now].

Definition q_ids (q : qstate) : list eid := (q_entries q).*1.

(** ** Effects *)

(** The fencing check: the delivery is pending, with this owner and count. *)
Definition q_owns (q : qstate) (id : eid) (owner : string) (token : Z) : bool :=
  match q_pel q !! id with
  | Some p => bool_decide (pe_owner p = owner) && (pe_count p =? token)
  | None => false
  end.

Definition q_settle (id : eid) (q : qstate) : qstate :=
  QState (without id (q_entries q)) (q_top q) (q_last q) (delete id (q_pel q)) (q_cons q)
    (q_sched q) (q_data q) (q_dead q) (q_dedupe q) (q_now q).

Definition q_renew (id : eid) (owner : string) (q : qstate) : qstate :=
  QState (q_entries q) (q_top q) (q_last q)
    (alter (fun p => PEntry owner (q_now q) (pe_count p)) id (q_pel q))
    (<[owner := q_now q]> (q_cons q))
    (q_sched q) (q_data q) (q_dead q) (q_dedupe q) (q_now q).

Definition q_append (id : eid) (fs : fields) (q : qstate) : qstate :=
  QState (q_entries q ++ [(id, fs)]) id (q_last q) (q_pel q) (q_cons q)
    (q_sched q) (q_data q) (q_dead q) (q_dedupe q) (q_now q).

Definition q_schedule (jid : string) (runAt : Z) (json : string) (q : qstate) : qstate :=
  QState (q_entries q) (q_top q) (q_last q) (q_pel q) (q_cons q)
    (<[jid := runAt]> (q_sched q)) (<[jid := json]> (q_data q)) (q_dead q) (q_dedupe q) (q_now q).

Definition q_unschedule (jid : string) (q : qstate) : qstate :=
  QState (q_entries q) (q_top q) (q_last q) (q_pel q) (q_cons q)
    (delete jid (q_sched q)) (delete jid (q_data q)) (q_dead q) (q_dedupe q) (q_now q).

Definition q_bury (id : eid) (pairs : fields) (q : qstate) : qstate :=
  QState (q_entries q) (q_top q) (q_last q) (q_pel q) (q_cons q)
    (q_sched q) (q_data q) (q_dead q ++ [(id, pairs)]) (q_dedupe q) (q_now q).

(** The entries the next claim of up to [n] delivers. *)
Definition q_ready (n : Z) (q : qstate) : list (eid * fields) :=
  take (Z.to_nat n) (undelivered (q_last q) (q_entries q)).

Definition q_deliver (c : string) (n : Z) (q : qstate) : qstate :=
  let new := q_ready n q in
  QState (q_entries q) (q_top q) (last_of (q_last q) new)
    (deliver_all c (q_now q) new (q_pel q)) (<[c := q_now q]> (q_cons q))
    (q_sched q) (q_data q) (q_dead q) (q_dedupe q) (q_now q).

Definition q_redeliver (c : string) (ids : list eid) (q : qstate) : qstate :=
  QState (q_entries q) (q_top q) (q_last q)
    (foldl (claim_one c (q_now q)) (q_pel q) ids) (<[c := q_now q]> (q_cons q))
    (q_sched q) (q_data q) (q_dead q) (q_dedupe q) (q_now q).

Definition q_idle_consumer (q : qstate) (c : string) : Prop :=
  forall id p, q_pel q !! id = Some p -> pe_owner p <> c.

Definition q_drop_consumer (c : string) (q : qstate) : qstate :=
  QState (q_entries q) (q_top q) (q_last q) (q_pel q) (delete c (q_cons q))
    (q_sched q) (q_data q) (q_dead q) (q_dedupe q) (q_now q).

Definition q_remember (key jid : string) (window : Z) (q : qstate) : qstate :=
  QState (q_entries q) (q_top q) (q_last q) (q_pel q) (q_cons q)
    (q_sched q) (q_data q) (q_dead q) (<[key := (jid, q_now q + window)]> (q_dedupe q)) (q_now q).

Definition q_tick (d : Z) (q : qstate) : qstate :=
  QState (q_entries q) (q_top q) (q_last q) (q_pel q) (q_cons q)
    (q_sched q) (q_data q) (q_dead q)
    (filter (fun ke => q_now q + d < ke.2.2) (q_dedupe q)) (q_now q + d).

(** ** The invariant *)

Record q_wf (q : qstate) : Prop := {
  wf_sorted : StronglySorted eid_lt (q_ids q);
  wf_pos : forall id, id ∈ q_ids q -> eid_lt (0%N, 0%N) id;
  wf_top : forall id, id ∈ q_ids q -> eid_le id (q_top q);
  wf_last : eid_le (q_last q) (q_top q);
  wf_delivered : forall id, id ∈ q_ids q -> eid_le id (q_last q) -> is_Some (q_pel q !! id);
  wf_pending : forall id p, q_pel q !! id = Some p ->
    id ∈ q_ids q /\ eid_le id (q_last q) /\ 1 <= pe_count p /\ is_Some (q_cons q !! pe_owner p);
  wf_sched : dom (q_sched q) = dom (q_data q);
}.

(** The empty queue, as [NewWithClient] leaves it. *)
Definition q_empty (now : Z) : qstate :=
  QState [] (0%N, 0%N) (0%N, 0%N) ∅ ∅ ∅ ∅ [] ∅ now.

Lemma q_wf_empty now : q_wf (q_empty now).
Proof.
  split; unfold q_empty, q_ids; simpl; try set_solver.
  - constructor.
  - by left.
Qed.

(** *** Sorted lists of IDs *)

Lemma StronglySorted_snoc (l : list eid) x :
  StronglySorted eid_lt l -> (forall y, y ∈ l -> eid_lt y x) -> StronglySorted eid_lt (l ++ [x]).
Proof.
  induction 1 as [|a l Hs IH Ha]; intros Hx; simpl; [repeat constructor|].
  constructor; [apply IH; intros; apply Hx; by right|].
  apply Forall_app. split; [done|]. constructor; [|done]. apply Hx. left.
Qed.

Lemma StronglySorted_fmap_filter (P : eid * fields -> Prop) `{!forall x, Decision (P x)} l :
  StronglySorted eid_lt l.*1 -> StronglySorted eid_lt (filter P l).*1.
Proof.
  induction l as [|e l IH]; intros Hs; [done|].
  inversion Hs as [|? ? Hl Ha]; subst.
  destruct (decide (P e)); [rewrite filter_cons_True by done | rewrite filter_cons_False by done; auto].
  constructor; [auto|]. rewrite Forall_forall in *. intros x Hx.
  apply Ha. apply list_elem_of_fmap in Hx as (y & -> & Hy).
  apply list_elem_of_fmap. exists y. split; [done|]. by apply list_elem_of_filter in Hy as [_ ?].
Qed.

Lemma StronglySorted_take_le (l : list eid) n x y :
  StronglySorted eid_lt l -> last (take n l) = Some y -> x ∈ l -> eid_le x y -> x ∈ take n l.
Proof.
  intros Hs Hy Hx Hle. rewrite <- (take_drop n l) in Hx.
  apply elem_of_app in Hx as [Hx|Hx]; [done|]. exfalso.
  rewrite <- (take_drop n l) in Hs.
  assert (y ∈ take n l) as Hyin by (by apply last_Some_elem_of).
  revert Hs Hyin. generalize (take n l) as l1. clear Hy.
  induction l1 as [|a l1 IH]; intros Hs Hy; [set_solver|].
  simpl in Hs. inversion Hs as [|? ? Hl Ha]; subst.
  apply elem_of_cons in Hy as [->|Hy]; [|auto].
  rewrite Forall_forall in Ha. destruct (eid_lt_irrefl a).
  eapply (eid_lt_le_trans _ x); [apply Ha, elem_of_app; by right | done].
Qed.

Lemma elem_of_without id x es : x ∈ (without id es).*1 <-> x <> id /\ x ∈ es.*1.
Proof.
  unfold without. rewrite !list_elem_of_fmap. split.
  - intros (e & -> & He). apply list_elem_of_filter in He. naive_solver.
  - intros (Hne & e & -> & He). exists e. rewrite list_elem_of_filter. done.
Qed.

Lemma elem_of_undelivered last x es : x ∈ (undelivered last es).*1 <-> eid_lt last x /\ x ∈ es.*1.
Proof.
  unfold undelivered. rewrite !list_elem_of_fmap. split.
  - intros (e & -> & He). apply list_elem_of_filter in He. naive_solver.
  - intros (Hne & e & -> & He). exists e. rewrite list_elem_of_filter. done.
Qed.

(** *** Pending entries after a delivery or a claim *)

Lemma lookup_deliver_all who now new pel id :
  deliver_all who now new pel !! id =
  if decide (id ∈ new.*1) then Some (PEntry who now 1) else pel !! id.
Proof.
  induction new as [|e new IH]; [done|].
  change (deliver_all who now (e :: new) pel)
    with (<[e.1 := PEntry who now 1]> (deliver_all who now new pel)).
  destruct (decide (e.1 = id)) as [<-|Hne].
  - rewrite lookup_insert_eq, decide_True; [done | set_solver].
  - rewrite lookup_insert_ne, IH by done.
    destruct (decide (id ∈ new.*1)); [rewrite decide_True | rewrite decide_False]; set_solver.
Qed.

Lemma lookup_claim_one_ne who now pel id id' :
  id <> id' -> claim_one who now pel id !! id' = pel !! id'.
Proof. intros. unfold claim_one. case_match; [by rewrite lookup_insert_ne | done]. Qed.

Lemma lookup_claim_all who now ids pel id :
  NoDup ids ->
  foldl (claim_one who now) pel ids !! id =
  if decide (id ∈ ids) then (fun p => PEntry who now (pe_count p + 1)) <$> pel !! id
  else pel !! id.
Proof.
  revert pel. induction ids as [|i ids IH]; intros pel Hnd; [done|].
  cbn [foldl]. inversion Hnd as [|? ? Hi Hnd']; subst. rewrite IH by done.
  destruct (decide (i = id)) as [<-|Hne].
  - rewrite decide_False by done. rewrite decide_True by set_solver.
    unfold claim_one. destruct (pel !! i) eqn:E; [by rewrite lookup_insert_eq | done].
  - rewrite lookup_claim_one_ne by done.
    destruct (decide (id ∈ ids)); [rewrite decide_True | rewrite decide_False]; set_solver.
Qed.

(** ** Every effect preserves the invariant *)

Section preservation.
Implicit Types q : qstate.

Lemma wf_settle id q : q_wf q -> q_wf (q_settle id q).
Proof.
  intros [Hs Hz Ht Hl Hd Hp Hk]. split; unfold q_ids in *; simpl.
  - by apply StronglySorted_fmap_filter.
  - intros x [_ Hx]%elem_of_without. auto.
  - intros x [_ Hx]%elem_of_without. auto.
  - done.
  - intros x [Hne Hx]%elem_of_without ?. rewrite lookup_delete_ne by done. auto.
  - intros x p [Hne Hx]%lookup_delete_Some. destruct (Hp x p Hx) as (? & ? & ? & ?).
    by rewrite elem_of_without.
  - done.
Qed.

Lemma wf_renew id owner q : q_wf q -> q_wf (q_renew id owner q).
Proof.
  intros [Hs Hz Ht Hl Hd Hp Hk]. split; unfold q_ids in *; simpl; try done.
  - intros x Hx ?. destruct (decide (id = x)) as [->|]; [|rewrite lookup_alter_ne by done; auto].
    rewrite lookup_alter_eq. apply fmap_is_Some. auto.
  - intros x p. destruct (decide (id = x)) as [->|].
    + rewrite lookup_alter_eq. intros (p' & Hx & ->)%fmap_Some. simpl.
      destruct (Hp x p' Hx) as (? & ? & ? & ?). rewrite lookup_insert_eq. eauto.
    + rewrite lookup_alter_ne by done. intros Hx.
      destruct (Hp x p Hx) as (? & ? & ? & ?). rewrite lookup_insert_is_Some'. tauto.
Qed.

Lemma wf_append id fs q : eid_lt (q_top q) id -> q_wf q -> q_wf (q_append id fs q).
Proof.
  intros Hid [Hs Hz Ht Hl Hd Hp Hk]. split; unfold q_ids in *; simpl.
  - rewrite fmap_app. apply StronglySorted_snoc; [done|].
    intros y Hy. eapply eid_le_lt_trans; eauto.
  - intros x. rewrite fmap_app, elem_of_app. intros [Hx|Hx]; [auto|].
    apply list_elem_of_singleton in Hx as ->. eapply eid_le_lt_trans; [apply eid_le_zero | exact Hid].
  - intros x. rewrite fmap_app, elem_of_app. intros [Hx|Hx].
    + right. eapply eid_le_lt_trans; eauto.
    + left. by apply list_elem_of_singleton in Hx.
  - right. eapply eid_le_lt_trans; eauto.
  - intros x. rewrite fmap_app, elem_of_app. intros [Hx|Hx] Hle; [auto|].
    apply list_elem_of_singleton in Hx as ->. destruct (eid_lt_irrefl (q_top q)).
    eapply eid_lt_le_trans; [exact Hid|]. by eapply eid_le_trans.
  - intros x p Hx. destruct (Hp x p Hx) as (? & ? & ? & ?).
    rewrite fmap_app, elem_of_app. tauto.
  - done.
Qed.

Lemma wf_schedule jid runAt json q : q_wf q -> q_wf (q_schedule jid runAt json q).
Proof.
  intros [Hs Hz Ht Hl Hd Hp Hk]. split; try done. simpl. rewrite !dom_insert_L. by rewrite Hk.
Qed.

Lemma wf_unschedule jid q : q_wf q -> q_wf (q_unschedule jid q).
Proof.
  intros [Hs Hz Ht Hl Hd Hp Hk]. split; try done. simpl. rewrite !dom_delete_L. by rewrite Hk.
Qed.

Lemma wf_bury id pairs q : q_wf q -> q_wf (q_bury id pairs q).
Proof. intros [Hs Hz Ht Hl Hd Hp Hk]. by split. Qed.

Lemma wf_remember key jid window q : q_wf q -> q_wf (q_remember key jid window q).
Proof. intros [Hs Hz Ht Hl Hd Hp Hk]. by split. Qed.

Lemma wf_tick d q : q_wf q -> q_wf (q_tick d q).
Proof. intros [Hs Hz Ht Hl Hd Hp Hk]. by split. Qed.

Lemma wf_drop_consumer c q : q_idle_consumer q c -> q_wf q -> q_wf (q_drop_consumer c q).
Proof.
  intros Hc [Hs Hz Ht Hl Hd Hp Hk]. split; try done. simpl. intros id p Hid.
  destruct (Hp id p Hid) as (? & ? & ? & ?). split_and!; try done.
  rewrite lookup_delete_ne; [done|]. intros ->. by apply (Hc id p).
Qed.

Lemma wf_redeliver c ids q : NoDup ids -> q_wf q -> q_wf (q_redeliver c ids q).
Proof.
  intros Hnd [Hs Hz Ht Hl Hd Hp Hk]. split; unfold q_ids in *; simpl; try done.
  - intros x Hx Hle. rewrite lookup_claim_all by done.
    case_decide; [apply fmap_is_Some|]; auto.
  - intros x p. rewrite lookup_claim_all by done. case_decide.
    + intros (p' & Hx & ->)%fmap_Some. simpl. destruct (Hp x p' Hx) as (? & ? & ? & ?).
      rewrite lookup_insert_eq. split_and!; eauto. lia.
    + intros Hx. destruct (Hp x p Hx) as (? & ? & ? & ?).
      rewrite lookup_insert_is_Some'. tauto.
Qed.

Lemma elem_of_q_ready n q e :
  e ∈ q_ready n q -> e ∈ q_entries q /\ eid_lt (q_last q) e.1.
Proof.
  unfold q_ready, undelivered. intros He%elem_of_take. destruct He as (i & He & _).
  apply list_elem_of_lookup_2, list_elem_of_filter in He. tauto.
Qed.

Lemma last_of_elem d new x : last_of d new = x -> x = d \/ x ∈ new.*1.
Proof.
  unfold last_of. destruct (last new) as [e|] eqn:E; simpl; intros <-; [|by left].
  right. apply last_Some_elem_of in E. apply list_elem_of_fmap. eauto.
Qed.

(** What a claim moves past is exactly what it delivers. *)
Lemma q_ready_upto n q id :
  q_wf q -> id ∈ q_ids q -> eid_lt (q_last q) id ->
  eid_le id (last_of (q_last q) (q_ready n q)) -> id ∈ (q_ready n q).*1.
Proof.
  intros Hwf Hin Hlt Hle. unfold q_ready in *. rewrite fmap_take.
  destruct (last (take (Z.to_nat n) (undelivered (q_last q) (q_entries q)))) as [e|] eqn:E.
  - apply (StronglySorted_take_le _ _ id e.1).
    + apply StronglySorted_fmap_filter, wf_sorted, Hwf.
    + by rewrite <- fmap_take, fmap_last, E.
    + by apply elem_of_undelivered.
    + unfold last_of in Hle. by rewrite E in Hle.
  - unfold last_of in Hle. rewrite E in Hle. simpl in Hle.
    destruct (eid_lt_irrefl (q_last q)). by eapply eid_lt_le_trans.
Qed.

Lemma q_ready_sorted n q : q_wf q -> StronglySorted eid_lt (q_ready n q).*1.
Proof.
  intros Hwf. unfold q_ready. rewrite fmap_take.
  apply (StronglySorted_app_1_l eid_lt _ (drop (Z.to_nat n) (undelivered (q_last q) (q_entries q)).*1)).
  rewrite take_drop. by apply StronglySorted_fmap_filter, wf_sorted.
Qed.

(** A claim advances the group to the last entry it delivers. *)
Lemma q_ready_le n q e :
  q_wf q -> e ∈ q_ready n q -> eid_le e.1 (last_of (q_last q) (q_ready n q)).
Proof.
  intros Hwf He. unfold last_of. pose proof (q_ready_sorted n q Hwf) as Hs.
  destruct (last (q_ready n q)) as [l|] eqn:E.
  - apply last_Some in E as (l' & El). rewrite El in He, Hs. rewrite fmap_app in Hs.
    apply elem_of_app in He as [He|He].
    + right. apply (StronglySorted_app_1_elem_of eid_lt _ _ e.1 l.1) in Hs; [done | | by left].
      apply list_elem_of_fmap. eauto.
    + apply list_elem_of_singleton in He as ->. by left.
  - apply last_None in E. rewrite E in He. by apply not_elem_of_nil in He.
Qed.

Lemma q_last_mono n q : eid_le (q_last q) (last_of (q_last q) (q_ready n q)).
Proof.
  destruct (last_of_elem (q_last q) (q_ready n q) _ eq_refl) as [->|Hin]; [by left|].
  apply list_elem_of_fmap in Hin as (e & -> & He). right.
  by destruct (elem_of_q_ready _ _ _ He).
Qed.

Lemma wf_deliver c n q : q_wf q -> q_wf (q_deliver c n q).
Proof.
  intros Hwf. pose proof Hwf as [Hs Hz Ht Hl Hd Hp Hk].
  split; unfold q_ids in *; simpl; try done.
  - destruct (last_of_elem (q_last q) (q_ready n q) _ eq_refl) as [->|Hin]; [done|].
    apply list_elem_of_fmap in Hin as (e & -> & He). apply elem_of_q_ready in He as [He _].
    apply Ht, list_elem_of_fmap. eauto.
  - intros id Hin Hle. rewrite lookup_deliver_all. case_decide as Hnew; [eauto|].
    destruct (decide (eid_lt (q_last q) id)) as [Hlt|Hnlt].
    + destruct Hnew. by apply q_ready_upto.
    + apply Hd; [done|]. by apply eid_not_lt.
  - intros id p. rewrite lookup_deliver_all. case_decide as Hnew.
    + intros [= <-]. simpl. rewrite lookup_insert_eq.
      apply list_elem_of_fmap in Hnew as (e & -> & He).
      split_and!; [|by apply q_ready_le | lia | eauto].
      apply list_elem_of_fmap. apply elem_of_q_ready in He as [? _]. eauto.
    + intros Hid. destruct (Hp id p Hid) as (? & ? & ? & ?).
      split_and!; [done | eapply eid_le_trans, q_last_mono; done | done |].
      rewrite lookup_insert_is_Some'. tauto.
Qed.
End preservation.

#[export] Hint Resolve wf_settle wf_renew wf_append wf_schedule wf_unschedule wf_bury
  wf_remember wf_tick wf_drop_consumer wf_redeliver wf_deliver q_wf_empty : dtq.
