(* ===== verification/QueueRep.v ===== *)
(** * How Redis holds a queue

    [represents K v q]: the keyspace [v] holds the abstract queue [q] under the
    keys [K].  [wpq] is the simulation triple: started where the keyspace holds
    [q], the call succeeds, ends where it holds some [q'] in the postcondition,
    and touches no key outside [K].  The lemmas lift each command's law to
    [wpq]; the scripts' theorems are proved from them. *)

From S2P Require Import Prelude GoNum Errors Job GoJson Redis QueueSpec.
From stdpp Require Import strings.

Open Scope Z_scope.

(** The keys of one queue. *)
Record qkeys := QKeys {
  k_stream : string;
  k_group : string;
  k_zset : string;
  k_data : string;
  k_dead : string;
  k_dedupe : string;    (* prefix *)
}.

Definition in_keys (K : qkeys) (k : string) : Prop :=
  k = k_stream K \/ k = k_zset K \/ k = k_data K \/ k = k_dead K \/
  exists key, k = k_dedupe K +:+ key.

(** The keys do not collide. *)
Record keys_ok (K : qkeys) : Prop := {
  ko_zset : k_stream K <> k_zset K;
  ko_data : k_stream K <> k_data K;
  ko_dead : k_stream K <> k_dead K;
  ko_zset_data : k_zset K <> k_data K;
  ko_zset_dead : k_zset K <> k_dead K;
  ko_data_dead : k_data K <> k_dead K;
  ko_dedupe : forall key k, k = k_dedupe K +:+ key ->
    k <> k_stream K /\ k <> k_zset K /\ k <> k_data K /\ k <> k_dead K;
}.

Definition dedupe_value (ie : string * Z) : value := VStr ie.1 (Some ie.2).

Record represents (K : qkeys) (v : rview) (q : qstate) : Prop := {
  rep_stream : exists groups,
    stream_at v (k_stream K) = Some (Stream (q_entries q) (q_top q) groups) /\
    groups !! k_group K = Some (Group (q_last q) (q_pel q) (q_cons q));
  rep_zset : zset_at v (k_zset K) = Some (q_sched q);
  rep_data : hash_at v (k_data K) = Some (q_data q);
  rep_dead : exists top groups, stream_or_new v (k_dead K) = Some (Stream (q_dead q) top groups);
  rep_dedupe : forall key,
    rv_keys v !! (k_dedupe K +:+ key) = dedupe_value <$> q_dedupe q !! key;
  rep_now : rv_now v = q_now q;
}.

Definition frame (K : qkeys) (v v' : rview) : Prop :=
  (forall k, ~ in_keys K k -> rv_keys v' !! k = rv_keys v !! k) /\ rv_now v' = rv_now v.

Lemma frame_refl K v : frame K v v.
Proof. done. Qed.

Lemma frame_trans K v1 v2 v3 : frame K v1 v2 -> frame K v2 v3 -> frame K v1 v3.
Proof. intros [H1 N1] [H2 N2]. split; [|congruence]. intros k Hk. rewrite H2, H1; done. Qed.

#[export] Instance frame_preorder K : PreOrder (frame K).
Proof. split; [intros v; apply frame_refl | intros v1 v2 v3; apply frame_trans]. Qed.

(** ** Writes to one key *)

Lemma lookup_put_key_eq k x v : rv_keys (put_key k x v) !! k = x.
Proof. apply lookup_partial_alter_eq. Qed.

Lemma lookup_put_key_ne k x v k' : k <> k' -> rv_keys (put_key k x v) !! k' = rv_keys v !! k'.
Proof. intros. by apply lookup_partial_alter_ne. Qed.

Lemma frame_put_key K k x v : in_keys K k -> frame K v (put_key k x v).
Proof. intros Hk. split; [|done]. intros k' Hk'. apply lookup_put_key_ne. by intros ->. Qed.

Lemma stream_or_new_at v k st : stream_at v k = Some st -> stream_or_new v k = Some st.
Proof. unfold stream_at, stream_or_new. by repeat case_match. Qed.

Section represents.
Context {K : qkeys} (HK : keys_ok K).
Implicit Types (v : rview) (q : qstate).

Lemma in_stream : in_keys K (k_stream K).
Proof. by left. Qed.
Lemma in_zset : in_keys K (k_zset K).
Proof. right; by left. Qed.
Lemma in_data : in_keys K (k_data K).
Proof. right; right; by left. Qed.
Lemma in_dead : in_keys K (k_dead K).
Proof. right; right; right; by left. Qed.
Lemma in_dedupe key : in_keys K (k_dedupe K +:+ key).
Proof. right; right; right; right; eauto. Qed.

(** Closes a field of [represents] that reads another key than the one written. *)
Ltac other_key :=
  first
    [ done
    | unfold stream_at, stream_or_new, zset_at, hash_at in *;
      rewrite lookup_put_key_ne by (destruct HK; congruence); done
    | intros key; rewrite lookup_put_key_ne
        by (intros E; apply (ko_dedupe _ HK) in E; naive_solver);
      done ].

Lemma rep_put_stream v q es top last pel cons groups :
  represents K v q ->
  represents K
    (put_stream (k_stream K) (Stream es top (<[k_group K := Group last pel cons]> groups)) v)
    (QState es top last pel cons (q_sched q) (q_data q) (q_dead q) (q_dedupe q) (q_now q)).
Proof.
  intros [Hs Hz Hd Hl Hu Hn]. unfold put_stream. split; qsimpl; try other_key.
  exists (<[k_group K := Group last pel cons]> groups).
  unfold stream_at. rewrite lookup_put_key_eq, lookup_insert_eq. done.
Qed.

Lemma rep_put_group v q last pel cons :
  represents K v q ->
  represents K (put_group (k_stream K) (k_group K) (Group last pel cons) v)
    (QState (q_entries q) (q_top q) last pel cons
       (q_sched q) (q_data q) (q_dead q) (q_dedupe q) (q_now q)).
Proof.
  intros Hr. pose proof (rep_stream _ _ _ Hr) as (groups & Hs & Hg).
  unfold put_group. rewrite Hs. by apply rep_put_stream.
Qed.

Lemma rep_put_zset v q z :
  represents K v q ->
  represents K (put_zset (k_zset K) z v)
    (QState (q_entries q) (q_top q) (q_last q) (q_pel q) (q_cons q)
       z (q_data q) (q_dead q) (q_dedupe q) (q_now q)).
Proof.
  intros [Hs Hz Hd Hl Hu Hn]. unfold put_zset. split; qsimpl; try other_key.
  unfold zset_at. rewrite lookup_put_key_eq. case_decide; by subst.
Qed.

Lemma rep_put_data v q h :
  represents K v q ->
  represents K (put_hash (k_data K) h v)
    (QState (q_entries q) (q_top q) (q_last q) (q_pel q) (q_cons q)
       (q_sched q) h (q_dead q) (q_dedupe q) (q_now q)).
Proof.
  intros [Hs Hz Hd Hl Hu Hn]. unfold put_hash. split; qsimpl; try other_key.
  unfold hash_at. rewrite lookup_put_key_eq. case_decide; by subst.
Qed.

Lemma rep_put_dead v q dead top groups :
  represents K v q ->
  represents K (put_stream (k_dead K) (Stream dead top groups) v)
    (QState (q_entries q) (q_top q) (q_last q) (q_pel q) (q_cons q)
       (q_sched q) (q_data q) dead (q_dedupe q) (q_now q)).
Proof.
  intros [Hs Hz Hd Hl Hu Hn]. unfold put_stream. split; qsimpl; try other_key.
  exists top, groups. unfold stream_or_new. by rewrite lookup_put_key_eq.
Qed.

Lemma rep_put_dedupe v q key jid e :
  represents K v q ->
  represents K (put_str (k_dedupe K +:+ key) jid (Some e) v)
    (QState (q_entries q) (q_top q) (q_last q) (q_pel q) (q_cons q)
       (q_sched q) (q_data q) (q_dead q) (<[key := (jid, e)]> (q_dedupe q)) (q_now q)).
Proof.
  intros [Hs Hz Hd Hl Hu Hn]. pose proof (ko_dedupe _ HK key _ eq_refl) as (? & ? & ? & ?).
  unfold put_str. split; qsimpl; try done.
  1-4: unfold stream_at, stream_or_new, zset_at, hash_at in *;
    rewrite lookup_put_key_ne by congruence; done.
  intros key'. destruct (decide (key = key')) as [->|Hne].
  - by rewrite lookup_put_key_eq, lookup_insert_eq.
  - rewrite lookup_put_key_ne, lookup_insert_ne; [done | done |].
    intros E. by apply str_app_inj_l in E.
Qed.
End represents.

#[export] Hint Resolve in_stream in_zset in_data in_dead in_dedupe frame_put_key : dtq.

(** ** The simulation triple *)

Section wpq.
Context {R : Redis} (K : qkeys).

Definition wpq {A} (m : SE rdb error A) (q : qstate) (Q : A -> qstate -> Prop) : Prop :=
  forall s, represents K (view s) q ->
    runs m s (fun s' a => exists q',
      represents K (view s') q' /\ frame K (view s) (view s') /\ Q a q').

Lemma wpq_ret {A} (a : A) q (Q : A -> qstate -> Prop) : Q a q -> wpq (ret a) q Q.
Proof. intros HQ s Hs. apply runs_ret. exists q. split_and!; [done | done | done]. Qed.

Lemma wpq_bind {A B} (m : SE rdb error A) (k : A -> SE rdb error B) q P Q :
  wpq m q P -> (forall a q', P a q' -> wpq (k a) q' Q) -> wpq (bind m k) q Q.
Proof.
  intros Hm Hk s Hs. eapply runs_bind; [exact (Hm s Hs)|].
  intros s' a (q' & Hs' & Hf & HP). eapply runs_mono; [exact (Hk a q' HP s' Hs')|].
  intros s'' b (q'' & Hs'' & Hf' & HQ). exists q''. split_and!; [done | | done].
  by eapply frame_trans.
Qed.

Lemma wpq_ext {A} (m m' : SE rdb error A) q Q :
  (forall s, m s = m' s) -> wpq m q Q -> wpq m' q Q.
Proof. intros He Hm s Hs. unfold runs. rewrite <- He. exact (Hm s Hs). Qed.

Lemma wpq_mono {A} (m : SE rdb error A) q (P Q : A -> qstate -> Prop) :
  wpq m q P -> (forall a q', P a q' -> Q a q') -> wpq m q Q.
Proof.
  intros Hm HPQ s Hs. eapply runs_mono; [exact (Hm s Hs)|].
  intros s' a (q' & ? & ? & ?). eauto 6.
Qed.
End wpq.

(** ** The commands on the keys of a queue *)

Definition q_unpend (id : eid) (q : qstate) : qstate :=
  QState (q_entries q) (q_top q) (q_last q) (delete id (q_pel q)) (q_cons q)
    (q_sched q) (q_data q) (q_dead q) (q_dedupe q) (q_now q).

Definition q_remove (id : eid) (q : qstate) : qstate :=
  QState (without id (q_entries q)) (q_top q) (q_last q) (q_pel q) (q_cons q)
    (q_sched q) (q_data q) (q_dead q) (q_dedupe q) (q_now q).

Definition q_set_data (h : gmap string string) (q : qstate) : qstate :=
  QState (q_entries q) (q_top q) (q_last q) (q_pel q) (q_cons q)
    (q_sched q) h (q_dead q) (q_dedupe q) (q_now q).

Definition q_set_sched (z : gmap string Z) (q : qstate) : qstate :=
  QState (q_entries q) (q_top q) (q_last q) (q_pel q) (q_cons q)
    z (q_data q) (q_dead q) (q_dedupe q) (q_now q).

Lemma frame_put_group K g gr v : frame K v (put_group (k_stream K) g gr v).
Proof.
  unfold put_group, put_stream. case_match; [|done]. apply frame_put_key, in_stream.
Qed.

Lemma rep_group K v q :
  represents K v q ->
  group_at v (k_stream K) (k_group K) = Some (Group (q_last q) (q_pel q) (q_cons q)).
Proof. intros [(gs & Hs & Hg) _ _ _ _ _]. unfold group_at. rewrite Hs. exact Hg. Qed.

#[export] Hint Resolve frame_put_group : dtq.

Lemma pending_of_zero gr c :
  pending_of gr c = 0%nat <-> forall id p, g_pel gr !! id = Some p -> pe_owner p <> c.
Proof.
  unfold pending_of. rewrite map_size_empty_iff, map_empty_filter. split.
  - intros H id p Hp Ho. by apply (H id p Hp).
  - intros H id p Hp Ho. by apply (H id p Hp).
Qed.

Section commands.
Context {R : Redis} {L : RedisLaws R} {K : qkeys} (HK : keys_ok K).
Implicit Types q : qstate.

(** Discharges a command: apply its law, then give the new queue. *)
Ltac cmd law :=
  intros s Hs; eapply runs_mono; [eapply law; eauto using rep_group, rep_zset, rep_data |];
  cbn beta; intros s' a Ha.

Lemma wpq_XPENDING_ONE q id :
  wpq K (XPENDING_ONE (k_stream K) (k_group K) id) q (fun r q' =>
    q' = q /\
    r = match q_pel q !! id with
        | Some p => [(id, pe_owner p, q_now q - pe_time p, pe_count p)]
        | None => []
        end).
Proof.
  cmd XPENDING_ONE_law. destruct Ha as [Hv ->]. exists q. rewrite Hv.
  split_and!; try done. simpl. by rewrite (rep_now _ _ _ Hs).
Qed.

Lemma wpq_XACK q id :
  wpq K (XACK (k_stream K) (k_group K) id) q (fun _ q' => q' = q_unpend id q).
Proof.
  cmd XACK_law. eexists. rewrite Ha. split_and!; [by apply rep_put_group | eauto with dtq | done].
Qed.

Lemma wpq_XDEL q id :
  wpq K (XDEL (k_stream K) id) q (fun _ q' => q' = q_remove id q).
Proof.
  intros s Hs. pose proof (rep_stream _ _ _ Hs) as (gs & Hst & Hg).
  eapply runs_mono; [by eapply XDEL_law|]. cbn beta. intros s' a ->. simpl.
  exists (q_remove id q). split_and!; [|apply frame_put_key, in_stream | done].
  rewrite <- (insert_id gs (k_group K) _ Hg). by apply rep_put_stream.
Qed.

Lemma wpq_XCLAIM q id c :
  is_Some (q_pel q !! id) -> id ∈ q_ids q ->
  wpq K (XCLAIM_JUSTID (k_stream K) (k_group K) c id) q (fun _ q' => q' = q_renew id c q).
Proof.
  intros [p Hp] Hin s Hs. pose proof (rep_stream _ _ _ Hs) as (gs & Hst & Hg).
  eapply runs_mono; [by eapply (XCLAIM_law s _ _ _ _ _ _ p Hst Hg)|]. cbn beta.
  intros s' a ->. exists (q_renew id c q). split_and!; [|eauto with dtq | done].
  unfold q_renew. rewrite (rep_now _ _ _ Hs). simpl.
  replace (alter (fun p => PEntry c (q_now q) (pe_count p)) id (q_pel q))
    with (<[id := PEntry c (q_now q) (pe_count p)]> (q_pel q)); [by apply rep_put_group|].
  apply map_eq. intros j. destruct (decide (id = j)) as [<-|].
  - rewrite lookup_insert_eq, lookup_alter_eq. by rewrite Hp.
  - by rewrite lookup_insert_ne, lookup_alter_ne.
Qed.

Lemma wpq_XADD q fs :
  fs <> [] ->
  wpq K (XADD (k_stream K) fs) q (fun id q' => eid_lt (q_top q) id /\ q' = q_append id fs q).
Proof.
  intros Hfs s Hs. pose proof (rep_stream _ _ _ Hs) as (gs & Hst & Hg).
  eapply runs_mono; [eapply XADD_law; [done | by apply stream_or_new_at]|]. cbn beta.
  intros s' id [Hlt ->]. simpl in *. exists (q_append id fs q).
  split_and!; [|apply frame_put_key, in_stream | done | done].
  rewrite <- (insert_id gs (k_group K) _ Hg). by apply rep_put_stream.
Qed.

Lemma wpq_XADD_dead q pairs :
  pairs <> [] ->
  wpq K (XADD (k_dead K) pairs) q (fun id q' => q' = q_bury id pairs q).
Proof.
  intros Hfs s Hs. pose proof (rep_dead _ _ _ Hs) as (top & gs & Hst).
  eapply runs_mono; [by eapply XADD_law|]. cbn beta.
  intros s' id [_ ->]. simpl in *. exists (q_bury id pairs q).
  split_and!; [by apply rep_put_dead | apply frame_put_key, in_dead | done].
Qed.

Lemma wpq_XREADGROUP q c n :
  0 < n ->
  wpq K (XREADGROUP (k_stream K) (k_group K) c n) q (fun r q' =>
    q' = q_deliver c n q /\ default [] r = q_ready n q).
Proof.
  intros Hn s Hs. pose proof (rep_stream _ _ _ Hs) as (gs & Hst & Hg).
  eapply runs_mono; [by eapply (XREADGROUP_law s _ _ c n _ _ Hn Hst Hg)|]. cbn beta.
  intros s' r [-> ->]. exists (q_deliver c n q). split_and!; [|eauto with dtq | done |].
  - rewrite (rep_now _ _ _ Hs). by apply rep_put_group.
  - unfold q_ready. simpl. by case_match.
Qed.

Lemma wpq_XAUTOCLAIM q c minIdle start count l :
  0 < count -> q_wf q -> pel_scan (q_pel q) start l ->
  wpq K (XAUTOCLAIM (k_stream K) (k_group K) c minIdle start count) q (fun r q' => exists n,
    let claimed := filter (expired (q_now q) minIdle (q_pel q)) (take n l) in
    Z.of_nat (length claimed) <= count /\
    ((n < length l)%nat -> Z.of_nat (length claimed) = count \/ Z.of_nat n = 10 * count) /\
    r.1 = (match drop n l with [] => (0%N, 0%N) | id :: _ => id end) /\
    r.2 = omap (fun id => pair id <$> entry_fields (q_entries q) id) claimed /\
    q' = q_redeliver c claimed q).
Proof.
  intros Hc Hwf Hl s Hs. pose proof (rep_stream _ _ _ Hs) as (gs & Hst & Hg).
  eapply runs_mono; [eapply (XAUTOCLAIM_law s _ _ c minIdle start count _ _ l Hc Hst Hg); [|done]|].
  { intros id [p Hp]. by destruct (wf_pending _ Hwf id p Hp). }
  cbn beta zeta. intros s' r (n & H1 & H2 & H3 & H4 & ->). simpl in *.
  rewrite (rep_now _ _ _ Hs) in *.
  eexists (q_redeliver c _ q). split_and!; [by apply rep_put_group | eauto with dtq |].
  exists n. eauto 6.
Qed.

Lemma wpq_HGET q jid :
  wpq K (HGET (k_data K) jid) q (fun r q' => q' = q /\ r = q_data q !! jid).
Proof. cmd HGET_law. destruct Ha as [-> ->]. exists q. done. Qed.

Lemma wpq_HSET q jid json :
  wpq K (HSET (k_data K) jid json) q (fun _ q' => q' = q_set_data (<[jid := json]> (q_data q)) q).
Proof.
  cmd HSET_law. eexists. rewrite Ha.
  split_and!; [by apply rep_put_data | apply frame_put_key, in_data | done].
Qed.

Lemma wpq_HDEL q jid :
  wpq K (HDEL (k_data K) jid) q (fun _ q' => q' = q_set_data (delete jid (q_data q)) q).
Proof.
  cmd HDEL_law. eexists. rewrite Ha.
  split_and!; [by apply rep_put_data | apply frame_put_key, in_data | done].
Qed.

Lemma wpq_ZADD q sc jid :
  wpq K (ZADD (k_zset K) sc jid) q (fun _ q' => q' = q_set_sched (<[jid := sc]> (q_sched q)) q).
Proof.
  cmd ZADD_law. eexists. rewrite Ha.
  split_and!; [by apply rep_put_zset | apply frame_put_key, in_zset | done].
Qed.

Lemma wpq_ZREM q jid :
  wpq K (ZREM (k_zset K) jid) q (fun _ q' => q' = q_set_sched (delete jid (q_sched q)) q).
Proof.
  cmd ZREM_law. eexists. rewrite Ha.
  split_and!; [by apply rep_put_zset | apply frame_put_key, in_zset | done].
Qed.

Lemma wpq_ZRANGEBYSCORE q mx n :
  0 <= n ->
  wpq K (ZRANGEBYSCORE (k_zset K) mx n) q (fun r q' =>
    q' = q /\ exists l, due_list (q_sched q) mx l /\ r = take (Z.to_nat n) l).
Proof.
  intros Hn. cmd ZRANGEBYSCORE_law. destruct Ha as [-> ?]. exists q. done.
Qed.

Lemma wpq_GET q key :
  wpq K (GET (k_dedupe K +:+ key)) q (fun r q' => q' = q /\ r = fst <$> q_dedupe q !! key).
Proof.
  intros s Hs. eapply runs_mono.
  { apply (GET_law s _ (fst <$> q_dedupe q !! key)). unfold str_at.
    rewrite (rep_dedupe _ _ _ Hs). by destruct (q_dedupe q !! key). }
  cbn beta. intros s' r [-> ->]. exists q. done.
Qed.

Lemma wpq_SET_PX q key jid ttl :
  0 < ttl ->
  wpq K (SET_PX (k_dedupe K +:+ key) jid ttl) q (fun _ q' => q' = q_remember key jid ttl q).
Proof.
  intros Ht s Hs. eapply runs_mono; [by apply SET_PX_law|]. cbn beta. intros s' r ->.
  exists (q_remember key jid ttl q).
  split_and!; [|apply frame_put_key, in_dedupe | done].
  rewrite (rep_now _ _ _ Hs). by apply rep_put_dedupe.
Qed.

Lemma wpq_XPENDING_CONSUMER q c :
  wpq K (XPENDING_CONSUMER (k_stream K) (k_group K) c) q (fun r q' =>
    q' = q /\ (r = [] <-> q_idle_consumer q c)).
Proof.
  cmd XPENDING_CONSUMER_law. destruct Ha as [-> Hlen]. exists q. split_and!; try done.
  rewrite <- length_zero_iff_nil, Hlen. unfold q_idle_consumer.
  rewrite <- (pending_of_zero (Group (q_last q) (q_pel q) (q_cons q)) c). lia.
Qed.

Lemma wpq_XINFO_CONSUMERS q :
  wpq K (XINFO_CONSUMERS (k_stream K) (k_group K)) q (fun r q' =>
    q' = q /\
    r ≡ₚ cinfo_of (Group (q_last q) (q_pel q) (q_cons q)) (q_now q) <$> map_to_list (q_cons q)).
Proof.
  cmd XINFO_CONSUMERS_law. destruct Ha as [-> Hp]. exists q. split_and!; try done.
  by rewrite Hp, (rep_now _ _ _ Hs).
Qed.

(** Dropping a consumer that holds nothing loses nothing. *)
Lemma wpq_XGROUP_DELCONSUMER q c :
  q_idle_consumer q c ->
  wpq K (XGROUP_DELCONSUMER (k_stream K) (k_group K) c) q (fun _ q' => q' = q_drop_consumer c q).
Proof.
  intros Hc. cmd XGROUP_DELCONSUMER_law. exists (q_drop_consumer c q). rewrite Ha.
  split_and!; [|eauto with dtq | done]. simpl.
  rewrite map_filter_id; [by apply rep_put_group|].
  intros id p Hp. simpl. unfold owned_by. by apply (Hc id p).
Qed.
End commands.

(** ** Time *)

Section time.
Context {R : Redis} {L : RedisLaws R}.
Implicit Types q : qstate.

Lemma at_time_same now v k :
  (forall s e, rv_keys v !! k <> Some (VStr s e)) -> rv_keys (at_time now v) !! k = rv_keys v !! k.
Proof.
  intros Hk. simpl. destruct (rv_keys v !! k) as [x|] eqn:E.
  - apply map_lookup_filter_Some. split; [done|]. destruct x; try done. by destruct (Hk s expire).
  - apply map_lookup_filter_None. by left.
Qed.

Lemma rep_tick K s q d :
  0 <= d -> represents K (view s) q -> represents K (view (tick d s)) (q_tick d q).
Proof.
  intros Hd [Hs Hz Hh Hl Hu Hn]. rewrite tick_law by done. rewrite Hn.
  split; unfold stream_at, zset_at, hash_at, stream_or_new in *.
  1-4: rewrite at_time_same; [assumption|]; intros s' e E; rewrite E in *; naive_solver.
  - intros key. simpl. rewrite map_lookup_filter, Hu, map_lookup_filter.
    destruct (q_dedupe q !! key) as [[jid e]|]; [|done]. simpl.
    destruct (decide (q_now q + d < e)); [by rewrite !option_guard_True | by rewrite !option_guard_False].
  - done.
Qed.
End time.
