(* ===== verification/ScriptsOk.v ===== *)
(** * The scripts implement the abstract queue

    For every script of [Scripts]: run on a keyspace that holds the queue [q],
    it succeeds and leaves the keyspace holding the queue the abstract
    operation gives, with the answer that goes with it. *)

From S2P Require Import Prelude GoNum Errors Job GoJson Redis Scripts QueueSpec QueueRep.
From stdpp Require Import strings sorting.

Open Scope Z_scope.
Open Scope se_scope.

(** Steps through a [bind], naming the result of the command and the queue
    after it. *)
Tactic Notation "wpq_step" uconstr(lem) :=
  eapply wpq_bind; [eapply lem; try done | cbn beta].

Section spec.
Context {R : Redis}.

(** What is stored for a scheduled job can be decoded into stream fields. *)
Definition decodes (json : string) (fs : fields) : Prop :=
  cjson_decode json = Ok fs /\ fs <> [].

Definition data_ok (q : qstate) : Prop :=
  forall jid json, q_data q !! jid = Some json -> exists fs, decodes json fs.

(** Promotion moves the scheduled jobs [ids], in order, to the stream. *)
Inductive promoted : list string -> qstate -> qstate -> Prop :=
  | promoted_nil q : promoted [] q q
  | promoted_job jid ids q q' id fs json :
      q_data q !! jid = Some json -> decodes json fs -> eid_lt (q_top q) id ->
      promoted ids (q_unschedule jid (q_append id fs q)) q' ->
      promoted (jid :: ids) q q'
  | promoted_gone jid ids q q' :
      q_data q !! jid = None -> promoted ids (q_unschedule jid q) q' ->
      promoted (jid :: ids) q q'.

(** A claimed entry with the delivery count it gets. *)
Definition q_taken (q : qstate) (ids : list eid) : list (eid * fields * Z) :=
  omap (fun id => fs ← entry_fields (q_entries q) id;
                  p ← q_pel q !! id; Some (id, fs, pe_count p + 1)) ids.

Definition next_cursor (n : nat) (l : list eid) : eid :=
  match drop n l with [] => zero_id | id :: _ => id end.
End spec.

Section scripts_ok.
Context {R : Redis} {L : RedisLaws R} {K : qkeys} (HK : keys_ok K).
Implicit Types q : qstate.

Lemma owns_ok q id owner token :
  wpq K (owns (k_stream K) (k_group K) id owner token) q (fun b q' =>
    q' = q /\ b = q_owns q id owner token).
Proof.
  unfold owns. wpq_step wpq_XPENDING_ONE. intros r q' [-> ->]. unfold q_owns.
  destruct (q_pel q !! id); by apply wpq_ret.
Qed.

Lemma settle_ok q id :
  wpq K (settle (k_stream K) (k_group K) id) q (fun _ q' => q' = q_settle id q).
Proof.
  unfold settle. wpq_step wpq_XACK. intros _ q' ->.
  eapply wpq_mono; [by apply wpq_XDEL|]. by intros _ ? ->.
Qed.

Lemma ackScript_ok q id owner token :
  wpq K (ackScript (k_stream K) (k_group K) id owner token) q (fun r q' =>
    (r, q') = if q_owns q id owner token then (1, q_settle id q) else (0, q)).
Proof.
  unfold ackScript. wpq_step owns_ok. intros b q' [-> ->].
  destruct (q_owns q id owner token); simpl; [|by apply wpq_ret].
  wpq_step settle_ok. intros _ q' ->. by apply wpq_ret.
Qed.

Lemma q_owns_pending q id owner token :
  q_owns q id owner token = true ->
  exists p, q_pel q !! id = Some p /\ pe_owner p = owner /\ pe_count p = token.
Proof.
  unfold q_owns. case_match; [|done].
  intros [H1%bool_decide_eq_true H2%Z.eqb_eq]%andb_true_iff. eauto.
Qed.

Lemma extendScript_ok q id owner token :
  q_wf q ->
  wpq K (extendScript (k_stream K) (k_group K) id owner token) q (fun r q' =>
    (r, q') = if q_owns q id owner token then (1, q_renew id owner q) else (0, q)).
Proof.
  intros Hwf. unfold extendScript. wpq_step owns_ok. intros b q' [-> ->].
  destruct (q_owns q id owner token) eqn:E; simpl; [|by apply wpq_ret].
  apply q_owns_pending in E as (p & Hp & _).
  eapply wpq_bind; [eapply wpq_XCLAIM; [done | eauto | by apply (wf_pending _ Hwf _ _ Hp)]|].
  cbn beta. intros _ q' ->. by apply wpq_ret.
Qed.

Lemma retryScript_ok q id owner token runAt jid json :
  wpq K (retryScript (k_stream K) (k_zset K) (k_data K) (k_group K) id owner token runAt jid json) q
    (fun r q' => (r, q') =
       if q_owns q id owner token then (1, q_settle id (q_schedule jid runAt json q)) else (0, q)).
Proof.
  unfold retryScript. wpq_step owns_ok. intros b q' [-> ->].
  destruct (q_owns q id owner token); simpl; [|by apply wpq_ret].
  wpq_step wpq_HSET. intros _ q' ->. wpq_step (wpq_ZADD HK). intros _ q' ->.
  wpq_step settle_ok. intros _ q' ->. by apply wpq_ret.
Qed.

Lemma deadLetterScript_ok q id owner token pairs :
  pairs <> [] ->
  wpq K (deadLetterScript (k_stream K) (k_dead K) (k_group K) id owner token pairs) q
    (fun r q' => exists did, (r, q') =
       if q_owns q id owner token then (1, q_settle id (q_bury did pairs q)) else (0, q)).
Proof.
  intros Hp. unfold deadLetterScript. wpq_step owns_ok. intros b q' [-> ->].
  destruct (q_owns q id owner token); simpl; [|by apply wpq_ret; exists zero_id].
  wpq_step wpq_XADD_dead. intros did q' ->.
  wpq_step settle_ok. intros _ q' ->. apply wpq_ret. by exists did.
Qed.

Lemma xadd_json_ok q json fs :
  decodes json fs ->
  wpq K (xadd_json (k_stream K) json) q (fun _ q' =>
    exists id, eid_lt (q_top q) id /\ q' = q_append id fs q).
Proof.
  intros [Hj Hfs]. unfold xadd_json, lift_result. rewrite Hj.
  eapply wpq_bind; [apply (wpq_ret K fs q (fun a q' => a = fs /\ q' = q)); done|].
  cbn beta. intros _ _ [-> ->]. wpq_step wpq_XADD. intros id q' [Hlt ->].
  apply wpq_ret. eauto.
Qed.

Lemma q_unschedule_steps q jid :
  q_set_sched (delete jid (q_sched (q_set_data (delete jid (q_data q)) q)))
    (q_set_data (delete jid (q_data q)) q) = q_unschedule jid q.
Proof. done. Qed.

Lemma promote_all_ok ids q :
  data_ok q ->
  wpq K (promote_all (k_zset K) (k_data K) (k_stream K) ids) q (fun _ q' => promoted ids q q').
Proof.
  revert q. induction ids as [|jid ids IH]; intros q Hd; simpl.
  { apply wpq_ret. constructor. }
  eapply (wpq_bind K _ _ q (fun _ q1 =>
    match q_data q !! jid with
    | Some json => exists id fs, decodes json fs /\ eid_lt (q_top q) id /\
                     q1 = q_unschedule jid (q_append id fs q)
    | None => q1 = q_unschedule jid q
    end)).
  - unfold promote_one. wpq_step wpq_HGET. intros r q' [-> ->].
    destruct (q_data q !! jid) as [json|] eqn:E.
    + destruct (Hd jid json E) as [fs Hfs].
      eapply wpq_bind; [by eapply xadd_json_ok|]. cbn beta. intros _ q' (id & Hlt & ->).
      wpq_step wpq_HDEL. intros _ q' ->.
      eapply wpq_mono; [by apply wpq_ZREM|]. intros _ q' ->. eauto.
    + eapply wpq_bind; [apply (wpq_ret K tt q (fun _ q' => q' = q)); done|]. cbn beta.
      intros _ q' ->. wpq_step wpq_HDEL. intros _ q' ->.
      eapply wpq_mono; [by apply wpq_ZREM|]. by intros _ q' ->.
  - intros _ q1 H1. destruct (q_data q !! jid) as [json|] eqn:E.
    + destruct H1 as (id & fs & Hfs & Hlt & ->).
      eapply wpq_mono; [apply IH|].
      * intros j js Hj. simpl in Hj. apply lookup_delete_Some in Hj as [_ Hj]. eauto.
      * cbn beta. intros _ q' Hp. by eapply promoted_job.
    + subst q1. eapply wpq_mono; [apply IH|].
      * intros j js Hj. simpl in Hj. apply lookup_delete_Some in Hj as [_ Hj]. eauto.
      * cbn beta. intros _ q' Hp. by eapply promoted_gone.
Qed.

Lemma promote_ok q now limit :
  0 <= limit -> data_ok q ->
  wpq K (promote (k_zset K) (k_data K) (k_stream K) now limit) q (fun n q' =>
    exists l, due_list (q_sched q) now l /\
      n = Z.of_nat (length (take (Z.to_nat limit) l)) /\
      promoted (take (Z.to_nat limit) l) q q').
Proof.
  intros Hl Hd. unfold promote. wpq_step wpq_ZRANGEBYSCORE.
  intros ids q' [-> (l & Hdue & ->)].
  eapply wpq_bind; [by apply promote_all_ok|]. cbn beta. intros _ q' Hp.
  apply wpq_ret. eauto 6.
Qed.

Lemma claimScript_ok q c count now :
  0 < count -> data_ok q ->
  wpq K (claimScript (k_stream K) (k_zset K) (k_data K) (k_group K) c count now) q (fun es q' =>
    exists l q1, due_list (q_sched q) now l /\ promoted (take 100 l) q q1 /\
      es = q_ready count q1 /\ q' = q_deliver c count q1).
Proof.
  intros Hc Hd. unfold claimScript.
  eapply wpq_bind; [by apply promote_ok|]. cbn beta. intros n q1 (l & Hdue & _ & Hp).
  wpq_step wpq_XREADGROUP. intros r q' [-> Hr].
  destruct r as [es|]; simpl in Hr; apply wpq_ret; subst; exists l, q1; done.
Qed.

(** *** Recovery *)

Lemma with_counts_ok q es :
  (forall id fs, (id, fs) ∈ es -> is_Some (q_pel q !! id)) ->
  wpq K (with_counts (k_stream K) (k_group K) es) q (fun r q' =>
    q' = q /\ r = omap (fun e => p ← q_pel q !! e.1; Some (e.1, e.2, pe_count p)) es).
Proof.
  induction es as [|[id fs] es IH]; intros Hp; cbn [with_counts]; [by apply wpq_ret|].
  wpq_step wpq_XPENDING_ONE. intros r q' [-> ->].
  destruct (Hp id fs) as [p Hid]; [by left|]. rewrite Hid.
  eapply wpq_bind; [apply IH; intros i f Hi; apply (Hp i f); by right|]. cbn beta.
  intros r q' [-> ->]. apply wpq_ret. split; [done|]. cbn. by rewrite Hid.
Qed.

Lemma q_redeliver_app c ids1 ids2 q :
  q_redeliver c ids2 (q_redeliver c ids1 q) = q_redeliver c (ids1 ++ ids2) q.
Proof. unfold q_redeliver. simpl. by rewrite foldl_app, insert_insert_eq. Qed.

(** Claiming does not change which entries are pending. *)
Lemma pel_scan_redeliver c ids q start l :
  NoDup ids -> pel_scan (q_pel q) start l -> pel_scan (q_pel (q_redeliver c ids q)) start l.
Proof.
  intros Hnd [Hs Hl]. split; [done|]. intros id. rewrite Hl. simpl.
  rewrite lookup_claim_all by done. case_decide; [by rewrite fmap_is_Some | done].
Qed.

Lemma pel_scan_drop pel start l n id l' :
  pel_scan pel start l -> drop n l = id :: l' -> pel_scan pel id (id :: l').
Proof.
  intros [Hs Hl] Hd. pose proof (take_drop n l) as Htd. rewrite Hd in Htd.
  assert (StronglySorted eid_lt (id :: l')) as Hs'.
  { rewrite <- Htd in Hs. by apply StronglySorted_app_1_r in Hs. }
  split; [done|]. intros x. split.
  - intros Hx. split.
    + apply (Hl x). rewrite <- Htd. apply elem_of_app. by right.
    + apply elem_of_cons in Hx as [->|Hx]; [by left|]. right.
      inversion Hs' as [|? ? _ Ha]. rewrite Forall_forall in Ha. auto.
  - intros [Hp Hle]. assert (x ∈ l) as Hx.
    { apply Hl. split; [done|]. eapply eid_le_trans; [|exact Hle].
      apply (Hl id). rewrite <- Htd. apply elem_of_app. right. by left. }
    rewrite <- Htd in Hx, Hs. apply elem_of_app in Hx as [Hx|Hx]; [exfalso|done].
    apply (StronglySorted_app_1_elem_of eid_lt _ _ x id) in Hs; [|done|by left].
    destruct (eid_lt_irrefl x). by eapply eid_lt_le_trans.
Qed.

Lemma pel_scan_NoDup pel start l : pel_scan pel start l -> NoDup l.
Proof.
  intros [Hs _]. induction Hs as [|a l _ IH Ha]; constructor; [|done].
  intros Hin. rewrite Forall_forall in Ha. by apply (eid_lt_irrefl a), Ha.
Qed.

Lemma NoDup_claimed pel start l now m n :
  pel_scan pel start l -> NoDup (filter (expired now m pel) (take n l)).
Proof.
  intros Hl%pel_scan_NoDup. apply NoDup_filter.
  rewrite <- (take_drop n l) in Hl. by apply NoDup_app in Hl as (? & _ & _).
Qed.

(** The entries [XAUTOCLAIM] returns, with the counts read after it. *)
Lemma counts_after_claim c ids ids' q :
  NoDup ids -> (forall id, id ∈ ids' -> id ∈ ids) ->
  omap (fun e => p ← q_pel (q_redeliver c ids q) !! e.1; Some (e.1, e.2, pe_count p))
    (omap (fun id => pair id <$> entry_fields (q_entries q) id) ids') = q_taken q ids'.
Proof.
  intros Hnd. unfold q_taken, q_redeliver. cbn [q_pel].
  induction ids' as [|id ids' IH]; intros Hsub; [done|].
  assert (id ∈ ids) as Hin by (apply Hsub; by left).
  specialize (IH ltac:(intros; apply Hsub; by right)).
  cbn [omap list_omap]. destruct (entry_fields (q_entries q) id) as [fs|]; cbn; [|exact IH].
  rewrite lookup_claim_all, decide_True by done.
  destruct (q_pel q !! id); cbn; [f_equal|]; exact IH.
Qed.

Lemma taken_after_claim c ids ids' q :
  NoDup ids -> (forall id, id ∈ ids' -> id ∉ ids) ->
  q_taken (q_redeliver c ids q) ids' = q_taken q ids'.
Proof.
  intros Hnd. unfold q_taken, q_redeliver. cbn [q_pel q_entries].
  induction ids' as [|id ids' IH]; intros Hsub; [done|].
  assert (id ∉ ids) as Hin by (apply Hsub; by left).
  specialize (IH ltac:(intros; apply Hsub; by right)).
  cbn [omap list_omap]. rewrite IH, lookup_claim_all, decide_False by done. done.
Qed.

Lemma filter_expired_redeliver c ids q now m (l : list eid) :
  NoDup ids -> (forall id, id ∈ l -> id ∉ ids) ->
  filter (expired now m (q_pel (q_redeliver c ids q))) l = filter (expired now m (q_pel q)) l.
Proof.
  intros Hnd Hl. apply filter_ext_elem. intros id Hid.
  unfold expired, idle_of, q_redeliver. cbn [q_pel].
  rewrite lookup_claim_all, decide_False by auto. done.
Qed.

Lemma entry_fields_elem (es : list (eid * fields)) id :
  id ∈ es.*1 -> exists fs, entry_fields es id = Some fs /\ (id, fs) ∈ es.
Proof.
  induction es as [|[i f] es IH]; cbn; [by intros ?%not_elem_of_nil|].
  intros [->|Hin]%elem_of_cons.
  - exists f. rewrite decide_True by done. split; [done | by left].
  - case_decide as Hi; [exists f; subst; split; [done | by left]|].
    destruct (IH Hin) as (fs & ? & ?). exists fs. split; [done | by right].
Qed.

Lemma length_q_taken q ids :
  q_wf q -> (forall id, id ∈ ids -> is_Some (q_pel q !! id)) ->
  length (q_taken q ids) = length ids.
Proof.
  intros Hwf. unfold q_taken. induction ids as [|id ids IH]; intros Hp; [done|].
  destruct (Hp id) as [p Hid]; [by left|].
  destruct (entry_fields_elem (q_entries q) id) as (fs & Hfs & _);
    [by apply (wf_pending _ Hwf id p)|].
  cbn [omap list_omap]. rewrite Hfs, Hid. cbn. f_equal. apply IH. intros. apply Hp. by right.
Qed.

Lemma elem_of_claimed pel start l now m n id :
  pel_scan pel start l -> id ∈ filter (expired now m pel) (take n l) -> is_Some (pel !! id).
Proof.
  intros [_ Hl] [_ (i & Hi & _)%elem_of_take]%list_elem_of_filter.
  apply Hl. by eapply list_elem_of_lookup_2.
Qed.

(** One pass of XAUTOCLAIM and the reads of the new counts. *)
Lemma recover_pass_ok q c minIdle count cursor l :
  0 < count -> q_wf q -> pel_scan (q_pel q) cursor l ->
  wpq K (let! res := XAUTOCLAIM (k_stream K) (k_group K) c minIdle cursor count in
         let! got := with_counts (k_stream K) (k_group K) res.2 in ret (res.1, got)) q
    (fun r q' => exists n,
      let claimed := filter (expired (q_now q) minIdle (q_pel q)) (take n l) in
      Z.of_nat (length claimed) <= count /\
      ((n < length l)%nat -> Z.of_nat (length claimed) = count \/ Z.of_nat n = 10 * count) /\
      r = (next_cursor n l, q_taken q claimed) /\ q' = q_redeliver c claimed q).
Proof.
  intros Hc Hwf Hl. wpq_step (wpq_XAUTOCLAIM). intros [cur es] q' (n & H1 & H2 & H3 & H4 & ->).
  simpl in H3, H4. subst cur es. cbn [fst snd].
  pose proof (NoDup_claimed _ _ _ (q_now q) minIdle n Hl) as Hnd.
  eapply wpq_bind; [apply with_counts_ok|].
  - intros id fs (id' & Hin & Hf)%list_elem_of_omap.
    apply fmap_Some in Hf as (fs' & _ & [= <- <-]).
    cbn [q_redeliver q_pel]. rewrite lookup_claim_all, decide_True by done.
    apply fmap_is_Some. by eapply elem_of_claimed.
  - cbn beta. intros got q' [-> ->]. apply wpq_ret. exists n.
    cbn zeta. rewrite counts_after_claim by done. done.
Qed.

(** Where a scan of the pending list stops, relative to the fuel left. *)
Definition scan_done (fuel : nat) (want got : Z) (n : nat) (l : list eid) : Prop :=
  (n < length l)%nat -> got = want \/ (10 * fuel <= n)%nat.

Lemma next_cursor_zero q start l n :
  q_wf q -> pel_scan (q_pel q) start l -> next_cursor n l = zero_id -> (length l <= n)%nat.
Proof.
  intros Hwf [_ Hl]. unfold next_cursor. destruct (drop n l) as [|id l'] eqn:E.
  - intros _. apply (f_equal length) in E. rewrite length_drop in E. simpl in E. lia.
  - intros ->. assert (zero_id ∈ l) as Hin.
    { rewrite <- (take_drop n l), E. apply elem_of_app. right. by left. }
    apply Hl in Hin as [[p Hp] _]. apply (wf_pending _ Hwf) in Hp as [Hp _].
    by apply (wf_pos _ Hwf), eid_lt_irrefl in Hp.
Qed.

Lemma bind_assoc {S E A B C} (m : SE S E A) (f : A -> SE S E B) (g : B -> SE S E C) s :
  bind (bind m f) g s = bind m (fun a => bind (f a) g) s.
Proof. unfold bind. by destruct (m s) as [s' [a|e]]. Qed.

Lemma recover_loop_unfold fuel stream group c minIdle want cursor out s :
  recover_loop (S fuel) stream group c minIdle want cursor out s =
  bind (let! res := XAUTOCLAIM stream group c minIdle cursor (want - Z.of_nat (length out)) in
        let! got := with_counts stream group res.2 in ret (res.1, got))
    (fun r => if (want <=? Z.of_nat (length (out ++ r.2))) || bool_decide (r.1 = zero_id)
              then ret (r.1, out ++ r.2)
              else recover_loop fuel stream group c minIdle want r.1 (out ++ r.2)) s.
Proof.
  cbn [recover_loop]. rewrite bind_assoc. unfold bind.
  destruct (XAUTOCLAIM stream group c minIdle cursor (want - Z.of_nat (length out)) s)
    as [s' [res|e]]; [|done].
  by destruct (with_counts stream group res.2 s') as [s'' [got|e]].
Qed.

Lemma claimed_split q c minIdle l n1 n2 start :
  pel_scan (q_pel q) start l ->
  let P := expired (q_now q) minIdle in
  let c1 := filter (P (q_pel q)) (take n1 l) in
  let q1 := q_redeliver c c1 q in
  let c2 := filter (P (q_pel q1)) (take n2 (drop n1 l)) in
  filter (P (q_pel q)) (take (n1 + n2) l) = c1 ++ c2 /\
  q_taken q1 c2 = q_taken q c2 /\ q_redeliver c c2 q1 = q_redeliver c (c1 ++ c2) q.
Proof.
  intros Hl P c1 q1 c2. pose proof (pel_scan_NoDup _ _ _ Hl) as Hnd.
  assert (NoDup c1) as Hnd1 by (by eapply NoDup_claimed).
  assert (forall id, id ∈ take n2 (drop n1 l) -> id ∉ c1) as Hdisj.
  { intros id Hid Hc1. unfold c1 in Hc1. apply list_elem_of_filter in Hc1 as [_ Hc1].
    rewrite <- (take_drop n1 l) in Hnd. apply NoDup_app in Hnd as (_ & Hx & _).
    apply (Hx id Hc1). apply elem_of_take in Hid as (i & Hi & _). by eapply list_elem_of_lookup_2. }
  unfold c2, q1. split_and!.
  - rewrite <- take_take_drop, filter_app. f_equal. symmetry. by apply filter_expired_redeliver.
  - apply taken_after_claim; [done|]. intros id [_ Hid]%list_elem_of_filter. auto.
  - apply q_redeliver_app.
Qed.

Lemma q_taken_app q a b : q_taken q (a ++ b) = q_taken q a ++ q_taken q b.
Proof. apply omap_app. Qed.

(** The outcome of scanning the pending entries [l] from the cursor on: some
    prefix was examined, its expired entries now belong to [c], and the scan
    stopped short of the end only with all it wanted or after its quota. *)
Definition recover_post (fuel : nat) q (c : string) (minIdle want : Z)
    (out : list (eid * fields * Z)) (l : list eid)
    (r : eid * list (eid * fields * Z)) (q' : qstate) : Prop :=
  exists n, let claimed := filter (expired (q_now q) minIdle (q_pel q)) (take n l) in
    r = (next_cursor n l, out ++ q_taken q claimed) /\ q' = q_redeliver c claimed q /\
    Z.of_nat (length out + length claimed) <= want /\
    scan_done fuel want (Z.of_nat (length out + length claimed)) n l.

Lemma recover_loop_ok fuel : forall q c minIdle want cursor out l,
  q_wf q -> pel_scan (q_pel q) cursor l -> Z.of_nat (length out) < want ->
  (fuel = 0%nat -> cursor = next_cursor 0 l /\ q_cons q !! c = Some (q_now q)) ->
  wpq K (recover_loop fuel (k_stream K) (k_group K) c minIdle want cursor out) q
    (recover_post fuel q c minIdle want out l).
Proof.
  induction fuel as [|fuel IH]; intros q c minIdle want cursor out l Hwf Hl Hout H0.
  { destruct (H0 eq_refl) as [-> Hc]. apply wpq_ret. exists 0%nat. simpl.
    rewrite app_nil_r. split_and!; [done | | simpl; lia | intros ?; lia].
    unfold q_redeliver. simpl. rewrite insert_id by done. by destruct q. }
  eapply wpq_ext; [intros; symmetry; apply recover_loop_unfold|].
  eapply wpq_bind; [apply (recover_pass_ok q c minIdle _ cursor l); [lia | done | done]|].
  cbn beta. intros r q1 (n1 & H1 & H2 & -> & ->). cbn [fst snd].
  set (c1 := filter (expired (q_now q) minIdle (q_pel q)) (take n1 l)) in *.
  assert (length (q_taken q c1) = length c1) as Hlen.
  { apply length_q_taken; [done|]. intros id Hid. by eapply elem_of_claimed. }
  rewrite length_app, Hlen.
  destruct (Z.leb_spec want (Z.of_nat (length out + length c1))) as [Hw|Hw]; simpl.
  { apply wpq_ret. exists n1. cbn zeta. fold c1. split_and!; [done | done | lia | intros _; left; lia]. }
  case_bool_decide as Hz.
  { apply (next_cursor_zero q cursor l n1 Hwf Hl) in Hz.
    apply wpq_ret. exists n1. cbn zeta. fold c1. split_and!; [done | done | lia | intros ?; lia]. }
  destruct (drop n1 l) as [|id l'] eqn:Ed; [by unfold next_cursor in Hz; rewrite Ed in Hz|].
  assert (NoDup c1) as Hnd by (by eapply NoDup_claimed).
  assert (next_cursor n1 l = id) as -> by (unfold next_cursor; by rewrite Ed).
  eapply wpq_mono; [apply (IH (q_redeliver c c1 q) c minIdle want id _ (id :: l'))|].
  - by apply wf_redeliver.
  - apply pel_scan_redeliver; [done|]. by eapply pel_scan_drop.
  - rewrite length_app, Hlen. lia.
  - intros _. split; [done|]. cbn. by rewrite lookup_insert_eq.
  - cbn beta. intros r q' (n2 & -> & -> & H3 & H4). exists (n1 + n2)%nat.
    rewrite <- Ed in *.
    destruct (claimed_split q c minIdle l n1 n2 cursor Hl) as (E1 & E2 & E3).
    fold c1 in E1, E2, E3. cbn zeta. rewrite E1. cbn [q_now q_redeliver] in *.
    change (q_now (q_redeliver c c1 q)) with (q_now q) in *.
    rewrite E2, E3. unfold next_cursor. rewrite drop_drop.
    rewrite !length_app, Hlen in *. rewrite q_taken_app, app_assoc.
    split_and!; [done | done | lia |].
    unfold scan_done in *. rewrite length_drop in H4. intros Hlt.
    destruct (H4 ltac:(lia)) as [?|?]; [left; lia | right].
    destruct (H2 ltac:(lia)); lia.
Qed.

Lemma recoverScript_ok q c minIdle want cursor l :
  0 < want -> q_wf q -> pel_scan (q_pel q) cursor l ->
  wpq K (recoverScript (k_stream K) (k_group K) c minIdle want cursor) q
    (recover_post 10 q c minIdle want [] l).
Proof. intros Hw Hwf Hl. by apply recover_loop_ok. Qed.

(** *** Consumers *)

Lemma deregisterScript_ok q c :
  wpq K (deregisterScript (k_stream K) (k_group K) c) q (fun r q' =>
    (r = 1 /\ q_idle_consumer q c /\ q' = q_drop_consumer c q) \/
    (r = 0 /\ ~ q_idle_consumer q c /\ q' = q)).
Proof.
  unfold deregisterScript. wpq_step wpq_XPENDING_CONSUMER. intros p q' [-> Hp].
  destruct p as [|x p]; simpl.
  - assert (q_idle_consumer q c) as Hc by (by apply Hp).
    wpq_step wpq_XGROUP_DELCONSUMER. intros _ q' ->. apply wpq_ret. by left.
  - apply wpq_ret. right. split_and!; [done | | done]. intros Hc%Hp. done.
Qed.

Lemma q_idle_consumer_drop q c c' : q_idle_consumer q c' -> q_idle_consumer (q_drop_consumer c q) c'.
Proof. done. Qed.

(** The consumers a prune removes held nothing and had been idle long enough. *)
Definition prunable (q : qstate) (minIdle : Z) (c : string) : Prop :=
  q_idle_consumer q c /\ exists t, q_cons q !! c = Some t /\ minIdle <= q_now q - t.

Lemma prune_loop_ok minIdle cs : forall q,
  (forall c, c ∈ cs -> ci_pending c = 0 -> q_idle_consumer q (ci_name c)) ->
  wpq K (prune_loop (k_stream K) (k_group K) minIdle cs) q (fun n q' =>
    let gone := filter (fun c => ci_pending c = 0 /\ minIdle <= ci_idle c) cs in
    n = Z.of_nat (length gone) /\ q' = foldl (fun q c => q_drop_consumer (ci_name c) q) q gone).
Proof.
  induction cs as [|c cs IH]; intros q Hidle; cbn [prune_loop]; [by apply wpq_ret|].
  destruct (decide (ci_pending c = 0 /\ minIdle <= ci_idle c)) as [Hc|Hc].
  - rewrite (proj2 (Z.eqb_eq _ _)), (proj2 (Z.leb_le _ _)) by tauto. simpl.
    assert (q_idle_consumer q (ci_name c)) by (apply Hidle; [by left | tauto]).
    wpq_step wpq_XGROUP_DELCONSUMER. intros _ q' ->.
    eapply wpq_bind; [apply IH; intros d Hd ?; apply q_idle_consumer_drop, Hidle; [by right | done]|].
    cbn beta. intros n q' [-> ->]. apply wpq_ret.
    rewrite filter_cons_True by done. simpl. split; [lia | done].
  - assert ((ci_pending c =? 0) && (minIdle <=? ci_idle c) = false) as ->.
    { apply not_true_iff_false. rewrite andb_true_iff, Z.eqb_eq, Z.leb_le. done. }
    rewrite filter_cons_False by done. apply IH. intros d Hd. apply Hidle. by right.
Qed.

Lemma pruneConsumersScript_ok q minIdle :
  wpq K (pruneConsumersScript (k_stream K) (k_group K) minIdle) q (fun n q' =>
    exists gone, n = Z.of_nat (length gone) /\ Forall (prunable q minIdle) gone /\
      q' = foldl (fun q c => q_drop_consumer c q) q gone).
Proof.
  unfold pruneConsumersScript. wpq_step wpq_XINFO_CONSUMERS. intros cs q' [-> Hcs].
  set (gr := Group (q_last q) (q_pel q) (q_cons q)) in *.
  assert (forall c, c ∈ cs -> exists t, q_cons q !! ci_name c = Some t /\
    ci_idle c = q_now q - t /\ (ci_pending c = 0 -> q_idle_consumer q (ci_name c))) as Hinfo.
  { intros c Hc. rewrite Hcs in Hc. apply list_elem_of_fmap in Hc as ([nm t] & -> & Hin).
    apply elem_of_map_to_list in Hin. exists t. split_and!; [done..|]. cbn. intros Hz.
    intros id p Hp. apply (proj1 (pending_of_zero gr nm) ltac:(lia) id p Hp). }
  eapply wpq_mono; [apply prune_loop_ok|]; [intros c Hc; by destruct (Hinfo c Hc) as (? & ? & ? & ?)|].
  cbn zeta. intros n q' [-> ->]. eexists (ci_name <$> _).
  split_and!; [by rewrite length_fmap | | by rewrite foldl_fmap].
  apply Forall_fmap, Forall_forall. intros c [[Hp Hi] Hc]%list_elem_of_filter.
  destruct (Hinfo c Hc) as (t & Ht & Hidle & Hq). split; [auto|]. exists t. split; [done | lia].
Qed.

(** *** Idempotent enqueue *)

Lemma enqueueOnceScript_ok q key jid window runAt json fs :
  0 < window -> decodes json fs ->
  wpq K (enqueueOnceScript (k_dedupe K +:+ key) (k_stream K) (k_zset K) (k_data K)
           jid window runAt json) q (fun r q' =>
    match q_dedupe q !! key with
    | Some (old, _) => r = old /\ q' = q
    | None =>
        r = jid /\
        let q1 := q_remember key jid window q in
        if 0 <? runAt then q' = q_schedule jid runAt json q1
        else exists id, eid_lt (q_top q) id /\ q' = q_append id fs q1
    end).
Proof.
  intros Hw Hfs. unfold enqueueOnceScript. wpq_step wpq_GET. intros r q' [-> ->].
  destruct (q_dedupe q !! key) as [[old e]|]; simpl; [by apply wpq_ret|].
  wpq_step wpq_SET_PX. intros _ q' ->.
  destruct (0 <? runAt).
  - eapply (wpq_bind K _ _ _ (fun _ q' => q' = q_schedule jid runAt json (q_remember key jid window q))).
    + wpq_step wpq_HSET. intros _ q' ->. eapply wpq_mono; [by eapply wpq_ZADD|]. by intros _ ? ->.
    + intros _ q' ->. by apply wpq_ret.
  - eapply wpq_bind; [by eapply xadd_json_ok|]. cbn beta. intros _ q' (id & Hlt & ->).
    apply wpq_ret. eauto.
Qed.
End scripts_ok.
