(* ===== verification/QueueSteps.v ===== *)
(** * The queue as a transition system

    Every atomic step clients can make on a queue, with the passage of time, as
    a labelled relation on the abstract queue, and the safety properties of all
    its runs: the invariant, fencing, no entry lost, idempotency keys.
    [StoreOk] shows that the operations of the store only make these steps. *)

From S2P Require Import Prelude GoNum Errors Job GoJson Redis Scripts QueueSpec QueueRep ScriptsOk.
From stdpp Require Import strings sorting relations.

Open Scope Z_scope.

(** What ends a delivery. *)
Inductive fate :=
  | Acked
  | Retried (jid : string) (runAt : Z) (json : string)
  | Buried (pairs : fields).

Inductive label :=
  | LSettle (id : eid) (owner : string) (token : Z) (f : fate)
  | LRenew (id : eid) (owner : string) (token : Z)
  | LEnqueue (fs : fields)
  | LSchedule (jid : string) (json : string)
  | LKeyed (key jid : string) (window : Z)
  | LPromote (ids : list string)
  | LDeliver (c : string) (es : list (eid * fields))
  | LRedeliver (c : string) (ids : list eid)
  | LDrop (c : string)
  | LTick (d : Z).

Definition fate_effect (f : fate) (did : eid) (q : qstate) : qstate :=
  match f with
  | Acked => q
  | Retried jid runAt json => q_schedule jid runAt json q
  | Buried pairs => q_bury did pairs q
  end.

Section steps.
Context {R : Redis}.
Implicit Types q : qstate.

Inductive qstep : label -> qstate -> qstate -> Prop :=
  | step_settle id o t f did q :
      q_owns q id o t = true ->
      (forall jid runAt json, f = Retried jid runAt json -> exists fs, decodes json fs) ->
      qstep (LSettle id o t f) q (q_settle id (fate_effect f did q))
  | step_renew id o t q :
      q_owns q id o t = true -> qstep (LRenew id o t) q (q_renew id o q)
  | step_enqueue id fs q :
      eid_lt (q_top q) id -> fs <> [] -> qstep (LEnqueue fs) q (q_append id fs q)
  | step_schedule jid runAt json fs q :
      decodes json fs -> qstep (LSchedule jid json) q (q_schedule jid runAt json q)
  | step_keyed_now key jid window id fs q :
      0 < window -> q_dedupe q !! key = None -> eid_lt (q_top q) id -> fs <> [] ->
      qstep (LKeyed key jid window) q (q_append id fs (q_remember key jid window q))
  | step_keyed_later key jid window runAt json fs q :
      0 < window -> q_dedupe q !! key = None -> decodes json fs ->
      qstep (LKeyed key jid window) q (q_schedule jid runAt json (q_remember key jid window q))
  | step_promote ids now l limit q q' :
      due_list (q_sched q) now l -> ids = take limit l -> promoted ids q q' ->
      qstep (LPromote ids) q q'
  | step_deliver c n q :
      0 < n -> qstep (LDeliver c (q_ready n q)) q (q_deliver c n q)
  | step_redeliver c ids q :
      NoDup ids -> (forall id, id ∈ ids -> is_Some (q_pel q !! id)) ->
      qstep (LRedeliver c ids) q (q_redeliver c ids q)
  | step_drop c q :
      q_idle_consumer q c -> qstep (LDrop c) q (q_drop_consumer c q)
  | step_tick d q : 0 <= d -> qstep (LTick d) q (q_tick d q).

(** Runs, with the labels of their steps. *)
Inductive qsteps : list label -> qstate -> qstate -> Prop :=
  | qsteps_nil q : qsteps [] q q
  | qsteps_cons a tr q q1 q2 : qstep a q q1 -> qsteps tr q1 q2 -> qsteps (a :: tr) q q2.

Lemma qsteps_one a q q' : qstep a q q' -> qsteps [a] q q'.
Proof. intros. eapply qsteps_cons; [done | constructor]. Qed.

Lemma qsteps_app t1 t2 q1 q2 q3 : qsteps t1 q1 q2 -> qsteps t2 q2 q3 -> qsteps (t1 ++ t2) q1 q3.
Proof. induction 1; simpl; [done|]. intros. econstructor; eauto. Qed.

(** Properties preserved by every step hold after every run. *)
Lemma qsteps_ind_inv (P : qstate -> Prop) :
  (forall a q q', qstep a q q' -> P q -> P q') ->
  forall tr q q', qsteps tr q q' -> P q -> P q'.
Proof. intros Hstep tr q q'. induction 1; eauto. Qed.

(** ** Promotion *)

Lemma promoted_ind_inv (P : qstate -> Prop) :
  (forall jid q, P q -> P (q_unschedule jid q)) ->
  (forall id fs q, eid_lt (q_top q) id -> fs <> [] -> P q -> P (q_append id fs q)) ->
  forall ids q q', promoted ids q q' -> P q -> P q'.
Proof.
  intros Hu Ha ids q q'. induction 1 as [|jid ids q q' id fs json Hj [_ Hne] Hlt _ IH|jid ids q q' Hj _ IH];
    auto.
Qed.

(** ** The invariant *)

Definition q_inv q : Prop := q_wf q /\ data_ok q.

Lemma data_ok_schedule jid runAt json fs q :
  decodes json fs -> data_ok q -> data_ok (q_schedule jid runAt json q).
Proof.
  intros Hd Hok j js. simpl. rewrite lookup_insert_Some. intros [[<- <-]|[_ Hj]]; eauto.
Qed.

Lemma data_ok_unschedule jid q : data_ok q -> data_ok (q_unschedule jid q).
Proof. intros Hok j js. simpl. rewrite lookup_delete_Some. intros [_ Hj]; eauto. Qed.

#[local] Hint Resolve data_ok_schedule data_ok_unschedule : dtq.

Lemma promoted_wf ids q q' : promoted ids q q' -> q_wf q -> q_wf q'.
Proof. apply promoted_ind_inv; eauto with dtq. Qed.

Lemma promoted_data_ok ids q q' : promoted ids q q' -> data_ok q -> data_ok q'.
Proof. apply promoted_ind_inv; eauto with dtq. Qed.

Lemma wf_fate f did q : q_wf q -> q_wf (fate_effect f did q).
Proof. destruct f; simpl; eauto with dtq. Qed.

Lemma qstep_inv a q q' : qstep a q q' -> q_inv q -> q_inv q'.
Proof.
  intros Hs [Hwf Hd]. destruct Hs; split; eauto using wf_fate, promoted_wf, promoted_data_ok with dtq.
  all: try done.
  destruct f as [|jid runAt json|]; [done | | done].
  destruct (H0 jid runAt json eq_refl) as [fs Hfs]. by eapply data_ok_schedule.
Qed.

Lemma qsteps_inv tr q q' : qsteps tr q q' -> q_inv q -> q_inv q'.
Proof. apply qsteps_ind_inv, qstep_inv. Qed.

(** ** IDs only grow *)

Lemma promoted_pel ids q q' :
  promoted ids q q' -> q_pel q' = q_pel q /\ q_last q' = q_last q /\ eid_le (q_top q) (q_top q').
Proof.
  induction 1 as [|jid ids q q' id fs json Hj Hd Hlt _ IH|jid ids q q' Hj _ IH];
    [auto with dtq | | done].
  destruct IH as (IH1 & IH2 & IH3). split_and!; [done | done |].
  right. by eapply eid_lt_le_trans.
Qed.

Lemma qstep_last a q q' : qstep a q q' -> eid_le (q_last q) (q_last q').
Proof.
  destruct 1 as [? ? ? f| | | | | |? ? ? ? ? ? _ _ Hp| | | |]; simpl; try apply eid_le_refl.
  - destruct f; apply eid_le_refl.
  - destruct (promoted_pel _ _ _ Hp) as (_ & -> & _). apply eid_le_refl.
  - apply q_last_mono.
Qed.

(** ** Fencing *)

(** The lease (id, token) has been superseded: the delivery is over, or has a
    higher count. *)
Definition superseded q (id : eid) (token : Z) : Prop :=
  eid_le id (q_last q) /\ forall p, q_pel q !! id = Some p -> token < pe_count p.

Lemma superseded_not_owned q id token o : superseded q id token -> q_owns q id o token = false.
Proof.
  intros [_ H]. unfold q_owns. destruct (q_pel q !! id) as [p|]; [|done].
  specialize (H p eq_refl). rewrite (proj2 (Z.eqb_neq _ _)) by lia. apply andb_false_r.
Qed.

Lemma qstep_superseded a q q' id token :
  qstep a q q' -> superseded q id token -> superseded q' id token.
Proof.
  intros Hs [Hle Hp]. split; [eapply eid_le_trans; [done | by eapply qstep_last]|].
  destruct Hs as [i ? ? f| | | | | |? ? ? ? ? ? _ _ Hpr| |c ids q Hnd Hpend| |]; simpl; try done.
  - intros p [_ Hi]%lookup_delete_Some. destruct f; simpl in Hi; auto.
  - intros p. destruct (decide (id0 = id)) as [->|]; [|rewrite lookup_alter_ne by done; auto].
    rewrite lookup_alter_eq. intros (p' & Hp' & ->)%fmap_Some. simpl. auto.
  - destruct (promoted_pel _ _ _ Hpr) as (-> & _). done.
  - intros p. rewrite lookup_deliver_all. case_decide as Hin; [|auto].
    apply list_elem_of_fmap in Hin as (e & -> & He). apply elem_of_q_ready in He as [_ Hlt].
    destruct (eid_lt_irrefl (q_last q)). by eapply eid_lt_le_trans.
  - intros p. rewrite lookup_claim_all by done. case_decide; [|auto].
    intros (p' & Hp' & ->)%fmap_Some. simpl. specialize (Hp p' Hp'). lia.
Qed.

Lemma qsteps_superseded tr q q' id token :
  qsteps tr q q' -> superseded q id token -> superseded q' id token.
Proof. apply (qsteps_ind_inv (fun q => superseded q id token)). intros. by eapply qstep_superseded. Qed.

(** A recovery supersedes every earlier lease of what it takes. *)
Lemma redeliver_superseded c ids q id o token :
  q_wf q -> NoDup ids -> id ∈ ids -> q_owns q id o token = true ->
  superseded (q_redeliver c ids q) id token.
Proof.
  intros Hwf Hnd Hin (p & Hp & <- & <-)%q_owns_pending. split.
  - by destruct (wf_pending _ Hwf id p Hp) as (_ & ? & _).
  - simpl. intros p'. rewrite lookup_claim_all, decide_True, Hp by done.
    intros [= <-]. simpl. lia.
Qed.

Lemma settle_superseded q id o token :
  q_wf q -> q_owns q id o token = true ->
  forall token', superseded (q_settle id q) id token'.
Proof.
  intros Hwf (p & Hp & _)%q_owns_pending token'. split.
  - by destruct (wf_pending _ Hwf id p Hp) as (_ & ? & _).
  - simpl. intros p'. by rewrite lookup_delete_eq.
Qed.

(** ** Nothing is lost *)

Definition settled_in (tr : list label) (id : eid) : Prop :=
  exists o t f, LSettle id o t f ∈ tr.

Lemma promoted_entries ids q q' : promoted ids q q' -> exists new, q_entries q' = q_entries q ++ new.
Proof.
  induction 1 as [|jid ids q q' id fs json Hj Hd Hlt _ (new & IH)|jid ids q q' Hj _ (new & IH)].
  - exists []. by rewrite app_nil_r.
  - exists ((id, fs) :: new). rewrite IH. simpl. by rewrite <- app_assoc.
  - eauto.
Qed.

Lemma qstep_entries a q q' e :
  qstep a q q' -> e ∈ q_entries q ->
  e ∈ q_entries q' \/ exists o t f, a = LSettle e.1 o t f.
Proof.
  intros Hs He. destruct Hs as [id o t f| | | | | |? ? ? ? ? ? _ _ Hpr| | | |]; simpl; auto.
  - destruct (decide (e.1 = id)) as [<-|Hne]; [right; eauto|left].
    apply list_elem_of_filter. destruct f; done.
  - left. apply elem_of_app. by left.
  - left. apply elem_of_app. by left.
  - left. destruct (promoted_entries _ _ _ Hpr) as (new & ->). apply elem_of_app. by left.
Qed.

Lemma qsteps_entries tr q q' e :
  qsteps tr q q' -> e ∈ q_entries q -> e ∈ q_entries q' \/ settled_in tr e.1.
Proof.
  induction 1 as [q|a tr q q1 q2 Hs Hss IH]; intros He; [by left|].
  destruct (qstep_entries a q q1 e Hs He) as [He1|(o & t & f & ->)].
  - destruct (IH He1) as [?|(o & t & f & ?)]; [by left | right]. exists o, t, f. by right.
  - right. exists o, t, f. by left.
Qed.

(** A scheduled job stays scheduled until it is promoted, and then its fields
    are in the stream. *)
Lemma promoted_sched ids q q' jid json :
  promoted ids q q' -> NoDup ids -> q_data q !! jid = Some json ->
  ((jid ∉ ids) /\ q_data q' !! jid = Some json) \/
  ((jid ∈ ids) /\ exists fs id, decodes json fs /\ (id, fs) ∈ q_entries q').
Proof.
  induction 1 as [|j ids q q' id fs js Hj Hd Hlt Hp IH|j ids q q' Hj Hp IH]; intros Hnd Hjid.
  - left. split; [by apply not_elem_of_nil | done].
  - apply NoDup_cons in Hnd as [Hnin Hnd]. destruct (decide (j = jid)) as [->|Hne].
    + right. split; [by left|]. simplify_eq. exists fs, id. split; [done|].
      destruct (promoted_entries _ _ _ Hp) as (new & ->). simpl.
      apply elem_of_app. left. apply elem_of_app. right. by left.
    + destruct IH as [[? ?]|[? ?]]; [done | by simpl; rewrite lookup_delete_ne | |].
      * left. rewrite not_elem_of_cons. auto.
      * right. rewrite elem_of_cons. auto.
  - apply NoDup_cons in Hnd as [Hnin Hnd].
    assert (j <> jid) as Hne by (intros ->; congruence).
    destruct IH as [[? ?]|[? ?]]; [done | by simpl; rewrite lookup_delete_ne | |].
    + left. rewrite not_elem_of_cons. auto.
    + right. rewrite elem_of_cons. auto.
Qed.

(** ** Idempotency keys *)

Definition remembered q (key jid : string) (until : Z) : Prop :=
  q_dedupe q !! key = Some (jid, until) /\ q_now q < until.

Lemma promoted_dedupe ids q q' :
  promoted ids q q' -> q_dedupe q' = q_dedupe q /\ q_now q' = q_now q.
Proof. induction 1 as [| |]; [done | done | done]. Qed.

Lemma qstep_now a q q' : qstep a q q' -> q_now q <= q_now q'.
Proof.
  destruct 1 as [? ? ? f| | | | | |? ? ? ? ? ? _ _ Hp| | | |]; simpl; try lia.
  - destruct f; simpl; lia.
  - destruct (promoted_dedupe _ _ _ Hp) as [_ ->]. lia.
Qed.

Lemma qsteps_now tr q q' : qsteps tr q q' -> q_now q <= q_now q'.
Proof. induction 1 as [|a tr q q1 q2 Hs _ IH]; [lia|]. apply qstep_now in Hs. lia. Qed.

Lemma qstep_remembered a q q' key jid until :
  qstep a q q' -> remembered q key jid until -> q_now q' < until -> remembered q' key jid until.
Proof.
  intros Hs [Hk Hn] Hn'. split; [|done].
  destruct Hs as [? ? ? f| | | |k j w ? ? ? ? Hnone|k j w ? ? ? ? ? Hnone|? ? ? ? ? ? _ _ Hp| | | |d q Hd];
    simpl in *; try done.
  - by destruct f.
  - rewrite lookup_insert_ne; [done | congruence].
  - rewrite lookup_insert_ne; [done | congruence].
  - by destruct (promoted_dedupe _ _ _ Hp) as [-> _].
  - rewrite map_lookup_filter_Some. done.
Qed.

Lemma qsteps_remembered tr q q' key jid until :
  qsteps tr q q' -> remembered q key jid until -> q_now q' < until -> remembered q' key jid until.
Proof.
  induction 1 as [|a tr q q1 q2 Hs Hss IH]; intros Hr Hn; [done|]. apply IH; [|done].
  eapply qstep_remembered; [done..|]. apply qsteps_now in Hss. lia.
Qed.
End steps.
