(* ===== verification/Retry.v ===== *)
(** * Retry backoff ([queue/retry.go])

    [NextDelay] on 64-bit durations and IEEE 754 doubles.  A finite [float64]
    is a rational; [rnd] rounds an exact result to the nearest double, ties to
    even.  Durations are below 2^63, so no operation here overflows a double.
    The operations are rounded one by one (no fused multiply-add). *)

From S2P Require Import Prelude GoNum GoTime Errors Job.
From Stdlib Require Import QArith Qround Qpower Qabs Lqa.

Open Scope Z_scope.

(** ** float64 *)

Inductive float64 :=
  | F_nan
  | F_inf (negative : bool)
  | F_fin (q : Q).

(** The exponent of the binade of a non-zero rational: 2^lg <= |q| < 2^(lg+1). *)
Definition lg (q : Q) : Z :=
  let n := Z.abs (Qnum q) in
  let k := Z.log2 n - Z.log2 (Zpos (Qden q)) in
  if Qle_bool (2 ^ k) (n # Qden q) then k else k - 1.

(** Rounding to an integer, half to even. *)
Definition rne (q : Q) : Z :=
  let f := Qfloor q in
  match (q - inject_Z f ?= 1 # 2)%Q with
  | Lt => f
  | Gt => f + 1
  | Eq => if Z.even f then f else f + 1
  end.

(** Rounding to a double: 53 significant bits, least exponent -1074. *)
Definition rnd (q : Q) : Q :=
  if Qeq_bool q 0 then 0%Q else
  let e := Z.max (-1074) (lg q - 52) in
  Qred (inject_Z (rne (q / 2 ^ e)) * 2 ^ e).

(** Conversion to an integer type truncates towards zero. *)
Definition trunc (q : Q) : Z := Z.quot (Qnum q) (Zpos (Qden q)).

(** ** The policy *)

Record RetryPolicy := mkRetryPolicy {
  BaseDelay : Z;
  MaxDelay : Z;
  Jitter : float64;
}.

Definition DefaultRetryPolicy : RetryPolicy :=
  mkRetryPolicy second (30 * second) (F_fin (1 # 2)).

(** [min(max(p.Jitter, 0), 1)] when it is positive. *)
Definition jitter_of (j : float64) : option Q :=
  match j with
  | F_nan => None
  | F_inf negative => if negative then None else Some 1%Q
  | F_fin q => if Qle_bool q 0 then None else Some (if Qle_bool q 1 then q else 1%Q)
  end.

Fixpoint backoff (n : nat) (delay maxDelay : Z) : Z :=
  match n with
  | O => delay
  | S n' => if delay <? maxDelay then backoff n' (wrap64 (delay * 2)) maxDelay else delay
  end.

(** [u] is what [rand.Float64] returns: a multiple of 2^-53 in [0, 1). *)
Definition jittered (delay : Z) (j u : Q) : Z :=
  let d := rnd (inject_Z delay) in
  let spread := rnd (d * j)%Q in
  trunc (rnd (rnd (d - spread)%Q + rnd (u * spread)%Q)%Q).

Definition NextDelay (p : RetryPolicy) (attempt : Z) (u : Q) : Z :=
  let attempt := if attempt <? 1 then 1 else attempt in
  let base := if BaseDelay p =? 0 then second else BaseDelay p in
  let maxd := if MaxDelay p =? 0 then 30 * second else MaxDelay p in
  let delay := Z.min (backoff (Z.to_nat (attempt - 1)) base maxd) maxd in
  match jitter_of (Jitter p) with
  | Some j => jittered delay j u
  | None => delay
  end.

Definition ShouldDeadLetter (job : Job) : bool := Exhausted job.

(** ** Rounding errors *)

Lemma rne_error q : (Qabs (inject_Z (rne q) - q) <= 1 # 2)%Q.
Proof.
  unfold rne. pose proof (Qfloor_le q) as H1. pose proof (Qlt_floor q) as H2.
  rewrite inject_Z_plus in H2. change (inject_Z 1) with 1%Q in H2.
  destruct (Qcompare_spec (q - inject_Z (Qfloor q)) (1 # 2)) as [H|H|H];
    [destruct (Z.even (Qfloor q))| |]; apply Qabs_Qle_condition;
    rewrite ?inject_Z_plus; change (inject_Z 1) with 1%Q; lra.
Qed.

Lemma pow2_pos e : (0 < 2 ^ e)%Q.
Proof. apply Qpower_0_lt. lra. Qed.

Lemma pow2_mono a b : a <= b -> (2 ^ a <= 2 ^ b)%Q.
Proof. intros. apply Qpower_le_compat_l; [done | lra]. Qed.

Lemma pow2_nonneg_Z k : 0 <= k -> (2 ^ k == inject_Z (2 ^ k))%Q.
Proof. intros. by rewrite Zpower_Qpower. Qed.

(** The binade of a rational starts below it. *)
Lemma lg_le q : ~ (q == 0)%Q -> (2 ^ lg q <= Qabs q)%Q.
Proof.
  intros Hq. destruct q as [n d]. unfold lg. cbn [Qnum Qden]. change (Qabs (n # d)) with (Z.abs n # d).
  assert (0 < Z.abs n) as Hn.
  { destruct (decide (n = 0)) as [->|]; [|lia]. by destruct Hq. }
  destruct (Qle_bool _ _) eqn:E; [by apply Qle_bool_iff|].
  pose proof (Z.log2_spec _ Hn) as [Hlo _]. pose proof (Z.log2_spec (Zpos d) ltac:(lia)) as [_ Hhi].
  set (a := Z.log2 (Z.abs n)) in *. set (b := Z.log2 (Zpos d)) in *.
  assert (0 <= a) by apply Z.log2_nonneg. assert (0 <= b) by apply Z.log2_nonneg.
  replace (a - b - 1) with (a - Z.succ b) by lia.
  rewrite Qpower_minus by lra. rewrite !pow2_nonneg_Z by lia.
  assert (0 < 2 ^ Z.succ b) by (apply Z.pow_pos_nonneg; lia).
  apply Qle_shift_div_r; [by rewrite <- (Zlt_Qlt 0)|].
  unfold Qle, Qmult, inject_Z. cbn [Qnum Qden]. rewrite Pos.mul_1_r, Z.mul_1_r. nia.
Qed.

Lemma rnd_error k q :
  0 <= k -> (Qabs q < 2 ^ (k + 1))%Q -> (Qabs (rnd q - q) <= 2 ^ (k - 53))%Q.
Proof.
  intros Hk Hq. unfold rnd. destruct (Qeq_bool q 0) eqn:E0.
  { apply Qeq_bool_iff in E0. rewrite E0. apply Qlt_le_weak, pow2_pos. }
  assert (~ (q == 0)%Q) as Hne by (intros H; apply Qeq_bool_iff in H; congruence).
  cbn zeta. set (e := Z.max (-1074) (lg q - 52)).
  assert (e <= k - 52) as He.
  { pose proof (lg_le q Hne) as Hl. unfold e. destruct (Z.le_gt_cases (lg q) k); [lia|].
    pose proof (pow2_mono (k + 1) (lg q) ltac:(lia)). lra. }
  rewrite Qred_correct. pose proof (rne_error (q / 2 ^ e)) as Hr.
  pose proof (pow2_pos e) as Hp. pose proof (pow2_mono e (k - 52) He) as Hm.
  assert (inject_Z (rne (q / 2 ^ e)) * 2 ^ e - q ==
    (inject_Z (rne (q / 2 ^ e)) - q / 2 ^ e) * 2 ^ e)%Q as -> by (field; lra).
  rewrite Qabs_Qmult, (Qabs_pos (2 ^ e)) by lra.
  replace (k - 52) with (k - 53 + 1) in Hm by lia. rewrite Qpower_plus in Hm by lra.
  change (2 ^ 1)%Q with 2%Q in Hm. nra.
Qed.

(** Below 2^51 a rounding is off by at most 1/8. *)
Lemma rnd_close q : (- 2251799813685248 < q < 2251799813685248)%Q -> (q - (1#8) <= rnd q <= q + (1#8))%Q.
Proof.
  intros Hq. assert (Qabs q < 2 ^ (50 + 1))%Q as Ha.
  { change (2 ^ (50 + 1))%Q with 2251799813685248%Q. apply Qabs_Qlt_condition. lra. }
  apply (rnd_error 50 q ltac:(lia)), Qabs_Qle_condition in Ha.
  change (2 ^ (50 - 53))%Q with (1#8)%Q in Ha. lra.
Qed.

Lemma trunc_le q n : (q < inject_Z n + 1)%Q -> 0 <= n -> trunc q <= n.
Proof.
  destruct q as [a d]. unfold trunc, Qlt, inject_Z. simpl. intros H Hn.
  destruct (Z.le_gt_cases a 0).
  - apply Z.le_trans with 0; [|done]. apply Z.quot_le_upper_bound; lia.
  - rewrite Z.quot_div_nonneg by lia. apply Z.lt_succ_r, Z.div_lt_upper_bound; lia.
Qed.

Lemma trunc_gt q : (-1 < q)%Q -> 0 <= trunc q /\ (q - 1 < inject_Z (trunc q))%Q.
Proof.
  destruct q as [a d]. unfold trunc, Qlt, inject_Z. simpl. intros H.
  destruct (Z.le_gt_cases 0 a).
  - rewrite Z.quot_div_nonneg by lia. split; [apply Z.div_pos; lia|].
    pose proof (Z.mod_pos_bound a (Zpos d) ltac:(lia)). pose proof (Z.div_mod a (Zpos d) ltac:(lia)). lia.
  - rewrite <- (Z.opp_involutive a), Z.quot_opp_l, Z.quot_small by lia. lia.
Qed.

(** ** Backoff *)

Lemma backoff_min n b m :
  0 < b -> 0 < m <= 2 ^ 62 -> b <= m -> Z.min (backoff n b m) m = Z.min (b * 2 ^ Z.of_nat n) m.
Proof.
  revert b. induction n as [|n IH]; intros b Hb Hm Hbm; cbn [backoff].
  { by rewrite Z.pow_0_r, Z.mul_1_r. }
  destruct (Z.ltb_spec b m) as [Hlt|Hge].
  - rewrite wrap64_id by (unfold int64_ok, min_int64, max_int64; lia).
    rewrite Nat2Z.inj_succ, Z.pow_succ_r by lia.
    destruct (Z.le_gt_cases (b * 2) m) as [H2|H2].
    + rewrite IH by lia. f_equal. lia.
    + assert (1 <= 2 ^ Z.of_nat n) by (apply (Z.pow_le_mono_r 2 0); lia).
      rewrite (Z.min_r (b * _)) by nia. destruct n as [|n']; cbn [backoff]; [lia|].
      rewrite (proj2 (Z.ltb_ge (b * 2) m)) by lia. lia.
  - assert (1 <= 2 ^ Z.of_nat (S n)) by (apply (Z.pow_le_mono_r 2 0); lia). nia.
Qed.

Lemma backoff_capped n b m :
  0 < b -> 0 < m <= 2 ^ 62 -> Z.min (backoff n b m) m = Z.min (b * 2 ^ Z.of_nat n) m.
Proof.
  intros Hb Hm. destruct (Z.le_gt_cases b m); [by apply backoff_min|].
  assert (1 <= 2 ^ Z.of_nat n) by (apply (Z.pow_le_mono_r 2 0); lia).
  destruct n as [|n]; cbn [backoff]; [lia|]. rewrite (proj2 (Z.ltb_ge b m)) by lia. nia.
Qed.

(** The delay before jitter: BaseDelay * 2^(attempt-1), capped. *)
Definition exp_delay (p : RetryPolicy) (attempt : Z) : Z :=
  Z.min (BaseDelay p * 2 ^ (Z.max 1 attempt - 1)) (MaxDelay p).

Lemma NextDelay_unfold p attempt u :
  0 < BaseDelay p -> 0 < MaxDelay p <= 2 ^ 62 ->
  NextDelay p attempt u =
  match jitter_of (Jitter p) with
  | Some j => jittered (exp_delay p attempt) j u
  | None => exp_delay p attempt
  end.
Proof.
  intros Hb Hm. unfold NextDelay, exp_delay.
  rewrite !(proj2 (Z.eqb_neq _ 0)) by lia.
  rewrite backoff_capped by lia.
  assert (Z.of_nat (Z.to_nat ((if attempt <? 1 then 1 else attempt) - 1)) = Z.max 1 attempt - 1) as ->.
  { destruct (Z.ltb_spec attempt 1); lia. }
  done.
Qed.

Lemma jitter_of_range f j : jitter_of f = Some j -> (0 < j <= 1)%Q.
Proof.
  destruct f as [|[]|q]; simpl; try done; [intros [= <-]; lra|].
  destruct (Qle_bool q 0) eqn:E; [done|]. intros [= <-].
  assert (~ (q <= 0)%Q) by (intros H; apply Qle_bool_iff in H; congruence).
  destruct (Qle_bool q 1) eqn:E1; [apply Qle_bool_iff in E1; lra | lra].
Qed.

Lemma mul_fraction x j c :
  (0 <= c)%Q -> (- c <= x)%Q -> (0 <= j <= 1)%Q -> (- c <= x * j <= x + c)%Q.
Proof. intros. split; nra. Qed.

Lemma jittered_range d j u :
  0 <= d <= 2 ^ 50 -> (0 < j <= 1)%Q -> (0 <= u < 1)%Q ->
  0 <= jittered d j u <= d /\ (inject_Z d * (1 - j) - 2 < inject_Z (jittered d j u))%Q.
Proof.
  intros [Hd0 Hd1] Hj Hu. unfold jittered.
  assert (0 <= inject_Z d <= 1125899906842624)%Q as Hd.
  { split; [rewrite <- (Zle_Qle 0) | change 1125899906842624%Q with (inject_Z (2 ^ 50)); rewrite <- Zle_Qle];
      done. }
  pose proof (rnd_close (inject_Z d) ltac:(lra)) as HD. set (D := rnd (inject_Z d)) in *.
  pose proof (mul_fraction D j (1#8) ltac:(lra) ltac:(lra) ltac:(lra)) as HDj.
  assert (D * j <= inject_Z d * j + (1#8))%Q as HDj' by nra.
  pose proof (rnd_close (D * j) ltac:(lra)) as Hs. set (s := rnd (D * j)) in *.
  pose proof (mul_fraction s u (1#4) ltac:(lra) ltac:(lra) ltac:(lra)) as Hsu.
  pose proof (rnd_close (D - s) ltac:(lra)) as Ha. set (a := rnd (D - s)) in *.
  rewrite (Qmult_comm s u) in Hsu.
  pose proof (rnd_close (u * s) ltac:(lra)) as Hb. set (b := rnd (u * s)) in *.
  assert (u * s <= s + (1#4))%Q by lra.
  assert (- (3#4) <= a + b <= inject_Z d + (5#8))%Q by lra.
  assert (inject_Z d * (1 - j) - (7#8) <= a + b)%Q by lra.
  pose proof (rnd_close (a + b) ltac:(lra)) as Hr.
  destruct (trunc_gt (rnd (a + b)) ltac:(lra)) as [Ht0 Ht1].
  split_and!; [done | apply trunc_le; [lra | done] | lra].
Qed.

(** ** Properties *)

(** Without jitter, the delay before retry number [attempt] is
    BaseDelay * 2^(attempt-1) capped at MaxDelay, for every attempt: the loop
    never overflows while MaxDelay is at most 2^62 ns. *)
Theorem NextDelay_exponential p attempt u :
  jitter_of (Jitter p) = None -> 0 < BaseDelay p -> 0 < MaxDelay p <= 2 ^ 62 ->
  NextDelay p attempt u = Z.min (BaseDelay p * 2 ^ (Z.max 1 attempt - 1)) (MaxDelay p).
Proof. intros Hj Hb Hm. by rewrite NextDelay_unfold, Hj. Qed.

Lemma NextDelay_exponential_witness :
  NextDelay (mkRetryPolicy second (30 * second) (F_fin 0)) 4 0 = 8 * second.
Proof.
  etrans; [apply NextDelay_exponential; [reflexivity | reflexivity | split; [reflexivity | discriminate]]
          | reflexivity].
Defined.

(** With jitter [j], for delays up to 2^50 ns (13 days), the delay lies
    between (1-j) of the exponential delay (less two nanoseconds of rounding)
    and the exponential delay itself, whatever the random number. *)
Theorem NextDelay_jitter_range p j attempt u :
  jitter_of (Jitter p) = Some j -> 0 < BaseDelay p -> 0 < MaxDelay p <= 2 ^ 50 -> (0 <= u < 1)%Q ->
  let d := Z.min (BaseDelay p * 2 ^ (Z.max 1 attempt - 1)) (MaxDelay p) in
  0 <= NextDelay p attempt u <= d /\
  (inject_Z d * (1 - j) - 2 < inject_Z (NextDelay p attempt u))%Q.
Proof.
  intros Hj Hb Hm Hu. cbn zeta. rewrite NextDelay_unfold, Hj by lia.
  apply jittered_range; [|by eapply jitter_of_range | done].
  assert (0 < 2 ^ (Z.max 1 attempt - 1)) by (apply Z.pow_pos_nonneg; lia). unfold exp_delay. nia.
Qed.

Lemma NextDelay_jitter_range_witness :
  0 <= NextDelay DefaultRetryPolicy 3 (1 # 4) <= 4 * second /\
  NextDelay DefaultRetryPolicy 3 (1 # 4) = 2500 * millisecond.
Proof.
  split; [|reflexivity].
  apply (NextDelay_jitter_range DefaultRetryPolicy (1 # 2) 3 (1 # 4));
    [reflexivity | reflexivity | split; [reflexivity | discriminate] | split; [discriminate | reflexivity]].
Defined.

(** A policy with a MaxDelay above 2^62 ns overflows: with BaseDelay one
    second and no jitter, retry number 35 gets a negative delay. *)
Theorem NextDelay_overflow :
  NextDelay (mkRetryPolicy second max_int64 (F_fin 0)) 35 0 < 0.
Proof. reflexivity. Qed.

(** The jittered delay can be the whole exponential delay: with jitter 0.5
    and the largest value of [rand.Float64], the delay after one second of base
    delay is one second, not less. *)
Theorem NextDelay_reaches_cap :
  NextDelay (mkRetryPolicy second (30 * second) (F_fin (1 # 2))) 1 (1 - (1 # 2 ^ 53)) = second.
Proof. vm_compute. reflexivity. Qed.
