(* ===== verification/GoDuration.v ===== *)
(** * Durations as text

    [time.Duration.String] and [time.ParseDuration], as the tools' flags use them,
    and that a duration survives being passed to a child process on its command
    line. Fractions go through float64 as in the standard library. *)

From S2P Require Import Prelude GoNum GoTime Errors Job Retry.
From Stdlib Require Import Ascii String Decimal DecimalString QArith Qround Qpower Qabs Lqa.
From stdpp Require Import strings.

Open Scope Z_scope.

(** ** Printing *)

Definition microsecond : Z := 10 ^ 3.

Definition micro : string := String "194" (String "181" "s").

(** The fraction [u mod 10^prec], without trailing zeros. *)
Definition frac_text (prec : nat) (u : Z) : string :=
  let f := u mod 10 ^ Z.of_nat prec in
  if f =? 0 then "" else "." +:+ strip_zeros (pad prec f).

Definition small_duration (u : Z) : string :=
  if u =? 0 then "0s"
  else if u <? microsecond then Itoa u +:+ "ns"
  else if u <? millisecond then Itoa (u / microsecond) +:+ frac_text 3 u +:+ micro
  else Itoa (u / millisecond) +:+ frac_text 6 u +:+ "ms".

Definition large_duration (u : Z) : string :=
  let s := u / second in
  let m := s / 60 in
  let h := m / 60 in
  (if 0 <? h then Itoa h +:+ "h" else "") +:+
  (if 0 <? m then Itoa (m mod 60) +:+ "m" else "") +:+
  Itoa (s mod 60) +:+ frac_text 9 u +:+ "s".

Definition Duration_String (d : Z) : string :=
  let u := Z.abs d in
  (if d <? 0 then "-" else "") +:+ (if u <? second then small_duration u else large_duration u).

(** ** Parsing *)

Definition max_uint63 : Z := 2 ^ 63.

(** Digits at the front; [None] when they exceed 2^63. *)
Fixpoint leadingInt (x : Z) (s : string) : option (Z * string) :=
  match s with
  | "" => Some (x, "")
  | String c r =>
      match digit_val c with
      | None => Some (x, s)
      | Some d =>
          if max_uint63 / 10 <? x then None
          else if max_uint63 <? x * 10 + d then None else leadingInt (x * 10 + d) r
      end
  end.

(** Digits after the point, as [f / scale]; those that do not fit are skipped. *)
Fixpoint leadingFraction (f scale : Z) (overflow : bool) (s : string) : Z * Z * string :=
  match s with
  | "" => (f, scale, "")
  | String c r =>
      match digit_val c with
      | None => (f, scale, s)
      | Some d =>
          if overflow then leadingFraction f scale true r
          else if (max_uint63 - 1) / 10 <? f then leadingFraction f scale true r
          else if max_uint63 <? f * 10 + d then leadingFraction f scale true r
          else leadingFraction (f * 10 + d) (scale * 10) false r
      end
  end.

(** The text up to the next digit or point. *)
Fixpoint unit_text (s : string) : string * string :=
  match s with
  | "" => ("", "")
  | String c r =>
      if bool_decide (c = "."%char) then ("", s)
      else match digit_val c with
           | Some _ => ("", s)
           | None => let '(u, t) := unit_text r in (String c u, t)
           end
  end.

Definition unit_of (u : string) : option Z :=
  if bool_decide (u = "ns") then Some 1
  else if bool_decide (u = "us") then Some microsecond
  else if bool_decide (u = micro) then Some microsecond
  else if bool_decide (u = String "206" (String "188" "s")) then Some microsecond
  else if bool_decide (u = "ms") then Some millisecond
  else if bool_decide (u = "s") then Some second
  else if bool_decide (u = "m") then Some minute
  else if bool_decide (u = "h") then Some hour
  else None.

(** [uint64(float64(f) * (float64(unit) / scale))]. *)
Definition fraction_of (f unit scale : Z) : Z :=
  trunc (rnd (rnd (inject_Z f) * rnd (inject_Z unit / inject_Z scale))%Q).

(** One number with its unit, and the text after it. *)
Definition duration_part (s : string) : option (Z * string) :=
  match s with
  | "" => None
  | String c _ =>
      if bool_decide (c = "."%char) || bool_decide (is_Some (digit_val c)) then
        '(v, s1) ← leadingInt 0 s;
        let pre := negb (String.length s1 =? String.length s)%nat in
        let '(f, scale, s2, post) :=
          match s1 with
          | String p r =>
              if bool_decide (p = "."%char) then
                let '(f, scale, s2) := leadingFraction 0 1 false r in
                (f, scale, s2, negb (String.length s2 =? String.length r)%nat)
              else (0, 1, s1, false)
          | "" => (0, 1, s1, false)
          end in
        if negb pre && negb post then None else
        let '(u, s3) := unit_text s2 in
        if bool_decide (u = "") then None else
        unit ← unit_of u;
        if max_uint63 / unit <? v then None else
        let v := v * unit + (if 0 <? f then fraction_of f unit scale else 0) in
        if max_uint63 <? v then None else Some (v, s3)
      else None
  end.

Fixpoint duration_parts (fuel : nat) (d : Z) (s : string) : option Z :=
  match s, fuel with
  | "", _ => Some d
  | _, O => None
  | _, S fuel' =>
      '(v, rest) ← duration_part s;
      let d := (d + v) mod 2 ^ 64 in
      if max_uint63 <? d then None else duration_parts fuel' d rest
  end.

Definition ParseDuration (s : string) : option Z :=
  let '(neg, body) :=
    match s with
    | String "-" r => (true, r)
    | String "+" r => (false, r)
    | _ => (false, s)
    end in
  if bool_decide (body = "0") then Some 0
  else if bool_decide (body = "") then None
  else
    d ← duration_parts (String.length body) 0 body;
    if neg : bool then Some (wrap64 (- d)) else if max_uint63 - 1 <? d then None else Some d.

Example Duration_String_ex :
  Duration_String (90 * minute + 500 * millisecond) = "1h30m0.5s" /\
  Duration_String (1500 * microsecond) = "1.5ms" /\ Duration_String min_int64 = "-2562047h47m16.854775808s".
Proof. by vm_compute. Qed.

Example ParseDuration_ex :
  ParseDuration "1.5h" = Some (90 * minute) /\ ParseDuration "-250ms" = Some (- 250 * millisecond) /\
  ParseDuration "1m.s" = None /\ ParseDuration "2562047h47m16.854775808s" = None.
Proof. by vm_compute. Qed.

(** ** Exact floats *)

Lemma Qfloor_int q n : (q == inject_Z n)%Q -> Qfloor q = n.
Proof. intros ->. apply Qfloor_Z. Qed.

Lemma rne_int q n : (q == inject_Z n)%Q -> rne q = n.
Proof.
  intros Hq. unfold rne. rewrite (Qfloor_int q n Hq).
  destruct (Qcompare_spec (q - inject_Z n) (1 # 2)) as [H|H|H]; [rewrite Hq in H; lra | done | rewrite Hq in H; lra].
Qed.

Lemma lg_lt q k : ~ (q == 0)%Q -> (Qabs q < 2 ^ k)%Q -> lg q < k.
Proof.
  intros Hq Hk. pose proof (lg_le q Hq) as Hl. destruct (Z.lt_ge_cases (lg q) k) as [|H]; [done|].
  pose proof (pow2_mono k (lg q) H). lra.
Qed.

(** Integers below 2^53 are doubles. *)
Lemma rnd_int q n : (q == inject_Z n)%Q -> Z.abs n < 2 ^ 53 -> (rnd q == q)%Q.
Proof.
  intros Hq Hn. unfold rnd. destruct (Qeq_bool q 0) eqn:E0; [by apply Qeq_bool_iff in E0; rewrite E0|].
  assert (~ (q == 0)%Q) as Hne by (intros H; apply Qeq_bool_iff in H; congruence).
  assert (lg q < 53) as Hlg.
  { apply lg_lt; [done|]. rewrite Hq. change (2 ^ 53)%Q with (inject_Z (2 ^ 53)). change (Qabs (inject_Z n)) with (inject_Z (Z.abs n)).
    by rewrite <- Zlt_Qlt. }
  cbn zeta. set (e := Z.max (-1074) (lg q - 52)). assert (e <= 0) as He by lia.
  assert (q / 2 ^ e == inject_Z (n * 2 ^ (- e)))%Q as Hd.
  { rewrite inject_Z_mult, <- pow2_nonneg_Z, <- Hq by lia. unfold Qdiv. by rewrite Qpower_opp. }
  rewrite (rne_int _ _ Hd), Qred_correct, <- Hd. field. pose proof (pow2_pos e). lra.
Qed.

Lemma trunc_int q n : (q == inject_Z n)%Q -> trunc q = n.
Proof.
  destruct q as [a d]. unfold Qeq, inject_Z, trunc. cbn [Qnum Qden]. intros H.
  rewrite Z.mul_1_r in H. rewrite H. apply Z.quot_mul. lia.
Qed.

(** A fraction of a unit that is a power of ten is exact. *)
Lemma fraction_exact g (k n : nat) :
  (k <= n)%nat -> (n <= 9)%nat -> 0 <= g -> g * 10 ^ Z.of_nat (n - k) < 10 ^ Z.of_nat n ->
  fraction_of g (10 ^ Z.of_nat n) (10 ^ Z.of_nat k) = g * 10 ^ Z.of_nat (n - k).
Proof.
  intros Hk Hn Hg Hlt. pose proof (pow10_pos k) as Hk0. pose proof (pow10_pos (n - k)) as Hd0.
  assert (10 ^ Z.of_nat n <= 10 ^ 9) as H9 by (apply Z.pow_le_mono_r; lia).
  assert (10 ^ Z.of_nat n = 10 ^ Z.of_nat (n - k) * 10 ^ Z.of_nat k) as En
    by (rewrite <- Z.pow_add_r by lia; f_equal; lia).
  assert (inject_Z (10 ^ Z.of_nat n) / inject_Z (10 ^ Z.of_nat k) == inject_Z (10 ^ Z.of_nat (n - k)))%Q as Hu.
  { rewrite En, inject_Z_mult. field. intros H. change 0%Q with (inject_Z 0) in H. rewrite inject_Z_injective in H. lia. }
  unfold fraction_of. apply trunc_int.
  assert (g < 10 ^ 9) by nia. assert (10 ^ Z.of_nat (n - k) < 2 ^ 53) by nia.
  pose proof (rnd_int (inject_Z g) g (Qeq_refl _) ltac:(lia)) as E1.
  pose proof (rnd_int _ _ Hu ltac:(lia)) as E2.
  assert (rnd (inject_Z g) * rnd (inject_Z (10 ^ Z.of_nat n) / inject_Z (10 ^ Z.of_nat k)) ==
    inject_Z (g * 10 ^ Z.of_nat (n - k)))%Q as Hp by (rewrite E1, E2, Hu, inject_Z_mult; reflexivity).
  rewrite (rnd_int _ _ Hp ltac:(lia)). exact Hp.
Qed.

(** ** Round trip *)

(** The value of digits read after [acc]. *)
Fixpoint dval (acc : Z) (d : uint) : Z :=
  match d with
  | Nil => acc
  | D0 d => dval (acc * 10) d | D1 d => dval (acc * 10 + 1) d | D2 d => dval (acc * 10 + 2) d
  | D3 d => dval (acc * 10 + 3) d | D4 d => dval (acc * 10 + 4) d | D5 d => dval (acc * 10 + 5) d
  | D6 d => dval (acc * 10 + 6) d | D7 d => dval (acc * 10 + 7) d | D8 d => dval (acc * 10 + 8) d
  | D9 d => dval (acc * 10 + 9) d
  end.

Lemma dval_acc d : forall acc, dval (Zpos acc) d = Zpos (Pos.of_uint_acc d acc).
Proof. induction d; intros acc; [done|..]; cbn [dval Pos.of_uint_acc]; rewrite <- IHd; f_equal; lia. Qed.

Lemma dval_uint d : dval 0 d = Z.of_uint d.
Proof. induction d; [done | exact IHd |..]; unfold Z.of_uint; cbn [dval Pos.of_uint Z.of_N]; rewrite <- dval_acc; reflexivity. Qed.

Lemma dval_le d : forall acc, 0 <= acc -> acc <= dval acc d.
Proof.
  induction d; intros acc Ha; cbn [dval]; [lia|..];
    match goal with |- _ <= dval ?a _ => specialize (IHd a); lia end.
Qed.

Lemma leadingInt_uint d rest : forall acc,
  0 <= acc -> dval acc d <= max_uint63 -> no_digit rest ->
  leadingInt acc (NilEmpty.string_of_uint d +:+ rest) = Some (dval acc d, rest).
Proof.
  induction d; intros acc Ha Hd Hrest; cbn [NilEmpty.string_of_uint dval] in *.
  { rewrite str_app_nil_l. destruct rest as [|c r]; [done|]. cbn [leadingInt]. by rewrite Hrest. }
  all: rewrite str_app_cons; cbn [leadingInt];
    match goal with |- context [digit_val ?c] => let v := eval vm_compute in (digit_val c) in change (digit_val c) with v end;
    cbv iota beta;
    match type of Hd with dval ?a _ <= _ => pose proof (dval_le d a ltac:(lia)) end;
    unfold max_uint63 in *;
    rewrite (proj2 (Z.ltb_ge _ _)) by (Z.div_mod_to_equations; lia);
    rewrite (proj2 (Z.ltb_ge _ _)) by lia; rewrite <- IHd by (done || lia); do 2 f_equal; lia.
Qed.

Lemma leadingInt_Itoa z rest :
  0 <= z <= max_uint63 -> no_digit rest -> leadingInt 0 (Itoa z +:+ rest) = Some (z, rest).
Proof.
  intros Hz Hrest. unfold Itoa. destruct z as [|p|p]; [| |lia].
  - apply (leadingInt_uint (D0 Nil) rest 0); [done | by vm_compute | done].
  - assert (Z.of_uint (Pos.to_uint p) = Zpos p) as Ev by (unfold Z.of_uint; by rewrite DecimalPos.Unsigned.of_to).
    pose proof (to_uint_not_nil p) as Hn. cbn [Z.to_int NilZero.string_of_int].
    assert (NilZero.string_of_uint (Pos.to_uint p) = NilEmpty.string_of_uint (Pos.to_uint p)) as -> by (by destruct (Pos.to_uint p)).
    rewrite leadingInt_uint; rewrite ?dval_uint, ?Ev; by try lia.
Qed.

Lemma leadingFraction_stop f scale rest : no_digit rest -> leadingFraction f scale false rest = (f, scale, rest).
Proof. destruct rest as [|c r]; [done|]. cbn. by intros ->. Qed.

Lemma leadingFraction_pad n rest : forall z f scale,
  0 <= z < 10 ^ Z.of_nat n -> 0 <= f -> (f + 1) * 10 ^ Z.of_nat n <= 10 ^ 18 -> no_digit rest ->
  exists k g, (k <= n)%nat /\ 0 <= g /\ z = g * 10 ^ Z.of_nat (n - k) /\
    leadingFraction f scale false (strip_zeros (pad n z) +:+ rest) =
      (f * 10 ^ Z.of_nat k + g, scale * 10 ^ Z.of_nat k, rest).
Proof.
  induction n as [|n IH]; intros z f scale Hz Hf Hb Hrest.
  { exists 0%nat, 0. change (10 ^ Z.of_nat 0) with 1 in *. rewrite str_app_nil_l, leadingFraction_stop by done.
    split_and!; [lia | lia | lia | f_equal; f_equal; lia]. }
  destruct (pad_head n z Hz) as (Hq & Hr & Hm & Heq). cbn [pad strip_zeros]. rewrite Hm.
  set (q := z / 10 ^ Z.of_nat n) in *. set (r := z mod 10 ^ Z.of_nat n) in *. rewrite pow10_S in Hb.
  assert (forall t, leadingFraction f scale false (String (digit q) t) =
    leadingFraction (f * 10 + q) (scale * 10) false t) as Hstep.
  { intros t. cbn [leadingFraction]. rewrite digit_val_digit by done. unfold max_uint63.
    pose proof (pow10_pos n). assert (f + 1 <= 10 ^ 17) by nia.
    change ((2 ^ 63 - 1) / 10) with 922337203685477580. change (10 ^ 17) with 100000000000000000 in *.
    rewrite (proj2 (Z.ltb_ge _ _)) by lia. change (2 ^ 63) with 9223372036854775808.
    by rewrite (proj2 (Z.ltb_ge _ _)) by lia. }
  destruct (IH r (f * 10 + q) (scale * 10) Hr ltac:(lia) ltac:(nia) Hrest) as (k & g & Hk & Hg & Hrg & Hl).
  destruct (strip_zeros (pad n r)) as [|c t] eqn:Es.
  - apply strip_pad_nil in Es; [|done]. case_bool_decide as H0.
    + assert (q = 0) as Hq0.
      { apply (f_equal digit_val) in H0. rewrite digit_val_digit in H0 by done. by injection H0. }
      exists 0%nat, 0. rewrite str_app_nil_l, leadingFraction_stop by done. change (10 ^ Z.of_nat 0) with 1.
      split_and!; [lia | lia | lia | f_equal; f_equal; lia].
    + exists 1%nat, q. rewrite str_app_cons, str_app_nil_l, Hstep, leadingFraction_stop by done.
      change (10 ^ Z.of_nat 1) with 10. replace (S n - 1)%nat with n by lia. split_and!; [lia | lia | lia | done].
  - exists (S k), (q * 10 ^ Z.of_nat k + g). rewrite str_app_cons, Hstep, Hl, !pow10_S.
    replace (S n - S k)%nat with (n - k)%nat by lia. pose proof (pow10_pos k).
    assert (10 ^ Z.of_nat n = 10 ^ Z.of_nat k * 10 ^ Z.of_nat (n - k)) as En
      by (rewrite <- Z.pow_add_r by lia; f_equal; lia).
    split_and!; [lia | nia | nia | f_equal; f_equal; lia].
Qed.

(** What may follow a number with its unit: another number, or nothing. *)
Definition part_end (s : string) : Prop :=
  match s with "" => True | String c _ => is_Some (digit_val c) end.

Lemma unit_text_app u rest :
  unit_text u = (u, "") -> part_end rest -> unit_text (u +:+ rest) = (u, rest).
Proof.
  intros Hu Hrest. induction u as [|c u IH].
  - rewrite str_app_nil_l. destruct rest as [|c r]; [done|]. cbn. destruct Hrest as [d Hd].
    rewrite Hd. by destruct (bool_decide _).
  - rewrite str_app_cons. cbn in Hu |- *. destruct (bool_decide _); [done|]. destruct (digit_val c); [done|].
    destruct (unit_text u) as [u' t'] eqn:Eu. injection Hu as -> ->. by rewrite IH.
Qed.

Lemma Itoa_digit z : 0 <= z -> exists c r, Itoa z = String c r /\ is_Some (digit_val c).
Proof.
  intros Hz. unfold Itoa. destruct z as [|p|p]; [by eexists _, _ | | lia]. cbn [Z.to_int NilZero.string_of_int].
  pose proof (to_uint_not_nil p) as Hn. destruct (Pos.to_uint p); [done|..]; eexists _, _; (split; [reflexivity|]); eauto.
Qed.

Lemma part_end_Itoa z rest : 0 <= z -> part_end (Itoa z +:+ rest).
Proof. intros Hz. by destruct (Itoa_digit z Hz) as (c & r & -> & Hd). Qed.

(** A number with its unit is read as printed. *)
Lemma duration_part_text v u (n : nat) us unit rest :
  0 <= v -> (n <= 9)%nat -> unit_of us = Some unit -> unit_text us = (us, "") -> no_digit us ->
  (exists c r, us = String c r /\ c <> "."%char) ->
  (u mod 10 ^ Z.of_nat n = 0 \/ unit = 10 ^ Z.of_nat n) -> 0 < unit ->
  v * unit + u mod 10 ^ Z.of_nat n <= max_uint63 -> part_end rest ->
  duration_part (Itoa v +:+ frac_text n u +:+ us +:+ rest) = Some (v * unit + u mod 10 ^ Z.of_nat n, rest).
Proof.
  intros Hv Hn Hunit Hut Hnd (uc & ur & Eus & Hdot) Hor Hpos Hb Hrest.
  pose proof (pow10_pos n) as Hp. pose proof (Z.mod_pos_bound u (10 ^ Z.of_nat n) Hp) as Hf.
  set (f := u mod 10 ^ Z.of_nat n) in *.
  assert (no_digit (frac_text n u +:+ us +:+ rest)) as Hnd1.
  { unfold frac_text. fold f. destruct (f =? 0); [|done]. by rewrite Eus in Hnd |- *. }
  destruct (Itoa_digit v Hv) as (c & r & Ec & Hc).
  assert (exists t, Itoa v +:+ frac_text n u +:+ us +:+ rest = String c t) as [t Et] by (rewrite Ec; eauto).
  unfold duration_part. rewrite Et. rewrite <- Et. rewrite (bool_decide_eq_true_2 _ Hc), orb_true_r.
  rewrite leadingInt_Itoa by (done || unfold max_uint63 in *; nia). cbn [mbind option_bind].
  assert ((String.length (frac_text n u +:+ us +:+ rest) =? String.length (Itoa v +:+ frac_text n u +:+ us +:+ rest))%nat = false) as ->.
  { apply Nat.eqb_neq. rewrite (str_length_app (Itoa v)), Ec. simpl. lia. }
  cbn [negb andb]. unfold frac_text. fold f. destruct (Z.eqb_spec f 0) as [E0|Hf0].
  - rewrite str_app_nil_l, E0, Eus, str_app_cons, bool_decide_eq_false_2 by done.
    rewrite <- str_app_cons, <- Eus, unit_text_app by done. rewrite bool_decide_eq_false_2 by (by rewrite Eus).
    rewrite Hunit. cbn [mbind option_bind]. change (0 <? 0) with false. cbv iota.
    rewrite (proj2 (Z.ltb_ge _ _)) by (apply Z.div_le_lower_bound; lia).
    by rewrite (proj2 (Z.ltb_ge _ _)) by lia.
  - destruct Hor as [?|Eu]; [done|]. rewrite str_app_assoc, str_app_cons, str_app_nil_l.
    rewrite bool_decide_eq_true_2 by done.
    assert (no_digit (us +:+ rest)) as Hnd2 by (by rewrite Eus in Hnd |- *).
    assert ((0 + 1) * 10 ^ Z.of_nat n <= 10 ^ 18) as H18.
    { rewrite Z.mul_1_l. apply Z.pow_le_mono_r; lia. }
    destruct (leadingFraction_pad n (us +:+ rest) f 0 1 Hf ltac:(lia) H18 Hnd2) as (k & g & Hk & Hg & Efg & ->).
    rewrite unit_text_app by done. rewrite bool_decide_eq_false_2 by (by rewrite Eus).
    rewrite Hunit. cbn [mbind option_bind]. rewrite Z.mul_0_l, Z.add_0_l, Z.mul_1_l.
    rewrite (proj2 (Z.ltb_ge (max_uint63 / unit) v)) by (apply Z.div_le_lower_bound; lia).
    assert (0 < g) by nia. rewrite (proj2 (Z.ltb_lt 0 g)) by done.
    rewrite Eu, fraction_exact, <- Efg by (done || lia). rewrite <- Eu.
    by rewrite (proj2 (Z.ltb_ge _ _)) by lia.
Qed.

Lemma duration_parts_step fuel d s v rest :
  (exists c t, s = String c t) -> duration_part s = Some (v, rest) -> 0 <= d -> 0 <= v -> d + v <= max_uint63 ->
  duration_parts (S fuel) d s = duration_parts fuel (d + v) rest.
Proof.
  intros (c & t & Es) Hp Hd Hv Hb. cbn [duration_parts]. rewrite Es. rewrite <- Es, Hp. cbn [mbind option_bind].
  unfold max_uint63 in *. rewrite Z.mod_small by lia. by rewrite (proj2 (Z.ltb_ge _ _)) by lia.
Qed.

Lemma parts_text fuel d v u (n : nat) us unit rest :
  0 <= v -> 0 <= d -> (n <= 9)%nat -> unit_of us = Some unit -> unit_text us = (us, "") -> no_digit us ->
  (exists c r, us = String c r /\ c <> "."%char) ->
  (u mod 10 ^ Z.of_nat n = 0 \/ unit = 10 ^ Z.of_nat n) -> 0 < unit ->
  d + (v * unit + u mod 10 ^ Z.of_nat n) <= max_uint63 -> part_end rest ->
  duration_parts (S fuel) d (Itoa v +:+ frac_text n u +:+ us +:+ rest) =
  duration_parts fuel (d + (v * unit + u mod 10 ^ Z.of_nat n)) rest.
Proof.
  intros Hv Hd. intros. pose proof (Z.mod_pos_bound u (10 ^ Z.of_nat n) (pow10_pos n)).
  apply duration_parts_step; [| by apply duration_part_text; try lia | done | nia | done].
  destruct (Itoa_digit v Hv) as (c & r & -> & _). eauto.
Qed.

(** A number with the unit [us], with no fraction. *)
Lemma parts_whole fuel d v us unit rest :
  0 <= v -> 0 <= d -> unit_of us = Some unit -> unit_text us = (us, "") -> no_digit us ->
  (exists c r, us = String c r /\ c <> "."%char) -> 0 < unit -> d + v * unit <= max_uint63 -> part_end rest ->
  duration_parts (S fuel) d (Itoa v +:+ us +:+ rest) = duration_parts fuel (d + v * unit) rest.
Proof.
  intros. change (Itoa v +:+ us +:+ rest) with (Itoa v +:+ frac_text 0 0 +:+ us +:+ rest).
  rewrite (parts_text fuel d v 0 0 us unit rest); try done; [|lia|by left|].
  - f_equal. change (0 mod 10 ^ Z.of_nat 0) with 0. lia.
  - change (0 mod 10 ^ Z.of_nat 0) with 0. lia.
Qed.

Ltac unit_side := first [done | reflexivity | eexists _, _; split; [reflexivity | discriminate]].

Lemma length_Itoa z : 0 <= z -> (0 < String.length (Itoa z))%nat.
Proof. intros Hz. destruct (Itoa_digit z Hz) as (c & r & -> & _). simpl. lia. Qed.

Lemma small_duration_parts u fuel :
  0 < u < second -> (0 < fuel)%nat -> duration_parts fuel 0 (small_duration u) = Some u.
Proof.
  intros Hu Hf. destruct fuel as [|fuel]; [lia|]. unfold small_duration, second in *.
  rewrite (proj2 (Z.eqb_neq u 0)) by lia.
  assert (forall n us unit, (n <= 9)%nat -> unit = 10 ^ Z.of_nat n -> unit_of us = Some unit ->
    unit_text us = (us, "") -> no_digit us -> (exists c r, us = String c r /\ c <> "."%char) ->
    duration_parts (S fuel) 0 (Itoa (u / unit) +:+ frac_text n u +:+ us) = Some u) as Hpart.
  { intros n us unit Hn Eu Hof Htx Hnd Hdot. pose proof (pow10_pos n). rewrite <- Eu in *.
    pose proof (Z.div_mod u unit ltac:(lia)). pose proof (Z.div_pos u unit ltac:(lia) ltac:(lia)).
    rewrite <- (str_app_nil_r us), (parts_text fuel 0 (u / unit) u n us unit ""); rewrite <- ?Eu; try done.
    - destruct fuel; cbn; f_equal; lia.
    - by right.
    - unfold max_uint63. lia. }
  destruct (Z.ltb_spec u microsecond) as [H1|H1].
  - assert (frac_text 0 u = "") as E0.
    { unfold frac_text. change (10 ^ Z.of_nat 0) with 1. by rewrite Z.mod_1_r. }
    pose proof (Hpart 0%nat "ns" 1 ltac:(lia) eq_refl eq_refl eq_refl eq_refl ltac:(unit_side)) as H.
    rewrite E0, Z.div_1_r in H. exact H.
  - destruct (Z.ltb_spec u millisecond) as [H2|H2].
    + apply (Hpart 3%nat micro microsecond); by (lia || unit_side).
    + apply (Hpart 6%nat "ms" millisecond); by (lia || unit_side).
Qed.

Lemma large_duration_parts u fuel :
  second <= u <= max_uint63 -> (String.length (large_duration u) <= fuel)%nat ->
  duration_parts fuel 0 (large_duration u) = Some u.
Proof.
  intros Hu. unfold large_duration. unfold max_uint63 in Hu.
  set (s := u / second). set (m := s / 60). set (h := m / 60).
  pose proof (Z.div_mod u second ltac:(done)) as E1. pose proof (Z.mod_pos_bound u second ltac:(done)) as Hf1.
  pose proof (Z.div_mod s 60 ltac:(done)) as E2. pose proof (Z.mod_pos_bound s 60 ltac:(done)) as Hs.
  pose proof (Z.div_mod m 60 ltac:(done)) as E3. pose proof (Z.mod_pos_bound m 60 ltac:(done)) as Hm.
  assert (0 <= s) as Hs0 by (apply Z.div_pos; [unfold second in *; lia | done]).
  assert (0 <= m) as Hm0 by (apply Z.div_pos; lia). assert (0 <= h) as Hh0 by (apply Z.div_pos; lia).
  fold s in E1. fold m in E2. fold h in E3.
  assert (u = h * hour + (m mod 60) * minute + (s mod 60) * second + u mod second) as Eu.
  { unfold hour, minute. nia. }
  set (tail := Itoa (s mod 60) +:+ frac_text 9 u +:+ "s").
  assert (forall fl d, 0 <= d -> d + (s mod 60 * second + u mod second) <= 2 ^ 63 -> (0 < fl)%nat ->
    duration_parts fl d tail = Some (d + (s mod 60 * second + u mod second))) as Htail.
  { intros [|fl] d Hd Hb Hfl; [lia|]. unfold tail. rewrite <- (str_app_nil_r "s").
    rewrite (parts_text fl d (s mod 60) u 9 "s" second ""); try unit_side; try lia; [by destruct fl | by right]. }
  assert (part_end tail) as Ht by (apply part_end_Itoa; lia).
  assert (0 < String.length tail)%nat as Hlt.
  { unfold tail. rewrite str_length_app. pose proof (length_Itoa (s mod 60)). lia. }
  assert (0 < hour /\ 0 < minute /\ 0 < second) as (Hh1 & Hm1 & Hs1) by done.
  destruct (Z.ltb_spec 0 m) as [Hmp|Hmz].
  - assert (forall fl d, 0 <= d -> d + (u - h * hour) <= 2 ^ 63 -> (1 < fl)%nat ->
      duration_parts fl d (Itoa (m mod 60) +:+ "m" +:+ tail) = Some (d + (u - h * hour))) as Hmin.
    { intros [|fl] d Hd Hb Hfl; [lia|].
      rewrite (parts_whole fl d (m mod 60) "m" minute tail); try unit_side; [|lia|unfold max_uint63; nia].
      rewrite Htail by (try lia; nia). f_equal. lia. }
    pose proof (length_Itoa (m mod 60) ltac:(lia)) as Hl1.
    destruct (Z.ltb_spec 0 h) as [Hhp|Hhz]; rewrite !str_app_assoc; rewrite !str_length_app; intros Hf.
    + pose proof (length_Itoa h ltac:(lia)) as Hl2. destruct fuel as [|fuel]; [lia|].
      rewrite (parts_whole fuel 0 h "h" hour); try unit_side; [| unfold max_uint63; nia | apply part_end_Itoa; lia].
      rewrite Hmin by (try nia; simpl in *; lia). f_equal. lia.
    + rewrite str_app_nil_l, Hmin by (try lia; simpl in *; lia). f_equal. lia.
  - rewrite (proj2 (Z.ltb_ge 0 h)) by lia. rewrite !str_app_nil_l. intros Hf.
    rewrite Htail by (try lia; nia). f_equal. assert (m = 0 /\ h = 0) as [Ez1 Ez2] by lia. rewrite Ez1 in *. lia.
Qed.

(** The text of a duration without its sign starts with a digit and is not "0". *)
Lemma duration_body u :
  0 <= u -> let s := if u <? second then small_duration u else large_duration u in
  (exists c r, s = String c r /\ is_Some (digit_val c)) /\ s <> "0".
Proof.
  intros Hu s. assert (forall z t, 0 <= z -> (0 < String.length t)%nat ->
    (exists c r, Itoa z +:+ t = String c r /\ is_Some (digit_val c)) /\ Itoa z +:+ t <> "0") as Hz.
  { intros z t H0 Ht. destruct (Itoa_digit z H0) as (c & r & Ec & Hc). split; [rewrite Ec; eauto|].
    intros E. apply (f_equal String.length) in E. rewrite str_length_app in E. pose proof (length_Itoa z H0). simpl in E. lia. }
  unfold s, small_duration, large_duration. destruct (_ <? second).
  - destruct (Z.eqb_spec u 0); [split; [eexists _, _; split; [reflexivity|]; eauto | done]|].
    destruct (_ <? microsecond); [by apply Hz; [|simpl; lia]|].
    destruct (_ <? millisecond); (apply Hz; [by apply Z.div_pos | rewrite str_length_app; simpl; lia]).
  - pose proof (Z.div_pos u second Hu ltac:(done)) as H0.
    pose proof (Z.div_pos (u / second) 60 H0 ltac:(done)) as H1.
    destruct (0 <? u / second / 60 / 60); rewrite ?str_app_assoc.
    { apply Hz; [apply Z.div_pos; lia | simpl; lia]. }
    rewrite str_app_nil_l. destruct (0 <? u / second / 60); rewrite ?str_app_assoc, ?str_app_nil_l.
    { apply Hz; [apply Z.mod_pos_bound; lia | simpl; lia]. }
    apply Hz; [apply Z.mod_pos_bound; lia|]. rewrite str_length_app. simpl. lia.
Qed.

(** A duration printed and parsed is the same, for every int64. *)
Theorem ParseDuration_String d : int64_ok d -> ParseDuration (Duration_String d) = Some d.
Proof.
  intros Hd. unfold int64_ok, min_int64, max_int64 in Hd. unfold Duration_String. set (u := Z.abs d).
  set (body := if u <? second then small_duration u else large_duration u).
  destruct (duration_body u ltac:(lia)) as [(c & r & Eb & [v Hv]) Hne0]. fold body in Eb, Hne0.
  assert (0 < String.length body)%nat as Hlen by (rewrite Eb; simpl; lia).
  assert (duration_parts (String.length body) 0 body = Some u) as Hp.
  { clear Eb. unfold body in *. destruct (Z.ltb_spec u second) as [Hlt|Hge].
    - destruct (decide (u = 0)) as [->|Hu]; [reflexivity|]. apply small_duration_parts; [lia | done].
    - apply large_duration_parts; [unfold max_uint63; lia | done]. }
  assert (body <> "") as Hne by (by rewrite Eb).
  destruct (Z.ltb_spec d 0) as [Hneg|Hpos].
  - unfold ParseDuration. change ("-" +:+ body) with (String "-" body). cbv iota beta.
    rewrite !bool_decide_eq_false_2 by done. rewrite Hp. cbn [mbind option_bind]. f_equal.
    replace (- u) with d by lia. by apply wrap64_id.
  - rewrite str_app_nil_l. unfold ParseDuration.
    assert ((match body with String "-" r => (true, r) | String "+" r => (false, r) | _ => (false, body) end) = (false, body)) as ->.
    { rewrite Eb. destruct c as [[] [] [] [] [] [] [] []]; try done; vm_compute in Hv; discriminate Hv. }
    rewrite !bool_decide_eq_false_2 by done. rewrite Hp. cbn [mbind option_bind].
    rewrite (proj2 (Z.ltb_ge _ _)) by (unfold max_uint63; lia). f_equal. lia.
Qed.
