(* ===== verification/GoFloat.v ===== *)
(** * Floats as text

    [strconv.ParseFloat] on decimal text, [strconv.FormatFloat] with the fewest
    digits ('f' and 'g', -1) and the verb [%.nf], on the doubles of [Retry]. The
    hexadecimal syntax and digit separators are left out, and negative zero is zero. *)

From S2P Require Import Prelude GoNum GoTime Errors Job Retry GoDuration.
From Stdlib Require Import Ascii String Decimal DecimalString QArith Qround Qpower Qabs Lqa Znumtheory Zpow_facts.
From stdpp Require Import strings.

Open Scope Z_scope.

(** ** Decimals *)

(** The number [m * 10^e]. *)
Definition dec_value (m e : Z) : Q := (inject_Z m * 10 ^ e)%Q.

(** Digits read after [acc], and how many. *)
Fixpoint span_val (acc n : Z) (s : string) : Z * Z * string :=
  match s with
  | "" => (acc, n, "")
  | String c r =>
      match digit_val c with
      | Some d => span_val (acc * 10 + d) (n + 1) r
      | None => (acc, n, s)
      end
  end.

Definition split_sign (s : string) : bool * string :=
  match s with
  | String c r =>
      if bool_decide (c = "-"%char) then (true, r) else if bool_decide (c = "+"%char) then (false, r) else (false, s)
  | "" => (false, s)
  end.

(** Digits with an optional point. *)
Definition read_mantissa (s : string) : option (Z * Z * string) :=
  let '(a, n1, s1) := span_val 0 0 s in
  let '(m, n2, s2) :=
    match s1 with
    | String p r => if bool_decide (p = "."%char) then span_val a 0 r else (a, 0, s1)
    | "" => (a, 0, s1)
    end in
  if n1 + n2 =? 0 then None else Some (m, - n2, s2).

(** An optional exponent, up to the end of the text. Go stops counting at 10000. *)
Definition read_exponent (s : string) : option Z :=
  match s with
  | "" => Some 0
  | String c r =>
      if bool_decide (c = "e"%char) || bool_decide (c = "E"%char) then
        let '(neg, digits) := split_sign r in
        let '(e, n, rest) := span_val 0 0 digits in
        if (n =? 0) || negb (bool_decide (rest = "")) then None
        else Some (let e := Z.min e 99999 in if neg : bool then - e else e)
      else None
  end.

Fixpoint lower_text (s : string) : string :=
  match s with
  | "" => ""
  | String c r =>
      let n := N_of_ascii c in
      String (if ((65 <=? n) && (n <=? 90))%N then ascii_of_N (n + 32) else c) (lower_text r)
  end.

(** [None] also when the value is out of range. *)
Definition ParseFloat (s : string) : option float64 :=
  let '(neg, body) := split_sign s in
  if bool_decide (lower_text body = "inf") || bool_decide (lower_text body = "infinity") then Some (F_inf neg)
  else if bool_decide (lower_text s = "nan") then Some F_nan
  else
    '(m, e1, rest) ← read_mantissa body;
    e2 ← read_exponent rest;
    let q := rnd (dec_value m (e1 + e2)) in
    if Qle_bool (2 ^ 1024) q then None else Some (F_fin (if neg : bool then Qred (- q) else q)).

(** ** The fewest digits *)

(** The decimal exponent: 10^k <= x < 10^(k+1), for x > 0. *)
Fixpoint small_exp (fuel : nat) (x : Q) (k : Z) : Z :=
  match fuel with
  | O => k
  | S fuel' => if Qle_bool 1 x then k else small_exp fuel' (x * 10)%Q (k - 1)
  end.

Definition dec_exp (x : Q) : Z :=
  if Qle_bool 1 x then Z.of_nat (String.length (Itoa (Qfloor x))) - 1 else small_exp 400 x 0.

Definition reads_back (x : Q) (e m : Z) : bool := Qeq_bool (rnd (dec_value m e)) x.

(** The [p]-digit decimals around [x] that read back as [x], the closest first. *)
Definition try_digits (x : Q) (k : Z) (p : Z) : option (Z * Z) :=
  let e := k + 1 - p in
  let lo := Qfloor (x / 10 ^ e) in
  match reads_back x e lo, reads_back x e (lo + 1) with
  | true, true => Some (rne (x / 10 ^ e), e)
  | true, false => Some (lo, e)
  | false, true => Some (lo + 1, e)
  | false, false => None
  end.

(** The exact expansion of a fraction whose denominator is a power of two. *)
Definition exact_digits (x : Q) : Z * Z :=
  let j := Z.log2 (Zpos (Qden x)) in (Qnum x * 5 ^ j, - j).

Fixpoint shortest_from (x : Q) (k : Z) (ps : list Z) : Z * Z :=
  match ps with
  | [] => exact_digits x
  | p :: ps' => match try_digits x k p with Some d => d | None => shortest_from x k ps' end
  end.

(** Seventeen digits always do. *)
Definition shortest (x : Q) : Z * Z := shortest_from x (dec_exp x) (Z.of_nat <$> seq 1 17).

(** ** Formatting *)

Definition dec_f (m e : Z) : string :=
  if 0 <=? e then Itoa (m * 10 ^ e)
  else Itoa (m / 10 ^ (- e)) +:+ "." +:+ pad (Z.to_nat (- e)) (m mod 10 ^ (- e)).

(** Digits with a point after the first, and at least two digits of exponent. *)
Definition dec_e (m e : Z) : string :=
  let digits := Itoa m in
  let x := e + Z.of_nat (String.length digits) - 1 in
  match digits with
  | "" => ""
  | String c r =>
      String c (if bool_decide (r = "") then "" else "." +:+ r) +:+ "e" +:+ (if x <? 0 then "-" else "+") +:+
      (if Z.abs x <? 10 then "0" else "") +:+ Itoa (Z.abs x)
  end.

Definition signed (text : Q -> string) (f : float64) : string :=
  match f with
  | F_nan => "NaN"
  | F_inf neg => if neg then "-Inf" else "+Inf"
  | F_fin q => if Qle_bool 0 q then text q else "-" +:+ text (Qred (- q))
  end.

(** [strconv.FormatFloat(x, 'f', -1, 64)]. *)
Definition FormatFloat_f : float64 -> string :=
  signed (fun x => if Qeq_bool x 0 then "0" else let '(m, e) := shortest x in dec_f m e).

(** [strconv.FormatFloat(x, 'g', -1, 64)], which is what [%v] prints. *)
Definition FormatFloat_g : float64 -> string :=
  signed (fun x =>
    if Qeq_bool x 0 then "0" else
    let '(m, e) := shortest x in
    let exp := e + Z.of_nat (String.length (Itoa m)) - 1 in
    if (exp <? -4) || (6 <=? exp) then dec_e m e else dec_f m e).

(** The verb [%.nf]: [n] decimals, correctly rounded. *)
Definition fmt_fixed (n : nat) : float64 -> string :=
  signed (fun x =>
    let r := rne (x * 10 ^ Z.of_nat n) in
    Itoa (r / 10 ^ Z.of_nat n) +:+
    (if (0 <? n)%nat then "." +:+ pad n (r mod 10 ^ Z.of_nat n) else "")).

Definition f64 (q : Q) : float64 := F_fin (rnd q).

Example FormatFloat_ex :
  FormatFloat_f (f64 (1 # 10)) = "0.1" /\ FormatFloat_f (f64 (1 # 3)) = "0.3333333333333333" /\
  FormatFloat_g (f64 1500000) = "1.5e+06" /\ FormatFloat_g (f64 (-25 # 100)) = "-0.25" /\
  FormatFloat_f (f64 (2 ^ 70)) = "1180591620717411300000" /\ FormatFloat_g (f64 (1 # 100000)) = "1e-05" /\
  fmt_fixed 1 (f64 (1234 # 1000)) = "1.2" /\ fmt_fixed 0 (f64 (5 # 2)) = "2".
Proof. by vm_compute. Qed.

Example ParseFloat_ex :
  ParseFloat "0.1" = Some (f64 (1 # 10)) /\ ParseFloat "-2.5e-1" = Some (f64 (-1 # 4)) /\
  ParseFloat "1e400" = None /\ ParseFloat "." = None /\ ParseFloat "+Inf" = Some (F_inf false).
Proof. by vm_compute. Qed.

(** ** Rounding respects equality of rationals *)

Lemma lg_ub q : ~ (q == 0)%Q -> (Qabs q < 2 ^ (lg q + 1))%Q.
Proof.
  intros Hq. destruct q as [n d]. unfold lg. cbn [Qnum Qden]. change (Qabs (n # d)) with (Z.abs n # d).
  assert (0 < Z.abs n) as Hn.
  { destruct (decide (n = 0)) as [->|]; [|lia]. by destruct Hq. }
  pose proof (Z.log2_spec _ Hn) as [_ Hhi]. pose proof (Z.log2_spec (Zpos d) ltac:(lia)) as [Hlo _].
  set (a := Z.log2 (Z.abs n)) in *. set (b := Z.log2 (Zpos d)) in *.
  assert (0 <= a) by apply Z.log2_nonneg. assert (0 <= b) by apply Z.log2_nonneg.
  destruct (Qle_bool _ _) eqn:E.
  - replace (a - b + 1) with (Z.succ a - b) by lia. rewrite Qpower_minus by lra. rewrite !pow2_nonneg_Z by lia.
    assert (0 < 2 ^ b) by (apply Z.pow_pos_nonneg; lia).
    apply Qlt_shift_div_l; [by rewrite <- (Zlt_Qlt 0)|].
    unfold Qlt, Qmult, inject_Z. cbn [Qnum Qden]. rewrite Pos.mul_1_r, Z.mul_1_r. nia.
  - replace (a - b - 1 + 1) with (a - b) by lia. apply Qnot_le_lt. intros Hle. apply Qle_bool_iff in Hle. congruence.
Qed.

Lemma lg_comp q q' : ~ (q == 0)%Q -> (q == q')%Q -> lg q = lg q'.
Proof.
  intros Hq E. assert (~ (q' == 0)%Q) as Hq' by (by rewrite <- E).
  pose proof (lg_le q Hq) as L1. pose proof (lg_ub q Hq) as U1. pose proof (lg_le q' Hq') as L2. pose proof (lg_ub q' Hq') as U2.
  assert (Qabs q == Qabs q')%Q as Ea by (by rewrite E). rewrite Ea in L1, U1.
  assert (forall a b, (2 ^ a < 2 ^ (b + 1))%Q -> a <= b) as Hpow.
  { intros a b H. destruct (Z.le_gt_cases a b); [done|]. pose proof (pow2_mono (b + 1) a ltac:(lia)). lra. }
  apply Z.le_antisymm; apply Hpow; lra.
Qed.

Lemma rne_comp q q' : (q == q')%Q -> rne q = rne q'.
Proof.
  intros E. unfold rne. rewrite (Qfloor_comp q q' E).
  assert ((q - inject_Z (Qfloor q') ?= 1 # 2)%Q = (q' - inject_Z (Qfloor q') ?= 1 # 2)%Q) as ->
    by (apply Qcompare_comp; [by rewrite E | done]). done.
Qed.

#[export] Instance rnd_proper : Proper (Qeq ==> eq) rnd.
Proof.
  intros q q' E. unfold rnd.
  assert (Qeq_bool q 0 = Qeq_bool q' 0) as ->.
  { apply eq_bool_prop_intro. rewrite !Is_true_true, !Qeq_bool_iff. by rewrite E. }
  destruct (Qeq_bool q' 0) eqn:E0; [done|].
  assert (~ (q == 0)%Q) as Hq by (rewrite E; intros H; apply Qeq_bool_iff in H; congruence).
  cbn zeta. rewrite (lg_comp q q' Hq E). apply Qred_complete. by rewrite (rne_comp (q / _) (q' / _)) by (by rewrite E).
Qed.

Lemma Qred_int n : Qred (inject_Z n) = inject_Z n.
Proof.
  unfold Qred, inject_Z. pose proof (Z.ggcd_gcd n 1) as Hg. pose proof (Z.ggcd_correct_divisors n 1) as Hd.
  destruct (Z.ggcd n 1) as [g [a b]]. cbn in Hg. rewrite Z.gcd_1_r in Hg. subst g. destruct Hd as [-> Hb].
  rewrite Z.mul_1_l in *. by rewrite <- Hb.
Qed.

(** A double. *)
Definition is_double (x : Q) : Prop := rnd x = x.

Lemma rnd_canonical q : Qred (rnd q) = rnd q.
Proof. unfold rnd. destruct (Qeq_bool _ _); [done|]. cbn zeta. apply Qred_complete, Qred_correct. Qed.

Lemma rnd_int_double n : Z.abs n < 2 ^ 53 -> is_double (inject_Z n).
Proof.
  intros Hn. pose proof (rnd_int (inject_Z n) n (Qeq_refl _) Hn) as E. unfold is_double.
  rewrite <- rnd_canonical, (Qred_complete _ _ E). apply Qred_int.
Qed.

(** The denominator of a double is a power of two. *)
Lemma double_den x : is_double x -> exists j, 0 <= j /\ Zpos (Qden x) = 2 ^ j.
Proof.
  intros <-. unfold rnd. destruct (Qeq_bool x 0); [by exists 0|]. cbn zeta.
  set (e := Z.max (-1074) (lg x - 52)). set (n := rne (x / 2 ^ e)). generalize n. clear n. intros n.
  destruct (Z.le_gt_cases 0 e) as [He|He].
  - exists 0. split; [done|]. assert (inject_Z n * 2 ^ e == inject_Z (n * 2 ^ e))%Q as E
      by (by rewrite inject_Z_mult, pow2_nonneg_Z by lia).
    by rewrite (Qred_complete _ _ E), Qred_int.
  - assert (exists p, 2 ^ (- e) = Zpos p) as [p Ep].
    { assert (0 < 2 ^ (- e)) by (apply Z.pow_pos_nonneg; lia). destruct (2 ^ (- e)); [lia | eauto | lia]. }
    assert (inject_Z n * 2 ^ e == n # p)%Q as E.
    { replace e with (- (- e)) at 1 by lia. rewrite Qpower_opp, pow2_nonneg_Z by lia. rewrite Ep. by rewrite (Qmake_Qdiv n p). }
    rewrite (Qred_complete _ _ E). clear E.
    assert ((Zpos (Qden (Qred (n # p))) | 2 ^ (- e))) as Hd.
    { rewrite Ep. unfold Qred. pose proof (Z.ggcd_correct_divisors n (Zpos p)) as Hg.
      destruct (Z.ggcd n (Zpos p)) as [g [a b]] eqn:Eg. cbn [snd Qden]. destruct Hg as [_ Hb].
      pose proof (Z.ggcd_gcd n (Zpos p)) as Hgg. rewrite Eg in Hgg. cbn in Hgg.
      pose proof (Z.gcd_nonneg n (Zpos p)) as H0. rewrite <- Hgg in H0.
      assert (0 < b) by (apply Z.nle_gt; intros Hle; pose proof (Z.mul_nonneg_nonpos g b H0 Hle); lia). rewrite Z2Pos.id by done. by exists g. }
    destruct (Zdivide_power_2 (Zpos (Qden (Qred (n # p)))) 2 (- e) ltac:(lia) ltac:(apply Pos2Z.is_nonneg) prime_2 Hd) as [j Hj].
    exists j. split; [|done]. destruct (Z.le_gt_cases 0 j); [done|]. rewrite Z.pow_neg_r in Hj by done. lia.
Qed.

(** ** Round trip *)

Lemma exact_digits_value x : is_double x -> let '(m, e) := exact_digits x in (dec_value m e == x)%Q.
Proof.
  intros Hx. destruct (double_den x Hx) as (j & Hj & Ej). unfold exact_digits. rewrite Ej, Z.log2_pow2 by done.
  unfold dec_value. destruct x as [n d]. cbn [Qnum Qden] in *.
  assert (0 < 5 ^ j) as H5 by (apply Z.pow_pos_nonneg; lia). assert (0 < 2 ^ j) as H2 by (apply Z.pow_pos_nonneg; lia).
  assert (10 ^ j == inject_Z (10 ^ j))%Q as E10 by (by rewrite Zpower_Qpower).
  rewrite Qpower_opp, E10, (Qmake_Qdiv n d). change (inject_Z (Z.pos d)) with (inject_Z (Z.pos d)). rewrite Ej.
  change 10 with (5 * 2). rewrite Z.pow_mul_l, !inject_Z_mult. field.
  split; intros H; change 0%Q with (inject_Z 0) in H; rewrite inject_Z_injective in H; lia.
Qed.

(** What [shortest] finds reads back. *)
Lemma shortest_reads x : is_double x -> (0 < x)%Q ->
  let '(m, e) := shortest x in 0 <= m /\ rnd (dec_value m e) = x.
Proof.
  intros Hx Hpos. unfold shortest. generalize (dec_exp x). intros k.
  induction (Z.of_nat <$> seq 1 17) as [|p ps IH]; cbn [shortest_from].
  - pose proof (exact_digits_value x Hx) as He. unfold exact_digits in *. rewrite He. split; [|done].
    assert (0 <= Qnum x) by (destruct x; unfold Qlt in Hpos; simpl in *; lia).
    apply Z.mul_nonneg_nonneg; [done|]. apply Z.pow_nonneg. lia.
  - destruct (try_digits x k p) as [[m e]|] eqn:Et; [|exact IH]. unfold try_digits in Et.
    set (e0 := k + 1 - p) in *. set (lo := Qfloor (x / 10 ^ e0)) in *.
    assert (0 <= lo) as Hlo.
    { unfold lo. change 0 with (Qfloor 0). apply Qfloor_resp_le.
      apply Qle_shift_div_l; [apply Qpower_0_lt; lra|]. lra. }
    assert (forall n, reads_back x e0 n = true -> rnd (dec_value n e0) = x) as Hr.
    { intros n Hn. apply Qeq_bool_iff in Hn.
      rewrite <- (rnd_canonical (dec_value n e0)), (Qred_complete _ _ Hn), <- Hx. apply rnd_canonical. }
    assert (rne (x / 10 ^ e0) = lo \/ rne (x / 10 ^ e0) = lo + 1) as Hrne.
    { unfold rne. fold lo. destruct (_ ?= _)%Q; [destruct (Z.even lo)|..]; auto. }
    destruct (reads_back x e0 lo) eqn:E1, (reads_back x e0 (lo + 1)) eqn:E2; simplify_eq; (split; [lia|]); auto.
    destruct Hrne as [->| ->]; auto.
Qed.

Lemma span_val_stop acc n rest : no_digit rest -> span_val acc n rest = (acc, n, rest).
Proof. destruct rest as [|c r]; [done|]. cbn. by intros ->. Qed.

Lemma span_val_pad n : forall z acc c rest,
  0 <= z < 10 ^ Z.of_nat n -> no_digit rest ->
  span_val acc c (pad n z +:+ rest) = (acc * 10 ^ Z.of_nat n + z, c + Z.of_nat n, rest).
Proof.
  induction n as [|n IH]; intros z acc c rest Hz Hrest.
  { change (10 ^ Z.of_nat 0) with 1 in *. rewrite str_app_nil_l, span_val_stop by done. f_equal. f_equal; lia. }
  destruct (pad_head n z Hz) as (Hq & Hr & Hm & Heq). cbn [pad]. rewrite str_app_cons. cbn [span_val].
  rewrite Hm, digit_val_digit, IH by done. rewrite pow10_S. f_equal. f_equal; lia.
Qed.

Ltac span_step IH :=
  match goal with Hrest : no_digit _ |- context [span_val ?a ?n (NilEmpty.string_of_uint _ +:+ _)] =>
    let c := fresh in let Hc := fresh in let E := fresh in
    destruct (IH a n Hrest) as (c & Hc & _ & E); exists c; split_and!; [lia | intros _; lia | exact E]
  end.

Lemma span_val_uint d rest : forall acc c,
  no_digit rest -> exists c', c <= c' /\ (d <> Nil -> c < c') /\
    span_val acc c (NilEmpty.string_of_uint d +:+ rest) = (dval acc d, c', rest).
Proof.
  induction d; intros acc c Hrest.
  { exists c. split_and!; [lia | done | by apply span_val_stop]. }
  all: cbn [NilEmpty.string_of_uint dval]; rewrite str_app_cons; cbn [span_val];
    match goal with |- context [digit_val ?c] => let v := eval vm_compute in (digit_val c) in change (digit_val c) with v end;
    cbv iota beta; rewrite ?Z.add_0_r; span_step IHd.
Qed.

Lemma span_val_Itoa z rest :
  0 <= z -> no_digit rest -> exists c, 0 < c /\ span_val 0 0 (Itoa z +:+ rest) = (z, c, rest).
Proof.
  intros Hz Hrest. unfold Itoa. destruct z as [|p|p]; [| |lia].
  - destruct (span_val_uint (D0 Nil) rest 0 0 Hrest) as (c & _ & Hc & E). exists c. split; [by apply Hc | exact E].
  - assert (Z.of_uint (Pos.to_uint p) = Zpos p) as Ev by (unfold Z.of_uint; by rewrite DecimalPos.Unsigned.of_to).
    pose proof (to_uint_not_nil p) as Hn. cbn [Z.to_int NilZero.string_of_int].
    assert (NilZero.string_of_uint (Pos.to_uint p) = NilEmpty.string_of_uint (Pos.to_uint p)) as -> by (by destruct (Pos.to_uint p)).
    destruct (span_val_uint (Pos.to_uint p) rest 0 0 Hrest) as (c & _ & Hc & E). exists c.
    rewrite dval_uint, Ev in E. auto.
Qed.

(** The text of a decimal reads as that decimal. *)
Lemma read_dec_f m e : 0 <= m -> exists m' e',
  read_mantissa (dec_f m e) = Some (m', e', "") /\ (dec_value m' e' == dec_value m e)%Q.
Proof.
  intros Hm. unfold dec_f, read_mantissa. destruct (Z.leb_spec 0 e) as [He|He].
  - assert (0 <= m * 10 ^ e) as Hp by (apply Z.mul_nonneg_nonneg; [done | apply Z.pow_nonneg; lia]).
    destruct (span_val_Itoa (m * 10 ^ e) "" Hp ltac:(done)) as (c & Hc & E). rewrite str_app_nil_r in E. rewrite E.
    rewrite (proj2 (Z.eqb_neq _ _)) by lia. eexists _, _. split; [reflexivity|].
    unfold dec_value. rewrite inject_Z_mult. rewrite Zpower_Qpower by done.
    change (10 ^ (- 0))%Q with 1%Q. apply Qmult_1_r.
  - set (n := Z.to_nat (- e)). replace (- e) with (Z.of_nat n) by lia.
    pose proof (pow10_pos n) as Hp. pose proof (Z.mod_pos_bound m (10 ^ Z.of_nat n) Hp) as Hmod.
    destruct (span_val_Itoa (m / 10 ^ Z.of_nat n) ("." +:+ pad n (m mod 10 ^ Z.of_nat n)) ltac:(apply Z.div_pos; lia) ltac:(done))
      as (c & Hc & E). rewrite E. rewrite str_app_cons, str_app_nil_l, bool_decide_eq_true_2 by done.
    rewrite <- (str_app_nil_r (pad _ _)), span_val_pad by done.
    rewrite (proj2 (Z.eqb_neq _ _)) by lia. eexists _, _. split; [reflexivity|].
    replace (- (0 + Z.of_nat n)) with e by lia. pose proof (Z.div_mod m (10 ^ Z.of_nat n) ltac:(lia)) as Edm.
    replace (m / 10 ^ Z.of_nat n * 10 ^ Z.of_nat n + m mod 10 ^ Z.of_nat n) with m by lia. done.
Qed.

Lemma dec_f_head m e : 0 <= m -> exists c r, dec_f m e = String c r /\ is_Some (digit_val c).
Proof.
  intros Hm. unfold dec_f. destruct (0 <=? e).
  - apply Itoa_digit, Z.mul_nonneg_nonneg; [done | apply Z.pow_nonneg; lia].
  - destruct (Itoa_digit (m / 10 ^ (- e))) as (c & r & -> & Hc); [|eexists _, _; by split].
    destruct (Z.le_gt_cases 0 (- e)).
    + apply Z.div_pos; [done|]. apply Z.pow_pos_nonneg; lia.
    + rewrite Z.pow_neg_r by lia. by rewrite Z.div_0_r.
Qed.

Lemma rne_neg q : rne (- q) = - rne q.
Proof.
  unfold rne. pose proof (Qfloor_le q) as Hl. pose proof (Qlt_floor q) as Hu.
  rewrite inject_Z_plus in Hu. change (inject_Z 1) with 1%Q in Hu. set (f := Qfloor q) in *.
  destruct (Qeq_dec q (inject_Z f)) as [E|E].
  - assert (Qfloor (- q) = - f) as ->.
    { rewrite (Qfloor_comp (- q) (inject_Z (- f))) by (rewrite E, inject_Z_opp; reflexivity). apply Qfloor_Z. }
    assert ((q - inject_Z f ?= 1 # 2)%Q = Lt) as -> by (apply -> Qlt_alt; lra).
    assert ((- q - inject_Z (- f) ?= 1 # 2)%Q = Lt) as ->; [|done].
    apply -> Qlt_alt. rewrite inject_Z_opp. lra.
  - assert (Qfloor (- q) = - f - 1) as ->.
    { pose proof (Qfloor_le (- q)) as L2. pose proof (Qlt_floor (- q)) as U2.
      rewrite inject_Z_plus in U2. change (inject_Z 1) with 1%Q in U2. set (g := Qfloor (- q)) in *.
      assert (inject_Z g < inject_Z (- f))%Q as G1 by (rewrite inject_Z_opp; apply Qle_lteq in Hl as [?|?]; [lra | by destruct E]).
      assert (inject_Z (- f - 2) < inject_Z g)%Q as G2
        by (unfold Z.sub; rewrite inject_Z_plus, !inject_Z_opp; change (inject_Z 2) with 2%Q; lra).
      rewrite <- Zlt_Qlt in G1, G2. lia. }
    assert (inject_Z (- f - 1) == - inject_Z f - 1)%Q as Ei
      by (unfold Z.sub; by rewrite inject_Z_plus, !inject_Z_opp).
    destruct (Qcompare_spec (q - inject_Z f) (1 # 2)) as [H|H|H].
    + assert ((- q - inject_Z (- f - 1) ?= 1 # 2)%Q = Eq) as -> by (apply -> Qeq_alt; rewrite Ei; lra).
      rewrite Z.even_sub, Z.even_opp. simpl. destruct (Z.even f); simpl; lia.
    + assert ((- q - inject_Z (- f - 1) ?= 1 # 2)%Q = Gt) as -> by (apply -> Qgt_alt; rewrite Ei; lra). lia.
    + assert ((- q - inject_Z (- f - 1) ?= 1 # 2)%Q = Lt) as -> by (apply -> Qlt_alt; rewrite Ei; lra). lia.
Qed.

(** Rounding is symmetric. *)
Lemma rnd_neg q : rnd (- q) = Qred (- rnd q).
Proof.
  unfold rnd. destruct (Qeq_bool q 0) eqn:E0.
  { apply Qeq_bool_iff in E0. rewrite (proj2 (Qeq_bool_iff (- q) 0)) by (rewrite E0; reflexivity). done. }
  assert (Qeq_bool (- q) 0 = false) as ->.
  { apply not_true_iff_false. intros H%Qeq_bool_iff. apply not_true_iff_false in E0. apply E0, Qeq_bool_iff. lra. }
  assert (lg (- q) = lg q) as -> by (destruct q as [n d]; unfold lg; cbn; by rewrite Z.abs_opp).
  cbn zeta. apply Qred_complete. rewrite Qred_correct.
  set (t := (2 ^ Z.max (-1074) (lg q - 52))%Q).
  assert (- q / t == - (q / t))%Q as Ed by (unfold Qdiv; ring).
  rewrite (rne_comp _ _ Ed), rne_neg, inject_Z_opp. ring.
Qed.

Lemma is_double_neg x : is_double x -> is_double (Qred (- x)).
Proof. unfold is_double. intros Hx. rewrite (rnd_proper _ _ (Qred_correct (- x))), rnd_neg. by rewrite Hx. Qed.

Lemma ParseFloat_FormatFloat_nonneg x :
  is_double x -> (0 <= x)%Q -> (x < 2 ^ 1024)%Q -> ParseFloat (FormatFloat_f (F_fin x)) = Some (F_fin x).
Proof.
  intros Hx Hpos Hmax. unfold FormatFloat_f, signed. rewrite (proj2 (Qle_bool_iff 0 x) Hpos).
  destruct (Qeq_bool x 0) eqn:E0.
  { apply Qeq_bool_iff in E0. unfold is_double, rnd in Hx. rewrite (proj2 (Qeq_bool_iff x 0) E0) in Hx. subst x. reflexivity. }
  assert (0 < x)%Q as Hlt.
  { apply Qle_lt_or_eq in Hpos as [?|E]; [done|]. rewrite <- E in E0. discriminate E0. }
  pose proof (shortest_reads x Hx Hlt) as Hs. destruct (shortest x) as [m e]. destruct Hs as [Hm Hr].
  destruct (read_dec_f m e Hm) as (m' & e' & Em & Ev). destruct (dec_f_head m e Hm) as (c & r & Ec & [d Hd]).
  unfold ParseFloat. rewrite Ec in *.
  assert (split_sign (String c r) = (false, String c r) /\ lower_text (String c r) <> "inf" /\
    lower_text (String c r) <> "infinity" /\ lower_text (String c r) <> "nan") as (-> & H1 & H2 & H3).
  { destruct c as [[] [] [] [] [] [] [] []]; try (vm_compute in Hd; discriminate Hd); split_and!; try done; cbn; congruence. }
  rewrite !bool_decide_eq_false_2 by done. cbn [orb]. rewrite Em. cbn [mbind option_bind read_exponent].
  assert (rnd (dec_value m' e') = x) as Hr' by (by rewrite Ev). rewrite Z.add_0_r, Hr'.
  destruct (Qle_bool (2 ^ 1024) x) eqn:Eo; [|done]. apply Qle_bool_iff in Eo. lra.
Qed.

Lemma ParseFloat_minus s q :
  (exists c r, s = String c r /\ is_Some (digit_val c)) ->
  ParseFloat s = Some (F_fin q) -> ParseFloat ("-" +:+ s) = Some (F_fin (Qred (- q))).
Proof.
  intros (c & r & -> & d & Hd) H. unfold ParseFloat in *.
  assert (split_sign (String c r) = (false, String c r) /\ lower_text (String c r) <> "inf" /\
    lower_text (String c r) <> "infinity" /\ lower_text (String c r) <> "nan") as (Es & H1 & H2 & H3).
  { destruct c as [[] [] [] [] [] [] [] []]; try (vm_compute in Hd; discriminate Hd); split_and!; try done; cbn; congruence. }
  rewrite Es in H. change (split_sign ("-" +:+ String c r)) with (true, String c r). cbv iota beta in *.
  rewrite (bool_decide_eq_false_2 _ H1), (bool_decide_eq_false_2 _ H2) in H |- *.
  rewrite (bool_decide_eq_false_2 _ H3) in H.
  rewrite (bool_decide_eq_false_2 (lower_text ("-" +:+ _) = "nan")) by done. cbn [orb] in *.
  destruct (read_mantissa (String c r)) as [[[m e1] rest]|]; cbn [mbind option_bind] in *; [|discriminate].
  destruct (read_exponent rest) as [e2|]; cbn [mbind option_bind] in *; [|discriminate].
  destruct (Qle_bool (2 ^ 1024) _); [discriminate|]. by injection H as ->.
Qed.

(** A number a [float64] can hold. *)
Definition float64_ok (f : float64) : Prop :=
  match f with F_fin q => is_double q /\ (Qabs q < 2 ^ 1024)%Q | _ => True end.

(** The text of a float reads back as the float, infinities and NaN included: what
    is passed to a child process as text arrives unchanged. *)
Theorem ParseFloat_FormatFloat f : float64_ok f -> ParseFloat (FormatFloat_f f) = Some f.
Proof.
  destruct f as [|[]|x]; [done | done | done|]. intros [Hx Hmax].
  destruct (Qlt_le_dec x 0) as [Hneg|Hpos].
  2:{ rewrite Qabs_pos in Hmax by done. by apply ParseFloat_FormatFloat_nonneg. }
  rewrite Qabs_neg in Hmax by lra. set (y := Qred (- x)).
  assert (y == - x)%Q as Ey by apply Qred_correct.
  assert (FormatFloat_f (F_fin x) = "-" +:+ FormatFloat_f (F_fin y)) as ->.
  { unfold FormatFloat_f, signed. assert (Qle_bool 0 x = false) as ->.
    { apply not_true_iff_false. intros H%Qle_bool_iff. lra. }
    fold y. by rewrite (proj2 (Qle_bool_iff 0 y)) by lra. }
  assert (Qred (- y) = x) as Exy.
  { rewrite <- Hx. rewrite <- (rnd_canonical x). apply Qred_complete. rewrite Ey, Hx. ring. }
  rewrite <- Exy at 1. apply ParseFloat_minus.
  - unfold FormatFloat_f, signed. rewrite (proj2 (Qle_bool_iff 0 y)) by lra.
    destruct (Qeq_bool y 0) eqn:E0; [by exists "0"%char, ""|].
    pose proof (shortest_reads y (is_double_neg x Hx) ltac:(lra)) as Hs. destruct (shortest y) as [m e].
    destruct Hs as [Hm _]. by apply dec_f_head.
  - apply ParseFloat_FormatFloat_nonneg; [by apply is_double_neg | lra | lra].
Qed.

(** ** Arithmetic *)

(** Rounded, or an infinity beyond the range. *)
Definition round64 (q : Q) : float64 :=
  let r := rnd q in
  if Qle_bool (2 ^ 1024) (Qabs r) then F_inf (negb (Qle_bool 0 r)) else F_fin r.

Definition of_int64 (z : Z) : float64 := F_fin (rnd (inject_Z z)).

Definition fneg (x : float64) : float64 :=
  match x with F_nan => F_nan | F_inf s => F_inf (negb s) | F_fin q => F_fin (Qred (- q)) end.

Definition fadd (x y : float64) : float64 :=
  match x, y with
  | F_nan, _ | _, F_nan => F_nan
  | F_inf s, F_inf t => if Bool.eqb s t then F_inf s else F_nan
  | F_inf s, _ | _, F_inf s => F_inf s
  | F_fin a, F_fin b => round64 (a + b)
  end.

Definition fsub (x y : float64) : float64 := fadd x (fneg y).

Definition negative (q : Q) : bool := negb (Qle_bool 0 q).

Definition fmul (x y : float64) : float64 :=
  match x, y with
  | F_nan, _ | _, F_nan => F_nan
  | F_inf s, F_inf t => F_inf (xorb s t)
  | F_inf s, F_fin a | F_fin a, F_inf s => if Qeq_bool a 0 then F_nan else F_inf (xorb s (negative a))
  | F_fin a, F_fin b => round64 (a * b)
  end.

(** A zero divisor is taken as positive. *)
Definition fdiv (x y : float64) : float64 :=
  match x, y with
  | F_nan, _ | _, F_nan => F_nan
  | F_inf _, F_inf _ => F_nan
  | F_inf s, F_fin a => F_inf (xorb s (negative a))
  | F_fin _, F_inf _ => F_fin 0
  | F_fin a, F_fin b =>
      if Qeq_bool b 0 then if Qeq_bool a 0 then F_nan else F_inf (negative a) else round64 (a / b)
  end.

(** The built-in [max]. *)
Definition fmax (x y : float64) : float64 :=
  match x, y with
  | F_nan, _ | _, F_nan => F_nan
  | F_inf true, z | z, F_inf true => z
  | F_inf false, _ | _, F_inf false => F_inf false
  | F_fin a, F_fin b => if Qle_bool a b then F_fin b else F_fin a
  end.

(** [int(x)]; the result is defined by the language only if it fits. *)
Definition int_of (x : float64) : option Z :=
  match x with F_fin q => if decide (int64_ok (trunc q)) then Some (trunc q) else None | _ => None end.

(** The value [strconv.ParseFloat] returns beside an error: an infinity when the text is
    out of range, else zero. *)
Definition float_value (s : string) : float64 :=
  match ParseFloat s with
  | Some f => f
  | None =>
      let '(neg, body) := split_sign s in
      match read_mantissa body with
      | Some (_, rest) => match read_exponent rest with Some _ => F_inf neg | None => F_fin 0 end
      | None => F_fin 0
      end
  end.

(** [Duration.Seconds]. *)
Definition Seconds (d : Z) : float64 :=
  fadd (of_int64 (Z.quot d second)) (fdiv (of_int64 (Z.rem d second)) (of_int64 second)).

Example Seconds_ex : Seconds 1500000000 = F_fin (3 # 2) /\ Seconds 0 = F_fin 0 /\
  fdiv (of_int64 7) (Seconds 0) = F_inf false /\ float_value "1e400" = F_inf false /\ float_value "x" = F_fin 0.
Proof. vm_compute. split_and!; reflexivity. Qed.
