(* ===== verification/Store.v ===== *)
(** * The Redis Streams store ([redisstream/store.go])

    The operations of [Store] on top of the scripts.  The store's own state
    (the recovery cursor and the time of the last prune) is a record; Redis is
    the state of the monad.  What the source takes from its environment is an
    argument: the time of each [time.Now()], the random bytes of a new job ID,
    whether the context is done.

    [Client] is the go-redis client, a third-party package: [call m] sends the
    request [m] and returns what the program sees.  [Client] also carries the
    order in which Go enumerates a map and the texts of the standard library's
    parse errors, on which nothing depends. *)

From S2P Require Import Prelude GoNum GoTime Errors Job GoJson Redis Scripts.
From Stdlib Require Import Ascii String.
From stdpp Require Import strings.

Open Scope Z_scope.
Open Scope se_scope.

Class Client (R : Redis) := {
  call : forall {A}, SE rdb error A -> SE rdb error A;
  range_map : gmap string string -> list (string * string);
  atoi_error : string -> error;
  time_error : string -> error;
}.

(** An error of the client itself, not of the program or of a script. *)
Definition net_error (e : error) : Prop :=
  match e with
  | ErrNet | ErrCanceled | ErrDeadlineExceeded | ErrReply _ => True
  | _ => False
  end.

(** What go-redis documents: a command may be sent again after a network error
    (up to [MaxRetries] times), so it may run any number of times; the reply,
    if one arrives, is that of the last run. The runs of one call are taken to
    follow each other: what other clients do between a lost reply and the next
    sending is not part of this law but of [SharedClientLaws] below. (For an
    operation that is one request, such a call is also two operations of a run of
    the queue, the first of which fails with a network error.) *)
Class ClientLaws {R : Redis} (C : Client R) : Prop := {
  call_law A (m : SE rdb error A) s :
    exists n, (exists r, call m s = repeat_run (S n) m r s) \/
              (exists r e, call m s = ((repeat_run n m r s).1, Err e) /\ net_error e);
  range_map_perm m : range_map m ≡ₚ map_to_list m;
}.

(** A request and its re-sends when other clients act in between: before each
    sending and after the last one, [others] may change the keyspace. The request
    may also never arrive, or run and have every reply lost. *)
Inductive resent {R : Redis} (others : rdb -> rdb -> Prop) {A} (m : SE rdb error A) :
    rdb -> rdb * result error A -> Prop :=
  | resent_reply s s1 s2 s3 r :
      others s s1 -> m s1 = (s2, r) -> others s2 s3 -> resent others m s (s3, r)
  | resent_failed s s1 e :
      others s s1 -> net_error e -> resent others m s (s1, Err e)
  | resent_again s s1 s2 r x :
      others s s1 -> m s1 = (s2, r) -> resent others m s2 x -> resent others m s x.

Class SharedClientLaws {R : Redis} (C : Client R) (others : rdb -> rdb -> Prop) : Prop :=
  shared_call_law A (m : SE rdb error A) s : resent others m s (call m s).

(** A client whose network delivers every request once. *)
Definition reliable {R : Redis} (C : Client R) : Prop :=
  forall A (m : SE rdb error A) s, call m s = m s.

(** ** Configuration *)

Record Config := mkConfig {
  cfg_Addr : string;
  cfg_Stream : string;
  cfg_Group : string;
  cfg_RetryKey : string;
  cfg_DeadLetter : string;
  cfg_DedupePrefix : string;
  cfg_DedupeWindow : Z;
  cfg_ConsumerIdleTimeout : Z;
}.

Record Store := mkStore {
  st_config : Config;
  st_retryData : string;
  st_recoverCursor : eid;
  st_lastPrune : Z;
}.

Definition or_default (s d : string) : string := if bool_decide (s = "") then d else s.

Definition with_defaults (c : Config) : Config :=
  mkConfig (cfg_Addr c)
    (or_default (cfg_Stream c) "dtq:jobs")
    (or_default (cfg_Group c) "dtq:workers")
    (or_default (cfg_RetryKey c) "dtq:retry")
    (or_default (cfg_DeadLetter c) "dtq:dead")
    (or_default (cfg_DedupePrefix c) "dtq:dedupe:")
    (if cfg_DedupeWindow c <=? 0 then 24 * hour else cfg_DedupeWindow c)
    (if cfg_ConsumerIdleTimeout c <=? 0 then hour else cfg_ConsumerIdleTimeout c).

(** [strings.Contains]. *)
Definition str_contains (s sub : string) : bool :=
  match String.index 0 sub s with Some _ => true | None => false end.

(** The zero [time.Time], January 1 of year 1. *)
Definition zero_time : Z := - unix_epoch_day * day.

(** [Time.Sub] saturates at the range of a duration. *)
Definition time_Sub (t u : Z) : Z := Z.max min_int64 (Z.min max_int64 (t - u)).

Definition new_store (c : Config) : Store :=
  mkStore c (cfg_RetryKey c +:+ ":jobs") zero_id zero_time.

(** ** Jobs as fields *)

Definition jobFields (j : Job) : gmap string string :=
  <["id" := ID j]> (<["task" := Task j]> (<["payload" := Payload j]>
  (<["attempt" := Itoa (Attempt j)]> (<["maxAttempts" := Itoa (MaxAttempts j)]>
  (<["traceparent" := TraceParent j]> (<["createdAt" := RFC3339Nano (CreatedAt j)]>
  (<["availableAt" := RFC3339Nano (AvailableAt j)]> ∅))))))).

(** A stream entry ID as text. *)
Definition eid_string (id : eid) : string := Itoa (Z.of_N id.1) +:+ "-" +:+ Itoa (Z.of_N id.2).

(** A flat [field, value, ...] reply as a map: later fields win. *)
Definition flatToMap (fs : fields) : gmap string string :=
  foldl (fun m kv => <[kv.1 := kv.2]> m) ∅ fs.

Section store.
Context {R : Redis} {C : Client R}.

Abbreviation M := (SE rdb error).

(** Runs [m] and hands its error to the continuation. *)
Definition try_ {A} (m : M A) : M (result error A) := fun s =>
  let '(s', r) := m s in (s', Ok r).

(** ** Creating a store *)

Definition NewWithClient (c : Config) : M Store :=
  let config := with_defaults c in
  let! r := try_ (call (XGROUP_CREATE (cfg_Stream config) (cfg_Group config))) in
  match r with
  | Ok _ => ret (new_store config)
  | Err e => if str_contains (error_string e) "BUSYGROUP" then ret (new_store config) else throw e
  end.

(** ** Parsing *)

Section parse.
Context (msgID : eid) (vals : gmap string string).

Definition field_str (name : string) : result error string :=
  match vals !! name with
  | Some v => Ok v
  | None => Err (ErrMsg ("invalid " +:+ name +:+ " field for message " +:+ eid_string msgID))
  end.

Definition field_num (name : string) : result error Z :=
  match field_str name with
  | Ok s => match Atoi s with Some n => Ok n | None => Err (atoi_error s) end
  | Err e => Err e
  end.

Definition field_ts (name : string) : result error Z :=
  match field_str name with
  | Ok s => match ParseRFC3339Nano s with Some t => Ok t | None => Err (time_error s) end
  | Err e => Err e
  end.
End parse.

Definition rbind {A B} (r : result error A) (k : A -> result error B) : result error B :=
  match r with Ok a => k a | Err e => Err e end.

Definition parseJob (msgID : eid) (vals : gmap string string) (lease : Lease) : result error Job :=
  rbind (field_str msgID vals "task") (fun task =>
  rbind (field_str msgID vals "payload") (fun payload =>
  rbind (field_num msgID vals "attempt") (fun attempt =>
  rbind (field_num msgID vals "maxAttempts") (fun maxAttempts =>
  let traceparent := default "" (vals !! "traceparent") in
  rbind (field_ts msgID vals "createdAt") (fun createdAt =>
  rbind (field_ts msgID vals "availableAt") (fun availableAt =>
  let id := match vals !! "id" with
            | Some id => if bool_decide (id = "") then eid_string msgID else id
            | None => eid_string msgID
            end in
  Ok (mkJob id task payload attempt maxAttempts traceparent createdAt availableAt "" lease))))))).

(** ** Fenced calls *)

(** [fenced] runs a lease-checked script on the job's lease. *)
Definition fenced (b : Store) (script : string -> eid -> string -> Z -> M Z) (job : Job) : M unit :=
  let! n := call (script (cfg_Group (st_config b)) (MessageID (JLease job))
                    (Owner (JLease job)) (Token (JLease job))) in
  if n =? 0 then throw ErrLeaseLost else ret tt.

Definition fencedBatch (b : Store) (script : string -> list triple -> M (list Z)) (jobs : list Job) :
    rdb -> rdb * list (option error) := fun s =>
  let args := (fun j => (MessageID (JLease j), Owner (JLease j), Token (JLease j))) <$> jobs in
  let '(s', r) := call (script (cfg_Group (st_config b)) args) s in
  (s', imap (fun i _ =>
         match r with
         | Err e => Some e
         | Ok res => match res !! i with
                     | None => Some ErrLeaseLost
                     | Some n => if n =? 0 then Some ErrLeaseLost else None
                     end
         end) jobs).

Definition parseOrQuarantine (b : Store) (msgID : eid) (vals : gmap string string) (lease : Lease) :
    M (option Job) :=
  match parseJob msgID vals lease with
  | Ok job => ret (Some job)
  | Err e =>
      let pairs := ("reason", "malformed entry: " +:+ error_string e) ::
                   filter (fun kv => kv.1 <> "reason") (range_map vals) in
      let c := st_config b in
      let j := mkJob "" "" "" 0 0 "" zero_time zero_time "" lease in
      do! try_ (fenced b (fun g i o t =>
                  deadLetterScript (cfg_Stream c) (cfg_DeadLetter c) g i o t pairs) j) in
      ret None
  end.

(** The loops of [claimReady], [claimBlocking] and [RecoverExpired]. *)
Fixpoint parse_all (b : Store) (workerID : string) (es : list (eid * fields * Z)) : M (list Job) :=
  match es with
  | [] => ret []
  | (id, fs, token) :: es' =>
      let! j := parseOrQuarantine b id (flatToMap fs) (mkLease id workerID token 0) in
      let! js := parse_all b workerID es' in
      ret (match j with Some job => job :: js | None => js end)
  end.

(** A fresh delivery has delivery count 1. *)
Definition first_deliveries (es : list (eid * fields)) : list (eid * fields * Z) := (fun e => (e, 1)) <$> es.

(** ** Enqueueing *)

(** The job ID is made from [rand] when the job has none. *)
Definition with_ID (rand : list ascii) (job : Job) : Job :=
  if bool_decide (ID job = "") then set_ID job (NewJobID rand) else job.

Definition runAt_of (job : Job) (now : Z) : Z :=
  if now <? AvailableAt job then UnixMilli (AvailableAt job) else 0.

Definition enqueueOnce (b : Store) (now : Z) (job : Job) : M string :=
  let c := st_config b in
  call (enqueueOnceScript (cfg_DedupePrefix c +:+ IdempotencyKey job) (cfg_Stream c)
          (cfg_RetryKey c) (st_retryData b)
          (ID job) (Milliseconds (cfg_DedupeWindow c)) (runAt_of job now)
          (json_Marshal (jobFields job))).

(** Commands sent as one MULTI/EXEC: Redis runs every one of them, also past an
    error, and the client reports the first error. *)
Fixpoint exec_all (cmds : list (M (option string))) : M (list (result error (option string))) :=
  match cmds with
  | [] => ret []
  | m :: cmds' =>
      let! r := try_ m in
      let! rs := exec_all cmds' in
      ret (r :: rs)
  end.

Fixpoint first_error (rs : list (result error (option string))) : result error (list (option string)) :=
  match rs with
  | [] => Ok []
  | Err e :: _ => Err e
  | Ok x :: rs' => match first_error rs' with Ok xs => Ok (x :: xs) | Err e => Err e end
  end.

Definition TxPipelined (cmds : list (M (option string))) : M (list (option string)) :=
  match cmds with
  | [] => ret []
  | _ => let! rs := call (exec_all cmds) in lift_result (first_error rs)
  end.

Definition no_text {A} (m : M A) : M (option string) := do! m in ret None.
Definition text (m : M string) : M (option string) := let! x := m in ret (Some x).

Definition schedule (b : Store) (job : Job) (runAt : Z) : M unit :=
  let data := json_Marshal (jobFields job) in
  do! TxPipelined [no_text (HSET (st_retryData b) (ID job) data);
                   no_text (ZADD (cfg_RetryKey (st_config b)) (UnixMilli runAt) (ID job))] in
  ret tt.

Definition Enqueue (b : Store) (rand : list ascii) (now : Z) (job : Job) : M string :=
  let job := with_ID rand job in
  if negb (bool_decide (IdempotencyKey job = "")) then enqueueOnce b now job else
  if now <? AvailableAt job then
    do! schedule b job (AvailableAt job) in
    ret (ID job)
  else
    do! call (XADD (cfg_Stream (st_config b)) (range_map (jobFields job))) in
    ret (ID job).

(** The commands [EnqueueBatch] queues for one job. *)
Definition batch_cmds (b : Store) (now : Z) (job : Job) : list (M (option string)) :=
  let c := st_config b in
  let fields := jobFields job in
  let runAt := runAt_of job now in
  if bool_decide (IdempotencyKey job = "") && (runAt =? 0) then
    [no_text (XADD (cfg_Stream c) (range_map fields))]
  else
    let data := json_Marshal fields in
    if negb (bool_decide (IdempotencyKey job = "")) then
      [text (enqueueOnceScript (cfg_DedupePrefix c +:+ IdempotencyKey job) (cfg_Stream c)
               (cfg_RetryKey c) (st_retryData b)
               (ID job) (Milliseconds (cfg_DedupeWindow c)) runAt data)]
    else
      [no_text (HSET (st_retryData b) (ID job) data);
       no_text (ZADD (cfg_RetryKey c) runAt (ID job))].

(** One ID per job: the reply of the dedupe script where the job has a key. *)
Fixpoint batch_ids (jobs : list Job) (counts : list nat) (replies : list (option string)) : list string :=
  match jobs, counts with
  | job :: jobs', n :: counts' =>
      default (ID job) (mjoin (head (take n replies))) :: batch_ids jobs' counts' (drop n replies)
  | _, _ => []
  end.

Definition EnqueueBatch (b : Store) (rands : list (list ascii)) (now : Z) (jobs : list Job) :
    M (list string) :=
  let jobs := zip_with with_ID rands jobs in
  let cmds := batch_cmds b now <$> jobs in
  let! replies := TxPipelined (concat cmds) in
  ret (batch_ids jobs (length <$> cmds) replies).

(** ** Claiming *)

Definition claimReady (b : Store) (workerID : string) (limit now : Z) : M (list Job) :=
  let c := st_config b in
  let! r := try_ (call (claimScript (cfg_Stream c) (cfg_RetryKey c) (st_retryData b)
                          (cfg_Group c) workerID limit (UnixMilli now))) in
  match r with
  | Err e => throw (ErrWrap "claim: " e "")
  | Ok es => parse_all b workerID (first_deliveries es)
  end.

Definition isTimeout (e : error) : bool := errors_Is e ErrDeadlineExceeded.

(** A blocking read: [blocked] is what the server does until it either has an
    entry for the reader or ends the block; then the read takes place.
    [done] tells whether the caller's context is done when an error comes. *)
Definition claimBlocking (b : Store) (workerID : string) (limit : Z)
    (blocked : rdb -> rdb) (done : bool) : M (list Job) :=
  let c := st_config b in
  let! r := try_ (call (fun s => XREADGROUP (cfg_Stream c) (cfg_Group c) workerID limit (blocked s))) in
  match r with
  | Ok None => ret []
  | Ok (Some es) => parse_all b workerID (first_deliveries es)
  | Err e =>
      if negb done && isTimeout e then ret []
      else throw (ErrWrap ("xreadgroup for " +:+ workerID +:+ ": ") e "")
  end.

Definition Claim (b : Store) (workerID : string) (limit wait now : Z)
    (blocked : rdb -> rdb) (done : bool) : M (list Job) :=
  let! jobs := claimReady b workerID limit now in
  if (0 <? length jobs)%nat || (wait <=? 0) then ret jobs
  else claimBlocking b workerID limit blocked done.

(** ** Settling *)

Definition Ack (b : Store) (job : Job) : M unit :=
  fenced b (ackScript (cfg_Stream (st_config b))) job.

Definition Extend (b : Store) (job : Job) : M unit :=
  fenced b (extendScript (cfg_Stream (st_config b))) job.

Definition AckBatch (b : Store) (jobs : list Job) : rdb -> rdb * list (option error) :=
  fencedBatch b (ackBatchScript (cfg_Stream (st_config b))) jobs.

Definition ExtendBatch (b : Store) (jobs : list Job) : rdb -> rdb * list (option error) :=
  fencedBatch b (extendBatchScript (cfg_Stream (st_config b))) jobs.

Definition Retry (b : Store) (job : Job) (nextRunAt : Z) : M unit :=
  let c := st_config b in
  let job := set_Attempt job (wrap64 (Attempt job + 1)) in
  let data := json_Marshal (jobFields job) in
  fenced b (fun g i o t =>
    retryScript (cfg_Stream c) (cfg_RetryKey c) (st_retryData b) g i o t
      (UnixMilli nextRunAt) (ID job) data) job.

Definition DeadLetter (b : Store) (job : Job) (reason : string) (now : Z) : M unit :=
  let c := st_config b in
  let fields := <["failedAt" := RFC3339Nano now]>
    (<["deliveries" := Itoa (Token (JLease job))]>
    (<["reason" := reason]> (jobFields job))) in
  fenced b (fun g i o t =>
    deadLetterScript (cfg_Stream c) (cfg_DeadLetter c) g i o t (range_map fields)) job.

(** ** Recovery and housekeeping *)

Definition pruneConsumers (b : Store) : M unit :=
  let c := st_config b in
  do! call (pruneConsumersScript (cfg_Stream c) (cfg_Group c)
              (Milliseconds (cfg_ConsumerIdleTimeout c))) in
  ret tt.

Definition set_cursor (b : Store) (cur : eid) : Store :=
  mkStore (st_config b) (st_retryData b) cur (st_lastPrune b).
Definition set_lastPrune (b : Store) (t : Z) : Store :=
  mkStore (st_config b) (st_retryData b) (st_recoverCursor b) t.

(** [now1] is the clock read by [time.Since], [now2] by [time.Now]. The store
    is returned next to the result: it changes on errors too. *)
Definition RecoverExpired (b : Store) (visibilityTimeout : Z) (workerID : string) (limit now1 now2 : Z) :
    rdb -> rdb * (Store * result error (list Job)) := fun s =>
  if limit <=? 0 then (s, (b, Ok [])) else
  let c := st_config b in
  let cursor := st_recoverCursor b in
  let prune := Z.min minute (Z.quot (cfg_ConsumerIdleTimeout c) 2) <=? time_Sub now1 (st_lastPrune b) in
  let b := if prune then set_lastPrune b now2 else b in
  let s := if prune then (pruneConsumers b s).1 else s in
  match call (recoverScript (cfg_Stream c) (cfg_Group c) workerID
                (Milliseconds visibilityTimeout) limit cursor) s with
  | (s', Err e) => (s', (b, Err e))
  | (s', Ok (next, entries)) =>
      let b := set_cursor b next in
      let '(s'', r) := parse_all b workerID entries s' in
      (s'', (b, r))
  end.

Definition Deregister (b : Store) (workerID : string) : M unit :=
  let c := st_config b in
  do! call (deregisterScript (cfg_Stream c) (cfg_Group c) workerID) in
  ret tt.

Definition promoteRetries (b : Store) (limit now : Z) : M Z :=
  let c := st_config b in
  call (promoteScript (cfg_RetryKey c) (st_retryData b) (cfg_Stream c) (UnixMilli now) limit).

(** ** Stats *)

(** The gauges of [queue.Stats]; its five lifetime counters, which no backend
    sets, are left out. *)
Record Stats := mkStats {
  StreamLength : Z;
  InFlight : Z;
  DeadLetterDepth : Z;
  RetryScheduled : Z;
}.

(** A pipeline is not a transaction: other clients' commands may run between
    these four ([between]). The client reports the first error. *)
Definition store_Stats (b : Store) (between : rdb -> rdb) : M Stats :=
  let c := st_config b in
  let gap : M unit := fun s => (between s, Ok tt) in
  call (let! streamLen := XLEN (cfg_Stream c) in
        do! gap in
        let! pend := XPENDING_COUNT (cfg_Stream c) (cfg_Group c) in
        do! gap in
        let! deadLen := XLEN (cfg_DeadLetter c) in
        do! gap in
        let! retries := ZCARD (cfg_RetryKey c) in
        ret (mkStats streamLen pend deadLen retries)).
End store.
