(* ===== verification/JobCodec.v ===== *)
(** * Storing and reading back a job

    A job survives being written as stream fields ([jobFields], in any order
    Go enumerates the map) and read back ([flatToMap], [parseJob]), and also
    the detour through JSON and [cjson.decode] that scheduled jobs take. *)

From S2P Require Import Prelude GoNum GoTime Errors Job GoJson Redis Scripts QueueSpec ScriptsOk.
From S2P Require Import Store.
From Stdlib Require Import Ascii String Decimal DecimalString.
From stdpp Require Import strings.

Open Scope Z_scope.

(** ** ASCII text *)

Fixpoint all_ascii (s : string) : bool :=
  match s with "" => true | String c s' => (N_of_ascii c <? 128)%N && all_ascii s' end.

Lemma all_ascii_utf8 s : all_ascii s = true -> utf8_valid s = true.
Proof.
  induction s as [|c s IH]; [done|]. cbn [all_ascii utf8_valid].
  intros [Hc Hs]%andb_true_iff. rewrite Hc. auto.
Qed.

Lemma all_ascii_app s t : all_ascii (s +:+ t) = all_ascii s && all_ascii t.
Proof.
  induction s as [|c s IH]; [done|]. rewrite str_app_cons. cbn [all_ascii]. rewrite IH.
  by rewrite andb_assoc.
Qed.

Lemma all_ascii_digit d : 0 <= d < 10 -> (N_of_ascii (digit d) <? 128)%N = true.
Proof.
  intros Hd. unfold digit. rewrite N_ascii_embedding by lia. apply N.ltb_lt. lia.
Qed.

Lemma all_ascii_pad n z : all_ascii (pad n z) = true.
Proof.
  revert z. induction n as [|n IH]; intros z; [done|]. cbn [pad all_ascii].
  rewrite IH, all_ascii_digit; [done|]. apply Z.mod_pos_bound. lia.
Qed.

Lemma all_ascii_strip_zeros s : all_ascii s = true -> all_ascii (strip_zeros s) = true.
Proof.
  induction s as [|c s IH]; [done|]. cbn [all_ascii strip_zeros].
  intros [Hc Hs]%andb_true_iff. specialize (IH Hs).
  destruct (strip_zeros s) as [|c' s']; [case_bool_decide; [done|]; cbn; by rewrite Hc|].
  cbn [all_ascii] in *. by rewrite Hc, IH.
Qed.

Lemma all_ascii_uint d : all_ascii (NilZero.string_of_uint d) = true.
Proof.
  assert (forall d, all_ascii (NilEmpty.string_of_uint d) = true) as He.
  { induction d0; cbn; auto. }
  destruct d; try done; apply He.
Qed.

Lemma all_ascii_Itoa z : all_ascii (Itoa z) = true.
Proof. unfold Itoa. destruct (Z.to_int z); cbn; apply all_ascii_uint. Qed.

Lemma all_ascii_fmt_year y : all_ascii (fmt_year y) = true.
Proof.
  unfold fmt_year. repeat case_match; rewrite ?all_ascii_app; cbn [all_ascii];
    rewrite ?all_ascii_pad, ?all_ascii_Itoa; done.
Qed.

Lemma all_ascii_fmt_frac ns : all_ascii (fmt_frac ns) = true.
Proof.
  unfold fmt_frac. case_match; [done|]. rewrite all_ascii_app.
  by rewrite (all_ascii_strip_zeros _ (all_ascii_pad 9 ns)).
Qed.

Lemma all_ascii_RFC3339Nano t : all_ascii (RFC3339Nano t) = true.
Proof.
  unfold RFC3339Nano. rewrite !all_ascii_app, all_ascii_fmt_year, all_ascii_fmt_frac, !all_ascii_pad.
  done.
Qed.

(** ** Maps and enumerations of them *)

Lemma flatToMap_app_fresh fs (m : gmap string string) :
  NoDup fs.*1 -> (forall k, k ∈ fs.*1 -> m !! k = None) ->
  foldl (fun m kv => <[kv.1 := kv.2]> m) m fs = list_to_map fs ∪ m.
Proof.
  revert m. induction fs as [|[k v] fs IH]; intros m Hnd Hf; simpl; [by rewrite map_empty_union|].
  apply NoDup_cons in Hnd as [Hk Hnd]. rewrite IH; [| done |].
  - rewrite <- insert_union_l, insert_union_r; [done|]. by apply not_elem_of_list_to_map_1.
  - intros j Hj. rewrite lookup_insert_ne by (simpl in Hk; intros ->; done).
    apply Hf. simpl. by right.
Qed.

(** Reading back the pairs of a map gives the map, in whatever order they come. *)
Lemma flatToMap_perm (m : gmap string string) fs : fs ≡ₚ map_to_list m -> flatToMap fs = m.
Proof.
  intros Hp. assert (NoDup fs.*1) as Hnd by (rewrite Hp; apply NoDup_fst_map_to_list).
  unfold flatToMap. rewrite flatToMap_app_fresh by (done || intros; apply lookup_empty).
  rewrite map_union_empty, (list_to_map_proper _ _ Hnd Hp). apply list_to_map_to_list.
Qed.

(** ** Round trip *)

Record job_ok (j : Job) : Prop := {
  jo_id : ID j <> "";
  jo_attempt : int64_ok (Attempt j);
  jo_max : int64_ok (MaxAttempts j);
  jo_created : time_ok (CreatedAt j);
  jo_available : time_ok (AvailableAt j);
}.

(** The job's free text is UTF-8, so that JSON does not alter it. *)
Definition job_utf8 (j : Job) : Prop :=
  utf8_valid (ID j) = true /\ utf8_valid (Task j) = true /\
  utf8_valid (Payload j) = true /\ utf8_valid (TraceParent j) = true.

(** The job as a worker gets it back: the idempotency key is not stored, the
    lease is the new one. *)
Definition delivered_job (j : Job) (l : Lease) : Job :=
  mkJob (ID j) (Task j) (Payload j) (Attempt j) (MaxAttempts j) (TraceParent j)
    (CreatedAt j) (AvailableAt j) "" l.

Section codec.
Context {R : Redis} {C : Client R}.

Lemma parseJob_jobFields j id l :
  job_ok j -> parseJob id (jobFields j) l = Ok (delivered_job j l).
Proof.
  intros [Hid Ha Hm Hc Hv]. unfold parseJob, field_num, field_ts, field_str.
  assert (jobFields j !! "id" = Some (ID j)) as -> by reflexivity.
  assert (jobFields j !! "task" = Some (Task j)) as -> by reflexivity.
  assert (jobFields j !! "payload" = Some (Payload j)) as -> by reflexivity.
  assert (jobFields j !! "attempt" = Some (Itoa (Attempt j))) as -> by reflexivity.
  assert (jobFields j !! "maxAttempts" = Some (Itoa (MaxAttempts j))) as -> by reflexivity.
  assert (jobFields j !! "traceparent" = Some (TraceParent j)) as -> by reflexivity.
  assert (jobFields j !! "createdAt" = Some (RFC3339Nano (CreatedAt j))) as -> by reflexivity.
  assert (jobFields j !! "availableAt" = Some (RFC3339Nano (AvailableAt j))) as -> by reflexivity.
  rewrite !Atoi_Itoa, !Parse_RFC3339Nano by done. cbn [rbind default].
  by rewrite bool_decide_eq_false_2.
Qed.

(** Goes through the members of [jobFields]. *)
Ltac each_field :=
  unfold jobFields; rewrite !lookup_insert_Some, lookup_empty; intros;
  repeat match goal with
    | H : _ \/ _ |- _ => destruct H as [H|H]
    | H : _ /\ _ |- _ => destruct H as [? H]
    end; subst; try done.

Lemma jobFields_keys j k : is_Some (jobFields j !! k) -> utf8_valid k = true.
Proof. intros [v Hv]. revert Hv. each_field. Qed.

Lemma jobFields_valid j k v : job_utf8 j -> jobFields j !! k = Some v -> utf8_valid v = true.
Proof.
  intros (Hi & Ht & Hp & Htr). each_field;
    apply all_ascii_utf8; first [apply all_ascii_Itoa | apply all_ascii_RFC3339Nano].
Qed.

(** What the promotion script decodes is a job's fields, with U+FFFD for what is
    not UTF-8. *)
Lemma decodes_coerced {L : RedisLaws R} j :
  exists fs, decodes (json_Marshal (jobFields j)) fs /\ fs ≡ₚ map_to_list (coerce_utf8 <$> jobFields j).
Proof.
  destruct (cjson_law (jobFields j) (jobFields_keys j)) as (fs & Hd & Hp).
  exists fs. split; [split; [done|] | done]. intros ->.
  apply Permutation_nil, map_to_list_empty_iff, fmap_empty_inv in Hp.
  assert (jobFields j !! "id" = Some (ID j)) as Hid by apply lookup_insert_eq.
  by rewrite Hp in Hid.
Qed.

Lemma decodes_jobFields {L : RedisLaws R} j :
  job_utf8 j -> exists fs, decodes (json_Marshal (jobFields j)) fs /\ fs ≡ₚ map_to_list (jobFields j).
Proof.
  intros Hj. destruct (decodes_coerced j) as (fs & Hd & Hp). exists fs. split; [done|].
  rewrite coerce_utf8_map in Hp; [done|]. intros k v. by apply jobFields_valid.
Qed.

Lemma job_ok_retried j : job_ok j -> job_ok (set_Attempt j (wrap64 (Attempt j + 1))).
Proof. intros []. split; try done. apply wrap64_ok. Qed.
End codec.
