(* ===== verification/StoreOk.v ===== *)
(** * The store implements the abstract queue, over an unreliable client

    [wpc] is the triple for calls that may fail: whatever the client does, the
    keyspace still holds some queue, and the result goes with it.  The rule for
    [call] asks for an invariant of re-running the script, since the client may
    send a request several times. *)

From S2P Require Import Prelude GoNum GoTime Errors Job GoJson Redis Scripts QueueSpec QueueRep.
From S2P Require Import ScriptsOk Store.
From Stdlib Require Import Ascii String.
From stdpp Require Import strings sorting.

Open Scope Z_scope.
Open Scope se_scope.

(** The keys of a store. *)
Definition K_of (b : Store) : qkeys :=
  QKeys (cfg_Stream (st_config b)) (cfg_Group (st_config b)) (cfg_RetryKey (st_config b))
    (st_retryData b) (cfg_DeadLetter (st_config b)) (cfg_DedupePrefix (st_config b)).

(** ** Triples for calls that may fail *)

Section wpc.
Context {R : Redis} {K : qkeys}.
Implicit Types q : qstate.

Definition wpc {A} (m : SE rdb error A) q (Q : result error A -> qstate -> Prop) : Prop :=
  forall s, represents K (view s) q -> exists s' r q',
    m s = (s', r) /\ represents K (view s') q' /\ frame K (view s) (view s') /\ Q r q'.

Lemma wpc_of_wpq {A} (m : SE rdb error A) q Q :
  wpq K m q Q -> wpc m q (fun r q' => exists a, r = Ok a /\ Q a q').
Proof. intros Hm s Hs. destruct (Hm s Hs) as (s' & a & He & q' & ? & ? & ?). eauto 10. Qed.

Lemma wpc_ret {A} (a : A) q (Q : result error A -> qstate -> Prop) : Q (Ok a) q -> wpc (ret a) q Q.
Proof. intros HQ s Hs. by exists s, (Ok a), q. Qed.

Lemma wpc_throw {A} e q (Q : result error A -> qstate -> Prop) : Q (Err e) q -> wpc (throw e) q Q.
Proof. intros HQ s Hs. by exists s, (Err e), q. Qed.

Lemma wpc_bind {A B} (m : SE rdb error A) (k : A -> SE rdb error B) q P
    (Q : result error B -> qstate -> Prop) :
  wpc m q P ->
  (forall a q', P (Ok a) q' -> wpc (k a) q' Q) ->
  (forall e q', P (Err e) q' -> Q (Err e) q') ->
  wpc (bind m k) q Q.
Proof.
  intros Hm Hk He s Hs. destruct (Hm s Hs) as (s' & r & q' & Em & Hs' & Hf & HP). unfold bind.
  rewrite Em. destruct r as [a|e].
  - destruct (Hk a q' HP s' Hs') as (s'' & r & q'' & Ek & ? & ? & ?).
    exists s'', r, q''. split_and!; try done. by eapply frame_trans.
  - exists s', (Err e), q'. auto.
Qed.

Lemma wpc_mono {A} (m : SE rdb error A) q (P Q : result error A -> qstate -> Prop) :
  wpc m q P -> (forall r q', P r q' -> Q r q') -> wpc m q Q.
Proof.
  intros Hm HPQ s Hs. destruct (Hm s Hs) as (s' & r & q' & ? & ? & ? & ?). eauto 10.
Qed.

Lemma wpc_try {A} (m : SE rdb error A) q P :
  wpc m q P -> wpc (try_ m) q (fun r q' => exists x, r = Ok x /\ P x q').
Proof.
  intros Hm s Hs. destruct (Hm s Hs) as (s' & r & q' & Em & ? & ? & ?). unfold try_.
  rewrite Em. eauto 10.
Qed.
End wpc.

Section client.
Context {R : Redis} {C : Client R} {CL : ClientLaws C} {K : qkeys}.
Implicit Types q : qstate.

Lemma repeat_run_wpq {A} (m : SE rdb error A) (J : qstate -> Prop) (Q : A -> qstate -> Prop) n :
  (forall q, J q -> wpq K m q (fun a q' => J q' /\ Q a q')) ->
  forall q s r, J q -> represents K (view s) q ->
  exists s' r' q', repeat_run n m r s = (s', r') /\ represents K (view s') q' /\
    frame K (view s) (view s') /\ J q' /\
    (n = 0%nat \/ exists a, r' = Ok a /\ Q a q').
Proof.
  intros HJ. induction n as [|n IH]; intros q s r Hq Hs; simpl.
  { exists s, r, q. split_and!; [done..|]. by left. }
  destruct (HJ q Hq s Hs) as (s1 & a & Em & q1 & Hs1 & Hf1 & Hq1 & HQ1). rewrite Em.
  destruct n as [|n'].
  { exists s1, (Ok a), q1. simpl. split_and!; [done..|]. right. eauto. }
  destruct (IH q1 s1 (Ok a) Hq1 Hs1) as (s2 & r2 & q2 & E2 & Hs2 & Hf2 & Hq2 & HQ2).
  exists s2, r2, q2. split_and!; [done | done | by eapply frame_trans | done |].
  destruct HQ2 as [?|HQ2]; [done | by right].
Qed.

(** A request sent through the client: [J] is what every number of runs keeps. *)
Lemma wpc_call {A} (m : SE rdb error A) (J : qstate -> Prop) (Q : A -> qstate -> Prop) q :
  J q -> (forall q1, J q1 -> wpq K m q1 (fun a q' => J q' /\ Q a q')) ->
  wpc (K:=K) (call m) q (fun r q' =>
    J q' /\ match r with Ok a => Q a q' | Err e => net_error e end).
Proof.
  intros Hq HJ s Hs. destruct (call_law A m s) as (n & [(r & Ec)|(r & e & Ec & He)]).
  - destruct (repeat_run_wpq m J Q (S n) HJ q s r Hq Hs)
      as (s' & r' & q' & Er & Hs' & Hf & Hq' & [?|(a & -> & HQ)]); [done|].
    exists s', (Ok a), q'. split_and!; [congruence | done..].
  - destruct (repeat_run_wpq m J Q n HJ q s r Hq Hs) as (s' & r' & q' & Er & Hs' & Hf & Hq' & _).
    exists s', (Err e), q'. split_and!; [by rewrite Ec, Er | done..].
Qed.
End client.

(** ** Fenced operations *)

(** The outcomes of a fenced call that settles a delivery. A success means the
    caller owned the delivery and the effect took place; otherwise the effect
    took place at most once, and only if the caller owned the delivery. A lease is
    reported lost only if it was not owned, or an earlier try of the same call
    already settled the delivery. *)
Definition fenced_outcome (own : bool) (q : qstate) (eff : qstate -> Prop)
    (r : result error unit) (q' : qstate) : Prop :=
  match r with
  | Ok _ => own = true /\ eff q'
  | Err e =>
      (e = ErrLeaseLost \/ net_error e) /\
      ((q' = q /\ (e = ErrLeaseLost -> own = false)) \/ (own = true /\ eff q'))
  end.

Definition lease_owns (q : qstate) (l : Lease) : bool :=
  q_owns q (MessageID l) (Owner l) (Token l).

Section fenced.
Context {R : Redis} {C : Client R} {CL : ClientLaws C} {K : qkeys}.
Implicit Types q : qstate.

Lemma fenced_ok b script job q (eff : qstate -> Prop) :
  let l := JLease job in
  (forall q1, wpq K (script (cfg_Group (st_config b)) (MessageID l) (Owner l) (Token l)) q1 (fun n q' =>
     if lease_owns q1 l then n = 1 /\ (q1 = q -> eff q') else n = 0 /\ q' = q1)) ->
  (forall q', eff q' -> lease_owns q' l = false) ->
  wpc (K:=K) (fenced b script job) q (fenced_outcome (lease_owns q l) q eff).
Proof.
  intros l Hscript Heff. unfold fenced. fold l.
  eapply (wpc_bind _ _ _ (fun r q' =>
    (q' = q \/ lease_owns q l = true /\ eff q') /\
    match r with
    | Ok n => (n = 1 /\ lease_owns q l = true /\ eff q') \/
              (n = 0 /\ ((q' = q /\ lease_owns q l = false) \/ (lease_owns q l = true /\ eff q')))
    | Err e => net_error e
    end)).
  - eapply wpc_call; [by left|]. intros q1 Hq1. eapply wpq_mono; [apply Hscript|].
    intros n q' Hn. destruct Hq1 as [->|[Hown He]].
    + destruct (lease_owns q l); naive_solver.
    + rewrite (Heff q1 He) in Hn. destruct Hn as [-> ->]. naive_solver.
  - intros n q' [Hq' [(-> & Hown & He)|(-> & Hlost)]]; simpl.
    + apply wpc_ret. done.
    + apply wpc_throw. split; [by left|]. destruct Hlost as [[-> Hno]|Hdone]; [left | by right]. by split.
  - intros e q' [Hq' He]. split; [by right|]. destruct Hq' as [->|Hdone]; [left | by right].
    split; [done|]. intros ->. done.
Qed.

(** A lease held at the end of a settling script is impossible. *)
Lemma lease_owns_settle id owner token partition q :
  lease_owns (q_settle id q) (mkLease id owner token partition) = false.
Proof. unfold lease_owns, q_owns. simpl. by rewrite lookup_delete_eq. Qed.

Lemma lease_owns_settled l q : lease_owns (q_settle (MessageID l) q) l = false.
Proof. destruct l. apply lease_owns_settle. Qed.
End fenced.

Section settling.
Context {R : Redis} {L : RedisLaws R} {C : Client R} {CL : ClientLaws C}.
Context (b : Store) (HK : keys_ok (K_of b)).
Implicit Types q : qstate.

Lemma Ack_ok q job :
  wpc (K:=K_of b) (Ack b job) q (fenced_outcome (lease_owns q (JLease job)) q
    (fun q' => q' = q_settle (MessageID (JLease job)) q)).
Proof.
  apply fenced_ok; [|intros q' ->; apply lease_owns_settled].
  intros q1. eapply wpq_mono; [apply (ackScript_ok HK)|]. intros n q'. cbn beta. unfold lease_owns.
  destruct (q_owns q1 _ _ _); intros [= -> ->]; naive_solver.
Qed.

Definition retry_json (job : Job) : string :=
  json_Marshal (jobFields (set_Attempt job (wrap64 (Attempt job + 1)))).

Lemma Retry_ok q job nextRunAt :
  wpc (K:=K_of b) (Retry b job nextRunAt) q (fenced_outcome (lease_owns q (JLease job)) q
    (fun q' => q' = q_settle (MessageID (JLease job))
                      (q_schedule (ID job) (UnixMilli nextRunAt) (retry_json job) q))).
Proof.
  unfold Retry. apply (fenced_ok b _ (set_Attempt job _)); [|intros q' ->; apply lease_owns_settled].
  intros q1. eapply wpq_mono; [apply (retryScript_ok HK)|]. intros n q'. cbn beta. unfold lease_owns.
  destruct (q_owns q1 _ _ _); intros [= -> ->]; naive_solver.
Qed.

Definition dead_fields (job : Job) (reason : string) (now : Z) : gmap string string :=
  <["failedAt" := RFC3339Nano now]>
    (<["deliveries" := Itoa (Token (JLease job))]> (<["reason" := reason]> (jobFields job))).

Lemma range_map_not_nil m k v : m !! k = Some v -> range_map m <> [].
Proof.
  intros Hm E. pose proof (range_map_perm m) as Hp. rewrite E in Hp.
  apply Permutation_nil in Hp. apply elem_of_map_to_list in Hm. rewrite Hp in Hm.
  by apply not_elem_of_nil in Hm.
Qed.

Lemma fenced_dead_ok q job pairs :
  pairs <> [] ->
  wpc (K:=K_of b)
    (fenced b (fun g i o t => deadLetterScript (cfg_Stream (st_config b))
       (cfg_DeadLetter (st_config b)) g i o t pairs) job) q
    (fenced_outcome (lease_owns q (JLease job)) q
       (fun q' => exists did, q' = q_settle (MessageID (JLease job)) (q_bury did pairs q))).
Proof.
  intros Hp. apply fenced_ok; [|intros q' [did ->]; apply lease_owns_settled].
  intros q1. eapply wpq_mono; [by apply (deadLetterScript_ok HK)|]. intros n q'. cbn beta.
  unfold lease_owns. intros [did Hd]. destruct (q_owns q1 _ _ _); injection Hd as -> ->; naive_solver.
Qed.

Lemma DeadLetter_ok q job reason now :
  wpc (K:=K_of b) (DeadLetter b job reason now) q (fenced_outcome (lease_owns q (JLease job)) q
    (fun q' => exists did, q' = q_settle (MessageID (JLease job))
       (q_bury did (range_map (dead_fields job reason now)) q))).
Proof.
  apply fenced_dead_ok. eapply (range_map_not_nil _ "failedAt"). apply lookup_insert_eq.
Qed.

(** Renewing keeps the lease, so a renewal is never mistaken for a loss. *)
Lemma Extend_ok q job :
  q_wf q ->
  let l := JLease job in
  wpc (K:=K_of b) (Extend b job) q (fun r q' =>
    match r with
    | Ok _ => lease_owns q l = true /\ q' = q_renew (MessageID l) (Owner l) q
    | Err ErrLeaseLost => lease_owns q l = false /\ q' = q
    | Err e => net_error e /\
        (q' = q \/ (lease_owns q l = true /\ q' = q_renew (MessageID l) (Owner l) q))
    end).
Proof.
  intros Hwf l. unfold Extend, fenced. fold l.
  set (q2 := q_renew (MessageID l) (Owner l) q).
  assert (lease_owns q l = true -> lease_owns q2 l = true) as Hown2.
  { unfold lease_owns, q_owns, q2, q_renew. simpl. rewrite lookup_alter_eq.
    destruct (q_pel q !! MessageID l) as [p|]; [|done]. simpl.
    rewrite !andb_true_iff, !bool_decide_eq_true. tauto. }
  assert (q_renew (MessageID l) (Owner l) q2 = q2) as Hidem.
  { unfold q2, q_renew. simpl. f_equal; [|by rewrite insert_insert_eq].
    apply map_eq. intros j. destruct (decide (MessageID l = j)) as [<-|].
    - rewrite !lookup_alter_eq. by destruct (q_pel q !! MessageID l).
    - by rewrite !lookup_alter_ne. }
  eapply (wpc_bind _ _ _ (fun r q' =>
    (q' = q \/ lease_owns q l = true /\ q' = q2) /\
    match r with
    | Ok n => (n = 1 /\ lease_owns q l = true /\ q' = q2) \/
              (n = 0 /\ lease_owns q l = false /\ q' = q)
    | Err e => net_error e
    end)).
  - eapply wpc_call; [by left|]. intros q1 Hq1.
    eapply wpq_mono; [apply (extendScript_ok HK)|].
    { destruct Hq1 as [->|[_ ->]]; [done | by apply wf_renew]. }
    intros n q'. cbn beta. fold (lease_owns q1 l). destruct Hq1 as [->|[Ho ->]].
    + destruct (lease_owns q l) eqn:E; intros [= -> ->]; naive_solver.
    + rewrite (Hown2 Ho), Hidem. intros [= -> ->]. naive_solver.
  - intros n q' [_ [(-> & Ho & ->)|(-> & Ho & ->)]]; simpl; [by apply wpc_ret | by apply wpc_throw].
  - intros e q' [Hq' He]. destruct e; simpl in He; try done.
Qed.
End settling.
