(* ===== verification/EnqueueOk.v ===== *)
(** * Enqueueing

    [enqueued] is what storing one job does to the abstract queue.  [Enqueue]
    and [EnqueueBatch] implement it; a keyed or delayed job is stored at most
    once however often the client sends the request, and a batch is stored as
    a whole or not at all. *)

From S2P Require Import Prelude GoNum GoTime Errors Job GoJson Redis Scripts QueueSpec QueueRep.
From S2P Require Import ScriptsOk QueueSteps Store JobCodec StoreOk.
From Stdlib Require Import Ascii String.
From stdpp Require Import strings.

Open Scope Z_scope.
Open Scope se_scope.

Section spec.
Context (b : Store).
Implicit Types q : qstate.

Definition window_ms : Z := Milliseconds (cfg_DedupeWindow (st_config b)).

(** A keyed job leaves its ID under its key. *)
Definition keyed (job : Job) q : qstate :=
  if bool_decide (IdempotencyKey job = "") then q
  else q_remember (IdempotencyKey job) (ID job) window_ms q.

Inductive enqueued (now : Z) (job : Job) : qstate -> string -> qstate -> Prop :=
  | enq_duplicate q old e :
      IdempotencyKey job <> "" -> q_dedupe q !! IdempotencyKey job = Some (old, e) ->
      enqueued now job q old q
  | enq_now q id fs :
      (IdempotencyKey job <> "" -> q_dedupe q !! IdempotencyKey job = None) ->
      AvailableAt job <= now -> fs ≡ₚ map_to_list (jobFields job) -> eid_lt (q_top q) id ->
      enqueued now job q (ID job) (q_append id fs (keyed job q))
  | enq_later q :
      (IdempotencyKey job <> "" -> q_dedupe q !! IdempotencyKey job = None) ->
      now < AvailableAt job ->
      enqueued now job q (ID job)
        (q_schedule (ID job) (UnixMilli (AvailableAt job)) (json_Marshal (jobFields job)) (keyed job q)).

(** A batch stores its jobs in order. *)
Inductive enqueued_all (now : Z) : list Job -> qstate -> list string -> qstate -> Prop :=
  | enq_all_nil q : enqueued_all now [] q [] q
  | enq_all_cons job jobs q q1 q2 out outs :
      enqueued now job q out q1 -> enqueued_all now jobs q1 outs q2 ->
      enqueued_all now (job :: jobs) q (out :: outs) q2.

(** The batch was stored [n] times. *)
Inductive stored_times (now : Z) (jobs : list Job) : nat -> qstate -> qstate -> Prop :=
  | stored_O q : stored_times now jobs 0 q q
  | stored_S n q q1 q2 outs :
      stored_times now jobs n q q1 -> enqueued_all now jobs q1 outs q2 ->
      stored_times now jobs (S n) q q2.

(** The machine's clock is past the first millisecond of 1970. *)
Definition after_epoch (now : Z) : Prop := millisecond <= now.

Lemma runAt_of_spec now job :
  after_epoch now ->
  runAt_of job now = (if now <? AvailableAt job then UnixMilli (AvailableAt job) else 0) /\
  (now < AvailableAt job -> 0 < UnixMilli (AvailableAt job)).
Proof.
  intros Hn. split; [done|]. intros Hlt. unfold UnixMilli.
  assert (1 <= AvailableAt job / millisecond); [|lia].
  apply Z.div_le_lower_bound; [done|]. unfold after_epoch in Hn. lia.
Qed.
End spec.

Section enqueue.
Context {R : Redis} {L : RedisLaws R} {C : Client R} {CL : ClientLaws C}.
Context (b : Store) (HK : keys_ok (K_of b)) (Hw : 0 < window_ms b).
Implicit Types q : qstate.

Lemma jobFields_not_nil job fs : fs ≡ₚ map_to_list (jobFields job) -> fs <> [].
Proof.
  intros Hp ->. apply Permutation_nil, map_to_list_empty_iff in Hp.
  assert (jobFields job !! "id" = Some (ID job)) as Hid by apply lookup_insert_eq.
  by rewrite Hp in Hid.
Qed.

(** The dedupe script stores a keyed job once. *)
Lemma enqueueOnceScript_enqueued q now job :
  after_epoch now -> IdempotencyKey job <> "" -> job_utf8 job ->
  wpq (K_of b) (enqueueOnceScript (cfg_DedupePrefix (st_config b) +:+ IdempotencyKey job)
      (cfg_Stream (st_config b)) (cfg_RetryKey (st_config b)) (st_retryData b)
      (ID job) (window_ms b) (runAt_of job now) (json_Marshal (jobFields job))) q
    (fun out q' => enqueued b now job q out q').
Proof.
  intros Hn Hkey Hutf. destruct (runAt_of_spec now job Hn) as [Hr Hpos].
  destruct (decodes_jobFields job Hutf) as (fs & Hd & Hp).
  eapply wpq_mono; [apply (enqueueOnceScript_ok HK q (IdempotencyKey job)); done|].
  cbn beta. intros out q'. destruct (q_dedupe q !! IdempotencyKey job) as [[old e]|] eqn:E.
  { intros [-> ->]. by eapply enq_duplicate. }
  intros [-> Hq']. rewrite Hr in Hq'.
  assert (q_remember (IdempotencyKey job) (ID job) (window_ms b) q = keyed b job q) as Hkd.
  { unfold keyed. by rewrite bool_decide_eq_false_2. }
  cbn zeta in Hq'. rewrite Hkd in Hq'.
  destruct (Z.ltb_spec now (AvailableAt job)) as [Hlt|Hge].
  - rewrite (proj2 (Z.ltb_lt _ _) (Hpos Hlt)) in Hq'. subst q'. by apply enq_later.
  - destruct Hq' as (id & Hlt & ->). by apply enq_now.
Qed.

Lemma enqueued_keyed_dedupe now job q out q' :
  IdempotencyKey job <> "" -> enqueued b now job q out q' ->
  exists e, q_dedupe q' !! IdempotencyKey job = Some (out, e).
Proof.
  intros Hkey. destruct 1 as [q old e _ Hold|q id fs Hnone _ _ _|q Hnone _]; [eauto| |];
    unfold keyed; rewrite bool_decide_eq_false_2 by done; simpl;
    rewrite lookup_insert_eq; eauto.
Qed.

(** Storing a keyed job again finds it: the second attempt changes nothing. *)
Lemma enqueued_again now job q out q' out2 q2 :
  IdempotencyKey job <> "" -> enqueued b now job q out q' -> enqueued b now job q' out2 q2 ->
  out2 = out /\ q2 = q'.
Proof.
  intros Hkey H1 H2. destruct (enqueued_keyed_dedupe _ _ _ _ _ Hkey H1) as [e He].
  destruct H2 as [q' old e2 _ Hold|q' id fs Hnone _ _ _|q' Hnone _];
    [split; congruence | rewrite Hnone in He by done; done..].
Qed.

Lemma enqueueOnce_ok q now job :
  after_epoch now -> IdempotencyKey job <> "" -> job_utf8 job ->
  wpc (K:=K_of b) (enqueueOnce b now job) q (fun r q' =>
    match r with
    | Ok out => enqueued b now job q out q'
    | Err e => net_error e /\ (q' = q \/ exists out, enqueued b now job q out q')
    end).
Proof.
  intros Hn Hkey Hutf.
  eapply wpc_mono; [apply (wpc_call _ (fun q1 => q1 = q \/ exists out, enqueued b now job q out q1)
    (fun out q' => enqueued b now job q out q'))|].
  - by left.
  - intros q1 Hq1. eapply wpq_mono; [by apply enqueueOnceScript_enqueued|].
    cbn beta. intros out q' Hq'. destruct Hq1 as [->|[out1 H1]]; [eauto|].
    destruct (enqueued_again _ _ _ _ _ _ _ Hkey H1 Hq') as [-> ->]. eauto.
  - intros [out|e] q' [HJ HQ]; [done | by split].
Qed.

(** *** Transactions *)

(** Commands of a MULTI/EXEC run one after the other. *)
Lemma exec_all_cons_ok m cmds q (P : option string -> qstate -> Prop)
    (Q : list (result error (option string)) -> qstate -> Prop) :
  wpq (K_of b) m q P ->
  (forall x q1, P x q1 -> wpq (K_of b) (exec_all cmds) q1 (fun rs q' => Q (Ok x :: rs) q')) ->
  wpq (K_of b) (exec_all (m :: cmds)) q Q.
Proof.
  intros Hm Hk. cbn [exec_all].
  eapply (wpq_bind _ _ _ _ (fun r q1 => exists x, r = Ok x /\ P x q1)).
  { intros s Hs. destruct (Hm s Hs) as (s' & x & Em & q1 & ? & ? & ?).
    exists s', (Ok x). split; [unfold try_; by rewrite Em|]. eauto 10. }
  intros r q1 (x & -> & HP). eapply wpq_bind; [by apply Hk|].
  intros rs q2 HQ. by apply wpq_ret.
Qed.

Lemma exec_all_app cmds1 cmds2 s :
  exec_all (cmds1 ++ cmds2) s =
  bind (exec_all cmds1) (fun rs1 => bind (exec_all cmds2) (fun rs2 => ret (rs1 ++ rs2))) s.
Proof.
  revert s. induction cmds1 as [|m cmds IH]; intros s; cbn [exec_all app].
  - unfold bind, ret. by destruct (exec_all cmds2 s) as [s' [rs|e]].
  - unfold bind, ret in *. destruct (try_ m s) as [s1 [r|e]]; [|done]. rewrite IH.
    destruct (exec_all cmds s1) as [s2 [rs1|e]]; [|done].
    by destruct (exec_all cmds2 s2) as [s3 [rs2|e]].
Qed.

Lemma exec_all_app_ok cmds1 cmds2 q P Q :
  wpq (K_of b) (exec_all cmds1) q P ->
  (forall rs1 q1, P rs1 q1 -> wpq (K_of b) (exec_all cmds2) q1 (fun rs2 q2 => Q (rs1 ++ rs2) q2)) ->
  wpq (K_of b) (exec_all (cmds1 ++ cmds2)) q Q.
Proof.
  intros H1 H2. eapply wpq_ext; [intros; symmetry; apply exec_all_app|].
  eapply wpq_bind; [done|]. intros rs1 q1 HP. eapply wpq_bind; [by apply H2|].
  intros rs2 q2 HQ. by apply wpq_ret.
Qed.

Lemma exec_nil_ok q : wpq (K_of b) (exec_all []) q (fun rs q' => rs = [] /\ q' = q).
Proof. by apply wpq_ret. Qed.

Lemma no_text_ok {A} (m : SE rdb error A) q (P : A -> qstate -> Prop) :
  wpq (K_of b) m q P -> wpq (K_of b) (no_text m) q (fun x q' => x = None /\ exists a, P a q').
Proof. intros Hm. eapply wpq_bind; [exact Hm|]. intros x q' HP. apply wpq_ret. eauto. Qed.

(** The schedule's two writes. *)
Lemma exec_schedule_ok q job runAt json :
  wpq (K_of b) (exec_all [no_text (HSET (st_retryData b) (ID job) json);
                          no_text (ZADD (cfg_RetryKey (st_config b)) runAt (ID job))]) q
    (fun rs q' => rs = [Ok None; Ok None] /\ q' = q_schedule (ID job) runAt json q).
Proof.
  eapply exec_all_cons_ok; [eapply no_text_ok, (wpq_HSET HK)|].
  intros x q1 (-> & _ & ->). eapply exec_all_cons_ok; [eapply no_text_ok, (wpq_ZADD HK)|].
  intros x q1 (-> & _ & ->). eapply wpq_mono; [apply exec_nil_ok|]. intros rs q' [-> ->]. done.
Qed.

(** The replies a job's commands give, and the job ID read off them. *)
Definition replies_of (job : Job) (out : string) (rs : list (result error (option string))) : Prop :=
  exists xs, rs = Ok <$> xs /\ default (ID job) (mjoin (head xs)) = out.

Lemma batch_cmds_ok q now job :
  after_epoch now -> job_utf8 job ->
  wpq (K_of b) (exec_all (batch_cmds b now job)) q (fun rs q' =>
    exists out, enqueued b now job q out q' /\ replies_of job out rs /\
      length rs = length (batch_cmds b now job)).
Proof.
  intros Hn Hutf. destruct (runAt_of_spec now job Hn) as [Hr Hpos]. unfold batch_cmds.
  destruct (decide (IdempotencyKey job = "")) as [Hkey|Hkey].
  - rewrite bool_decide_eq_true_2 by done. cbn [andb negb].
    assert (keyed b job q = q) as Hkd by (unfold keyed; by rewrite bool_decide_eq_true_2).
    destruct (Z.ltb_spec now (AvailableAt job)) as [Hlt|Hge]; rewrite Hr.
    + rewrite (proj2 (Z.eqb_neq _ 0)) by (specialize (Hpos Hlt); lia). cbn [andb].
      eapply wpq_mono; [apply exec_schedule_ok|]. intros rs q' [-> ->].
      exists (ID job). rewrite <- Hkd at 2. split_and!; [by apply enq_later | | done].
      by exists [None; None].
    + rewrite Z.eqb_refl. eapply exec_all_cons_ok.
      { eapply no_text_ok, (wpq_XADD HK q (range_map (jobFields job))).
        eapply jobFields_not_nil, range_map_perm. }
      intros x q1 (-> & id & Hid & ->). eapply wpq_mono; [apply exec_nil_ok|].
      intros rs q' [-> ->]. exists (ID job). rewrite <- Hkd at 2.
      split_and!; [|by exists [None] | done]. apply enq_now; [done | done | apply range_map_perm | done].
  - rewrite bool_decide_eq_false_2 by done. cbn [andb negb].
    eapply exec_all_cons_ok.
    { eapply (wpq_bind _ _ _ _ (fun out q' => enqueued b now job q out q')).
      - by apply enqueueOnceScript_enqueued.
      - intros out q' Ho. apply (wpq_ret _ (Some out) q'
          (fun x q' => exists out, x = Some out /\ enqueued b now job q out q')). eauto. }
    intros x q1 (out & -> & Ho). eapply wpq_mono; [apply exec_nil_ok|].
    intros rs q' [-> ->]. exists out. split_and!; [done | by exists [Some out] | done].
Qed.

Lemma first_error_ok xs : first_error (Ok <$> xs) = Ok xs.
Proof. induction xs as [|x xs IH]; [done|]. cbn [first_error fmap list_fmap]. by rewrite IH. Qed.

Lemma exec_batch_ok now jobs : forall q,
  after_epoch now -> Forall job_utf8 jobs ->
  let cmds := batch_cmds b now <$> jobs in
  wpq (K_of b) (exec_all (concat cmds)) q (fun rs q' => exists outs xs,
    enqueued_all b now jobs q outs q' /\ rs = Ok <$> xs /\
    batch_ids jobs (length <$> cmds) xs = outs).
Proof.
  induction jobs as [|job jobs IH]; intros q Hn Hutf; cbn zeta; cbn [fmap list_fmap concat].
  { eapply wpq_mono; [apply exec_nil_ok|]. intros rs q' [-> ->].
    exists [], []. split_and!; [constructor | done | done]. }
  inversion Hutf as [|? ? Hj Hjs]; subst.
  eapply exec_all_app_ok; [by apply batch_cmds_ok|]. cbn beta.
  intros rs1 q1 (out & Ho & (xs & -> & Hx) & Hlen). rewrite length_fmap in Hlen.
  eapply wpq_mono; [by apply IH|]. cbn beta. intros rs2 q2 (outs & ys & Hos & -> & <-).
  exists (out :: batch_ids jobs (length <$> (batch_cmds b now <$> jobs)) ys), (xs ++ ys).
  split_and!; [by econstructor | by rewrite fmap_app |].
  cbn [batch_ids]. rewrite <- Hlen, take_app_length, drop_app_length. by rewrite Hx.
Qed.

Lemma batch_cmds_not_nil now job : batch_cmds b now job <> [].
Proof. unfold batch_cmds. by repeat case_match. Qed.

Lemma TxPipelined_ok {A} cmds q (J : qstate -> Prop) (Q : list (option string) -> qstate -> Prop)
    (k : list (option string) -> A) :
  cmds <> [] -> J q ->
  (forall q1, J q1 -> wpq (K_of b) (exec_all cmds) q1 (fun rs q' =>
     J q' /\ exists xs, rs = Ok <$> xs /\ Q xs q')) ->
  wpc (K:=K_of b) (let! xs := TxPipelined cmds in ret (k xs)) q (fun r q' => J q' /\
    match r with Ok a => exists xs, a = k xs /\ Q xs q' | Err e => net_error e end).
Proof.
  intros Hne Hq HJ. eapply (wpc_bind _ _ _ (fun r q' => J q' /\
    match r with Ok xs => Q xs q' | Err e => net_error e end)).
  - destruct cmds as [|c cmds]; [done|]. unfold TxPipelined.
    eapply wpc_bind; [apply (wpc_call _ J (fun rs q' => exists xs, rs = Ok <$> xs /\ Q xs q') q Hq HJ)| |].
    + cbn beta. intros rs q' [Hj (xs & -> & HQ)]. rewrite first_error_ok. by apply wpc_ret.
    + done.
  - intros xs q' [Hj HQ]. apply wpc_ret. eauto.
  - done.
Qed.

(** The jobs as they are stored: with an ID each. *)
Definition batch_jobs (rands : list (list ascii)) (jobs : list Job) : list Job :=
  zip_with with_ID rands jobs.

Lemma EnqueueBatch_ok q rands now jobs0 :
  after_epoch now -> Forall job_utf8 (batch_jobs rands jobs0) ->
  let jobs := batch_jobs rands jobs0 in
  wpc (K:=K_of b) (EnqueueBatch b rands now jobs0) q (fun r q' =>
    exists n, stored_times b now jobs n q q' /\
    match r with
    | Ok outs => exists m q1, n = S m /\ stored_times b now jobs m q q1 /\
                              enqueued_all b now jobs q1 outs q'
    | Err e => net_error e
    end).
Proof.
  intros Hn Hutf jobs. unfold EnqueueBatch. fold (batch_jobs rands jobs0). fold jobs.
  fold jobs in Hutf. destruct (decide (jobs = [])) as [->|Hne].
  { apply wpc_ret. exists 1%nat. split; [econstructor; constructor|].
    exists 0%nat, q. split_and!; [done | constructor | constructor]. }
  eapply wpc_mono; [apply (TxPipelined_ok _ _ (fun q' => exists n, stored_times b now jobs n q q')
    (fun xs q' => exists m q1, stored_times b now jobs m q q1 /\
      enqueued_all b now jobs q1 (batch_ids jobs (length <$> (batch_cmds b now <$> jobs)) xs) q'))|].
  - destruct jobs as [|j js]; [done|]. cbn. intros [Hb _]%app_nil. by apply batch_cmds_not_nil in Hb.
  - exists 0%nat. constructor.
  - intros q1 [n Hst]. eapply wpq_mono; [by apply exec_batch_ok|]. cbn beta.
    intros rs q' (outs & xs & Ho & -> & <-). split; [exists (S n); by econstructor | eauto 10].
  - cbn beta. intros [outs|e] q' [[n Hst] HQ]; [|eauto].
    destruct HQ as (xs & -> & m & q1 & Hm & Ho). exists (S m). split; [by econstructor | eauto 10].
Qed.

(** *** One job *)

Lemma schedule_once q now job :
  after_epoch now -> IdempotencyKey job = "" -> now < AvailableAt job ->
  wpc (K:=K_of b) (schedule b job (AvailableAt job)) q (fun r q' =>
    match r with
    | Ok _ => enqueued b now job q (ID job) q'
    | Err e => net_error e /\ (q' = q \/ enqueued b now job q (ID job) q')
    end).
Proof.
  intros Hn Hkey Hlt.
  assert (keyed b job q = q) as Hkd by (unfold keyed; by rewrite bool_decide_eq_true_2).
  set (q2 := q_schedule (ID job) (UnixMilli (AvailableAt job)) (json_Marshal (jobFields job)) q).
  assert (enqueued b now job q (ID job) q2) as Henq.
  { unfold q2. rewrite <- Hkd at 2. by apply enq_later. }
  assert (q_schedule (ID job) (UnixMilli (AvailableAt job)) (json_Marshal (jobFields job)) q2 = q2) as Hidem.
  { unfold q2, q_schedule. simpl. by rewrite !insert_insert_eq. }
  unfold schedule. eapply wpc_mono; [apply (TxPipelined_ok _ _ (fun q' => q' = q \/ q' = q2)
    (fun xs q' => q' = q2) (fun _ => tt))|].
  - done.
  - by left.
  - intros q1 Hq1. eapply wpq_mono; [apply exec_schedule_ok|]. intros rs q' [-> ->].
    assert (q_schedule (ID job) (UnixMilli (AvailableAt job)) (json_Marshal (jobFields job)) q1 = q2) as ->.
    { destruct Hq1 as [->| ->]; done. }
    split; [by right|]. by exists [None; None].
  - cbn beta. intros [[]|e] q' [Hj HQ]; [by destruct HQ as (_ & _ & ->)|].
    split; [done|]. destruct Hj as [->| ->]; auto.
Qed.

(** [Enqueue] with a key or a delay: stored exactly once when it succeeds, at
    most once otherwise, however often the request is sent. *)
Lemma Enqueue_once q rand now job0 :
  let job := with_ID rand job0 in
  after_epoch now -> job_utf8 job ->
  IdempotencyKey job <> "" \/ now < AvailableAt job ->
  wpc (K:=K_of b) (Enqueue b rand now job0) q (fun r q' =>
    match r with
    | Ok out => enqueued b now job q out q'
    | Err e => net_error e /\ (q' = q \/ exists out, enqueued b now job q out q')
    end).
Proof.
  intros job Hn Hutf Hor. unfold Enqueue. fold job. cbn zeta.
  destruct (decide (IdempotencyKey job = "")) as [Hkey|Hkey].
  - rewrite bool_decide_eq_true_2 by done. cbn [negb]. destruct Hor as [?|Hlt]; [done|].
    rewrite (proj2 (Z.ltb_lt _ _) Hlt).
    eapply wpc_bind; [by apply (schedule_once q now)|..]; cbn beta.
    + intros [] q' Ho. by apply wpc_ret.
    + intros e q' [? [?|?]]; eauto.
  - rewrite bool_decide_eq_false_2 by done. cbn [negb]. by apply enqueueOnce_ok.
Qed.

(** [Enqueue] of a plain job: every time the request runs it is stored again. *)
Lemma Enqueue_plain q rand now job0 :
  let job := with_ID rand job0 in
  after_epoch now -> IdempotencyKey job = "" -> AvailableAt job <= now ->
  wpc (K:=K_of b) (Enqueue b rand now job0) q (fun r q' =>
    exists n, stored_times b now [job] n q q' /\
    match r with Ok out => out = ID job /\ (1 <= n)%nat | Err e => net_error e end).
Proof.
  intros job Hn Hkey Hle. unfold Enqueue. fold job. cbn zeta.
  rewrite bool_decide_eq_true_2 by done. cbn [negb]. rewrite (proj2 (Z.ltb_ge _ _) Hle).
  eapply wpc_bind; [apply (wpc_call _ (fun q' => exists n, stored_times b now [job] n q q')
    (fun _ q' => exists n, stored_times b now [job] (S n) q q'))| |].
  - exists 0%nat. constructor.
  - intros q1 [n Hst]. eapply wpq_mono; [apply (wpq_XADD HK); eapply jobFields_not_nil, range_map_perm|].
    cbn beta. intros id q' [Hid ->].
    assert (stored_times b now [job] (S n) q (q_append id (range_map (jobFields job)) q1)); [|eauto].
    econstructor; [done|]. econstructor; [|constructor].
    assert (keyed b job q1 = q1) as Hkd by (unfold keyed; by rewrite bool_decide_eq_true_2).
    rewrite <- Hkd at 2. apply enq_now; [done | done | apply range_map_perm | done].
  - cbn beta. intros id q' [_ [n Hst]]. apply wpc_ret. exists (S n). split; [done|]. split; [done | lia].
  - cbn beta. intros e q' [[n Hst] He]. eauto.
Qed.
End enqueue.
