(* ===== verification/ClaimOk.v ===== *)
(** * Claiming, recovering and housekeeping

    What the store's operations that hand out deliveries do to the abstract
    queue, over a client that may lose replies and send requests again: the
    jobs returned are leased to the caller, entries that cannot be parsed are
    dead-lettered, only expired leases are taken over. *)

From S2P Require Import Prelude GoNum GoTime Errors Job GoJson Redis RefRedis Scripts QueueSpec.
From S2P Require Import QueueRep ScriptsOk QueueSteps Store JobCodec StoreOk EnqueueOk.
From Stdlib Require Import Ascii String.
From stdpp Require Import strings sorting.

Open Scope Z_scope.
Open Scope se_scope.

Section lemmas.
Context {R : Redis}.
Implicit Types q : qstate.

(** The job an entry holds, if it can be parsed. *)
Definition parsed {C : Client R} (worker : string) (e : eid * fields * Z) : option Job :=
  match parseJob e.1.1 (flatToMap e.1.2) (mkLease e.1.1 worker e.2 0) with
  | Ok j => Some j
  | Err _ => None
  end.

Lemma parsed_lease {C : Client R} w e j : parsed w e = Some j -> JLease j = mkLease e.1.1 w e.2 0.
Proof.
  unfold parsed, parseJob, rbind. intros H. repeat case_match; simplify_eq; done.
Qed.

(** Some run leads from [q] to [q']. *)
Definition reaches q q' : Prop := exists tr, qsteps tr q q'.

Lemma reaches_refl q : reaches q q.
Proof. exists []. constructor. Qed.

Lemma reaches_trans q1 q2 q3 : reaches q1 q2 -> reaches q2 q3 -> reaches q1 q3.
Proof. intros [t1 H1] [t2 H2]. exists (t1 ++ t2). by eapply qsteps_app. Qed.

Lemma reaches_step a q q' : qstep a q q' -> reaches q q'.
Proof. intros. exists [a]. by apply qsteps_one. Qed.

Lemma reaches_inv q q' : reaches q q' -> q_inv q -> q_inv q'.
Proof. intros [tr H]. by eapply qsteps_inv. Qed.

#[export] Instance reaches_preorder : PreOrder reaches.
Proof. split; [intros q; apply reaches_refl | intros q1 q2 q3; apply reaches_trans]. Qed.

Lemma reaches_last q q' : reaches q q' -> eid_le (q_last q) (q_last q').
Proof.
  intros [tr Hs]. induction Hs as [|a tr q q1 q2 Hs _ IH]; [apply eid_le_refl|].
  eapply eid_le_trans; [by eapply qstep_last | done].
Qed.

Lemma fenced_outcome_reaches own q eff r q' :
  fenced_outcome own q eff r q' ->
  (own = true -> eff q' -> reaches q q') -> reaches q q'.
Proof.
  intros Ho Heff. destruct r as [?|e]; simpl in Ho; [tauto|].
  destruct Ho as (_ & [[-> _]|[? ?]]); [reflexivity | auto].
Qed.

Lemma enqueued_reaches {L : RedisLaws R} b now job q out q' :
  0 < window_ms b -> job_utf8 job -> enqueued b now job q out q' -> reaches q q'.
Proof.
  intros Hw Hutf Hq. destruct (decodes_jobFields job Hutf) as (fs' & Hd & _).
  destruct Hq as [|q id fs Hnone _ Hp Hid|q Hnone _]; [reflexivity| |];
    unfold keyed; case_bool_decide as Hk.
  - eapply reaches_step, (step_enqueue id fs); [done | by eapply jobFields_not_nil].
  - eapply reaches_step, step_keyed_now; [done | auto | done | by eapply jobFields_not_nil].
  - by eapply reaches_step, step_schedule.
  - eapply reaches_step, step_keyed_later; [done | auto | done].
Qed.

End lemmas.

(** ** Deliveries handed to a worker *)

Section held.
Context {R : Redis} {C : Client R}.
Implicit Types q : qstate.

(** Entries delivered to [w], each with the count that is its fencing token. *)
Definition held (w : string) q (es : list (eid * fields * Z)) : Prop :=
  NoDup es.*1.*1 /\
  forall id fs t, (id, fs, t) ∈ es -> q_owns q id w t = true /\ (id, fs) ∈ q_entries q.

(** A job [w] runs: it holds the lease, and the job is what the entry says. *)
Definition leased_job (w : string) q (j : Job) : Prop :=
  let l := JLease j in
  lease_owns q l = true /\ Owner l = w /\
  exists fs, (MessageID l, fs) ∈ q_entries q /\ parsed w (MessageID l, fs, Token l) = Some j.

Lemma held_deliver w n q : q_wf q -> held w (q_deliver w n q) (first_deliveries (q_ready n q)).
Proof.
  intros Hwf. assert ((first_deliveries (q_ready n q)).*1 = q_ready n q) as E.
  { unfold first_deliveries. rewrite <- list_fmap_compose. apply list_fmap_id. }
  split.
  - rewrite E. apply StronglySorted_lt_NoDup. by apply q_ready_sorted.
  - intros id fs t (e & [= <- ->] & He)%list_elem_of_fmap. split.
    + unfold q_owns. simpl. rewrite lookup_deliver_all, decide_True.
      * simpl. by rewrite bool_decide_eq_true_2.
      * apply list_elem_of_fmap. by exists (id, fs).
    + simpl. by apply elem_of_q_ready in He as [? _].
Qed.

Lemma elem_of_q_taken q ids id fs t :
  (id, fs, t) ∈ q_taken q ids ->
  id ∈ ids /\ entry_fields (q_entries q) id = Some fs /\
  exists p, q_pel q !! id = Some p /\ t = pe_count p + 1.
Proof.
  unfold q_taken. intros (i & Hi & He)%list_elem_of_omap.
  destruct (entry_fields (q_entries q) i) as [fs'|] eqn:Ef; [|done]. simpl in He.
  destruct (q_pel q !! i) as [p|] eqn:Ep; [|done]. simpl in He. simplify_eq. eauto.
Qed.

Lemma entry_fields_in (es : list (eid * fields)) id fs :
  entry_fields es id = Some fs -> (id, fs) ∈ es.
Proof.
  induction es as [|[i f] es IH]; [done|]. cbn. case_decide as Hi.
  - intros [= ->]. subst. by left.
  - intros. right. auto.
Qed.

Lemma NoDup_q_taken q ids : NoDup ids -> NoDup (q_taken q ids).*1.*1.
Proof.
  induction 1 as [|id ids Hin _ IH]; [constructor|]. unfold q_taken. cbn [omap list_omap].
  destruct (entry_fields (q_entries q) id) as [fs|]; cbn; [|exact IH].
  destruct (q_pel q !! id) as [p|]; cbn; [|exact IH]. constructor; [|exact IH].
  intros Hx. apply list_elem_of_fmap in Hx as ([i f] & -> & Hx).
  apply list_elem_of_fmap in Hx as ([[i' f'] t] & [= -> ->] & Hx).
  apply elem_of_q_taken in Hx as [? _]. done.
Qed.

Lemma held_redeliver w ids q : NoDup ids -> held w (q_redeliver w ids q) (q_taken q ids).
Proof.
  intros Hnd. split; [by apply NoDup_q_taken|].
  intros id fs t (Hin & Hf & p & Hp & ->)%elem_of_q_taken. split.
  - unfold q_owns. simpl. rewrite lookup_claim_all, decide_True, Hp by done. simpl.
    by rewrite bool_decide_eq_true_2, Z.eqb_refl.
  - simpl. by apply entry_fields_in.
Qed.

(** The delivery [id] is as it was. *)
Definition untouched (id : eid) q q' : Prop :=
  q_pel q' !! id = q_pel q !! id /\ forall fs, (id, fs) ∈ q_entries q -> (id, fs) ∈ q_entries q'.

Lemma untouched_settle id i did pairs q :
  id <> i -> untouched id q (q_settle i (q_bury did pairs q)).
Proof.
  intros Hne. split; simpl; [by rewrite lookup_delete_ne|].
  intros fs Hfs. by apply list_elem_of_filter.
Qed.

Lemma held_leased w q q' es :
  held w q es ->
  (forall id, (forall e, e ∈ es -> parsed w e = None -> e.1.1 <> id) -> untouched id q q') ->
  Forall (leased_job w q') (omap (parsed w) es) /\ NoDup (MessageID ∘ JLease <$> omap (parsed w) es).
Proof.
  intros [Hnd Hheld] Hunt. split.
  - apply Forall_forall. intros j ([[id fs] t] & Hin & Hp)%list_elem_of_omap.
    pose proof (parsed_lease _ _ _ Hp) as El. simpl in El.
    destruct (Hheld id fs t Hin) as [Hown Hent].
    destruct (Hunt id) as [Hpel Hents].
    { intros [[id' fs'] t'] He Hnone Heq. simpl in Heq. subst id'.
      assert ((id, fs', t') = (id, fs, t)) as [= -> ->]; [|congruence].
      rewrite <- list_fmap_compose in Hnd.
      by eapply (NoDup_fmap_elem _ _ _ _ Hnd). }
    unfold leased_job. rewrite El. simpl. split_and!; [|done|eauto].
    unfold lease_owns, q_owns in *. simpl. by rewrite Hpel.
  - rewrite <- list_fmap_compose in Hnd. clear Hheld Hunt.
    induction es as [|e es IH]; [constructor|]. cbn in Hnd. apply NoDup_cons in Hnd as [Hnin Hnd].
    cbn. destruct (parsed w e) as [j|] eqn:Hp; [|auto]. cbn. constructor; [|auto].
    pose proof (parsed_lease _ _ _ Hp) as El. rewrite El. simpl. intros Hx.
    apply Hnin. apply list_elem_of_fmap in Hx as (j' & Ej & Hj').
    apply list_elem_of_omap in Hj' as (e' & He' & Hp'). pose proof (parsed_lease _ _ _ Hp') as El'.
    simpl in Ej. rewrite El' in Ej. simpl in Ej. rewrite Ej. apply list_elem_of_fmap. eauto.
Qed.
End held.

(** ** The operations *)

Section operations.
Context {R : Redis} {L : RedisLaws R} {C : Client R} {CL : ClientLaws C}.
Context (b : Store) (HK : keys_ok (K_of b)).
Implicit Types q : qstate.

(** Parsing deliveries: the jobs are those that parse, in order; the others are
    dead-lettered, at most once each, and nothing else changes. *)
Lemma parse_all_ok w es : forall q,
  wpc (K:=K_of b) (parse_all b w es) q (fun r q' =>
    r = Ok (omap (parsed w) es) /\ reaches q q' /\
    forall id, (forall e, e ∈ es -> parsed w e = None -> e.1.1 <> id) -> untouched id q q').
Proof.
  induction es as [|[[id fs] t] es IH]; intros q; cbn [parse_all].
  { apply wpc_ret. split_and!; [done | reflexivity | done]. }
  eapply (wpc_bind _ _ _ (fun r q' => r = Ok (parsed w (id, fs, t)) /\ reaches q q' /\
    forall i, (parsed w (id, fs, t) = None -> id <> i) -> untouched i q q')).
  - unfold parseOrQuarantine, parsed. simpl.
    destruct (parseJob id (flatToMap fs) (mkLease id w t 0)) as [j|e].
    { apply wpc_ret. split_and!; [done | reflexivity | done]. }
    eapply wpc_bind; [apply wpc_try, (fenced_dead_ok b HK); done | |]; cbn beta.
    + intros r q' (x & [= <-] & Ho). apply wpc_ret. split_and!; [done| |].
      * eapply fenced_outcome_reaches; [done|]. intros Hown [did ->].
        eapply reaches_step, (step_settle _ _ _ (Buried _) did); [exact Hown | done].
      * intros i Hi. specialize (Hi eq_refl).
        assert (q' = q \/ exists did pairs, q' = q_settle id (q_bury did pairs q)) as [->|(did & pairs & ->)].
        { destruct r as [?|?]; simpl in Ho; naive_solver. }
        -- done.
        -- by apply untouched_settle.
    + intros e' q' (x & [=] & _).
  - intros oj q1 ([= ->] & Hr1 & Hu1). eapply wpc_bind; [apply IH| |]; cbn beta.
    + intros js q2 ([= ->] & Hr2 & Hu2). apply wpc_ret. split_and!.
      * cbn. by destruct (parsed w (id, fs, t)).
      * by etrans.
      * intros i Hi. assert (untouched i q q1) as [Hp1 He1].
        { apply Hu1. intros Hn. apply (Hi (id, fs, t)); [by left | done]. }
        assert (untouched i q1 q2) as [Hp2 He2].
        { apply Hu2. intros e He. apply Hi. by right. }
        split; [congruence | auto].
    + intros e q2 ([=] & _).
  - intros e q1 ([=] & _).
Qed.

(** What a call that hands out deliveries returns. *)
Definition handed_out (w : string) (limit : Z) q' (jobs : list Job) : Prop :=
  Forall (leased_job w q') jobs /\ NoDup (MessageID ∘ JLease <$> jobs) /\
  Z.of_nat (length jobs) <= limit.

(** Never delivered before. *)
Definition unread q (es : list (eid * fields)) : Prop := Forall (fun e => eid_lt (q_last q) e.1) es.
Definition new_jobs q (jobs : list Job) : Prop := Forall (fun j => eid_lt (q_last q) (MessageID (JLease j))) jobs.

Lemma unread_ready q q1 n : reaches q q1 -> unread q (q_ready n q1).
Proof.
  intros Hr. apply Forall_forall. intros e [_ He]%elem_of_q_ready. eapply eid_le_lt_trans; [by apply reaches_last | done].
Qed.

Lemma unread_new w q es : unread q es -> new_jobs q (omap (parsed w) (first_deliveries es)).
Proof.
  intros Hu. apply Forall_forall. intros j (e & He & Hp)%list_elem_of_omap. rewrite (parsed_lease _ _ _ Hp).
  apply list_elem_of_fmap in He as (e' & -> & He'). unfold unread in Hu. rewrite Forall_forall in Hu. by apply (Hu e').
Qed.

Lemma length_omap_le {A B} (f : A -> option B) l : (length (omap f l) <= length l)%nat.
Proof. induction l as [|a l IH]; cbn; [lia|]. destruct (f a); cbn; lia. Qed.

Lemma parse_held_ok w es q limit :
  held w q es -> Z.of_nat (length es) <= limit ->
  wpc (K:=K_of b) (parse_all b w es) q (fun r q' => reaches q q' /\
    r = Ok (omap (parsed w) es) /\ handed_out w limit q' (omap (parsed w) es)).
Proof.
  intros Hh Hlen. eapply wpc_mono; [apply parse_all_ok|]. cbn beta.
  intros r q' (-> & Hr & Hu). split_and!; [done | done|].
  destruct (held_leased w q q' es Hh Hu) as [H1 H2]. split_and!; [done | done|].
  pose proof (length_omap_le (parsed w) es). lia.
Qed.

Lemma length_q_ready n q : 0 <= n -> Z.of_nat (length (q_ready n q)) <= n.
Proof. intros. unfold q_ready. rewrite length_take. lia. Qed.

Lemma claimReady_ok q w limit now :
  0 < limit -> q_inv q ->
  wpc (K:=K_of b) (claimReady b w limit now) q (fun r q' => reaches q q' /\
    match r with
    | Ok jobs => handed_out w limit q' jobs /\ Forall (fun j => Token (JLease j) = 1) jobs /\ new_jobs q jobs
    | Err e => exists e', e = ErrWrap "claim: " e' "" /\ net_error e'
    end).
Proof.
  intros Hlim Hinv. unfold claimReady.
  eapply (wpc_bind _ _ _ (fun x q' => exists r, x = Ok r /\ reaches q q' /\
    match r with
    | Ok es => held w q' (first_deliveries es) /\ Z.of_nat (length es) <= limit /\ unread q es
    | Err e => net_error e
    end)); [|cbn beta|by intros e q' (r & [=] & _)].
  - eapply wpc_mono; [apply wpc_try, (wpc_call _ (fun q' => reaches q q')
      (fun es q' => held w q' (first_deliveries es) /\ Z.of_nat (length es) <= limit /\ unread q es))|].
    + reflexivity.
    + intros q1 Hr1. pose proof (reaches_inv _ _ Hr1 Hinv) as [Hwf1 Hd1].
      eapply wpq_mono; [by apply (claimScript_ok HK)|]. cbn beta.
      intros es q' (l & q2 & Hdue & Hp & -> & ->).
      assert (reaches q1 q2) as Hr2 by (by eapply reaches_step, step_promote).
      assert (reaches q2 (q_deliver w limit q2)) as Hr3 by (by eapply reaches_step, step_deliver).
      split_and!.
      * etrans; [|exact Hr3]. by etrans.
      * apply held_deliver. by destruct (reaches_inv _ _ Hr2 (conj Hwf1 Hd1)).
      * apply length_q_ready. lia.
      * apply unread_ready. by etrans.
    + cbn beta. intros x q' (r & -> & Hr & Hx). eauto.
  - intros r q1 (r' & [= <-] & Hr & Hx). destruct r as [es|e].
    + destruct Hx as (Hh & Hlen & Hun). eapply wpc_mono; [apply (parse_held_ok w _ _ limit Hh)|].
      { unfold first_deliveries. by rewrite length_fmap. }
      cbn beta. intros r q' (Hr' & -> & Hho). split_and!; [by etrans | done| | by apply unread_new].
      apply Forall_forall. intros j (e & He & Hp)%list_elem_of_omap.
      rewrite (parsed_lease _ _ _ Hp). simpl.
      by apply list_elem_of_fmap in He as (e' & -> & _).
    + apply wpc_throw. eauto.
Qed.

(** *** Recovery *)

Lemma drops_reach gone : forall q,
  Forall (q_idle_consumer q) gone -> reaches q (foldl (fun q c => q_drop_consumer c q) q gone).
Proof.
  induction gone as [|c gone IH]; intros q Hg; cbn [foldl]; [reflexivity|].
  inversion Hg; subst. etrans; [by eapply reaches_step, step_drop|]. by apply IH.
Qed.

Lemma drops_same gone : forall q,
  q_pel (foldl (fun q c => q_drop_consumer c q) q gone) = q_pel q /\
  q_now (foldl (fun q c => q_drop_consumer c q) q gone) = q_now q.
Proof. induction gone as [|c gone IH]; intros q; cbn [foldl]; [done|]. apply (IH (q_drop_consumer c q)). Qed.

(** Pruning leaves every delivery alone. *)
Definition same_deliveries q q' : Prop := q_pel q' = q_pel q /\ q_now q' = q_now q.

Lemma pruneConsumers_ok q :
  wpc (K:=K_of b) (pruneConsumers b) q (fun r q' => reaches q q' /\ same_deliveries q q' /\
    match r with Ok _ => True | Err e => net_error e end).
Proof.
  unfold pruneConsumers. eapply wpc_bind.
  - apply (wpc_call _ (fun q' => reaches q q' /\ same_deliveries q q') (fun _ _ => True)); [done|].
    intros q1 [Hr [Hp Hn]]. eapply wpq_mono; [apply (pruneConsumersScript_ok HK)|]. cbn beta.
    intros n q' (gone & _ & Hg & ->). split; [|done]. destruct (drops_same gone q1) as [E1 E2].
    split; [|split; congruence]. etrans; [exact Hr|]. apply drops_reach.
    eapply Forall_impl; [exact Hg|]. by intros c [? _].
  - cbn beta. intros a q' [[? ?] _]. by apply wpc_ret.
  - cbn beta. intros e q' [[? ?] ?]. done.
Qed.

(** A lease taken over at [q]: it had expired, and the new token is one more
    than the count it had. *)
Definition taken_over (q : qstate) (minIdle : Z) (j : Job) : Prop :=
  exists p, q_pel q !! MessageID (JLease j) = Some p /\
    minIdle <= q_now q - pe_time p /\ Token (JLease j) = pe_count p + 1.

Lemma recover_call_ok q w minIdle limit cursor :
  0 < limit -> q_inv q ->
  wpc (K:=K_of b) (call (recoverScript (cfg_Stream (st_config b)) (cfg_Group (st_config b))
      w minIdle limit cursor)) q (fun r q' => reaches q q' /\
    match r with
    | Ok out => held w q' out.2 /\ Z.of_nat (length out.2) <= limit /\
        exists q1 ids, reaches q q1 /\ q_now q1 = q_now q /\ out.2 = q_taken q1 ids /\
          forall id, id ∈ ids -> expired (q_now q1) minIdle (q_pel q1) id
    | Err e => net_error e
    end).
Proof.
  intros Hlim Hinv. eapply wpc_mono; [apply (wpc_call _
    (fun q' => reaches q q' /\ q_now q' = q_now q)
    (fun out q' => held w q' out.2 /\ Z.of_nat (length out.2) <= limit /\
        exists q1 ids, reaches q q1 /\ q_now q1 = q_now q /\ out.2 = q_taken q1 ids /\
          forall id, id ∈ ids -> expired (q_now q1) minIdle (q_pel q1) id))|].
  - done.
  - intros q1 [Hr1 Hn1]. pose proof (reaches_inv _ _ Hr1 Hinv) as [Hwf1 _].
    pose proof (pel_scan_ref (q_pel q1) cursor) as Hl.
    eapply wpq_mono; [by apply (recoverScript_ok HK)|].
    intros out q' (n & -> & -> & Hlen & _). cbn [fst snd app].
    set (ids := filter _ _) in *.
    assert (NoDup ids) as Hnd by (by eapply NoDup_claimed).
    assert (forall id, id ∈ ids -> is_Some (q_pel q1 !! id)) as Hpend
      by (intros; by eapply elem_of_claimed).
    split_and!.
    + etrans; [exact Hr1|]. by eapply reaches_step, step_redeliver.
    + done.
    + by apply held_redeliver.
    + rewrite length_q_taken by done. simpl in Hlen. lia.
    + exists q1, ids. split_and!; [done | done | done|].
      by intros id [? _]%list_elem_of_filter.
  - cbn beta. intros r q' [[? ?] ?]. by split.
Qed.

Lemma taken_expired q ids minIdle w j :
  (forall id, id ∈ ids -> expired (q_now q) minIdle (q_pel q) id) ->
  j ∈ omap (parsed w) (q_taken q ids) -> taken_over q minIdle j.
Proof.
  intros Hids ([[id fs] t] & Hin & Hp)%list_elem_of_omap.
  apply elem_of_q_taken in Hin as (Hin & _ & p & Hpel & ->). specialize (Hids id Hin).
  unfold expired, idle_of in Hids. rewrite Hpel in Hids. unfold taken_over.
  rewrite (parsed_lease _ _ _ Hp). simpl. eauto.
Qed.

Lemma RecoverExpired_ok q s vt w limit now1 now2 :
  0 < limit -> q_inv q -> represents (K_of b) (view s) q ->
  exists s' b' r q',
    RecoverExpired b vt w limit now1 now2 s = (s', (b', r)) /\
    represents (K_of b) (view s') q' /\ frame (K_of b) (view s) (view s') /\
    reaches q q' /\ st_config b' = st_config b /\ st_retryData b' = st_retryData b /\
    match r with
    | Ok jobs => handed_out w limit q' jobs /\
        exists q1, reaches q q1 /\ q_now q1 = q_now q /\
          Forall (taken_over q1 (Milliseconds vt)) jobs
    | Err e => net_error e
    end.
Proof.
  intros Hlim Hinv Hs. unfold RecoverExpired. rewrite (proj2 (Z.leb_gt _ _) Hlim).
  set (prune := _ <=? _). set (b1 := if prune then set_lastPrune b now2 else b).
  set (s1 := if prune then (pruneConsumers b1 s).1 else s).
  assert (st_config b1 = st_config b /\ st_retryData b1 = st_retryData b) as [Hc1 Hd1]
    by (unfold b1; by destruct prune).
  assert (exists q1, represents (K_of b) (view s1) q1 /\ frame (K_of b) (view s) (view s1) /\
    reaches q q1 /\ q_now q1 = q_now q) as (q1 & Hs1 & Hf1 & Hr1 & Hn1).
  { unfold s1. destruct prune; [|by exists q].
    assert (pruneConsumers b1 = pruneConsumers b) as -> by (unfold pruneConsumers; by rewrite Hc1).
    destruct (pruneConsumers_ok q s Hs) as (s' & r & q1 & E & ? & ? & ? & (? & ?) & _).
    rewrite E. by exists q1. }
  pose proof (reaches_inv _ _ Hr1 Hinv) as Hinv1.
  destruct (recover_call_ok q1 w (Milliseconds vt) limit (st_recoverCursor b) Hlim Hinv1 s1 Hs1)
    as (s2 & r & q2 & E & Hs2 & Hf2 & Hr2 & Hpost). rewrite E.
  destruct r as [[next es]|e].
  - destruct Hpost as (Hh & Hlen & qm & ids & Hrm & Hnm & Hes & Hids). cbn [snd] in *.
    assert (parse_all (set_cursor b1 next) w es = parse_all b w es) as ->.
    { clear -Hc1. induction es as [|[[id fs] t] es IH]; cbn [parse_all]; [done|]. rewrite IH.
      unfold parseOrQuarantine, fenced. simpl. by rewrite Hc1. }
    destruct (parse_held_ok w es q2 limit Hh Hlen s2 Hs2)
      as (s3 & r & q3 & E3 & Hs3 & Hf3 & Hr3 & -> & Hho). rewrite E3.
    exists s3, (set_cursor b1 next), (Ok (omap (parsed w) es)), q3.
    split_and!; [done | done | | | done | done | done |].
    + etrans; [exact Hf1|]. by etrans.
    + etrans; [exact Hr1|]. etrans; [exact Hr2 | exact Hr3].
    + exists qm. split_and!; [etrans; [exact Hr1 | exact Hrm] | congruence |]. apply Forall_forall. intros j Hj.
      rewrite Hes in Hj. by eapply taken_expired.
  - exists s2, b1, (Err e), q2. split_and!; [done | done | by etrans | by etrans | done..].
Qed.

Lemma Deregister_ok q w :
  wpc (K:=K_of b) (Deregister b w) q (fun r q' =>
    (q' = q \/ (q_idle_consumer q w /\ q' = q_drop_consumer w q)) /\
    match r with Ok _ => True | Err e => net_error e end).
Proof.
  unfold Deregister. eapply wpc_bind.
  - apply (wpc_call _ (fun q' => q' = q \/ (q_idle_consumer q w /\ q' = q_drop_consumer w q))
      (fun _ _ => True)); [by left|].
    intros q1 Hq1. eapply wpq_mono; [apply (deregisterScript_ok HK)|]. cbn beta.
    intros n q' Hn. split; [|done].
    destruct Hn as [(_ & Hidle & ->)|(_ & _ & ->)]; [|done].
    destruct Hq1 as [->|[Hi ->]]; [by right|]. right. split; [done|].
    unfold q_drop_consumer. simpl. by rewrite delete_delete_eq.
  - cbn beta. intros a q' [? _]. by apply wpc_ret.
  - done.
Qed.

Lemma promoteRetries_ok q limit now :
  0 <= limit -> q_inv q ->
  wpc (K:=K_of b) (promoteRetries b limit now) q (fun r q' => reaches q q' /\
    match r with Ok n => 0 <= n <= limit | Err e => net_error e end).
Proof.
  intros Hlim Hinv. unfold promoteRetries.
  apply (wpc_call _ (fun q' => reaches q q') (fun n _ => 0 <= n <= limit)); [reflexivity|].
  intros q1 Hr1. pose proof (reaches_inv _ _ Hr1 Hinv) as [_ Hd1].
  eapply wpq_mono; [by apply (promote_ok HK)|]. cbn beta.
  intros n q' (l & Hdue & -> & Hp). split.
  - etrans; [exact Hr1|]. by eapply reaches_step, step_promote.
  - rewrite length_take. lia.
Qed.

(** *** Blocking reads

    While a read is blocked the server serves other clients and its clock runs,
    so these triples have no frame. *)

Definition wpe {A} (m : SE rdb error A) q (Q : result error A -> qstate -> Prop) : Prop :=
  forall s, represents (K_of b) (view s) q -> exists s' r q',
    m s = (s', r) /\ represents (K_of b) (view s') q' /\ Q r q'.

Lemma wpe_of_wpc {A} (m : SE rdb error A) q Q : wpc (K:=K_of b) m q Q -> wpe m q Q.
Proof. intros Hm s Hs. destruct (Hm s Hs) as (s' & r & q' & ? & ? & _ & ?). eauto 10. Qed.

Lemma wpe_bind {A B} (m : SE rdb error A) (k : A -> SE rdb error B) q P Q :
  wpe m q P -> (forall a q', P (Ok a) q' -> wpe (k a) q' Q) ->
  (forall e q', P (Err e) q' -> Q (Err e) q') -> wpe (bind m k) q Q.
Proof.
  intros Hm Hk He s Hs. destruct (Hm s Hs) as (s' & r & q' & Em & Hs' & HP). unfold bind.
  rewrite Em. destruct r as [a|e]; [by apply (Hk a q' HP s' Hs') | eauto 10].
Qed.

Lemma wpe_mono {A} (m : SE rdb error A) q (P Q : result error A -> qstate -> Prop) :
  wpe m q P -> (forall r q', P r q' -> Q r q') -> wpe m q Q.
Proof. intros Hm HPQ s Hs. destruct (Hm s Hs) as (s' & r & q' & ? & ? & ?). eauto 10. Qed.

Lemma wpe_try {A} (m : SE rdb error A) q P :
  wpe m q P -> wpe (try_ m) q (fun r q' => exists x, r = Ok x /\ P x q').
Proof.
  intros Hm s Hs. destruct (Hm s Hs) as (s' & r & q' & Em & ? & ?). unfold try_. rewrite Em. eauto 10.
Qed.

Lemma wpe_call {A} (m : SE rdb error A) (J : qstate -> Prop) (Q : A -> qstate -> Prop) q :
  J q -> (forall q1, J q1 -> wpe m q1 (fun r q' => J q' /\ exists a, r = Ok a /\ Q a q')) ->
  wpe (call m) q (fun r q' => J q' /\ match r with Ok a => Q a q' | Err e => net_error e end).
Proof.
  intros Hq HJ s Hs.
  assert (forall n q s r, J q -> represents (K_of b) (view s) q ->
    exists s' r' q', repeat_run n m r s = (s', r') /\ represents (K_of b) (view s') q' /\ J q' /\
      (n = 0%nat \/ exists a, r' = Ok a /\ Q a q')) as Hrun.
  { induction n as [|n IH]; intros q0 s0 r0 Hq0 Hs0; [exists s0, r0, q0; auto|].
    destruct (HJ q0 Hq0 s0 Hs0) as (s1 & r1 & q1 & E1 & Hs1 & Hq1 & HQ1). cbn [repeat_run]. rewrite E1.
    destruct n as [|n']; [exists s1, r1, q1; auto 10|].
    destruct (IH q1 s1 r1 Hq1 Hs1) as (s2 & r2 & q2 & E2 & Hs2 & Hq2 & HQ2). rewrite E2.
    exists s2, r2, q2. split_and!; [done..|]. right. by destruct HQ2 as [?|HQ2]. }
  destruct (call_law A m s) as (n & [(r & Ec)|(r & e & Ec & He)]).
  - destruct (Hrun (S n) q s r Hq Hs) as (s' & r' & q' & Er & Hs' & Hq' & [?|(a & -> & HQ)]); [done|].
    exists s', (Ok a), q'. split_and!; [congruence | done..].
  - destruct (Hrun n q s r Hq Hs) as (s' & r' & q' & Er & Hs' & Hq' & _).
    exists s', (Err e), q'. split_and!; [by rewrite Ec, Er | done..].
Qed.

(** What happens while a read is blocked are steps of the queue. *)
Definition env_ok (blocked : rdb -> rdb) : Prop :=
  forall s q, represents (K_of b) (view s) q ->
    exists q', represents (K_of b) (view (blocked s)) q' /\ reaches q q'.

Lemma blocked_read_ok q w limit blocked :
  0 < limit -> q_inv q -> env_ok blocked ->
  wpe (fun s => XREADGROUP (cfg_Stream (st_config b)) (cfg_Group (st_config b)) w limit (blocked s)) q
    (fun r q' => reaches q q' /\ exists o, r = Ok o /\
       held w q' (first_deliveries (default [] o)) /\ Z.of_nat (length (default [] o)) <= limit /\
       unread q (default [] o)).
Proof.
  intros Hlim Hinv Henv s Hs. destruct (Henv s q Hs) as (q1 & Hs1 & Hr1).
  destruct (wpq_XREADGROUP HK q1 w limit Hlim (blocked s) Hs1)
    as (s' & o & E & q' & Hs' & _ & -> & Ho).
  exists s', (Ok o), (q_deliver w limit q1). split_and!; [done | done | |].
  - etrans; [exact Hr1|]. by eapply reaches_step, step_deliver.
  - exists o. rewrite Ho. split_and!; [done | | apply length_q_ready; lia | by apply unread_ready].
    apply held_deliver. by destruct (reaches_inv _ _ Hr1 Hinv).
Qed.

Lemma claimBlocking_ok q w limit blocked done :
  0 < limit -> q_inv q -> env_ok blocked ->
  wpe (claimBlocking b w limit blocked done) q (fun r q' => reaches q q' /\
    match r with
    | Ok jobs => handed_out w limit q' jobs /\ new_jobs q jobs
    | Err e => exists e', e = ErrWrap ("xreadgroup for " +:+ w +:+ ": ") e' "" /\ net_error e'
    end).
Proof.
  intros Hlim Hinv Henv. unfold claimBlocking.
  eapply wpe_bind; [eapply wpe_try, (wpe_call _ (fun q' => reaches q q') (fun o q' =>
    held w q' (first_deliveries (default [] o)) /\ Z.of_nat (length (default [] o)) <= limit /\ unread q (default [] o)))| |];
    [reflexivity | | cbn beta | by intros e q' (x & [=] & _)].
  { intros q1 Hr1. eapply wpe_mono; [apply blocked_read_ok; [done | by eapply reaches_inv | done]|].
    cbn beta. intros r q' [Hr (o & -> & Hh & Hlen & Hun)]. split; [by etrans|]. exists o. split_and!; try done.
    eapply Forall_impl; [exact Hun|]. intros e. apply eid_le_lt_trans. by apply reaches_last. }
  intros x q1 (r & [= <-] & Hr1 & Hx). destruct x as [[es|]|e].
  - destruct Hx as (Hh & Hlen & Hun). apply wpe_of_wpc.
    eapply wpc_mono; [apply (parse_held_ok w _ _ limit Hh)|].
    { unfold first_deliveries. rewrite length_fmap. done. }
    cbn beta. intros r q' (Hr' & -> & Hho). split; [by etrans|]. split; [done | by apply unread_new].
  - apply wpe_of_wpc, wpc_ret. split; [done|]. split; [|constructor]. split_and!; [done | constructor | simpl; lia].
  - destruct (negb done && isTimeout e); apply wpe_of_wpc.
    + apply wpc_ret. split; [done|]. split; [|constructor]. split_and!; [done | constructor | simpl; lia].
    + apply wpc_throw. eauto.
Qed.

Lemma Claim_ok q w limit wait now blocked done :
  0 < limit -> q_inv q -> env_ok blocked ->
  wpe (Claim b w limit wait now blocked done) q (fun r q' => reaches q q' /\
    match r with Ok jobs => handed_out w limit q' jobs /\ new_jobs q jobs | Err e => True end).
Proof.
  intros Hlim Hinv Henv. unfold Claim.
  eapply wpe_bind; [by apply wpe_of_wpc, claimReady_ok| |]; cbn beta.
  - intros jobs q1 [Hr1 (Hho & _ & Hnew)]. destruct (_ || _).
    + by apply wpe_of_wpc, wpc_ret.
    + eapply wpe_mono; [apply claimBlocking_ok; [done | by eapply reaches_inv | done]|].
      cbn beta. intros r q' [Hr Hpost]. split; [by etrans|]. destruct r as [jobs'|e]; [|done].
      destruct Hpost as [Hho' Hnew']. split; [done|]. eapply Forall_impl; [exact Hnew'|].
      intros j. apply eid_le_lt_trans. by apply reaches_last.
  - intros e q1 [Hr1 _]. done.
Qed.
End operations.
