(* ===== verification/Demo.v ===== *)
(** * Keyspaces and jobs for the witnesses

    [rep_view K q] is a keyspace that holds [q] under the keys [K], so what the theorems
    assume about the server can be met for every queue; a client that delivers every
    request once; and a small queue with a job in flight and one that waits. *)

From S2P Require Import Prelude GoNum GoTime Errors Job GoJson Redis RefRedis QueueSpec QueueRep.
From S2P Require Import Scripts ScriptsOk QueueSteps Store JobCodec StoreOk.
From stdpp Require Import strings.

Open Scope Z_scope.

(** ** A keyspace for any queue *)

Definition rep_view (K : qkeys) (q : qstate) : rview :=
  put_stream (k_stream K)
    (Stream (q_entries q) (q_top q) {[ k_group K := Group (q_last q) (q_pel q) (q_cons q) ]})
    (put_zset (k_zset K) (q_sched q)
      (put_hash (k_data K) (q_data q)
        (put_stream (k_dead K) (Stream (q_dead q) (0%N, 0%N) ∅)
          (RView (kmap (String.app (k_dedupe K)) (dedupe_value <$> q_dedupe q)) (q_now q))))).

Lemma rep_view_ok K q : keys_ok K -> represents K (rep_view K q) q.
Proof.
  intros HK. pose proof (ko_dedupe _ HK) as Hd. destruct HK as [H1 H2 H3 H4 H5 H6 _].
  unfold rep_view, put_stream, put_zset, put_hash.
  split; unfold stream_at, zset_at, hash_at, stream_or_new.
  - exists {[ k_group K := Group (q_last q) (q_pel q) (q_cons q) ]}.
    rewrite lookup_put_key_eq, lookup_singleton_eq. done.
  - rewrite lookup_put_key_ne, lookup_put_key_eq by done. case_decide as E; by rewrite ?E.
  - rewrite !lookup_put_key_ne, lookup_put_key_eq by congruence. case_decide as E; by rewrite ?E.
  - rewrite !lookup_put_key_ne, lookup_put_key_eq by congruence. eauto.
  - intros key. destruct (Hd key _ eq_refl) as (? & ? & ? & ?).
    rewrite !lookup_put_key_ne by congruence. simpl.
    by rewrite (lookup_kmap (String.app (k_dedupe K))), lookup_fmap.
  - done.
Qed.

(** ** A client whose network does not fail *)

#[export] Instance ref_client : Client ref_redis := {|
  call A m := m;
  range_map m := map_to_list m;
  atoi_error s := ErrMsg ("strconv.Atoi: parsing " +:+ s +:+ ": invalid syntax");
  time_error s := ErrMsg ("parsing time " +:+ s +:+ ": cannot parse");
|}.

#[export] Instance ref_client_laws : ClientLaws ref_client.
Proof.
  split; [|done]. intros A m s. exists 0%nat. left. exists (Err ErrNet). cbn.
  by destruct (m s) as [s' r].
Qed.

Lemma ref_client_reliable : reliable ref_client.
Proof. done. Qed.

(** ** The store with the default configuration *)

Definition default_config : Config := with_defaults (mkConfig "" "" "" "" "" "" 0 0).
Definition default_store : Store := new_store default_config.

Lemma default_keys_ok : keys_ok (K_of default_store).
Proof.
  split; try (vm_compute; discriminate). intros key k ->.
  unfold default_store, default_config. simpl. norm_str. done.
Qed.

(** ** A queue with two jobs *)

(** Two jobs: [demo_job], delivered once to "w1" 59 seconds ago, and
    [demo_job2], not delivered yet. *)
Definition demo_time : Z := 1700000000 * second.

Definition demo_lease : Lease := mkLease (5%N, 0%N) "w1" 1 0.

Definition demo_job : Job :=
  mkJob "a1" "email" "{}" 0 3 "" demo_time demo_time "" demo_lease.

Definition demo_job2 : Job :=
  mkJob "b2" "email" "{}" 0 3 "" demo_time demo_time "" zeroLease.

Definition demo_fields (j : Job) : fields := map_to_list (jobFields j).

Definition demo_q : qstate :=
  QState [((5%N, 0%N), demo_fields demo_job); ((6%N, 0%N), demo_fields demo_job2)]
    (6%N, 0%N) (5%N, 0%N)
    {[ (5%N, 0%N) := PEntry "w1" 1000 1 ]} {[ "w1" := 1000 ]}
    ∅ ∅ [] ∅ 60000.

Definition demo_db : rview := rep_view (K_of default_store) demo_q.

Lemma demo_represents : represents (K_of default_store) demo_db demo_q.
Proof. apply rep_view_ok, default_keys_ok. Qed.

Lemma demo_wf : q_wf demo_q.
Proof.
  split.
  - repeat constructor; vm_compute; intuition lia.
  - intros id. unfold q_ids. simpl. rewrite !elem_of_cons, elem_of_nil.
    intros [->|[->|[]]]; left; reflexivity.
  - intros id. unfold q_ids. simpl. rewrite !elem_of_cons, elem_of_nil.
    intros [->|[->|[]]]; [right; left; reflexivity | by left].
  - right. left. reflexivity.
  - intros id. unfold q_ids. simpl. rewrite !elem_of_cons, elem_of_nil. intros [->|[->|[]]] Hle.
    + rewrite lookup_singleton_eq. eauto.
    + exfalso. destruct Hle as [[=]|Hlt]. unfold eid_lt in Hlt. simpl in Hlt. lia.
  - intros id p. simpl. intros [<- <-]%lookup_singleton_Some. unfold q_ids. simpl.
    split_and!; [by left | by left | lia | rewrite lookup_singleton_eq; eauto].
  - done.
Qed.

Lemma demo_inv : q_inv (R:=ref_redis) demo_q.
Proof. split; [apply demo_wf|]. intros jid json. simpl. by rewrite lookup_empty. Qed.

Lemma demo_owns : lease_owns demo_q demo_lease = true.
Proof. reflexivity. Qed.

Lemma demo_job_ok : job_ok demo_job.
Proof. split; [discriminate | by split | by split | vm_compute; split; congruence..]. Qed.

Lemma demo_job_utf8 : job_utf8 demo_job.
Proof. by split_and!. Qed.
