(* ===== verification/QueueProps.v ===== *)
(** * The queue over all runs

    Safety of every run of the transition system of [QueueSteps]; [StoreRun]
    shows that the runs of a store are among them. *)

From S2P Require Import Prelude GoNum GoTime Errors Job GoJson Redis RefRedis Scripts QueueSpec.
From S2P Require Import QueueRep ScriptsOk QueueSteps Store JobCodec StoreOk EnqueueOk ClaimOk.
From S2P Require Import Demo.
From stdpp Require Import strings sorting.

Open Scope Z_scope.

Section runs.
Context {R : Redis}.
Implicit Types q : qstate.

(** *** Where a run did something *)

(** The run [tr] from [q] makes a step [a] from some state [q1] to [q2]. *)
Definition occurs (tr : list label) q (a : label) q1 q2 : Prop :=
  exists tr1 tr2, tr = tr1 ++ a :: tr2 /\ qsteps tr1 q q1 /\ qstep a q1 q2.

Lemma occurs_here a tr q q1 : qstep a q q1 -> occurs (a :: tr) q a q q1.
Proof. intros. exists [], tr. split_and!; [done | constructor | done]. Qed.

Lemma occurs_later b tr q q' a q1 q2 :
  qstep b q q' -> occurs tr q' a q1 q2 -> occurs (b :: tr) q a q1 q2.
Proof.
  intros Hb (tr1 & tr2 & -> & H1 & H2). exists (b :: tr1), tr2. split_and!; [done | by econstructor | done].
Qed.

Lemma entries_occurs tr q q' e :
  qsteps tr q q' -> e ∈ q_entries q ->
  e ∈ q_entries q' \/
  exists o t f q1 q2, occurs tr q (LSettle e.1 o t f) q1 q2 /\ q_owns q1 e.1 o t = true.
Proof.
  induction 1 as [q|a tr q q1 q2 Hs Hss IH]; intros He; [by left|].
  destruct (qstep_entries a q q1 e Hs He) as [He1|(o & t & f & ->)].
  - destruct (IH He1) as [?|(o & t & f & qa & qb & Hoc & Hown)]; [by left | right].
    exists o, t, f, qa, qb. split; [by eapply occurs_later | done].
  - right. exists o, t, f, q, q1. split; [by apply occurs_here|]. by inversion Hs.
Qed.

(** The labels that write a job ID into the schedule. *)
Definition schedules (jid : string) (a : label) : Prop :=
  match a with
  | LSettle _ _ _ (Retried j _ _) | LSchedule j _ | LKeyed _ j _ => j = jid
  | _ => False
  end.

Lemma due_NoDup (z : gmap string Z) now l n : due_list z now l -> NoDup (take n l).
Proof.
  intros [Hnd _]. rewrite <- (take_drop n l) in Hnd. by apply NoDup_app in Hnd as (? & _).
Qed.

Lemma qstep_data a q q' jid json :
  qstep a q q' -> ~ schedules jid a -> q_data q !! jid = Some json ->
  q_data q' !! jid = Some json \/
  (exists ids, a = LPromote ids /\ jid ∈ ids /\
     exists id fs, decodes json fs /\ (id, fs) ∈ q_entries q').
Proof.
  intros Hs Hn Hj. destruct Hs as [? ? ? f| | | | | |ids now l limit q q' Hdue -> Hp| | | |]; simpl in *; auto.
  - left. destruct f; simpl in *; try done. by rewrite lookup_insert_ne.
  - left. by rewrite lookup_insert_ne.
  - left. by rewrite lookup_insert_ne.
  - destruct (promoted_sched _ _ _ jid json Hp (due_NoDup _ _ _ _ Hdue) Hj)
      as [[_ ?]|(Hin & fs & id & ? & ?)]; [by left | right]. eauto 10.
Qed.

#[export] Instance schedules_dec jid a : Decision (schedules jid a).
Proof. destruct a as [? ? ? []| | | | | | | | |]; simpl; apply _. Defined.

(** Such a step leaves data under the job's ID. *)
Lemma schedules_data a q q' jid json :
  qstep a q q' -> schedules jid a -> q_data q !! jid = Some json -> is_Some (q_data q' !! jid).
Proof.
  intros Hs Ha Hj. destruct Hs; simpl in Ha; try done.
  1: destruct f; try done.
  all: subst; simpl; try (rewrite lookup_insert_eq); eauto.
Qed.

(** Scheduled data is kept until a promotion moves it to the stream or a step that
    schedules the same job ID replaces it. *)
Lemma data_until tr q q' jid json :
  qsteps tr q q' -> q_data q !! jid = Some json ->
  q_data q' !! jid = Some json \/
  (exists ids q1 q2 id fs, occurs tr q (LPromote ids) q1 q2 /\ jid ∈ ids /\
    decodes json fs /\ (id, fs) ∈ q_entries q2) \/
  (exists a q1 q2 json', occurs tr q a q1 q2 /\ schedules jid a /\ q_data q1 !! jid = Some json /\
    q_data q2 !! jid = Some json').
Proof.
  induction 1 as [q|a tr q q1 q2 Hs Hss IH]; intros Hj; [by left|].
  destruct (decide (q_data q1 !! jid = Some json)) as [Hj1|Hne].
  { destruct (IH Hj1) as [?|[(ids & qa & qb & id & fs & ? & ? & ? & ?)|(x & qa & qb & js & ? & ? & ? & ?)]];
      [by left | right..].
    - left. exists ids, qa, qb, id, fs. split_and!; try done. by eapply occurs_later.
    - right. exists x, qa, qb, js. split_and!; try done. by eapply occurs_later. }
  right. destruct (decide (schedules jid a)) as [Ha|Ha].
  - right. destruct (schedules_data _ _ _ _ _ Hs Ha Hj) as [js Hjs]. exists a, q, q1, js.
    split_and!; [by apply occurs_here | done..].
  - left. destruct (qstep_data a q q1 jid json Hs Ha Hj) as [Hj1|(ids & -> & Hin & id & fs & ? & ?)]; [done|].
    exists ids, q, q1, id, fs. split_and!; try done. by apply occurs_here.
Qed.

(** ** Properties *)

(** Every entry is either ready for the next claims or pending with a consumer. *)
Definition ready_or_pending q (id : eid) (fs : fields) : Prop :=
  ((exists n, (id, fs) ∈ q_ready n q) /\ q_pel q !! id = None) \/
  ((exists p, q_pel q !! id = Some p /\ is_Some (q_cons q !! pe_owner p)) /\
   forall n, (id, fs) ∉ q_ready n q).

Lemma wf_not_stuck q id fs : q_wf q -> (id, fs) ∈ q_entries q -> ready_or_pending q id fs.
Proof.
  intros Hwf Hin.
  assert (id ∈ q_ids q) as Hid by (apply list_elem_of_fmap; by exists (id, fs)).
  destruct (decide (eid_lt (q_last q) id)) as [Hlt|Hnlt].
  - left. split.
    + exists (Z.of_nat (length (q_entries q))). unfold q_ready.
      rewrite take_ge; [by apply list_elem_of_filter|].
      rewrite Nat2Z.id. unfold undelivered. apply length_filter.
    + destruct (q_pel q !! id) as [p|] eqn:E; [|done]. exfalso.
      destruct (wf_pending _ Hwf id p E) as (_ & Hle & _). by apply eid_not_lt in Hle.
  - right. apply eid_not_lt in Hnlt. split.
    + destruct (wf_delivered _ Hwf id Hid Hnlt) as [p Hp]. exists p. split; [done|].
      by destruct (wf_pending _ Hwf id p Hp) as (_ & _ & _ & ?).
    + intros n [_ Hlt]%elem_of_q_ready. by apply eid_not_lt in Hnlt.
Qed.
End runs.
