(* ===== verification/StoreProps.v ===== *)
(** * Guarantees of the store

    The operations of [redisstream.Store], over any server that follows
    [RedisLaws] and any client that follows [ClientLaws] (so also over one that
    loses replies and sends requests again). *)

From S2P Require Import Prelude GoNum GoTime Errors Job GoJson Redis RefRedis Scripts QueueSpec.
From S2P Require Import QueueRep ScriptsOk QueueSteps Store JobCodec StoreOk EnqueueOk ClaimOk.
From S2P Require Import Demo.
From Stdlib Require Import Ascii String.
From stdpp Require Import strings sorting.

Open Scope Z_scope.
Open Scope se_scope.

Section settling.
Context {R : Redis} {L : RedisLaws R} {C : Client R} {CL : ClientLaws C} (b : Store).
Implicit Types q : qstate.

(** C8: [Ack] is fenced and atomic. If it succeeds, the caller's lease owned
    the delivery and the entry is gone from the stream and the pending list; if
    it fails, the queue is unchanged or (a reply was lost) the lease owned the
    delivery and the ack took place. No other key changes. *)
Theorem Ack_fenced s q job :
  keys_ok (K_of b) -> represents (K_of b) (view s) q ->
  exists s' r q', Ack b job s = (s', r) /\
    represents (K_of b) (view s') q' /\ frame (K_of b) (view s) (view s') /\
    fenced_outcome (lease_owns q (JLease job)) q
      (fun q' => q' = q_settle (MessageID (JLease job)) q) r q'.
Proof. intros HK Hs. by apply Ack_ok. Qed.

(** The schedule holds the job with its attempt count raised by one. *)
Definition holds_retry (job : Job) (json : string) : Prop :=
  exists fs, decodes json fs /\ forall id l,
    parseJob id (flatToMap fs) l =
    Ok (delivered_job (set_Attempt job (wrap64 (Attempt job + 1))) l).

Lemma holds_retry_json job : job_ok job -> job_utf8 job -> holds_retry job (retry_json job).
Proof.
  intros Hok Hutf. destruct (decodes_jobFields (set_Attempt job (wrap64 (Attempt job + 1))) Hutf)
    as (fs & Hd & Hp).
  exists fs. split; [done|]. intros id l. rewrite (flatToMap_perm _ _ Hp).
  by apply parseJob_jobFields, job_ok_retried.
Qed.

(** C9: [Retry] is fenced and atomic, like [Ack]: the delivery ends and in the
    same step the schedule gets, under the job's ID and the requested time,
    fields that parse back to the job with its attempt count raised by one. *)
Theorem Retry_fenced s q job nextRunAt :
  keys_ok (K_of b) -> represents (K_of b) (view s) q -> job_ok job -> job_utf8 job ->
  exists s' r q', Retry b job nextRunAt s = (s', r) /\
    represents (K_of b) (view s') q' /\ frame (K_of b) (view s) (view s') /\
    fenced_outcome (lease_owns q (JLease job)) q
      (fun q' => exists json, holds_retry job json /\
         q' = q_settle (MessageID (JLease job)) (q_schedule (ID job) (UnixMilli nextRunAt) json q)) r q'.
Proof.
  intros HK Hs Hok Hutf. destruct (Retry_ok b HK q job nextRunAt s Hs) as (s' & r & q' & ? & ? & ? & Ho).
  exists s', r, q'. split_and!; try done. pose proof (holds_retry_json job Hok Hutf).
  destruct r as [?|?]; simpl in *; naive_solver.
Qed.

(** [DeadLetter] is fenced and atomic, like [Ack]: the delivery ends and in
    the same step the dead-letter stream gets one entry, with the job's fields,
    the reason, the delivery count and the time of the failure. *)
Theorem DeadLetter_fenced s q job reason now :
  keys_ok (K_of b) -> represents (K_of b) (view s) q ->
  exists s' r q', DeadLetter b job reason now s = (s', r) /\
    represents (K_of b) (view s') q' /\ frame (K_of b) (view s) (view s') /\
    fenced_outcome (lease_owns q (JLease job)) q
      (fun q' => exists did pairs,
         pairs ≡ₚ map_to_list (<["failedAt" := RFC3339Nano now]>
           (<["deliveries" := Itoa (Token (JLease job))]> (<["reason" := reason]> (jobFields job)))) /\
         q' = q_settle (MessageID (JLease job)) (q_bury did pairs q)) r q'.
Proof.
  intros HK Hs. destruct (DeadLetter_ok b HK q job reason now s Hs) as (s' & r & q' & ? & ? & ? & Ho).
  exists s', r, q'. split_and!; try done.
  pose proof (range_map_perm (dead_fields job reason now)).
  destruct r as [?|?]; simpl in *; naive_solver.
Qed.

(** [Extend] renews the lease, keeping its token, exactly when the caller
    owns it, and reports [ErrLeaseLost] exactly when it does not; a renewal
    sent twice is never mistaken for a loss. *)
Theorem Extend_fenced s q job :
  let l := JLease job in
  keys_ok (K_of b) -> q_wf q -> represents (K_of b) (view s) q ->
  exists s' r q', Extend b job s = (s', r) /\ represents (K_of b) (view s') q' /\
    frame (K_of b) (view s) (view s') /\
    match r with
    | Ok _ => lease_owns q l = true /\ q' = q_renew (MessageID l) (Owner l) q
    | Err ErrLeaseLost => lease_owns q l = false /\ q' = q
    | Err e => net_error e /\
        (q' = q \/ (lease_owns q l = true /\ q' = q_renew (MessageID l) (Owner l) q))
    end.
Proof. intros l HK Hwf Hs. by apply Extend_ok. Qed.

(** The call fails and leaves the queue as it is. *)
Definition rejected q {A} (m : SE rdb error A) (s : rdb) : Prop :=
  exists s' e, m s = (s', Err e) /\ represents (K_of b) (view s') q.

Lemma fenced_rejected q s m eff job :
  lease_owns q (JLease job) = false -> represents (K_of b) (view s) q ->
  wpc (K:=K_of b) m q (fenced_outcome (lease_owns q (JLease job)) q eff) -> rejected q m s.
Proof.
  intros Hno Hs Hm. destruct (Hm s Hs) as (s' & r & q' & E & Hs' & _ & Ho). rewrite Hno in Ho.
  destruct r as [?|e]; simpl in Ho; [naive_solver|].
  exists s', e. destruct Ho as (_ & [[-> _]|[? _]]); done.
Qed.

(** C7: fencing. Once another recovery has taken a delivery over, the old lease
    is dead for good: after any further run of the queue, [Ack], [Retry],
    [DeadLetter] and [Extend] with it fail and change nothing, even if the same
    worker took the delivery over itself. *)
Theorem stale_lease_rejected s q q2 tr c ids job nextRunAt reason now :
  keys_ok (K_of b) -> q_inv q -> lease_owns q (JLease job) = true ->
  NoDup ids -> MessageID (JLease job) ∈ ids ->
  qsteps tr (q_redeliver c ids q) q2 -> represents (K_of b) (view s) q2 ->
  rejected q2 (Ack b job) s /\ rejected q2 (Retry b job nextRunAt) s /\
  rejected q2 (DeadLetter b job reason now) s /\ rejected q2 (Extend b job) s.
Proof.
  intros HK [Hwf Hd] Hown Hnd Hin Hrun Hs.
  destruct (qsteps_inv _ _ _ Hrun) as [Hwf2 _]; [split; [by apply wf_redeliver | exact Hd]|].
  assert (lease_owns q2 (JLease job) = false) as Hno.
  { eapply superseded_not_owned, qsteps_superseded; [exact Hrun|].
    by eapply redeliver_superseded. }
  split_and!; [by eapply fenced_rejected, Ack_ok | by eapply fenced_rejected, Retry_ok
    | by eapply fenced_rejected, DeadLetter_ok|].
  destruct (Extend_ok b HK q2 job Hwf2 s Hs) as (s' & r & q' & E & Hs' & _ & Ho).
  rewrite Hno in Ho. destruct r as [?|e]; [naive_solver|]. exists s', e. split; [done|].
  assert (q' = q2) as -> by (destruct e; naive_solver). done.
Qed.
End settling.

(** *** Witnesses *)

Lemma Ack_fenced_witness :
  exists s' r q', Ack default_store demo_job demo_db = (s', r) /\
    represents (K_of default_store) s' q' /\ frame (K_of default_store) demo_db s' /\
    fenced_outcome true demo_q (fun q' => q' = q_settle (5%N, 0%N) demo_q) r q'.
Proof. exact (Ack_fenced default_store demo_db demo_q demo_job default_keys_ok demo_represents). Defined.

Lemma Retry_fenced_witness :
  exists s' r q', Retry default_store demo_job demo_time demo_db = (s', r) /\
    represents (K_of default_store) s' q' /\ frame (K_of default_store) demo_db s' /\
    fenced_outcome true demo_q
      (fun q' => exists json, holds_retry demo_job json /\
         q' = q_settle (5%N, 0%N) (q_schedule "a1" (UnixMilli demo_time) json demo_q)) r q'.
Proof.
  exact (Retry_fenced default_store demo_db demo_q demo_job demo_time default_keys_ok demo_represents
    demo_job_ok demo_job_utf8).
Defined.

Lemma DeadLetter_fenced_witness :
  exists s' r q', DeadLetter default_store demo_job "boom" demo_time demo_db = (s', r) /\
    represents (K_of default_store) s' q' /\ frame (K_of default_store) demo_db s' /\
    fenced_outcome true demo_q
      (fun q' => exists did pairs,
         pairs ≡ₚ map_to_list (<["failedAt" := RFC3339Nano demo_time]>
           (<["deliveries" := Itoa 1]> (<["reason" := "boom"]> (jobFields demo_job)))) /\
         q' = q_settle (5%N, 0%N) (q_bury did pairs demo_q)) r q'.
Proof.
  exact (DeadLetter_fenced default_store demo_db demo_q demo_job "boom" demo_time
    default_keys_ok demo_represents).
Defined.

Lemma Extend_fenced_witness :
  exists s' r q', Extend default_store demo_job demo_db = (s', r) /\
    represents (K_of default_store) s' q' /\ frame (K_of default_store) demo_db s' /\
    match r with
    | Ok _ => lease_owns demo_q demo_lease = true /\ q' = q_renew (5%N, 0%N) "w1" demo_q
    | Err ErrLeaseLost => lease_owns demo_q demo_lease = false /\ q' = demo_q
    | Err e => net_error e /\
        (q' = demo_q \/ (lease_owns demo_q demo_lease = true /\ q' = q_renew (5%N, 0%N) "w1" demo_q))
    end.
Proof.
  exact (Extend_fenced default_store demo_db demo_q demo_job default_keys_ok demo_wf demo_represents).
Defined.

(** "w2" takes [demo_job] over, then time passes. *)
Definition demo_taken : qstate := q_tick 1 (q_redeliver "w2" [(5%N, 0%N)] demo_q).

Lemma stale_lease_rejected_witness :
  let s := rep_view (K_of default_store) demo_taken in
  rejected default_store demo_taken (Ack default_store demo_job) s /\
  rejected default_store demo_taken (Retry default_store demo_job demo_time) s /\
  rejected default_store demo_taken (DeadLetter default_store demo_job "boom" demo_time) s /\
  rejected default_store demo_taken (Extend default_store demo_job) s.
Proof.
  apply (stale_lease_rejected default_store _ demo_q demo_taken [LTick 1] "w2" [(5%N, 0%N)]).
  - apply default_keys_ok.
  - apply demo_inv.
  - apply demo_owns.
  - apply NoDup_singleton.
  - by left.
  - econstructor; [by apply step_tick | constructor].
  - apply rep_view_ok, default_keys_ok.
Defined.
