(* ===== verification/ClaimProps.v ===== *)
(** * Guarantees of claiming, promotion and recovery *)

From S2P Require Import Prelude GoNum GoTime Errors Job GoJson Redis RefRedis Scripts QueueSpec.
From S2P Require Import QueueRep ScriptsOk QueueSteps Store JobCodec StoreOk EnqueueOk ClaimOk.
From S2P Require Import Demo.
From Stdlib Require Import Ascii String.
From stdpp Require Import strings sorting.

Open Scope Z_scope.
Open Scope se_scope.

(** ** Entries that cannot be parsed *)

Section quarantine.
Context {R : Redis} {C : Client R}.
Implicit Types q : qstate.

(** What the dead-letter stream gets for a malformed entry. *)
Definition quarantine_pairs (fs pairs : fields) : Prop :=
  exists reason, pairs ≡ₚ ("reason", reason) ::
    filter (fun kv => kv.1 <> "reason") (map_to_list (flatToMap fs)).

(** The malformed entries of [es] are settled and dead-lettered, in order. *)
Inductive quarantined (w : string) : list (eid * fields * Z) -> qstate -> qstate -> Prop :=
  | quar_nil q : quarantined w [] q q
  | quar_good e es q q' j :
      parsed w e = Some j -> quarantined w es q q' -> quarantined w (e :: es) q q'
  | quar_bad id fs t es q q' did pairs :
      parsed w (id, fs, t) = None -> quarantine_pairs fs pairs ->
      quarantined w es (q_settle id (q_bury did pairs q)) q' ->
      quarantined w ((id, fs, t) :: es) q q'.

Lemma quarantined_mono w es q q' :
  quarantined w es q q' ->
  (forall d, d ∈ q_dead q -> d ∈ q_dead q') /\
  (forall id, id ∈ q_ids q' -> id ∈ q_ids q) /\
  (forall id, q_pel q !! id = None -> q_pel q' !! id = None).
Proof.
  induction 1 as [q|e es q q' j _ _ IH|id fs t es q q' did pairs _ _ _ (IH1 & IH2 & IH3)]; [done | done|].
  split_and!.
  - intros d Hd. apply IH1. simpl. apply elem_of_app. by left.
  - intros i Hi%IH2. unfold q_ids in *. simpl in Hi. by apply elem_of_without in Hi as [_ ?].
  - intros i Hi. apply IH3. simpl. destruct (decide (id = i)) as [->|];
      [apply lookup_delete_eq | by rewrite lookup_delete_ne].
Qed.

(** A malformed delivery is over, and the dead-letter stream has its fields. *)
Definition buried q (e : eid * fields * Z) : Prop :=
  (e.1.1 ∉ q_ids q) /\ q_pel q !! e.1.1 = None /\
  exists did pairs, (did, pairs) ∈ q_dead q /\ quarantine_pairs e.1.2 pairs.

Lemma quarantined_buried w es q q' :
  quarantined w es q q' -> forall e, e ∈ es -> parsed w e = None -> buried q' e.
Proof.
  induction 1 as [q|e es q q' j Hj _ IH|id fs t es q q' did pairs Hp Hq Hqs IH]; intros e' He Hn.
  - by apply not_elem_of_nil in He.
  - apply elem_of_cons in He as [->|He]; [congruence | auto].
  - apply elem_of_cons in He as [->|He]; [|auto].
    destruct (quarantined_mono _ _ _ _ Hqs) as (H1 & H2 & H3). split_and!; simpl.
    + intros Hin%H2. unfold q_ids in Hin. simpl in Hin. by apply elem_of_without in Hin as [? _].
    + apply H3. simpl. apply lookup_delete_eq.
    + exists did, pairs. split; [|done]. apply H1. simpl. apply elem_of_app. right. by left.
Qed.
End quarantine.

(** ** A reliable client *)

Section reliable.
Context {R : Redis} {L : RedisLaws R} {C : Client R} {CL : ClientLaws C} (Hrel : reliable C).
Context (b : Store) (HK : keys_ok (K_of b)).
Implicit Types q : qstate.

Lemma wpc_call_reliable {A} (m : SE rdb error A) q Q :
  wpq (K_of b) m q Q -> wpc (K:=K_of b) (call m) q (fun r q' => exists a, r = Ok a /\ Q a q').
Proof. intros Hm s Hs. rewrite Hrel. exact (wpc_of_wpq _ _ _ Hm s Hs). Qed.

Lemma held_cons w q id fs t es q' :
  held w q ((id, fs, t) :: es) ->
  (forall i, i <> id -> untouched i q q') -> held w q' es.
Proof.
  intros [Hnd Hh] Hu. cbn in Hnd. apply NoDup_cons in Hnd as [Hnin Hnd]. split; [done|].
  intros i f t' Hin. destruct (Hh i f t') as [Ho He]; [by right|].
  assert (i <> id) as Hne.
  { intros ->. apply Hnin. apply list_elem_of_fmap. exists (id, f). split; [done|].
    apply list_elem_of_fmap. by exists (id, f, t'). }
  destruct (Hu i Hne) as [Hp Hents]. unfold q_owns in *. rewrite Hp. auto.
Qed.

Lemma parse_all_quarantines w es : forall q,
  held w q es ->
  wpc (K:=K_of b) (parse_all b w es) q (fun r q' =>
    r = Ok (omap (parsed w) es) /\ quarantined w es q q').
Proof.
  induction es as [|[[id fs] t] es IH]; intros q Hh; cbn [parse_all].
  { apply wpc_ret. split; [done | constructor]. }
  eapply (wpc_bind _ _ _ (fun r q1 => r = Ok (parsed w (id, fs, t)) /\ held w q1 es /\
    (is_Some (parsed w (id, fs, t)) /\ q1 = q \/
     parsed w (id, fs, t) = None /\ exists did pairs,
       quarantine_pairs fs pairs /\ q1 = q_settle id (q_bury did pairs q)))).
  - unfold parseOrQuarantine, parsed. simpl.
    destruct (parseJob id (flatToMap fs) (mkLease id w t 0)) as [j|e].
    { apply wpc_ret. split_and!; [done | by eapply held_cons | left; eauto]. }
    set (pairs := _ :: _).
    assert (q_owns q id w t = true) as Hown by (apply (proj2 Hh id fs t); by left).
    eapply (wpc_bind _ _ _ (fun r q1 => exists x, r = Ok x /\
      exists did, q1 = q_settle id (q_bury did pairs q))).
    + eapply wpc_mono; [apply wpc_try, (wpc_bind _ _ _ (fun r q1 => r = Ok 1 /\
        exists did, q1 = q_settle id (q_bury did pairs q)) (fun _ q1 =>
        exists did, q1 = q_settle id (q_bury did pairs q)))|].
      * eapply wpc_mono; [eapply wpc_call_reliable, (deadLetterScript_ok HK); done|]. cbn beta.
        intros r q1 (n & -> & did & Hd). simpl in Hd. rewrite Hown in Hd. injection Hd as -> ->. eauto.
      * intros n q1 ([= ->] & Hq1). by apply wpc_ret.
      * by intros e' q1 [[=] _].
      * cbn beta. intros r q1 (x & -> & Hq1). eauto.
    + intros x q1 (x' & _ & did & ->). apply wpc_ret. split_and!; [done | |].
      * eapply held_cons; [done|]. intros i Hi. by apply untouched_settle.
      * right. split; [done|]. exists did, pairs. split; [|done].
        exists ("malformed entry: " +:+ error_string e). unfold pairs. f_equiv.
        by rewrite (range_map_perm (flatToMap fs)).
    + by intros e' q1 (x & [=] & _).
  - intros oj q1 ([= ->] & Hh1 & Hcase). eapply wpc_bind; [by apply IH| |]; cbn beta.
    + intros js q2 ([= ->] & Hq2). apply wpc_ret. split; [cbn; by destruct (parsed w (id, fs, t))|].
      destruct Hcase as [[[j Hj] ->]|(Hn & did & pairs & Hpairs & ->)];
        [by eapply quar_good | by eapply quar_bad].
    + by intros e q2 [[=] _].
  - by intros e q1 [[=] _].
Qed.

(** *** Promotion *)

(** The jobs [ids] moved from the schedule to the end of the stream, once each,
    in order; the other scheduled jobs and the deliveries are untouched. *)
Definition moved (ids : list string) q q' : Prop :=
  (exists new, q_entries q' = q_entries q ++ new /\
     Forall2 (fun jid e => exists json, q_data q !! jid = Some json /\ decodes json e.2) ids new) /\
  (forall jid, q_sched q' !! jid = if decide (jid ∈ ids) then None else q_sched q !! jid) /\
  (forall jid, q_data q' !! jid = if decide (jid ∈ ids) then None else q_data q !! jid) /\
  q_pel q' = q_pel q /\ q_last q' = q_last q /\ q_dead q' = q_dead q.

Lemma lookup_delete_list (A : Type) (m : gmap string A) jid ids k :
  (if decide (k ∈ ids) then None else delete jid m !! k) =
  (if decide (k ∈ jid :: ids) then None else m !! k).
Proof.
  destruct (decide (k ∈ jid :: ids)) as [Hin|Hnin]; case_decide as H; try done.
  - apply elem_of_cons in Hin as [->|?]; [apply lookup_delete_eq | done].
  - destruct Hnin. by right.
  - apply not_elem_of_cons in Hnin as [? _]. by rewrite lookup_delete_ne.
Qed.

Lemma promoted_moved ids q q' :
  promoted ids q q' -> NoDup ids -> (forall jid, jid ∈ ids -> is_Some (q_data q !! jid)) ->
  moved ids q q'.
Proof.
  induction 1 as [q|jid ids q q' id fs json Hj Hd Hlt _ IH|jid ids q q' Hj _ IH]; intros Hnd Hall.
  - split_and!; try done; [|intros jid; by case_decide as H; [apply not_elem_of_nil in H|]..].
    exists []. by rewrite app_nil_r.
  - apply NoDup_cons in Hnd as [Hnin Hnd].
    destruct IH as ((new & He & Hn) & Hs & Hdt & Hp & Hl & Hdd); [done | |].
    { intros k Hk. simpl. rewrite lookup_delete_ne by (intros ->; done). apply Hall. by right. }
    simpl in *. split_and!; [| |  | done | done | done].
    + exists ((id, fs) :: new). rewrite He, <- app_assoc. split; [done|].
      constructor; [eauto|]. eapply Forall2_impl; [exact Hn|]. intros k e (js & Hk & ?).
      apply lookup_delete_Some in Hk as [_ Hk]. eauto.
    + intros k. by rewrite Hs, lookup_delete_list.
    + intros k. by rewrite Hdt, lookup_delete_list.
  - destruct (Hall jid) as [js Hjs]; [by left | congruence].
Qed.

(** Promotion moves each due job to the stream exactly once: one call moves
    the due jobs (lowest run-at first, at most [limit]), each becomes one stream
    entry holding the scheduled fields, leaves the schedule in the same step, and
    no job that is not due moves. *)
Theorem promoteRetries_exact s q limit now :
  0 <= limit -> q_inv q -> represents (K_of b) (view s) q ->
  exists s' q' l, let ids := take (Z.to_nat limit) l in
    promoteRetries b limit now s = (s', Ok (Z.of_nat (length ids))) /\
    represents (K_of b) (view s') q' /\ due_list (q_sched q) (UnixMilli now) l /\ moved ids q q'.
Proof.
  intros Hlim [Hwf Hd] Hs. unfold promoteRetries. rewrite Hrel.
  destruct (promote_ok HK q (UnixMilli now) limit Hlim Hd s Hs)
    as (s' & n & E & q' & Hs' & _ & l & Hdue & -> & Hp).
  exists s', q', l. split_and!; [exact E | done | done|].
  apply promoted_moved; [done | |].
  - destruct Hdue as [Hnd _]. rewrite <- (take_drop (Z.to_nat limit) l) in Hnd.
    by apply NoDup_app in Hnd as (? & _).
  - intros jid (i & Hi & _)%elem_of_take. apply list_elem_of_lookup_2 in Hi.
    apply Hdue in Hi as (sc & Hsc & _). apply elem_of_dom. rewrite <- (wf_sched _ Hwf).
    by apply elem_of_dom_2 in Hsc.
Qed.

(** *** Claiming *)

Lemma claimReady_run s q w limit now :
  0 < limit -> q_inv q -> represents (K_of b) (view s) q ->
  exists s' q' q1 l, let ids := take 100 l in
    due_list (q_sched q) (UnixMilli now) l /\ promoted ids q q1 /\
    claimReady b w limit now s =
      (s', Ok (omap (parsed w) (first_deliveries (q_ready limit q1)))) /\
    represents (K_of b) (view s') q' /\ q_last q' = last_of (q_last q1) (q_ready limit q1) /\
    forall e, e ∈ first_deliveries (q_ready limit q1) -> parsed w e = None -> buried q' e.
Proof.
  intros Hlim [Hwf Hd] Hs. unfold claimReady. unfold bind, try_. rewrite Hrel.
  destruct (claimScript_ok HK q w limit (UnixMilli now) Hlim Hd s Hs)
    as (s1 & es & E & q2 & Hs1 & _ & l & q1 & Hdue & Hp & -> & ->).
  simpl in E. rewrite E.
  assert (q_wf q1) as Hwf1 by (by eapply promoted_wf).
  destruct (parse_all_quarantines w _ _ (held_deliver w limit q1 Hwf1) s1 Hs1)
    as (s2 & r & q' & E2 & Hs2 & _ & -> & Hq).
  exists s2, q', q1, l. split_and!; [done | done | exact E2 | done | |].
  - assert (forall es q q', quarantined w es q q' -> q_last q' = q_last q) as Hlast.
    { induction 1 as [| |? ? ? ? ? ? ? ? ? ? _ IH]; [done | done |]. by rewrite IH. }
    by rewrite (Hlast _ _ _ Hq).
  - by eapply quarantined_buried.
Qed.

(** *** Recovery *)

Lemma length_pel_scan (pel : gmap eid pentry) start l : pel_scan pel start l -> (length l <= size pel)%nat.
Proof.
  intros [Hs Hl].
  assert (size pel = length (map_to_list pel).*1) as -> by (by rewrite length_fmap, length_map_to_list).
  apply submseteq_length, NoDup_submseteq; [by apply StronglySorted_lt_NoDup|].
  intros id [[p Hp] _]%Hl. apply list_elem_of_fmap. exists (id, p). by rewrite elem_of_map_to_list.
Qed.

(** A scan from the start of at most 100 pending entries that returns fewer
    than it was asked for has seen every expired one. *)
Lemma recover_all q w minIdle limit r q' l :
  pel_scan (q_pel q) zero_id l -> (size (q_pel q) <= 100)%nat ->
  recover_post 10 q w minIdle limit [] l r q' ->
  exists ids, r.2 = q_taken q ids /\ q' = q_redeliver w ids q /\ NoDup ids /\
    Z.of_nat (length ids) <= limit /\ (forall id, id ∈ ids -> is_Some (q_pel q !! id)) /\
    (Z.of_nat (length ids) < limit -> forall id p, q_pel q !! id = Some p ->
       minIdle <= q_now q - pe_time p -> id ∈ ids).
Proof.
  intros Hl Hsz (n & -> & -> & Hlen & Hdone). set (ids := filter _ _) in *. simpl in Hlen.
  exists ids. split_and!; [done | done | by eapply NoDup_claimed | lia
    | intros; by eapply elem_of_claimed |].
  intros Hlt id p Hp Hidle. apply list_elem_of_filter. split.
  - unfold expired, idle_of. by rewrite Hp.
  - pose proof (length_pel_scan _ _ _ Hl). rewrite take_ge.
    + apply Hl. split; [eauto | apply eid_le_zero].
    + destruct (decide (n < length l)%nat) as [Hn|]; [|lia].
      destruct (Hdone Hn) as [?|?]; simpl in *; lia.
Qed.

(** What [RecoverExpired] takes when its scan is at the start. *)
Lemma RecoverExpired_run s q vt w limit now1 now2 :
  0 < limit -> q_inv q -> represents (K_of b) (view s) q ->
  st_recoverCursor b = zero_id -> (size (q_pel q) <= 100)%nat ->
  exists s' b' jobs, RecoverExpired b vt w limit now1 now2 s = (s', (b', Ok jobs)) /\
    exists ids, jobs = omap (parsed w) (q_taken q ids) /\ Z.of_nat (length ids) <= limit /\
      (Z.of_nat (length ids) < limit -> forall id p, q_pel q !! id = Some p ->
         Milliseconds vt <= q_now q - pe_time p -> id ∈ ids).
Proof.
  intros Hlim Hinv Hs Hcur Hsz. unfold RecoverExpired. rewrite (proj2 (Z.leb_gt _ _) Hlim), Hcur.
  set (prune := _ <=? _). set (b1 := if prune then set_lastPrune b now2 else b).
  set (s1 := if prune then (pruneConsumers b1 s).1 else s).
  assert (st_config b1 = st_config b) as Hc1 by (unfold b1; by destruct prune).
  assert (exists q1, represents (K_of b) (view s1) q1 /\ q_inv q1 /\
    q_pel q1 = q_pel q /\ q_now q1 = q_now q /\ q_entries q1 = q_entries q)
    as (q1 & Hs1 & Hinv1 & Hp1 & Hn1 & He1).
  { unfold s1. destruct prune; [|by exists q].
    assert (pruneConsumers b1 = pruneConsumers b) as -> by (unfold pruneConsumers; by rewrite Hc1).
    unfold pruneConsumers, bind. rewrite Hrel.
    destruct (pruneConsumersScript_ok HK q (Milliseconds (cfg_ConsumerIdleTimeout (st_config b))) s Hs)
      as (s' & n & E & q1 & Hs1 & _ & gone & _ & Hg & ->). simpl in E. rewrite E. simpl.
    eexists. split; [exact Hs1|]. split.
    - eapply reaches_inv; [|exact Hinv]. apply drops_reach.
      eapply Forall_impl; [exact Hg|]. by intros c [? _].
    - clear. induction gone as [|c gone IH] in q |- *; [done|]. apply (IH (q_drop_consumer c q)). }
  pose proof (pel_scan_ref (q_pel q1) zero_id) as Hl.
  destruct (recoverScript_ok HK q1 w (Milliseconds vt) limit zero_id _ Hlim (proj1 Hinv1) Hl s1 Hs1)
    as (s2 & [next es] & E & q2 & Hs2 & _ & Hpost).
  rewrite Hrel. simpl in E. rewrite E.
  destruct (recover_all _ _ _ _ _ _ _ Hl ltac:(rewrite Hp1; exact Hsz) Hpost)
    as (ids & Hes & -> & Hnd & Hlen & Hpend & Hall). simpl in Hes. subst es.
  assert (parse_all (set_cursor b1 next) w (q_taken q1 ids) = parse_all b w (q_taken q1 ids)) as ->.
  { clear -Hc1. induction (q_taken q1 ids) as [|[[id fs] t] es IH]; cbn [parse_all]; [done|].
    rewrite IH. unfold parseOrQuarantine, fenced. simpl. by rewrite Hc1. }
  destruct (parse_all_ok b HK w (q_taken q1 ids) _ s2 Hs2) as (s3 & r & q3 & E3 & _ & _ & -> & _).
  rewrite E3. exists s3, (set_cursor b1 next), (omap (parsed w) (q_taken q1 ids)). split; [done|].
  exists ids. split_and!; [|done|].
  - unfold q_taken. by rewrite He1, Hp1.
  - intros Hlt id p Hp Hidle. apply (Hall Hlt id p); [congruence | by rewrite Hn1].
Qed.
(** *** Gauges *)

(** With nothing else running, [Stats] counts the queue and changes nothing. *)
Theorem Stats_exact s q :
  represents (K_of b) (view s) q ->
  exists s', store_Stats b (fun s => s) s =
      (s', Ok (mkStats (Z.of_nat (length (q_entries q))) (Z.of_nat (size (q_pel q)))
                       (Z.of_nat (length (q_dead q))) (Z.of_nat (size (q_sched q))))) /\
    view s' = view s.
Proof.
  intros Hs. destruct (rep_stream _ _ _ Hs) as (groups & Hst & Hg).
  destruct (rep_dead _ _ _ Hs) as (top & dgroups & Hd). pose proof (rep_zset _ _ _ Hs) as Hz.
  unfold store_Stats, bind. rewrite Hrel.
  destruct (XLEN_law s (k_stream (K_of b)) _ (stream_or_new_at _ _ _ Hst)) as (s1 & n1 & E1 & V1 & ->).
  rewrite <- V1 in Hst, Hd, Hz.
  destruct (XPENDING_COUNT_law s1 (k_stream (K_of b)) (k_group (K_of b)) _
    ltac:(unfold group_at; rewrite Hst; exact Hg)) as (s2 & n2 & E2 & V2 & ->).
  rewrite <- V2 in Hd, Hz.
  destruct (XLEN_law s2 (k_dead (K_of b)) _ Hd) as (s3 & n3 & E3 & V3 & ->).
  rewrite <- V3 in Hz.
  destruct (ZCARD_law s3 (k_zset (K_of b)) _ Hz) as (s4 & n4 & E4 & V4 & ->).
  simpl in E1, E2, E3, E4. rewrite E1, E2, E3, E4. exists s4. split; [done | congruence].
Qed.
End reliable.

Section exact.
Context {R : Redis} {L : RedisLaws R} {C : Client R} {CL : ClientLaws C} (b : Store).
Implicit Types q : qstate.


End exact.

Section unreliable.
Context {R : Redis} {L : RedisLaws R} {C : Client R} {CL : ClientLaws C} (b : Store).
Implicit Types q : qstate.

(** C10: whatever the client does and whatever other clients do while a read is
    blocked, the jobs [Claim] returns (at most [limit], no message twice) are
    leased to the caller: it owns each delivery, each job is what the stream
    entry says, and no lease handed out before is among them. *)
Theorem Claim_leases s q w limit wait now blocked done :
  keys_ok (K_of b) -> 0 < limit -> q_inv q -> env_ok b blocked ->
  represents (K_of b) (view s) q ->
  exists s' r q', Claim b w limit wait now blocked done s = (s', r) /\
    represents (K_of b) (view s') q' /\ reaches q q' /\
    match r with Ok jobs => handed_out w limit q' jobs /\ new_jobs q jobs | Err _ => True end.
Proof. intros HK Hlim Hinv Henv Hs. by apply Claim_ok. Qed.

(** C11: the jobs [RecoverExpired] returns are leased to the caller, and each was
    taken from a lease that had been idle for the visibility timeout, with a
    token one higher than the lease it replaces; the store's configuration does
    not change. *)
Theorem RecoverExpired_leases s q vt w limit now1 now2 :
  keys_ok (K_of b) -> 0 < limit -> q_inv q -> represents (K_of b) (view s) q ->
  exists s' b' r q', RecoverExpired b vt w limit now1 now2 s = (s', (b', r)) /\
    represents (K_of b) (view s') q' /\ frame (K_of b) (view s) (view s') /\ reaches q q' /\
    st_config b' = st_config b /\ st_retryData b' = st_retryData b /\
    match r with
    | Ok jobs => handed_out w limit q' jobs /\
        exists q1, reaches q q1 /\ q_now q1 = q_now q /\ Forall (taken_over q1 (Milliseconds vt)) jobs
    | Err e => net_error e
    end.
Proof. intros HK Hlim Hinv Hs. by apply RecoverExpired_ok. Qed.

(** [Deregister] removes a consumer only if it holds nothing: every pending
    delivery keeps its owner and count, so nothing becomes unrecoverable. *)
Theorem Deregister_keeps_pending s q w :
  keys_ok (K_of b) -> represents (K_of b) (view s) q ->
  exists s' r q', Deregister b w s = (s', r) /\ represents (K_of b) (view s') q' /\
    q_pel q' = q_pel q /\ q_entries q' = q_entries q /\
    (q_cons q' <> q_cons q -> q_idle_consumer q w).
Proof.
  intros HK Hs. destruct (Deregister_ok b HK q w s Hs) as (s' & r & q' & E & Hs' & _ & Hq & _).
  exists s', r, q'. destruct Hq as [->|[Hi ->]]; split_and!; try done.
Qed.
End unreliable.

(** *** Witnesses *)

Definition demo_sched : qstate := q_schedule "c3" 50000 (json_Marshal (jobFields demo_job2)) demo_q.

Lemma demo_sched_inv : q_inv (R:=ref_redis) demo_sched.
Proof.
  destruct (decodes_jobFields (R:=ref_redis) demo_job2) as (fs & Hd & _); [by split_and!|].
  eapply qstep_inv; [by eapply (step_schedule "c3" 50000) | apply demo_inv].
Qed.

Lemma promoteRetries_exact_witness :
  exists s' q' l, let ids := take (Z.to_nat 10) l in
    promoteRetries default_store 10 demo_time (rep_view (K_of default_store) demo_sched) =
      (s', Ok (Z.of_nat (length ids))) /\
    represents (K_of default_store) s' q' /\ due_list (q_sched demo_sched) (UnixMilli demo_time) l /\
    moved ids demo_sched q'.
Proof.
  apply (promoteRetries_exact ref_client_reliable default_store default_keys_ok).
  - discriminate.
  - apply demo_sched_inv.
  - apply rep_view_ok, default_keys_ok.
Defined.



Lemma Claim_leases_witness :
  exists s' r q', Claim default_store "w2" 4 0 demo_time (fun s => s) false demo_db = (s', r) /\
    represents (K_of default_store) s' q' /\ reaches demo_q q' /\
    match r with Ok jobs => handed_out "w2" 4 q' jobs /\ new_jobs demo_q jobs | Err _ => True end.
Proof.
  apply (Claim_leases (R:=ref_redis) default_store demo_db demo_q "w2" 4 0 demo_time (fun s => s) false); [apply default_keys_ok | reflexivity | apply demo_inv | |
    apply demo_represents].
  intros s q Hs. exists q. split; [exact Hs | reflexivity].
Defined.

Lemma RecoverExpired_leases_witness :
  exists s' b' r q',
    RecoverExpired default_store (30 * second) "w2" 4 demo_time demo_time demo_db = (s', (b', r)) /\
    represents (K_of default_store) s' q' /\ frame (K_of default_store) demo_db s' /\
    reaches demo_q q' /\ st_config b' = st_config default_store /\
    st_retryData b' = st_retryData default_store /\
    match r with
    | Ok jobs => handed_out "w2" 4 q' jobs /\
        exists q1, reaches demo_q q1 /\ q_now q1 = q_now demo_q /\
          Forall (taken_over q1 (Milliseconds (30 * second))) jobs
    | Err e => net_error e
    end.
Proof.
  apply (RecoverExpired_leases (R:=ref_redis) default_store demo_db demo_q (30 * second) "w2" 4 demo_time demo_time);
    [apply default_keys_ok | reflexivity | apply demo_inv | apply demo_represents].
Defined.

Lemma Deregister_keeps_pending_witness :
  exists s' r q', Deregister default_store "w1" demo_db = (s', r) /\
    represents (K_of default_store) s' q' /\
    q_pel q' = q_pel demo_q /\ q_entries q' = q_entries demo_q /\
    (q_cons q' <> q_cons demo_q -> q_idle_consumer demo_q "w1").
Proof.
  apply (Deregister_keeps_pending (R:=ref_redis) default_store demo_db demo_q "w1"); [apply default_keys_ok | apply demo_represents].
Defined.
