(* ===== verification/EnqueueProps.v ===== *)
(** * Guarantees of enqueueing, of the job encoding and of batches *)

From S2P Require Import Prelude GoNum GoTime Errors Job GoJson Redis RefRedis Scripts QueueSpec.
From S2P Require Import QueueRep ScriptsOk QueueSteps Store JobCodec StoreOk EnqueueOk ClaimOk.
From S2P Require Import ClaimProps Demo.
From Stdlib Require Import Ascii String.
From stdpp Require Import strings sorting.

Open Scope Z_scope.
Open Scope se_scope.

(** ** Encoding *)

Section encoding.
Context {R : Redis} {C : Client R}.

(** A job read back from the stream is the job that was written, whatever
    order its fields were sent in: same ID, task, payload, attempt counts, trace
    and times, with the new lease. *)
Theorem stream_roundtrip job fs id lease :
  job_ok job -> fs ≡ₚ map_to_list (jobFields job) ->
  parseJob id (flatToMap fs) lease = Ok (delivered_job job lease).
Proof. intros Hok Hp. rewrite (flatToMap_perm _ _ Hp). by apply parseJob_jobFields. Qed.

(** C21: a job that went through the schedule is read back unchanged: the JSON
    the store writes is decoded by the promotion script into fields that parse
    to the same job, if its text is UTF-8. *)
Theorem schedule_roundtrip {L : RedisLaws R} job id lease :
  job_ok job -> job_utf8 job ->
  exists fs, cjson_decode (json_Marshal (jobFields job)) = Ok fs /\
    parseJob id (flatToMap fs) lease = Ok (delivered_job job lease).
Proof.
  intros Hok Hutf. destruct (decodes_jobFields job Hutf) as (fs & [Hd _] & Hp).
  exists fs. split; [done|]. rewrite (flatToMap_perm _ _ Hp). by apply parseJob_jobFields.
Qed.

(** C22: an entry is rejected (and so quarantined) exactly when its task,
    payload, counters or times are missing or malformed; the ID and the trace
    are optional. *)
Theorem parseJob_total id vals lease :
  (exists j, parseJob id vals lease = Ok j) <->
  (is_Some (vals !! "task") /\ is_Some (vals !! "payload") /\
   is_Some (vals !! "attempt" ≫= Atoi) /\ is_Some (vals !! "maxAttempts" ≫= Atoi) /\
   is_Some (vals !! "createdAt" ≫= ParseRFC3339Nano) /\
   is_Some (vals !! "availableAt" ≫= ParseRFC3339Nano)).
Proof.
  unfold parseJob, field_num, field_ts, field_str.
  repeat (match goal with
    | |- context [vals !! ?k] => destruct (vals !! k) eqn:?; cbn [rbind mbind option_bind]
    | |- context [Atoi ?s] => destruct (Atoi s) eqn:?; cbn [rbind mbind option_bind]
    | |- context [ParseRFC3339Nano ?s] => destruct (ParseRFC3339Nano s) eqn:?; cbn [rbind mbind option_bind]
    end); split; intros H; deex; try discriminate;
    try (repeat split; by eauto); try (exfalso; by eapply is_Some_None; eauto); eauto.
Qed.
End encoding.

(** ** Batches *)

Section batches.
Context {R : Redis}.

(** Runs a single-delivery script on each delivery in turn. *)
Fixpoint one_by_one (script : eid -> string -> Z -> SE rdb error Z) (argv : list triple) :
    SE rdb error (list Z) :=
  match argv with
  | [] => ret []
  | (id, owner, token) :: argv' =>
      let! n := script id owner token in
      let! ns := one_by_one script argv' in
      ret (n :: ns)
  end.

Lemma ackBatch_one_by_one stream group argv s :
  ackBatchScript stream group argv s = one_by_one (ackScript stream group) argv s.
Proof.
  revert s. induction argv as [|[[id o] t] argv IH]; intros s; [done|].
  unfold ackBatchScript in *. cbn [each_owned one_by_one]. unfold ackScript, bind, ret in *.
  destruct (owns stream group id o t s) as [s1 [[|]|e]]; simpl; [| by rewrite IH | done].
  destruct (settle stream group id s1) as [s2 [?|e]]; [|done]. by rewrite IH.
Qed.

Lemma extendBatch_one_by_one stream group argv s :
  extendBatchScript stream group argv s = one_by_one (extendScript stream group) argv s.
Proof.
  revert s. induction argv as [|[[id o] t] argv IH]; intros s; [done|].
  unfold extendBatchScript in *. cbn [each_owned one_by_one]. unfold extendScript, bind, ret in *.
  destruct (owns stream group id o t s) as [s1 [[|]|e]]; simpl; [| by rewrite IH | done].
  destruct (renew stream group id o s1) as [s2 [?|e]]; [|done]. by rewrite IH.
Qed.

(** The batch scripts do exactly what the single-delivery scripts do one
    after the other, on every server and every argument list, errors included:
    batching changes the number of round trips and nothing else. *)
Theorem batch_scripts_sequential stream group argv s :
  ackBatchScript stream group argv s = one_by_one (ackScript stream group) argv s /\
  extendBatchScript stream group argv s = one_by_one (extendScript stream group) argv s.
Proof. split; [apply ackBatch_one_by_one | apply extendBatch_one_by_one]. Qed.
End batches.

Section store_batches.
Context {R : Redis} {L : RedisLaws R} {C : Client R} {CL : ClientLaws C} (b : Store).
Implicit Types q : qstate.

(** The errors of calling [op] on each job in turn. *)
Fixpoint each_job (op : Job -> SE rdb error unit) (jobs : list Job) (s : rdb) : rdb * list (option error) :=
  match jobs with
  | [] => (s, [])
  | job :: jobs' =>
      let '(s1, r) := op job s in
      let '(s2, es) := each_job op jobs' s1 in
      (s2, (match r with Ok _ => None | Err e => Some e end) :: es)
  end.

Definition lease_args (jobs : list Job) : list triple :=
  (fun j => (MessageID (JLease j), Owner (JLease j), Token (JLease j))) <$> jobs.

Definition reply_error (n : option Z) : option error :=
  match n with
  | None => Some ErrLeaseLost
  | Some n => if n =? 0 then Some ErrLeaseLost else None
  end.

(** Over a reliable client, a fenced operation on each job in turn gives what
    its script gives on each delivery in turn. *)
Lemma batch_run (script : string -> eid -> string -> Z -> SE rdb error Z) (I : qstate -> Prop) jobs :
  reliable C ->
  (forall q id o t, I q -> wpq (K_of b) (script (cfg_Group (st_config b)) id o t) q (fun _ q' => I q')) ->
  forall q s, I q -> represents (K_of b) (view s) q ->
  exists s' ns q',
    one_by_one (script (cfg_Group (st_config b))) (lease_args jobs) s = (s', Ok ns) /\
    each_job (fenced b script) jobs s = (s', imap (fun i _ => reply_error (ns !! i)) jobs) /\
    represents (K_of b) (view s') q' /\ I q'.
Proof.
  intros Hrel Hscript. induction jobs as [|job jobs IH]; intros q s HI Hs; [by exists s, [], q|].
  unfold lease_args. cbn [fmap list_fmap one_by_one each_job]. fold (lease_args jobs).
  set (l := JLease job).
  destruct (Hscript q (MessageID l) (Owner l) (Token l) HI s Hs) as (s1 & n & E & q1 & Hs1 & _ & HI1).
  destruct (IH q1 s1 HI1 Hs1) as (s2 & ns & q2 & E1 & E2 & Hs2 & HI2).
  exists s2, (n :: ns), q2. split_and!; [unfold bind at 1; rewrite E; unfold bind; by rewrite E1 | | done | done].
  unfold fenced, bind in *. rewrite Hrel. fold l. rewrite E.
  destruct (Z.eqb_spec n 0) as [->|Hn]; cbn; rewrite E2; do 2 f_equal.
  by rewrite (proj2 (Z.eqb_neq n 0) Hn).
Qed.

Lemma AckBatch_each s q jobs :
  reliable C -> keys_ok (K_of b) -> represents (K_of b) (view s) q ->
  AckBatch b jobs s = each_job (Ack b) jobs s.
Proof.
  intros Hrel HK Hs.
  destruct (batch_run (ackScript (cfg_Stream (st_config b))) (fun _ => True) jobs Hrel) with (q := q) (s := s)
    as (s' & ns & _ & E1 & E2 & _); [|done..|].
  { intros q0 id o t _. eapply wpq_mono; [apply (ackScript_ok HK)|]. done. }
  unfold AckBatch, fencedBatch. rewrite Hrel, ackBatch_one_by_one. fold (lease_args jobs).
  rewrite E1. symmetry. exact E2.
Qed.

Lemma ExtendBatch_each s q jobs :
  reliable C -> keys_ok (K_of b) -> q_wf q -> represents (K_of b) (view s) q ->
  ExtendBatch b jobs s = each_job (Extend b) jobs s.
Proof.
  intros Hrel HK Hwf Hs.
  destruct (batch_run (extendScript (cfg_Stream (st_config b))) q_wf jobs Hrel) with (q := q) (s := s)
    as (s' & ns & _ & E1 & E2 & _); [|done..|].
  { intros q0 id o t Hwf0. eapply wpq_mono; [by apply (extendScript_ok HK)|]. cbn beta.
    intros n q'. destruct (q_owns q0 id o t); intros [= _ ->]; auto with dtq. }
  unfold ExtendBatch, fencedBatch. rewrite Hrel, extendBatch_one_by_one. fold (lease_args jobs).
  rewrite E1. symmetry. exact E2.
Qed.
End store_batches.

(** ** Enqueueing *)

Section enqueueing.
Context {R : Redis} {L : RedisLaws R} {C : Client R} {CL : ClientLaws C} (b : Store).
Implicit Types q : qstate.

(** C18: a batch is all or nothing: after [EnqueueBatch] the queue holds the whole
    batch some number of times over (more than once only for jobs without a key
    or delay, when the client sent the request again), never a part of it; on
    success it was stored, and the result has each job's ID, or the ID of the
    job that used its key. *)
Theorem EnqueueBatch_atomic s q rands now jobs0 :
  let jobs := batch_jobs rands jobs0 in
  keys_ok (K_of b) -> 0 < window_ms b -> after_epoch now -> Forall job_utf8 jobs ->
  represents (K_of b) (view s) q ->
  exists s' r q', EnqueueBatch b rands now jobs0 s = (s', r) /\ represents (K_of b) (view s') q' /\
    frame (K_of b) (view s) (view s') /\
    exists n, stored_times b now jobs n q q' /\
    match r with
    | Ok outs => exists m q1, n = S m /\ stored_times b now jobs m q q1 /\
                              enqueued_all b now jobs q1 outs q'
    | Err e => net_error e
    end.
Proof. intros jobs HK Hw Hn Hutf Hs. by apply EnqueueBatch_ok. Qed.

(** The key of a stored job is remembered for the window. *)
Lemma enqueued_remembers q q1 now job out :
  0 < window_ms b -> IdempotencyKey job <> "" -> q_dedupe q !! IdempotencyKey job = None ->
  enqueued b now job q out q1 ->
  remembered q1 (IdempotencyKey job) (ID job) (q_now q + window_ms b).
Proof.
  intros Hw Hkey Hnone Henq. destruct Henq as [? ? ? _ Hold|? ? ? _ _ _ _|? _ _]; [congruence| |];
    unfold keyed; rewrite bool_decide_eq_false_2 by done; split; simpl;
    try apply lookup_insert_eq; lia.
Qed.

(** Enqueueing under a key in use stores nothing. *)
Lemma Enqueue_duplicate q rand now job0 jid e :
  let job := with_ID rand job0 in
  keys_ok (K_of b) -> 0 < window_ms b -> after_epoch now -> job_utf8 job ->
  IdempotencyKey job <> "" -> q_dedupe q !! IdempotencyKey job = Some (jid, e) ->
  wpc (K:=K_of b) (Enqueue b rand now job0) q (fun r q' =>
    q' = q /\ match r with Ok out => out = jid | Err e => net_error e end).
Proof.
  intros job HK Hw Hn Hutf Hkey Hded.
  assert (forall out q', enqueued b now job q out q' -> out = jid /\ q' = q) as Hdup.
  { intros out q3 H. destruct H as [? ? ? _ Hold|? ? ? Hno _ _ _|? Hno _];
      [split; congruence | rewrite Hno in Hded by done; done..]. }
  eapply wpc_mono; [apply (Enqueue_once b HK Hw q rand now job0 Hn Hutf); by left|].
  cbn beta. fold job. intros [out|e'] q' Hpost.
  - by apply Hdup in Hpost as [-> ->].
  - destruct Hpost as [He [->|[out Ho]]]; [done|]. by apply Hdup in Ho as [_ ->].
Qed.

(** C19: idempotency keys hold for the dedupe window: after a keyed enqueue has
    stored its job, and after any run of the queue shorter than the window, a
    second enqueue with the same key (of any job, delayed or not) changes
    nothing, and if it returns, it returns the first job's ID. *)
Theorem idempotency_window q q1 q2 tr now job out s rand2 now2 job2 :
  let j2 := with_ID rand2 job2 in
  keys_ok (K_of b) -> 0 < window_ms b -> after_epoch now2 -> job_utf8 j2 ->
  IdempotencyKey job <> "" -> IdempotencyKey j2 = IdempotencyKey job ->
  q_dedupe q !! IdempotencyKey job = None -> enqueued b now job q out q1 ->
  qsteps tr q1 q2 -> q_now q2 < q_now q + window_ms b -> represents (K_of b) (view s) q2 ->
  exists s' r, Enqueue b rand2 now2 job2 s = (s', r) /\ represents (K_of b) (view s') q2 /\
    match r with Ok out2 => out2 = ID job | Err e => net_error e end.
Proof.
  intros j2 HK Hw Hn2 Hutf Hkey Hkey2 Hnone Henq Hrun Hwin Hs.
  pose proof (enqueued_remembers _ _ _ _ _ Hw Hkey Hnone Henq) as Hrem.
  destruct (qsteps_remembered _ _ _ _ _ _ Hrun Hrem Hwin) as [Hded _].
  rewrite <- Hkey2 in Hded, Hkey.
  destruct (Enqueue_duplicate q2 rand2 now2 job2 _ _ HK Hw Hn2 Hutf Hkey Hded s Hs)
    as (s' & r & q' & E & Hs' & _ & -> & Hpost).
  by exists s', r.
Qed.
End enqueueing.

(** ** Re-sends with other clients in between *)

Section shared.
Context {R : Redis} {L : RedisLaws R} (b : Store).
Context (others : rdb -> rdb -> Prop) (env : qstate -> qstate -> Prop).
Implicit Types q : qstate.

(** What the other clients do, [others] on the keyspace, is [env] on the queue:
    some runs of its steps. *)
Record rivals : Prop := {
  rv_refl : forall q, env q q;
  rv_trans : forall q1 q2 q3, env q1 q2 -> env q2 q3 -> env q1 q3;
  rv_steps : forall q q', env q q' -> reaches q q';
  rv_do : forall s s' q, others s s' -> represents (K_of b) (view s) q -> q_inv q ->
    exists q', represents (K_of b) (view s') q' /\ env q q';
}.

(** The enqueue was one step, and the rest is what the others did. *)
Definition stored_once (now : Z) (job : Job) q (out : string) q' : Prop :=
  exists q1 q2, env q q1 /\ enqueued b now job q1 out q2 /\ env q2 q'.

Context (Hrv : rivals) (HK : keys_ok (K_of b)) (Hw : 0 < window_ms b).
Context (now : Z) (job : Job) (Hn : after_epoch now) (Hkey : IdempotencyKey job <> "") (Hutf : job_utf8 job).

Abbreviation request := (enqueueOnceScript (cfg_DedupePrefix (st_config b) +:+ IdempotencyKey job)
  (cfg_Stream (st_config b)) (cfg_RetryKey (st_config b)) (st_retryData b)
  (ID job) (window_ms b) (runAt_of job now) (json_Marshal (jobFields job))).

(** Not stored yet, or stored and remembered. *)
Definition sending q qc : Prop :=
  env q qc \/ exists q1 q2, env q q1 /\ enqueued b now job q1 (ID job) q2 /\
    remembered q2 (IdempotencyKey job) (ID job) (q_now q1 + window_ms b) /\ env q2 qc.

Lemma sending_env q q1 q2 : sending q q1 -> env q1 q2 -> sending q q2.
Proof.
  intros [H|(qa & qb & H1 & H2 & H3 & H4)] He; [left | right]; [by eapply (rv_trans Hrv)|].
  exists qa, qb. split_and!; try done. by eapply (rv_trans Hrv).
Qed.

Lemma sending_outcome q qc : sending q qc -> env q qc \/ exists out, stored_once now job q out qc.
Proof. intros [?|(q1 & q2 & ? & ? & _ & ?)]; [by left | right]. by exists (ID job), q1, q2. Qed.

Lemma env_now q q' : env q q' -> q_now q <= q_now q'.
Proof. intros [tr H]%(rv_steps Hrv). by eapply qsteps_now. Qed.

(** One run of the request, while a key set by an earlier one is remembered. *)
Lemma request_sends q qd out qe :
  sending q qd -> q_now qd < q_now q + window_ms b -> enqueued b now job qd out qe ->
  sending q qe /\ stored_once now job q out qe.
Proof.
  intros Hj Ht Ho. destruct Hj as [He|(q1 & q2 & H1 & H2 & H3 & H4)].
  - split; [|exists qd, qe; split_and!; [done | done | apply (rv_refl Hrv)]].
    destruct (q_dedupe qd !! IdempotencyKey job) as [[old e]|] eqn:Ed.
    + left. destruct Ho as [| ? ? ? Hno | ? Hno]; [done | by rewrite Hno in Ed..].
    + right. assert (out = ID job) as -> by (destruct Ho; [congruence | done..]).
      exists qd, qe. split_and!; [done | done | | apply (rv_refl Hrv)]. by eapply enqueued_remembers.
  - pose proof (env_now _ _ H1) as Hq1. destruct (rv_steps Hrv _ _ H4) as [tr Hs].
    destruct (qsteps_remembered _ _ _ _ _ _ Hs H3 ltac:(lia)) as [Hd _].
    assert (out = ID job /\ qe = qd) as [-> ->].
    { destruct Ho as [? ? ? _ Hold|? ? ? Hno|? Hno]; [split; congruence | by rewrite Hno in Hd..]. }
    split; [right; by exists q1, q2 | by exists q1, q2].
Qed.

(** A run of the request after the others moved. *)
Lemma request_runs s s1 s2 r qc :
  others s s1 -> request s1 = (s2, r) -> represents (K_of b) (view s) qc -> q_inv qc ->
  exists qd out qe, env qc qd /\ r = Ok out /\ enqueued b now job qd out qe /\
    represents (K_of b) (view s2) qe /\ q_inv qe /\ q_now qe = q_now qd.
Proof.
  intros Ho Em Hs Hinv. destruct (rv_do Hrv _ _ _ Ho Hs Hinv) as (qd & Hs1 & He).
  destruct (enqueueOnceScript_enqueued b HK Hw qd now job Hn Hkey Hutf s1 Hs1)
    as (s2' & out & E & qe & Hs2 & _ & Henq). rewrite Em in E. injection E as -> ->.
  exists qd, out, qe. split_and!; try done.
  - eapply reaches_inv; [by eapply enqueued_reaches|]. eapply reaches_inv, Hinv. by apply (rv_steps Hrv).
  - destruct Henq; simpl; unfold keyed; try case_bool_decide; done.
Qed.

(** Time does not run back during a call. *)
Lemma resent_now s x :
  resent others request s x -> forall qc, represents (K_of b) (view s) qc -> q_inv qc -> q_now qc <= rv_now (view x.1).
Proof.
  induction 1 as [s s1 s2 s3 r Ho Em Ho3|s s1 e Ho He|s s1 s2 r x Ho Em _ IH]; intros qc Hs Hinv; simpl.
  - destruct (request_runs _ _ _ _ _ Ho Em Hs Hinv) as (qd & out & qe & He & -> & _ & Hs2 & Hinv2 & Hq).
    destruct (rv_do Hrv _ _ _ Ho3 Hs2 Hinv2) as (qf & Hs3 & Hf).
    rewrite (rep_now _ _ _ Hs3). apply env_now in He, Hf. lia.
  - destruct (rv_do Hrv _ _ _ Ho Hs Hinv) as (qd & Hs1 & Hd). rewrite (rep_now _ _ _ Hs1). by apply env_now.
  - destruct (request_runs _ _ _ _ _ Ho Em Hs Hinv) as (qd & out & qe & He & -> & _ & Hs2 & Hinv2 & Hq).
    specialize (IH qe Hs2 Hinv2). apply env_now in He. lia.
Qed.

Lemma resent_once s x :
  resent others request s x -> forall q qc, represents (K_of b) (view s) qc -> q_inv qc -> sending q qc ->
  rv_now (view x.1) < q_now q + window_ms b ->
  exists q', represents (K_of b) (view x.1) q' /\
    match x.2 with
    | Ok out => stored_once now job q out q'
    | Err e => net_error e /\ (env q q' \/ exists out, stored_once now job q out q')
    end.
Proof.
  induction 1 as [s s1 s2 s3 r Ho Em Ho3|s s1 e Ho He|s s1 s2 r x Ho Em Hr IH]; intros q qc Hs Hinv Hj Ht; simpl in *.
  - destruct (request_runs _ _ _ _ _ Ho Em Hs Hinv) as (qd & out & qe & He & -> & Henq & Hs2 & Hinv2 & Hq).
    destruct (rv_do Hrv _ _ _ Ho3 Hs2 Hinv2) as (qf & Hs3 & Hf). rewrite (rep_now _ _ _ Hs3) in Ht.
    pose proof (env_now _ _ Hf). destruct (request_sends q qd out qe) as [_ (q1 & q2 & ? & ? & ?)];
      [by eapply sending_env | lia | done|].
    exists qf. split; [done|]. exists q1, q2. split_and!; try done. by eapply (rv_trans Hrv).
  - destruct (rv_do Hrv _ _ _ Ho Hs Hinv) as (qd & Hs1 & Hd). exists qd. split_and!; [done | done|].
    by eapply sending_outcome, sending_env.
  - destruct (request_runs _ _ _ _ _ Ho Em Hs Hinv) as (qd & out & qe & He & -> & Henq & Hs2 & Hinv2 & Hq).
    pose proof (resent_now _ _ Hr qe Hs2 Hinv2). apply (IH q qe); [done | done | | done].
    eapply request_sends; [by eapply sending_env | lia | done].
Qed.
End shared.

(** C17: an enqueue of a job with UTF-8 text and an idempotency key takes effect at most
    once, however often the client re-sends the request and whatever queue operations
    other clients run in between, if the whole call takes less than the dedupe window. When it returns an ID, the queue went
    through what the others did and exactly one enqueue of this job (which, when the
    key was in use, stores nothing and gives the ID of the job that used it); when it
    fails, through that and at most one. Jobs without a key have no such guarantee. *)
Theorem Enqueue_exactly_once {R : Redis} {L : RedisLaws R} {C : Client R} (b : Store)
    (others : rdb -> rdb -> Prop) (env : qstate -> qstate -> Prop) {CL : SharedClientLaws C others}
    s q rand now job0 :
  let job := with_ID rand job0 in
  rivals b others env -> keys_ok (K_of b) -> 0 < window_ms b -> after_epoch now ->
  IdempotencyKey job <> "" -> job_utf8 job -> q_inv q -> represents (K_of b) (view s) q ->
  rv_now (view (Enqueue b rand now job0 s).1) < rv_now (view s) + window_ms b ->
  exists s' r q', Enqueue b rand now job0 s = (s', r) /\ represents (K_of b) (view s') q' /\
    match r with
    | Ok out => stored_once b env now job q out q'
    | Err e => net_error e /\ (env q q' \/ exists out, stored_once b env now job q out q')
    end.
Proof.
  intros job Hrv HK Hw Hn Hkey Hutf Hinv Hs Ht. rewrite (rep_now _ _ _ Hs) in Ht.
  revert Ht. unfold Enqueue. fold job. rewrite bool_decide_eq_false_2 by done. cbn [negb]. unfold enqueueOnce.
  match goal with |- context [call ?m s] => pose proof (shared_call_law _ m s) as Hr; destruct (call m s) as [s' r] end.
  simpl. intros Ht. destruct (resent_once b others env Hrv HK Hw now job Hn Hkey Hutf s (s', r) Hr q q Hs Hinv)
    as (q' & Hs' & Hq'); [left; apply (rv_refl _ _ _ Hrv) | exact Ht|]. by exists s', r, q'.
Qed.

Section end_to_end.
Context {R : Redis} {L : RedisLaws R} {C : Client R} {CL : ClientLaws C} (b : Store).
Implicit Types q : qstate.

Lemma undelivered_append q id fs :
  q_wf q -> undelivered (q_last q) (q_entries q) = [] -> eid_lt (q_top q) id ->
  undelivered (q_last q) (q_entries q ++ [(id, fs)]) = [(id, fs)].
Proof.
  intros Hwf Hnone Hid. unfold undelivered in *. rewrite filter_app, Hnone, app_nil_l, filter_cons_True;
    [done|]. simpl. eapply eid_le_lt_trans; [apply (wf_last _ Hwf) | done].
Qed.

(** Over a reliable client an enqueue is done once, and succeeds. *)
Lemma Enqueue_reliable s q rand now job0 :
  let job := with_ID rand job0 in
  reliable C -> keys_ok (K_of b) -> 0 < window_ms b -> after_epoch now ->
  (IdempotencyKey job <> "" -> job_utf8 job /\ q_dedupe q !! IdempotencyKey job = None) ->
  represents (K_of b) (view s) q ->
  exists s1 q1, Enqueue b rand now job0 s = (s1, Ok (ID job)) /\ represents (K_of b) (view s1) q1 /\
    enqueued b now job q (ID job) q1.
Proof.
  intros job Hrel HK Hw Hn Hkeyed Hs. unfold Enqueue. fold job. cbn zeta.
  destruct (decide (IdempotencyKey job = "")) as [Hkey|Hkey].
  - rewrite bool_decide_eq_true_2 by done. cbn [negb].
    assert (keyed b job q = q) as Hkd by (unfold keyed; by rewrite bool_decide_eq_true_2).
    destruct (Z.ltb_spec now (AvailableAt job)) as [Hlt|Hge].
    + destruct (exec_schedule_ok b HK q job (UnixMilli (AvailableAt job)) (json_Marshal (jobFields job)) s Hs)
        as (s1 & rs & E & q1 & Hs1 & _ & -> & ->).
      exists s1. eexists. split_and!; [|exact Hs1|].
      * unfold schedule, TxPipelined, bind, lift_result. rewrite Hrel, E. done.
      * rewrite <- Hkd at 2. by apply enq_later.
    + destruct (wpq_XADD HK q (range_map (jobFields job))
        ltac:(eapply jobFields_not_nil, range_map_perm) s Hs) as (s1 & id & E & q1 & Hs1 & _ & Hid & ->).
      exists s1. eexists. split_and!; [|exact Hs1|].
      * unfold bind. rewrite Hrel. simpl in E. by rewrite E.
      * rewrite <- Hkd at 2. apply enq_now; [done | done | apply range_map_perm | done].
  - rewrite bool_decide_eq_false_2 by done. cbn [negb]. destruct (Hkeyed Hkey) as [Hutf Hfresh].
    destruct (enqueueOnceScript_enqueued b HK Hw q now job Hn Hkey Hutf s Hs)
      as (s1 & out & E & q1 & Hs1 & _ & Ho).
    assert (out = ID job) as -> by (destruct Ho as [? ? ? _ Hold| |]; [congruence | done | done]).
    exists s1, q1. split_and!; [|done | done]. unfold enqueueOnce. rewrite Hrel. exact E.
Qed.

Lemma keyed_inv job q : q_inv q -> q_inv (keyed b job q).
Proof. intros [Hwf Hd]. unfold keyed. case_bool_decide; [done|]. split; [by apply wf_remember | exact Hd]. Qed.

Lemma keyed_fields job q : q_entries (keyed b job q) = q_entries q /\ q_last (keyed b job q) = q_last q /\
  q_sched (keyed b job q) = q_sched q /\ q_top (keyed b job q) = q_top q.
Proof. unfold keyed. by case_bool_decide. Qed.

(** A claim of a queue whose only undelivered entry is [(id, fs)] hands it out. *)
Lemma only_ready q id fs w limit job :
  0 < limit -> undelivered (q_last q) (q_entries q) = [(id, fs)] ->
  job_ok job -> fs ≡ₚ map_to_list (jobFields job) ->
  omap (parsed w) (first_deliveries (q_ready limit q)) = [delivered_job job (mkLease id w 1 0)].
Proof.
  intros Hlim Hu Hok Hp. unfold q_ready. rewrite Hu.
  destruct (Z.to_nat limit) as [|n] eqn:El; [lia|]. rewrite firstn_cons, take_nil. cbn.
  unfold parsed. simpl. rewrite (flatToMap_perm (jobFields job)) by done. by rewrite parseJob_jobFields.
Qed.

(** Nothing in the schedule is due, or one job just put there. *)
Lemma due_none (z : gmap string Z) now l :
  (forall jid sc, z !! jid = Some sc -> now < sc) -> due_list z now l -> l = [].
Proof.
  intros Hz (_ & _ & Hl). destruct l as [|jid l]; [done|].
  destruct (proj1 (Hl jid)) as (sc & Hsc & Hle); [by left|]. apply Hz in Hsc. lia.
Qed.

Lemma due_one (z : gmap string Z) now jid sc l :
  (forall j sc', z !! j = Some sc' -> now < sc') -> sc <= now -> due_list (<[jid := sc]> z) now l -> l = [jid].
Proof.
  intros Hz Hle (Hnd & _ & Hl). apply Permutation_singleton_r, NoDup_Permutation; [done | apply NoDup_singleton|].
  intros j. rewrite Hl, list_elem_of_singleton. split.
  - intros (sc' & Hsc & Hle'). apply lookup_insert_Some in Hsc as [[? _]|[_ Hsc]]; [done|]. apply Hz in Hsc. lia.
  - intros ->. rewrite lookup_insert_eq. eauto.
Qed.

(** C20: end to end, over a client that delivers every request once and its reply:
    on a queue with nothing undelivered and nothing due in the schedule, a job that is
    enqueued, without an idempotency key or under one not in use, and that is due by
    the time of the next claim, at once or after its delay, is what that claim returns,
    with its task, payload, attempt, times and trace as they were enqueued, leased to
    the claiming worker with token 1. (The counters are of int64, the times in
    the years 0 to 9999, and the text of a keyed or delayed job, which goes through JSON,
    is UTF-8.) *)
Theorem enqueue_then_claim s q rand now job0 w limit now2 :
  let job := with_ID rand job0 in
  reliable C -> keys_ok (K_of b) -> 0 < window_ms b -> after_epoch now -> job_ok job ->
  (IdempotencyKey job <> "" \/ now < AvailableAt job -> job_utf8 job) ->
  (IdempotencyKey job <> "" -> q_dedupe q !! IdempotencyKey job = None) ->
  AvailableAt job <= now \/ UnixMilli (AvailableAt job) <= UnixMilli now2 ->
  q_inv q -> represents (K_of b) (view s) q ->
  undelivered (q_last q) (q_entries q) = [] ->
  (forall jid sc, q_sched q !! jid = Some sc -> UnixMilli now2 < sc) -> 0 < limit ->
  exists s1 s2 id,
    Enqueue b rand now job0 s = (s1, Ok (ID job)) /\
    claimReady b w limit now2 s1 = (s2, Ok [delivered_job job (mkLease id w 1 0)]).
Proof.
  intros job Hrel HK Hw Hn Hok Hutf Hfresh Hdue Hinv Hs Hnone Hsched Hlim.
  destruct (Enqueue_reliable s q rand now job0 Hrel HK Hw Hn) as (s1 & q1 & E & Hs1 & Ho); [|done|].
  { fold job. intros Hkey. split; [apply Hutf; by left | by apply Hfresh]. }
  fold job in E, Ho. pose proof (keyed_inv job q Hinv) as [Hwf Hd].
  destruct (keyed_fields job q) as (Ke & Kl & Ks & Kt).
  assert (forall id fs, eid_lt (q_top (keyed b job q)) id ->
    undelivered (q_last (keyed b job q)) (q_entries (keyed b job q) ++ [(id, fs)]) = [(id, fs)]) as Hone.
  { intros id fs Hid. apply undelivered_append; [done | by rewrite Ke, Kl | done]. }
  remember (ID job) as out eqn:Eout. destruct Ho as [q old e Hkey Hold|q id fs _ Hav Hp Hid|q _ Hlt].
  - by rewrite Hfresh in Hold.
  - destruct (claimReady_run Hrel b HK s1 _ w limit now2 Hlim
      (conj (wf_append id fs _ ltac:(by rewrite Kt) Hwf) Hd) Hs1) as (s2 & q' & q2 & l & Hdl & Hpr & Ec & _).
    assert (l = []) as -> by (eapply due_none; [|exact Hdl]; simpl; rewrite Ks; exact Hsched).
    rewrite take_nil in Hpr. inversion Hpr; subst. exists s1, s2, id. split; [done|]. rewrite Ec. do 2 f_equal.
    eapply only_ready; [done | apply Hone; by rewrite Kt | done | done].
  - destruct Hdue as [?|Hdue]; [lia|]. destruct (decodes_jobFields job (Hutf (or_intror Hlt))) as (fs & Hdec & Hp).
    set (q1 := q_schedule (ID job) _ _ _) in *.
    destruct (claimReady_run Hrel b HK s1 q1 w limit now2 Hlim) as (s2 & q' & q2 & l & Hdl & Hpr & Ec & _);
      [split; [by apply wf_schedule | by eapply data_ok_schedule] | done|].
    assert (l = [ID job]) as -> by (eapply due_one; [|exact Hdue | exact Hdl]; rewrite Ks; exact Hsched).
    cbn [take] in Hpr. inversion Hpr as [|? ? ? ? id fs' js Hj [Hdec' _] Hid Hpr'|? ? ? ? Hno]; subst; cycle 1.
    { unfold q1 in Hno. simpl in Hno. by rewrite lookup_insert_eq in Hno. }
    unfold q1 in Hj. simpl in Hj. rewrite lookup_insert_eq in Hj. injection Hj as <-.
    assert (fs' = fs) as -> by (destruct Hdec; congruence). inversion Hpr'; subst.
    exists s1, s2, id. split; [done|]. rewrite Ec. do 2 f_equal.
    eapply only_ready; [done | apply Hone; exact Hid | done | done].
Qed.
End end_to_end.

(** *** Witnesses *)

Lemma stream_roundtrip_witness :
  parseJob (7%N, 0%N) (flatToMap (demo_fields demo_job)) demo_lease = Ok (delivered_job demo_job demo_lease).
Proof. apply stream_roundtrip; [apply demo_job_ok | reflexivity]. Defined.

Lemma schedule_roundtrip_witness :
  exists fs, cjson_decode (json_Marshal (jobFields demo_job)) = Ok fs /\
    parseJob (7%N, 0%N) (flatToMap fs) demo_lease = Ok (delivered_job demo_job demo_lease).
Proof. apply (schedule_roundtrip (R:=ref_redis)); [apply demo_job_ok | by split_and!]. Defined.


(** [demo_job2] enqueued under an idempotency key. *)
Definition demo_keyed : Job :=
  mkJob "b2" "email" "{}" 0 3 "" demo_time demo_time "order-7" zeroLease.

(** A client that sends every request twice; between the two, a second passes and
    worker "w9" claims. *)
Definition meanwhile (s : rview) : rview :=
  (claimReady (R:=ref_redis) default_store "w9" 5 demo_time (tick (Redis:=ref_redis) 1000 s)).1.

Definition twice_client : Client ref_redis := {|
  call A m := fun s => m (meanwhile (m s).1);
  range_map m := map_to_list m;
  atoi_error s := atoi_error s;
  time_error s := time_error s;
|}.

Definition demo_others (s s' : rview) : Prop := s' = s \/ s' = meanwhile s.

Lemma twice_client_laws : SharedClientLaws twice_client demo_others.
Proof.
  intros A m s. simpl. apply (resent_again (R:=ref_redis) demo_others m s s (m s).1 (m s).2); [by left | by destruct (m s)|].
  match goal with |- resent _ _ _ ?x => destruct x as [s2 r] eqn:E end.
  apply (resent_reply (R:=ref_redis) demo_others m _ (meanwhile (m s).1) s2); [by right | done | by left].
Qed.

Lemma demo_rivals : rivals (R:=ref_redis) default_store demo_others (reaches (R:=ref_redis)).
Proof.
  split; [intros q; reflexivity | intros q1 q2 q3 H1 H2; by etrans | done|].
  intros s s' q [->| ->] Hs Hinv; [exists q; split; [done | reflexivity]|].
  assert (reaches (R:=ref_redis) q (q_tick 1000 q)) as Hr by (by eapply reaches_step, step_tick).
  destruct (claimReady_ok (R:=ref_redis) default_store default_keys_ok (q_tick 1000 q) "w9" 5 demo_time
    eq_refl (reaches_inv _ _ Hr Hinv) (tick 1000 s)) as (s' & r & q' & E & Hs' & _ & Hr' & _);
    [by apply (rep_tick (R:=ref_redis))|].
  exists q'. unfold meanwhile. simpl in E |- *. rewrite E. split; [exact Hs' | by etrans].
Qed.

Lemma Enqueue_exactly_once_witness :
  exists s' r q', Enqueue (C:=twice_client) default_store [] demo_time demo_keyed demo_db = (s', r) /\
    represents (K_of default_store) s' q' /\
    match r with
    | Ok out => stored_once default_store (reaches (R:=ref_redis)) demo_time demo_keyed demo_q out q'
    | Err e => net_error e /\ (reaches (R:=ref_redis) demo_q q' \/ exists out,
        stored_once default_store (reaches (R:=ref_redis)) demo_time demo_keyed demo_q out q')
    end.
Proof.
  apply (Enqueue_exactly_once (R:=ref_redis) (C:=twice_client) (CL:=twice_client_laws) default_store demo_others
    (reaches (R:=ref_redis)) demo_db demo_q [] demo_time demo_keyed);
    [apply demo_rivals | apply default_keys_ok | reflexivity | discriminate | discriminate | by split_and!
    | apply demo_inv | apply demo_represents | vm_compute; reflexivity].
Defined.

Lemma EnqueueBatch_atomic_witness :
  exists s' r q', EnqueueBatch default_store [[]; []] demo_time [demo_keyed; demo_job2] demo_db = (s', r) /\
    represents (K_of default_store) s' q' /\ frame (K_of default_store) demo_db s' /\
    exists n, stored_times default_store demo_time [demo_keyed; demo_job2] n demo_q q' /\
    match r with
    | Ok outs => exists m q1, n = S m /\
        stored_times default_store demo_time [demo_keyed; demo_job2] m demo_q q1 /\
        enqueued_all default_store demo_time [demo_keyed; demo_job2] q1 outs q'
    | Err e => net_error e
    end.
Proof.
  apply (EnqueueBatch_atomic (R:=ref_redis) default_store demo_db demo_q [[]; []] demo_time
    [demo_keyed; demo_job2]);
    [apply default_keys_ok | reflexivity | discriminate | repeat constructor | apply demo_represents].
Defined.

Definition demo_after_key : qstate :=
  q_append (9%N, 0%N) (demo_fields demo_keyed) (keyed default_store demo_keyed demo_q).

Lemma demo_enqueued :
  enqueued default_store demo_time demo_keyed demo_q "b2" demo_after_key.
Proof.
  apply (enq_now default_store demo_time demo_keyed demo_q (9%N, 0%N));
    [reflexivity | discriminate | reflexivity | left; reflexivity].
Qed.

Lemma idempotency_window_witness :
  exists s' r, Enqueue default_store [] demo_time demo_keyed
      (rep_view (K_of default_store) (q_tick 1000 demo_after_key)) = (s', r) /\
    represents (K_of default_store) s' (q_tick 1000 demo_after_key) /\
    match r with Ok out2 => out2 = "b2" | Err e => net_error e end.
Proof.
  apply (idempotency_window (R:=ref_redis) default_store demo_q demo_after_key
    (q_tick 1000 demo_after_key) [LTick 1000] demo_time demo_keyed "b2").
  - apply default_keys_ok.
  - reflexivity.
  - discriminate.
  - by split_and!.
  - discriminate.
  - reflexivity.
  - reflexivity.
  - apply demo_enqueued.
  - econstructor; [by apply step_tick | constructor].
  - reflexivity.
  - apply rep_view_ok, default_keys_ok.
Defined.

(** A keyed job with a delay of one second, claimed when it is due. *)
Definition demo_delayed : Job :=
  mkJob "c4" "email" "{}" 0 3 "" demo_time (demo_time + second) "order-8" zeroLease.

Lemma enqueue_then_claim_witness :
  exists s1 s2 id,
    Enqueue default_store [] demo_time demo_delayed
      (rep_view (K_of default_store) (q_empty 60000)) = (s1, Ok "c4") /\
    claimReady default_store "w2" 5 (demo_time + second) s1 =
      (s2, Ok [delivered_job demo_delayed (mkLease id "w2" 1 0)]).
Proof.
  apply (enqueue_then_claim (R:=ref_redis) default_store _ (q_empty 60000) [] demo_time demo_delayed).
  - apply ref_client_reliable.
  - apply default_keys_ok.
  - reflexivity.
  - discriminate.
  - split; [discriminate | by split | by split | vm_compute; split; congruence..].
  - intros _. by split_and!.
  - intros _. reflexivity.
  - right. done.
  - split; [apply q_wf_empty|]. intros jid json. simpl. by rewrite lookup_empty.
  - apply rep_view_ok, default_keys_ok.
  - reflexivity.
  - intros jid sc. simpl. by rewrite lookup_empty.
  - reflexivity.
Defined.
