(* ===== verification/StoreRun.v ===== *)
(** * The store refines the abstract queue

    A run of a store: any sequence of operations by any workers and producers,
    over a client that may lose replies and repeat requests, with time passing
    in between. Every run is a run of the transition system of [QueueSteps], so
    its safety properties hold of the store. *)

From S2P Require Import Prelude GoNum GoTime Errors Job GoJson Redis RefRedis Scripts QueueSpec.
From S2P Require Import QueueRep ScriptsOk QueueSteps Store JobCodec StoreOk EnqueueOk ClaimOk.
From S2P Require Import Demo QueueProps ClaimProps EnqueueProps.
From Stdlib Require Import Ascii String.
From stdpp Require Import strings sorting.

Open Scope Z_scope.
Open Scope se_scope.

Section run.
Context {R : Redis} {C : Client R}.

Inductive store_op :=
  | OpEnqueue (rand : list ascii) (now : Z) (job : Job)
  | OpEnqueueBatch (rands : list (list ascii)) (now : Z) (jobs : list Job)
  | OpClaim (worker : string) (limit wait now : Z) (blocked : rdb -> rdb) (done : bool)
  | OpRecoverExpired (timeout : Z) (worker : string) (limit now1 now2 : Z)
  | OpExtend (job : Job)
  | OpAck (job : Job)
  | OpRetry (job : Job) (nextRunAt : Z)
  | OpDeadLetter (job : Job) (reason : string) (now : Z)
  | OpAckBatch (jobs : list Job)
  | OpExtendBatch (jobs : list Job)
  | OpPromoteRetries (limit now : Z)
  | OpDeregister (worker : string)
  | OpTick (d : Z).

(** The state of a store process and the server after the operation. *)
Definition run_op (op : store_op) (w : Store * rdb) : Store * rdb :=
  let '(b, s) := w in
  match op with
  | OpEnqueue rand now job => (b, (Enqueue b rand now job s).1)
  | OpEnqueueBatch rands now jobs => (b, (EnqueueBatch b rands now jobs s).1)
  | OpClaim worker limit wait now blocked done => (b, (Claim b worker limit wait now blocked done s).1)
  | OpRecoverExpired timeout worker limit now1 now2 =>
      let '(s', (b', _)) := RecoverExpired b timeout worker limit now1 now2 s in (b', s')
  | OpExtend job => (b, (Extend b job s).1)
  | OpAck job => (b, (Ack b job s).1)
  | OpRetry job nextRunAt => (b, (Retry b job nextRunAt s).1)
  | OpDeadLetter job reason now => (b, (DeadLetter b job reason now s).1)
  | OpAckBatch jobs => (b, (AckBatch b jobs s).1)
  | OpExtendBatch jobs => (b, (ExtendBatch b jobs s).1)
  | OpPromoteRetries limit now => (b, (promoteRetries b limit now s).1)
  | OpDeregister worker => (b, (Deregister b worker s).1)
  | OpTick d => (b, tick d s)
  end.

Definition run_ops (ops : list store_op) (w : Store * rdb) : Store * rdb := foldl (fun w op => run_op op w) w ops.

(** What callers guarantee: jobs enqueued with UTF-8 text, positive
    limits, a clock past 1970. *)
Definition op_ok (b : Store) (op : store_op) : Prop :=
  match op with
  | OpEnqueue rand now job => after_epoch now /\ job_utf8 (with_ID rand job)
  | OpEnqueueBatch rands now jobs => after_epoch now /\ Forall job_utf8 (batch_jobs rands jobs)
  | OpClaim _ limit _ _ blocked _ => 0 < limit /\ env_ok b blocked
  | OpRecoverExpired _ _ limit _ _ => 0 < limit
  | OpPromoteRetries limit _ => 0 <= limit
  | OpTick d => 0 <= d
  | _ => True
  end.
End run.

Section refinement.
Context {R : Redis} {L : RedisLaws R} {C : Client R} {CL : ClientLaws C}.
Context (b : Store) (HK : keys_ok (K_of b)).
Implicit Types q : qstate.

(** What a call of each kind may do: steps of the queue. *)
Lemma settle_reaches m job q f eff :
  wpc (K:=K_of b) m q (fenced_outcome (lease_owns q (JLease job)) q eff) ->
  (forall jid runAt json, f = Retried jid runAt json -> exists fs, decodes json fs) ->
  (forall q', eff q' -> exists did, q' = q_settle (MessageID (JLease job)) (fate_effect f did q)) ->
  wpc (K:=K_of b) m q (fun _ q' => reaches q q').
Proof.
  intros Hm Hf Heff. eapply wpc_mono; [exact Hm|]. intros r q' Ho.
  eapply fenced_outcome_reaches; [exact Ho|]. intros Hown [did ->]%Heff.
  by eapply reaches_step, step_settle.
Qed.

Lemma stored_reaches now jobs n q q' :
  0 < window_ms b -> Forall job_utf8 jobs -> stored_times b now jobs n q q' -> reaches q q'.
Proof.
  intros Hw Hutf. assert (forall q outs q', enqueued_all b now jobs q outs q' -> reaches q q') as Hall.
  { clear -L Hw Hutf. induction Hutf as [|job jobs Hj _ IH]; intros q outs q' H; inversion H; subst; [reflexivity|].
    etrans; [by eapply enqueued_reaches | eauto]. }
  induction 1; [reflexivity|]. etrans; eauto.
Qed.

Lemma Enqueue_reaches q rand now job :
  0 < window_ms b -> after_epoch now -> job_utf8 (with_ID rand job) ->
  wpc (K:=K_of b) (Enqueue b rand now job) q (fun _ q' => reaches q q').
Proof.
  intros Hw Hn Hutf.
  destruct (decide (IdempotencyKey (with_ID rand job) <> "" \/ now < AvailableAt (with_ID rand job)))
    as [Hor|Hno].
  - eapply wpc_mono; [by apply Enqueue_once|]. cbn beta. intros [out|e] q' Hp.
    + by eapply enqueued_reaches.
    + destruct Hp as [_ [->|[out Ho]]]; [reflexivity | by eapply enqueued_reaches].
  - eapply wpc_mono; [apply Enqueue_plain; [done | done | |lia]|].
    + destruct (decide (IdempotencyKey (with_ID rand job) = "")); tauto.
    + cbn beta. intros r q' (n & Hst & _). by eapply stored_reaches; [|constructor|].
Qed.

Lemma each_owned_reaches (script : string -> eid -> string -> Z -> SE rdb error Z) argv :
  (forall q id o t, q_inv q ->
     wpq (K_of b) (script (cfg_Group (st_config b)) id o t) q (fun _ q' => reaches q q')) ->
  forall q, q_inv q ->
  wpq (K_of b) (one_by_one (script (cfg_Group (st_config b))) argv) q (fun _ q' => reaches q q').
Proof.
  intros Hs. induction argv as [|[[id o] t] argv IH]; intros q Hinv; cbn [one_by_one].
  { apply wpq_ret. reflexivity. }
  eapply wpq_bind; [by apply Hs|]. cbn beta. intros n q1 Hr1.
  eapply wpq_bind; [by eapply IH, reaches_inv|]. cbn beta. intros ns q2 Hr2.
  apply wpq_ret. by etrans.
Qed.

Lemma fencedBatch_reaches batch (script : string -> eid -> string -> Z -> SE rdb error Z) jobs q s :
  (forall g argv s, batch g argv s = one_by_one (script g) argv s) ->
  (forall q id o t, q_inv q ->
     wpq (K_of b) (script (cfg_Group (st_config b)) id o t) q (fun _ q' => reaches q q')) ->
  q_inv q -> represents (K_of b) (view s) q ->
  exists q', represents (K_of b) (view (fencedBatch b batch jobs s).1) q' /\ reaches q q' /\
    frame (K_of b) (view s) (view (fencedBatch b batch jobs s).1).
Proof.
  intros Hb Hs Hinv Hrep. unfold fencedBatch. fold (lease_args jobs).
  destruct (wpc_call (K:=K_of b) (batch (cfg_Group (st_config b)) (lease_args jobs)) (reaches q)
    (fun _ _ => True) q) with (s := s) as (s' & r & q' & E & Hs' & Hf & Hr & _); [reflexivity | | done |].
  - intros q1 Hr1. eapply wpq_ext; [intros; symmetry; apply Hb|].
    eapply wpq_mono; [by eapply each_owned_reaches, reaches_inv|]. cbn beta. intros _ q2 Hr2.
    split; [by etrans | done].
  - rewrite E. eauto.
Qed.

Lemma ack_script_reaches q id o t :
  wpq (K_of b) (ackScript (cfg_Stream (st_config b)) (cfg_Group (st_config b)) id o t) q
    (fun _ q' => reaches q q').
Proof.
  eapply wpq_mono; [apply (ackScript_ok HK)|]. cbn beta. intros n q'.
  destruct (q_owns q id o t) eqn:E; intros [= _ ->]; [|reflexivity].
  by eapply reaches_step, (step_settle _ _ _ Acked (0%N, 0%N)).
Qed.

Lemma extend_script_reaches q id o t :
  q_wf q ->
  wpq (K_of b) (extendScript (cfg_Stream (st_config b)) (cfg_Group (st_config b)) id o t) q
    (fun _ q' => reaches q q').
Proof.
  intros Hwf. eapply wpq_mono; [by apply (extendScript_ok HK)|]. cbn beta. intros n q'.
  destruct (q_owns q id o t) eqn:E; intros [= _ ->]; [|reflexivity]. by eapply reaches_step, step_renew.
Qed.

Lemma Extend_reaches q job : q_wf q -> wpc (K:=K_of b) (Extend b job) q (fun _ q' => reaches q q').
Proof.
  intros Hwf. set (l := JLease job). eapply wpc_mono; [by apply (Extend_ok b HK)|]. cbn beta. fold l.
  assert (lease_owns q l = true -> reaches q (q_renew (MessageID l) (Owner l) q)) as Hrn.
  { intros Ho. by eapply reaches_step, step_renew. }
  intros [?|e] q' Hp; [destruct Hp as [? ->]; auto|].
  assert (q' = q \/ lease_owns q l = true /\ q' = q_renew (MessageID l) (Owner l) q) as [->|[? ->]]
    by (destruct e; naive_solver); [reflexivity | auto].
Qed.

Lemma Retry_reaches q job nextRunAt :
  wpc (K:=K_of b) (Retry b job nextRunAt) q (fun _ q' => reaches q q').
Proof.
  eapply (settle_reaches _ job q (Retried (ID job) (UnixMilli nextRunAt) (retry_json job)));
    [by apply Retry_ok | |].
  - intros jid runAt json [= _ _ <-].
    destruct (decodes_coerced (set_Attempt job (wrap64 (Attempt job + 1)))) as (fs & Hd & _). eauto.
  - intros q' ->. by exists (0%N, 0%N).
Qed.

Lemma wpc_after {A} (m : SE rdb error A) q s :
  wpc (K:=K_of b) m q (fun _ q' => reaches q q') -> represents (K_of b) (view s) q ->
  exists q', represents (K_of b) (view (m s).1) q' /\ reaches q q'.
Proof. intros Hm Hs. destruct (Hm s Hs) as (s' & r & q' & E & Hs' & _ & Hr). rewrite E. eauto. Qed.

Lemma AckBatch_reaches jobs q s :
  q_inv q -> represents (K_of b) (view s) q ->
  exists q', represents (K_of b) (view (AckBatch b jobs s).1) q' /\ reaches q q' /\
    frame (K_of b) (view s) (view (AckBatch b jobs s).1).
Proof.
  intros. apply (fencedBatch_reaches _ (ackScript (cfg_Stream (st_config b)))); [| |done..].
  - intros. apply ackBatch_one_by_one.
  - intros. apply ack_script_reaches.
Qed.

Lemma ExtendBatch_reaches jobs q s :
  q_inv q -> represents (K_of b) (view s) q ->
  exists q', represents (K_of b) (view (ExtendBatch b jobs s).1) q' /\ reaches q q' /\
    frame (K_of b) (view s) (view (ExtendBatch b jobs s).1).
Proof.
  intros. apply (fencedBatch_reaches _ (extendScript (cfg_Stream (st_config b)))); [| |done..].
  - intros. apply extendBatch_one_by_one.
  - intros q1 id o t [Hwf _]. by apply extend_script_reaches.
Qed.

Lemma run_op_ok op s q :
  0 < window_ms b -> op_ok b op -> q_inv q -> represents (K_of b) (view s) q ->
  exists q', represents (K_of b) (view (run_op op (b, s)).2) q' /\ reaches q q' /\
    st_config (run_op op (b, s)).1 = st_config b /\ st_retryData (run_op op (b, s)).1 = st_retryData b.
Proof.
  intros Hw Hok Hinv Hs.
  assert (forall s', (exists q', represents (K_of b) (view s') q' /\ reaches q q') ->
    exists q', represents (K_of b) (view s') q' /\ reaches q q' /\
      st_config b = st_config b /\ st_retryData b = st_retryData b) as Hsame by naive_solver.
  destruct op as [rand now job|rands now jobs|worker limit wait now blocked dn|timeout worker limit now1 now2
    |job|job|job nextRunAt|job reason now|jobs|jobs|limit now|worker|d]; simpl in Hok |- *.
  - destruct Hok. by apply Hsame, wpc_after; [apply Enqueue_reaches|].
  - destruct Hok as [Hn Hutf]. apply Hsame, wpc_after; [|done].
    eapply wpc_mono; [by apply EnqueueBatch_ok|]. cbn beta. intros r q' (n & Hst & _).
    by eapply stored_reaches.
  - destruct Hok as [Hlim Henv]. apply Hsame.
    destruct (Claim_ok b HK q worker limit wait now blocked dn Hlim Hinv Henv s Hs)
      as (s' & r & q' & E & Hs' & Hr & _). rewrite E. eauto.
  - destruct (RecoverExpired_ok b HK q s timeout worker limit now1 now2 Hok Hinv Hs)
      as (s' & b' & r & q' & E & Hs' & _ & Hr & Hc & Hd & _). rewrite E. simpl. eauto.
  - apply Hsame, wpc_after; [apply Extend_reaches; apply Hinv | done].
  - apply Hsame, wpc_after; [|done]. eapply (settle_reaches _ job q Acked); [by apply Ack_ok | done|].
    intros q' ->. by exists (0%N, 0%N).
  - by apply Hsame, wpc_after; [apply Retry_reaches|].
  - apply Hsame, wpc_after; [|done].
    eapply (settle_reaches _ job q (Buried (range_map (dead_fields job reason now))));
      [by apply DeadLetter_ok | done | by intros q' [did ->]; exists did].
  - apply Hsame. destruct (AckBatch_reaches jobs q s Hinv Hs) as (q' & ? & ? & _). eauto.
  - apply Hsame. destruct (ExtendBatch_reaches jobs q s Hinv Hs) as (q' & ? & ? & _). eauto.
  - apply Hsame, wpc_after; [|done]. eapply wpc_mono; [by apply promoteRetries_ok|]. by intros r q' [? _].
  - apply Hsame, wpc_after; [|done]. eapply wpc_mono; [by apply Deregister_ok|]. cbn beta.
    intros r q' [[->|[Hi ->]] _]; [reflexivity | by eapply reaches_step, step_drop].
  - apply Hsame. exists (q_tick d q). split; [by apply rep_tick | by eapply reaches_step, step_tick].
Qed.
End refinement.

Section runs.
Context {R : Redis} {L : RedisLaws R} {C : Client R} {CL : ClientLaws C}.
Implicit Types q : qstate.

Lemma op_ok_same (b b' : Store) op :
  st_config b' = st_config b -> st_retryData b' = st_retryData b -> op_ok b op -> op_ok b' op.
Proof.
  intros Hc Hd. assert (K_of b' = K_of b) as Ek by (unfold K_of; by rewrite Hc, Hd).
  destruct op; simpl; try done. unfold env_ok. by rewrite Ek.
Qed.

Lemma run_ops_ok ops : forall b s q,
  keys_ok (K_of b) -> 0 < window_ms b -> q_inv q -> represents (K_of b) (view s) q ->
  Forall (op_ok b) ops ->
  exists b' s' q', run_ops ops (b, s) = (b', s') /\ K_of b' = K_of b /\
    represents (K_of b) (view s') q' /\ reaches q q'.
Proof.
  induction ops as [|op ops IH]; intros b s q HK Hw Hinv Hs Hok.
  { exists b, s, q. split_and!; [done..|reflexivity]. }
  inversion Hok as [|? ? Hop Hops]; subst. cbn [run_ops foldl].
  destruct (run_op_ok b HK op s q Hw Hop Hinv Hs) as (q1 & Hs1 & Hr1 & Hc & Hd).
  destruct (run_op op (b, s)) as [b1 s1]. simpl in *.
  assert (K_of b1 = K_of b) as Ek by (unfold K_of; by rewrite Hc, Hd).
  destruct (IH b1 s1 q1) as (b2 & s2 & q2 & E & Ek2 & Hs2 & Hr2);
    [by rewrite Ek | unfold window_ms; by rewrite Hc | by eapply reaches_inv | by rewrite Ek | |].
  { eapply Forall_impl; [exact Hops|]. intros o. by apply op_ok_same. }
  exists b2, s2, q2. rewrite Ek in Ek2, Hs2. split_and!; [exact E | done | done | by etrans].
Qed.

(** C1: the store implements the abstract queue: over a client that may lose
    replies and repeat requests, any sequence of operations of producers and
    workers, with time passing in between, leaves a keyspace that holds a queue
    reached from the first by atomic queue steps, and the invariant holds. *)
Theorem store_refines_queue b ops s q :
  keys_ok (K_of b) -> 0 < window_ms b -> q_inv q -> represents (K_of b) (view s) q ->
  Forall (op_ok b) ops ->
  exists b' s' q' tr, run_ops ops (b, s) = (b', s') /\ K_of b' = K_of b /\
    represents (K_of b) (view s') q' /\ qsteps tr q q' /\ q_inv q'.
Proof.
  intros HK Hw Hinv Hs Hok.
  destruct (run_ops_ok ops b s q HK Hw Hinv Hs Hok) as (b' & s' & q' & E & Ek & Hs' & [tr Hr]).
  exists b', s', q', tr. split_and!; [done..|]. by eapply qsteps_inv.
Qed.

(** C3: no job gets stuck: after any sequence of operations, every entry of the
    stream is either ready for the next claims or pending with a known consumer
    (so that it can be recovered), never both nor neither. *)
Theorem never_stuck b ops s q :
  keys_ok (K_of b) -> 0 < window_ms b -> q_inv q -> represents (K_of b) (view s) q ->
  Forall (op_ok b) ops ->
  exists b' s' q', run_ops ops (b, s) = (b', s') /\ represents (K_of b) (view s') q' /\
    forall id fs, (id, fs) ∈ q_entries q' -> ready_or_pending q' id fs.
Proof.
  intros HK Hw Hinv Hs Hok.
  destruct (run_ops_ok ops b s q HK Hw Hinv Hs Hok) as (b' & s' & q' & E & _ & Hs' & Hr).
  exists b', s', q'. split_and!; [done..|]. intros id fs. apply wf_not_stuck.
  by destruct (reaches_inv _ _ Hr Hinv).
Qed.

(** C2: no job is lost: over any sequence of operations ([op_ok]: jobs enqueued
    with UTF-8 text, positive limits), an entry stays in the
    stream until a step settles it with the lease that owns its delivery at that
    moment, and a scheduled job keeps its data until a promotion puts its fields on
    the stream or a later step schedules the same job ID again (a retry of it, or a
    delayed enqueue under its ID), which replaces the data with its own. *)
Theorem no_job_lost b ops s q :
  keys_ok (K_of b) -> 0 < window_ms b -> q_inv q -> represents (K_of b) (view s) q ->
  Forall (op_ok b) ops ->
  exists b' s' q' tr, run_ops ops (b, s) = (b', s') /\ represents (K_of b) (view s') q' /\
    qsteps tr q q' /\
    (forall id fs, (id, fs) ∈ q_entries q -> (id, fs) ∈ q_entries q' \/
       exists o t f q1 q2, occurs tr q (LSettle id o t f) q1 q2 /\ q_owns q1 id o t = true) /\
    (forall jid json, q_data q !! jid = Some json ->
       q_data q' !! jid = Some json \/
       (exists ids q1 q2 id fs, occurs tr q (LPromote ids) q1 q2 /\ jid ∈ ids /\
         decodes json fs /\ (id, fs) ∈ q_entries q2) \/
       (exists a q1 q2 json', occurs tr q a q1 q2 /\ schedules jid a /\ q_data q1 !! jid = Some json /\
         q_data q2 !! jid = Some json')).
Proof.
  intros HK Hw Hinv Hs Hok.
  destruct (run_ops_ok ops b s q HK Hw Hinv Hs Hok) as (b' & s' & q' & E & _ & Hs' & [tr Hr]).
  exists b', s', q', tr. split_and!; [done..| |].
  - intros id fs Hin. by apply (entries_occurs tr q q' (id, fs)).
  - intros jid json Hj. by apply (data_until tr q q').
Qed.
End runs.

(** *** Witnesses *)

(** A producer enqueues, a second worker recovers [demo_job] after its lease
    expired, the first one tries to ack it. *)
Definition demo_script : list (store_op (R:=ref_redis)) :=
  [OpEnqueue [] demo_time demo_keyed; OpClaim "w2" 1 0 demo_time (fun s => s) false; OpTick 1000;
   OpRecoverExpired (30 * second) "w2" 4 demo_time demo_time; OpAck demo_job;
   OpRetry demo_job demo_time; OpAckBatch [demo_job]; OpDeregister "w1"].

Lemma demo_script_ok : Forall (op_ok (R:=ref_redis) default_store) demo_script.
Proof.
  repeat constructor; try discriminate.
  intros s q Hs. exists q. split; [exact Hs | reflexivity].
Qed.

Lemma store_refines_queue_witness :
  exists b' s' q' tr, run_ops (R:=ref_redis) demo_script (default_store, demo_db) = (b', s') /\
    K_of b' = K_of default_store /\ represents (K_of default_store) s' q' /\
    qsteps (R:=ref_redis) tr demo_q q' /\ q_inv (R:=ref_redis) q'.
Proof.
  apply (store_refines_queue (R:=ref_redis) default_store demo_script demo_db demo_q);
    [apply default_keys_ok | reflexivity | apply demo_inv | apply demo_represents | apply demo_script_ok].
Defined.

Lemma never_stuck_witness :
  exists b' s' q', run_ops (R:=ref_redis) demo_script (default_store, demo_db) = (b', s') /\
    represents (K_of default_store) s' q' /\
    forall id fs, (id, fs) ∈ q_entries q' -> ready_or_pending q' id fs.
Proof.
  apply (never_stuck (R:=ref_redis) default_store demo_script demo_db demo_q);
    [apply default_keys_ok | reflexivity | apply demo_inv | apply demo_represents | apply demo_script_ok].
Defined.

Lemma no_job_lost_witness :
  exists b' s' q' tr, run_ops (R:=ref_redis) demo_script (default_store, demo_db) = (b', s') /\
    represents (K_of default_store) s' q' /\ qsteps (R:=ref_redis) tr demo_q q' /\
    (forall id fs, (id, fs) ∈ q_entries demo_q -> (id, fs) ∈ q_entries q' \/
       exists o t f q1 q2, occurs (R:=ref_redis) tr demo_q (LSettle id o t f) q1 q2 /\ q_owns q1 id o t = true) /\
    (forall jid json, q_data demo_q !! jid = Some json ->
       q_data q' !! jid = Some json \/
       (exists ids q1 q2 id fs, occurs (R:=ref_redis) tr demo_q (LPromote ids) q1 q2 /\ jid ∈ ids /\
         decodes (R:=ref_redis) json fs /\ (id, fs) ∈ q_entries q2) \/
       (exists a q1 q2 json', occurs (R:=ref_redis) tr demo_q a q1 q2 /\ schedules jid a /\
         q_data q1 !! jid = Some json /\ q_data q2 !! jid = Some json')).
Proof.
  apply (no_job_lost (R:=ref_redis) default_store demo_script demo_db demo_q);
    [apply default_keys_ok | reflexivity | apply demo_inv | apply demo_represents | apply demo_script_ok].
Defined.
