(* ===== verification/Backend.v ===== *)
(** * The interfaces between the parts ([queue/backend.go], [queue/metrics.go])

    [Backend] is the Go interface of the same name, with the optional interfaces
    the program looks for ([batchEnqueuer], [batchAcker], [batchExtender],
    [deregisterer]) as optional fields. [W] is the state of everything outside
    the process. [BackendLimits] is what the worker's loop relies on; the store's
    theorems discharge it in [StoreBackend]. *)

From S2P Require Import Prelude GoNum GoTime Errors Job Store.
From stdpp Require Import strings.

Open Scope Z_scope.

Class Backend (W : Type) := {
  be_Enqueue : Job -> W -> W * (string * option error);
  be_Claim : string -> Z -> Z -> W -> W * (list Job * option error);
  be_RecoverExpired : Z -> string -> Z -> W -> W * (list Job * option error);
  be_Extend : Job -> W -> W * option error;
  be_Ack : Job -> W -> W * option error;
  be_Retry : Job -> Z -> W -> W * option error;
  be_DeadLetter : Job -> string -> W -> W * option error;
  be_Stats : W -> W * result error Stats;
  be_EnqueueBatch : option (list Job -> W -> W * (list string * option error));
  be_AckBatch : option (list Job -> W -> W * list (option error));
  be_ExtendBatch : option (list Job -> W -> W * list (option error));
  be_Deregister : option (string -> W -> W * option error);
}.

(** Claims and recoveries respect the limit they are given. *)
Class BackendLimits {W} (B : Backend W) (ok : W -> Prop) : Prop := {
  claim_limit who limit wait w :
    ok w -> 0 < limit ->
    ok (be_Claim who limit wait w).1 /\
    Z.of_nat (length (be_Claim who limit wait w).2.1) <= limit;
  recover_limit timeout who limit w :
    ok w -> 0 < limit ->
    ok (be_RecoverExpired timeout who limit w).1 /\
    Z.of_nat (length (be_RecoverExpired timeout who limit w).2.1) <= limit;
}.

(** The calls a component makes on [Metrics], and the outcomes it records on a
    trace span ([setOutcome]), in order. *)
Inductive event :=
  | JobEnqueued (job : Job)
  | JobStarted (job : Job)
  | JobCompleted (job : Job)
  | JobFailed (job : Job) (retryable : bool)
  | JobRetried (job : Job)
  | JobDeadLettered (job : Job)
  | JobLeaseLost (job : Job)
  | StatsObserved (st : Stats)
  | Outcome (name : string) (err : option error).

(** [NoopMetrics] ignores every call. *)
Definition NoopMetrics {S} (e : event) (s : S) : S := s.

(** ** The trace carrier ([queue/tracing.go]) *)

Definition traceparentKey : string := "traceparent".

Definition carrier_Get (job : Job) (key : string) : string :=
  if bool_decide (key = traceparentKey) then TraceParent job else "".

Definition carrier_Set (job : Job) (kv : string * string) : Job :=
  if bool_decide (kv.1 = traceparentKey) then set_TraceParent job kv.2 else job.

Definition carrier_Keys : list string := [traceparentKey].

(** The propagator (OpenTelemetry) makes some calls of [Set] on the carrier. *)
Definition startEnqueueSpan (sets : list (string * string)) (job : Job) : Job :=
  foldl carrier_Set job sets.

(** A propagator can change nothing of a job but its trace. *)
Lemma startEnqueueSpan_only_trace sets job :
  exists t, startEnqueueSpan sets job = set_TraceParent job t.
Proof.
  unfold startEnqueueSpan. revert job. induction sets as [|kv sets IH]; intros job; cbn [foldl].
  - exists (TraceParent job). by destruct job.
  - destruct (IH (carrier_Set job kv)) as [t ->]. unfold carrier_Set.
    case_bool_decide; exists t; by destruct job.
Qed.
