(* ===== verification/StoreBackend.v ===== *)
(** * The store as a backend

    [Store] behind the [Backend] interface. [Env] is what its operations read
    from the machine they run on: clocks, entropy, the caller's context, and
    what happens at the server while a read is blocked. *)

From S2P Require Import Prelude GoNum GoTime Errors Job GoJson Redis RefRedis Scripts QueueSpec.
From S2P Require Import QueueRep ScriptsOk QueueSteps Store JobCodec StoreOk EnqueueOk ClaimOk.
From S2P Require Import Demo Backend.
From Stdlib Require Import Ascii.
From stdpp Require Import strings.

Open Scope Z_scope.

Class Env (R : Redis) := {
  clock : rdb -> Z;                       (* time.Now() *)
  entropy : rdb -> nat -> list (list ascii);   (* 16 random bytes for each of n job IDs *)
  while_blocked : Z -> rdb -> rdb;        (* a read blocked for up to this long *)
  between_commands : rdb -> rdb;          (* other clients, between pipelined commands *)
  ctx_done : rdb -> bool;                 (* ctx.Err() != nil *)
}.

(** What other clients do are steps of the queue. *)
Class EnvLaws {R : Redis} {C : Client R} (E : Env R) (b : Store) : Prop := {
  blocked_law wait : env_ok b (while_blocked wait);
  between_law : env_ok b between_commands;
  entropy_law s n : length (entropy s n) = n;
}.

Definition of_unit {W} (w : W * result error unit) : W * option error :=
  (w.1, match w.2 with Ok _ => None | Err e => Some e end).

Section store_backend.
Context {R : Redis} {C : Client R} {E : Env R}.

Definition on_store {A} (b : Store) (x : rdb * A) : (Store * rdb) * A := ((b, x.1), x.2).

Definition jobs_err (r : result error (list Job)) : list Job * option error :=
  match r with Ok js => (js, None) | Err e => ([], Some e) end.

#[export] Instance store_backend : Backend (Store * rdb) := {|
  be_Enqueue job w :=
    let '(b, s) := w in
    let '(s', r) := Enqueue b (default [] (head (entropy s 1))) (clock s) job s in
    ((b, s'), match r with Ok id => (id, None) | Err e => ("", Some e) end);
  be_Claim who limit wait w :=
    let '(b, s) := w in
    let '(s', r) := Claim b who limit wait (clock s) (while_blocked wait) (ctx_done s) s in
    ((b, s'), jobs_err r);
  be_RecoverExpired timeout who limit w :=
    let '(b, s) := w in
    let '(s', (b', r)) := RecoverExpired b timeout who limit (clock s) (clock s) s in
    ((b', s'), jobs_err r);
  be_Extend job w := on_store w.1 (of_unit (Extend w.1 job w.2));
  be_Ack job w := on_store w.1 (of_unit (Ack w.1 job w.2));
  be_Retry job nextRunAt w := on_store w.1 (of_unit (Retry w.1 job nextRunAt w.2));
  be_DeadLetter job reason w := on_store w.1 (of_unit (DeadLetter w.1 job reason (clock w.2) w.2));
  be_Stats w := on_store w.1 (store_Stats w.1 between_commands w.2);
  be_EnqueueBatch := Some (fun jobs w =>
    let '(b, s) := w in
    let '(s', r) := EnqueueBatch b (entropy s (length jobs)) (clock s) jobs s in
    ((b, s'), match r with Ok ids => (ids, None) | Err e => ([], Some e) end));
  be_AckBatch := Some (fun jobs w => on_store w.1 (AckBatch w.1 jobs w.2));
  be_ExtendBatch := Some (fun jobs w => on_store w.1 (ExtendBatch w.1 jobs w.2));
  be_Deregister := Some (fun who w => on_store w.1 (of_unit (Deregister w.1 who w.2)));
|}.

(** The world holds a well-formed queue under the keys of [b0]. *)
Definition store_ok (b0 : Store) (w : Store * rdb) : Prop :=
  st_config w.1 = st_config b0 /\ st_retryData w.1 = st_retryData b0 /\
  exists q, represents (K_of b0) (view w.2) q /\ q_inv q.

Lemma K_of_same b b0 :
  st_config b = st_config b0 -> st_retryData b = st_retryData b0 -> K_of b = K_of b0.
Proof. intros H1 H2. unfold K_of. by rewrite H1, H2. Qed.

#[export] Instance store_backend_limits {L : RedisLaws R} {CL : ClientLaws C} b0 :
  keys_ok (K_of b0) -> EnvLaws E b0 -> BackendLimits store_backend (store_ok b0).
Proof.
  intros HK HE. split.
  - intros who limit wait [b s] (Hc & Hd & q & Hs & Hinv) Hlim. simpl in *.
    pose proof (K_of_same b b0 Hc Hd) as Ek.
    assert (env_ok b (while_blocked wait)) as Henv.
    { unfold env_ok. rewrite Ek. apply (blocked_law (E:=E) (b:=b0)). }
    assert (wpe b (Claim b who limit wait (clock s) (while_blocked wait) (ctx_done s)) q
      (fun r q' => reaches q q' /\ match r with Ok jobs => handed_out who limit q' jobs /\ new_jobs q jobs | Err _ => True end))
      as Hclaim by (apply Claim_ok; [by rewrite Ek | done..]).
    destruct (Hclaim s ltac:(by rewrite Ek)) as (s' & r & q' & Ec & Hs' & Hr & Hpost).
    rewrite Ec. simpl. rewrite Ek in Hs'. split.
    + split_and!; [done | done|]. exists q'. split; [done | by eapply reaches_inv].
    + destruct r as [jobs|e]; simpl; [apply Hpost | lia].
  - intros timeout who limit [b s] (Hc & Hd & q & Hs & Hinv) Hlim. simpl in *.
    pose proof (K_of_same b b0 Hc Hd) as Ek.
    destruct (RecoverExpired_ok b ltac:(by rewrite Ek) q s timeout who limit (clock s) (clock s) Hlim Hinv
      ltac:(by rewrite Ek)) as (s' & b' & r & q' & Er & Hs' & _ & Hr & Hc' & Hd' & Hpost).
    rewrite Er. simpl. rewrite Ek in Hs'. split.
    + split_and!; [by etrans | by etrans|]. exists q'. split; [done | by eapply reaches_inv].
    + destruct r as [jobs|e]; simpl; [apply Hpost | lia].
Qed.
End store_backend.

(** ** A reference environment *)

#[export] Instance ref_env : Env ref_redis := {|
  clock v := (rv_now v) * millisecond;
  entropy _ n := replicate n (replicate 16 "a"%char);
  while_blocked _ v := v;
  between_commands v := v;
  ctx_done _ := false;
|}.

#[export] Instance ref_env_laws b : EnvLaws ref_env b.
Proof.
  split.
  - intros wait s q Hs. exists q. split; [exact Hs | reflexivity].
  - intros s q Hs. exists q. split; [exact Hs | reflexivity].
  - intros s n. apply length_replicate.
Qed.
