(* ===== verification/Queue.v ===== *)
(** * The producer's side ([queue/queue.go])

    [newJob], [Queue.Enqueue] and [Queue.EnqueueBatch] over any backend. The
    clock ([q.now()]), the random job ID, the encoding of the payload and what
    the trace propagator writes are arguments. *)

From S2P Require Import Prelude GoNum GoTime Errors Job Store Backend.
From Stdlib Require Import Ascii.
From stdpp Require Import strings.

Open Scope Z_scope.

(** What one enqueue takes from its environment: [json.Marshal(payload)], the
    random bytes of the job ID, the time. *)
Record enq_env := EnqEnv {
  ee_payload : result error string;
  ee_rand : list ascii;
  ee_now : Z;
}.

Record EnqueueRequest := mkEnqueueRequest {
  er_Task : string;
  er_Env : enq_env;
  er_Options : EnqueueOptions;
}.

(** ** Options *)

Record QueueConf (Mt : Type) := mkQueueConf { qc_metrics : Mt; qc_now : Z -> Z }.
Arguments mkQueueConf {Mt} qc_metrics qc_now.
Arguments qc_metrics {Mt} q.
Arguments qc_now {Mt} q.

Inductive QueueOption (Mt : Type) :=
  | WithMetrics (m : option Mt)
  | WithClock (now : option (Z -> Z)).
Arguments WithMetrics {Mt} m.
Arguments WithClock {Mt} now.

(** An option given nil leaves the default. *)
Definition apply_option {Mt} (q : QueueConf Mt) (o : QueueOption Mt) : QueueConf Mt :=
  match o with
  | WithMetrics (Some m) => mkQueueConf m (qc_now q)
  | WithClock (Some now) => mkQueueConf (qc_metrics q) now
  | _ => q
  end.

Definition queue_New {Mt} (noop : Mt) (opts : list (QueueOption Mt)) : QueueConf Mt :=
  foldl apply_option (mkQueueConf noop (fun t => t)) opts.

(** ** Jobs *)

Definition newJob (task : string) (env : enq_env) (opts : EnqueueOptions) : result error Job :=
  match ee_payload env with
  | Err e => Err e
  | Ok raw =>
      let maxAttempts := if eo_MaxAttempts opts <=? 0 then 3 else eo_MaxAttempts opts in
      let job := mkJob (NewJobID (ee_rand env)) task raw 0 maxAttempts ""
                   (ee_now env) (ee_now env + eo_Delay opts) (eo_IdempotencyKey opts) zeroLease in
      match Validate job with Some e => Err e | None => Ok job end
  end.

Section queue.
Context {W : Type} {B : Backend W}.

Definition queue_Enqueue (task : string) (env : enq_env) (opts : EnqueueOptions)
    (sets : list (string * string)) (w : W) : W * (list event * result error string) :=
  match newJob task env opts with
  | Err e => (w, ([], Err e))
  | Ok job =>
      let job := startEnqueueSpan sets job in
      let '(w', (id, err)) := be_Enqueue job w in
      match err with
      | Some e => (w', ([Outcome "failed" (Some e)], Err e))
      | None =>
          if bool_decide (id = ID job)
          then (w', ([JobEnqueued job; Outcome "enqueued" None], Ok id))
          else (w', ([Outcome "duplicate" None], Ok id))
      end
  end.

(** The loop over requests stops at the first invalid one. *)
Fixpoint newJobs (reqs : list EnqueueRequest) : result error (list Job) :=
  match reqs with
  | [] => Ok []
  | r :: reqs' =>
      match newJob (er_Task r) (er_Env r) (er_Options r) with
      | Err e => Err e
      | Ok job => match newJobs reqs' with Ok jobs => Ok (job :: jobs) | Err e => Err e end
      end
  end.

(** The batch shares the span of its first job. *)
Definition share_trace (sets : list (string * string)) (jobs : list Job) : list Job :=
  match jobs with
  | [] => []
  | j :: js =>
      let j := startEnqueueSpan sets j in
      j :: ((fun k => set_TraceParent k (TraceParent j)) <$> js)
  end.

(** Without batching: one call per job, until one fails. The IDs of the jobs
    not reached are empty. *)
Fixpoint enqueue_each (jobs : list Job) (w : W) : W * (list string * option error) :=
  match jobs with
  | [] => (w, ([], None))
  | job :: jobs' =>
      let '(w1, (id, err)) := be_Enqueue job w in
      match err with
      | Some e => (w1, (id :: ((fun _ => "") <$> jobs'), Some e))
      | None => let '(w2, (ids, err')) := enqueue_each jobs' w1 in (w2, (id :: ids, err'))
      end
  end.

(** Go's [copy(ids, got)] into a slice of [n] empty IDs. *)
Definition copy_ids (n : nat) (got : list string) : list string :=
  take n got ++ replicate (n - length got) "".

Definition queue_EnqueueBatch (reqs : list EnqueueRequest) (sets : list (string * string)) (w : W) :
    W * (list event * (list string * option error)) :=
  match newJobs reqs with
  | Err e => (w, ([], ([], Some e)))
  | Ok [] => (w, ([], ([], None)))
  | Ok jobs =>
      let jobs := share_trace sets jobs in
      let '(w', (ids, err)) :=
        match be_EnqueueBatch with
        | Some batch =>
            let '(w', (got, err)) := batch jobs w in (w', (copy_ids (length jobs) got, err))
        | None => enqueue_each jobs w
        end in
      let enq := (fun ij => JobEnqueued ij.2) <$>
                 filter (fun ij => ij.1 = ID ij.2) (zip ids jobs) in
      match err with
      | Some e => (w', (enq ++ [Outcome "failed" (Some e)], (ids, Some e)))
      | None => (w', (enq ++ [Outcome "enqueued" None], (ids, None)))
      end
  end.
End queue.

(** ** Properties *)

(** [newJob] succeeds exactly when the payload could be encoded to
    non-empty text and the task has a name; the job then is valid, at its first
    attempt, available after the delay, with at least one attempt (three by
    default) and a fresh ID. *)
Theorem newJob_spec task env opts :
  (exists job, newJob task env opts = Ok job) <->
  (task <> "" /\ exists raw, ee_payload env = Ok raw /\ raw <> "").
Proof.
  unfold newJob. destruct (ee_payload env) as [raw|e]; [|naive_solver].
  set (job := mkJob _ _ _ _ _ _ _ _ _ _).
  assert (Validate job = None <-> task <> "" /\ raw <> "") as Hv.
  { rewrite Validate_ok. subst job. simpl. destruct (Z.leb_spec (eo_MaxAttempts opts) 0); naive_solver lia. }
  destruct (Validate job); naive_solver.
Qed.

Lemma newJob_fields task env opts job :
  newJob task env opts = Ok job ->
  Validate job = None /\ Attempt job = 0 /\ ID job = NewJobID (ee_rand env) /\ Task job = task /\
  AvailableAt job = CreatedAt job + eo_Delay opts /\ IdempotencyKey job = eo_IdempotencyKey opts.
Proof.
  unfold newJob. destruct (ee_payload env) as [raw|e]; [|done]. set (j := mkJob _ _ _ _ _ _ _ _ _ _).
  destruct (Validate j) eqn:E; [done|]. intros [= <-]. done.
Qed.
