(* ===== verification/Worker.v ===== *)
(** * The worker ([queue/worker.go])

    [fetch], [handleOne], [process], the group commit of acks, the heartbeat and
    the loop of [Run], over any [Backend]. [W] is everything outside the worker;
    handlers are functions on it. [WorkerEnv] is what the code reads while it
    runs: the clock, random numbers, the cancellation of a job's context, and
    which other acks share a batch. Log lines are not modelled. *)

From S2P Require Import Prelude GoNum GoTime Errors Job Retry Store Backend.
From Stdlib Require Import QArith.
From stdpp Require Import strings.

Open Scope Z_scope.

(** ** Configuration *)

Record WorkerConfig := mkWorkerConfig {
  wc_ID : string;
  wc_Concurrency : Z;
  wc_PollInterval : Z;
  wc_PollOnly : bool;
  wc_VisibilityTimeout : Z;
  wc_HeartbeatInterval : Z;
  wc_ShutdownTimeout : Z;
  wc_MaxDeliveries : Z;
  wc_StatsInterval : Z;
  wc_RetryPolicy : RetryPolicy;
}.

Definition pos_or (x d : Z) : Z := if x <=? 0 then d else x.

(** The configuration [NewWorker] keeps. *)
Definition NewWorker (c : WorkerConfig) : WorkerConfig :=
  let visibility := pos_or (wc_VisibilityTimeout c) (30 * second) in
  mkWorkerConfig (wc_ID c)
    (pos_or (wc_Concurrency c) 1)
    (pos_or (wc_PollInterval c) (250 * millisecond))
    (wc_PollOnly c)
    visibility
    (pos_or (wc_HeartbeatInterval c) (Z.quot visibility 3))
    (pos_or (wc_ShutdownTimeout c) visibility)
    (pos_or (wc_MaxDeliveries c) 5)
    (pos_or (wc_StatsInterval c) (5 * second))
    (if BaseDelay (wc_RetryPolicy c) <=? 0 then DefaultRetryPolicy else wc_RetryPolicy c).

Definition HandlerFunc (W : Type) : Type := Job -> W -> W * JobResult.

Class WorkerEnv (W : Type) := {
  now : W -> Z;                           (* time.Now() *)
  rand_Float64 : W -> Q;
  job_cause : Job -> W -> option error;   (* context.Cause, once the job's context is done *)
  cancel_jobs : list Job -> error -> W -> W;   (* cancels the contexts of these jobs *)
  ack_mates : Job -> W -> list Job * list Job;  (* acks sent before and after in the same batch *)
  fmt_q : string -> string;               (* the %q verb *)
}.

Definition Register {W} (task : string) (handler : option (HandlerFunc W))
    (handlers : gmap string (HandlerFunc W)) : gmap string (HandlerFunc W) * option error :=
  match handler with
  | Some h => if bool_decide (task = "") then (handlers, Some ErrInvalidJob)
              else (<[task := h]> handlers, None)
  | None => (handlers, Some ErrInvalidJob)
  end.

Definition maxBatch : nat := 256.

Section worker.
Context {W : Type} {B : Backend W} {E : WorkerEnv W}.
Context (cfg : WorkerConfig) (handlers : gmap string (HandlerFunc W)).

(** ** Fetching *)

Definition fetch (limit lastRecover : Z) (w : W) : W * (Z * (list Job * option error)) :=
  let wait := if wc_PollOnly cfg then 0 else wc_PollInterval cfg in
  let claim (lastRecover : Z) (jobs : list Job) (w : W) :=
    if Z.of_nat (length jobs) <? limit then
      let wait := if (0 <? length jobs)%nat then 0 else wait in
      let '(w', (claimed, err)) := be_Claim (wc_ID cfg) (limit - Z.of_nat (length jobs)) wait w in
      (w', (lastRecover, (jobs ++ claimed,
         match err with Some e => Some (ErrWrap "claim: " e "") | None => None end)))
    else (w, (lastRecover, (jobs, None))) in
  if wc_PollInterval cfg <=? time_Sub (now w) lastRecover then
    let '(w', (recovered, err)) :=
      be_RecoverExpired (wc_VisibilityTimeout cfg) (wc_ID cfg) limit w in
    match err with
    | Some e => (w', (lastRecover, (recovered, Some (ErrWrap "recover expired: " e ""))))
    | None =>
        let lastRecover := if Z.of_nat (length recovered) <? limit then now w' else lastRecover in
        claim lastRecover recovered w'
    end
  else claim lastRecover [] w.

(** ** Acks *)

(** The requests of one batch get the results of one [AckBatch], by position. *)
Definition ack_batch (batch : list Job -> W -> W * list (option error)) (jobs : list Job) (w : W) :
    W * list (Job * option error) :=
  let '(w', errs) := batch jobs w in (w', zip jobs errs).

(** [ackLoop]: each round takes the request it waited for and those already in
    the channel, at most [maxBatch]; [avail k] is how many it finds in round
    [k]. Rounds go on until the requests [reqs] are answered. *)
Fixpoint ackLoop (batch : list Job -> W -> W * list (option error)) (avail : nat -> nat)
    (fuel k : nat) (reqs : list Job) (w : W) : W * list (Job * option error) :=
  match fuel, reqs with
  | S fuel', _ :: _ =>
      let n := Nat.min maxBatch (Nat.max 1 (avail k)) in
      let '(w1, out) := ack_batch batch (take n reqs) w in
      let '(w2, outs) := ackLoop batch avail fuel' (S k) (drop n reqs) w1 in
      (w2, out ++ outs)
  | _, _ => (w, [])
  end.

(** [ack]: directly, or as one request of a batch of [ackLoop]. *)
Definition ack (job : Job) (w : W) : W * option error :=
  match be_AckBatch with
  | None => be_Ack job w
  | Some batch =>
      let '(before, after) := ack_mates job w in
      let '(w', errs) := batch (before ++ job :: after) w in
      (w', default None (errs !! length before))
  end.

(** ** Running one job *)

Definition deadLetter (job : Job) (reason : string) (w : W) : W * (list event * option error) :=
  let '(w', err) := be_DeadLetter job reason w in
  match err with
  | Some e => (w', ([Outcome "settle_failed" (Some e)], Some e))
  | None => (w', ([JobDeadLettered job; Outcome "dead_lettered" (Some (ErrMsg reason))], None))
  end.

Definition handleOne (job : Job) (w : W) : W * (list event * option error) :=
  let token := Token (JLease job) in
  if wc_MaxDeliveries cfg <? token then
    deadLetter job ("delivered " +:+ Itoa token +:+ " times without being settled") w
  else
  match (handlers !! Task job : option (HandlerFunc W)) with
  | None =>
      if wc_MaxDeliveries cfg <=? token then
        deadLetter job (error_string ErrUnknownTask +:+ " " +:+ fmt_q (Task job) +:+
                        " after " +:+ Itoa token +:+ " deliveries") w
      else
        let err := ErrWrap "" ErrUnknownTask (" " +:+ fmt_q (Task job)) in
        (w, ([Outcome "skipped" (Some err)], Some err))
  | Some handl =>
      let '(w1, res) := handl job w in
      match job_cause job w1 with
      | Some cause => (w1, ([JobStarted job; Outcome "abandoned" (Some cause)], Some cause))
      | None =>
          match ResErr res with
          | None =>
              let '(w2, err) := ack job w1 in
              match err with
              | Some e => (w2, ([JobStarted job; Outcome "settle_failed" (Some e)], Some e))
              | None => (w2, ([JobStarted job; JobCompleted job; Outcome "completed" None], None))
              end
          | Some failure =>
              let evs := [JobStarted job; JobFailed job (Retryable res)] in
              if negb (Retryable res) || ShouldDeadLetter job then
                let '(w2, (evs2, err)) := deadLetter job (error_string failure) w1 in
                (w2, (evs ++ evs2, err))
              else
                let nextRunAt := now w1 +
                  NextDelay (wc_RetryPolicy cfg) (wrap64 (Attempt job + 1)) (rand_Float64 w1) in
                let '(w2, err) := be_Retry job nextRunAt w1 in
                match err with
                | Some e => (w2, (evs ++ [Outcome "settle_failed" (Some e)], Some e))
                | None => (w2, (evs ++ [JobRetried job; Outcome "retried" (Some failure)], None))
                end
          end
      end
  end.

(** [process] reports a lost lease; other errors are only logged. *)
Definition process (job : Job) (w : W) : W * list event :=
  let '(w', (evs, err)) := handleOne job w in
  match err with
  | Some e => (w', if errors_Is e ErrLeaseLost then evs ++ [JobLeaseLost job] else evs)
  | None => (w', evs)
  end.

(** ** Heartbeat *)

Fixpoint extend_each (jobs : list Job) (w : W) : W * list (option error) :=
  match jobs with
  | [] => (w, [])
  | job :: jobs' =>
      let '(w1, err) := be_Extend job w in
      let '(w2, errs) := extend_each jobs' w1 in
      (w2, err :: errs)
  end.

Definition extend (jobs : list Job) (w : W) : W * list (option error) :=
  match be_ExtendBatch with
  | Some batch => batch jobs w
  | None => extend_each jobs w
  end.

(** [slices.Chunk]. *)
Fixpoint chunks {A} (fuel n : nat) (l : list A) : list (list A) :=
  match fuel, l with
  | S fuel', _ :: _ => take n l :: chunks fuel' n (drop n l)
  | _, _ => []
  end.

(** The jobs of a chunk whose context is cancelled with [ErrLeaseLost]. *)
Definition is_lost (e : option error) : bool :=
  match e with Some e => errors_Is e ErrLeaseLost | None => false end.

Definition lost_jobs (jobs : list Job) (errs : list (option error)) : list Job :=
  fst <$> filter (fun je => is_lost je.2 = true) (zip jobs errs).

Fixpoint beat (batches : list (list Job)) (w : W) : W * list Job :=
  match batches with
  | [] => (w, [])
  | batch :: batches' =>
      let '(w1, errs) := extend batch w in
      let '(w2, lost) := beat batches' w1 in
      (w2, lost_jobs batch errs ++ lost)
  end.

(** One tick of [heartbeat] over the running jobs: the jobs cancelled. *)
Definition heartbeat_tick (held : list Job) (w : W) : W * list Job :=
  beat (chunks (length held) maxBatch held) w.

Definition report_stats (w : W) : W * list event :=
  let '(w', r) := be_Stats w in
  (w', match r with Ok st => [StatsObserved st] | Err _ => [] end).

(** ** The loop of [Run] *)

Definition next_backoff (backoff : Z) : Z :=
  Z.min (Z.max (wrap64 (2 * backoff)) (wc_PollInterval cfg)) (10 * second).

Inductive phase :=
  | Deciding                    (* at the top of the loop *)
  | Fetching (free : Z)         (* in fetch, with the free slots read before *)
  | Sleeping (d : Z)            (* backing off after an error *)
  | Waiting                     (* in the select *)
  | Draining                    (* the context is done *)
  | Stopped.

Record rstate := RState {
  r_phase : phase;
  r_running : list Job;         (* in-flight jobs *)
  r_backoff : Z;
  r_lastRecover : Z;
  r_world : W;
}.

(** Where the loop goes after a fetch that claimed [n] of [free] jobs. *)
Definition after_fetch (free backoff : Z) (n : nat) (err done : bool) : phase * Z :=
  if err then
    if done then (Draining, backoff) else (Sleeping (next_backoff backoff), next_backoff backoff)
  else
    if (Z.of_nat n =? free) || negb (wc_PollOnly cfg) then (Deciding, 0) else (Waiting, 0).

(** After the drain, [Run] deregisters the worker and returns. *)
Definition deregister (w : W) : W :=
  match be_Deregister with
  | Some dereg => (dereg (wc_ID cfg) w).1
  | None => w
  end.

(** The steps of a running worker: the loop's own, a job finishing, a tick of the
    heartbeat, a stats report, the shutdown timeout, and whatever other processes
    do ([outside]). *)
Context (outside : W -> W -> Prop).

Inductive rstep : rstate -> rstate -> Prop :=
  | rs_done ph run bo lr w :
      ph = Deciding \/ ph = Waiting \/ (exists d, ph = Sleeping d) ->
      rstep (RState ph run bo lr w) (RState Draining run bo lr w)
  | rs_decide run bo lr w :
      let free := wc_Concurrency cfg - Z.of_nat (length run) in
      rstep (RState Deciding run bo lr w)
            (RState (if 0 <? free then Fetching free else Waiting) run bo lr w)
  | rs_fetch free run bo lr w lr' w' claimed err done ph bo' :
      fetch free lr w = (w', (lr', (claimed, err))) ->
      after_fetch free bo (length claimed)
        (match err with Some _ => true | None => false end) done = (ph, bo') ->
      rstep (RState (Fetching free) run bo lr w) (RState ph (run ++ claimed) bo' lr' w')
  | rs_wake d run bo lr w : rstep (RState (Sleeping d) run bo lr w) (RState Deciding run bo lr w)
  | rs_wait run bo lr w : rstep (RState Waiting run bo lr w) (RState Deciding run bo lr w)
  | rs_finish ph run1 job run2 bo lr w w' evs :
      process job w = (w', evs) ->
      rstep (RState ph (run1 ++ job :: run2) bo lr w) (RState ph (run1 ++ run2) bo lr w')
  | rs_beat ph run bo lr w w' lost :
      ph <> Stopped -> heartbeat_tick run w = (w', lost) ->
      rstep (RState ph run bo lr w) (RState ph run bo lr (cancel_jobs lost ErrLeaseLost w'))
  | rs_stats ph run bo lr w w' evs :
      ph <> Stopped -> report_stats w = (w', evs) ->
      rstep (RState ph run bo lr w) (RState ph run bo lr w')
  | rs_timeout run bo lr w :
      rstep (RState Draining run bo lr w) (RState Draining run bo lr (cancel_jobs run ErrShutdown w))
  | rs_outside ph run bo lr w w' :
      outside w w' -> rstep (RState ph run bo lr w) (RState ph run bo lr w')
  | rs_drained bo lr w : rstep (RState Draining [] bo lr w) (RState Stopped [] bo lr (deregister w)).

Inductive rsteps : rstate -> rstate -> Prop :=
  | rsteps_refl r : rsteps r r
  | rsteps_step r1 r2 r3 : rstep r1 r2 -> rsteps r2 r3 -> rsteps r1 r3.

(** [Run] refuses a worker without an ID, and else starts its loop. *)
Definition r_start (w : W) : result error rstate :=
  if bool_decide (wc_ID cfg = "") then Err (ErrMsg "worker id is required")
  else Ok (RState Deciding [] 0 zero_time w).
End worker.
