(* ===== verification/LeaseLaws.v ===== *)
(** * What a worker relies on about leases

    The promise a backend makes about the leases it hands out: every lease is new,
    a lease that is over stays over, an operation that succeeds in ending a delivery
    or answers that the lease is lost does so only when it is over, and batches
    answer every job. Stated over an order on the backend's states, so that it
    holds whatever else happens in between. *)

From S2P Require Import Prelude Errors Job Store Backend Worker.
From stdpp Require Import strings.

Open Scope Z_scope.

Class Leases (W : Type) := {
  lb_ok : W -> Prop;                 (* the backend's own invariant *)
  later : W -> W -> Prop;            (* what any client may do *)
  issued : W -> Lease -> Prop;       (* never to be handed out again *)
  over : W -> Lease -> Prop;         (* never to be honoured again *)
}.

(** The answers that say a lease is over: to an attempt to end the delivery, and to
    an attempt to renew the lease. *)
Definition ends (err : option error) : Prop := err = None \/ is_lost err = true.
Definition loses (err : option error) : Prop := is_lost err = true.

Section laws.
Context {W : Type} (B : Backend W) (V : Leases W).

Definition new_leases (w w' : W) (limit : Z) (jobs : list Job) : Prop :=
  Z.of_nat (length jobs) <= limit /\ NoDup (JLease <$> jobs) /\
  Forall (fun j => ~ issued w (JLease j) /\ issued w' (JLease j)) jobs.

(** A call on one job, or on several at once. *)
Definition fences (says : option error -> Prop) (w w' : W) (job : Job) (err : option error) : Prop :=
  issued w (JLease job) -> says err -> over w' (JLease job).

Definition law_one (says : option error -> Prop) (op : W -> W * option error) (job : Job) : Prop :=
  forall w, lb_ok w -> later w (op w).1 /\ fences says w (op w).1 job (op w).2.

Definition law_batch (says : option error -> Prop) (op : list Job -> W -> W * list (option error)) : Prop :=
  forall jobs w, lb_ok w -> later w (op jobs w).1 /\ Forall2 (fences says w (op jobs w).1) jobs (op jobs w).2.

Class LeaseLaws : Prop := {
  later_preorder :: PreOrder later;
  later_ok w w' : later w w' -> lb_ok w -> lb_ok w';
  later_issued w w' l : later w w' -> lb_ok w -> issued w l -> issued w' l;
  later_over w w' l : later w w' -> lb_ok w -> over w l -> over w' l;
  law_Claim who limit wait w : lb_ok w -> 0 < limit ->
    later w (be_Claim who limit wait w).1 /\
    new_leases w (be_Claim who limit wait w).1 limit (be_Claim who limit wait w).2.1;
  law_RecoverExpired timeout who limit w : lb_ok w -> 0 < limit ->
    later w (be_RecoverExpired timeout who limit w).1 /\
    new_leases w (be_RecoverExpired timeout who limit w).1 limit (be_RecoverExpired timeout who limit w).2.1;
  law_Ack job : law_one ends (be_Ack job) job;
  law_Retry job at_ : law_one ends (be_Retry job at_) job;
  law_DeadLetter job reason : law_one ends (be_DeadLetter job reason) job;
  law_Extend job : law_one loses (be_Extend job) job;
  law_AckBatch f : be_AckBatch = Some f -> law_batch ends f;
  law_ExtendBatch f : be_ExtendBatch = Some f -> law_batch loses f;
  law_Stats w : lb_ok w -> later w (be_Stats w).1;
  law_Deregister f who w : be_Deregister = Some f -> lb_ok w -> later w (f who w).1;
}.
End laws.
