(* ===== verification/WorkerRun.v ===== *)
(** * The goroutines of a worker ([queue/worker.go], [Run])

    [Worker] has the operations of a worker as functions and its loop with a job's
    run, a heartbeat and a batch of acks as single steps. Here every goroutine has
    its own steps: the loop, one goroutine per job, [heartbeat], [ackLoop] and
    [reportStats]. They share the map of running jobs, the counter of jobs in
    flight, the channels and the jobs' contexts. A step is one call of the backend,
    one operation on a shared variable or channel, or local computation. *)

From S2P Require Import Prelude GoNum GoTime Errors Job Retry Store Backend Worker.
From Stdlib Require Import QArith.
From stdpp Require Import strings gmap relations.

Open Scope Z_scope.

#[export] Instance Lease_countable : Countable Lease.
Proof.
  apply (inj_countable' (fun l => (MessageID l, Owner l, Token l, Partition l))
    (fun t => mkLease t.1.1.1 t.1.1.2 t.1.2 t.2)). by intros [].
Defined.

(** ** State *)

(** A job's goroutine, by what it does next. *)
Inductive jpc :=
  | JStart
  | JRunning                        (* in the handler *)
  | JRan (res : JobResult)
  | JAck
  | JAckWait                        (* waits on its request's [done] channel *)
  | JRetry (failure : error)
  | JDead (reason : string)
  | JRet (err : option error)       (* [handleOne] returned *)
  | JReleased                       (* off the map of running jobs *)
  | JFreed                          (* no longer counted as in flight *)
  | JGone.

(** [g_cause] is the cause its context was cancelled with, [g_done] what its ack
    request's channel holds. *)
Record jobg := JobG {
  g_job : Job;
  g_pc : jpc;
  g_cause : option error;
  g_done : option (option error);
}.

(** The goroutine of [Run] itself. *)
Inductive mainpc :=
  | MLoop
  | MRecover (free : Z)
  | MClaim (free : Z) (jobs : list Job)
  | MSpawn (free : Z) (n : nat) (err : bool) (todo : list Job)
  | MSleep (d : Z)
  | MSelect
  | MDrain
  | MForced                         (* the shutdown timeout has expired *)
  | MJoining                           (* waits for the background goroutines *)
  | MDereg
  | MReturned.

(** [heartbeat]; jobs are given by the index of their goroutine. *)
Inductive hbpc :=
  | HIdle
  | HRange (todo seen : list nat)
  | HBatch (held : list nat)
  | HEach (batch left : list nat) (errs : list (option error)) (rest : list nat)
  | HCancel (answers : list (nat * option error)) (rest : list nat)
  | HStopped.

(** [ackLoop], if the backend can batch acks. *)
Inductive ackpc :=
  | AOff
  | AIdle
  | ACollect (batch : list nat)
  | ADeliver (answers : list (nat * option error))
  | AStopped.

#[export] Instance ackpc_eq_dec : EqDecision ackpc.
Proof. solve_decision. Defined.

Inductive statpc := SReport | SWait | SStopped.

Record run (W : Type) := Run_ {
  u_main : mainpc;
  u_jobs : list jobg;
  u_hb : hbpc;
  u_ackl : ackpc;
  u_stats : statpc;
  u_ctx : bool;                     (* ctx is done *)
  u_stop : bool;                    (* stopHeartbeat is closed *)
  u_running : gmap Lease nat;
  u_inFlight : Z;
  u_freed : bool;                   (* the channel holds a token *)
  u_acks : list nat;
  u_events : list event;
  u_backoff : Z;
  u_lastRecover : Z;
  u_world : W;
}.
Arguments Run_ {W}.
Arguments u_main {W}. Arguments u_jobs {W}. Arguments u_hb {W}. Arguments u_ackl {W}. Arguments u_stats {W}.
Arguments u_ctx {W}. Arguments u_stop {W}. Arguments u_running {W}. Arguments u_inFlight {W}.
Arguments u_freed {W}. Arguments u_acks {W}. Arguments u_events {W}. Arguments u_backoff {W}.
Arguments u_lastRecover {W}. Arguments u_world {W}.

Section setters.
Context {W : Type}.
Implicit Types u : run W.

Definition set_main m u := Run_ m (u_jobs u) (u_hb u) (u_ackl u) (u_stats u) (u_ctx u) (u_stop u) (u_running u)
  (u_inFlight u) (u_freed u) (u_acks u) (u_events u) (u_backoff u) (u_lastRecover u) (u_world u).
Definition set_jobs js u := Run_ (u_main u) js (u_hb u) (u_ackl u) (u_stats u) (u_ctx u) (u_stop u) (u_running u)
  (u_inFlight u) (u_freed u) (u_acks u) (u_events u) (u_backoff u) (u_lastRecover u) (u_world u).
Definition set_hb h u := Run_ (u_main u) (u_jobs u) h (u_ackl u) (u_stats u) (u_ctx u) (u_stop u) (u_running u)
  (u_inFlight u) (u_freed u) (u_acks u) (u_events u) (u_backoff u) (u_lastRecover u) (u_world u).
Definition set_ackl a u := Run_ (u_main u) (u_jobs u) (u_hb u) a (u_stats u) (u_ctx u) (u_stop u) (u_running u)
  (u_inFlight u) (u_freed u) (u_acks u) (u_events u) (u_backoff u) (u_lastRecover u) (u_world u).
Definition set_stats s u := Run_ (u_main u) (u_jobs u) (u_hb u) (u_ackl u) s (u_ctx u) (u_stop u) (u_running u)
  (u_inFlight u) (u_freed u) (u_acks u) (u_events u) (u_backoff u) (u_lastRecover u) (u_world u).
Definition set_ctx b u := Run_ (u_main u) (u_jobs u) (u_hb u) (u_ackl u) (u_stats u) b (u_stop u) (u_running u)
  (u_inFlight u) (u_freed u) (u_acks u) (u_events u) (u_backoff u) (u_lastRecover u) (u_world u).
Definition set_stop b u := Run_ (u_main u) (u_jobs u) (u_hb u) (u_ackl u) (u_stats u) (u_ctx u) b (u_running u)
  (u_inFlight u) (u_freed u) (u_acks u) (u_events u) (u_backoff u) (u_lastRecover u) (u_world u).
Definition set_running r u := Run_ (u_main u) (u_jobs u) (u_hb u) (u_ackl u) (u_stats u) (u_ctx u) (u_stop u) r
  (u_inFlight u) (u_freed u) (u_acks u) (u_events u) (u_backoff u) (u_lastRecover u) (u_world u).
Definition set_inFlight n u := Run_ (u_main u) (u_jobs u) (u_hb u) (u_ackl u) (u_stats u) (u_ctx u) (u_stop u)
  (u_running u) n (u_freed u) (u_acks u) (u_events u) (u_backoff u) (u_lastRecover u) (u_world u).
Definition set_freed b u := Run_ (u_main u) (u_jobs u) (u_hb u) (u_ackl u) (u_stats u) (u_ctx u) (u_stop u)
  (u_running u) (u_inFlight u) b (u_acks u) (u_events u) (u_backoff u) (u_lastRecover u) (u_world u).
Definition set_acks l u := Run_ (u_main u) (u_jobs u) (u_hb u) (u_ackl u) (u_stats u) (u_ctx u) (u_stop u)
  (u_running u) (u_inFlight u) (u_freed u) l (u_events u) (u_backoff u) (u_lastRecover u) (u_world u).
Definition add_events e u := Run_ (u_main u) (u_jobs u) (u_hb u) (u_ackl u) (u_stats u) (u_ctx u) (u_stop u)
  (u_running u) (u_inFlight u) (u_freed u) (u_acks u) (u_events u ++ e) (u_backoff u) (u_lastRecover u) (u_world u).
Definition set_backoff d u := Run_ (u_main u) (u_jobs u) (u_hb u) (u_ackl u) (u_stats u) (u_ctx u) (u_stop u)
  (u_running u) (u_inFlight u) (u_freed u) (u_acks u) (u_events u) d (u_lastRecover u) (u_world u).
Definition set_lastRecover t u := Run_ (u_main u) (u_jobs u) (u_hb u) (u_ackl u) (u_stats u) (u_ctx u) (u_stop u)
  (u_running u) (u_inFlight u) (u_freed u) (u_acks u) (u_events u) (u_backoff u) t (u_world u).
Definition set_world (w : W) u := Run_ (u_main u) (u_jobs u) (u_hb u) (u_ackl u) (u_stats u) (u_ctx u) (u_stop u)
  (u_running u) (u_inFlight u) (u_freed u) (u_acks u) (u_events u) (u_backoff u) (u_lastRecover u) w.
End setters.

Definition set_pc (p : jpc) (g : jobg) : jobg := JobG (g_job g) p (g_cause g) (g_done g).
Definition answer (e : option error) (g : jobg) : jobg := JobG (g_job g) (g_pc g) (g_cause g) (Some e).

(** [cancel(cause)] of a job's context: the first cause stays. *)
Definition cancel_ctx (e : error) (g : jobg) : jobg :=
  JobG (g_job g) (g_pc g) (match g_cause g with Some c => Some c | None => Some e end) (g_done g).

Definition on_job {W} (i : nat) (f : jobg -> jobg) (u : run W) : run W := set_jobs (alter f i (u_jobs u)) u.

(** Jobs of goroutines. *)
Definition jobs_of (js : list jobg) (l : list nat) : list Job := omap (fun i => g_job <$> js !! i) l.

Section run.
Context {W : Type} {B : Backend W} {E : WorkerEnv W}.
Context (cfg : WorkerConfig) (handlers : gmap string (HandlerFunc W)).

(** ** A job's goroutine *)

(** What [handleOne] does after an ack was answered. *)
Definition acked_with (job : Job) (err : option error) : list event * jpc :=
  match err with
  | Some e => ([Outcome "settle_failed" (Some e)], JRet (Some e))
  | None => ([JobCompleted job; Outcome "completed" None], JRet None)
  end.

(** The checks before the handler. *)
Definition job_start (job : Job) : list event * jpc :=
  let token := Token (JLease job) in
  if wc_MaxDeliveries cfg <? token then
    ([], JDead ("delivered " +:+ Itoa token +:+ " times without being settled"))
  else
  match (handlers !! Task job : option (HandlerFunc W)) with
  | None =>
      if wc_MaxDeliveries cfg <=? token then
        ([], JDead (error_string ErrUnknownTask +:+ " " +:+ fmt_q (Task job) +:+ " after " +:+ Itoa token +:+ " deliveries"))
      else
        let err := ErrWrap "" ErrUnknownTask (" " +:+ fmt_q (Task job)) in
        ([Outcome "skipped" (Some err)], JRet (Some err))
  | Some _ => ([JobStarted job], JRunning)
  end.

(** After the handler: [cause] is that of the job's context, if it is done. *)
Definition job_ran (job : Job) (cause : option error) (res : JobResult) : list event * jpc :=
  match cause with
  | Some c => ([Outcome "abandoned" (Some c)], JRet (Some c))
  | None =>
      match ResErr res with
      | None => ([], JAck)
      | Some failure =>
          ([JobFailed job (Retryable res)],
           if negb (Retryable res) || ShouldDeadLetter job then JDead (error_string failure) else JRetry failure)
      end
  end.

Definition job_retry (job : Job) (failure : error) (w : W) : W * (list event * jpc) :=
  let nextRunAt := now w + NextDelay (wc_RetryPolicy cfg) (wrap64 (Attempt job + 1)) (rand_Float64 w) in
  let '(w', err) := be_Retry job nextRunAt w in
  (w', match err with
       | Some e => ([Outcome "settle_failed" (Some e)], JRet (Some e))
       | None => ([JobRetried job; Outcome "retried" (Some failure)], JRet None)
       end).

Definition job_dead (job : Job) (reason : string) (w : W) : W * (list event * jpc) :=
  let '(w', (evs, err)) := deadLetter job reason w in (w', (evs, JRet err)).

(** [process]: a lost lease is reported. *)
Definition job_returned (job : Job) (err : option error) : list event :=
  match err with Some e => if errors_Is e ErrLeaseLost then [JobLeaseLost job] else [] | None => [] end.

(** The goroutine's steps but for sending an ack request; [None] where it waits. *)
Definition job_step (g : jobg) (w : W) : option (W * (list event * jpc)) :=
  match g_pc g with
  | JStart => Some (w, job_start (g_job g))
  | JRunning =>
      match (handlers !! Task (g_job g) : option (HandlerFunc W)) with
      | Some h => let '(w', res) := h (g_job g) w in Some (w', ([], JRan res))
      | None => None
      end
  | JRan res => Some (w, job_ran (g_job g) (g_cause g) res)
  | JAck =>
      match be_AckBatch with
      | None => let '(w', err) := be_Ack (g_job g) w in Some (w', acked_with (g_job g) err)
      | Some _ => None
      end
  | JAckWait => match g_done g with Some err => Some (w, acked_with (g_job g) err) | None => None end
  | JRetry failure => Some (job_retry (g_job g) failure w)
  | JDead reason => Some (job_dead (g_job g) reason w)
  | _ => None
  end.

(** ** The loop *)

(** The first half of [fetch]: recovery, if it is due. *)
Definition recover_half (free lastRecover : Z) (w : W) : W * (Z * (list Job * option error)) :=
  if wc_PollInterval cfg <=? time_Sub (now w) lastRecover then
    let '(w', (recovered, err)) := be_RecoverExpired (wc_VisibilityTimeout cfg) (wc_ID cfg) free w in
    (w', match err with
         | Some e => (lastRecover, (recovered, Some (ErrWrap "recover expired: " e "")))
         | None => (if Z.of_nat (length recovered) <? free then now w' else lastRecover, (recovered, None))
         end)
  else (w, (lastRecover, ([], None))).

(** The second half: claiming new jobs, if there is room. *)
Definition claim_half (free : Z) (jobs : list Job) (w : W) : W * (list Job * option error) :=
  if Z.of_nat (length jobs) <? free then
    let wait := if (0 <? length jobs)%nat then 0 else if wc_PollOnly cfg then 0 else wc_PollInterval cfg in
    let '(w', (claimed, err)) := be_Claim (wc_ID cfg) (free - Z.of_nat (length jobs)) wait w in
    (w', (jobs ++ claimed, match err with Some e => Some (ErrWrap "claim: " e "") | None => None end))
  else (w, (jobs, None)).

Definition is_err (e : option error) : bool := match e with Some _ => true | None => false end.

(** Starting a claimed job. *)
Definition spawn_job (job : Job) (u : run W) : run W :=
  set_inFlight (u_inFlight u + 1)
    (set_running (<[JLease job := length (u_jobs u)]> (u_running u))
      (set_jobs (u_jobs u ++ [JobG job JStart None None]) u)).

(** After the claimed jobs are started. *)
Definition after_spawn (free : Z) (n : nat) (err : bool) (u : run W) : run W :=
  if err then
    if u_ctx u then set_main MDrain u
    else let d := next_backoff cfg (u_backoff u) in set_main (MSleep d) (set_backoff d u)
  else
    set_backoff 0 (set_main (if (Z.of_nat n =? free) || negb (wc_PollOnly cfg) then MLoop else MSelect) u).

Definition all_gone (u : run W) : bool :=
  forallb (fun g => match g_pc g with JGone => true | _ => false end) (u_jobs u).

Definition joined (u : run W) : bool :=
  match u_hb u, u_ackl u, u_stats u with
  | HStopped, (AOff | AStopped), SStopped => true
  | _, _, _ => false
  end.

(** ** Steps *)

Context (outside : W -> W -> Prop).

(** A goroutine's own step, and its deferred function. *)
Definition run_job (i : nat) (u : run W) : option (run W) :=
  match u_jobs u !! i with
  | None => None
  | Some g =>
      match g_pc g with
      | JAck =>
          match be_AckBatch with
          | Some _ =>
              if Z.of_nat (length (u_acks u)) <? wc_Concurrency cfg
              then Some (set_acks (u_acks u ++ [i]) (on_job i (set_pc JAckWait) u))
              else None
          | None =>
              '(w', (evs, pc)) ← job_step g (u_world u);
              Some (add_events evs (set_world w' (on_job i (set_pc pc) u)))
          end
      | JRet err =>
          Some (add_events (job_returned (g_job g) err)
            (set_running (delete (JLease (g_job g)) (u_running u)) (on_job i (set_pc JReleased) u)))
      | JReleased => Some (set_inFlight (u_inFlight u - 1) (on_job i (set_pc JFreed) u))
      | JFreed => Some (set_freed true (on_job i (set_pc JGone) u))
      | _ =>
          '(w', (evs, pc)) ← job_step g (u_world u);
          Some (add_events evs (set_world w' (on_job i (set_pc pc) u)))
      end
  end.

Inductive main_step : run W -> run W -> Prop :=
  | m_top u : u_main u = MLoop -> u_ctx u = true -> main_step u (set_main MDrain u)
  | m_load u :
      let free := wc_Concurrency cfg - u_inFlight u in
      u_main u = MLoop -> u_ctx u = false ->
      main_step u (set_main (if 0 <? free then MRecover free else MSelect) u)
  | m_recover u free w' lr jobs err :
      u_main u = MRecover free -> recover_half free (u_lastRecover u) (u_world u) = (w', (lr, (jobs, err))) ->
      main_step u (set_main (if is_err err then MSpawn free (length jobs) true jobs else MClaim free jobs)
        (set_lastRecover lr (set_world w' u)))
  | m_claim u free jobs0 w' jobs err :
      u_main u = MClaim free jobs0 -> claim_half free jobs0 (u_world u) = (w', (jobs, err)) ->
      main_step u (set_main (MSpawn free (length jobs) (is_err err) jobs) (set_world w' u))
  | m_spawn u free n err job todo :
      u_main u = MSpawn free n err (job :: todo) ->
      main_step u (set_main (MSpawn free n err todo) (spawn_job job u))
  | m_spawned u free n err : u_main u = MSpawn free n err [] -> main_step u (after_spawn free n err u)
  | m_slept u d : u_main u = MSleep d -> main_step u (set_main MLoop u)
  | m_woken u : u_main u = MSelect -> u_freed u = true -> main_step u (set_freed false (set_main MLoop u))
  | m_selected u : u_main u = MSelect -> main_step u (set_main MLoop u)   (* the timer, or ctx *)
  | m_timeout u : u_main u = MDrain ->
      main_step u (set_main MForced (set_jobs (cancel_ctx ErrShutdown <$> u_jobs u) u))
  | m_drained u : u_main u = MDrain \/ u_main u = MForced -> all_gone u = true ->
      main_step u (set_main MJoining (set_stop true u))
  | m_joined u : u_main u = MJoining -> joined u = true ->
      main_step u (set_main (match be_Deregister with Some _ => MDereg | None => MReturned end) u)
  | m_dereg u : u_main u = MDereg -> main_step u (set_main MReturned (set_world (deregister cfg (u_world u)) u)).

Inductive beat_step : run W -> run W -> Prop :=
  | h_stop u : u_hb u = HIdle -> u_stop u = true -> beat_step u (set_hb HStopped u)
  | h_tick u todo : u_hb u = HIdle -> todo ≡ₚ (map_to_list (u_running u)).*2 -> beat_step u (set_hb (HRange todo []) u)
  | h_visit u i todo seen : u_hb u = HRange (i :: todo) seen -> beat_step u (set_hb (HRange todo (seen ++ [i])) u)
  | h_skip u i todo seen : u_hb u = HRange (i :: todo) seen ->   (* deleted meanwhile *)
      ~ (i ∈ (map_to_list (u_running u)).*2) -> beat_step u (set_hb (HRange todo seen) u)
  | h_late u i todo seen : u_hb u = HRange todo seen ->          (* stored meanwhile *)
      i ∈ (map_to_list (u_running u)).*2 -> ~ (i ∈ todo ++ seen) -> beat_step u (set_hb (HRange todo (seen ++ [i])) u)
  | h_ranged u held : u_hb u = HRange [] held -> beat_step u (set_hb (HBatch held) u)
  | h_beaten u : u_hb u = HBatch [] -> beat_step u (set_hb HIdle u)
  | h_batch u held f w' errs :
      let batch := take maxBatch held in
      u_hb u = HBatch held -> held <> [] -> be_ExtendBatch = Some f ->
      f (jobs_of (u_jobs u) batch) (u_world u) = (w', errs) ->
      beat_step u (set_hb (HCancel (zip batch errs) (drop maxBatch held)) (set_world w' u))
  | h_each u held :
      u_hb u = HBatch held -> held <> [] -> be_ExtendBatch = None ->
      beat_step u (set_hb (HEach (take maxBatch held) (take maxBatch held) [] (drop maxBatch held)) u)
  | h_extend u batch i left errs rest g w' err :
      u_hb u = HEach batch (i :: left) errs rest -> u_jobs u !! i = Some g -> be_Extend (g_job g) (u_world u) = (w', err) ->
      beat_step u (set_hb (HEach batch left (errs ++ [err]) rest) (set_world w' u))
  | h_extended u batch errs rest : u_hb u = HEach batch [] errs rest ->
      beat_step u (set_hb (HCancel (zip batch errs) rest) u)
  | h_answer u i err answers rest : u_hb u = HCancel ((i, err) :: answers) rest ->
      beat_step u (set_hb (HCancel answers rest) (if is_lost err then on_job i (cancel_ctx ErrLeaseLost) u else u))
  | h_answered u rest : u_hb u = HCancel [] rest -> beat_step u (set_hb (HBatch rest) u).

Inductive ack_step : run W -> run W -> Prop :=
  | a_stop u : u_ackl u = AIdle -> u_stop u = true -> ack_step u (set_ackl AStopped u)
  | a_first u i rest : u_ackl u = AIdle -> u_acks u = i :: rest -> ack_step u (set_ackl (ACollect [i]) (set_acks rest u))
  | a_more u batch i rest : u_ackl u = ACollect batch -> (length batch < maxBatch)%nat -> u_acks u = i :: rest ->
      ack_step u (set_ackl (ACollect (batch ++ [i])) (set_acks rest u))
  | a_call u batch f w' errs : u_ackl u = ACollect batch -> (maxBatch <= length batch)%nat \/ u_acks u = [] ->
      be_AckBatch = Some f -> f (jobs_of (u_jobs u) batch) (u_world u) = (w', errs) ->
      ack_step u (set_ackl (ADeliver (zip batch errs)) (set_world w' u))
  | a_deliver u i err answers : u_ackl u = ADeliver ((i, err) :: answers) ->
      ack_step u (set_ackl (ADeliver answers) (on_job i (answer err) u))
  | a_delivered u : u_ackl u = ADeliver [] -> ack_step u (set_ackl AIdle u).

Inductive stat_step : run W -> run W -> Prop :=
  | s_report u w' evs : u_stats u = SReport -> report_stats (u_world u) = (w', evs) ->
      stat_step u (set_stats SWait (add_events evs (set_world w' u)))
  | s_tick u : u_stats u = SWait -> stat_step u (set_stats SReport u)
  | s_stop u : u_stats u = SWait -> u_ctx u = true -> stat_step u (set_stats SStopped u).

(** The worker's goroutines, its caller, and the rest of the world. *)
Inductive ustep : run W -> run W -> Prop :=
  | u_main_step u u' : main_step u u' -> ustep u u'
  | u_job_step i u u' : run_job i u = Some u' -> ustep u u'
  | u_beat_step u u' : beat_step u u' -> ustep u u'
  | u_ack_step u u' : ack_step u u' -> ustep u u'
  | u_stat_step u u' : stat_step u u' -> ustep u u'
  | u_cancelled u : ustep u (set_ctx true u)
  | u_outside u w' : outside (u_world u) w' -> ustep u (set_world w' u).

(** [Run] up to its loop. *)
Definition run_start (w : W) : result error (run W) :=
  if bool_decide (wc_ID cfg = "") then Err (ErrMsg "worker id is required")
  else Ok (Run_ MLoop [] HIdle (match be_AckBatch with Some _ => AIdle | None => AOff end) SReport false false ∅ 0 false
             [] [] 0 zero_time w).
End run.
