(* ===== verification/WorkerRunOk.v ===== *)
(** * The invariant of a worker's goroutines

    Over any backend that keeps the promises of [LeaseLaws]: the counter of jobs in
    flight is exact and bounded, the map of running jobs lists every job that is not
    done, every ack request is answered once, the goroutines stop in order, and what
    is reported of a lease is true of it. *)

From S2P Require Import Prelude GoNum GoTime Errors Job Retry Store Backend Worker LeaseLaws WorkerRun.
From stdpp Require Import strings gmap relations.

Open Scope Z_scope.

(** ** Counting the goroutines in some state *)

Definition count (P : jpc -> bool) (js : list jobg) : nat := length (filter (fun g => P (g_pc g) = true) js).

Arguments count : simpl never.

(** Still counted as in flight; still on the map of running jobs. *)
Definition active (p : jpc) : bool := match p with JFreed | JGone => false | _ => true end.
Definition listed (p : jpc) : bool := match p with JReleased | JFreed | JGone => false | _ => true end.

(** Before its ack request can be answered. *)
Definition unasked (p : jpc) : bool :=
  match p with JStart | JRunning | JRan _ | JAck => true | _ => false end.

Lemma count_app P js1 js2 : count P (js1 ++ js2) = (count P js1 + count P js2)%nat.
Proof. unfold count. by rewrite filter_app, length_app. Qed.

Lemma count_one P g : count P [g] = Nat.b2n (P (g_pc g)).
Proof. unfold count. rewrite filter_cons. by destruct (P (g_pc g)). Qed.

Lemma count_cons P g js : count P (g :: js) = (Nat.b2n (P (g_pc g)) + count P js)%nat.
Proof. unfold count. rewrite filter_cons. by destruct (P (g_pc g)). Qed.

Lemma count_none P js : Forall (fun g => P (g_pc g) = false) js -> count P js = 0%nat.
Proof. induction 1 as [|g js Hg _ IH]; [done|]. by rewrite count_cons, Hg, IH. Qed.

Lemma count_alter P f i js g :
  js !! i = Some g ->
  (count P (alter f i js) + Nat.b2n (P (g_pc g)) = count P js + Nat.b2n (P (g_pc (f g))))%nat.
Proof.
  intros Hi. rewrite <- (take_drop_middle js i g Hi) at 2.
  assert (alter f i js = take i js ++ f g :: drop (S i) js) as ->.
  { rewrite <- (take_drop_middle js i g Hi) at 1. apply lookup_lt_Some in Hi.
    rewrite <- (Nat.add_0_r i) at 1. rewrite <- (length_take_le js i) at 1 by lia. by rewrite alter_app_r. }
  rewrite !count_app, !count_cons. lia.
Qed.

Lemma count_ext P js js' : g_pc <$> js = g_pc <$> js' -> count P js = count P js'.
Proof.
  revert js'. induction js as [|g js IH]; intros [|g' js'] E; [done | done | done|].
  cbn in E. injection E as E1 E2. by rewrite !count_cons, E1, (IH js' E2).
Qed.

(** The goroutines of [js'] extend those of [js]; jobs do not change. *)
Definition extends (js js' : list jobg) : Prop :=
  forall i g, js !! i = Some g -> exists g', js' !! i = Some g' /\ g_job g' = g_job g.

Lemma lookup_alter_job f i (js : list jobg) j g' :
  alter f i js !! j = Some g' <->
  (j = i /\ exists g, js !! i = Some g /\ g' = f g) \/ (j <> i /\ js !! j = Some g').
Proof.
  destruct (decide (i = j)) as [->|Hne].
  - rewrite list_lookup_alter_eq. destruct (js !! j); cbn; naive_solver.
  - rewrite list_lookup_alter_ne by done. naive_solver.
Qed.

Lemma jobs_alter f i (js : list jobg) : (forall g, g_job (f g) = g_job g) -> g_job <$> alter f i js = g_job <$> js.
Proof.
  intros Hf. apply list_eq. intros j. rewrite !list_lookup_fmap. destruct (decide (i = j)) as [->|Hne].
  - rewrite list_lookup_alter_eq. destruct (js !! j); cbn; by rewrite ?Hf.
  - by rewrite list_lookup_alter_ne.
Qed.

Lemma Forall_alter_job (P : jobg -> Prop) f i (js : list jobg) :
  Forall P js -> (forall g, js !! i = Some g -> P g -> P (f g)) -> Forall P (alter f i js).
Proof.
  intros Hall Hf. apply Forall_lookup. intros j g' [[-> (g & Hg & ->)]|[_ Hg]]%lookup_alter_job.
  - apply Hf; [done|]. by eapply Forall_lookup_1.
  - by eapply Forall_lookup_1.
Qed.

Section ok.
Context {W : Type} {B : Backend W} {E : WorkerEnv W} {V : Leases W} {LL : LeaseLaws B V}.
Context (cfg : WorkerConfig) (handlers : gmap string (HandlerFunc W)) (outside : W -> W -> Prop).

(** Handlers and everything else use the backend as clients do. *)
Context (Hhandler : forall task h job w, handlers !! task = Some h -> lb_ok w -> later w (h job w).1).
Context (Houtside : forall w w', outside w w' -> lb_ok w -> later w w').

Abbreviation step := (ustep cfg handlers outside).
Implicit Types (u : run W) (g : jobg).

(** ** Room *)

(** Jobs the loop has leased and not started. *)
Definition claimed (m : mainpc) : list Job :=
  match m with MClaim _ jobs | MSpawn _ _ _ jobs => jobs | _ => [] end.

Definition room (u : run W) : Prop :=
  let n := Z.of_nat (count active (u_jobs u)) in
  match u_main u with
  | MRecover free => 0 < free /\ n + free <= wc_Concurrency cfg
  | MClaim free jobs => 0 < free /\ n + free <= wc_Concurrency cfg /\ Z.of_nat (length jobs) <= free
  | MSpawn _ _ _ todo => n + Z.of_nat (length todo) <= wc_Concurrency cfg
  | _ => n <= wc_Concurrency cfg
  end.

(** ** The calls of the backend *)

Lemma recover_half_ok free lr w : lb_ok w -> 0 < free ->
  let '(w', (_, (jobs, _))) := recover_half cfg free lr w in later w w' /\ new_leases V w w' free jobs.
Proof.
  intros Hok Hf. unfold recover_half. destruct (_ <=? _).
  - pose proof (law_RecoverExpired B V (wc_VisibilityTimeout cfg) (wc_ID cfg) free w Hok Hf) as Hl.
    destruct (be_RecoverExpired _ _ _ _) as [w' [jobs [e|]]]; done.
  - split; [done|]. split_and!; [cbn; lia | constructor | constructor].
Qed.

Lemma claim_half_ok free jobs0 w : lb_ok w -> Z.of_nat (length jobs0) <= free ->
  let '(w', (jobs, _)) := claim_half cfg free jobs0 w in later w w' /\
  exists new, jobs = jobs0 ++ new /\ new_leases V w w' (free - Z.of_nat (length jobs0)) new.
Proof.
  intros Hok Hf. unfold claim_half. destruct (Z.ltb_spec (Z.of_nat (length jobs0)) free) as [Hlt|Hge].
  - set (wait := if (0 <? length jobs0)%nat then 0 else _).
    pose proof (law_Claim B V (wc_ID cfg) (free - Z.of_nat (length jobs0)) wait w Hok ltac:(lia)) as Hl.
    destruct (be_Claim _ _ _ _) as [w' [jobs e]]. cbn in Hl. split; [apply Hl|]. exists jobs. split; [done | apply Hl].
  - split; [done|]. exists []. rewrite app_nil_r. split; [done|]. split_and!; [cbn; lia | constructor | constructor].
Qed.

(** What a goroutine's report says of its lease is true of it. *)
Definition truthful (w : W) (ev : event) : Prop :=
  match ev with
  | JobCompleted job | JobRetried job | JobDeadLettered job | JobLeaseLost job => over w (JLease job)
  | _ => True
  end.

Definition pc_true (w : W) (job : Job) (p : jpc) : Prop :=
  match p with
  | JRunning => is_Some (handlers !! Task job)
  | JRet err => loses err -> over w (JLease job)
  | _ => True
  end.

Definition cause_true (w : W) (job : Job) (c : option error) : Prop :=
  match c with
  | Some ErrShutdown | None => True
  | Some ErrLeaseLost => over w (JLease job)
  | Some _ => False
  end.

Definition done_true (w : W) (job : Job) (d : option (option error)) : Prop :=
  match d with Some err => ends err -> over w (JLease job) | None => True end.

Lemma acked_with_true w job err :
  (ends err -> over w (JLease job)) ->
  Forall (truthful w) (acked_with job err).1 /\ pc_true w job (acked_with job err).2.
Proof.
  intros H. destruct err as [e|]; cbn.
  - split; [by repeat constructor|]. intros Hl. apply H. by right.
  - split; [|done]. repeat constructor. apply H. by left.
Qed.

Lemma job_step_ok g w w' evs pc :
  lb_ok w -> issued w (JLease (g_job g)) -> pc_true w (g_job g) (g_pc g) ->
  cause_true w (g_job g) (g_cause g) -> done_true w (g_job g) (g_done g) ->
  job_step cfg handlers g w = Some (w', (evs, pc)) ->
  later w w' /\ Forall (truthful w') evs /\ pc_true w' (g_job g) pc /\ listed pc = true.
Proof.
  intros Hok Hiss Hpc Hcause Hdone Hs. unfold job_step in Hs. destruct (g_pc g) eqn:Epc; try done.
  - injection Hs as <- E1. unfold job_start in E1. split; [done|].
    destruct (_ <? _); [by simplify_eq|]. destruct (handlers !! _) eqn:Eh.
    + simplify_eq. cbn. rewrite Eh. split_and!; [by repeat constructor | by eauto | done].
    + destruct (_ <=? _); simplify_eq; [done|]. by repeat constructor.
  - destruct (handlers !! _) as [h|] eqn:Eh; [|done]. pose proof (Hhandler _ h (g_job g) w Eh Hok) as Hl.
    destruct (h (g_job g) w) as [w1 res]. simplify_eq. by repeat constructor.
  - injection Hs as <- E1. unfold job_ran in E1. split; [done|].
    destruct (g_cause g) as [c|] eqn:Ec; [simplify_eq|].
    + split_and!; [by repeat constructor | | done]. cbn in *. intros Hl. destruct c; try done.
    + destruct (ResErr res); simplify_eq; [|done]. split_and!; [by repeat constructor | |]; destruct (_ || _); done.
  - destruct be_AckBatch; [done|]. pose proof (law_Ack B V (g_job g) w Hok) as [Hl Hf].
    destruct (be_Ack (g_job g) w) as [w1 err]. cbn in Hl, Hf. injection Hs as <- Ea. split; [done|].
    destruct (acked_with_true w1 (g_job g) err (Hf Hiss)) as [H1 H2]. rewrite Ea in H1, H2.
    split_and!; [done | done|]. destruct err; cbn in Ea; by simplify_eq.
  - destruct (g_done g) as [err|] eqn:Ed; [|done]. injection Hs as <- E1. split; [done|].
    destruct (acked_with_true w (g_job g) err Hdone) as [H1 H2]. rewrite E1 in H1, H2.
    split_and!; [done | done|]. destruct err; cbn in E1; by simplify_eq.
  - injection Hs as E1. unfold job_retry in E1.
    pose proof (law_Retry B V (g_job g) (now w + NextDelay (wc_RetryPolicy cfg) (wrap64 (Attempt (g_job g) + 1)) (rand_Float64 w))
      w Hok) as [Hl Hf].
    destruct (be_Retry _ _ w) as [w1 [e|]]; simplify_eq; cbn in *; (split; [done|]).
    + split_and!; [by repeat constructor | | done]. intros H. apply Hf; [done | by right].
    + split_and!; [|done | done]. repeat constructor. apply Hf; [done | by left].
  - injection Hs as E1. unfold job_dead, deadLetter in E1.
    pose proof (law_DeadLetter B V (g_job g) reason w Hok) as [Hl Hf].
    destruct (be_DeadLetter _ _ w) as [w1 [e|]]; simplify_eq; cbn in *; (split; [done|]).
    + split_and!; [by repeat constructor | | done]. intros H. apply Hf; [done | by right].
    + split_and!; [|done | done]. repeat constructor. apply Hf; [done | by left].
Qed.

(** ** The invariant *)

Definition all_jobs (u : run W) : list Job := (g_job <$> u_jobs u) ++ claimed (u_main u).

(** Ack requests that are sent and not answered. *)
Definition requests (u : run W) : list nat :=
  u_acks u ++ match u_ackl u with ACollect batch => batch | ADeliver answers => answers.*1 | _ => [] end.

Definition unanswered (g : jobg) : Prop := g_pc g = JAckWait /\ g_done g = None.

Definition g_ok (w : W) (g : jobg) : Prop :=
  pc_true w (g_job g) (g_pc g) /\ cause_true w (g_job g) (g_cause g) /\ done_true w (g_job g) (g_done g) /\
  (unasked (g_pc g) = true -> g_done g = None).

(** An answer about goroutine [i]'s job. *)
Definition ans_ok (says : option error -> Prop) (u : run W) (a : nat * option error) : Prop :=
  exists g, u_jobs u !! a.1 = Some g /\ (says a.2 -> over (u_world u) (JLease (g_job g))).

Definition known (u : run W) (i : nat) : Prop := (i < length (u_jobs u))%nat.

Definition hb_ok (u : run W) (h : hbpc) : Prop :=
  match h with
  | HIdle => True
  | HRange todo seen => Forall (known u) (todo ++ seen)
  | HBatch held => Forall (known u) held
  | HEach batch rem errs rest =>
      exists done, batch = done ++ rem /\ Forall (known u) (batch ++ rest) /\ length errs = length done /\
        Forall (ans_ok loses u) (zip done errs)
  | HCancel answers rest => Forall (ans_ok loses u) answers /\ Forall (known u) rest
  | HStopped => u_stop u = true
  end.

Definition ackl_ok (u : run W) (a : ackpc) : Prop :=
  match a with
  | AOff => be_AckBatch = None /\ u_acks u = []
  | AIdle => is_Some be_AckBatch
  | ACollect batch => is_Some be_AckBatch /\ batch <> []
  | ADeliver answers => is_Some be_AckBatch /\ Forall (ans_ok ends u) answers
  | AStopped => is_Some be_AckBatch /\ u_stop u = true
  end.

Definition phase_ok (u : run W) : Prop :=
  match u_main u with
  | MDrain | MForced => u_ctx u = true /\ u_stop u = false
  | MJoining => u_ctx u = true /\ u_stop u = true /\ all_gone u = true
  | MDereg | MReturned => u_ctx u = true /\ u_stop u = true /\ all_gone u = true /\ joined u = true
  | _ => u_stop u = false
  end.

Record inv (u : run W) : Prop := {
  i_ok : lb_ok (u_world u);
  i_issued : Forall (fun j => issued (u_world u) (JLease j)) (all_jobs u);
  i_nodup : NoDup (JLease <$> all_jobs u);
  i_inFlight : u_inFlight u = Z.of_nat (count active (u_jobs u));
  i_room : room u;
  i_running : forall l i, u_running u !! l = Some i <->
    exists g, u_jobs u !! i = Some g /\ JLease (g_job g) = l /\ listed (g_pc g) = true;
  i_true : Forall (g_ok (u_world u)) (u_jobs u);
  i_events : Forall (truthful (u_world u)) (u_events u);
  i_reqs_nodup : NoDup (requests u);
  i_reqs : forall i, i ∈ requests u <-> exists g, u_jobs u !! i = Some g /\ unanswered g;
  i_ackl : ackl_ok u (u_ackl u);
  i_hb : hb_ok u (u_hb u);
  i_phase : phase_ok u;
  i_stats : u_stats u = SStopped -> u_ctx u = true;
}.

(** *** Changes of one field *)

Lemma pc_true_later w w' job p : later w w' -> lb_ok w -> pc_true w job p -> pc_true w' job p.
Proof. intros Hl Hok. destruct p; cbn; try done. intros H Hlo. eapply (later_over B V); eauto. Qed.

Lemma g_ok_later w w' g : later w w' -> lb_ok w -> g_ok w g -> g_ok w' g.
Proof.
  intros Hl Hok (H1 & H2 & H3 & H4). split; [by eapply pc_true_later | split; [|split; [|done]]].
  - destruct (g_cause g) as [[]|]; try done. by eapply (later_over B V).
  - destruct (g_done g); [|done]. intros He. apply (later_over B V w w'); [done | done|]. by apply H3.
Qed.

Lemma truthful_later w w' ev : later w w' -> lb_ok w -> truthful w ev -> truthful w' ev.
Proof. intros Hl Hok. destruct ev; cbn; try done; intros; by eapply (later_over B V). Qed.

Lemma ans_ok_later says u w' a : later (u_world u) w' -> lb_ok (u_world u) -> ans_ok says u a -> ans_ok says (set_world w' u) a.
Proof. intros Hl Hok (g & Hg & Ho). exists g. split; [done|]. intros Hs. apply (later_over B V (u_world u)); auto. Qed.

Lemma inv_world u w' : later (u_world u) w' -> inv u -> inv (set_world w' u).
Proof.
  intros Hl [H1 H2 H3 H4 H5 H6 H7 H8 H9 H10 H11 H12 H13 H14]. split; try done.
  - by eapply (later_ok B V).
  - eapply Forall_impl; [exact H2|]. intros j Hj. by eapply (later_issued B V).
  - eapply Forall_impl; [exact H7|]. intros g Hg. by eapply g_ok_later.
  - eapply Forall_impl; [exact H8|]. intros ev Hev. by eapply truthful_later.
  - cbn. destruct (u_ackl u); try done. destruct H11 as [Hb Ha]. split; [done|].
    eapply Forall_impl; [exact Ha|]. intros a Ha'. by apply ans_ok_later.
  - cbn. destruct (u_hb u); try done.
    + destruct H12 as (d & G1 & G2 & G3 & G4). exists d. split_and!; try done.
      eapply Forall_impl; [exact G4|]. intros a Ha'. by apply ans_ok_later.
    + destruct H12 as [Ha Hr]. split; [|done]. eapply Forall_impl; [exact Ha|]. intros a Ha'. by apply ans_ok_later.
Qed.

Lemma inv_events_add u evs : Forall (truthful (u_world u)) evs -> inv u -> inv (add_events evs u).
Proof. intros He []. split; try done. cbn. by apply Forall_app. Qed.

Lemma inv_hb u h : hb_ok u h -> joined (set_hb h u) = true \/ joined u = false -> inv u -> inv (set_hb h u).
Proof.
  intros Hh Hj [H1 H2 H3 H4 H5 H6 H7 H8 H9 H10 H11 H12 H13 H14]. split; try done.
  unfold phase_ok in *. cbn. destruct (u_main u); try done;
    (destruct Hj as [Hj|Hj]; [naive_solver|]; destruct H13 as (_ & _ & _ & H); congruence).
Qed.

(** A heartbeat in progress keeps the worker from being joined. *)
Lemma inv_hb_live u h : u_hb u <> HStopped -> hb_ok u h -> inv u -> inv (set_hb h u).
Proof. intros Hne Hh. apply inv_hb; [done|]. right. unfold joined. by destruct (u_hb u). Qed.

Lemma inv_other u f b t : inv u -> inv (set_freed f (set_backoff b (set_lastRecover t u))).
Proof. intros []. by split. Qed.

Lemma inv_ctx u : inv u -> inv (set_ctx true u).
Proof.
  intros [H1 H2 H3 H4 H5 H6 H7 H8 H9 H10 H11 H12 H13 H14]. split; try done.
  unfold phase_ok in *. cbn. destruct (u_main u); naive_solver.
Qed.

(** *** The loop *)

Lemma inv_main u m :
  claimed m = [] -> room (set_main m u) -> phase_ok (set_main m u) -> inv u -> inv (set_main m u).
Proof.
  intros Hm Hr Hp [H1 H2 H3 H4 H5 H6 H7 H8 H9 H10 H11 H12 H13 H14]. split; try done.
  - unfold all_jobs in *. cbn. rewrite Hm, app_nil_r. by apply Forall_app in H2 as [H2 _].
  - unfold all_jobs in *. cbn. rewrite Hm, app_nil_r. rewrite fmap_app in H3. by apply NoDup_app in H3 as [H3 _].
Qed.

(** Jobs that were just leased. *)
Lemma inv_claimed u w' m limit new :
  later (u_world u) w' -> new_leases V (u_world u) w' limit new -> claimed m = claimed (u_main u) ++ new ->
  room (set_main m u) -> phase_ok (set_main m u) -> inv u -> inv (set_main m (set_world w' u)).
Proof.
  intros Hl (_ & Hnd & Hnew) Hm Hr Hp Hu. pose proof Hu as [H1 H2 H3 H4 H5 H6 H7 H8 H9 H10 H11 H12 H13 H14].
  pose proof (inv_world u w' Hl Hu) as [G1 G2 G3 G4 G5 G6 G7 G8 G9 G10 G11 G12 G13 G14]. split; try done.
  - unfold all_jobs in *. cbn in *. rewrite Hm, app_assoc. apply Forall_app. split; [done|].
    eapply Forall_impl; [exact Hnew|]. by intros j [_ ?].
  - unfold all_jobs in *. cbn in *. rewrite Hm, app_assoc, (fmap_app _ (_ ++ _)). apply NoDup_app. split_and!; [done | | done].
    intros l (j & -> & Hj)%list_elem_of_fmap (j' & El & Hj')%list_elem_of_fmap.
    rewrite Forall_forall in Hnew. destruct (Hnew j' Hj') as [Hn _]. apply Hn. rewrite <- El.
    rewrite Forall_forall in H2. by apply H2.
Qed.

Lemma requests_spawn job u : requests (spawn_job job u) = requests u.
Proof. done. Qed.

Lemma known_app u (g : jobg) js i : u_jobs u = js -> known u i -> (i < length (js ++ [g]))%nat.
Proof. intros <- Hk. rewrite length_app. unfold known in Hk. lia. Qed.

Lemma lookup_snoc_job (js : list jobg) g i g' :
  (js ++ [g]) !! i = Some g' <-> js !! i = Some g' \/ (i = length js /\ g' = g).
Proof.
  rewrite lookup_app_Some. split.
  - intros [H|[H1 H2]]; [by left|]. apply list_lookup_singleton_Some in H2 as [H2 <-]. right. split; [lia | done].
  - intros [H|[-> ->]]; [by left|]. right. split; [lia|]. by rewrite Nat.sub_diag.
Qed.

Lemma ans_ok_spawn says job u a : ans_ok says u a -> ans_ok says (spawn_job job u) a.
Proof. intros (g & Hg & Ho). exists g. split; [|done]. apply lookup_snoc_job. by left. Qed.

Lemma all_gone_iff u : all_gone u = true <-> Forall (fun g => g_pc g = JGone) (u_jobs u).
Proof.
  unfold all_gone. induction (u_jobs u) as [|g js IH]; cbn; [done|].
  rewrite andb_true_iff, IH, Forall_cons. by destruct (g_pc g); naive_solver.
Qed.

Lemma inv_spawn u free n err job todo :
  u_main u = MSpawn free n err (job :: todo) -> inv u -> inv (set_main (MSpawn free n err todo) (spawn_job job u)).
Proof.
  intros Em [H1 H2 H3 H4 H5 H6 H7 H8 H9 H10 H11 H12 H13 H14].
  set (u' := set_main (MSpawn free n err todo) (spawn_job job u)).
  assert (all_jobs u' = all_jobs u) as Eall.
  { unfold all_jobs. cbn. rewrite Em, fmap_app, <- app_assoc. done. }
  assert (forall i g, u_jobs u !! i = Some g -> JLease (g_job g) <> JLease job) as Hfresh.
  { intros i g Hi Heq. unfold all_jobs in H3. rewrite Em, fmap_app in H3. apply NoDup_app in H3 as (_ & Hd & _).
    apply (Hd (JLease job)); [|cbn; by left]. rewrite <- Heq, <- list_fmap_compose.
    apply (list_elem_of_fmap_2 (JLease ∘ g_job)). by eapply list_elem_of_lookup_2. }
  assert (forall i, known u i -> known u' i) as Hknown by (intros i; by apply known_app).
  split; try done; rewrite ?Eall; try done.
  - cbn. rewrite count_app, count_one, H4. cbn. lia.
  - unfold room in *. rewrite Em in H5. cbn in *. rewrite count_app, count_one. cbn. lia.
  - intros l i. cbn. rewrite lookup_insert_Some, H6. setoid_rewrite lookup_snoc_job. split.
    + intros [[<- <-]|[Hne (g & Hg & Hl & Hp)]]; [eexists; split; [right; done | done] | exists g; eauto].
    + intros (g & [Hg|[-> ->]] & Hl & Hp); [right; split; [|by exists g] | by left].
      intros <-. by apply (Hfresh i g).
  - apply Forall_app. split; [done|]. constructor; [|done]. by split_and!.
  - intros i. change (requests u') with (requests u). rewrite H10. cbn. setoid_rewrite lookup_snoc_job. split.
    + intros (g & Hg & Hu). exists g. eauto.
    + intros (g & [Hg|[-> ->]] & Hu); [by exists g|]. by destruct Hu.
  - cbn. destruct (u_ackl u); try done. destruct H11 as [Hb Ha]. split; [done|].
    eapply Forall_impl; [exact Ha|]. intros a. apply (ans_ok_spawn _ job).
  - cbn. destruct (u_hb u) as [| | |batch rem errs rest|answers rest|]; cbn in *; try done.
    1-2: by eapply Forall_impl.
    + destruct H12 as (d & G1 & G2 & G3 & G4). exists d. split_and!; try done; [by eapply Forall_impl|].
      eapply Forall_impl; [exact G4|]. intros a. apply (ans_ok_spawn _ job).
    + destruct H12 as [Ha Hr]. split; [|by eapply Forall_impl].
      eapply Forall_impl; [exact Ha|]. intros a. apply (ans_ok_spawn _ job).
  - unfold phase_ok in *. by rewrite Em in H13.
Qed.

Lemma inv_stop u : all_gone u = true -> u_ctx u = true -> inv u -> inv (set_main MJoining (set_stop true u)).
Proof.
  intros Hg Hc [H1 H2 H3 H4 H5 H6 H7 H8 H9 H10 H11 H12 H13 H14]. split; try done.
  - unfold all_jobs in *. cbn. rewrite app_nil_r. by apply Forall_app in H2 as [H2 _].
  - unfold all_jobs in *. cbn. rewrite app_nil_r. rewrite fmap_app in H3. by apply NoDup_app in H3 as [H3 _].
  - unfold room in *. cbn. destruct (u_main u); lia.
  - cbn in *. destruct (u_ackl u); try done. by destruct H11.
  - cbn in *. by destruct (u_hb u).
Qed.

(** Cancelling every job's context changes no goroutine's place. *)
Lemma inv_cancel_all u : u_main u = MDrain -> inv u -> inv (set_main MForced (set_jobs (cancel_ctx ErrShutdown <$> u_jobs u) u)).
Proof.
  intros Em [H1 H2 H3 H4 H5 H6 H7 H8 H9 H10 H11 H12 H13 H14].
  set (u' := set_main MForced _).
  assert (g_job <$> u_jobs u' = g_job <$> u_jobs u) as Ej by (cbn; rewrite <- list_fmap_compose; by apply list_fmap_ext).
  assert (g_pc <$> u_jobs u' = g_pc <$> u_jobs u) as Ep by (cbn; rewrite <- list_fmap_compose; by apply list_fmap_ext).
  assert (all_jobs u' = all_jobs u) as Eall by (unfold all_jobs; rewrite Ej; cbn; by rewrite Em).
  assert (forall i, known u i -> known u' i) as Hknown by (intros i; unfold known; cbn; by rewrite length_fmap).
  assert (forall says a, ans_ok says u a -> ans_ok says u' a) as Hans.
  { intros says a (g & Hg & Ho). exists (cancel_ctx ErrShutdown g). cbn. by rewrite list_lookup_fmap, Hg. }
  split; try done; rewrite ?Eall; try done.
  - rewrite (count_ext active (u_jobs u') (u_jobs u)); done.
  - unfold room in *. rewrite (count_ext active (u_jobs u') (u_jobs u)) by done. by rewrite Em in H5.
  - intros l i. cbn. rewrite H6, list_lookup_fmap. destruct (u_jobs u !! i) as [g|]; cbn; naive_solver.
  - cbn. apply Forall_fmap. eapply Forall_impl; [exact H7|]. intros g (G1 & G2 & G3 & G4). split_and!; try done.
    cbn. by destruct (g_cause g).
  - intros i. change (requests u') with (requests u). rewrite H10. cbn. rewrite list_lookup_fmap.
    destruct (u_jobs u !! i) as [g|]; cbn; [|naive_solver]. unfold unanswered. naive_solver.
  - cbn in *. destruct (u_ackl u); try done. destruct H11. split; [done|]. eapply Forall_impl; [done | by apply Hans].
  - cbn in *. destruct (u_hb u) as [| | |batch rem errs rest|answers rest|]; cbn in *; try done.
    1-2: by eapply Forall_impl.
    + destruct H12 as (d & G1 & G2 & G3 & G4). exists d. split_and!; try done; (eapply Forall_impl; [done|]); auto.
    + destruct H12. split; (eapply Forall_impl; [done|]); auto.
  - unfold phase_ok in *. by rewrite Em in H13.
Qed.

Lemma main_step_inv u u' : main_step cfg u u' -> inv u -> inv u'.
Proof.
  intros Hst Hu. pose proof (i_room _ Hu) as Hr. pose proof (i_phase _ Hu) as Hp. unfold room, phase_ok in Hr, Hp.
  destruct Hst as [u Em Hc|u free Em Hc|u free w' lr jobs err Em Er|u free jobs0 w' jobs err Em Er|u free n err job todo Em
    |u free n err Em|u d Em|u Em Hf|u Em|u Em|u Em Hg|u Em Hj|u Em]; try rewrite Em in Hr, Hp.
  - by apply inv_main.
  - apply inv_main; [by destruct (_ <? _) | | | done].
    + subst free. rewrite (i_inFlight _ Hu). unfold room. cbn.
      destruct (Z.ltb_spec 0 (wc_Concurrency cfg - Z.of_nat (count active (u_jobs u)))); lia.
    + unfold phase_ok. cbn. by destruct (_ <? _).
  - pose proof (recover_half_ok free (u_lastRecover u) (u_world u) (i_ok _ Hu) (proj1 Hr)) as Hl.
    rewrite Er in Hl. destruct Hl as [Hl Hnew]. pose proof Hnew as [Hlen _].
    apply (inv_claimed (set_lastRecover lr u) w' _ free jobs Hl Hnew).
    + cbn. rewrite Em. by destruct (is_err err).
    + unfold room. cbn. destruct (is_err err); lia.
    + unfold phase_ok. cbn. by destruct (is_err err).
    + by apply (inv_other u (u_freed u) (u_backoff u) lr).
  - pose proof (claim_half_ok free jobs0 (u_world u) (i_ok _ Hu) ltac:(lia)) as Hl.
    rewrite Er in Hl. destruct Hl as [Hl (new & -> & Hnew)]. pose proof Hnew as [Hlen _].
    apply (inv_claimed u w' _ _ new Hl Hnew); [cbn; by rewrite Em | | done | done].
    unfold room. cbn. rewrite length_app. lia.
  - by apply inv_spawn.
  - unfold after_spawn. cbn in Hr. destruct err; [destruct (u_ctx u) eqn:Hc|].
    + apply inv_main; try done. unfold room. cbn. lia.
    + apply inv_main; try done; [unfold room; cbn; lia|]. by apply (inv_other u (u_freed u) _ (u_lastRecover u)).
    + eapply (inv_other (set_main _ u) (u_freed u) 0 (u_lastRecover u)), inv_main; [| | |done].
      * by destruct (_ || _).
      * unfold room. cbn. destruct (_ || _); lia.
      * unfold phase_ok. cbn. by destruct (_ || _).
  - by apply inv_main.
  - apply (inv_other (set_main MLoop u) false (u_backoff u) (u_lastRecover u)). by apply inv_main.
  - by apply inv_main.
  - by apply inv_cancel_all.
  - assert (u_ctx u = true) as Hc by (destruct Em as [Em|Em]; rewrite Em in Hp; apply Hp). by apply inv_stop.
  - apply inv_main; [by destruct be_Deregister | | | done].
    + unfold room. cbn. destruct be_Deregister; lia.
    + unfold phase_ok. cbn. destruct be_Deregister; naive_solver.
  - apply inv_main; [done | done | done|]. apply inv_world; [|done]. unfold deregister.
    destruct be_Deregister as [f|] eqn:Ed; [|done]. apply (law_Deregister B V f _ _ Ed), Hu.
Qed.

(** *** A change of one goroutine *)

(** What the other goroutines hold of goroutine [i] survives a change of it that
    keeps its job. *)
Section one_job.
Context (i : nat) (f : jobg -> jobg) (Hjob : forall g, g_job (f g) = g_job g).

Lemma all_jobs_on u : all_jobs (on_job i f u) = all_jobs u.
Proof. unfold all_jobs. cbn. by rewrite jobs_alter. Qed.

Lemma ans_ok_on says u a : ans_ok says u a -> ans_ok says (on_job i f u) a.
Proof.
  intros (g & Hg & Ho). destruct (decide (a.1 = i)) as [Ea|Hne].
  - exists (f g). rewrite Hjob. split; [|done]. apply lookup_alter_job. left. subst i. eauto.
  - exists g. split; [|done]. apply lookup_alter_job. by right.
Qed.

Lemma known_on u k : known u k -> known (on_job i f u) k.
Proof. unfold known. cbn. by rewrite length_alter. Qed.

Lemma hb_ok_on u h : hb_ok u h -> hb_ok (on_job i f u) h.
Proof.
  destruct h as [| | |batch rem errs rest|answers rest|]; cbn; try done.
  1-2: intros H; eapply Forall_impl; [exact H|]; intros k; by apply known_on.
  - intros (d & G1 & G2 & G3 & G4). exists d. split_and!; try done; (eapply Forall_impl; [done|]).
    + intros k. by apply known_on.
    + intros a. by apply ans_ok_on.
  - intros [G1 G2]. split; (eapply Forall_impl; [done|]); [intros a; by apply ans_ok_on | intros k; by apply known_on].
Qed.

Lemma ackl_ok_on u a : ackl_ok u a -> ackl_ok (on_job i f u) a.
Proof.
  destruct a; try done. intros [G1 G2]. split; [done|]. eapply Forall_impl; [done|]. intros x. by apply ans_ok_on.
Qed.

Lemma room_on u g : u_jobs u !! i = Some g -> (active (g_pc (f g)) = true -> active (g_pc g) = true) -> room u -> room (on_job i f u).
Proof.
  intros Hg Ha. pose proof (count_alter active f i (u_jobs u) g Hg) as Hc.
  assert (count active (alter f i (u_jobs u)) <= count active (u_jobs u))%nat as Hle.
  { destruct (active (g_pc (f g))); cbn in Hc; [rewrite Ha in Hc by done; cbn in Hc|]; lia. }
  unfold room. cbn. destruct (u_main u); lia.
Qed.

Lemma phase_on u g : u_jobs u !! i = Some g -> (g_pc g = JGone -> g_pc (f g) = JGone) -> phase_ok u -> phase_ok (on_job i f u).
Proof.
  intros Hg Hgone. assert (all_gone u = true -> all_gone (on_job i f u) = true) as Hall.
  { rewrite !all_gone_iff. intros H. apply Forall_alter_job; [done|]. intros g' Hg' Hp. simplify_eq. auto. }
  unfold phase_ok. cbn. change (joined (on_job i f u)) with (joined u). destruct (u_main u); naive_solver.
Qed.

Lemma true_on u g w : u_jobs u !! i = Some g -> g_ok w (f g) -> Forall (g_ok w) (u_jobs u) -> Forall (g_ok w) (alter f i (u_jobs u)).
Proof. intros Hg Hok H. apply Forall_alter_job; [done|]. intros g' Hg' _. by simplify_eq. Qed.

(** A step that neither leaves the map, nor is counted out, nor sends a request. *)
Lemma inv_job u g :
  u_jobs u !! i = Some g -> g_ok (u_world u) (f g) -> active (g_pc (f g)) = active (g_pc g) ->
  listed (g_pc (f g)) = listed (g_pc g) -> (unanswered (f g) <-> unanswered g) ->
  (g_pc g = JGone -> g_pc (f g) = JGone) -> inv u -> inv (on_job i f u).
Proof.
  intros Hg Hok Ha Hl Hun Hgone [H1 H2 H3 H4 H5 H6 H7 H8 H9 H10 H11 H12 H13 H14].
  split; try done; rewrite ?all_jobs_on; try done.
  - cbn. rewrite H4. pose proof (count_alter active f i _ g Hg) as Hc. rewrite Ha in Hc. lia.
  - eapply room_on; [done | by rewrite Ha | done].
  - intros l k. cbn. rewrite H6. setoid_rewrite lookup_alter_job. split.
    + intros (g' & Hg' & Hle & Hli). destruct (decide (k = i)) as [->|Hne]; [|exists g'; eauto].
      assert (g' = g) as -> by congruence. exists (f g). rewrite Hjob, Hl. split; [left; eauto | done].
    + intros (g' & [[-> (g0 & Hg0 & ->)]|[_ Hg']] & Hle & Hli); [|by exists g'].
      assert (g0 = g) as -> by congruence. exists g. by rewrite Hjob, Hl in *.
  - by eapply true_on.
  - intros k. change (requests (on_job i f u)) with (requests u). rewrite H10. cbn. setoid_rewrite lookup_alter_job. split.
    + intros (g' & Hg' & Hw). destruct (decide (k = i)) as [->|Hne]; [|exists g'; eauto].
      assert (g' = g) as -> by congruence. exists (f g). split; [left; eauto|]. by apply Hun.
    + intros (g' & [[-> (g0 & Hg0 & ->)]|[_ Hg']] & Hw); [|by exists g']. assert (g0 = g) as -> by congruence. exists g. split; [done|]. by apply Hun.
  - by apply ackl_ok_on.
  - by apply hb_ok_on.
  - by eapply phase_on.
Qed.
End one_job.

Lemma set_pc_job p g : g_job (set_pc p g) = g_job g.
Proof. done. Qed.

(** Where a step of a goroutine leads. *)
Lemma job_step_pc g w w' evs pc :
  job_step cfg handlers g w = Some (w', (evs, pc)) ->
  pc <> JAckWait /\ (unasked pc = true -> unasked (g_pc g) = true) /\ listed (g_pc g) = true /\ ~ unanswered g.
Proof.
  unfold job_step, unanswered. intros Hs. destruct (g_pc g); try done.
  - injection Hs as _ Hs. unfold job_start in Hs. split_and!; [| done | done | naive_solver].
    repeat case_match; by simplify_eq.
  - destruct (handlers !! _) as [h|]; [|done]. destruct (h _ _). simplify_eq. naive_solver.
  - injection Hs as _ Hs. unfold job_ran in Hs. split_and!; [| done | done | naive_solver].
    repeat case_match; by simplify_eq.
  - destruct be_AckBatch; [done|]. destruct (be_Ack _ _) as [w1 err]. injection Hs as _ Hs.
    split_and!; [| done | done | naive_solver]. destruct err; cbn in Hs; by simplify_eq.
  - destruct (g_done g) as [err|]; [|done]. injection Hs as _ Hs. split_and!; [| | done | naive_solver];
      destruct err; cbn in Hs; by simplify_eq.
  - injection Hs as Hs. unfold job_retry in Hs. destruct (be_Retry _ _ _) as [w1 [e|]]; simplify_eq; naive_solver.
  - injection Hs as Hs. unfold job_dead in Hs. destruct (deadLetter _ _ _) as [w1 [evs1 err]]. simplify_eq. naive_solver.
Qed.

Lemma listed_active p : listed p = true -> active p = true.
Proof. by destruct p. Qed.

Lemma inv_lookup u i g : inv u -> u_jobs u !! i = Some g -> issued (u_world u) (JLease (g_job g)) /\ g_ok (u_world u) g.
Proof.
  intros Hu Hg. split; [|by eapply Forall_lookup_1; [apply Hu|]].
  pose proof (i_issued _ Hu) as Hi. apply Forall_app in Hi as [Hi _]. rewrite Forall_fmap in Hi.
  by apply (Forall_lookup_1 _ _ _ _ Hi Hg).
Qed.

Lemma inv_job_step u i g w' evs pc :
  u_jobs u !! i = Some g -> job_step cfg handlers g (u_world u) = Some (w', (evs, pc)) -> inv u ->
  inv (add_events evs (set_world w' (on_job i (set_pc pc) u))).
Proof.
  intros Hg Hs Hu. destruct (inv_lookup u i g Hu Hg) as (Hiss & Gp & Gc & Gd & Gu).
  destruct (job_step_ok g _ _ _ _ (i_ok _ Hu) Hiss Gp Gc Gd Hs) as (Hl & Hev & Hpc & Hli).
  destruct (job_step_pc _ _ _ _ _ Hs) as (Hne & Hun & Hl0 & Hna).
  apply inv_events_add; [done|].
  change (set_world w' (on_job i (set_pc pc) u)) with (on_job i (set_pc pc) (set_world w' u)).
  apply (inv_job i (set_pc pc) (set_pc_job pc) _ g); [done | | | | | | by apply inv_world].
  - destruct (g_ok_later _ w' g Hl (i_ok _ Hu) (conj Gp (conj Gc (conj Gd Gu)))) as (_ & Gc' & Gd' & _).
    split; [done | split; [done | split; [done|]]]. cbn. auto.
  - cbn. by rewrite !listed_active.
  - cbn. by rewrite Hli, Hl0.
  - unfold unanswered. cbn. split; [by intros [? _] | done].
  - intros Hgone. by rewrite Hgone in Hl0.
Qed.

Lemma inv_ack_send u i g :
  u_jobs u !! i = Some g -> g_pc g = JAck -> is_Some be_AckBatch -> inv u ->
  inv (set_acks (u_acks u ++ [i]) (on_job i (set_pc JAckWait) u)).
Proof.
  intros Hg Hpc Hb Hu. destruct (inv_lookup u i g Hu Hg) as (_ & Gp & Gc & Gd & Gu).
  assert (g_done g = None) as Hd by (apply Gu; by rewrite Hpc).
  pose proof Hu as [H1 H2 H3 H4 H5 H6 H7 H8 H9 H10 H11 H12 H13 H14].
  set (f := set_pc JAckWait). assert (forall g, g_job (f g) = g_job g) as Hf by done.
  set (u' := set_acks _ _).
  assert (requests u' ≡ₚ i :: requests u) as Hreq.
  { unfold requests. cbn. rewrite <- app_assoc. cbn. by rewrite Permutation_middle. }
  assert (~ (i ∈ requests u)) as Hnew. { rewrite H10. intros (g' & Hg' & [Hw _]). congruence. }
  split; try done.
  - by rewrite <- (all_jobs_on i f Hf) in H2.
  - by rewrite <- (all_jobs_on i f Hf) in H3.
  - cbn. rewrite H4. pose proof (count_alter active f i _ g Hg) as Hc. cbn in Hc. rewrite Hpc in Hc. cbn in Hc. lia.
  - apply (room_on i f u g Hg); [by rewrite Hpc | done].
  - intros l k. cbn. rewrite H6. setoid_rewrite lookup_alter_job. split.
    + intros (g' & Hg' & Hle & Hli). destruct (decide (k = i)) as [->|Hne]; [|exists g'; eauto].
      assert (g' = g) as -> by congruence. exists (f g). split; [left; eauto | done].
    + intros (g' & [[-> (g0 & Hg0 & ->)]|[_ Hg']] & Hle & Hli); [|by exists g'].
      assert (g0 = g) as -> by congruence. exists g. by rewrite Hpc.
  - by apply (true_on i f u g).
  - rewrite Hreq. by constructor.
  - intros k. rewrite Hreq, elem_of_cons, H10. cbn. setoid_rewrite lookup_alter_job. split.
    + intros [->|(g' & Hg' & Hw)]; [exists (f g); split; [left; eauto | done]|].
      exists g'. split; [right|done]. split; [|done]. intros ->. apply Hnew, H10. eauto.
    + intros (g' & [[-> (g0 & Hg0 & ->)]|[_ Hg']] & Hw); [by left | right; eauto].
  - cbn. destruct (u_ackl u); cbn in *; try done; [by destruct Hb, H11; congruence|].
    destruct H11. split; [done|]. eapply Forall_impl; [done|]. intros a. by apply (ans_ok_on i f Hf).
  - by apply (hb_ok_on i f Hf).
  - eapply (phase_on i f u g); [done | | done]. by rewrite Hpc.
Qed.

Lemma inv_release u i g err :
  u_jobs u !! i = Some g -> g_pc g = JRet err -> inv u ->
  inv (add_events (job_returned (g_job g) err)
    (set_running (delete (JLease (g_job g)) (u_running u)) (on_job i (set_pc JReleased) u))).
Proof.
  intros Hg Hpc Hu. destruct (inv_lookup u i g Hu Hg) as (_ & Gp & Gc & Gd & Gu).
  pose proof Hu as [H1 H2 H3 H4 H5 H6 H7 H8 H9 H10 H11 H12 H13 H14].
  set (f := set_pc JReleased). assert (forall g, g_job (f g) = g_job g) as Hf by done.
  apply inv_events_add.
  { rewrite Hpc in Gp. destruct err as [e|]; cbn in *; [|done]. destruct (errors_Is e ErrLeaseLost) eqn:Ee; [|done].
    constructor; [|done]. by apply Gp. }
  split; try done.
  - by rewrite <- (all_jobs_on i f Hf) in H2.
  - by rewrite <- (all_jobs_on i f Hf) in H3.
  - cbn. rewrite H4. pose proof (count_alter active f i _ g Hg) as Hc. cbn in Hc. rewrite Hpc in Hc. cbn in Hc. lia.
  - apply (room_on i f u g Hg); [by rewrite Hpc | done].
  - intros l k. cbn. rewrite lookup_delete_Some, H6. setoid_rewrite lookup_alter_job. split.
    + intros (Hne & g' & Hg' & Hle & Hli). exists g'. split; [right|done]. split; [|done]. intros ->. congruence.
    + intros (g' & [[-> (g0 & Hg0 & ->)]|[Hne Hg']] & Hle & Hli); [done|]. split; [|by exists g'].
      intros El. apply Hne. unfold all_jobs in H3. rewrite fmap_app in H3. apply NoDup_app in H3 as (H3 & _ & _).
      rewrite <- list_fmap_compose in H3.
      apply (NoDup_lookup _ k i l H3); rewrite list_lookup_fmap; [by rewrite Hg'; cbn; rewrite Hle | by rewrite Hg; cbn; rewrite El].
  - by apply (true_on i f u g).
  - intros k. change (requests _) with (requests u). rewrite H10. cbn. setoid_rewrite lookup_alter_job. split.
    + intros (g' & Hg' & Hw). exists g'. split; [right|done]. split; [|done]. intros ->. destruct Hw as [Hw _]. congruence.
    + intros (g' & [[-> (g0 & Hg0 & ->)]|[_ Hg']] & Hw); [by destruct Hw | eauto].
  - by apply (ackl_ok_on i f Hf).
  - by apply (hb_ok_on i f Hf).
  - eapply (phase_on i f u g); [done | | done]. by rewrite Hpc.
Qed.

(** Leaving the count, and the end. *)
Lemma inv_finish u i g pc :
  u_jobs u !! i = Some g -> (g_pc g = JReleased /\ pc = JFreed) \/ (g_pc g = JFreed /\ pc = JGone) -> inv u ->
  inv (set_inFlight (Z.of_nat (count active (u_jobs (on_job i (set_pc pc) u)))) (on_job i (set_pc pc) u)).
Proof.
  intros Hg Hpc Hu. destruct (inv_lookup u i g Hu Hg) as (_ & Gp & Gc & Gd & Gu).
  pose proof Hu as [H1 H2 H3 H4 H5 H6 H7 H8 H9 H10 H11 H12 H13 H14].
  set (f := set_pc pc). assert (forall g, g_job (f g) = g_job g) as Hf by done.
  assert (listed pc = false /\ listed (g_pc g) = false /\ active pc = false /\ g_pc g <> JAckWait /\ pc <> JAckWait /\
    unasked pc = false /\ g_pc g <> JGone) as (L1 & L2 & L3 & L4 & L5 & L6 & L7) by (destruct Hpc as [[-> ->]|[-> ->]]; done).
  split; try done.
  - by rewrite <- (all_jobs_on i f Hf) in H2.
  - by rewrite <- (all_jobs_on i f Hf) in H3.
  - apply (room_on i f u g Hg); [|done]. cbn. congruence.
  - intros l k. cbn. rewrite H6. setoid_rewrite lookup_alter_job. split.
    + intros (g' & Hg' & Hle & Hli). exists g'. split; [right|done]. split; [|done]. intros ->. congruence.
    + intros (g' & [[-> (g0 & Hg0 & ->)]|[Hne Hg']] & Hle & Hli); [cbn in Hli; congruence | eauto].
  - apply (true_on i f u g); [done | | done]. split_and!; try done; [by destruct Hpc as [[_ ->]|[_ ->]] | cbn; congruence].
  - intros k. change (requests _) with (requests u). rewrite H10. cbn. setoid_rewrite lookup_alter_job. split.
    + intros (g' & Hg' & Hw). exists g'. split; [right|done]. split; [|done]. intros ->. destruct Hw as [Hw _]. congruence.
    + intros (g' & [[-> (g0 & Hg0 & ->)]|[_ Hg']] & Hw); [by destruct Hw | eauto].
  - by apply (ackl_ok_on i f Hf).
  - by apply (hb_ok_on i f Hf).
  - by eapply (phase_on i f u g).
Qed.

Lemma run_job_inv i u u' : run_job cfg handlers i u = Some u' -> inv u -> inv u'.
Proof.
  intros Hs Hu. unfold run_job in Hs. destruct (u_jobs u !! i) as [g|] eqn:Hg; [|done].
  assert (forall x, ('(w', (evs, pc)) ← job_step cfg handlers g (u_world u);
      Some (add_events evs (set_world w' (on_job i (set_pc pc) u)))) = Some x -> inv x) as Hgen.
  { intros x Hx. apply bind_Some in Hx as ([w' [evs pc]] & Hj & [= <-]). by eapply inv_job_step. }
  destruct (g_pc g) eqn:Hpc; try by apply Hgen.
  - destruct be_AckBatch as [b|] eqn:Eb; [|by apply Hgen]. destruct (_ <? _); [|done]. simplify_eq.
    eapply inv_ack_send; [done | done | by rewrite Eb | done].
  - simplify_eq. by apply inv_release.
  - simplify_eq. pose proof (inv_finish u i g JFreed Hg (or_introl (conj Hpc eq_refl)) Hu) as Hf.
    assert (Z.of_nat (count active (u_jobs (on_job i (set_pc JFreed) u))) = u_inFlight u - 1) as Ec; [|by rewrite Ec in Hf].
    pose proof (count_alter active (set_pc JFreed) i _ g Hg) as Hc. cbn in Hc. rewrite Hpc in Hc. cbn in Hc.
    rewrite (i_inFlight _ Hu). cbn. lia.
  - simplify_eq. pose proof (inv_finish u i g JGone Hg (or_intror (conj Hpc eq_refl)) Hu) as Hf.
    assert (Z.of_nat (count active (u_jobs (on_job i (set_pc JGone) u))) = u_inFlight u) as Ec.
    { pose proof (count_alter active (set_pc JGone) i _ g Hg) as Hc. cbn in Hc. rewrite Hpc in Hc. cbn in Hc.
      rewrite (i_inFlight _ Hu). cbn. lia. }
    rewrite Ec in Hf. by apply (inv_other _ true (u_backoff u) (u_lastRecover u)) in Hf.
Qed.

(** *** The heartbeat *)

Lemma running_known u : inv u -> Forall (known u) (map_to_list (u_running u)).*2.
Proof.
  intros Hu. apply Forall_fmap, Forall_forall. intros [l i] Hi%elem_of_map_to_list.
  apply (i_running _ Hu) in Hi as (g & Hg & _). by eapply lookup_lt_Some.
Qed.

Lemma jobs_of_known u l : Forall (known u) l -> Forall2 (fun i j => exists g, u_jobs u !! i = Some g /\ g_job g = j) l (jobs_of (u_jobs u) l).
Proof.
  induction 1 as [|i l Hi _ IH]; [constructor|]. apply lookup_lt_is_Some_2 in Hi as [g Hg]. cbn. rewrite Hg. constructor; eauto.
Qed.

(** The answers to a batch are true of the goroutines asked for. *)
Lemma batch_answers says u f batch w' errs :
  inv u -> Forall (known u) batch -> law_batch V says f -> f (jobs_of (u_jobs u) batch) (u_world u) = (w', errs) ->
  later (u_world u) w' /\ Forall (ans_ok says (set_world w' u)) (zip batch errs) /\ length errs = length batch.
Proof.
  intros Hu Hk Hlaw Hf. destruct (Hlaw (jobs_of (u_jobs u) batch) (u_world u) (i_ok _ Hu)) as [Hl Hans].
  rewrite Hf in Hl, Hans. cbn in Hl, Hans. split; [done|]. pose proof (jobs_of_known u batch Hk) as Hj. split.
  - clear Hf Hk. revert errs Hans. induction Hj as [|i j l js (g & Hg & <-) _ IH]; intros errs Hans;
      inversion Hans as [|? e ? es Hfe Hrest]; subst; cbn; [constructor|].
    constructor; [|by apply IH]. exists g. split; [done|]. cbn. apply Hfe. by eapply inv_lookup.
  - apply Forall2_length in Hj. apply Forall2_length in Hans. lia.
Qed.

Lemma beat_step_inv u u' : beat_step u u' -> inv u -> inv u'.
Proof.
  intros Hst Hu. pose proof (i_hb _ Hu) as Hh. destruct Hst as [u Eh Hs|u todo Eh Ht|u i todo seen Eh|u i todo seen Eh Hi
    |u i todo seen Eh Hi Hn|u held Eh|u Eh|u held f w' errs batch Eh Hne Hf Hcall|u held Eh Hne Hnone
    |u batch i rem errs rest g w' err Eh Hg Hcall|u batch errs rest Eh|u i err answers rest Eh|u rest Eh];
    rewrite Eh in Hh; cbn in Hh.
  - by apply inv_hb_live; [rewrite Eh|..].
  - apply inv_hb_live; [by rewrite Eh | | done]. cbn. rewrite app_nil_r, Ht. by apply running_known.
  - apply inv_hb_live; [by rewrite Eh | | done]. cbn. rewrite app_assoc.
    apply Forall_cons in Hh as [Hk Hh]. apply Forall_app. split; [done | by constructor].
  - apply inv_hb_live; [by rewrite Eh | | done]. cbn. by inversion Hh.
  - apply inv_hb_live; [by rewrite Eh | | done]. cbn. rewrite app_assoc. apply Forall_app. split; [done|].
    constructor; [|done]. pose proof (running_known u Hu) as Hk. rewrite Forall_forall in Hk. by apply Hk.
  - by apply inv_hb_live; [rewrite Eh|..].
  - by apply inv_hb_live; [rewrite Eh|..].
  - destruct (batch_answers loses u f batch w' errs Hu) as (Hl & Ha & _); [by apply Forall_take | by apply (law_ExtendBatch B V) | done|].
    apply inv_hb_live; [cbn; by rewrite Eh | | by apply inv_world]. split; [done|]. by apply Forall_drop.
  - apply inv_hb_live; [by rewrite Eh | | done]. exists []. cbn. by rewrite take_drop.
  - destruct Hh as (d & -> & Hk & Hlen & Ha). destruct (law_Extend B V (g_job g) (u_world u) (i_ok _ Hu)) as [Hl Hfe].
    rewrite Hcall in Hl, Hfe. cbn in Hl, Hfe.
    apply inv_hb_live; [cbn; by rewrite Eh | | by apply inv_world]. exists (d ++ [i]). split_and!.
    + by rewrite <- app_assoc.
    + done.
    + rewrite !length_app. cbn. lia.
    + rewrite zip_with_app by done. apply Forall_app. split.
      * eapply Forall_impl; [exact Ha|]. intros a. by apply ans_ok_later; [|apply Hu].
      * constructor; [|done]. exists g. split; [done|]. cbn. apply Hfe. by eapply inv_lookup.
  - destruct Hh as (d & Ed & Hk & Hlen & Ha). rewrite app_nil_r in Ed. subst d.
    apply inv_hb_live; [by rewrite Eh | | done]. split; [done|]. by apply Forall_app in Hk as [_ Hk].
  - destruct Hh as [Ha Hr]. apply Forall_cons in Ha as [(g & Hg & Ho) Ha]. cbn in Hg, Ho.
    destruct (is_lost err) eqn:El; [|by apply inv_hb_live; [rewrite Eh|..]].
    apply inv_hb_live; [cbn; by rewrite Eh | |].
    + apply (hb_ok_on i (cancel_ctx ErrLeaseLost) ltac:(done)). by split.
    + apply (inv_job i (cancel_ctx ErrLeaseLost) ltac:(done) u g); try done.
      destruct (inv_lookup u i g Hu Hg) as (_ & Gp & Gc & Gd & Gu). split_and!; try done.
      cbn. destruct (g_cause g); [done|]. by apply Ho.
  - apply inv_hb_live; [by rewrite Eh | | done]. apply Hh.
Qed.

(** *** The ack loop *)

(** A request moves from the channel into the batch. *)
Lemma inv_collect u i rest batch :
  u_acks u = i :: rest -> (u_ackl u = AIdle /\ batch = []) \/ u_ackl u = ACollect batch -> inv u ->
  inv (set_ackl (ACollect (batch ++ [i])) (set_acks rest u)).
Proof.
  intros Ea El [H1 H2 H3 H4 H5 H6 H7 H8 H9 H10 H11 H12 H13 H14].
  set (u' := set_ackl _ _).
  assert (requests u' ≡ₚ requests u) as Hreq.
  { unfold requests. rewrite Ea. cbn. rewrite app_assoc, <- Permutation_cons_append.
    destruct El as [[-> ->]| ->]; by rewrite ?app_nil_r. }
  split; try done.
  - by rewrite Hreq.
  - intros k. by rewrite Hreq.
  - cbn. split; [|by destruct batch]. destruct El as [[El _]|El]; rewrite El in H11; [done | apply H11].
  - unfold phase_ok in *. cbn. destruct (u_main u); try done;
      destruct H13 as (? & ? & ? & Hj); unfold joined in Hj; destruct El as [[El _]|El]; rewrite El in Hj; by destruct (u_hb u).
Qed.

Lemma not_joined_ackl u : u_ackl u <> AOff -> u_ackl u <> AStopped -> joined u = false.
Proof. intros. unfold joined. by destruct (u_hb u), (u_ackl u). Qed.

Lemma inv_ackl u a :
  u_ackl u <> AOff -> u_ackl u <> AStopped -> ackl_ok u a -> requests (set_ackl a u) = requests u -> inv u -> inv (set_ackl a u).
Proof.
  intros Hn1 Hn2 Ha Hreq [H1 H2 H3 H4 H5 H6 H7 H8 H9 H10 H11 H12 H13 H14]. split; try done.
  - by rewrite Hreq.
  - intros i. by rewrite Hreq.
  - pose proof (not_joined_ackl u Hn1 Hn2) as Hj. unfold phase_ok in *. cbn. destruct (u_main u); try done; naive_solver congruence.
Qed.

(** An answer arrives at the goroutine that waits for it. *)
Lemma inv_deliver u i err answers :
  u_ackl u = ADeliver ((i, err) :: answers) -> inv u -> inv (set_ackl (ADeliver answers) (on_job i (answer err) u)).
Proof.
  intros El Hu. pose proof Hu as [H1 H2 H3 H4 H5 H6 H7 H8 H9 H10 H11 H12 H13 H14].
  rewrite El in H11. destruct H11 as [Hb Hans]. apply Forall_cons in Hans as [(g & Hg & Ho) Hans]. cbn in Hg, Ho.
  assert (requests u ≡ₚ i :: requests (set_ackl (ADeliver answers) u)) as Hreq.
  { unfold requests. rewrite El. cbn. by rewrite Permutation_middle. }
  assert (NoDup (i :: requests (set_ackl (ADeliver answers) u))) as Hnd by (by rewrite <- Hreq).
  apply NoDup_cons in Hnd as [Hi Hnd].
  assert (exists g0, u_jobs u !! i = Some g0 /\ unanswered g0) as (g0 & Hg0 & Hpc & _) by (apply H10; rewrite Hreq; by left).
  assert (g0 = g) as -> by congruence.
  destruct (inv_lookup u i g Hu Hg) as (_ & Gp & Gc & Gd & Gu).
  set (f := answer err). assert (forall g, g_job (f g) = g_job g) as Hf by done. split; try done.
  - by rewrite <- (all_jobs_on i f Hf) in H2.
  - by rewrite <- (all_jobs_on i f Hf) in H3.
  - cbn. rewrite H4. pose proof (count_alter active f i _ g Hg) as Hc. cbn in Hc. lia.
  - by apply (room_on i f u g Hg).
  - intros l k. cbn. rewrite H6. setoid_rewrite lookup_alter_job. split.
    + intros (g' & Hg' & Hle & Hli). destruct (decide (k = i)) as [->|Hne]; [|exists g'; eauto].
      assert (g' = g) as -> by congruence. exists (f g). split; [left; eauto | done].
    + intros (g' & [[-> (g1 & Hg1 & ->)]|[_ Hg']] & Hle & Hli); [|by exists g'].
      assert (g1 = g) as -> by congruence. by exists g.
  - apply (true_on i f u g); [done | | done]. split_and!; try done. cbn. by rewrite Hpc.
  - intros k. change (requests _) with (requests (set_ackl (ADeliver answers) u)). cbn. setoid_rewrite lookup_alter_job.
    assert (k ∈ requests (set_ackl (ADeliver answers) u) <-> k ∈ requests u /\ k <> i) as ->.
    { rewrite Hreq, elem_of_cons. split; [|naive_solver]. intros Hk. split; [by right|]. by intros ->. }
    rewrite H10. split.
    + intros [(g' & Hg' & Hw) Hne]. exists g'. eauto.
    + intros (g' & [[-> (g1 & Hg1 & ->)]|[Hne Hg']] & Hw); [by destruct Hw | eauto].
  - split; [done|]. eapply Forall_impl; [exact Hans|]. intros a. by apply (ans_ok_on i f Hf).
  - by apply (hb_ok_on i f Hf).
  - pose proof (phase_on i f u g Hg ltac:(by rewrite Hpc) H13) as Hp.
    pose proof (not_joined_ackl u ltac:(by rewrite El) ltac:(by rewrite El)) as Hj.
    unfold phase_ok in *. cbn in *. change (joined (on_job i f u)) with (joined u) in Hp.
    destruct (u_main u); try done; destruct Hp as (_ & _ & _ & Hp); congruence.
Qed.

Lemma ack_step_inv u u' : ack_step u u' -> inv u -> inv u'.
Proof.
  intros Hst Hu. pose proof (i_ackl _ Hu) as Ha.
  destruct Hst as [u El Hs|u i rest El Ea|u batch i rest El Hlt Ea|u batch f w' errs El Hc Hf Hcall|u i err answers El|u El];
    rewrite El in Ha; cbn in Ha.
  - apply inv_ackl; [by rewrite El.. | done | unfold requests; by rewrite El | done].
  - apply (inv_collect u i rest []); [done | by left | done].
  - apply (inv_collect u i rest batch); [done | by right | done].
  - assert (Forall (known u) batch) as Hk.
    { apply Forall_forall. intros i Hi. assert (i ∈ requests u) as Hr by (unfold requests; rewrite El; set_solver).
      apply (i_reqs _ Hu) in Hr as (g & Hg & _). by eapply lookup_lt_Some. }
    destruct (batch_answers ends u f batch w' errs Hu Hk) as (Hl & Hans & Hlen); [by apply (law_AckBatch B V) | done|].
    apply inv_ackl; [cbn; by rewrite El.. | by split; [apply Ha|] | | by apply inv_world].
    unfold requests. cbn. rewrite El. f_equal. rewrite fst_zip; [done | lia].
  - by apply inv_deliver.
  - apply inv_ackl; [by rewrite El.. | by destruct Ha | unfold requests; by rewrite El | done].
Qed.

(** ** Every step keeps the invariant *)

Lemma inv_stats u s :
  (s = SStopped -> u_ctx u = true) -> s = SStopped \/ joined u = false -> inv u -> inv (set_stats s u).
Proof.
  intros Hs Hj [H1 H2 H3 H4 H5 H6 H7 H8 H9 H10 H11 H12 H13 H14]. split; try done.
  unfold phase_ok in *. cbn. destruct (u_main u); try done; destruct H13 as (Hc & Hst & Hg & Hjo); split_and!; try done;
    (destruct Hj as [->|Hj]; [|congruence]); unfold joined in *; cbn; by destruct (u_hb u), (u_ackl u), (u_stats u).
Qed.

Lemma stat_step_inv u u' : stat_step u u' -> inv u -> inv u'.
Proof.
  intros Hst Hu. assert (u_stats u <> SStopped -> joined u = false) as Hj.
  { intros Hne. unfold joined. by destruct (u_hb u), (u_ackl u), (u_stats u). }
  destruct Hst as [u w' evs Es Hr|u Es|u Es Hc]; rewrite Es in Hj; specialize (Hj ltac:(done)).
  - unfold report_stats in Hr. pose proof (law_Stats B V (u_world u) (i_ok _ Hu)) as Hl.
    destruct (be_Stats (u_world u)) as [w1 r]. cbn in Hl. simplify_eq.
    apply inv_stats; [done | by right|]. apply inv_events_add; [|by apply inv_world]. destruct r; by repeat constructor.
  - by apply inv_stats; [|right|].
  - by apply inv_stats; [|left|].
Qed.

Lemma ustep_inv u u' : step u u' -> inv u -> inv u'.
Proof.
  destruct 1 as [u u' H|i u u' H|u u' H|u u' H|u u' H|u|u w' H]; intros Hu.
  - by eapply main_step_inv.
  - by eapply run_job_inv.
  - by eapply beat_step_inv.
  - by eapply ack_step_inv.
  - by eapply stat_step_inv.
  - by apply inv_ctx.
  - apply inv_world; [|done]. apply Houtside; [done | apply Hu].
Qed.

Lemma run_start_inv w u : 0 <= wc_Concurrency cfg -> lb_ok w -> run_start cfg w = Ok u -> inv u.
Proof.
  intros Hc Hok. unfold run_start. case_bool_decide; [done|]. intros [= <-].
  split; cbn; try done; try constructor.
  - intros Hi. by rewrite lookup_empty in Hi.
  - intros (g & Hg & _). by rewrite lookup_nil in Hg.
  - unfold requests. cbn. destruct be_AckBatch; constructor.
  - unfold requests. cbn. destruct be_AckBatch; cbn; set_solver.
  - intros (g & Hg & _). by rewrite lookup_nil in Hg.
  - destruct be_AckBatch eqn:Eb; cbn; rewrite ?Eb; by eauto.
Qed.

Lemma reach_inv w u0 u :
  0 <= wc_Concurrency cfg -> lb_ok w -> run_start cfg w = Ok u0 -> rtc step u0 u -> inv u.
Proof.
  intros Hc Hok H0 Hr. eapply (rtc_ind_r (fun u => inv u)); [by eapply run_start_inv | | exact Hr].
  intros x y _ Hxy Hx. by eapply ustep_inv.
Qed.
End ok.
