(* ===== verification/WorkerRunProps.v ===== *)
(** * Guarantees of a worker's goroutines

    In every interleaving of the loop, the jobs, the heartbeat, the ack loop and the
    stats, over any backend with [LeaseLaws]. *)

From S2P Require Import Prelude GoNum GoTime Errors Job Retry Store Backend Worker LeaseLaws WorkerRun WorkerRunOk.
From stdpp Require Import strings gmap relations.

Open Scope Z_scope.

(** ** The two models of a worker agree *)

Section agree.
Context {W : Type} {B : Backend W} {E : WorkerEnv W}.
Context (cfg : WorkerConfig) (handlers : gmap string (HandlerFunc W)).

(** A goroutine on its own until [handleOne] returns; its context's cause is what
    [WorkerEnv] says after the handler ran. *)
Fixpoint alone (fuel : nat) (g : jobg) (w : W) : option (W * (list event * option error)) :=
  match g_pc g with
  | JRet err => Some (w, ([], err))
  | _ =>
      match fuel with
      | O => None
      | S fuel' =>
          '(w', (evs, pc)) ← job_step cfg handlers g w;
          let cause := match g_pc g with JRunning => job_cause (g_job g) w' | _ => g_cause g end in
          '(w2, (evs2, err)) ← alone fuel' (JobG (g_job g) pc cause (g_done g)) w';
          Some (w2, (evs ++ evs2, err))
      end
  end.

Definition is_ret (p : jpc) : bool := match p with JRet _ => true | _ => false end.

Lemma alone_ret n job err c d w : alone n (JobG job (JRet err) c d) w = Some (w, ([], err)).
Proof. by destruct n. Qed.

Lemma alone_next n job pc c d w w1 evs pc1 :
  is_ret pc = false -> job_step cfg handlers (JobG job pc c d) w = Some (w1, (evs, pc1)) ->
  alone (S n) (JobG job pc c d) w =
  '(w2, (evs2, err)) ← alone n (JobG job pc1 (match pc with JRunning => job_cause job w1 | _ => c end) d) w1;
  Some (w2, (evs ++ evs2, err)).
Proof. intros Hr Hs. cbn [alone g_pc g_job g_cause g_done]. rewrite Hs. by destruct pc. Qed.

(** The last step: it returns. *)
Lemma alone_last n job pc c d w w1 evs err :
  is_ret pc = false -> job_step cfg handlers (JobG job pc c d) w = Some (w1, (evs, JRet err)) ->
  alone (S n) (JobG job pc c d) w = Some (w1, (evs, err)).
Proof. intros Hr Hs. rewrite (alone_next n _ _ _ _ _ _ _ _ Hr Hs), alone_ret. cbn. by rewrite app_nil_r. Qed.

Lemma alone_dead n job reason c d w :
  alone (S n) (JobG job (JDead reason) c d) w = Some (deadLetter job reason w).
Proof.
  destruct (deadLetter job reason w) as [w1 [evs err]] eqn:Ed. apply alone_last; [done|].
  unfold job_step, job_dead. cbn. by rewrite Ed.
Qed.

(** Without interleaving, and with acks sent one by one, the goroutine does what
    [handleOne] does: same calls, same reports, same result. *)
Theorem alone_handleOne job w :
  be_AckBatch = None -> alone 4 (JobG job JStart None None) w = Some (handleOne cfg handlers job w).
Proof.
  intros Hb. rewrite (alone_next 3 job JStart None None w w _ _ eq_refl (f_equal (fun x => Some (w, x)) (surjective_pairing _))).
  unfold job_start, handleOne. cbv zeta. cbn [g_job]. destruct (_ <? _); cbn [fst snd].
  { rewrite alone_dead. by destruct (deadLetter _ _ _) as [w' [evs err]]. }
  destruct (handlers !! Task job) as [h|] eqn:Eh.
  2: { destruct (_ <=? _); cbn [fst snd]; [|by rewrite alone_ret]. rewrite alone_dead.
       by destruct (deadLetter _ _ _) as [w' [evs err]]. }
  cbn [fst snd]. destruct (h job w) as [w1 res] eqn:Er.
  erewrite (alone_next 2 job JRunning); [|done | unfold job_step; cbn [g_pc g_job]; rewrite Eh, Er; reflexivity].
  rewrite (alone_next 1 job (JRan res) _ None w1 w1 _ _ eq_refl (f_equal (fun x => Some (w1, x)) (surjective_pairing _))).
  cbn [g_cause g_job]. unfold job_ran. destruct (job_cause job w1) as [c|]; cbn [fst snd]; [by rewrite alone_ret|].
  destruct (ResErr res) as [failure|]; cbn [fst snd].
  - destruct (_ || _).
    + rewrite alone_dead. by destruct (deadLetter _ _ _) as [w' [evs err]].
    + destruct (be_Retry job (now w1 + NextDelay (wc_RetryPolicy cfg) (wrap64 (Attempt job + 1)) (rand_Float64 w1)) w1)
        as [w' [e|]] eqn:Ey; (erewrite alone_last; [|done | unfold job_step, job_retry; cbn [g_pc g_job]; rewrite Ey; reflexivity]);
        reflexivity.
  - unfold ack. rewrite Hb. destruct (be_Ack job w1) as [w' [e|]] eqn:Ey;
      (erewrite alone_last; [|done | unfold job_step; cbn [g_pc g_job]; rewrite Hb, Ey; reflexivity]); reflexivity.
Qed.

(** The two halves make up [fetch]. *)
Theorem halves_fetch limit lr w :
  fetch cfg limit lr w =
  let '(w1, (lr1, (jobs, err))) := recover_half cfg limit lr w in
  match err with
  | Some e => (w1, (lr1, (jobs, Some e)))
  | None => let '(w2, out) := claim_half cfg limit jobs w1 in (w2, (lr1, out))
  end.
Proof.
  unfold fetch, recover_half, claim_half. destruct (_ <=? _).
  - destruct (be_RecoverExpired _ _ _ _) as [w1 [jobs [e|]]]; [done|].
    destruct (_ <? limit); [|done]. by destruct (be_Claim _ _ _ _) as [w2 [claimed err]].
  - cbn [length]. destruct (_ <? limit); [|done]. by destruct (be_Claim _ _ _ _) as [w2 [claimed err]].
Qed.
End agree.

Section props.
Context {W : Type} {B : Backend W} {E : WorkerEnv W} {V : Leases W} {LL : LeaseLaws B V}.
Context (cfg : WorkerConfig) (handlers : gmap string (HandlerFunc W)) (outside : W -> W -> Prop).
Context (Hhandler : forall task h job w, handlers !! task = Some h -> lb_ok w -> later w (h job w).1).
Context (Houtside : forall w w', outside w w' -> lb_ok w -> later w w').
Context (Hconc : 0 < wc_Concurrency cfg).
Context (w0 : W) (u0 : run W) (Hw0 : lb_ok w0) (Hu0 : run_start cfg w0 = Ok u0).

Abbreviation step := (ustep cfg handlers outside).
Abbreviation inv := (inv cfg handlers).

Lemma reached u : rtc step u0 u -> inv u.
Proof. intros Hr. by eapply (reach_inv cfg handlers outside Hhandler Houtside w0 u0); [lia|..]. Qed.

(** ** Concurrency *)

(** C23: in every interleaving the counter of jobs in flight is exact, and at no
    time are more than [Concurrency] jobs in flight or claimed to be started. *)
Theorem run_bounded u :
  rtc step u0 u ->
  u_inFlight u = Z.of_nat (count active (u_jobs u)) /\
  Z.of_nat (count active (u_jobs u) + length (claimed (u_main u))) <= wc_Concurrency cfg.
Proof.
  intros Hr. pose proof (reached u Hr) as Hu. split; [apply Hu|].
  pose proof (i_room _ _ _ Hu) as H. unfold room in H. destruct (u_main u); cbn in *; lia.
Qed.

(** ** The map of running jobs *)

(** The heartbeat misses no job: in every interleaving the map of running jobs
    has exactly the jobs whose goroutine has not finished, each under its own lease,
    also when a job is redelivered to the worker that still runs it. *)
Theorem running_exact u l i :
  rtc step u0 u ->
  u_running u !! l = Some i <->
  exists g, u_jobs u !! i = Some g /\ JLease (g_job g) = l /\ listed (g_pc g) = true.
Proof. intros Hr. apply (i_running _ _ _ (reached u Hr)). Qed.

(** ** Reports *)

(** The worker's reports are true in every interleaving: a job reported as
    completed, retried, dead-lettered or lost, and a job whose context was cancelled
    because its lease is lost, has a lease that will never be honoured again. *)
Theorem reports_true u :
  rtc step u0 u ->
  Forall (truthful (u_world u)) (u_events u) /\
  forall i g, u_jobs u !! i = Some g -> g_cause g = Some ErrLeaseLost -> over (u_world u) (JLease (g_job g)).
Proof.
  intros Hr. pose proof (reached u Hr) as Hu. split; [apply Hu|]. intros i g Hg Hc.
  destruct (inv_lookup _ _ u i g Hu Hg) as (_ & _ & Gc & _). by rewrite Hc in Gc.
Qed.

(** ** The end *)

(** C25: when [Run] returns nothing of the worker is left: every job's goroutine is
    gone, no job is running or in flight, no ack waits for an answer, the background
    goroutines have stopped, and no goroutine can call the backend any more. *)
Theorem returns_clean u :
  rtc step u0 u -> u_main u = MReturned ->
  Forall (fun g => g_pc g = JGone) (u_jobs u) /\ u_running u = ∅ /\ u_inFlight u = 0 /\ requests u = [] /\
  u_hb u = HStopped /\ u_stats u = SStopped /\
  forall u', step u u' -> u_main u' = MReturned /\ (u_world u' = u_world u \/ outside (u_world u) (u_world u')).
Proof.
  intros Hr Em. pose proof (reached u Hr) as Hu. pose proof (i_phase _ _ _ Hu) as Hp. unfold phase_ok in Hp.
  rewrite Em in Hp. destruct Hp as (Hctx & Hstop & Hgone & Hj). apply all_gone_iff in Hgone as Hall.
  assert (u_hb u = HStopped /\ u_stats u = SStopped /\ (u_ackl u = AOff \/ u_ackl u = AStopped)) as (Hh & Hs & Ha).
  { unfold joined in Hj. destruct (u_hb u), (u_ackl u), (u_stats u); try done; auto. }
  assert (forall i g, u_jobs u !! i = Some g -> g_pc g = JGone) as Hgo by (intros i g Hg; by apply (Forall_lookup_1 _ _ _ _ Hall Hg)).
  split_and!; try done.
  - apply map_empty. intros l. destruct (u_running u !! l) as [i|] eqn:Hi; [|done].
    apply (i_running _ _ _ Hu) in Hi as (g & Hg & _ & Hl). by rewrite (Hgo i g Hg) in Hl.
  - rewrite (i_inFlight _ _ _ Hu). assert (count active (u_jobs u) = 0%nat) as ->; [|done].
    apply count_none. eapply Forall_impl; [exact Hall|]. by intros g ->.
  - destruct (requests u) as [|i l] eqn:Er; [done|]. assert (i ∈ requests u) as Hi by (rewrite Er; by left).
    apply (i_reqs _ _ _ Hu) in Hi as (g & Hg & Hp & _). by rewrite (Hgo i g Hg) in Hp.
  - intros u' Hst. destruct Hst as [u u' H|i u u' H|u u' H|u u' H|u u' H|u|u w' H].
    + destruct H; try congruence. destruct H; congruence.
    + unfold run_job in H. destruct (u_jobs u !! i) as [g|] eqn:Hg; [|done]. unfold job_step in H. by rewrite (Hgo i g Hg) in H.
    + destruct H; congruence.
    + destruct H, Ha; congruence.
    + destruct H; congruence.
    + split; [done | by left].
    + split; [done | by right].
Qed.
End props.
