(* ===== verification/WorkerRunLive.v ===== *)
(** * A worker can always finish

    From every state its goroutines can reach, [Run] can return: no goroutine waits
    for something that cannot come. The phases are shown one after the other: acks
    are answered, jobs finish, the background goroutines stop. *)

From S2P Require Import Prelude GoNum GoTime Errors Job Retry Store Backend Worker LeaseLaws WorkerRun WorkerRunOk.
From stdpp Require Import strings gmap relations.

Open Scope Z_scope.

Lemma pcs_alter f i (js : list jobg) : (forall g, g_pc (f g) = g_pc g) -> g_pc <$> alter f i js = g_pc <$> js.
Proof.
  intros Hf. apply list_eq. intros j. rewrite !list_lookup_fmap. destruct (decide (i = j)) as [->|Hne].
  - rewrite list_lookup_alter_eq. destruct (js !! j); cbn; by rewrite ?Hf.
  - by rewrite list_lookup_alter_ne.
Qed.

(** How far a goroutine is from its end. *)
Definition rank (p : jpc) : nat :=
  match p with
  | JStart => 9 | JRunning => 8 | JRan _ => 7 | JAck => 6 | JAckWait | JRetry _ | JDead _ => 5
  | JRet _ => 4 | JReleased => 3 | JFreed => 2 | JGone => 0
  end.

Definition distance (pcs : list jpc) : nat := list_sum (rank <$> pcs).

Lemma distance_cons p l : distance (p :: l) = (rank p + distance l)%nat.
Proof. done. Qed.

Lemma distance_alter f i (js : list jobg) g :
  js !! i = Some g -> (rank (g_pc (f g)) < rank (g_pc g))%nat ->
  (distance (g_pc <$> alter f i js) < distance (g_pc <$> js))%nat.
Proof.
  intros Hi Hlt. revert i Hi. induction js as [|g0 js IH]; intros [|i] Hi; [done | done | |].
  - cbn in Hi. simplify_eq. change (alter f 0%nat (g :: js)) with (f g :: js). rewrite !fmap_cons, !distance_cons. lia.
  - change (alter f (S i) (g0 :: js)) with (g0 :: alter f i js). rewrite !fmap_cons, !distance_cons.
    specialize (IH i Hi). lia.
Qed.

Section live.
Context {W : Type} {B : Backend W} {E : WorkerEnv W} {V : Leases W} {LL : LeaseLaws B V}.
Context (cfg : WorkerConfig) (handlers : gmap string (HandlerFunc W)) (outside : W -> W -> Prop).
Context (Hhandler : forall task h job w, handlers !! task = Some h -> lb_ok w -> later w (h job w).1).
Context (Houtside : forall w w', outside w w' -> lb_ok w -> later w w').
Context (Hconc : 0 < wc_Concurrency cfg).

Abbreviation step := (ustep cfg handlers outside).
Abbreviation inv := (inv cfg handlers).
Implicit Types u : run W.

Lemma rtc_inv u u' : rtc step u u' -> inv u -> inv u'.
Proof. induction 1 as [|u u1 u2 Hs _ IH]; [done|]. intros Hu. apply IH. by eapply ustep_inv. Qed.

(** What a phase leaves alone. *)
Definition keeps u u' : Prop := u_main u' = u_main u /\ u_ctx u' = u_ctx u /\ u_stop u' = u_stop u.

#[local] Instance keeps_preorder : PreOrder keeps.
Proof. split; [done|]. intros u1 u2 u3 (H1 & H2 & H3) (G1 & G2 & G3). unfold keeps. by rewrite G1, G2, G3. Qed.

(** ** Acks are answered *)

Definition frame_acks u u' : Prop :=
  keeps u u' /\ g_pc <$> u_jobs u' = g_pc <$> u_jobs u /\ u_hb u' = u_hb u /\ u_stats u' = u_stats u.

#[local] Instance frame_acks_preorder : PreOrder frame_acks.
Proof.
  split; [done|]. intros u1 u2 u3 (H0 & H1 & H2 & H3) (G0 & G1 & G2 & G3). unfold frame_acks. rewrite G1, G2, G3.
  split; [by etrans | done].
Qed.

Definition ack_work u : nat :=
  (5 * length (requests u) + length (u_acks u) +
   match u_ackl u with AIdle => 2 | ACollect _ => 1 | ADeliver [] => 3 | _ => 0 end)%nat.

Definition ack_running u : Prop := u_ackl u <> AOff /\ u_ackl u <> AStopped.

(** The ack loop has work to do, and does some. *)
Lemma ack_progress u :
  inv u -> ack_running u -> requests u <> [] \/ u_ackl u <> AIdle ->
  exists u', step u u' /\ frame_acks u u' /\ ack_running u' /\ (ack_work u' < ack_work u)%nat.
Proof.
  intros Hu [Hn1 Hn2] Hw. pose proof (i_ackl _ _ _ Hu) as Ha. unfold ack_work, ack_running.
  destruct (u_ackl u) as [| |batch|answers|] eqn:El; try done; cbn in Ha.
  - destruct (u_acks u) as [|i rest] eqn:Ea; [unfold requests in Hw; rewrite El, Ea in Hw; naive_solver|].
    eexists. split; [apply u_ack_step; by apply a_first|]. split_and!; try done.
    unfold requests. cbn. rewrite El, Ea, !length_app. cbn. lia.
  - destruct Ha as [[f Hf] Hne]. destruct (decide ((maxBatch <= length batch)%nat \/ u_acks u = [])) as [Hc|Hc].
    + destruct (f (jobs_of (u_jobs u) batch) (u_world u)) as [w' errs] eqn:Hcall.
      assert (Forall (known u) batch) as Hk.
      { apply Forall_forall. intros i Hi. assert (i ∈ requests u) as Hr by (unfold requests; rewrite El; set_solver).
        apply (i_reqs _ _ _ Hu) in Hr as (g & Hg & _). by eapply lookup_lt_Some. }
      destruct (batch_answers _ _ ends u f batch w' errs Hu Hk) as (_ & _ & Hlen); [by apply (law_AckBatch B V) | done|].
      eexists. split; [apply u_ack_step; by eapply a_call|]. split_and!; try done.
      unfold requests. cbn. rewrite El, !length_app, length_fmap, length_zip.
      destruct batch as [|b batch]; [done|]. destruct errs as [|e errs]; [done|]. cbn in *. lia.
    + destruct (u_acks u) as [|i rest] eqn:Ea; [naive_solver|].
      eexists. split; [apply u_ack_step; apply (a_more u batch i rest); [done | lia | done]|]. split_and!; try done.
      unfold requests. cbn. rewrite El, Ea, !length_app. cbn. lia.
  - destruct answers as [|[i err] answers].
    + eexists. split; [apply u_ack_step; by apply a_delivered|]. split_and!; try done.
      unfold requests. cbn. rewrite El. cbn. lia.
    + eexists. split; [apply u_ack_step; by apply a_deliver|]. split_and!; try done.
      * split_and!; try done. by apply pcs_alter.
      * unfold requests. cbn. rewrite El, !length_app. cbn. destruct answers; lia.
Qed.

Lemma drain_acks u :
  inv u -> ack_running u -> exists u', rtc step u u' /\ frame_acks u u' /\ requests u' = [] /\ u_ackl u' = AIdle.
Proof.
  remember (ack_work u) as n eqn:En. revert u En. induction n as [n IH] using lt_wf_ind. intros u -> Hu Hr.
  destruct (decide (requests u = [])) as [Hq|Hq]; [destruct (decide (u_ackl u = AIdle)) as [Hi|Hi]|].
  { exists u. split_and!; try done. }
  all: destruct (ack_progress u Hu Hr) as (u1 & Hs & Hf & Hr1 & Hlt); [by auto|];
    destruct (IH (ack_work u1) Hlt u1 eq_refl) as (u2 & Hs2 & Hf2 & Hq2); [by eapply ustep_inv | done|];
    exists u2; (split; [by eapply rtc_l|]; split; [by etrans | done]).
Qed.

(** ** Jobs finish *)

(** A goroutine that does not wait for an ack moves on. *)
Lemma job_moves u i g :
  inv u -> u_jobs u !! i = Some g -> g_pc g <> JGone ->
  (g_pc g = JAck -> Z.of_nat (length (u_acks u)) < wc_Concurrency cfg) -> ~ unanswered g ->
  exists u', run_job cfg handlers i u = Some u' /\ keeps u u' /\
    (distance (g_pc <$> u_jobs u') < distance (g_pc <$> u_jobs u))%nat.
Proof.
  intros Hu Hg Hne Hroom Hna. destruct (inv_lookup _ _ u i g Hu Hg) as (_ & Gp & _ & _ & _).
  assert (forall pc w' evs, job_step cfg handlers g (u_world u) = Some (w', (evs, pc)) -> (rank pc < rank (g_pc g))%nat) as Hrank.
  { unfold job_step. intros pc w' evs Hs. destruct (g_pc g) eqn:Epc; try done.
    - injection Hs as _ Hs. unfold job_start in Hs. repeat case_match; simplify_eq; cbn; lia.
    - destruct (handlers !! _) as [h|]; [|done]. destruct (h _ _). simplify_eq. cbn. lia.
    - injection Hs as _ Hs. unfold job_ran in Hs. repeat case_match; simplify_eq; cbn; lia.
    - destruct be_AckBatch; [done|]. destruct (be_Ack _ _) as [w1 [e|]]; simplify_eq/=; lia.
    - destruct (g_done g) as [[e|]|]; simplify_eq/=; lia.
    - injection Hs as Hs. unfold job_retry in Hs. destruct (be_Retry _ _ _) as [w1 [e|]]; simplify_eq; cbn; lia.
    - injection Hs as Hs. unfold job_dead in Hs. destruct (deadLetter _ _ _) as [w1 [evs1 err]]. simplify_eq. cbn. lia. }
  assert (forall x, job_step cfg handlers g (u_world u) = Some x ->
    exists u', ('(w', (evs, pc)) ← job_step cfg handlers g (u_world u);
      Some (add_events evs (set_world w' (on_job i (set_pc pc) u)))) = Some u' /\ keeps u u' /\
    (distance (g_pc <$> u_jobs u') < distance (g_pc <$> u_jobs u))%nat) as Hgo.
  { intros [w' [evs pc]] Hs. rewrite Hs. eexists. split; [done|]. split; [done|]. eapply distance_alter; [done|]. by eapply Hrank. }
  assert (forall pc, (rank pc < rank (g_pc g))%nat ->
    (distance (g_pc <$> alter (set_pc pc) i (u_jobs u)) < distance (g_pc <$> u_jobs u))%nat) as Hdef.
  { intros pc Hpc. by apply (distance_alter (set_pc pc) i _ g Hg). }
  unfold run_job. rewrite Hg. destruct (g_pc g) eqn:Epc; try done.
  - eapply Hgo. unfold job_step. by rewrite Epc.
  - destruct Gp as [h Hh]. destruct (h (g_job g) (u_world u)) as [w1 res] eqn:Er.
    eapply Hgo. unfold job_step. by rewrite Epc, Hh, Er.
  - eapply Hgo. unfold job_step. by rewrite Epc.
  - destruct be_AckBatch eqn:Eb.
    + rewrite (proj2 (Z.ltb_lt _ _)) by auto. eexists. split; [done|]. split; [done|]. apply Hdef. cbn. lia.
    + destruct (be_Ack (g_job g) (u_world u)) as [w1 err] eqn:Ea. eapply Hgo. unfold job_step. by rewrite Epc, Eb, Ea.
  - destruct (g_done g) as [err|] eqn:Ed; [|by destruct Hna]. eapply Hgo. unfold job_step. by rewrite Epc, Ed.
  - eapply Hgo. unfold job_step. by rewrite Epc.
  - eapply Hgo. unfold job_step. by rewrite Epc.
  - eexists. split; [done|]. split; [done|]. apply Hdef. cbn. lia.
  - eexists. split; [done|]. split; [done|]. apply Hdef. cbn. lia.
  - eexists. split; [done|]. split; [done|]. apply Hdef. cbn. lia.
Qed.

(** Every job's goroutine can come to its end while the ack loop runs. *)
Lemma jobs_finish u :
  inv u -> u_stop u = false -> exists u', rtc step u u' /\ keeps u u' /\ all_gone u' = true.
Proof.
  remember (distance (g_pc <$> u_jobs u)) as n eqn:En. revert u En. induction n as [n IH] using lt_wf_ind.
  intros u -> Hu Hstop. destruct (all_gone u) eqn:Hgone; [by exists u|].
  assert (exists i g, u_jobs u !! i = Some g /\ g_pc g <> JGone) as (i & g & Hg & Hne).
  { assert (~ Forall (fun g => g_pc g = JGone) (u_jobs u)) as Hn by (rewrite <- all_gone_iff; congruence).
    apply not_Forall_Exists in Hn; [|intros x; destruct (g_pc x); (by left) || (by right)].
    apply Exists_exists in Hn as (g & Hin & Hp). apply list_elem_of_lookup in Hin as (i & Hi). by exists i, g. }
  (* with the ack loop idle, goroutine [i] can move *)
  assert (exists u1 g1, rtc step u u1 /\ keeps u u1 /\ g_pc <$> u_jobs u1 = g_pc <$> u_jobs u /\
    u_jobs u1 !! i = Some g1 /\ g_pc g1 = g_pc g /\ ~ unanswered g1 /\ Z.of_nat (length (u_acks u1)) < wc_Concurrency cfg)
    as (u1 & g1 & Hr1 & Hk1 & Hp1 & Hg1 & Hpc1 & Hna & Hroom).
  { destruct (decide (u_ackl u = AOff)) as [Hoff|Hon].
    - exists u, g. split_and!; try done.
      + intros Hna. pose proof (i_ackl _ _ _ Hu) as Ha. rewrite Hoff in Ha. destruct Ha as [_ Ha].
        assert (i ∈ requests u) as Hi by (apply (i_reqs _ _ _ Hu); eauto). unfold requests in Hi. rewrite Hoff, Ha in Hi.
        by apply not_elem_of_nil in Hi.
      + pose proof (i_ackl _ _ _ Hu) as Ha. rewrite Hoff in Ha. destruct Ha as [_ ->]. done.
    - destruct (drain_acks u Hu) as (u1 & Hr & (Hk & Hp & _) & Hq & Hi).
      { split; [done|]. intros Hs. pose proof (i_ackl _ _ _ Hu) as Ha. rewrite Hs in Ha. destruct Ha as [_ Ha]. congruence. }
      assert (exists g1, u_jobs u1 !! i = Some g1 /\ g_pc g1 = g_pc g) as (g1 & Hg1 & Hpc1).
      { assert ((g_pc <$> u_jobs u1) !! i = Some (g_pc g)) as Hl by (by rewrite Hp, list_lookup_fmap, Hg).
        rewrite list_lookup_fmap in Hl. destruct (u_jobs u1 !! i) as [g1|]; [|done]. cbn in Hl. simplify_eq. eauto. }
      exists u1, g1. split_and!; try done.
      + intros Hna. assert (i ∈ requests u1) as Hi1.
        { apply (i_reqs _ _ _ (rtc_inv _ _ Hr Hu)). eauto. }
        rewrite Hq in Hi1. by apply not_elem_of_nil in Hi1.
      + unfold requests in Hq. apply app_eq_nil in Hq as [-> _]. done. }
  pose proof (rtc_inv _ _ Hr1 Hu) as Hu1.
  destruct (job_moves u1 i g1 Hu1 Hg1) as (u2 & Hs2 & Hk2 & Hd2); [by rewrite Hpc1 | by intros _ | done|].
  destruct (IH (distance (g_pc <$> u_jobs u2))) with (u := u2) as (u3 & Hr3 & Hk3 & Hg3).
  - by rewrite Hp1 in Hd2.
  - done.
  - by eapply run_job_inv.
  - destruct Hk1 as (_ & _ & Hs1), Hk2 as (_ & _ & Hs2'). congruence.
  - exists u3. split; [|split; [|done]].
    + etrans; [exact Hr1|]. eapply rtc_l; [by eapply u_job_step | done].
    + etrans; [exact Hk1|]. by etrans.
Qed.

(** ** The background goroutines stop *)

Definition frame_hb u u' : Prop := keeps u u' /\ u_ackl u' = u_ackl u /\ u_stats u' = u_stats u.

#[local] Instance frame_hb_preorder : PreOrder frame_hb.
Proof.
  split; [done|]. intros u1 u2 u3 (H0 & H1 & H2) (G0 & G1 & G2). unfold frame_hb. rewrite G1, G2. split; [by etrans | done].
Qed.

Definition hb_work (h : hbpc) : nat :=
  match h with
  | HIdle | HStopped => 0
  | HRange todo seen => 3 + 11 * length todo + 10 * length seen
  | HBatch held => 1 + 10 * length held
  | HEach batch rem errs rest => 3 + length batch + length rem + 10 * length rest
  | HCancel answers rest => 2 + length answers + 10 * length rest
  end.

Lemma take_drop_length (l : list nat) : l <> [] ->
  (length (take maxBatch l) + length (drop maxBatch l) = length l /\ 1 <= length (take maxBatch l))%nat.
Proof. intros Hl. rewrite length_take, length_drop. destruct l; [done|]. unfold maxBatch. cbn [length]. lia. Qed.

Lemma hb_progress u :
  inv u -> u_hb u <> HIdle -> u_hb u <> HStopped ->
  exists u', step u u' /\ frame_hb u u' /\ u_hb u' <> HStopped /\ (hb_work (u_hb u') < hb_work (u_hb u))%nat.
Proof.
  intros Hu Hn1 Hn2. pose proof (i_hb _ _ _ Hu) as Hh.
  destruct (u_hb u) as [|todo seen|held|batch rem errs rest|answers rest|] eqn:Eh; try done; cbn in Hh.
  - destruct todo as [|i todo].
    + eexists. split; [apply u_beat_step; by apply h_ranged|]. split_and!; try done. cbn. lia.
    + eexists. split; [apply u_beat_step; by apply h_visit|]. split_and!; try done. cbn. rewrite length_app. cbn. lia.
  - destruct (decide (held = [])) as [->|Hne].
    { eexists. split; [apply u_beat_step; by apply h_beaten|]. split_and!; try done. cbn. lia. }
    destruct (take_drop_length held Hne) as [Hsum Hone]. destruct be_ExtendBatch as [f|] eqn:Ef.
    + destruct (f (jobs_of (u_jobs u) (take maxBatch held)) (u_world u)) as [w' errs] eqn:Hc.
      eexists. split; [apply u_beat_step; by eapply h_batch|]. split_and!; try done.
      cbn [u_hb set_hb hb_work]. rewrite length_zip. lia.
    + eexists. split; [apply u_beat_step; by eapply h_each|]. split_and!; try done. cbn [u_hb set_hb hb_work]. lia.
  - destruct rem as [|i rem].
    + eexists. split; [apply u_beat_step; by apply h_extended|]. split_and!; try done.
      cbn [u_hb set_hb hb_work length]. rewrite length_zip. lia.
    + destruct Hh as (d & -> & Hk & _). assert (known u i) as Hi.
      { rewrite Forall_forall in Hk. apply Hk. set_solver. }
      apply lookup_lt_is_Some_2 in Hi as [g Hg]. destruct (be_Extend (g_job g) (u_world u)) as [w' err] eqn:Hc.
      eexists. split; [apply u_beat_step; by eapply h_extend|]. split_and!; try done. cbn. lia.
  - destruct answers as [|[i err] answers].
    + eexists. split; [apply u_beat_step; by apply h_answered|]. split_and!; try done. cbn. lia.
    + eexists. split; [apply u_beat_step; by apply h_answer|]. split_and!; try by destruct (is_lost err). cbn. lia.
Qed.

Lemma hb_idle u :
  inv u -> u_hb u <> HStopped -> exists u', rtc step u u' /\ frame_hb u u' /\ u_hb u' = HIdle.
Proof.
  remember (hb_work (u_hb u)) as n eqn:En. revert u En. induction n as [n IH] using lt_wf_ind. intros u -> Hu Hn.
  destruct (u_hb u) eqn:Eh; try done; [by exists u|..]; rewrite <- Eh in *;
    (destruct (hb_progress u Hu ltac:(by rewrite Eh) Hn) as (u1 & Hs & Hf & Hn1 & Hlt);
     destruct (IH _ Hlt u1 eq_refl) as (u2 & Hr & Hf2 & Hi); [by eapply ustep_inv | done|];
     exists u2; split; [by eapply rtc_l | split; [by etrans | done]]).
Qed.

(** The ack loop and the stats stop. *)
Lemma acks_stop u :
  inv u -> u_stop u = true ->
  exists u', rtc step u u' /\ keeps u u' /\ (u_ackl u' = AOff \/ u_ackl u' = AStopped) /\ u_stats u' = u_stats u.
Proof.
  intros Hu Hs. destruct (decide (u_ackl u = AOff)) as [H|H]; [exists u; by split_and!; [..|left|]|].
  destruct (decide (u_ackl u = AStopped)) as [G|G]; [exists u; by split_and!; [..|right|]|].
  destruct (drain_acks u Hu (conj H G)) as (u1 & Hr & (Hk & _ & _ & Hst) & _ & Hi).
  assert (u_stop u1 = true) as Hs1 by (destruct Hk as (_ & _ & ->); done).
  exists (set_ackl AStopped u1). split_and!; try done.
  - eapply rtc_r; [exact Hr|]. apply u_ack_step. by apply a_stop.
  - by right.
Qed.

Lemma stats_stop u :
  u_ctx u = true -> exists u', rtc step u u' /\ keeps u u' /\ u_ackl u' = u_ackl u /\ u_stats u' = SStopped.
Proof.
  intros Hc. assert (forall u1, u_ctx u1 = true -> u_stats u1 = SWait -> step u1 (set_stats SStopped u1)) as Hstop.
  { intros u1 H1 H2. apply u_stat_step. by apply s_stop. }
  destruct (u_stats u) eqn:Es.
  - destruct (report_stats (u_world u)) as [w' evs] eqn:Er.
    exists (set_stats SStopped (set_stats SWait (add_events evs (set_world w' u)))). split_and!; try done.
    eapply rtc_l; [apply u_stat_step; by apply s_report|]. apply rtc_once. by apply Hstop.
  - exists (set_stats SStopped u). split_and!; try done. apply rtc_once. by apply Hstop.
  - by exists u.
Qed.

Lemma background_stops u :
  inv u -> u_ctx u = true -> u_stop u = true ->
  exists u', rtc step u u' /\ keeps u u' /\ joined u' = true.
Proof.
  intros Hu Hc Hs. destruct (acks_stop u Hu Hs) as (u1 & Hr1 & Hk1 & Ha1 & _).
  pose proof (rtc_inv _ _ Hr1 Hu) as Hu1. pose proof Hk1 as (_ & Hc1 & Hs1).
  destruct (stats_stop u1 ltac:(congruence)) as (u2 & Hr2 & Hk2 & Ha2 & Ht2).
  pose proof (rtc_inv _ _ Hr2 Hu1) as Hu2. pose proof Hk2 as (_ & Hc2 & Hs2).
  assert (exists u3, rtc step u2 u3 /\ frame_hb u2 u3 /\ u_hb u3 = HStopped) as (u3 & Hr3 & (Hk3 & Ha3 & Ht3) & Hh3).
  { assert ({u_hb u2 = HStopped} + {u_hb u2 <> HStopped}) as [Hh|Hh] by (destruct (u_hb u2); (by left) || (by right)).
    { by exists u2. }
    destruct (hb_idle u2 Hu2 Hh) as (u3 & Hr & (Hk & Hf) & Hi).
    exists (set_hb HStopped u3). split_and!; try done; try apply Hf; try apply Hk.
    eapply rtc_r; [exact Hr|]. apply u_beat_step. apply h_stop; [done|]. destruct Hk as (_ & _ & ->). congruence. }
  exists u3. split_and!; try done.
  - etrans; [exact Hr1|]. by etrans.
  - etrans; [exact Hk1|]. by etrans.
  - unfold joined. rewrite Hh3, Ht3, Ht2, Ha3, Ha2. by destruct Ha1 as [->| ->].
Qed.

(** ** The loop ends *)

Lemma spawn_all todo : forall u free n err,
  u_main u = MSpawn free n err todo ->
  exists u', rtc step u u' /\ u_main u' = MSpawn free n err [] /\ u_ctx u' = u_ctx u /\ u_stop u' = u_stop u.
Proof.
  induction todo as [|job todo IH]; intros u free n err Em; [by exists u|].
  destruct (IH (set_main (MSpawn free n err todo) (spawn_job job u)) free n err eq_refl) as (u' & Hr & Hm & Hc & Hs).
  exists u'. split_and!; try done. eapply rtc_l; [|exact Hr]. apply u_main_step. by apply m_spawn.
Qed.

(** In the loop, before the drain. *)
Definition looping (m : mainpc) : bool :=
  match m with MDrain | MForced | MJoining | MDereg | MReturned => false | _ => true end.

Lemma loop_ends u :
  u_ctx u = true -> looping (u_main u) = true -> exists u', rtc step u u' /\ u_main u' = MDrain.
Proof.
  intros Hc Hl.
  assert (forall u, u_ctx u = true -> u_main u = MLoop -> exists u', rtc step u u' /\ u_main u' = MDrain) as Htop.
  { intros v Hv Em. exists (set_main MDrain v). split; [|done]. apply rtc_once, u_main_step. by apply m_top. }
  assert (forall u u1, step u u1 -> (exists u', rtc step u1 u' /\ u_main u' = MDrain) ->
    exists u', rtc step u u' /\ u_main u' = MDrain) as Hthen.
  { intros v v1 Hs (v' & Hr & Hm). exists v'. split; [by eapply rtc_l | done]. }
  assert (forall u, u_ctx u = true -> u_main u = MSelect -> exists u', rtc step u u' /\ u_main u' = MDrain) as Hsel.
  { intros v Hv Em. eapply Hthen; [apply u_main_step; by apply m_selected|]. by apply Htop. }
  assert (forall u free n err todo, u_ctx u = true -> u_main u = MSpawn free n err todo ->
    exists u', rtc step u u' /\ u_main u' = MDrain) as Hsp.
  { intros v free n err todo Hv Em. destruct (spawn_all todo v free n err Em) as (v1 & Hr & Hm & Hc1 & _).
    rewrite Hv in Hc1. assert (exists u', rtc step (after_spawn cfg free n err v1) u' /\ u_main u' = MDrain) as (v2 & Hr2 & Hm2).
    { unfold after_spawn. destruct err; [rewrite Hc1; by eexists|]. destruct (_ || _); [by apply Htop | by apply Hsel]. }
    exists v2. split; [|done]. etrans; [exact Hr|]. eapply rtc_l; [|exact Hr2]. apply u_main_step. by apply m_spawned. }
  assert (forall u free jobs, u_ctx u = true -> u_main u = MClaim free jobs ->
    exists u', rtc step u u' /\ u_main u' = MDrain) as Hcl.
  { intros v free jobs Hv Em. destruct (claim_half cfg free jobs (u_world v)) as [w' [jobs' err]] eqn:Er.
    eapply Hthen; [apply u_main_step; by eapply m_claim|]. by eapply Hsp. }
  destruct (u_main u) as [|free|free jobs|free n err todo|d| | | | | |] eqn:Em; try done.
  - by apply Htop.
  - destruct (recover_half cfg free (u_lastRecover u) (u_world u)) as [w' [lr [jobs err]]] eqn:Er.
    eapply Hthen; [apply u_main_step; by eapply m_recover|].
    destruct (is_err err) eqn:Ee; [eapply Hsp | eapply Hcl]; (cbn; done).
  - by eapply Hcl.
  - by eapply Hsp.
  - eapply Hthen; [apply u_main_step; by eapply m_slept|]. by apply Htop.
  - by apply Hsel.
Qed.

Lemma can_return_joining u :
  inv u -> u_main u = MJoining -> exists u', rtc step u u' /\ u_main u' = MReturned.
Proof.
  intros Hu Em. pose proof (i_phase _ _ _ Hu) as Hp. unfold phase_ok in Hp. rewrite Em in Hp. destruct Hp as (Hc & Hs & _).
  destruct (background_stops u Hu Hc Hs) as (u1 & Hr & (Hm & _ & _) & Hj). rewrite Em in Hm.
  assert (exists u', rtc step u1 u' /\ u_main u' = MReturned) as (u2 & Hr2 & Hm2); [|exists u2; split; [by etrans | done]].
  pose proof (u_main_step cfg handlers outside _ _ (m_joined cfg u1 Hm Hj)) as Hst.
  destruct be_Deregister.
  - eexists. split; [eapply rtc_l; [exact Hst|]; apply rtc_once, u_main_step; by apply m_dereg | done].
  - eexists. split; [by apply rtc_once | done].
Qed.

Lemma can_return_draining u :
  inv u -> u_main u = MDrain \/ u_main u = MForced -> exists u', rtc step u u' /\ u_main u' = MReturned.
Proof.
  intros Hu Em. assert (u_stop u = false) as Hs.
  { pose proof (i_phase _ _ _ Hu) as Hp. unfold phase_ok in Hp. by destruct Em as [Em|Em]; rewrite Em in Hp; destruct Hp. }
  destruct (jobs_finish u Hu Hs) as (u1 & Hr & (Hm & _ & _) & Hg).
  assert (step u1 (set_main MJoining (set_stop true u1))) as Hst.
  { apply u_main_step, m_drained; [by rewrite Hm | done]. }
  destruct (can_return_joining (set_main MJoining (set_stop true u1))) as (u2 & Hr2 & Hm2); [|done|].
  - eapply ustep_inv; [done | done | exact Hst|]. by eapply rtc_inv.
  - exists u2. split; [|done]. etrans; [exact Hr|]. by eapply rtc_l.
Qed.

Lemma can_return u : inv u -> exists u', rtc step u u' /\ u_main u' = MReturned.
Proof.
  intros Hu. destruct (looping (u_main u)) eqn:El.
  - assert (step u (set_ctx true u)) as Hst by apply u_cancelled.
    destruct (loop_ends (set_ctx true u) eq_refl El) as (u1 & Hr & Hm).
    destruct (can_return_draining u1) as (u2 & Hr2 & Hm2); [|by left|].
    + eapply rtc_inv; [exact Hr|]. by eapply ustep_inv.
    + exists u2. split; [|done]. eapply rtc_l; [exact Hst|]. by etrans.
  - destruct (u_main u) eqn:Em; try done.
    + apply can_return_draining; auto.
    + apply can_return_draining; auto.
    + by apply can_return_joining.
    + eexists. split; [apply rtc_once, u_main_step; by apply m_dereg | done].
    + by exists u.
Qed.

(** C24: a worker never hangs by itself: from every state its goroutines can reach,
    in any interleaving, [Run] can return once its context is cancelled and the
    handlers return. No goroutine waits for an ack nobody will answer, a slot nobody
    frees or a goroutine that does not stop. *)
Theorem run_can_return w0 u0 u :
  lb_ok w0 -> run_start cfg w0 = Ok u0 -> rtc step u0 u ->
  exists u', rtc step u u' /\ u_main u' = MReturned.
Proof.
  intros Hok H0 Hr. apply can_return. by eapply (reach_inv cfg handlers outside Hhandler Houtside w0 u0); [lia|..].
Qed.
End live.
