(* ===== verification/WorkerProps.v ===== *)
(** * Guarantees of the worker

    First against the [Backend] interface alone, then for the worker on top of
    the store. *)

From S2P Require Import Prelude GoNum GoTime Errors Job GoJson Redis RefRedis Scripts QueueSpec.
From S2P Require Import QueueRep ScriptsOk QueueSteps Retry Store JobCodec StoreOk EnqueueOk.
From S2P Require Import ClaimOk Demo EnqueueProps Backend StoreBackend Worker.
From Stdlib Require Import QArith.
From stdpp Require Import strings.

Open Scope Z_scope.

(** ** Against any backend *)

Section any_backend.
Context {W : Type} {B : Backend W} {E : WorkerEnv W} (cfg : WorkerConfig).
Implicit Types handlers : gmap string (HandlerFunc W).

Section limits.
Context (ok : W -> Prop) {BL : BackendLimits B ok}.

Lemma fetch_limit limit lr w :
  ok w -> 0 < limit ->
  ok (fetch cfg limit lr w).1 /\ Z.of_nat (length (fetch cfg limit lr w).2.2.1) <= limit.
Proof.
  intros Hok Hlim. unfold fetch.
  assert (forall jobs w0 (lr0 wait : Z), ok w0 -> Z.of_nat (length jobs) <= limit ->
    let x := if Z.of_nat (length jobs) <? limit then
      let '(w', (claimed, err)) := be_Claim (wc_ID cfg) (limit - Z.of_nat (length jobs)) wait w0 in
      (w', (lr0, (jobs ++ claimed,
         match err with Some e => Some (ErrWrap "claim: " e "") | None => None end)))
    else (w0, (lr0, (jobs, None))) in
    ok x.1 /\ Z.of_nat (length x.2.2.1) <= limit) as Hclaim.
  { intros jobs w0 lr0 wait Hok0 Hlen. destruct (Z.ltb_spec (Z.of_nat (length jobs)) limit); [|done].
    destruct (claim_limit (wc_ID cfg) (limit - Z.of_nat (length jobs)) wait w0 Hok0) as [H1 H2]; [lia|].
    destruct (be_Claim _ _ _ _) as [w' [claimed err]]. simpl in *. split; [done|].
    rewrite length_app. lia. }
  destruct (_ <=? _).
  - destruct (recover_limit (wc_VisibilityTimeout cfg) (wc_ID cfg) limit w Hok Hlim) as [H1 H2].
    destruct (be_RecoverExpired _ _ _ _) as [w' [recovered err]]. simpl in *.
    destruct err; [done|]. by apply Hclaim.
  - apply Hclaim; [done | simpl; lia].
Qed.

Context (handlers : gmap string (HandlerFunc W)) (outside : W -> W -> Prop).

(** What changes the world besides a fetch. *)
Inductive background : W -> W -> Prop :=
  | bg_process job w : background w (process cfg handlers job w).1
  | bg_beat held w : background w (heartbeat_tick held w).1
  | bg_stats w : background w (report_stats w).1
  | bg_cancel jobs e w : background w (cancel_jobs jobs e w)
  | bg_deregister w : background w (deregister cfg w)
  | bg_outside w w' : outside w w' -> background w w'.

Context (Hbg : forall w w', background w w' -> ok w -> ok w').

Definition r_inv (r : rstate (W:=W)) : Prop :=
  ok (r_world r) /\
  match r_phase r with
  | Fetching free => 0 < free /\ Z.of_nat (length (r_running r)) + free <= wc_Concurrency cfg
  | _ => Z.of_nat (length (r_running r)) <= wc_Concurrency cfg
  end.

Lemma rstep_inv r r' : rstep cfg handlers outside r r' -> r_inv r -> r_inv r'.
Proof.
  intros Hs [Hok Hlen]. destruct Hs; simpl in *; split; simpl; try done.
  - destruct H as [->|[->|[d ->]]]; done.
  - subst free. destruct (Z.ltb_spec 0 (wc_Concurrency cfg - Z.of_nat (length run))); lia.
  - pose proof (fetch_limit free lr w Hok (proj1 Hlen)) as [? _]. by rewrite H in *.
  - pose proof (fetch_limit free lr w Hok (proj1 Hlen)) as [_ Hl]. rewrite H in Hl. simpl in Hl.
    assert (Z.of_nat (length (run ++ claimed)) <= wc_Concurrency cfg) by (rewrite length_app; lia).
    unfold after_fetch in H0. repeat case_match; simplify_eq; done.
  - eapply Hbg; [|exact Hok]. pose proof (bg_process job w) as Hp. by rewrite H in Hp.
  - rewrite !length_app in *. simpl in *. destruct ph; lia.
  - eapply Hbg; [apply bg_cancel|]. eapply Hbg; [|exact Hok].
    pose proof (bg_beat run w) as Hp. by rewrite H0 in Hp.
  - eapply Hbg; [|exact Hok]. pose proof (bg_stats w) as Hp. by rewrite H0 in Hp.
  - eapply Hbg; [apply bg_cancel | exact Hok].
  - eapply Hbg; [by apply bg_outside | exact Hok].
  - eapply Hbg; [apply bg_deregister | exact Hok].
Qed.

Lemma rsteps_inv r r' : rsteps cfg handlers outside r r' -> r_inv r -> r_inv r'.
Proof. induction 1; eauto using rstep_inv. Qed.

(** A worker never has more jobs in flight than its concurrency, in any
    interleaving of the loop, finishing jobs, heartbeats, shutdown and other
    processes: what a fetch leases fits in the slots that were free when it began. *)
Theorem concurrency_bound w r0 r :
  0 <= wc_Concurrency cfg -> ok w -> r_start cfg w = Ok r0 -> rsteps cfg handlers outside r0 r ->
  Z.of_nat (length (r_running r)) <= wc_Concurrency cfg.
Proof.
  intros Hc Hok Hstart Hrun. destruct (rsteps_inv _ _ Hrun) as [_ Hlen].
  { unfold r_start in Hstart. case_bool_decide; simplify_eq. by split. }
  destruct (r_phase r); lia.
Qed.
End limits.

Section drain.
Context (handlers : gmap string (HandlerFunc W)) (outside : W -> W -> Prop).

Definition draining (run0 : list Job) (r : rstate (W:=W)) : Prop :=
  sublist (r_running r) run0 /\
  (r_phase r = Draining \/ (r_phase r = Stopped /\ r_running r = [])).

Lemma rstep_draining run0 r r' :
  rstep cfg handlers outside r r' -> draining run0 r -> draining run0 r'.
Proof.
  intros Hs [Hsub Hph]. destruct Hs as [ph run bo lr w Hd| |free run bo lr w lr' w' claimed err dn ph bo'| | |
    ph run1 job run2 bo lr w w' evs Hp| | | | |]; simpl in *.
  - destruct Hd as [->|[->|[d ->]]]; naive_solver.
  - naive_solver.
  - naive_solver.
  - naive_solver.
  - naive_solver.
  - split; simpl.
    + etrans; [|exact Hsub]. apply sublist_app; [done|]. apply sublist_cons. reflexivity.
    + destruct Hph as [->|[-> Hnil]]; [by left|]. by destruct run1.
  - done.
  - done.
  - done.
  - done.
  - split; [done | by right].
Qed.

(** Running every job in flight to its end. *)
Fixpoint finish_all (run : list Job) (w : W) : W :=
  match run with
  | [] => w
  | job :: run' => finish_all run' (process cfg handlers job w).1
  end.

Lemma drain_run run : forall bo lr w,
  rsteps cfg handlers outside (RState Draining run bo lr w)
    (RState Stopped [] bo lr (deregister cfg (finish_all run w))).
Proof.
  induction run as [|job run IH]; intros bo lr w.
  - eapply rsteps_step; [apply rs_drained | apply rsteps_refl].
  - destruct (process cfg handlers job w) as [w' evs] eqn:Ep.
    eapply rsteps_step; [by apply (rs_finish cfg handlers outside Draining [] job run bo lr w w' evs)|].
    simpl. rewrite Ep. apply IH.
Qed.

(** Graceful shutdown: once the worker drains it starts no job, and it
    stops only after every job in flight has finished; when the jobs finish it
    does stop, deregistered. *)
Theorem drain_completes r :
  r_phase r = Draining ->
  (forall r', rsteps cfg handlers outside r r' ->
     sublist (r_running r') (r_running r) /\
     (r_phase r' = Draining \/ (r_phase r' = Stopped /\ r_running r' = []))) /\
  exists r', rsteps cfg handlers outside r r' /\ r_phase r' = Stopped /\
    r_world r' = deregister cfg (finish_all (r_running r) (r_world r)).
Proof.
  intros Hph. split.
  - intros r' Hrun. assert (draining (r_running r) r) as Hd by (split; [reflexivity | by left]).
    revert Hd. generalize (r_running r) as run0. clear Hph. intros run0.
    induction Hrun; [done|]. intros. apply IHHrun. by eapply rstep_draining.
  - destruct r as [ph run bo lr w]. simpl in *. subst ph. eexists. split; [apply drain_run | done].
Qed.
End drain.

(** A poison job is not run again: once a job has been delivered more than
    MaxDeliveries times, the worker dead-letters it without calling a handler,
    whatever handlers are registered. *)
Theorem poison_never_runs h1 h2 job w :
  wc_MaxDeliveries cfg < Token (JLease job) ->
  handleOne cfg h1 job w = handleOne cfg h2 job w /\
  (handleOne cfg h1 job w).1 =
    (be_DeadLetter job ("delivered " +:+ Itoa (Token (JLease job)) +:+ " times without being settled") w).1 /\
  forall j, JobStarted j ∉ (handleOne cfg h1 job w).2.1.
Proof.
  intros Hlt. unfold handleOne. rewrite (proj2 (Z.ltb_lt _ _) Hlt). unfold deadLetter.
  destruct (be_DeadLetter _ _ w) as [w' [e|]]; split_and!; try done;
    intros j; simpl; rewrite !elem_of_cons, elem_of_nil; naive_solver.
Qed.

(** Retries respect MaxAttempts: a job the worker reports as retried had
    attempts left, its failure was retryable, and its handler ran on this
    delivery; so a job at its last attempt is never scheduled again. *)
Theorem retry_has_attempts_left handlers job w :
  int64_ok (Attempt job + 1) ->
  JobRetried job ∈ (handleOne cfg handlers job w).2.1 ->
  Attempt job + 1 < MaxAttempts job /\
  exists h, handlers !! Task job = Some h /\ Retryable (h job w).2 = true /\
    ResErr (h job w).2 <> None.
Proof.
  intros Hint. unfold handleOne, deadLetter.
  destruct (_ <? _).
  { destruct (be_DeadLetter _ _ w) as [w' [e|]]; simpl; rewrite ?elem_of_cons, ?elem_of_nil; naive_solver. }
  destruct (handlers !! Task job) as [h|] eqn:Eh.
  2:{ destruct (_ <=? _); [destruct (be_DeadLetter _ _ w) as [w' [e|]]|]; simpl;
      rewrite ?elem_of_cons, ?elem_of_nil; naive_solver. }
  destruct (h job w) as [w1 res] eqn:Er. destruct (job_cause job w1).
  { simpl. rewrite !elem_of_cons, elem_of_nil. naive_solver. }
  destruct (ResErr res) as [failure|] eqn:Ef.
  2:{ destruct (ack job w1) as [w2 [e|]]; simpl; rewrite !elem_of_cons, elem_of_nil; naive_solver. }
  destruct (Retryable res) eqn:Ert; cbn [negb orb].
  2:{ destruct (be_DeadLetter _ _ w1) as [w2 [e|]]; simpl; rewrite !elem_of_cons, elem_of_nil; naive_solver. }
  destruct (ShouldDeadLetter job) eqn:Esd.
  { destruct (be_DeadLetter _ _ w1) as [w2 [e|]]; simpl; rewrite !elem_of_cons, elem_of_nil; naive_solver. }
  intros _. unfold ShouldDeadLetter, Exhausted in Esd. rewrite wrap64_id in Esd by done.
  apply Z.leb_gt in Esd. split; [lia|]. exists h. rewrite Er. simpl. rewrite Ef. done.
Qed.
End any_backend.
