(* ===== verification/WorkerStore.v ===== *)
(** * Guarantees of the worker on top of the store *)

From S2P Require Import Prelude GoNum GoTime Errors Job GoJson Redis RefRedis Scripts QueueSpec.
From S2P Require Import QueueRep ScriptsOk QueueSteps Retry Store JobCodec StoreOk EnqueueOk.
From S2P Require Import ClaimOk Demo ClaimProps EnqueueProps Backend StoreBackend Worker.
From S2P Require Import WorkerProps.
From Stdlib Require Import QArith.
From stdpp Require Import strings.

Open Scope Z_scope.
Open Scope se_scope.

(** ** A batch of acks *)

Section ack_batch.
Context {R : Redis} {L : RedisLaws R} {C : Client R} {CL : ClientLaws C}.
Context (b : Store) (HK : keys_ok (K_of b)).
Implicit Types q : qstate.

(** The delivery is over. *)
Definition settled q (id : eid) : Prop := (id ∉ q_ids q) /\ q_pel q !! id = None.

(** What an ack batch may do: settle deliveries. *)
Record acked q q' : Prop := {
  ak_owns : forall id o t, q_owns q' id o t = true -> q_owns q id o t = true;
  ak_settled : forall id, settled q id -> settled q' id;
}.

Lemma acked_refl q : acked q q.
Proof. by split. Qed.

Lemma acked_trans q1 q2 q3 : acked q1 q2 -> acked q2 q3 -> acked q1 q3.
Proof. intros [] []. split; auto. Qed.

Lemma acked_settle id q : acked q (q_settle id q).
Proof.
  split.
  - intros i o t. unfold q_owns. simpl. destruct (decide (id = i)) as [->|].
    + by rewrite lookup_delete_eq.
    + by rewrite lookup_delete_ne.
  - intros i [H1 H2]. split; unfold q_ids in *; simpl.
    + by intros [_ ?]%elem_of_without.
    + destruct (decide (id = i)) as [->|]; [apply lookup_delete_eq | by rewrite lookup_delete_ne].
Qed.

Lemma settled_settle id q : settled (q_settle id q) id.
Proof.
  split; unfold q_ids; simpl; [by intros [? _]%elem_of_without | apply lookup_delete_eq].
Qed.

Definition ack_reply q q' (arg : triple) (n : Z) : Prop :=
  n <> 0 -> q_owns q arg.1.1 arg.1.2 arg.2 = true /\ settled q' arg.1.1.

Lemma one_by_one_ack_ok argv : forall q,
  wpq (K_of b) (one_by_one (ackScript (cfg_Stream (st_config b)) (cfg_Group (st_config b))) argv) q
    (fun ns q' => acked q q' /\ Forall2 (ack_reply q q') argv ns).
Proof.
  induction argv as [|[[id o] t] argv IH]; intros q; cbn [one_by_one].
  { apply wpq_ret. split; [apply acked_refl | constructor]. }
  eapply wpq_bind; [apply (ackScript_ok HK)|]. cbn beta. intros n q1 Hn.
  eapply wpq_bind; [apply IH|]. cbn beta. intros ns q2 [Ha Hns]. apply wpq_ret.
  assert (acked q q1 /\ ack_reply q q1 (id, o, t) n) as [Ha1 Hn1].
  { unfold ack_reply. simpl. destruct (q_owns q id o t) eqn:Eo; injection Hn as -> ->.
    - split; [apply acked_settle|]. intros _. split; [done | apply settled_settle].
    - split; [apply acked_refl | done]. }
  split; [by eapply acked_trans|]. constructor.
  - intros Hnz. destruct (Hn1 Hnz) as [Ho Hst]. split; [done|]. by apply (ak_settled _ _ Ha).
  - eapply Forall2_impl; [exact Hns|]. intros [[i oo] tt] m Hm Hnz. destruct (Hm Hnz) as [Ho Hst].
    split; [by apply (ak_owns _ _ Ha1) | done].
Qed.

(** [AckBatch] over any client: a job reported as acked was owned by its lease
    and its delivery is over. *)
Lemma AckBatch_ok s q jobs :
  represents (K_of b) (view s) q ->
  exists s' errs q', AckBatch b jobs s = (s', errs) /\ represents (K_of b) (view s') q' /\
    acked q q' /\ length errs = length jobs /\
    forall i job, jobs !! i = Some job -> errs !! i = Some None ->
      lease_owns q (JLease job) = true /\ settled q' (MessageID (JLease job)).
Proof.
  intros Hs. unfold AckBatch, fencedBatch. fold (lease_args jobs).
  set (m := ackBatchScript _ _ _).
  assert (wpc (K:=K_of b) (call m) q (fun r q' => acked q q' /\
    match r with Ok ns => Forall2 (ack_reply q q') (lease_args jobs) ns | Err e => net_error e end)) as Hc.
  { apply (wpc_call _ (acked q) (fun ns q' => Forall2 (ack_reply q q') (lease_args jobs) ns));
      [apply acked_refl|]. intros q1 Hq1.
    eapply wpq_ext; [intros; symmetry; apply ackBatch_one_by_one|].
    eapply wpq_mono; [apply one_by_one_ack_ok|]. cbn beta. intros ns q' [Ha Hns].
    split; [by eapply acked_trans|]. eapply Forall2_impl; [exact Hns|].
    intros arg n Hn Hnz. destruct (Hn Hnz) as [Ho ?]. split; [by apply (ak_owns _ _ Hq1) | done]. }
  destruct (Hc s Hs) as (s' & r & q' & Ec & Hs' & _ & Ha & Hr). rewrite Ec.
  eexists s', _, q'. split_and!; [done | done | done | by rewrite length_imap|].
  intros i job Hj He. rewrite list_lookup_imap, Hj in He. simpl in He.
  destruct r as [ns|e]; [|done]. destruct (ns !! i) as [n|] eqn:En; [|done].
  destruct (Z.eqb_spec n 0) as [->|Hnz]; [done|].
  assert (lease_args jobs !! i =
    Some (MessageID (JLease job), Owner (JLease job), Token (JLease job))) as Hl.
  { unfold lease_args. by rewrite list_lookup_fmap, Hj. }
  exact (Forall2_lookup_lr _ _ _ _ _ _ Hr Hl En Hnz).
Qed.
End ack_batch.

(** ** Running a job *)

Section worker_store.
Context {R : Redis} {L : RedisLaws R} {C : Client R} {CL : ClientLaws C} {E : Env R}.
Context {WE : WorkerEnv (Store * rdb)} (cfg : WorkerConfig).
Context (handlers : gmap string (HandlerFunc (Store * rdb))) (b : Store).
Implicit Types q : qstate.

(** An ack of the worker's ack loop: on success the lease owned the delivery and
    the delivery is over. *)
Lemma ack_ok job s q :
  keys_ok (K_of b) -> represents (K_of b) (view s) q ->
  exists s' q' err, ack job (b, s) = ((b, s'), err) /\ represents (K_of b) (view s') q' /\
    (err = None -> lease_owns q (JLease job) = true /\ settled q' (MessageID (JLease job))).
Proof.
  intros HK Hs. unfold ack. simpl. destruct (ack_mates job (b, s)) as [before after]. simpl.
  destruct (AckBatch_ok b HK s q (before ++ job :: after) Hs)
    as (s' & errs & q' & Ea & Hs' & _ & Hlen & Hall).
  rewrite Ea. simpl. exists s', q', (default None (errs !! length before)).
  split_and!; [done | done|]. intros Hnone.
  apply (Hall (length before) job); [by rewrite list_lookup_middle|].
  destruct (lookup_lt_is_Some_2 errs (length before)) as [e He].
  { rewrite Hlen, length_app. simpl. lia. }
  rewrite He in Hnone |- *. simpl in Hnone. by rewrite Hnone.
Qed.

(** The handler of [job] keeps the store and the queue: at its end the keyspace
    holds [q1]. *)
Definition handler_ends (h : HandlerFunc (Store * rdb)) job s q1 : Prop :=
  exists s1, (h job (b, s)).1 = (b, s1) /\ represents (K_of b) (view s1) q1.

(** C15: a job reported completed is done: its handler ran on this delivery and
    returned no error, the worker still owned the delivery when it was acked,
    and the entry is out of the stream and of the pending list. *)
Theorem completed_means_acked h job s q1 :
  keys_ok (K_of b) -> handlers !! Task job = Some h -> handler_ends h job s q1 ->
  JobCompleted job ∈ (handleOne cfg handlers job (b, s)).2.1 ->
  ResErr (h job (b, s)).2 = None /\ lease_owns q1 (JLease job) = true /\
  exists q', represents (K_of b) (view (handleOne cfg handlers job (b, s)).1.2) q' /\
    settled q' (MessageID (JLease job)).
Proof.
  intros HK Hh (s1 & Es1 & Hs1). unfold handleOne, deadLetter. rewrite Hh.
  destruct (h job (b, s)) as [w1 res]. simpl in Es1. subst w1.
  destruct (_ <? _).
  { destruct (be_DeadLetter _ _ _) as [w' [e|]]; simpl; rewrite ?elem_of_cons, ?elem_of_nil; naive_solver. }
  destruct (job_cause job (b, s1)).
  { simpl. rewrite !elem_of_cons, elem_of_nil. naive_solver. }
  destruct (ResErr res) as [failure|] eqn:Ef.
  - destruct (negb (Retryable res) || ShouldDeadLetter job).
    + destruct (be_DeadLetter _ _ _) as [w' [e|]]; simpl; rewrite !elem_of_cons, elem_of_nil; naive_solver.
    + destruct (be_Retry _ _ _) as [w' [e|]]; simpl; rewrite !elem_of_cons, elem_of_nil; naive_solver.
  - destruct (ack_ok job s1 q1 HK Hs1) as (s' & q' & err & Ea & Hs' & Hpost). rewrite Ea.
    destruct err as [e|]; simpl.
    + rewrite !elem_of_cons, elem_of_nil. naive_solver.
    + intros _. destruct (Hpost eq_refl). split_and!; [done | done|]. exists q'. done.
Qed.

(** Where a job is after its delivery was handled. *)
Definition accounted q (job : Job) (fs : fields) : Prop :=
  (MessageID (JLease job), fs) ∈ q_entries q \/
  q_data q !! ID job = Some (retry_json job) \/
  exists did reason t pairs, (did, pairs) ∈ q_dead q /\ pairs ≡ₚ map_to_list (dead_fields job reason t).

Lemma accounted_same q job fs : (MessageID (JLease job), fs) ∈ q_entries q -> accounted q job fs.
Proof. by left. Qed.

Lemma deadLetter_accounted job reason s q fs :
  keys_ok (K_of b) -> represents (K_of b) (view s) q -> (MessageID (JLease job), fs) ∈ q_entries q ->
  exists q', represents (K_of b) (view (deadLetter job reason (b, s)).1.2) q' /\ accounted q' job fs.
Proof.
  intros HK Hs Hin. unfold deadLetter. simpl.
  destruct (DeadLetter_ok b HK q job reason (clock s) s Hs) as (s' & r & q' & Ed & Hs' & _ & Ho).
  rewrite Ed. exists q'. split; [by destruct r|].
  assert (q' = q \/ exists did, q' = q_settle (MessageID (JLease job))
    (q_bury did (range_map (dead_fields job reason (clock s))) q)) as [->|[did ->]].
  { destruct r; simpl in Ho; naive_solver. }
  - by left.
  - right. right. exists did, reason, (clock s). eexists. split; [|apply range_map_perm].
    simpl. apply elem_of_app. right. by left.
Qed.

(** C14: at-least-once: handling a delivery never loses the job. If its entry
    is in the stream when the handling begins and, where a handler runs, still
    when that handler ends (nobody else settled the delivery meanwhile), then,
    unless the handler succeeded, afterwards the job is still in the stream
    (from where it is redelivered), or scheduled for another attempt, or on
    the dead-letter stream; so also when the client loses replies, when the
    lease was lost, and when the context was cancelled. *)
Theorem handleOne_no_loss job s q fs :
  keys_ok (K_of b) -> represents (K_of b) (view s) q -> (MessageID (JLease job), fs) ∈ q_entries q ->
  (forall h, handlers !! Task job = Some h -> exists q1,
     handler_ends h job s q1 /\ (MessageID (JLease job), fs) ∈ q_entries q1) ->
  (exists h, handlers !! Task job = Some h /\ ResErr (h job (b, s)).2 = None /\
     job_cause job (h job (b, s)).1 = None) \/
  exists q', represents (K_of b) (view (handleOne cfg handlers job (b, s)).1.2) q' /\ accounted q' job fs.
Proof.
  intros HK Hs Hin Hh. unfold handleOne. destruct (_ <? _); [right; by eapply deadLetter_accounted|].
  destruct (handlers !! Task job) as [h|] eqn:Eh.
  2:{ right. destruct (_ <=? _); [by eapply deadLetter_accounted|]. exists q. split; [done | by left]. }
  destruct (Hh h eq_refl) as (q1 & (s1 & Es1 & Hs1) & Hin1).
  destruct (h job (b, s)) as [w1 res] eqn:Er. simpl in Es1. subst w1.
  destruct (job_cause job (b, s1)) eqn:Ec; [right; exists q1; split; [done | by left]|].
  destruct (ResErr res) as [failure|] eqn:Ef; [right|].
  - destruct (negb (Retryable res) || ShouldDeadLetter job).
    + destruct (deadLetter_accounted job (error_string failure) s1 q1 fs HK Hs1 Hin1) as (q' & Hs' & Ha).
      destruct (deadLetter job (error_string failure) (b, s1)) as [w2 [evs2 err]]. by exists q'.
    + set (t := now (b, s1) + _). simpl.
      destruct (Retry_ok b HK q1 job t s1 Hs1) as (s' & r & q' & Ed & Hs' & _ & Ho). rewrite Ed.
      exists q'. split; [by destruct r|].
      assert (q' = q1 \/ q' = q_settle (MessageID (JLease job))
        (q_schedule (ID job) (UnixMilli t) (retry_json job) q1)) as [->| ->].
      { destruct r; simpl in Ho; naive_solver. }
      * by left.
      * right. left. simpl. apply lookup_insert_eq.
  - left. exists h. rewrite Er. simpl. done.
Qed.
End worker_store.

(** ** Group commit and heartbeats over a reliable client *)

Section reliable.
Context {R : Redis} {L : RedisLaws R} {C : Client R} {CL : ClientLaws C} {E : Env R}.
Context (Hrel : reliable C) (b : Store) (HK : keys_ok (K_of b)).
Implicit Types q : qstate.

Lemma each_job_length (op : Job -> SE rdb error unit) jobs s :
  length (each_job op jobs s).2 = length jobs.
Proof.
  revert s. induction jobs as [|j jobs IH]; intros s; cbn [each_job]; [done|].
  destruct (op j s) as [s1 r]. specialize (IH s1). destruct (each_job op jobs s1). simpl in *. by f_equal.
Qed.

Lemma each_job_app (op : Job -> SE rdb error unit) jobs1 jobs2 s :
  each_job op (jobs1 ++ jobs2) s =
  let '(s1, es1) := each_job op jobs1 s in
  let '(s2, es2) := each_job op jobs2 s1 in (s2, es1 ++ es2).
Proof.
  revert s. induction jobs1 as [|j jobs IH]; intros s; cbn [each_job app].
  { by destruct (each_job op jobs2 s). }
  destruct (op j s) as [s1 r]. rewrite IH. destruct (each_job op jobs s1) as [s2 es1].
  by destruct (each_job op jobs2 s2).
Qed.

Lemma each_ack_represents jobs : forall s q,
  represents (K_of b) (view s) q ->
  exists q', represents (K_of b) (view (each_job (Ack b) jobs s).1) q'.
Proof.
  induction jobs as [|j jobs IH]; intros s q Hs; cbn [each_job]; [eauto|].
  destruct (Ack_ok b HK q j s Hs) as (s1 & r & q1 & Ea & Hs1 & _). rewrite Ea.
  destruct (IH s1 q1 Hs1) as [q' Hq']. destruct (each_job (Ack b) jobs s1). eauto.
Qed.

Definition store_batch (jobs : list Job) (w : Store * rdb) : (Store * rdb) * list (option error) :=
  on_store w.1 (AckBatch w.1 jobs w.2).

Lemma ackLoop_reliable avail k reqs s q :
  represents (K_of b) (view s) q ->
  ackLoop store_batch avail (length reqs) k reqs (b, s) =
  ((b, (each_job (Ack b) reqs s).1), zip reqs (each_job (Ack b) reqs s).2).
Proof.
  remember (length reqs) as fuel eqn:Hf. assert (length reqs <= fuel)%nat as Hfuel by lia. clear Hf.
  revert k reqs s q Hfuel. induction fuel as [|fuel IH]; intros k reqs s q Hfuel Hs.
  { destruct reqs; [done | simpl in Hfuel; lia]. }
  destruct reqs as [|r reqs0]; [done|]. set (reqs := r :: reqs0) in *. cbn [ackLoop]. unfold reqs at 1.
  set (n := Nat.min maxBatch (Nat.max 1 (avail k))).
  assert (1 <= n)%nat as Hn by (unfold n, maxBatch; lia).
  unfold ack_batch. change (store_batch (take n reqs) (b, s))
    with ((b, (AckBatch b (take n reqs) s).1), (AckBatch b (take n reqs) s).2).
  rewrite (AckBatch_each b s q (take n reqs) Hrel HK Hs).
  pose proof (each_job_length (Ack b) (take n reqs) s) as Hlen1.
  destruct (each_ack_represents (take n reqs) s q Hs) as [q1 Hs1].
  pose proof (each_job_app (Ack b) (take n reqs) (drop n reqs) s) as Happ.
  rewrite take_drop in Happ. rewrite Happ.
  destruct (each_job (Ack b) (take n reqs) s) as [s1 es1]. cbn [fst snd] in *.
  rewrite (IH (S k) (drop n reqs) s1 q1).
  - pose proof (each_job_length (Ack b) (drop n reqs) s1) as Hlen2.
    destruct (each_job (Ack b) (drop n reqs) s1) as [s2 es2]. cbn [fst snd] in *. f_equal.
    pose proof (zip_with_app pair (take n reqs) (drop n reqs) es1 es2) as Hz.
    rewrite take_drop in Hz. symmetry. by apply Hz.
  - rewrite length_drop. unfold reqs in *. simpl in *. lia.
  - done.
Qed.

(** *** Renewals *)

Lemma chunks_concat {A} fuel n (l : list A) :
  (0 < n)%nat -> (length l <= fuel)%nat -> concat (chunks fuel n l) = l.
Proof.
  intros Hn. revert l. induction fuel as [|fuel IH]; intros [|a l] Hl; simpl in *; try done; [lia|].
  rewrite IH; [apply take_drop|]. destruct n; [lia|]. simpl. rewrite length_drop. lia.
Qed.

Lemma renew_owns id o t q : q_owns q id o t = true ->
  forall i o' t', q_owns (q_renew id o q) i o' t' = q_owns q i o' t'.
Proof.
  intros (p & Hp & Ho & _)%q_owns_pending i o' t'. unfold q_owns. simpl.
  destruct (decide (id = i)) as [->|]; [|by rewrite lookup_alter_ne].
  rewrite lookup_alter_eq, Hp. simpl. f_equal. apply bool_decide_ext. by rewrite Ho.
Qed.

(** The lease was renewed now. *)
Definition renewed q (l : Lease) : Prop :=
  exists p, q_pel q !! MessageID l = Some p /\ pe_time p = q_now q.

Lemma renew_keeps_renewed id o q l : renewed q l -> renewed (q_renew id o q) l.
Proof.
  intros (p & Hp & Ht). unfold renewed. simpl. destruct (decide (id = MessageID l)) as [->|].
  - rewrite lookup_alter_eq, Hp. simpl. eauto.
  - rewrite lookup_alter_ne by done. eauto.
Qed.

Lemma renew_renewed o q l :
  lease_owns q l = true -> renewed (q_renew (MessageID l) o q) l.
Proof.
  intros (p & Hp & _)%q_owns_pending. unfold renewed. simpl.
  rewrite lookup_alter_eq, Hp. simpl. eauto.
Qed.

Lemma each_extend_ok jobs : forall s q,
  q_wf q -> represents (K_of b) (view s) q ->
  exists s' q', each_job (Extend b) jobs s =
      (s', (fun j => if lease_owns q (JLease j) then None else Some ErrLeaseLost) <$> jobs) /\
    represents (K_of b) (view s') q' /\ frame (K_of b) (view s) (view s') /\ reaches q q' /\
    q_wf q' /\ (forall l, lease_owns q' l = lease_owns q l) /\
    (forall l, renewed q l -> renewed q' l) /\
    (forall j, j ∈ jobs -> lease_owns q (JLease j) = true -> renewed q' (JLease j)).
Proof.
  induction jobs as [|j jobs IH]; intros s q Hwf Hs; cbn [each_job].
  { exists s, q. split_and!; try done. by intros j ?%not_elem_of_nil. }
  destruct (extendScript_ok HK q (MessageID (JLease j)) (Owner (JLease j)) (Token (JLease j)) Hwf s Hs)
    as (s1 & n & Ee & q1 & Hs1 & Hf1 & Hn).
  fold (lease_owns q (JLease j)) in Hn.
  assert (reaches q q1 /\ q_wf q1 /\ (forall l, lease_owns q1 l = lease_owns q l) /\
    (forall l, renewed q l -> renewed q1 l) /\
    (lease_owns q (JLease j) = true -> renewed q1 (JLease j)) /\
    Extend b j s = (s1, if lease_owns q (JLease j) then Ok () else Err ErrLeaseLost))
    as (Hq1 & Hwf1 & Ho1 & Hr1 & Hj1 & Ex).
  { unfold Extend, fenced, bind. rewrite Hrel. simpl in Ee. rewrite Ee.
    destruct (lease_owns q (JLease j)) eqn:Eo; injection Hn as -> ->; [|done].
    split_and!; [by eapply reaches_step, step_renew | auto with dtq | | apply renew_keeps_renewed | | done].
    - intros l. by eapply renew_owns.
    - intros _. by apply renew_renewed. }
  rewrite Ex. destruct (IH s1 q1 Hwf1 Hs1) as (s2 & q2 & E2 & Hs2 & Hf2 & Hq2 & Hwf2 & Ho2 & Hr2 & Hj2).
  rewrite E2. exists s2, q2.
  split_and!; [| done | by eapply frame_trans | by etrans | done | | auto |].
  - cbn. f_equal. f_equal; [by destruct (lease_owns q (JLease j))|].
    apply list_fmap_ext. intros i k _. by rewrite Ho1.
  - intros l. by rewrite Ho2, Ho1.
  - intros k [->|Hk]%elem_of_cons Hown; [auto|]. apply Hj2; [done | by rewrite Ho1].
Qed.

Lemma lost_jobs_spec q jobs :
  lost_jobs jobs ((fun j => if lease_owns q (JLease j) then None else Some ErrLeaseLost) <$> jobs) =
  filter (fun j => lease_owns q (JLease j) = false) jobs.
Proof.
  unfold lost_jobs. induction jobs as [|j jobs IH]; [done|]. cbn [fmap list_fmap zip zip_with].
  destruct (lease_owns q (JLease j)) eqn:Eo.
  - rewrite filter_cons_False by done. rewrite (filter_cons_False _ j) by (rewrite Eo; done). exact IH.
  - rewrite filter_cons_True by done. rewrite (filter_cons_True _ j) by done. cbn. f_equal. exact IH.
Qed.

Lemma beat_ok batches : forall s q,
  q_wf q -> represents (K_of b) (view s) q ->
  exists s' q', beat batches (b, s) =
      ((b, s'), filter (fun j => lease_owns q (JLease j) = false) (concat batches)) /\
    represents (K_of b) (view s') q' /\ reaches q q' /\ q_wf q' /\
    (forall l, lease_owns q' l = lease_owns q l) /\
    (forall l, renewed q l -> renewed q' l) /\
    (forall j, j ∈ concat batches -> lease_owns q (JLease j) = true -> renewed q' (JLease j)).
Proof.
  induction batches as [|batch batches IH]; intros s q Hwf Hs; cbn [beat concat].
  { exists s, q. split_and!; try done. by intros j ?%not_elem_of_nil. }
  unfold extend. simpl. unfold on_store. cbn [fst snd].
  rewrite (ExtendBatch_each b s q batch Hrel HK Hwf Hs).
  destruct (each_extend_ok batch s q Hwf Hs) as (s1 & q1 & E1 & Hs1 & _ & Hq1 & Hwf1 & Ho1 & Hr1 & Hj1).
  rewrite E1. cbn [fst snd].
  destruct (IH s1 q1 Hwf1 Hs1) as (s2 & q2 & E2 & Hs2 & Hq2 & Hwf2 & Ho2 & Hr2 & Hj2).
  rewrite E2. exists s2, q2. split_and!; [| done | by etrans | done | | auto |].
  - rewrite lost_jobs_spec, filter_app. do 2 f_equal. apply filter_ext_elem. intros j _. by rewrite Ho1.
  - intros l. by rewrite Ho2, Ho1.
  - intros j [Hj|Hj]%elem_of_app Hown; [by apply Hr2, Hj1|]. apply Hj2; [done | by rewrite Ho1].
Qed.

Lemma heartbeat_reliable held s q :
  q_wf q -> represents (K_of b) (view s) q ->
  exists s' q', heartbeat_tick held (b, s) =
      ((b, s'), filter (fun j => lease_owns q (JLease j) = false) held) /\
    represents (K_of b) (view s') q' /\
    (forall j, j ∈ held -> lease_owns q (JLease j) = true -> renewed q' (JLease j)).
Proof.
  intros Hwf Hs. unfold heartbeat_tick.
  destruct (beat_ok (chunks (length held) maxBatch held) s q Hwf Hs)
    as (s' & q' & Eb & Hs' & _ & _ & _ & _ & Hj).
  rewrite chunks_concat in Eb, Hj by (unfold maxBatch; lia). eauto 10.
Qed.
End reliable.

(** ** Group commit and heartbeats over any client *)

Section any_client.
Context {R : Redis} {L : RedisLaws R} {C : Client R} {CL : ClientLaws C} {E : Env R}.
Context (b : Store) (HK : keys_ok (K_of b)).
Implicit Types q : qstate.

Lemma AckBatch_length jobs s : length (AckBatch b jobs s).2 = length jobs.
Proof.
  unfold AckBatch, fencedBatch. match goal with |- context [call ?m s] => destruct (call m s) end. apply length_imap.
Qed.

Lemma ackLoop_answers avail fuel : forall k reqs s,
  (length reqs <= fuel)%nat -> (ackLoop store_batch avail fuel k reqs (b, s)).2.*1 = reqs.
Proof.
  induction fuel as [|fuel IH]; intros k reqs s Hfuel; [by destruct reqs; [|simpl in Hfuel; lia]|].
  destruct reqs as [|r reqs0]; [done|]. set (reqs := r :: reqs0) in *. cbn [ackLoop]. unfold reqs at 1.
  set (n := Nat.min maxBatch (Nat.max 1 (avail k))).
  assert (1 <= n)%nat as Hn by (unfold n, maxBatch; lia).
  unfold ack_batch. change (store_batch (take n reqs) (b, s))
    with ((b, (AckBatch b (take n reqs) s).1), (AckBatch b (take n reqs) s).2).
  pose proof (AckBatch_length (take n reqs) s) as Hlen. destruct (AckBatch b (take n reqs) s) as [s1 errs].
  cbn [fst snd] in *.
  specialize (IH (S k) (drop n reqs) s1 ltac:(rewrite length_drop; unfold reqs in *; simpl in *; lia)).
  destruct (ackLoop store_batch avail fuel (S k) (drop n reqs) (b, s1)) as [w2 outs]. cbn [fst snd] in *.
  rewrite fmap_app, IH, fst_zip by lia. apply take_drop.
Qed.

(** What a batch of renewals does to the queue. *)
Record renewals q q' (jobs : list Job) : Prop := {
  rn_wf : q_wf q';
  rn_owns : forall l, lease_owns q' l = lease_owns q l;
  rn_keeps : forall l, renewed q l -> renewed q' l;
  rn_renews : forall j, j ∈ jobs -> lease_owns q (JLease j) = true -> renewed q' (JLease j);
}.

Definition reply q (j : Job) : Z := if lease_owns q (JLease j) then 1 else 0.

Lemma extends_ok jobs : forall q, q_wf q ->
  wpq (K_of b) (one_by_one (extendScript (cfg_Stream (st_config b)) (cfg_Group (st_config b))) (lease_args jobs)) q
    (fun ns q' => ns = reply q <$> jobs /\ renewals q q' jobs).
Proof.
  induction jobs as [|j jobs IH]; intros q Hwf; unfold lease_args; cbn [fmap list_fmap one_by_one].
  { apply wpq_ret. split; [done|]. split; try done. by intros j ?%not_elem_of_nil. }
  fold (lease_args jobs). set (l := JLease j).
  eapply (wpq_bind _ _ _ _ (fun n q1 => n = reply q j /\ renewals q q1 [j])).
  { eapply wpq_mono; [by apply (extendScript_ok HK)|]. cbn beta. intros n q1.
    fold (lease_owns q l). unfold reply. fold l. destruct (lease_owns q l) eqn:Eo; intros [= -> ->].
    - split; [done|]. split; [auto with dtq | intros l'; by eapply renew_owns | apply renew_keeps_renewed |].
      intros j' ->%list_elem_of_singleton _. by apply renew_renewed.
    - split; [done|]. split; try done. intros j' ->%list_elem_of_singleton. fold l. congruence. }
  intros n q1 [-> [W1 O1 K1 N1]]. eapply wpq_bind; [by apply IH|]. cbn beta. intros ns q2 [-> [W2 O2 K2 N2]].
  apply wpq_ret. split.
  - cbn. f_equal. apply list_fmap_ext. intros i j' _. unfold reply. by rewrite O1.
  - split; [done | intros l'; by rewrite O2, O1 | auto |].
    intros j' [->|Hj]%elem_of_cons Hown; [apply K2, N1; [by left | done]|]. apply N2; [done | by rewrite O1].
Qed.

(** The jobs a batch finds lost: those it does not own, or none if the call failed. *)
Definition lost_in q (ok : bool) (batch : list Job) : list Job :=
  if ok then filter (fun j => lease_owns q (JLease j) = false) batch else [].

Lemma ExtendBatch_any jobs s q :
  q_wf q -> represents (K_of b) (view s) q ->
  exists s' errs q' ok, ExtendBatch b jobs s = (s', errs) /\ represents (K_of b) (view s') q' /\
    lost_jobs jobs errs = lost_in q ok jobs /\ renewals q q' [] /\ (ok = true -> renewals q q' jobs).
Proof.
  intros Hwf Hs. unfold ExtendBatch, fencedBatch. fold (lease_args jobs).
  destruct (wpc_call (K:=K_of b) (extendBatchScript (cfg_Stream (st_config b)) (cfg_Group (st_config b)) (lease_args jobs))
    (fun q1 => renewals q q1 []) (fun ns q1 => ns = reply q <$> jobs /\ renewals q q1 jobs) q) with (s := s)
    as (s' & r & q' & Ec & Hs' & _ & HJ & HQ); [split; try done; by intros j ?%not_elem_of_nil | | done|].
  - intros q1 [W1 O1 K1 _]. eapply wpq_ext; [intros; symmetry; apply extendBatch_one_by_one|].
    eapply wpq_mono; [by apply extends_ok|]. cbn beta. intros ns q2 [-> [W2 O2 K2 N2]].
    assert (reply q1 <$> jobs = reply q <$> jobs) as ->
      by (apply list_fmap_ext; intros i j _; unfold reply; by rewrite O1).
    assert (forall js, (forall j, j ∈ js -> j ∈ jobs) -> renewals q q2 js) as Hall.
    { intros js Hjs. split; [done | intros l; by rewrite O2 | auto |].
      intros j Hj Hown. apply N2; [by apply Hjs | by rewrite O1]. }
    split_and!; [apply Hall; by intros j ?%not_elem_of_nil | done | by apply Hall].
  - rewrite Ec. destruct r as [ns|e]; simpl in HQ.
    + destruct HQ as [-> HQ]. eexists s', _, q', true. split_and!; [done | done | | done | done].
      simpl. rewrite <- (lost_jobs_spec q jobs). f_equal. apply list_eq. intros i.
      rewrite list_lookup_imap, !list_lookup_fmap. destruct (jobs !! i) as [j|]; [|done]. simpl.
      unfold reply. by destruct (lease_owns q (JLease j)).
    + eexists s', _, q', false. split_and!; [done | done | | done | done]. simpl. unfold lost_jobs.
      assert (forall js : list (Job * option error), Forall (fun je => je.2 = Some e) js ->
        filter (fun je => is_lost je.2 = true) js = []) as Hnone.
      { intros js Hjs. induction Hjs as [|[j o] js Ho _ IH]; [done|]. simpl in Ho. subst o.
        rewrite filter_cons_False; [done|]. simpl. by destruct e. }
      rewrite Hnone; [done|]. apply Forall_lookup. intros i [j o] Hi.
      apply lookup_zip_with_Some in Hi as (j' & o' & [= -> ->] & _ & Ho). rewrite list_lookup_imap in Ho.
      destruct (jobs !! i); [|done]. by injection Ho as <-.
Qed.

Lemma beat_any batches : forall s q,
  q_wf q -> represents (K_of b) (view s) q ->
  exists s' q' oks, length oks = length batches /\
    beat batches (b, s) = ((b, s'), concat (zip_with (lost_in q) oks batches)) /\
    represents (K_of b) (view s') q' /\ renewals q q' [] /\
    (forall i batch, oks !! i = Some true -> batches !! i = Some batch ->
       forall j, j ∈ batch -> lease_owns q (JLease j) = true -> renewed q' (JLease j)).
Proof.
  induction batches as [|batch batches IH]; intros s q Hwf Hs; cbn [beat].
  { exists s, q, []. split_and!; try done. split; try done. by intros j ?%not_elem_of_nil. }
  unfold extend. simpl. unfold on_store. cbn [fst snd].
  destruct (ExtendBatch_any batch s q Hwf Hs) as (s1 & errs & q1 & ok & E1 & Hs1 & El & [W1 O1 K1 _] & Hok).
  rewrite E1. cbn [fst snd]. destruct (IH s1 q1 W1 Hs1) as (s2 & q2 & oks & Hlen & E2 & Hs2 & [W2 O2 K2 _] & Hj2).
  rewrite E2. exists s2, q2, (ok :: oks). split_and!; [simpl; lia | | done | |].
  - rewrite El. cbn [zip_with concat]. do 3 f_equal. clear -O1. revert oks.
    induction batches as [|x xs IH]; intros [|o os]; [done..|]. cbn [zip_with]. f_equal; [|apply IH].
    destruct o; [|done]. apply filter_ext_elem. intros j _. by rewrite O1.
  - split; [done | intros l; by rewrite O2, O1 | auto | by intros j ?%not_elem_of_nil].
  - intros [|i] bt Hi Hb j Hj Hown; simpl in *.
    + injection Hi as ->. injection Hb as ->. apply K2. by eapply (rn_renews _ _ _ (Hok eq_refl)).
    + apply (Hj2 i bt Hi Hb j Hj). by rewrite O1.
Qed.
End any_client.

Section batching.
Context {R : Redis} {L : RedisLaws R} {C : Client R} {CL : ClientLaws C} {E : Env R} (b : Store).
Implicit Types q : qstate.

(** C26: group commit: however the ack requests of concurrent jobs fall into batches,
    and whatever the client does, every request is answered once, in order. Over a
    client that delivers every request once and its reply, batching is transparent:
    each request gets the result its own [Ack] would have had, and the queue ends in
    the same state. (When a batch's call fails, all its requests get that error.) *)
Theorem ackLoop_transparent avail k reqs s q :
  keys_ok (K_of b) -> represents (K_of b) (view s) q ->
  (ackLoop store_batch avail (length reqs) k reqs (b, s)).2.*1 = reqs /\
  (reliable C -> ackLoop store_batch avail (length reqs) k reqs (b, s) =
     ((b, (each_job (Ack b) reqs s).1), zip reqs (each_job (Ack b) reqs s).2)).
Proof.
  intros HK Hs. split; [by apply ackLoop_answers|]. intros Hrel. by eapply ackLoop_reliable.
Qed.

End batching.

(** *** Witnesses *)

#[export] Instance ref_worker_env : WorkerEnv (Store * rview) := {|
  now w := rv_now w.2 * millisecond;
  rand_Float64 _ := 0%Q;
  job_cause _ _ := None;
  cancel_jobs _ _ w := w;
  ack_mates _ _ := ([], []);
  fmt_q s := s;
|}.

Definition demo_cfg : WorkerConfig :=
  NewWorker (mkWorkerConfig "w1" 4 0 false 0 0 0 0 0 (mkRetryPolicy 0 0 F_nan)).

Definition demo_world : Store * rview := (default_store, demo_db).

(** The "email" handler succeeds and touches nothing. *)
Definition demo_handlers : gmap string (HandlerFunc (Store * rview)) :=
  {[ "email" := fun _ w => (w, mkJobResult false None) ]}.

(** ... and one that fails and may be tried again. *)
Definition failing_handlers : gmap string (HandlerFunc (Store * rview)) :=
  {[ "email" := fun _ w => (w, NewRetryableError (ErrMsg "smtp")) ]}.

Lemma demo_store_ok : store_ok (R:=ref_redis) default_store demo_world.
Proof. split_and!; [done | done|]. exists demo_q. split; [apply demo_represents | apply demo_inv]. Qed.

(** With no handlers, a job is skipped or dead-lettered. *)
Lemma no_handlers_ok job w :
  store_ok default_store w ->
  store_ok default_store (process (B:=store_backend (R:=ref_redis)) demo_cfg ∅ job w).1.
Proof.
  intros Hok. unfold process.
  assert (store_ok default_store (handleOne (B:=store_backend (R:=ref_redis)) demo_cfg ∅ job w).1) as H.
  { assert (forall reason, store_ok default_store
      (deadLetter (B:=store_backend (R:=ref_redis)) job reason w).1) as Hdl.
    { intros reason. destruct w as [b s]. destruct Hok as (Hc & Hd & q & Hs & Hinv). simpl in Hc, Hd, Hs.
      pose proof (K_of_same b default_store Hc Hd) as Ek. unfold deadLetter. simpl.
      destruct (DeadLetter_ok (R:=ref_redis) b ltac:(rewrite Ek; apply default_keys_ok) q job reason
        (rv_now s * millisecond) s ltac:(by rewrite Ek)) as (s' & r & q' & Ed & Hs' & _ & Ho).
      rewrite Ed. simpl. rewrite Ek in Hs'.
      assert (reaches q q') as Hr.
      { eapply fenced_outcome_reaches; [exact Ho|]. intros Hown [did ->].
        eapply reaches_step, (step_settle _ _ _ (Buried _) did); [exact Hown | done]. }
      assert (store_ok (R:=ref_redis) default_store (b, s')).
      { split_and!; [done | done|]. exists q'. split; [done | by eapply reaches_inv]. }
      by destruct r. }
    unfold handleOne. destruct (_ <? _); [apply Hdl|]. rewrite lookup_empty.
    destruct (_ <=? _); [apply Hdl | done]. }
  destruct (handleOne demo_cfg ∅ job w) as [w' [evs [e|]]]; done.
Qed.

Lemma store_ok_reaches b s s' q q' :
  store_ok (R:=ref_redis) default_store (b, s) -> represents (K_of default_store) s q -> q_inv (R:=ref_redis) q ->
  represents (K_of default_store) s' q' -> reaches (R:=ref_redis) q q' ->
  store_ok (R:=ref_redis) default_store (b, s').
Proof.
  intros (Hc & Hd & _) _ Hinv Hs' Hr. split_and!; [done | done|]. exists q'.
  split; [done | by eapply reaches_inv].
Qed.

(** A worker without handlers keeps the queue in good order. *)
Lemma demo_background w w' :
  background (B:=store_backend (R:=ref_redis)) demo_cfg ∅ eq w w' ->
  store_ok (R:=ref_redis) default_store w -> store_ok (R:=ref_redis) default_store w'.
Proof.
  intros Hbg Hok. destruct Hbg as [job w|held w|w|jobs e w|w|w w' <-]; try done; [by apply no_handlers_ok|..];
    destruct w as [b s]; pose proof Hok as (Hc & Hd & q & Hs & Hinv); simpl in Hc, Hd, Hs;
    pose proof (K_of_same b default_store Hc Hd) as Ek;
    assert (keys_ok (K_of b)) as HK by (rewrite Ek; apply default_keys_ok); rewrite <- Ek in Hs.
  - unfold heartbeat_tick.
    destruct (beat_ok (R:=ref_redis) ref_client_reliable b HK (chunks (length held) maxBatch held) s q
      (proj1 Hinv) Hs) as (s' & q' & Eb & Hs' & Hr & _). rewrite Eb. rewrite Ek in Hs, Hs'.
    by eapply store_ok_reaches.
  - unfold report_stats. cbn [be_Stats store_backend]. unfold on_store. cbn [fst snd].
    destruct (Stats_exact (R:=ref_redis) ref_client_reliable b s q Hs) as (s' & E & V).
    change (@between_commands ref_redis ref_env) with (fun s : rview => s). simpl in E |- *.
    rewrite E. simpl in V |- *. by subst s'.
  - unfold deregister. simpl. unfold on_store, of_unit. simpl.
    destruct (Deregister_ok (R:=ref_redis) b HK q "w1" s Hs) as (s' & r & q' & E & Hs' & _ & Hq & _).
    rewrite E. simpl. rewrite Ek in Hs, Hs'. eapply store_ok_reaches; [done | done | done | done|].
    destruct Hq as [->|[Hi ->]]; [reflexivity | by eapply reaches_step, step_drop].
Qed.

Lemma concurrency_bound_witness :
  let r := RState (Fetching 4) [] 0 zero_time demo_world in
  Z.of_nat (length (r_running r)) <= 4.
Proof.
  apply (concurrency_bound (B:=store_backend (R:=ref_redis)) demo_cfg (store_ok default_store)
    (BL:=store_backend_limits default_store default_keys_ok (ref_env_laws _))
    ∅ eq demo_background demo_world (RState Deciding [] 0 zero_time demo_world)).
  - discriminate.
  - apply demo_store_ok.
  - reflexivity.
  - eapply rsteps_step; [apply rs_decide | apply rsteps_refl].
Defined.

Lemma drain_completes_witness :
  let r := RState Draining [demo_job] 0 zero_time demo_world in
  exists r', rsteps (B:=store_backend (R:=ref_redis)) demo_cfg demo_handlers eq r r' /\
    r_phase r' = Stopped /\
    r_world r' = deregister (B:=store_backend (R:=ref_redis)) demo_cfg
      (finish_all (B:=store_backend (R:=ref_redis)) demo_cfg demo_handlers [demo_job] demo_world).
Proof.
  intros r. apply (drain_completes (B:=store_backend (R:=ref_redis)) demo_cfg demo_handlers eq r). reflexivity.
Defined.

(** [demo_job] delivered for the sixth time. *)
Definition demo_poison : Job := set_Lease demo_job (mkLease (5%N, 0%N) "w1" 6 0).

Lemma poison_never_runs_witness :
  handleOne (B:=store_backend (R:=ref_redis)) demo_cfg demo_handlers demo_poison demo_world =
  handleOne (B:=store_backend (R:=ref_redis)) demo_cfg ∅ demo_poison demo_world.
Proof.
  apply (poison_never_runs (B:=store_backend (R:=ref_redis)) demo_cfg demo_handlers ∅). reflexivity.
Defined.

Lemma retry_has_attempts_left_witness : Attempt demo_job + 1 < MaxAttempts demo_job.
Proof.
  apply (retry_has_attempts_left (B:=store_backend (R:=ref_redis)) demo_cfg failing_handlers demo_job demo_world).
  - by split.
  - assert ((handleOne (B:=store_backend (R:=ref_redis)) demo_cfg failing_handlers demo_job demo_world).2.1
      = [JobStarted demo_job; JobFailed demo_job true; JobRetried demo_job;
         Outcome "retried" (Some (ErrMsg "smtp"))]) as -> by (vm_compute; reflexivity).
    right. right. left.
Defined.

Lemma completed_means_acked_witness :
  lease_owns demo_q (JLease demo_job) = true /\
  exists q', represents (K_of default_store)
    (handleOne (B:=store_backend (R:=ref_redis)) demo_cfg demo_handlers demo_job demo_world).1.2 q' /\
    settled q' (5%N, 0%N).
Proof.
  apply (completed_means_acked (R:=ref_redis) demo_cfg demo_handlers default_store
    (fun _ w => (w, mkJobResult false None)) demo_job demo_db demo_q).
  - apply default_keys_ok.
  - reflexivity.
  - exists demo_db. split; [reflexivity | apply demo_represents].
  - match goal with |- _ ∈ ?evs =>
      assert (evs = [JobStarted demo_job; JobCompleted demo_job; Outcome "completed" None])
        as -> by (vm_compute; reflexivity) end.
    right. left.
Defined.

Lemma handleOne_no_loss_witness :
  (exists h, failing_handlers !! Task demo_job = Some h /\ ResErr (h demo_job demo_world).2 = None /\
     job_cause demo_job (h demo_job demo_world).1 = None) \/
  exists q', represents (K_of default_store)
    (handleOne (B:=store_backend (R:=ref_redis)) demo_cfg failing_handlers demo_job demo_world).1.2 q' /\
    accounted q' demo_job (demo_fields demo_job).
Proof.
  apply (handleOne_no_loss (R:=ref_redis) demo_cfg failing_handlers default_store demo_job demo_db demo_q).
  - apply default_keys_ok.
  - apply demo_represents.
  - by left.
  - intros h Hh. exists demo_q. split; [|by left]. exists demo_db.
    split; [|apply demo_represents]. injection Hh as <-. reflexivity.
Defined.

Lemma ackLoop_transparent_witness :
  (ackLoop (store_batch (R:=ref_redis)) (fun _ => 1%nat) 2 0 [demo_job; demo_job] demo_world).2.*1 =
    [demo_job; demo_job] /\
  (reliable ref_client ->
   ackLoop (store_batch (R:=ref_redis)) (fun _ => 1%nat) 2 0 [demo_job; demo_job] demo_world =
   ((default_store, (each_job (Ack default_store) [demo_job; demo_job] demo_db).1),
    zip [demo_job; demo_job] (each_job (Ack default_store) [demo_job; demo_job] demo_db).2)).
Proof.
  apply (ackLoop_transparent (R:=ref_redis) default_store (fun _ => 1%nat) 0 [demo_job; demo_job] demo_db demo_q);
    [apply default_keys_ok | apply demo_represents].
Defined.

