(* ===== verification/StoreLeases.v ===== *)
(** * The store keeps the promise about leases

    [Store] over any server and client that keep theirs: the leases it hands out
    are new, a lease once superseded stays so, and no operation ends a delivery, or
    reports a lease lost, that is not over. Discharges [LeaseLaws] for the
    backend of [StoreBackend], whatever other clients do meanwhile. *)

From S2P Require Import Prelude GoNum GoTime Errors Job GoJson Redis RefRedis Scripts QueueSpec.
From S2P Require Import QueueRep ScriptsOk QueueSteps Store JobCodec StoreOk EnqueueOk ClaimOk.
From S2P Require Import EnqueueProps StoreRun Backend StoreBackend Worker LeaseLaws.
From stdpp Require Import strings.

Open Scope Z_scope.

(** ** Leases of the abstract queue *)

Section queue.
Context {R : Redis}.
Implicit Types q : qstate.

(** The delivery was handed out with this lease, or one like it: no later one will be. *)
Definition q_issued q (l : Lease) : Prop :=
  eid_le (MessageID l) (q_last q) /\
  forall p, q_pel q !! MessageID l = Some p ->
    Token l < pe_count p \/ (Token l = pe_count p /\ Owner l = pe_owner p).

Definition q_over q (l : Lease) : Prop := superseded q (MessageID l) (Token l).

Lemma qstep_issued a q q' l : qstep a q q' -> q_issued q l -> q_issued q' l.
Proof.
  intros Hs [Hle Hp]. split; [eapply eid_le_trans; [done | by eapply qstep_last]|].
  destruct Hs as [i ? ? f|id o t q Hown| | | | |? ? ? ? ? ? _ _ Hpr| |c ids q Hnd Hpend| |]; simpl; try done.
  - intros p [_ Hi]%lookup_delete_Some. destruct f; simpl in Hi; auto.
  - apply q_owns_pending in Hown as (p0 & Hp0 & <- & <-).
    intros p. destruct (decide (id = MessageID l)) as [->|]; [|rewrite lookup_alter_ne by done; auto].
    rewrite lookup_alter_eq. intros (p' & Hp' & ->)%fmap_Some. simplify_eq. simpl. auto.
  - destruct (promoted_pel _ _ _ Hpr) as (-> & _). done.
  - intros p. rewrite lookup_deliver_all. case_decide as Hin; [|auto].
    apply list_elem_of_fmap in Hin as (e & He1 & He). apply elem_of_q_ready in He as [_ Hlt].
    rewrite He1 in Hle. destruct (eid_lt_irrefl (q_last q)). by eapply eid_lt_le_trans.
  - intros p. rewrite lookup_claim_all by done. case_decide; [|auto].
    intros (p' & Hp' & ->)%fmap_Some. simpl. specialize (Hp p' Hp'). lia.
Qed.

Lemma reaches_issued q q' l : reaches q q' -> q_issued q l -> q_issued q' l.
Proof. intros [tr Hs]. revert Hs. apply (qsteps_ind_inv (fun q => q_issued q l)). intros. by eapply qstep_issued. Qed.

Lemma reaches_over q q' l : reaches q q' -> q_over q l -> q_over q' l.
Proof. intros [tr Hs]. by eapply qsteps_superseded. Qed.

Lemma owned_issued q l : q_wf q -> lease_owns q l = true -> q_issued q l.
Proof.
  intros Hwf (p & Hp & Ho & Ht)%q_owns_pending. split; [by apply (wf_pending _ Hwf _ _ Hp)|].
  intros p' Hp'. simplify_eq. auto.
Qed.

Lemma lost_over q l : q_issued q l -> lease_owns q l = false -> q_over q l.
Proof.
  intros [Hle Hp] Hown. split; [done|]. intros p Hp1. destruct (Hp p Hp1) as [?|[Ht Ho]]; [done|].
  unfold lease_owns, q_owns in Hown. rewrite Hp1, bool_decide_eq_true_2, Ht, Z.eqb_refl in Hown by done. done.
Qed.

(** Settling ends every lease of the delivery. *)
Lemma settled_over q q1 l : q_issued q l -> q_last q1 = q_last q -> q_over (q_settle (MessageID l) q1) l.
Proof. intros [Hle _] E. split; simpl; [by rewrite E|]. intros p. by rewrite lookup_delete_eq. Qed.

Lemma new_jobs_fresh q jobs : new_jobs q jobs -> Forall (fun j => ~ q_issued q (JLease j)) jobs.
Proof.
  intros Hn. eapply Forall_impl; [exact Hn|]. intros j Hlt [Hle _]. exact (eid_lt_irrefl _ (eid_lt_le_trans _ _ _ Hlt Hle)).
Qed.

Lemma taken_over_fresh q q1 idle jobs :
  reaches q q1 -> Forall (taken_over q1 idle) jobs -> Forall (fun j => ~ q_issued q (JLease j)) jobs.
Proof.
  intros Hr Ht. eapply Forall_impl; [exact Ht|]. clear Ht. intros j (p & Hp & _ & Ht) Hi.
  destruct (proj2 (reaches_issued _ _ _ Hr Hi) p Hp) as [?|[? _]]; lia.
Qed.

Lemma handed_out_issued {C : Client R} w limit q jobs :
  q_wf q -> handed_out w limit q jobs -> Forall (fun j => q_issued q (JLease j)) jobs.
Proof. intros Hwf (Hj & _). eapply Forall_impl; [exact Hj|]. intros j (Ho & _). by apply owned_issued. Qed.

(** Jobs handed out between [q] and [q'], with leases nobody had. *)
Definition fresh_out (limit : Z) (jobs : list Job) q q' : Prop :=
  (Z.of_nat (length jobs) <= limit /\ NoDup (JLease <$> jobs)) /\
  Forall (fun j => ~ q_issued q (JLease j)) jobs /\ Forall (fun j => q_issued q' (JLease j)) jobs.

Lemma fresh_out_nil limit q q' : 0 < limit -> fresh_out limit [] q q'.
Proof. intros. split_and!; [simpl; lia | constructor..]. Qed.

Lemma handed_out_fresh {C : Client R} w limit q q' jobs :
  q_wf q' -> handed_out w limit q' jobs -> Forall (fun j => ~ q_issued q (JLease j)) jobs ->
  fresh_out limit jobs q q'.
Proof.
  intros Hwf Hh Hn. split; [|split; [done | by eapply handed_out_issued]].
  destruct Hh as (_ & Hnd & Hlen). split; [done|]. rewrite list_fmap_compose in Hnd. by eapply NoDup_fmap_1.
Qed.
End queue.

(** ** Batches *)

Section batch.
Context {R : Redis} {L : RedisLaws R} {C : Client R} {CL : ClientLaws C}.
Context (b : Store) (HK : keys_ok (K_of b)).
Implicit Types q : qstate.

Definition lease3 (a : triple) : Lease := mkLease a.1.1 a.1.2 a.2 0.

Lemma q_issued_lease3 q l : q_issued q (lease3 (MessageID l, Owner l, Token l)) <-> q_issued q l.
Proof. done. Qed.

(** A script on one delivery makes steps of the queue, and if its reply satisfies
    [says], the lease is over. *)
Definition script_law (says : Z -> Prop) (script : eid -> string -> Z -> SE rdb error Z) : Prop :=
  forall q id o t, q_inv q -> wpq (K_of b) (script id o t) q (fun n q' =>
    reaches q q' /\ (q_issued q (lease3 (id, o, t)) -> says n -> q_over q' (lease3 (id, o, t)))).

Definition batch_over (says : Z -> Prop) q q' (a : triple) (n : Z) : Prop :=
  q_issued q (lease3 a) -> says n -> q_over q' (lease3 a).

Lemma batch_over_later says q0 q q' q2 a n :
  reaches q0 q -> reaches q' q2 -> batch_over says q q' a n -> batch_over says q0 q2 a n.
Proof. intros H0 H2 H Hi Hn. eapply reaches_over; [done|]. apply H; [by eapply reaches_issued | done]. Qed.

Lemma one_by_one_law says script argv : script_law says script -> forall q, q_inv q ->
  wpq (K_of b) (one_by_one script argv) q (fun ns q' => reaches q q' /\ Forall2 (batch_over says q q') argv ns).
Proof.
  intros Hs. induction argv as [|[[id o] t] argv IH]; intros q Hinv; cbn [one_by_one].
  { apply wpq_ret. split; [reflexivity | constructor]. }
  eapply wpq_bind; [by apply Hs|]. cbn beta. intros n q1 [Hr1 Hn].
  eapply wpq_bind; [by eapply IH, reaches_inv|]. cbn beta. intros ns q2 [Hr2 Hns]. apply wpq_ret.
  split; [by etrans|]. constructor.
  - eapply batch_over_later; [reflexivity | exact Hr2 | exact Hn].
  - eapply Forall2_impl; [exact Hns|]. intros. by eapply batch_over_later; [|reflexivity|].
Qed.

(** The error a reply is turned into. *)
Definition reply_error (n : Z) : option error := if n =? 0 then Some ErrLeaseLost else None.

Definition job_over (says : option error -> Prop) q q' (job : Job) (err : option error) : Prop :=
  q_issued q (JLease job) -> says err -> q_over q' (JLease job).

Lemma batch_errs ns (jobs : list Job) :
  length ns = length jobs ->
  imap (fun i _ => match ns !! i with
                   | None => Some ErrLeaseLost
                   | Some n => if n =? 0 then Some ErrLeaseLost else None
                   end) jobs = reply_error <$> ns.
Proof.
  intros Hlen. apply list_eq_same_length with (n := length jobs);
    [by rewrite ?length_imap, ?length_fmap..|]. intros i x y Hi.
  rewrite list_lookup_imap, list_lookup_fmap. unfold reply_error.
  destruct (ns !! i) as [n|]; simpl; [|done]. destruct (jobs !! i); simpl; congruence.
Qed.

(** A fenced batch: steps of the queue, and an answer for every job; an answer that
    satisfies [says] is given only for a lease that is over. *)
Lemma fencedBatch_law says batch script jobs q s :
  (forall g argv s, batch g argv s = one_by_one (script g) argv s) ->
  script_law (fun n => says (reply_error n)) (script (cfg_Group (st_config b))) ->
  (forall e, net_error e -> ~ says (Some e)) ->
  q_inv q -> represents (K_of b) (view s) q ->
  exists s' errs q', fencedBatch b batch jobs s = (s', errs) /\ represents (K_of b) (view s') q' /\
    reaches q q' /\ Forall2 (job_over says q q') jobs errs.
Proof.
  intros Hb Hs Hnet Hinv Hrep. unfold fencedBatch. fold (lease_args jobs).
  destruct (wpc_call (K:=K_of b) (batch (cfg_Group (st_config b)) (lease_args jobs)) (reaches q)
    (fun ns q' => Forall2 (batch_over (fun n => says (reply_error n)) q q') (lease_args jobs) ns) q)
    with (s := s) as (s' & r & q' & E & Hs' & _ & Hr & Hpost); [reflexivity | | done |].
  - intros q1 Hr1. eapply wpq_ext; [intros; symmetry; apply Hb|].
    eapply wpq_mono; [by eapply one_by_one_law, reaches_inv|]. cbn beta. intros ns q2 [Hr2 Hns].
    split; [by etrans|]. eapply Forall2_impl; [exact Hns|]. intros. by eapply batch_over_later; [|reflexivity|].
  - rewrite E. eexists _, _, q'. split_and!; [done | done | done|]. destruct r as [ns|e].
    + unfold lease_args in Hpost. rewrite Forall2_fmap_l in Hpost.
      rewrite (batch_errs ns jobs) by exact (eq_sym (Forall2_length _ _ _ Hpost)).
      apply Forall2_fmap_r. eapply Forall2_impl; [exact Hpost|]. intros job n Hn. exact Hn.
    + apply Forall2_same_length_lookup_2; [by rewrite length_imap|]. intros i job err Hj He.
      rewrite list_lookup_imap, Hj in He. injection He as <-. intros _ Hsay. by apply Hnet in Hsay.
Qed.

Lemma ack_script_law says :
  script_law says (ackScript (cfg_Stream (st_config b)) (cfg_Group (st_config b))).
Proof.
  intros q id o t [Hwf _]. eapply wpq_mono; [apply (ackScript_ok HK)|]. cbn beta. intros n q'.
  destruct (q_owns q id o t) eqn:E; intros [= _ ->]; split.
  - by eapply reaches_step, (step_settle _ _ _ Acked (0%N, 0%N)).
  - intros Hi _. exact (settled_over q q _ Hi eq_refl).
  - reflexivity.
  - intros Hi _. by apply lost_over.
Qed.

Lemma extend_script_law (says : option error -> Prop) :
  ~ says None ->
  script_law (fun n => says (reply_error n)) (extendScript (cfg_Stream (st_config b)) (cfg_Group (st_config b))).
Proof.
  intros Hno q id o t [Hwf _]. eapply wpq_mono; [by apply (extendScript_ok HK)|]. cbn beta. intros n q'.
  destruct (q_owns q id o t) eqn:E; intros [= -> ->]; split.
  - by eapply reaches_step, step_renew.
  - done.
  - reflexivity.
  - intros Hi _. by apply lost_over.
Qed.
End batch.

(** ** The gauges *)

Section stats.
Context {R : Redis} {L : RedisLaws R} {C : Client R} {CL : ClientLaws C}.
Context (b : Store) (between : rdb -> rdb) (Hgap : env_ok b between).
Implicit Types q : qstate.

(** A program that makes steps of the queue, whatever its reply. *)
Definition walks {A} (m : SE rdb error A) : Prop := forall s q,
  represents (K_of b) (view s) q -> q_inv q ->
  exists q', represents (K_of b) (view (m s).1) q' /\ reaches q q'.

Lemma walks_ret {A} (a : A) : walks (ret a).
Proof. intros s q Hs _. exists q. by split. Qed.

Lemma walks_bind {A B} (m : SE rdb error A) (k : A -> SE rdb error B) :
  walks m -> (forall a, walks (k a)) -> walks (bind m k).
Proof.
  intros Hm Hk s q Hs Hinv. destruct (Hm s q Hs Hinv) as (q1 & Hs1 & Hr1). unfold bind.
  destruct (m s) as [s1 [a|e]]; simpl in *; [|eauto].
  destruct (Hk a s1 q1 Hs1 (reaches_inv _ _ Hr1 Hinv)) as (q2 & Hs2 & Hr2).
  exists q2. split; [done | by etrans].
Qed.

Lemma walks_call {A} (m : SE rdb error A) : walks m -> walks (call m).
Proof.
  intros Hm s q Hs Hinv.
  assert (forall n r s q, represents (K_of b) (view s) q -> q_inv q ->
    exists q', represents (K_of b) (view (repeat_run n m r s).1) q' /\ reaches q q') as Hrep.
  { clear s q Hs Hinv. induction n as [|n IH]; intros r s q Hs Hinv; simpl; [by exists q|].
    destruct (Hm s q Hs Hinv) as (q1 & Hs1 & Hr1). destruct (m s) as [s1 r1]. simpl in *.
    destruct (IH r1 s1 q1 Hs1 (reaches_inv _ _ Hr1 Hinv)) as (q2 & Hs2 & Hr2).
    exists q2. split; [done | by etrans]. }
  destruct (call_law A m s) as (n & [(r & Ec)|(r & e & Ec & _)]); rewrite Ec; by apply Hrep.
Qed.

Lemma walks_reads {A} (m : SE rdb error A) :
  (forall s q, represents (K_of b) (view s) q -> runs m s (fun s' _ => view s' = view s)) -> walks m.
Proof.
  intros Hm s q Hs Hinv. destruct (Hm s q Hs) as (s' & a & Em & Hv). rewrite Em. exists q. simpl. by rewrite Hv.
Qed.

Lemma Stats_walks : walks (store_Stats b between).
Proof.
  assert (forall k, (k = k_stream (K_of b) \/ k = k_dead (K_of b)) -> walks (XLEN k)) as Hlen.
  { intros k Hk. apply walks_reads. intros s q Hs. destruct (rep_stream _ _ _ Hs) as (groups & Hst & _).
    destruct (rep_dead _ _ _ Hs) as (top & dgroups & Hd).
    destruct Hk as [->| ->]; [destruct (XLEN_law s _ _ (stream_or_new_at _ _ _ Hst)) as (s1 & n & E & V & _)
      | destruct (XLEN_law s _ _ Hd) as (s1 & n & E & V & _)]; by exists s1, n. }
  assert (walks (fun s => (between s, Ok ()))) as Hb.
  { intros s q Hs _. by apply Hgap. }
  apply walks_call. apply walks_bind; [apply Hlen; by left|]. intros n1. apply walks_bind; [done|]. intros _.
  apply walks_bind.
  { apply walks_reads. intros s q Hs. destruct (rep_stream _ _ _ Hs) as (groups & Hst & Hg).
    destruct (XPENDING_COUNT_law s (k_stream (K_of b)) (k_group (K_of b)) _
      ltac:(unfold group_at; rewrite Hst; exact Hg)) as (s2 & n2 & E2 & V2 & _). by exists s2, n2. }
  intros n2. apply walks_bind; [done|]. intros _. apply walks_bind; [apply Hlen; by right|].
  intros n3. apply walks_bind; [done|]. intros _. apply walks_bind; [|intros; apply walks_ret].
  apply walks_reads. intros s q Hs. pose proof (rep_zset _ _ _ Hs) as Hz.
  destruct (ZCARD_law s (k_zset (K_of b)) _ Hz) as (s4 & n4 & E4 & V4 & _). by exists s4, n4.
Qed.
End stats.

(** ** The backend *)

Section world.
Context {R : Redis} {L : RedisLaws R} {C : Client R} {CL : ClientLaws C} {E : Env R}.
Context (b0 : Store) (HK : keys_ok (K_of b0)) {EL : EnvLaws E b0}.
Implicit Types (q : qstate) (w : Store * rdb).

Definition same_store w : Prop := st_config w.1 = st_config b0 /\ st_retryData w.1 = st_retryData b0.
Definition holds_queue w q : Prop := represents (K_of b0) (view w.2) q /\ q_inv q.

(** From [w] to [w'] the queue makes steps, between states related by [Post]. *)
Definition moves (Post : qstate -> qstate -> Prop) w w' : Prop :=
  (same_store w -> same_store w') /\
  forall q, holds_queue w q -> exists q', holds_queue w' q' /\ reaches q q' /\ Post q q'.

#[export] Instance store_leases : Leases (Store * rdb) := {|
  lb_ok := store_ok b0;
  later := moves (fun _ _ => True);
  issued w l := exists q, holds_queue w q /\ q_issued q l;
  over w l := exists q, holds_queue w q /\ q_over q l;
|}.

Lemma moves_mono (P Q : qstate -> qstate -> Prop) w w' :
  (forall q q', P q q' -> Q q q') -> moves P w w' -> moves Q w w'.
Proof. intros HPQ [Hs Hm]. split; [done|]. intros q Hq. destruct (Hm q Hq) as (q' & ? & ? & ?). eauto. Qed.

Lemma moves_later P w w' : moves P w w' -> later w w'.
Proof. by apply moves_mono. Qed.

Lemma moves_fences says job err w w' :
  moves (fun q q' => job_over says q q' job err) w w' -> fences store_leases says w w' job err.
Proof. intros [_ Hm] (q & Hq & Hi) Hs. destruct (Hm q Hq) as (q' & Hq' & _ & Hp). exists q'. auto. Qed.

Lemma moves_new limit jobs w w' :
  lb_ok w -> moves (fresh_out limit jobs) w w' -> new_leases store_leases w w' limit jobs.
Proof.
  intros (_ & _ & q & Hq) [_ Hm]. destruct (Hm q Hq) as (q' & Hq' & _ & [Hlen Hnd] & _ & Hi).
  split_and!; [done | done|]. rewrite Forall_forall in Hi |- *. intros j Hj. split.
  - intros (q2 & Hq2 & Hi2). destruct (Hm q2 Hq2) as (q2' & _ & _ & _ & Hn & _).
    rewrite Forall_forall in Hn. by apply (Hn j).
  - exists q'. auto.
Qed.

(** An operation on the database that leaves the store's settings. *)
Lemma moves_op {A} (Post : A -> qstate -> qstate -> Prop) (op : rdb -> rdb * A) b s :
  (forall q, represents (K_of b0) (view s) q -> q_inv q -> exists s' r q',
     op s = (s', r) /\ represents (K_of b0) (view s') q' /\ reaches q q' /\ Post r q q') ->
  moves (Post (op s).2) (b, s) (b, (op s).1).
Proof.
  intros Hop. split; [done|]. intros q [Hs Hinv]. destruct (Hop q Hs Hinv) as (s' & r & q' & -> & Hs' & Hr & Hp).
  exists q'. split; [split; [done | by eapply reaches_inv] | done].
Qed.

Lemma law_one_intro says (op : Store -> Job -> SE rdb error unit) job :
  (forall b q, K_of b = K_of b0 -> q_inv q -> wpc (K:=K_of b0) (op b job) q (fun r q' =>
     reaches q q' /\ job_over says q q' job (match r with Ok _ => None | Err e => Some e end))) ->
  law_one store_leases says (fun w => on_store w.1 (of_unit (op w.1 job w.2))) job.
Proof.
  intros Hop [b s] (Hc & Hd & _). simpl in Hc, Hd. pose proof (K_of_same _ _ Hc Hd) as Ek.
  assert (moves (fun q q' => job_over says q q' job (match (op b job s).2 with Ok _ => None | Err e => Some e end))
    (b, s) (b, (op b job s).1)) as Hm.
  { apply (moves_op (fun r q q' => job_over says q q' job (match r with Ok _ => None | Err e => Some e end))).
    intros q Hs Hinv. destruct (Hop b q Ek Hinv s Hs) as (s' & r & q' & Eo & Hs' & _ & Hr & Hp). eauto 10. }
  split; [by eapply moves_later | by apply moves_fences].
Qed.

Lemma law_batch_intro says (op : Store -> list Job -> rdb -> rdb * list (option error)) :
  (forall b q s jobs, K_of b = K_of b0 -> q_inv q -> represents (K_of b0) (view s) q ->
     exists s' errs q', op b jobs s = (s', errs) /\ represents (K_of b0) (view s') q' /\
       reaches q q' /\ Forall2 (job_over says q q') jobs errs) ->
  law_batch store_leases says (fun jobs w => on_store w.1 (op w.1 jobs w.2)).
Proof.
  intros Hop jobs [b s] (Hc & Hd & q0 & Hs0 & Hinv0). simpl in Hc, Hd. pose proof (K_of_same _ _ Hc Hd) as Ek.
  assert (moves (fun q q' => Forall2 (job_over says q q') jobs (op b jobs s).2) (b, s) (b, (op b jobs s).1)) as Hm.
  { apply (moves_op (fun errs q q' => Forall2 (job_over says q q') jobs errs)).
    intros q Hs Hinv. destruct (Hop b q s jobs Ek Hinv Hs) as (s' & r & q' & ? & ? & ? & ?). eauto 10. }
  split; [by eapply moves_later|]. unfold on_store. simpl.
  destruct (proj2 Hm q0 (conj Hs0 Hinv0)) as (q0' & _ & _ & H0).
  apply Forall2_same_length_lookup_2; [by eapply Forall2_length|]. intros i job err Hj He.
  apply moves_fences. eapply moves_mono; [|exact Hm]. cbn beta. intros q q' Hall.
  by apply (Forall2_lookup_lr _ _ _ i _ _ Hall).
Qed.

(** A call that settles: unless the server did not answer, the lease is over. *)
Lemma settle_law K (m : SE rdb error unit) job q f eff :
  q_inv q ->
  wpc (K:=K) m q (fenced_outcome (lease_owns q (JLease job)) q eff) ->
  (forall jid runAt json, f = Retried jid runAt json -> exists fs, decodes json fs) ->
  (forall q', eff q' -> exists did, q' = q_settle (MessageID (JLease job)) (fate_effect f did q)) ->
  wpc (K:=K) m q (fun r q' =>
    reaches q q' /\ job_over ends q q' job (match r with Ok _ => None | Err e => Some e end)).
Proof.
  intros Hinv Hm Hf Heff. eapply wpc_mono; [exact Hm|]. intros r q' Ho. split.
  - eapply fenced_outcome_reaches; [exact Ho|]. intros Hown [did ->]%Heff. by eapply reaches_step, step_settle.
  - intros Hi Hends. assert (eff q' -> q_over q' (JLease job)) as Hov.
    { intros [did ->]%Heff. apply (settled_over q); [done|]. by destruct f. }
    destruct r as [[]|e]; [by apply Hov, Ho|]. destruct Ho as [He [[-> Hlost]|[_ ?]]]; [|auto].
    apply lost_over; [done|]. apply Hlost. destruct Hends as [?|Hl]; [done|]. destruct He as [->|He]; [done|].
    by destruct e.
Qed.

(** A renewal says the lease is lost only when it is. *)
Lemma renew_law job q (r : result error unit) q' :
  let l := JLease job in
  match r with
  | Ok _ => lease_owns q l = true /\ q' = q_renew (MessageID l) (Owner l) q
  | Err ErrLeaseLost => lease_owns q l = false /\ q' = q
  | Err e => net_error e /\ (q' = q \/ (lease_owns q l = true /\ q' = q_renew (MessageID l) (Owner l) q))
  end ->
  reaches q q' /\ job_over loses q q' job (match r with Ok _ => None | Err e => Some e end).
Proof.
  intros l Hp. assert (q' = q \/ (lease_owns q l = true /\ q' = q_renew (MessageID l) (Owner l) q)) as Hq.
  { destruct r as [?|[]]; naive_solver. }
  split.
  - destruct Hq as [->|[Ho ->]]; [reflexivity|]. by eapply reaches_step, step_renew.
  - intros Hi Hl. destruct r as [?|e]; [done|]. destruct e; try done; try (destruct Hp as [? _]; done).
    destruct Hp as [Hno ->]. by apply lost_over.
Qed.

Lemma net_error_silent e : net_error e -> ~ ends (Some e).
Proof. intros He [?|Hl]; [done|]. by destruct e. Qed.

Lemma later_store_preorder : PreOrder (later (Leases:=store_leases)).
Proof.
  split.
  - intros w. split; [done|]. intros q Hq. by exists q.
  - intros w1 w2 w3 [Hs1 Hm1] [Hs2 Hm2]. split; [auto|]. intros q Hq.
    destruct (Hm1 q Hq) as (q1 & Hq1 & Hr1 & _). destruct (Hm2 q1 Hq1) as (q2 & Hq2 & Hr2 & _).
    exists q2. split_and!; [done | by etrans | done].
Qed.

Lemma later_store_ok w w' : later w w' -> store_ok b0 w -> store_ok b0 w'.
Proof.
  intros [Hs Hm] (Hc & Hd & q & Hq). destruct (Hs (conj Hc Hd)) as [Hc' Hd'].
  destruct (Hm q Hq) as (q' & Hq' & _). split_and!; eauto.
Qed.

Lemma Claim_new who limit wait w :
  store_ok b0 w -> 0 < limit ->
  later w (be_Claim who limit wait w).1 /\
  new_leases store_leases w (be_Claim who limit wait w).1 limit (be_Claim who limit wait w).2.1.
Proof.
  intros Hok Hlim. destruct w as [b s]. pose proof Hok as (Hc & Hd & _). simpl in Hc, Hd.
  pose proof (K_of_same _ _ Hc Hd) as Ek.
  assert (env_ok b (while_blocked wait)) as Henv.
  { unfold env_ok. rewrite Ek. apply (blocked_law (E:=E) (b:=b0)). }
  simpl. set (op := Claim b who limit wait (clock s) (while_blocked wait) (ctx_done s)).
  assert (moves (fresh_out limit (jobs_err (op s).2).1) (b, s) (b, (op s).1)) as Hm.
  { apply (moves_op (fun r => fresh_out limit (jobs_err r).1)). intros q Hs Hinv. rewrite <- Ek in Hs.
    destruct (Claim_ok b ltac:(by rewrite Ek) q who limit wait (clock s) (while_blocked wait) (ctx_done s)
      Hlim Hinv Henv s Hs) as (s' & r & q' & Ec & Hs' & Hr & Hp). rewrite Ek in Hs'.
    exists s', r, q'. split_and!; [done..|]. destruct r as [jobs|e]; [|by apply fresh_out_nil].
    destruct Hp as [Hh Hn]. eapply handed_out_fresh; [by eapply reaches_inv | done | by apply new_jobs_fresh]. }
  destruct (op s) as [s' r]. split; [by eapply moves_later | by apply moves_new].
Qed.

Lemma RecoverExpired_new timeout who limit w :
  store_ok b0 w -> 0 < limit ->
  later w (be_RecoverExpired timeout who limit w).1 /\
  new_leases store_leases w (be_RecoverExpired timeout who limit w).1 limit
    (be_RecoverExpired timeout who limit w).2.1.
Proof.
  intros Hok Hlim. destruct w as [b s]. pose proof Hok as (Hc & Hd & q0 & Hs0 & Hinv0). simpl in Hc, Hd, Hs0.
  pose proof (K_of_same _ _ Hc Hd) as Ek. simpl.
  assert (forall q, represents (K_of b0) (view s) q -> q_inv q -> exists s' b' r q',
    RecoverExpired b timeout who limit (clock s) (clock s) s = (s', (b', r)) /\
    same_store (b', s') /\ represents (K_of b0) (view s') q' /\ reaches q q' /\
    fresh_out limit (jobs_err r).1 q q') as Hall.
  { intros q Hs Hinv. rewrite <- Ek in Hs.
    destruct (RecoverExpired_ok b ltac:(by rewrite Ek) q s timeout who limit (clock s) (clock s) Hlim Hinv Hs)
      as (s' & b' & r & q' & Er & Hs' & _ & Hr & Hc' & Hd' & Hp). rewrite Ek in Hs'.
    exists s', b', r, q'. split_and!; [done | by split; etrans | done | done|].
    destruct r as [jobs|e]; [|by apply fresh_out_nil]. destruct Hp as (Hh & q1 & Hr1 & _ & Ht).
    eapply handed_out_fresh; [by eapply reaches_inv | done | by eapply taken_over_fresh]. }
  destruct (Hall q0 Hs0 Hinv0) as (s' & b' & r & _ & Er & Hsame & _). rewrite Er.
  assert (moves (fresh_out limit (jobs_err r).1) (b, s) (b', s')) as Hm.
  { split; [done|]. intros q [Hs Hinv]. destruct (Hall q Hs Hinv) as (s2 & b2 & r2 & q' & E2 & _ & Hs' & Hr & Hf).
    rewrite Er in E2. simplify_eq. exists q'. split; [split; [done | by eapply reaches_inv] | done]. }
  split; [by eapply moves_later | by apply moves_new].
Qed.

#[export] Instance store_lease_laws : LeaseLaws store_backend store_leases.
Proof.
  split.
  - apply later_store_preorder.
  - apply later_store_ok.
  - intros w w' l [_ Hm] _ (q & Hq & Hi). destruct (Hm q Hq) as (q' & Hq' & Hr & _).
    exists q'. split; [done | by eapply reaches_issued].
  - intros w w' l [_ Hm] _ (q & Hq & Hi). destruct (Hm q Hq) as (q' & Hq' & Hr & _).
    exists q'. split; [done | by eapply reaches_over].
  - apply Claim_new.
  - apply RecoverExpired_new.
  - intros job. apply (law_one_intro ends Ack). intros b q Ek Hinv. rewrite <- Ek in HK |- *.
    apply (settle_law _ _ _ _ Acked _ Hinv (Ack_ok b HK q job)); [done|]. intros q' ->. by exists (0%N, 0%N).
  - intros job at_. apply (law_one_intro ends (fun b job => Retry b job at_)).
    intros b q Ek Hinv. rewrite <- Ek in HK |- *.
    apply (settle_law _ _ _ _ (Retried (ID job) (UnixMilli at_) (retry_json job)) _ Hinv (Retry_ok b HK q job at_)).
    + intros jid runAt json [= _ _ <-].
      destruct (decodes_coerced (set_Attempt job (wrap64 (Attempt job + 1)))) as (fs & Hfs & _). eauto.
    + intros q' ->. by exists (0%N, 0%N).
  - intros job reason w Hok. revert w Hok.
    assert (forall now, law_one store_leases ends
      (fun w => on_store w.1 (of_unit (DeadLetter w.1 job reason now w.2))) job) as H.
    { intros now. apply (law_one_intro ends (fun b job => DeadLetter b job reason now)).
      intros b q Ek Hinv. rewrite <- Ek in HK |- *.
      by apply (settle_law _ _ _ _ (Buried (range_map (dead_fields job reason now))) _ Hinv
        (DeadLetter_ok b HK q job reason now)). }
    intros w. exact (H (clock w.2) w).
  - intros job. apply (law_one_intro loses Extend). intros b q Ek Hinv. rewrite <- Ek in HK |- *.
    eapply wpc_mono; [by apply (Extend_ok b HK), Hinv|]. apply renew_law.
  - intros f [= <-]. apply (law_batch_intro ends AckBatch). intros b q s jobs Ek Hinv Hs.
    rewrite <- Ek in HK, Hs |- *.
    apply (fencedBatch_law b ends _ (ackScript (cfg_Stream (st_config b)))); try done.
    + intros. apply ackBatch_one_by_one.
    + by apply ack_script_law.
    + apply net_error_silent.
  - intros f [= <-]. apply (law_batch_intro loses ExtendBatch). intros b q s jobs Ek Hinv Hs.
    rewrite <- Ek in HK, Hs |- *.
    apply (fencedBatch_law b loses _ (extendScript (cfg_Stream (st_config b)))); try done.
    + intros. apply extendBatch_one_by_one.
    + by apply extend_script_law.
    + intros e He Hl. apply (net_error_silent e He). by right.
  - intros [b s] (Hc & Hd & _). simpl in Hc, Hd. pose proof (K_of_same _ _ Hc Hd) as Ek.
    apply (moves_op (fun _ _ _ => True)). intros q Hs Hinv. rewrite <- Ek in Hs |- *.
    assert (env_ok b between_commands) as Henv.
    { unfold env_ok. rewrite Ek. apply (between_law (E:=E) (b:=b0)). }
    destruct (Stats_walks b _ Henv s q Hs Hinv) as (q' & Hs' & Hr). eauto 10 using surjective_pairing.
  - intros f who [b s] [= <-] (Hc & Hd & _). simpl in Hc, Hd. pose proof (K_of_same _ _ Hc Hd) as Ek.
    rewrite <- Ek in HK.
    apply (moves_op (fun _ _ _ => True) (fun s => of_unit (Deregister b who s))). intros q Hs Hinv.
    rewrite <- Ek in Hs |- *.
    destruct (Deregister_ok b HK q who s Hs) as (s' & r & q' & Er & Hs' & _ & Hq & _).
    unfold of_unit. cbn [snd]. rewrite Er. eexists _, _, q'. split_and!; [done | done | | done].
    destruct Hq as [->|[Hi ->]]; [reflexivity | by eapply reaches_step, step_drop].
Qed.
End world.
