(* ===== verification/SettleOnce.v ===== *)
(** * Every delivery is settled once

    Over any sequence of operations of any number of workers, with leases that are
    current, stale or copied, over a client that may lose replies and repeat requests:
    at most one call of [Ack], [AckBatch], [Retry] and [DeadLetter] succeeds for a
    message, and its entry is gone from then on. *)

From S2P Require Import Prelude GoNum GoTime Errors Job GoJson Redis RefRedis Scripts QueueSpec.
From S2P Require Import QueueRep ScriptsOk QueueSteps QueueProps Store JobCodec StoreOk EnqueueOk ClaimOk.
From S2P Require Import Demo EnqueueProps StoreRun Backend StoreBackend Worker LeaseLaws StoreLeases.
From stdpp Require Import strings.

Open Scope Z_scope.

Section results.
Context {R : Redis} {C : Client R}.

Definition succeeded (r : result error unit) (job : Job) : list eid :=
  match r with Ok _ => [MessageID (JLease job)] | Err _ => [] end.

(** The jobs of a batch that were answered without an error. *)
Fixpoint batch_succeeded (jobs : list Job) (errs : list (option error)) : list eid :=
  match jobs, errs with
  | job :: jobs', err :: errs' =>
      match err with None => [MessageID (JLease job)] | Some _ => [] end ++ batch_succeeded jobs' errs'
  | _, _ => []
  end.

(** The messages whose delivery an operation reports to have ended. *)
Definition op_settled (op : store_op) (w : Store * rdb) : list eid :=
  let '(b, s) := w in
  match op with
  | OpAck job => succeeded (Ack b job s).2 job
  | OpRetry job nextRunAt => succeeded (Retry b job nextRunAt s).2 job
  | OpDeadLetter job reason now => succeeded (DeadLetter b job reason now s).2 job
  | OpAckBatch jobs => batch_succeeded jobs (AckBatch b jobs s).2
  | _ => []
  end.

Fixpoint ops_settled (ops : list store_op) (w : Store * rdb) : list eid :=
  match ops with
  | [] => []
  | op :: ops' => op_settled op w ++ ops_settled ops' (run_op op w)
  end.
End results.

(** ** Settled messages of the abstract queue *)

Section queue.
Context {R : Redis}.
Implicit Types q : qstate.

(** The delivery is over for every lease there may be of it. *)
Definition gone q (id : eid) : Prop := forall token, superseded q id token.

Lemma reaches_gone q q' id : reaches q q' -> gone q id -> gone q' id.
Proof. intros [tr Hs] Hg token. by eapply qsteps_superseded. Qed.

Lemma owned_not_gone q id o t : q_owns q id o t = true -> ~ gone q id.
Proof. intros Ho Hg. by rewrite (superseded_not_owned q id t o (Hg t)) in Ho. Qed.

Lemma gone_settle q id o t f did : q_wf q -> q_owns q id o t = true -> gone (q_settle id (fate_effect f did q)) id.
Proof.
  intros Hwf (p & Hp & _)%q_owns_pending token. split.
  - destruct (wf_pending _ Hwf _ _ Hp) as (_ & ? & _). by destruct f.
  - intros p'. simpl. by rewrite lookup_delete_eq.
Qed.

Lemma gone_entry q id fs : q_wf q -> gone q id -> (id, fs) ∉ q_entries q.
Proof.
  intros Hwf Hg Hin. assert (id ∈ q_ids q) as Hid by (apply list_elem_of_fmap; by exists (id, fs)).
  destruct (wf_delivered _ Hwf id Hid (proj1 (Hg 0))) as [p Hp]. pose proof (proj2 (Hg (pe_count p)) p Hp). lia.
Qed.

(** What an operation settles: each message once, none that was over, all are over now. *)
Definition ends_once q q' (ids : list eid) : Prop :=
  NoDup ids /\ Forall (fun id => ~ gone q id /\ gone q' id) ids.

Lemma ends_once_nil q q' : ends_once q q' [].
Proof. split; constructor. Qed.

Lemma ends_once_one q q' id : ~ gone q id -> gone q' id -> ends_once q q' [id].
Proof. intros H1 H2. split; [apply NoDup_singleton | by apply Forall_singleton]. Qed.

Lemma ends_once_later q0 q q' q2 ids : reaches q0 q -> reaches q' q2 -> ends_once q q' ids -> ends_once q0 q2 ids.
Proof.
  intros H0 H2 [Hn Hf]. split; [done|]. eapply Forall_impl; [exact Hf|]. cbn. intros id [Hg Hg'].
  split; [intros H; by apply Hg, (reaches_gone q0) | by eapply reaches_gone].
Qed.

Lemma ends_once_app q q1 q2 l1 l2 :
  reaches q q1 -> reaches q1 q2 -> ends_once q q1 l1 -> ends_once q1 q2 l2 -> ends_once q q2 (l1 ++ l2).
Proof.
  intros H1 H2 [N1 F1] [N2 F2]. split.
  - apply NoDup_app. split_and!; [done | | done]. intros id Hi Hj.
    rewrite Forall_forall in F1, F2. by destruct (F2 id Hj) as [[] _]; apply F1.
  - apply Forall_app. split.
    + by apply (ends_once_later q q q1 q2).
    + by apply (ends_once_later q q1 q2 q2).
Qed.
End queue.

Section ops.
Context {R : Redis} {L : RedisLaws R} {C : Client R} {CL : ClientLaws C}.
Context (b : Store) (HK : keys_ok (K_of b)).
Implicit Types q : qstate.

Lemma settle_once m job q f eff :
  q_inv q -> wpc (K:=K_of b) m q (fenced_outcome (lease_owns q (JLease job)) q eff) ->
  (forall jid runAt json, f = Retried jid runAt json -> exists fs, decodes json fs) ->
  (forall q', eff q' -> exists did, q' = q_settle (MessageID (JLease job)) (fate_effect f did q)) ->
  wpc (K:=K_of b) m q (fun r q' => reaches q q' /\ ends_once q q' (succeeded r job)).
Proof.
  intros [Hwf _] Hm Hf Heff. eapply wpc_mono; [exact Hm|]. intros r q' Ho. split.
  - eapply fenced_outcome_reaches; [exact Ho|]. intros Hown [did ->]%Heff. by eapply reaches_step, step_settle.
  - destruct r as [[]|e]; [|apply ends_once_nil]. destruct Ho as [Hown [did ->]%Heff].
    apply ends_once_one; [by eapply owned_not_gone | by eapply gone_settle].
Qed.

(** ** Batches *)

Fixpoint replies_settled (argv : list triple) (ns : list Z) : list eid :=
  match argv, ns with
  | a :: argv', n :: ns' => (if n =? 0 then [] else [a.1.1]) ++ replies_settled argv' ns'
  | _, _ => []
  end.

Lemma ack_once q id o t : q_inv q ->
  wpq (K_of b) (ackScript (cfg_Stream (st_config b)) (cfg_Group (st_config b)) id o t) q (fun n q' =>
    reaches q q' /\ ends_once q q' (if n =? 0 then [] else [id])).
Proof.
  intros [Hwf _]. eapply wpq_mono; [apply (ackScript_ok HK)|]. cbn beta. intros n q'.
  destruct (q_owns q id o t) eqn:E; intros [= -> ->]; split.
  - by eapply reaches_step, (step_settle _ _ _ Acked (0%N, 0%N)).
  - apply ends_once_one; [by eapply owned_not_gone | exact (gone_settle q id o t Acked (0%N, 0%N) Hwf E)].
  - reflexivity.
  - apply ends_once_nil.
Qed.

Lemma acks_once argv : forall q, q_inv q ->
  wpq (K_of b) (one_by_one (ackScript (cfg_Stream (st_config b)) (cfg_Group (st_config b))) argv) q (fun ns q' =>
    (reaches q q' /\ length ns = length argv) /\ ends_once q q' (replies_settled argv ns)).
Proof.
  induction argv as [|[[id o] t] argv IH]; intros q Hinv; cbn [one_by_one].
  { apply wpq_ret. split; [by split | apply ends_once_nil]. }
  eapply wpq_bind; [by apply ack_once|]. cbn beta. intros n q1 [Hr1 Hn].
  eapply wpq_bind; [by eapply IH, reaches_inv|]. cbn beta. intros ns q2 [[Hr2 Hl] Hns]. apply wpq_ret.
  split; [split; [by etrans | simpl; by rewrite Hl]|]. by apply (ends_once_app q q1 q2).
Qed.

Lemma batch_succeeded_replies jobs : forall ns, length ns = length jobs ->
  batch_succeeded jobs (reply_error <$> ns) = replies_settled (lease_args jobs) ns.
Proof.
  induction jobs as [|job jobs IH]; intros [|n ns] Hl; simplify_eq/=; [done|].
  rewrite IH by done. unfold reply_error. by destruct (n =? 0).
Qed.

Lemma batch_failed jobs e : batch_succeeded jobs ((fun _ => Some e) <$> jobs) = [].
Proof. induction jobs; [done|]. done. Qed.

Lemma AckBatch_once jobs q s : q_inv q -> represents (K_of b) (view s) q ->
  exists q', represents (K_of b) (view (AckBatch b jobs s).1) q' /\ reaches q q' /\
    ends_once q q' (batch_succeeded jobs (AckBatch b jobs s).2).
Proof.
  intros Hinv Hrep. unfold AckBatch, fencedBatch. fold (lease_args jobs).
  destruct (wpc_call (K:=K_of b)
    (ackBatchScript (cfg_Stream (st_config b)) (cfg_Group (st_config b)) (lease_args jobs)) (reaches q)
    (fun ns q' => length ns = length jobs /\ ends_once q q' (replies_settled (lease_args jobs) ns)) q)
    with (s := s) as (s' & r & q' & E & Hs' & _ & Hr & Hpost); [reflexivity | | done |].
  - intros q1 Hr1. eapply wpq_ext; [intros; symmetry; apply ackBatch_one_by_one|].
    eapply wpq_mono; [by eapply acks_once, reaches_inv|]. cbn beta. intros ns q2 [[Hr2 Hl] Hns].
    split_and!; [by etrans | by rewrite Hl; unfold lease_args; rewrite length_fmap|].
    by apply (ends_once_later q q1 q2 q2).
  - rewrite E. exists q'. split_and!; [done | done|]. cbn [snd]. destruct r as [ns|e].
    + destruct Hpost as [Hl Hns]. by rewrite (batch_errs ns jobs Hl), batch_succeeded_replies.
    + assert (imap (fun (_ : nat) (_ : Job) => Some e) jobs = (fun _ => Some e) <$> jobs) as ->
        by exact (imap_const (fun _ : Job => Some e) jobs). rewrite batch_failed. apply ends_once_nil.
Qed.

Lemma run_op_once op s q :
  0 < window_ms b -> op_ok b op -> q_inv q -> represents (K_of b) (view s) q ->
  exists q', represents (K_of b) (view (run_op op (b, s)).2) q' /\ reaches q q' /\
    st_config (run_op op (b, s)).1 = st_config b /\ st_retryData (run_op op (b, s)).1 = st_retryData b /\
    ends_once q q' (op_settled op (b, s)).
Proof.
  intros Hw Hok Hinv Hs.
  assert (forall m job, wpc (K:=K_of b) m q (fun r q' => reaches q q' /\ ends_once q q' (succeeded r job)) ->
    exists q', represents (K_of b) (view (m s).1) q' /\ reaches q q' /\
      st_config b = st_config b /\ st_retryData b = st_retryData b /\ ends_once q q' (succeeded (m s).2 job)) as Hone.
  { intros m job Hm. destruct (Hm s Hs) as (s' & r & q' & E & Hs' & _ & Hr & He). rewrite E. eauto 10. }
  assert (op_settled op (b, s) = [] -> exists q', represents (K_of b) (view (run_op op (b, s)).2) q' /\ reaches q q' /\
    st_config (run_op op (b, s)).1 = st_config b /\ st_retryData (run_op op (b, s)).1 = st_retryData b /\
    ends_once q q' (op_settled op (b, s))) as Hnone.
  { intros ->. destruct (run_op_ok b HK op s q Hw Hok Hinv Hs) as (q' & ? & ? & ? & ?).
    exists q'. split_and!; [done..|apply ends_once_nil]. }
  destruct op; try (by apply Hnone); cbn [run_op op_settled fst snd].
  - apply Hone, (settle_once _ job q Acked _ Hinv (Ack_ok b HK q job)); [done|]. intros q' ->. by exists (0%N, 0%N).
  - apply Hone, (settle_once _ job q (Retried (ID job) (UnixMilli nextRunAt) (retry_json job)) _ Hinv
      (Retry_ok b HK q job nextRunAt)).
    + intros jid runAt json [= _ _ <-].
      destruct (decodes_coerced (set_Attempt job (wrap64 (Attempt job + 1)))) as (fs & Hd & _). eauto.
    + intros q' ->. by exists (0%N, 0%N).
  - apply Hone, (settle_once _ job q (Buried (range_map (dead_fields job reason now))) _ Hinv
      (DeadLetter_ok b HK q job reason now)); [done|]. by intros q' [did ->]; exists did.
  - destruct (AckBatch_once jobs q s Hinv Hs) as (q' & ? & ? & ?). exists q'. by split_and!.
Qed.
End ops.

Section runs.
Context {R : Redis} {L : RedisLaws R} {C : Client R} {CL : ClientLaws C}.
Implicit Types q : qstate.

Lemma run_ops_once ops : forall b s q,
  keys_ok (K_of b) -> 0 < window_ms b -> q_inv q -> represents (K_of b) (view s) q -> Forall (op_ok b) ops ->
  exists q', represents (K_of b) (view (run_ops ops (b, s)).2) q' /\ reaches q q' /\
    ends_once q q' (ops_settled ops (b, s)).
Proof.
  induction ops as [|op ops IH]; intros b s q HK Hw Hinv Hs Hok.
  { exists q. split_and!; [done | reflexivity | apply ends_once_nil]. }
  apply Forall_cons in Hok as [Hop Hops]. cbn [run_ops foldl ops_settled].
  destruct (run_op_once b HK op s q Hw Hop Hinv Hs) as (q1 & Hs1 & Hr1 & Hc & Hd & He1).
  destruct (run_op op (b, s)) as [b1 s1]. cbn [fst snd] in *.
  assert (K_of b1 = K_of b) as Ek by (unfold K_of; by rewrite Hc, Hd).
  destruct (IH b1 s1 q1) as (q2 & Hs2 & Hr2 & He2);
    [by rewrite Ek | unfold window_ms; by rewrite Hc | by eapply reaches_inv | by rewrite Ek | |].
  { eapply Forall_impl; [exact Hops|]. intros o. by apply op_ok_same. }
  rewrite Ek in Hs2. exists q2. split_and!; [done | by etrans | by apply (ends_once_app q q1 q2)].
Qed.

(** C4: every delivery is settled at most once: over any sequence of operations, by any
    number of workers, with leases that are current, stale or copied, and over a client that
    may lose replies and repeat requests, no message has two calls of Ack, AckBatch, Retry
    or DeadLetter that succeed, and a message with one is gone from the stream for good. *)
Theorem settled_once b ops s q :
  keys_ok (K_of b) -> 0 < window_ms b -> q_inv q -> represents (K_of b) (view s) q -> Forall (op_ok b) ops ->
  NoDup (ops_settled ops (b, s)) /\
  exists q', represents (K_of b) (view (run_ops ops (b, s)).2) q' /\
    forall id fs, id ∈ ops_settled ops (b, s) -> (id, fs) ∉ q_entries q'.
Proof.
  intros HK Hw Hinv Hs Hok. destruct (run_ops_once ops b s q HK Hw Hinv Hs Hok) as (q' & Hs' & Hr & Hnd & Hall).
  split; [done|]. exists q'. split; [done|]. intros id fs Hid. rewrite Forall_forall in Hall.
  apply gone_entry; [by apply (reaches_inv _ _ Hr Hinv) | by apply Hall].
Qed.
End runs.

(** *** Witness: a batch with a job twice, then every other way to settle it again *)

Definition once_script : list (store_op (R:=ref_redis)) :=
  [OpAckBatch [demo_job; demo_job]; OpAck demo_job; OpRetry demo_job demo_time; OpDeadLetter demo_job "late" demo_time].

Lemma settled_once_witness :
  ops_settled once_script (default_store, demo_db) = [MessageID (JLease demo_job)] /\
  NoDup (ops_settled once_script (default_store, demo_db)) /\
  exists q', represents (K_of default_store) (run_ops once_script (default_store, demo_db)).2 q' /\
    forall id fs, id ∈ ops_settled once_script (default_store, demo_db) -> (id, fs) ∉ q_entries q'.
Proof.
  split; [vm_compute; reflexivity|].
  apply (settled_once (R:=ref_redis) default_store once_script demo_db demo_q);
    [apply default_keys_ok | reflexivity | apply demo_inv | apply demo_represents | repeat constructor].
Defined.
