(* ===== verification/WorkerRunStore.v ===== *)
(** * A worker's goroutines on the store

    A scheduler that runs the goroutines of [WorkerRun] in a given order, what the
    guarantees of [WorkerRunProps] say when the backend is the store, and a concrete
    run: a job is claimed, run, acked in a batch and the worker shuts down. *)

From S2P Require Import Prelude GoNum GoTime Errors Job GoJson Redis RefRedis Scripts QueueSpec.
From S2P Require Import QueueRep ScriptsOk QueueSteps Retry Store JobCodec StoreOk EnqueueOk.
From S2P Require Import ClaimOk Demo Backend StoreBackend Worker LeaseLaws.
From S2P Require Import WorkerRun WorkerRunOk WorkerRunProps WorkerRunLive WorkerStore StoreLeases.
From stdpp Require Import strings gmap relations.

Open Scope Z_scope.

(** ** A scheduler *)

(** Which goroutine moves next, where it has no choice of its own. *)
Inductive choice := CMain | CForce | CJob (i : nat) | CBeat | CAck | CStat | CCancel.

Section exec.
Context {W : Type} {B : Backend W} {E : WorkerEnv W}.
Context (cfg : WorkerConfig) (handlers : gmap string (HandlerFunc W)) (outside : W -> W -> Prop).
Implicit Types u : run W.

Definition main_move u : option (run W) :=
  match u_main u with
  | MLoop =>
      Some (set_main (if u_ctx u then MDrain else
        let free := wc_Concurrency cfg - u_inFlight u in if 0 <? free then MRecover free else MSelect) u)
  | MRecover free =>
      let '(w', (lr, (jobs, err))) := recover_half cfg free (u_lastRecover u) (u_world u) in
      Some (set_main (if is_err err then MSpawn free (length jobs) true jobs else MClaim free jobs)
        (set_lastRecover lr (set_world w' u)))
  | MClaim free jobs0 =>
      let '(w', (jobs, err)) := claim_half cfg free jobs0 (u_world u) in
      Some (set_main (MSpawn free (length jobs) (is_err err) jobs) (set_world w' u))
  | MSpawn free n err (job :: todo) => Some (set_main (MSpawn free n err todo) (spawn_job job u))
  | MSpawn free n err [] => Some (after_spawn cfg free n err u)
  | MSleep _ => Some (set_main MLoop u)
  | MSelect => Some (if u_freed u then set_freed false (set_main MLoop u) else set_main MLoop u)
  | MDrain | MForced => if all_gone u then Some (set_main MJoining (set_stop true u)) else None
  | MJoining =>
      if joined u then Some (set_main (match be_Deregister with Some _ => MDereg | None => MReturned end) u) else None
  | MDereg => Some (set_main MReturned (set_world (deregister cfg (u_world u)) u))
  | MReturned => None
  end.

Definition beat_move u : option (run W) :=
  match u_hb u with
  | HIdle => Some (set_hb (if u_stop u then HStopped else HRange (map_to_list (u_running u)).*2 []) u)
  | HRange (i :: todo) seen => Some (set_hb (HRange todo (seen ++ [i])) u)
  | HRange [] held => Some (set_hb (HBatch held) u)
  | HBatch [] => Some (set_hb HIdle u)
  | HBatch ((_ :: _) as held) =>
      match be_ExtendBatch with
      | Some f =>
          let '(w', errs) := f (jobs_of (u_jobs u) (take maxBatch held)) (u_world u) in
          Some (set_hb (HCancel (zip (take maxBatch held) errs) (drop maxBatch held)) (set_world w' u))
      | None => Some (set_hb (HEach (take maxBatch held) (take maxBatch held) [] (drop maxBatch held)) u)
      end
  | HEach batch (i :: todo) errs rest =>
      g ← u_jobs u !! i;
      let '(w', err) := be_Extend (g_job g) (u_world u) in
      Some (set_hb (HEach batch todo (errs ++ [err]) rest) (set_world w' u))
  | HEach batch [] errs rest => Some (set_hb (HCancel (zip batch errs) rest) u)
  | HCancel ((i, err) :: answers) rest =>
      Some (set_hb (HCancel answers rest) (if is_lost err then on_job i (cancel_ctx ErrLeaseLost) u else u))
  | HCancel [] rest => Some (set_hb (HBatch rest) u)
  | HStopped => None
  end.

Definition ack_move u : option (run W) :=
  match u_ackl u with
  | AIdle =>
      match u_acks u with
      | i :: rest => Some (set_ackl (ACollect [i]) (set_acks rest u))
      | [] => if u_stop u then Some (set_ackl AStopped u) else None
      end
  | ACollect batch =>
      match (length batch <? maxBatch)%nat, u_acks u with
      | true, i :: rest => Some (set_ackl (ACollect (batch ++ [i])) (set_acks rest u))
      | _, _ =>
          f ← be_AckBatch;
          let '(w', errs) := f (jobs_of (u_jobs u) batch) (u_world u) in
          Some (set_ackl (ADeliver (zip batch errs)) (set_world w' u))
      end
  | ADeliver ((i, err) :: answers) => Some (set_ackl (ADeliver answers) (on_job i (answer err) u))
  | ADeliver [] => Some (set_ackl AIdle u)
  | AOff | AStopped => None
  end.

Definition stat_move u : option (run W) :=
  match u_stats u with
  | SReport => let '(w', evs) := report_stats (u_world u) in Some (set_stats SWait (add_events evs (set_world w' u)))
  | SWait => Some (set_stats (if u_ctx u then SStopped else SReport) u)
  | SStopped => None
  end.

Definition move (c : choice) u : option (run W) :=
  match c with
  | CMain => main_move u
  | CForce =>
      match u_main u with
      | MDrain => Some (set_main MForced (set_jobs (cancel_ctx ErrShutdown <$> u_jobs u) u))
      | _ => None
      end
  | CJob i => run_job cfg handlers i u
  | CBeat => beat_move u
  | CAck => ack_move u
  | CStat => stat_move u
  | CCancel => Some (set_ctx true u)
  end.

Fixpoint moves_of (cs : list choice) u : option (run W) :=
  match cs with [] => Some u | c :: cs' => u' ← move c u; moves_of cs' u' end.

Lemma main_move_sound u u' : main_move u = Some u' -> main_step cfg u u'.
Proof.
  unfold main_move. destruct (u_main u) as [|free|free jobs|free n err [|job todo]|d| | | | | |] eqn:Em.
  - intros [= <-]. destruct (u_ctx u) eqn:Ec; [by apply m_top | by apply m_load].
  - destruct (recover_half _ _ _ _) as [w' [lr [jobs err]]] eqn:Er. intros [= <-]. by eapply m_recover.
  - destruct (claim_half _ _ _ _) as [w' [js err]] eqn:Er. intros [= <-]. by eapply m_claim.
  - intros [= <-]. by apply m_spawned.
  - intros [= <-]. by apply m_spawn.
  - intros [= <-]. by eapply m_slept.
  - intros [= <-]. destruct (u_freed u) eqn:Ef; [by apply m_woken | by apply m_selected].
  - destruct (all_gone u) eqn:Ea; intros [= <-]. apply m_drained; auto.
  - destruct (all_gone u) eqn:Ea; intros [= <-]. apply m_drained; auto.
  - destruct (joined u) eqn:Ej; intros [= <-]. by apply m_joined.
  - intros [= <-]. by apply m_dereg.
  - done.
Qed.

Lemma beat_move_sound u u' : beat_move u = Some u' -> beat_step u u'.
Proof.
  unfold beat_move. destruct (u_hb u) as [|[|i todo] seen|[|i held]|batch [|i todo] errs rest|[|[i err] answers] rest|] eqn:Eh.
  - destruct (u_stop u) eqn:Es; intros [= <-]; [by apply h_stop | by apply h_tick].
  - intros [= <-]. by apply h_ranged.
  - intros [= <-]. by apply h_visit.
  - intros [= <-]. by apply h_beaten.
  - destruct be_ExtendBatch as [f|] eqn:Ef.
    + destruct (f _ _) as [w' errs] eqn:Ex. intros [= <-]. by apply (h_batch u (i :: held) f w' errs).
    + intros [= <-]. by apply (h_each u (i :: held)).
  - intros [= <-]. by apply h_extended.
  - destruct (u_jobs u !! i) as [g|] eqn:Eg; [|done]. simpl.
    destruct (be_Extend _ _) as [w' err] eqn:Ex. intros [= <-]. by eapply h_extend.
  - intros [= <-]. by apply h_answered.
  - intros [= <-]. by apply h_answer.
  - done.
Qed.

Lemma ack_move_sound u u' : ack_move u = Some u' -> ack_step u u'.
Proof.
  unfold ack_move. destruct (u_ackl u) as [| |batch|[|[i err] answers]|] eqn:Ea; [done| | | | |done].
  - destruct (u_acks u) as [|i rest] eqn:Eq; [|intros [= <-]; by apply a_first].
    destruct (u_stop u) eqn:Es; intros [= <-]. by apply a_stop.
  - assert (forall u', (maxBatch <= length batch)%nat \/ u_acks u = [] ->
      (f ← be_AckBatch; let '(w', errs) := f (jobs_of (u_jobs u) batch) (u_world u) in
         Some (set_ackl (ADeliver (zip batch errs)) (set_world w' u))) = Some u' -> ack_step u u') as Hcall.
    { intros u1 Hor. destruct be_AckBatch as [f|] eqn:Ef; [|done]. simpl.
      destruct (f _ _) as [w' errs] eqn:Ex. intros [= <-]. by eapply a_call. }
    destruct (Nat.ltb_spec (length batch) maxBatch) as [Hlt|Hge]; [|apply Hcall; by left].
    destruct (u_acks u) as [|i rest] eqn:Eq; [apply Hcall; by right|]. intros [= <-]. by apply a_more.
  - intros [= <-]. by apply a_delivered.
  - intros [= <-]. by apply a_deliver.
Qed.

Lemma stat_move_sound u u' : stat_move u = Some u' -> stat_step u u'.
Proof.
  unfold stat_move. destruct (u_stats u) eqn:Es; [| |done].
  - destruct (report_stats _) as [w' evs] eqn:Er. intros [= <-]. by apply s_report.
  - intros [= <-]. destruct (u_ctx u) eqn:Ec; [by apply s_stop | by apply s_tick].
Qed.

Lemma move_sound c u u' : move c u = Some u' -> ustep cfg handlers outside u u'.
Proof.
  destruct c; simpl; intros H.
  - by apply u_main_step, main_move_sound.
  - destruct (u_main u) eqn:Em; simplify_eq. by apply u_main_step, m_timeout.
  - by eapply u_job_step.
  - by apply u_beat_step, beat_move_sound.
  - by apply u_ack_step, ack_move_sound.
  - by apply u_stat_step, stat_move_sound.
  - simplify_eq. apply u_cancelled.
Qed.

(** What the scheduler does, the goroutines can do. *)
Lemma moves_of_sound cs : forall u u', moves_of cs u = Some u' -> rtc (ustep cfg handlers outside) u u'.
Proof.
  induction cs as [|c cs IH]; intros u u'; simpl; [by intros [= <-]; apply rtc_refl|].
  destruct (move c u) as [u1|] eqn:Em; [|done]. simpl. intros H. eapply rtc_l; [by eapply move_sound | auto].
Qed.
End exec.

(** ** On the store *)

Section on_store.
Context {R : Redis} {L : RedisLaws R} {C : Client R} {CL : ClientLaws C} {E : Env R}.
Context (b0 : Store) (HK : keys_ok (K_of b0)) {EL : EnvLaws E b0} {WE : WorkerEnv (Store * rdb)}.
Context (cfg : WorkerConfig) (handlers : gmap string (HandlerFunc (Store * rdb))).

(** What handlers and other clients do to the queue are steps of it. *)
Definition world_step (w w' : Store * rdb) : Prop := store_ok b0 w -> later (Leases:=store_leases b0) w w'.

(** C16: a worker on the store, with its goroutines in any interleaving, with any
    client of Redis that may lose replies, and with other workers at work: once it has
    reported a job as completed, retried or dead-lettered, or its lease as lost, no
    state the queue can get to honours that lease, so no run of the job can settle it
    a second time. *)
Theorem reported_never_honoured w0 u0 u ev job :
  (forall task h j w, handlers !! task = Some h -> world_step w (h j w).1) -> 0 < wc_Concurrency cfg ->
  store_ok b0 w0 -> run_start cfg w0 = Ok u0 -> rtc (ustep cfg handlers world_step) u0 u ->
  ev ∈ u_events u -> ev ∈ [JobCompleted job; JobRetried job; JobDeadLettered job; JobLeaseLost job] ->
  exists q, represents (K_of b0) (view (u_world u).2) q /\ q_inv q /\
    forall q', reaches q q' -> lease_owns q' (JLease job) = false.
Proof.
  intros Hh Hc Hw0 Hu0 Hr Hev Hj.
  destruct (reports_true cfg handlers world_step (LL:=store_lease_laws b0 HK)
    ltac:(intros; by eapply Hh) ltac:(intros ? ? H; exact H) Hc w0 u0 Hw0 Hu0 u Hr) as [Htrue _].
  rewrite Forall_forall in Htrue. specialize (Htrue ev Hev).
  assert (over (Leases:=store_leases b0) (u_world u) (JLease job)) as (q & [Hq Hinv] & Hov).
  { rewrite !elem_of_cons, elem_of_nil in Hj. by destruct Hj as [->|[->|[->|[->|[]]]]]. }
  exists q. split_and!; [done | done|]. intros q' Hq'. unfold lease_owns.
  eapply superseded_not_owned, (reaches_over q q'); done.
Qed.
End on_store.

(** ** A run *)

Definition demo_idle : run (Store * rview) :=
  Run_ MLoop [] HIdle AIdle SReport false false ∅ 0 false [] [] 0 zero_time demo_world.

Abbreviation demo_moves := (moves_of (B:=store_backend (R:=ref_redis)) demo_cfg demo_handlers).
Abbreviation demo_step := (ustep (B:=store_backend (R:=ref_redis)) demo_cfg demo_handlers (world_step (R:=ref_redis) default_store)).

(** The worker takes over the expired [demo_job], claims [demo_job2], and starts both;
    the first runs and is acked while the second has not started. *)
Definition demo_started : list choice := [CMain; CMain; CMain; CMain; CMain].
Definition demo_acked : list choice :=
  demo_started ++ [CJob 0; CJob 0; CJob 0; CJob 0; CBeat; CAck; CAck; CAck; CAck; CJob 0].
(** Then the context is cancelled, the second job runs, and everything stops. *)
Definition demo_shutdown : list choice :=
  demo_acked ++ [CStat; CCancel; CMain; CMain; CJob 0; CJob 0; CJob 0; CJob 1; CJob 1; CJob 1; CJob 1;
    CAck; CAck; CAck; CAck; CJob 1; CJob 1; CJob 1; CJob 1; CBeat; CBeat; CBeat; CBeat; CBeat; CBeat;
    CBeat; CBeat; CMain; CBeat; CAck; CStat; CMain; CMain].

Definition demo_at (cs : list choice) : run (Store * rview) := default demo_idle (demo_moves cs demo_idle).

Lemma worker_reached cs :
  demo_moves cs demo_idle = Some (demo_at cs) -> rtc demo_step demo_idle (demo_at cs).
Proof. apply moves_of_sound. Qed.

Lemma demo_handlers_step task h j w :
  demo_handlers !! task = Some h -> world_step (R:=ref_redis) default_store w (h j w).1.
Proof. unfold demo_handlers. intros [_ <-]%lookup_singleton_Some _. split; [done|]. intros q Hq. by exists q. Qed.

(** [demo_job] as this worker got it. *)
Definition demo_taken : Job := set_Lease demo_job (mkLease (5%N, 0%N) "w1" 2 0).

Lemma reported_never_honoured_witness :
  exists q, represents (K_of default_store) (u_world (demo_at demo_acked)).2 q /\ q_inv (R:=ref_redis) q /\
    forall q', reaches (R:=ref_redis) q q' -> lease_owns q' (JLease demo_taken) = false.
Proof.
  apply (reported_never_honoured (R:=ref_redis) default_store default_keys_ok demo_cfg demo_handlers
    demo_world demo_idle (demo_at demo_acked) (JobCompleted demo_taken)).
  - apply demo_handlers_step.
  - reflexivity.
  - apply demo_store_ok.
  - reflexivity.
  - apply worker_reached. vm_compute. reflexivity.
  - match goal with |- _ ∈ ?evs =>
      assert (evs = [JobStarted demo_taken; JobCompleted demo_taken; Outcome "completed" None])
        as -> by (vm_compute; reflexivity) end.
    right. left.
  - left.
Defined.

Lemma run_bounded_witness :
  u_inFlight (demo_at demo_started) = 2 /\
  Z.of_nat (count active (u_jobs (demo_at demo_started)) + length (claimed (u_main (demo_at demo_started)))) <= 4.
Proof.
  assert (Z.of_nat (count active (u_jobs (demo_at demo_started))) = 2) as E by (vm_compute; reflexivity).
  rewrite <- E at 1.
  apply (run_bounded (LL:=store_lease_laws (R:=ref_redis) default_store default_keys_ok) demo_cfg demo_handlers
    (world_step (R:=ref_redis) default_store) demo_handlers_step ltac:(intros ? ? H; exact H) ltac:(reflexivity)
    demo_world demo_idle demo_store_ok ltac:(reflexivity)).
  apply worker_reached. vm_compute. reflexivity.
Defined.

Lemma running_exact_witness :
  u_running (demo_at demo_acked) !! JLease demo_taken = Some 0%nat <->
  exists g, u_jobs (demo_at demo_acked) !! 0%nat = Some g /\ JLease (g_job g) = JLease demo_taken /\
    listed (g_pc g) = true.
Proof.
  apply (running_exact (LL:=store_lease_laws (R:=ref_redis) default_store default_keys_ok) demo_cfg demo_handlers
    (world_step (R:=ref_redis) default_store) demo_handlers_step ltac:(intros ? ? H; exact H) ltac:(reflexivity)
    demo_world demo_idle demo_store_ok ltac:(reflexivity)).
  apply worker_reached. vm_compute. reflexivity.
Defined.

Lemma returns_clean_witness :
  u_running (demo_at demo_shutdown) = ∅ /\ u_inFlight (demo_at demo_shutdown) = 0.
Proof.
  destruct (returns_clean (LL:=store_lease_laws (R:=ref_redis) default_store default_keys_ok) demo_cfg demo_handlers
    (world_step (R:=ref_redis) default_store) demo_handlers_step ltac:(intros ? ? H; exact H) ltac:(reflexivity)
    demo_world demo_idle demo_store_ok ltac:(reflexivity) (demo_at demo_shutdown)) as (_ & H1 & H2 & _).
  - apply worker_reached. vm_compute. reflexivity.
  - vm_compute. reflexivity.
  - by split.
Defined.

Lemma run_can_return_witness :
  exists u', rtc demo_step (demo_at demo_acked) u' /\ u_main u' = MReturned.
Proof.
  apply (run_can_return (LL:=store_lease_laws (R:=ref_redis) default_store default_keys_ok) demo_cfg demo_handlers
    (world_step (R:=ref_redis) default_store) demo_handlers_step ltac:(intros ? ? H; exact H) ltac:(reflexivity)
    demo_world demo_idle).
  - apply demo_store_ok.
  - reflexivity.
  - apply worker_reached. vm_compute. reflexivity.
Defined.
