(* ===== verification/Fleet.v ===== *)
(** * Several workers on one queue

    The promise a backend makes about deliveries: a call that ends one succeeds for a
    delivery that had not ended, and it has ended from then on. Over it and
    [LeaseLaws], every step of a worker's goroutines ([WorkerRun]) is described by
    what it adds: the leases it takes, none of them handed out before, and the
    deliveries it is told to have settled, none of them ended before.

    A fleet is any number of worker processes, each with its own goroutines and its
    own value of the backend, on one server: a state is the server's and one run per
    process, a step is one of any goroutine of any process, the start of a process, or
    what other clients do to the server. A process that is killed makes no further
    step. *)

From S2P Require Import Prelude GoNum GoTime Errors Job Retry Store Backend Worker LeaseLaws WorkerRun WorkerRunOk.
From stdpp Require Import strings gmap relations.

Open Scope Z_scope.

(** A delivery: an entry of a partition's stream. *)
Abbreviation delivery_id := (eid * Z)%type.
Definition delivery (job : Job) : delivery_id := (MessageID (JLease job), Partition (JLease job)).

Class Settled (W : Type) := {
  ended : W -> delivery_id -> Prop;   (* no lease of it will ever be honoured *)
}.

(** The deliveries of a batch that were answered without an error. *)
Definition settled_of (job : Job) (err : option error) : list delivery_id :=
  match err with None => [delivery job] | Some _ => [] end.

Fixpoint batch_settled (jobs : list Job) (errs : list (option error)) : list delivery_id :=
  match jobs, errs with
  | job :: jobs', err :: errs' => settled_of job err ++ batch_settled jobs' errs'
  | _, _ => []
  end.

Section laws.
Context {W : Type} (B : Backend W) (V : Leases W) (D : Settled W).

(** From [w] to [w'] exactly these deliveries came to an end, each once. *)
Definition settles (w w' : W) (ds : list delivery_id) : Prop :=
  NoDup ds /\ Forall (fun d => ~ ended w d /\ ended w' d) ds.

Definition law_settle (op : W -> W * option error) (job : Job) : Prop :=
  forall w, lb_ok w -> settles w (op w).1 (settled_of job (op w).2).

Class SettleLaws : Prop := {
  later_ended w w' d : later w w' -> lb_ok w -> ended w d -> ended w' d;
  (* of two leases of a delivery, at most one is still honoured *)
  one_lease w l1 l2 : lb_ok w -> issued w l1 -> issued w l2 -> ~ over w l1 -> ~ over w l2 ->
    MessageID l1 = MessageID l2 -> Partition l1 = Partition l2 -> l1 = l2;
  settle_Ack job : law_settle (be_Ack job) job;
  settle_Retry job at_ : law_settle (be_Retry job at_) job;
  settle_DeadLetter job reason : law_settle (be_DeadLetter job reason) job;
  settle_AckBatch f jobs w : be_AckBatch = Some f -> lb_ok w ->
    settles w (f jobs w).1 (batch_settled jobs (f jobs w).2);
}.

Lemma settles_nil w w' : settles w w' [].
Proof. split; constructor. Qed.
End laws.

(** ** What a worker knows to be settled *)

(** What it has reported; an answer that reached the goroutine; an answer on its way. *)
Definition report_of (ev : event) : list delivery_id :=
  match ev with JobCompleted job | JobRetried job | JobDeadLettered job => [delivery job] | _ => [] end.

Definition arrived (g : jobg) : list delivery_id :=
  match g_pc g, g_done g with JAckWait, Some err => settled_of (g_job g) err | _, _ => [] end.

Definition answer_of (jobs : list Job) (a : nat * option error) : list delivery_id :=
  match jobs !! a.1 with Some job => settled_of job a.2 | None => [] end.

Definition answers_of (jobs : list Job) (a : ackpc) : list delivery_id :=
  match a with ADeliver answers => answers ≫= answer_of jobs | _ => [] end.

Definition reported {W} (u : run W) : list delivery_id := u_events u ≫= report_of.

Definition credits {W} (u : run W) : list delivery_id :=
  reported u ++ (u_jobs u ≫= arrived) ++ answers_of (g_job <$> u_jobs u) (u_ackl u).

Lemma bind_alter_perm {A} (h : jobg -> list A) f i (js : list jobg) g :
  js !! i = Some g -> h g ++ (alter f i js ≫= h) ≡ₚ h (f g) ++ (js ≫= h).
Proof.
  revert i. induction js as [|g0 js IH]; intros [|i] Hi; simplify_eq/=.
  - solve_Permutation.
  - etrans; [apply Permutation_app_swap_app|]. rewrite (IH i Hi). apply Permutation_app_swap_app.
Qed.

Lemma answers_app jobs job answers :
  Forall (fun a => (a.1 < length jobs)%nat) answers ->
  answers ≫= answer_of (jobs ++ [job]) = answers ≫= answer_of jobs.
Proof.
  induction 1 as [|a answers Ha _ IH]; [done|]. cbn. rewrite IH. f_equal. unfold answer_of. by rewrite lookup_app_l.
Qed.

Section steps.
Context {W : Type} {B : Backend W} {E : WorkerEnv W} {V : Leases W} {D : Settled W}.
Context {LL : LeaseLaws B V} {SL : SettleLaws B V D}.
Context (cfg : WorkerConfig) (handlers : gmap string (HandlerFunc W)) (outside : W -> W -> Prop).
Context (Hhandler : forall task h job w, handlers !! task = Some h -> lb_ok w -> later w (h job w).1).
Context (Houtside : forall w w', outside w w' -> lb_ok w -> later w w').

Abbreviation step := (ustep cfg handlers outside).
Abbreviation inv := (inv cfg handlers).
Implicit Types (u : run W) (g : jobg).

(** What a step adds. *)
Definition leases_more (u u' : run W) : Prop := exists new,
  all_jobs u' ≡ₚ new ++ all_jobs u /\ NoDup (JLease <$> new) /\
  Forall (fun j => ~ issued (u_world u) (JLease j) /\ issued (u_world u') (JLease j)) new.

Definition settles_more (u u' : run W) : Prop := exists ds,
  credits u' ≡ₚ ds ++ credits u /\ settles D (u_world u) (u_world u') ds.

Record grows (u u' : run W) : Prop := {
  gr_later : later (u_world u) (u_world u');
  gr_leases : leases_more u u';
  gr_settles : settles_more u u';
}.

Lemma leases_same u u' : all_jobs u' = all_jobs u -> leases_more u u'.
Proof. intros Ej. exists []. rewrite Ej. split_and!; [done | constructor | constructor]. Qed.

Lemma settles_same u u' : credits u' ≡ₚ credits u -> settles_more u u'.
Proof. intros Ec. exists []. split; [done | apply settles_nil]. Qed.

(** A step that moves neither jobs nor answers. *)
Lemma grows_quiet u u' :
  later (u_world u) (u_world u') -> u_jobs u' = u_jobs u -> claimed (u_main u') = claimed (u_main u) ->
  (forall jobs, answers_of jobs (u_ackl u') = answers_of jobs (u_ackl u)) -> reported u' = reported u -> grows u u'.
Proof.
  intros Hl Ej Ec Ea Er. split; [done | |].
  - apply leases_same. unfold all_jobs. by rewrite Ej, Ec.
  - apply settles_same. unfold credits. by rewrite Ej, Ea, Er.
Qed.

(** ** A job's goroutine *)

(** Its calls of the backend are settled or reported where they succeed; an answer
    that has arrived is reported. *)
Lemma job_step_settles g w w' evs pc :
  lb_ok w -> job_step cfg handlers g w = Some (w', (evs, pc)) ->
  pc <> JAckWait /\ later w w' /\ exists ds, evs ≫= report_of = ds ++ arrived g /\ settles D w w' ds.
Proof.
  assert (forall w, later w w) as Hrefl by apply (later_preorder B V).
  intros Hok Hs. unfold job_step in Hs. unfold arrived. destruct (g_pc g) eqn:Epc; try done.
  - injection Hs as <- E1. unfold job_start in E1.
    destruct (_ <? _); [|destruct (handlers !! _); [|destruct (_ <=? _)]]; simplify_eq;
      (split_and!; [done | done | exists []; split; [done | apply settles_nil]]).
  - destruct (handlers !! _) as [h|] eqn:Eh; [|done]. pose proof (Hhandler _ h (g_job g) w Eh Hok) as Hl.
    destruct (h (g_job g) w) as [w1 res]. simplify_eq.
    split_and!; [done | done | exists []; split; [done | apply settles_nil]].
  - injection Hs as <- E1. unfold job_ran in E1.
    destruct (g_cause g); [|destruct (ResErr res)]; simplify_eq;
      (split_and!; [repeat case_match; done | done | exists []; split; [done | apply settles_nil]]).
  - destruct be_AckBatch; [done|]. destruct (law_Ack B V (g_job g) w Hok) as [Hl _].
    pose proof (settle_Ack B V D (g_job g) w Hok) as Hd. destruct (be_Ack (g_job g) w) as [w1 [e|]]; simplify_eq/=;
      (split_and!; [done | done | eexists; split; [by rewrite app_nil_r | done]]).
  - destruct (g_done g) as [[e|]|] eqn:Ed; simplify_eq/=;
      (split_and!; [done | done | exists []; split; [done | apply settles_nil]]).
  - unfold job_retry in Hs. set (at_ := now w + _) in Hs. destruct (law_Retry B V (g_job g) at_ w Hok) as [Hl _].
    pose proof (settle_Retry B V D (g_job g) at_ w Hok) as Hd. destruct (be_Retry (g_job g) at_ w) as [w1 [e|]]; simplify_eq/=;
      (split_and!; [done | done | eexists; split; [by rewrite app_nil_r | done]]).
  - unfold job_dead, deadLetter in Hs. destruct (law_DeadLetter B V (g_job g) reason w Hok) as [Hl _].
    pose proof (settle_DeadLetter B V D (g_job g) reason w Hok) as Hd.
    destruct (be_DeadLetter (g_job g) reason w) as [w1 [e|]]; simplify_eq/=;
      (split_and!; [done | done | eexists; split; [by rewrite app_nil_r | done]]).
Qed.

(** A goroutine changes, and with it what it holds and has reported. *)
Lemma credits_on i f u u' g evs ds :
  u_jobs u !! i = Some g -> (forall g, g_job (f g) = g_job g) -> u_jobs u' = alter f i (u_jobs u) ->
  u_ackl u' = u_ackl u -> u_events u' = u_events u ++ evs -> (evs ≫= report_of) ++ arrived (f g) ≡ₚ ds ++ arrived g ->
  credits u' ≡ₚ ds ++ credits u.
Proof.
  intros Hg Hf Ej Ea Ee Hd. unfold credits, reported. rewrite Ej, Ea, Ee, (jobs_alter f i _ Hf), bind_app.
  apply (Permutation_app_inv_l (arrived g)). pose proof (bind_alter_perm arrived f i _ g Hg) as Hp.
  set (X := u_events u ≫= report_of) in *. set (Y := evs ≫= report_of) in *.
  set (Z := alter f i (u_jobs u) ≫= arrived) in *. set (T := u_jobs u ≫= arrived) in *. set (A := answers_of _ _).
  trans (X ++ Y ++ (arrived g ++ Z) ++ A); [solve_Permutation|]. rewrite Hp.
  trans (X ++ (Y ++ arrived (f g)) ++ T ++ A); [solve_Permutation|]. rewrite Hd. solve_Permutation.
Qed.

Lemma all_jobs_alter i f u u' :
  (forall g, g_job (f g) = g_job g) -> u_jobs u' = alter f i (u_jobs u) -> u_main u' = u_main u -> all_jobs u' = all_jobs u.
Proof. intros Hf Ej Em. unfold all_jobs. by rewrite Ej, Em, (jobs_alter f i _ Hf). Qed.

Lemma run_job_grows i u u' : inv u -> run_job cfg handlers i u = Some u' -> grows u u'.
Proof.
  intros Hu Hs. pose proof (i_ok _ _ _ Hu) as Hok. unfold run_job in Hs.
  destruct (u_jobs u !! i) as [g|] eqn:Hg; [|done].
  assert (forall w, later w w) as Hrefl by apply (later_preorder B V).
  assert (forall x, ('(w', (evs, pc)) ← job_step cfg handlers g (u_world u);
      Some (add_events evs (set_world w' (on_job i (set_pc pc) u)))) = Some x -> grows u x) as Hgen.
  { intros x Hx. apply bind_Some in Hx as ([w' [evs pc]] & Hj & [= <-]).
    destruct (job_step_settles g _ _ _ _ Hok Hj) as (Hpc & Hl & ds & Hd & Hset). split; [done | |].
    - by apply leases_same, (all_jobs_alter i (set_pc pc)).
    - exists ds. split; [|done]. eapply (credits_on i (set_pc pc)); [done.. |]. rewrite Hd.
      assert (arrived (set_pc pc g) = []) as -> by (unfold arrived; cbn; by destruct pc). by rewrite app_nil_r. }
  (* steps that only change where the goroutine is *)
  assert (forall pc evs u', arrived g = [] -> arrived (set_pc pc g) = [] -> evs ≫= report_of = [] ->
    u_world u' = u_world u -> u_jobs u' = alter (set_pc pc) i (u_jobs u) -> u_main u' = u_main u ->
    u_ackl u' = u_ackl u -> u_events u' = u_events u ++ evs -> grows u u') as Hmove.
  { intros pc evs x A1 A2 Hev Ew Ej Em Ea Ee. split; [by rewrite Ew | by apply leases_same, (all_jobs_alter i (set_pc pc))|].
    apply settles_same. eapply (credits_on i (set_pc pc) _ _ _ _ []); [done.. |]. by rewrite Hev, A1, A2. }
  destruct (g_pc g) eqn:Hpc; try by apply Hgen.
  - destruct be_AckBatch as [b|] eqn:Eb; [|by apply Hgen]. destruct (_ <? _); [|done]. simplify_eq.
    destruct (inv_lookup _ _ u i g Hu Hg) as (_ & _ & _ & _ & Gu). rewrite Hpc in Gu. specialize (Gu eq_refl).
    eapply (Hmove JAckWait []); unfold arrived; cbn; rewrite ?Hpc, ?Gu, ?app_nil_r; done.
  - simplify_eq. eapply (Hmove JReleased (job_returned (g_job g) err)); unfold arrived; cbn; rewrite ?Hpc; try done.
    destruct err as [e|]; [|done]. cbn. by destruct (errors_Is _ _).
  - simplify_eq. eapply (Hmove JFreed []); unfold arrived; cbn; rewrite ?Hpc, ?app_nil_r; done.
  - simplify_eq. eapply (Hmove JGone []); unfold arrived; cbn; rewrite ?Hpc, ?app_nil_r; done.
Qed.
(** ** The ack loop *)

Lemma answers_batch u batch : forall errs, Forall (known u) batch ->
  zip batch errs ≫= answer_of (g_job <$> u_jobs u) = batch_settled (jobs_of (u_jobs u) batch) errs.
Proof.
  induction batch as [|i batch IH]; intros errs Hk; [done|]. apply Forall_cons in Hk as [[g Hg]%lookup_lt_is_Some_2 Hk].
  cbn. rewrite Hg. cbn. destruct errs as [|err errs]; [done|]. cbn. rewrite IH by done. f_equal.
  unfold answer_of. cbn. by rewrite list_lookup_fmap, Hg.
Qed.

Lemma deliver_grows u i err answers :
  inv u -> u_ackl u = ADeliver ((i, err) :: answers) ->
  grows u (set_ackl (ADeliver answers) (on_job i (answer err) u)).
Proof.
  intros Hu El. assert (i ∈ requests u) as Hi by (unfold requests; rewrite El; set_solver).
  apply (i_reqs _ _ _ Hu) in Hi as (g & Hg & Hpc & Hdone). split; [apply (later_preorder B V) | |].
  - by apply leases_same, (all_jobs_alter i (answer err)).
  - apply settles_same. unfold credits. cbn. rewrite El, (jobs_alter (answer err) i _ ltac:(done)). cbn.
    pose proof (bind_alter_perm arrived (answer err) i _ g Hg) as Hp.
    assert (arrived g = []) as Ha by (unfold arrived; by rewrite Hpc, Hdone).
    assert (arrived (answer err g) = answer_of (g_job <$> u_jobs u) (i, err)) as Hn.
    { unfold arrived, answer_of. cbn. by rewrite Hpc, list_lookup_fmap, Hg. }
    rewrite Ha, Hn in Hp. cbn in Hp. rewrite Hp. set (A := answer_of _ _). unfold reported. cbn. solve_Permutation.
Qed.

Lemma ack_step_grows u u' : inv u -> ack_step u u' -> grows u u'.
Proof.
  intros Hu Hst. pose proof (later_preorder B V) as Hpre.
  destruct Hst as [u El Hs|u i rest El Ea|u batch i rest El Hlt Ea|u batch f w' errs El Hc Hf Hcall|u i err answers El|u El];
    try (apply grows_quiet; [done | done | done | intros jobs; cbn; by rewrite El | done]).
  - assert (Forall (known u) batch) as Hk.
    { apply Forall_forall. intros i Hi. assert (i ∈ requests u) as Hr by (unfold requests; rewrite El; set_solver).
      apply (i_reqs _ _ _ Hu) in Hr as (g & Hg & _). by eapply lookup_lt_Some. }
    destruct (law_AckBatch B V f Hf (jobs_of (u_jobs u) batch) (u_world u) (i_ok _ _ _ Hu)) as [Hl _].
    pose proof (settle_AckBatch B V D f (jobs_of (u_jobs u) batch) (u_world u) Hf (i_ok _ _ _ Hu)) as Hd.
    rewrite Hcall in Hl, Hd. split; [done | by apply leases_same|]. eexists. split; [|exact Hd].
    unfold credits, reported. cbn. rewrite El, (answers_batch u batch errs Hk). cbn. solve_Permutation.
  - by apply deliver_grows.
Qed.

(** ** The loop *)

Lemma spawn_grows u free n err job todo :
  inv u -> u_main u = MSpawn free n err (job :: todo) -> grows u (set_main (MSpawn free n err todo) (spawn_job job u)).
Proof.
  intros Hu Em. split; [apply (later_preorder B V) | |].
  - apply leases_same. unfold all_jobs. cbn. by rewrite Em, fmap_app, <- app_assoc.
  - apply settles_same. unfold credits. cbn. rewrite bind_app. cbn. rewrite app_nil_r, fmap_app.
    pose proof (i_ackl _ _ _ Hu) as Ha. destruct (u_ackl u) as [| | |answers|]; try done. cbn. rewrite answers_app; [done|].
    destruct Ha as [_ Ha]. eapply Forall_impl; [exact Ha|]. intros a (g & Hg & _). rewrite length_fmap. by eapply lookup_lt_Some.
Qed.

Lemma cancel_grows u : u_main u = MDrain -> grows u (set_main MForced (set_jobs (cancel_ctx ErrShutdown <$> u_jobs u) u)).
Proof.
  intros Em. assert (g_job <$> (cancel_ctx ErrShutdown <$> u_jobs u) = g_job <$> u_jobs u) as Ej.
  { rewrite <- list_fmap_compose. by apply list_fmap_ext. }
  split; [apply (later_preorder B V) | |].
  - apply leases_same. unfold all_jobs. cbn [u_jobs set_jobs set_main u_main]. by rewrite Ej, Em.
  - apply settles_same. unfold credits. cbn [u_jobs set_jobs set_main u_ackl]. by rewrite Ej, list_fmap_bind.
Qed.

Lemma claim_grows u u' limit new :
  later (u_world u) (u_world u') -> new_leases V (u_world u) (u_world u') limit new -> u_jobs u' = u_jobs u ->
  claimed (u_main u') = claimed (u_main u) ++ new -> u_ackl u' = u_ackl u -> u_events u' = u_events u -> grows u u'.
Proof.
  intros Hl (_ & Hnd & Hnew) Ej Ec Ea Ee. split; [done | |].
  - exists new. split; [|done]. unfold all_jobs. rewrite Ej, Ec. solve_Permutation.
  - apply settles_same. unfold credits, reported. by rewrite Ej, Ea, Ee.
Qed.

Lemma main_step_grows u u' : inv u -> main_step cfg u u' -> grows u u'.
Proof.
  intros Hu Hst. pose proof (later_preorder B V) as Hpre. pose proof (i_room _ _ _ Hu) as Hr. unfold room in Hr.
  destruct Hst as [u Em Hc|u free Em Hc|u free w' lr jobs err Em Er|u free jobs0 w' jobs err Em Er|u free n err job todo Em
    |u free n err Em|u d Em|u Em Hf|u Em|u Em|u Em Hg|u Em Hj|u Em];
    try (apply grows_quiet; [done | done | cbn; by rewrite Em | done | done]).
  - apply grows_quiet; [done | done | cbn; rewrite Em; by destruct (_ <? _) | done | done].
  - rewrite Em in Hr. pose proof (recover_half_ok cfg free (u_lastRecover u) (u_world u) (i_ok _ _ _ Hu) (proj1 Hr)) as Hl.
    rewrite Er in Hl. destruct Hl as [Hl Hnew]. eapply claim_grows; [done | done | done | | done | done].
    cbn. rewrite Em. by destruct (is_err err).
  - rewrite Em in Hr. pose proof (claim_half_ok cfg free jobs0 (u_world u) (i_ok _ _ _ Hu) ltac:(lia)) as Hl.
    rewrite Er in Hl. destruct Hl as [Hl (new & -> & Hnew)]. eapply claim_grows; [done | done | done | | done | done].
    cbn. by rewrite Em.
  - by apply spawn_grows.
  - unfold after_spawn. destruct err; [destruct (u_ctx u)|];
      (apply grows_quiet; [done | done | cbn; rewrite Em; by repeat case_match | done | done]).
  - by apply cancel_grows.
  - apply grows_quiet; [done | done | cbn; by destruct Em as [->| ->] | done | done].
  - apply grows_quiet; [done | done | cbn; rewrite Em; by destruct be_Deregister | done | done].
  - apply grows_quiet; [|done | cbn; by rewrite Em | done | done]. cbn. unfold deregister.
    destruct be_Deregister as [f|] eqn:Ef; [|done]. by apply (law_Deregister B V), Hu.
Qed.

(** ** Every goroutine *)

Lemma beat_step_grows u u' : inv u -> beat_step u u' -> grows u u'.
Proof.
  intros Hu Hst. pose proof (later_preorder B V) as Hpre. pose proof (i_ok _ _ _ Hu) as Hok.
  destruct Hst as [| | | | | | |u held f w' errs batch Eh Hne Hf Hcall| |u batch i rem errs rest g w' err Eh Hg Hcall
    | |u i err answers rest Eh|]; try by apply grows_quiet.
  - apply grows_quiet; try done. destruct (law_ExtendBatch B V f Hf (jobs_of (u_jobs u) batch) _ Hok) as [Hl _].
    by rewrite Hcall in Hl.
  - apply grows_quiet; try done. destruct (law_Extend B V (g_job g) _ Hok) as [Hl _]. by rewrite Hcall in Hl.
  - destruct (is_lost err); [|by apply grows_quiet]. pose proof (i_hb _ _ _ Hu) as Hh. rewrite Eh in Hh.
    destruct Hh as [((g & Hg & _) & _)%Forall_cons _]. split; [done | |].
    + by apply leases_same, (all_jobs_alter i (cancel_ctx ErrLeaseLost)).
    + apply settles_same. eapply (credits_on i (cancel_ctx ErrLeaseLost) _ _ _ [] []); try done. cbn. by rewrite app_nil_r.
Qed.

Lemma ustep_grows u u' : inv u -> step u u' -> grows u u'.
Proof.
  intros Hu Hst. pose proof (later_preorder B V) as Hpre.
  destruct Hst as [u u' H|i u u' H|u u' H|u u' H|u u' H|u|u w' H].
  - by apply main_step_grows.
  - by eapply run_job_grows.
  - by apply beat_step_grows.
  - by apply ack_step_grows.
  - destruct H as [u w' evs Es Hr|u Es|u Es Hc]; try by apply grows_quiet.
    unfold report_stats in Hr. pose proof (law_Stats B V (u_world u) (i_ok _ _ _ Hu)) as Hl.
    destruct (be_Stats (u_world u)) as [w1 r]. simplify_eq. apply grows_quiet; try done.
    unfold reported. cbn. rewrite bind_app. destruct r; cbn; by rewrite app_nil_r.
  - by apply grows_quiet.
  - apply grows_quiet; try done. apply Houtside; [done | apply Hu].
Qed.
End steps.

(** ** The fleet *)

(** ** Collections that only grow by what is new *)

Lemma fresh_NoDup {A} (was : A -> Prop) new old :
  NoDup new -> Forall (fun x => ~ was x) new -> NoDup old -> Forall was old -> NoDup (new ++ old).
Proof.
  intros Hn Hf Ho Hw. apply NoDup_app. split_and!; [done | | done]. intros x Hx Hx'.
  rewrite Forall_forall in Hf, Hw. by apply (Hf x Hx), Hw.
Qed.

Lemma bind_insert_perm {A C} (h : A -> list C) l i x y new :
  l !! i = Some x -> h y ≡ₚ new ++ h x -> <[i := y]> l ≫= h ≡ₚ new ++ (l ≫= h).
Proof.
  intros Hi Hy. revert i Hi. induction l as [|a l IH]; intros [|i] Hi; simplify_eq/=.
  - by rewrite Hy, app_assoc.
  - rewrite (IH i Hi). solve_Permutation.
Qed.

Lemma bind_NoDup_part {A C} (h : A -> list C) l i x : NoDup (l ≫= h) -> l !! i = Some x -> NoDup (h x).
Proof.
  revert i. induction l as [|a l IH]; intros [|i] Hnd Hi; simplify_eq/=; apply NoDup_app in Hnd as (H1 & _ & H2); eauto.
Qed.

Lemma bind_NoDup_index {A C} (h : A -> list C) l i j x y z :
  NoDup (l ≫= h) -> l !! i = Some x -> l !! j = Some y -> z ∈ h x -> z ∈ h y -> i = j.
Proof.
  revert i j. induction l as [|a l IH]; intros [|i] [|j] Hnd Hi Hj Hx Hy; simplify_eq/=; try done;
    apply NoDup_app in Hnd as (_ & Hd & Hnd).
  - destruct (Hd z Hx). apply list_elem_of_bind. eauto using list_elem_of_lookup_2.
  - destruct (Hd z Hy). apply list_elem_of_bind. eauto using list_elem_of_lookup_2.
  - f_equal. eauto.
Qed.

Section fleet.
Context {P Sh : Type} {B : Backend (P * Sh)} {E : WorkerEnv (P * Sh)} {V : Leases (P * Sh)} {D : Settled (P * Sh)}.
Implicit Types (p : P) (s : Sh).

(** What is true of leases and deliveries is a matter of the server alone. *)
Class SharedLaws : Prop := {
  shared_later p s p' s' p2 : later (p, s) (p', s') -> lb_ok (p2, s) -> later (p2, s) (p2, s');
  shared_issued p p' s l : issued (p, s) l -> issued (p', s) l;
  shared_over p p' s l : over (p, s) l -> over (p', s) l;
  shared_ended p p' s d : ended (p, s) d -> ended (p', s) d;
}.

(** A worker process. *)
Record member := Member {
  m_cfg : WorkerConfig;
  m_handlers : gmap string (HandlerFunc (P * Sh));
  m_run : run (P * Sh);
}.

Record fleet := Fleet { f_shared : Sh; f_members : list member }.

(** A process sees its own value of the backend and the server as it is now. *)
Definition sees s (u : run (P * Sh)) : run (P * Sh) := set_world ((u_world u).1, s) u.
Definition with_run (m : member) (u : run (P * Sh)) : member := Member (m_cfg m) (m_handlers m) u.

(** Workers are configured to run something, by handlers that use the queue as clients do. *)
Definition member_ok (m : member) : Prop :=
  0 < wc_Concurrency (m_cfg m) /\
  forall task h job w, m_handlers m !! task = Some h -> lb_ok w -> later w (h job w).1.

Inductive fstep : fleet -> fleet -> Prop :=
  | f_member f i m u' :
      f_members f !! i = Some m ->
      ustep (m_cfg m) (m_handlers m) (fun _ _ => False) (sees (f_shared f) (m_run m)) u' ->
      fstep f (Fleet (u_world u').2 (<[i := with_run m u']> (f_members f)))
  | f_start f m p :
      member_ok m -> lb_ok (p, f_shared f) -> run_start (m_cfg m) (p, f_shared f) = Ok (m_run m) ->
      fstep f (Fleet (f_shared f) (f_members f ++ [m]))
  | f_outside f s' :
      (forall p, lb_ok (p, f_shared f) -> later (p, f_shared f) (p, s')) ->
      fstep f (Fleet s' (f_members f)).

(** The leases its processes have taken; what they know to be settled; what they have
    reported to be. *)
Definition fleet_leases (f : fleet) : list Lease := f_members f ≫= (fun m => JLease <$> all_jobs (m_run m)).
Definition fleet_credits (f : fleet) : list delivery_id := f_members f ≫= (fun m => credits (m_run m)).
Definition fleet_reports (f : fleet) : list delivery_id := f_members f ≫= (fun m => reported (m_run m)).

(** ** The invariant *)

Context {LL : LeaseLaws B V} {SL : SettleLaws B V D} {SH : SharedLaws}.

Record holds_at s (m : member) : Prop := {
  h_ok : member_ok m;
  h_inv : inv (m_cfg m) (m_handlers m) (sees s (m_run m));
  h_ended : Forall (ended ((u_world (m_run m)).1, s)) (credits (m_run m));
}.

Record finv (f : fleet) : Prop := {
  fi_each : Forall (holds_at (f_shared f)) (f_members f);
  fi_leases : NoDup (fleet_leases f);
  fi_credits : NoDup (fleet_credits f);
}.

Lemma sees_own (u : run (P * Sh)) : sees (u_world u).2 u = u.
Proof. unfold sees. rewrite <- surjective_pairing. by destruct u. Qed.

(** A process on its own, between the steps of the others. *)
Lemma alone_outside (w w' : P * Sh) : (fun _ _ : P * Sh => False) w w' -> lb_ok w -> later w w'.
Proof. done. Qed.

(** Whatever the others do, a process's own invariant stays. *)
Lemma holds_at_later s s' m :
  (forall p, lb_ok (p, s) -> later (p, s) (p, s')) -> holds_at s m -> holds_at s' m.
Proof.
  intros Hl [Hok Hinv He]. pose proof (i_ok _ _ _ Hinv) as Hlb. split; [done | |].
  - exact (inv_world _ _ (sees s (m_run m)) ((u_world (m_run m)).1, s') (Hl _ Hlb) Hinv).
  - eapply Forall_impl; [exact He|]. intros d. by apply (later_ended B V D); [apply Hl|].
Qed.

Lemma fleet_leases_issued f p : finv f -> Forall (issued (p, f_shared f)) (fleet_leases f).
Proof.
  intros Hf. apply Forall_bind. eapply Forall_impl; [apply Hf|]. intros m [_ Hinv _]. apply Forall_fmap.
  eapply Forall_impl; [apply (i_issued _ _ _ Hinv)|]. intros j. apply shared_issued.
Qed.

Lemma fleet_credits_ended f p : finv f -> Forall (ended (p, f_shared f)) (fleet_credits f).
Proof.
  intros Hf. apply Forall_bind. eapply Forall_impl; [apply Hf|]. intros m [_ _ He].
  eapply Forall_impl; [exact He|]. intros d. apply shared_ended.
Qed.

Lemma member_step_inv f i m u' :
  f_members f !! i = Some m ->
  ustep (m_cfg m) (m_handlers m) (fun _ _ => False) (sees (f_shared f) (m_run m)) u' ->
  finv f -> finv (Fleet (u_world u').2 (<[i := with_run m u']> (f_members f))).
Proof.
  intros Hm Hst Hf. pose proof Hf as [Heach Hleases Hcredits].
  set (p := (u_world (m_run m)).1). destruct (Forall_lookup_1 _ _ _ _ Heach Hm) as [[Hconc Hhand] Hinv He].
  pose proof (ustep_grows _ _ _ Hhand alone_outside _ _ Hinv Hst) as
    [Hl (new & Hjobs & Hnd & Hnew) (ds & Hcr & Hdnd & Hds)].
  pose proof (ustep_inv _ _ _ Hhand alone_outside _ _ Hst Hinv) as Hinv'.
  cbn in Hl. destruct (u_world u') as [p' s'] eqn:Ew. cbn [snd]. split; cbn [f_shared f_members].
  - apply Forall_insert.
    + eapply Forall_impl; [exact Heach|]. intros m2. apply holds_at_later. intros p2. by eapply shared_later.
    + split; cbn [with_run m_cfg m_handlers m_run]; [done | |].
      * replace s' with (u_world u').2 by (by rewrite Ew). by rewrite sees_own.
      * rewrite Ew. cbn [fst]. rewrite Hcr. apply Forall_app. split.
        -- eapply Forall_impl; [exact Hds|]. by intros d [_ ?].
        -- eapply Forall_impl; [exact He|]. intros d. apply (later_ended B V D); [done | apply Hinv].
  - unfold fleet_leases. cbn [f_members]. rewrite (bind_insert_perm _ _ i m (with_run m u') (JLease <$> new) Hm).
    2: { cbn. by rewrite Hjobs, fmap_app. }
    apply (fresh_NoDup (issued (p, f_shared f))); [done | | done | by apply fleet_leases_issued].
    apply Forall_fmap. eapply Forall_impl; [exact Hnew|]. by intros j [? _].
  - unfold fleet_credits. cbn [f_members]. rewrite (bind_insert_perm _ _ i m (with_run m u') ds Hm Hcr).
    apply (fresh_NoDup (ended (p, f_shared f))); [done | | done | by apply fleet_credits_ended].
    eapply Forall_impl; [exact Hds|]. by intros d [? _].
Qed.

Lemma fstep_inv f f' : fstep f f' -> finv f -> finv f'.
Proof.
  intros Hst Hf. destruct Hst as [f i m u' Hm Hst|f m p [Hc Hh] Hok H0|f s' Hs]; [by eapply member_step_inv | |].
  - pose proof Hf as [Heach Hleases Hcredits].
    pose proof (run_start_inv (m_cfg m) (m_handlers m) _ Hh alone_outside _ _ (Z.lt_le_incl _ _ Hc) Hok H0) as Hinv.
    assert (all_jobs (m_run m) = [] /\ credits (m_run m) = [] /\ u_world (m_run m) = (p, f_shared f)) as (Ej & Ec & Ew).
    { unfold run_start in H0. case_bool_decide; [done|]. injection H0 as <-. unfold credits, reported. cbn. by destruct be_AckBatch. }
    split; cbn.
    + apply Forall_app. split; [done|]. constructor; [|done]. split; [done | | by rewrite Ec].
      replace (f_shared f) with (u_world (m_run m)).2 by (by rewrite Ew). by rewrite sees_own.
    + unfold fleet_leases in *. cbn. rewrite bind_app. cbn. by rewrite Ej, !app_nil_r.
    + unfold fleet_credits in *. cbn. rewrite bind_app. cbn. by rewrite Ec, !app_nil_r.
  - destruct Hf as [Heach Hleases Hcredits]. split; [|done | done].
    eapply Forall_impl; [exact Heach|]. intros m. by apply holds_at_later.
Qed.

Lemma fleet_inv s f : rtc fstep (Fleet s []) f -> finv f.
Proof.
  intros Hr. eapply (rtc_ind_r (fun f => finv f)); [|intros; by eapply fstep_inv | exact Hr].
  split; constructor.
Qed.

(** ** What the fleet never does *)

(** Each lease is held by one goroutine of one process. *)
Lemma fleet_lease_unique f i m a g j m' b g' :
  finv f -> f_members f !! i = Some m -> u_jobs (m_run m) !! a = Some g ->
  f_members f !! j = Some m' -> u_jobs (m_run m') !! b = Some g' -> JLease (g_job g) = JLease (g_job g') -> i = j /\ a = b.
Proof.
  intros Hf Hi Ha Hj Hb El. pose proof (fi_leases f Hf) as Hnd.
  assert (forall m a g, u_jobs (m_run m) !! a = Some g -> (JLease <$> all_jobs (m_run m)) !! a = Some (JLease (g_job g))) as Hat.
  { intros m0 a0 g0 H0. unfold all_jobs. rewrite fmap_app, <- list_fmap_compose. apply lookup_app_l_Some.
    by rewrite list_lookup_fmap, H0. }
  apply Hat in Ha, Hb. rewrite <- El in Hb.
  assert (i = j) as <- by (by eapply bind_NoDup_index; [exact Hnd | done.. | eapply list_elem_of_lookup_2 | eapply list_elem_of_lookup_2]).
  simplify_eq. split; [done|]. apply (NoDup_lookup _ _ _ _ (bind_NoDup_part _ _ _ _ Hnd Hi) Ha Hb).
Qed.

(** Of two goroutines, of one process or of two, that run the same delivery, one has a
    lease that is over. *)
Lemma fleet_exclusion f p i m a g j m' b g' :
  finv f -> f_members f !! i = Some m -> u_jobs (m_run m) !! a = Some g ->
  f_members f !! j = Some m' -> u_jobs (m_run m') !! b = Some g' ->
  delivery (g_job g) = delivery (g_job g') ->
  ~ over (p, f_shared f) (JLease (g_job g)) -> ~ over (p, f_shared f) (JLease (g_job g')) -> i = j /\ a = b.
Proof.
  intros Hf Hi Ha Hj Hb [= Hid Hpart] Ho Ho'. eapply fleet_lease_unique; [done.. |].
  assert (forall i m a g, f_members f !! i = Some m -> u_jobs (m_run m) !! a = Some g ->
    holds_at (f_shared f) m /\ issued ((u_world (m_run m)).1, f_shared f) (JLease (g_job g))) as Hiss.
  { intros i0 m0 a0 g0 Hi0 Ha0. pose proof (Forall_lookup_1 _ _ _ _ (fi_each f Hf) Hi0) as Hm. split; [done|].
    apply (inv_lookup _ _ (sees (f_shared f) (m_run m0)) a0 g0 (h_inv _ _ Hm) Ha0). }
  destruct (Hiss _ _ _ _ Hi Ha) as [Hm H1]. destruct (Hiss _ _ _ _ Hj Hb) as [_ H2].
  apply (one_lease B V D ((u_world (m_run m)).1, f_shared f));
    [apply (h_inv _ _ Hm) | done | by eapply shared_issued | | | done | done].
  - intros H. by eapply Ho, shared_over.
  - intros H. by eapply Ho', shared_over.
Qed.

Lemma fleet_reports_sub f : fleet_reports f ⊆+ fleet_credits f.
Proof.
  unfold fleet_reports, fleet_credits. induction (f_members f) as [|m ms IH]; [done|]. cbn.
  apply submseteq_app; [|done]. unfold credits. apply submseteq_inserts_r. done.
Qed.

(** What is reported is reported once, and has ended. *)
Lemma fleet_reports_once f p : finv f -> NoDup (fleet_reports f) /\ Forall (ended (p, f_shared f)) (fleet_reports f).
Proof.
  intros Hf. pose proof (fleet_reports_sub f) as Hsub. split.
  - apply submseteq_Permutation in Hsub as [k Hk]. pose proof (fi_credits f Hf) as Hnd. rewrite Hk in Hnd. by apply NoDup_app in Hnd as [? _].
  - rewrite Forall_forall. intros d Hd. pose proof (fleet_credits_ended f p Hf) as He. rewrite Forall_forall in He.
    apply He. by eapply elem_of_submseteq.
Qed.
End fleet.
Arguments member : clear implicits.
Arguments fleet : clear implicits.
