(* ===== verification/FleetStore.v ===== *)
(** * A fleet of workers on the store

    The store keeps the promises [Fleet] is proved against, so that its guarantees hold
    of any number of worker processes on one Redis: at most one of the goroutines that
    run a delivery has a lease that is honoured, and no delivery is reported completed,
    retried or dead-lettered twice. *)

From S2P Require Import Prelude GoNum GoTime Errors Job GoJson Redis RefRedis Scripts QueueSpec.
From S2P Require Import QueueRep ScriptsOk QueueSteps QueueProps Retry Store JobCodec StoreOk EnqueueOk.
From S2P Require Import ClaimOk Demo EnqueueProps StoreRun Backend StoreBackend Worker LeaseLaws.
From S2P Require Import WorkerRun WorkerRunOk WorkerStore StoreLeases SettleOnce WorkerRunStore Fleet.
From stdpp Require Import strings gmap relations.

Open Scope Z_scope.

Section queue.
Context {R : Redis}.

(** A database holds one queue, as far as deliveries go. *)
Lemma represents_group K v q1 q2 :
  represents K v q1 -> represents K v q2 ->
  q_entries q1 = q_entries q2 /\ q_last q1 = q_last q2 /\ q_pel q1 = q_pel q2.
Proof.
  intros H1 H2. destruct (rep_stream _ _ _ H1) as (g1 & Hs1 & Hg1). destruct (rep_stream _ _ _ H2) as (g2 & Hs2 & Hg2).
  rewrite Hs1 in Hs2. by simplify_eq.
Qed.

Lemma over_dec q l : q_issued q l -> ~ q_over q l -> exists p, q_pel q !! MessageID l = Some p /\
  Token l = pe_count p /\ Owner l = pe_owner p.
Proof.
  intros [Hle Hp] Hno. destruct (q_pel q !! MessageID l) as [p|] eqn:El.
  - exists p. split; [done|]. destruct (Hp p eq_refl) as [Hlt|?]; [|done]. destruct Hno. split; [done|]. intros p'. by rewrite El; intros [= <-].
  - destruct Hno. split; [done|]. intros p'. by rewrite El.
Qed.

Lemma batch_settled_ids jobs : forall errs, (batch_settled jobs errs).*1 = batch_succeeded jobs errs.
Proof.
  induction jobs as [|job jobs IH]; intros [|[e|] errs]; [done | done | done | done | |]; cbn; by rewrite IH.
Qed.
End queue.

Section world.
Context {R : Redis} {L : RedisLaws R} {C : Client R} {CL : ClientLaws C} {E : Env R}.
Context (b0 : Store) (HK : keys_ok (K_of b0)) {EL : EnvLaws E b0}.
Implicit Types (q : qstate) (w : Store * rdb).

#[export] Instance store_settled : Settled (Store * rdb) := {|
  ended w d := exists q, holds_queue b0 w q /\ gone q d.1;
|}.

#[local] Abbreviation Moves := (moves b0).

Lemma issued_at w q l : holds_queue b0 w q -> issued (Leases:=store_leases b0) w l -> q_issued q l.
Proof.
  intros [Hq _] (q1 & [Hq1 _] & Hi). destruct (represents_group _ _ q q1 Hq Hq1) as (_ & El & Ep). unfold q_issued. by rewrite El, Ep.
Qed.

Lemma over_at w q l : holds_queue b0 w q -> q_over q l -> over (Leases:=store_leases b0) w l.
Proof. intros. by exists q. Qed.

Lemma moves_settles ids ds w w' :
  store_ok b0 w -> Moves (fun q q' => ends_once q q' ids) w w' -> ds.*1 = ids -> settles store_settled w w' ds.
Proof.
  intros (_ & _ & q & Hq) [_ Hm] <-. split.
  - destruct (Hm q Hq) as (q' & _ & _ & Hnd & _). by eapply NoDup_fmap_1.
  - apply Forall_forall. intros d Hd. assert (d.1 ∈ ds.*1) as Hd1 by (by apply list_elem_of_fmap_2). split.
    + intros (q1 & Hq1 & Hg). destruct (Hm q1 Hq1) as (q' & _ & _ & _ & Hall). rewrite Forall_forall in Hall. by apply (Hall d.1).
    + destruct (Hm q Hq) as (q' & Hq' & _ & _ & Hall). exists q'. split; [done|]. rewrite Forall_forall in Hall. by apply Hall.
Qed.

Lemma law_settle_intro (op : Store -> SE rdb error unit) job :
  (forall b q, K_of b = K_of b0 -> q_inv q ->
     wpc (K:=K_of b0) (op b) q (fun r q' => reaches q q' /\ ends_once q q' (succeeded r job))) ->
  law_settle (store_leases b0) store_settled (fun w => on_store w.1 (of_unit (op w.1 w.2))) job.
Proof.
  intros Hop [b s] Hok. pose proof Hok as (Hc & Hd & _). simpl in Hc, Hd. pose proof (K_of_same _ _ Hc Hd) as Ek.
  apply (moves_settles (succeeded (op b s).2 job)); [done | |].
  - apply (moves_op b0 (fun r q q' => ends_once q q' (succeeded r job))). intros q Hs Hinv.
    destruct (Hop b q Ek Hinv s Hs) as (s' & r & q' & Eo & Hs' & _ & Hr & Hp). eauto 10.
  - cbn. unfold of_unit. by destruct (op b s) as [s' [[]|e]].
Qed.

#[export] Instance store_settle_laws : SettleLaws store_backend (store_leases b0) store_settled.
Proof.
  split.
  - intros w w' d [_ Hm] _ (q & Hq & Hg). destruct (Hm q Hq) as (q' & Hq' & Hr & _).
    exists q'. split; [done | by eapply reaches_gone].
  - intros w l1 l2 (_ & _ & q & Hq) H1 H2 N1 N2 Hid Hpart.
    destruct (over_dec q l1) as (p1 & Hp1 & Ht1 & Ho1); [by eapply issued_at | intros ?; by eapply N1, over_at|].
    destruct (over_dec q l2) as (p2 & Hp2 & Ht2 & Ho2); [by eapply issued_at | intros ?; by eapply N2, over_at|].
    destruct l1, l2; cbn in *. congruence.
  - intros job. apply (law_settle_intro (fun b => Ack b job)). intros b q Ek Hinv. rewrite <- Ek in HK |- *.
    apply (settle_once b _ job q Acked _ Hinv (Ack_ok b HK q job)); [done|]. intros q' ->. by exists (0%N, 0%N).
  - intros job at_. apply (law_settle_intro (fun b => Retry b job at_)). intros b q Ek Hinv. rewrite <- Ek in HK |- *.
    apply (settle_once b _ job q (Retried (ID job) (UnixMilli at_) (retry_json job)) _ Hinv (Retry_ok b HK q job at_)).
    + intros jid runAt json [= _ _ <-].
      destruct (decodes_coerced (set_Attempt job (wrap64 (Attempt job + 1)))) as (fs & Hd & _). eauto.
    + intros q' ->. by exists (0%N, 0%N).
  - intros job reason w. revert w.
    assert (forall now, law_settle (store_leases b0) store_settled
      (fun w => on_store w.1 (of_unit (DeadLetter w.1 job reason now w.2))) job) as H.
    { intros now. apply (law_settle_intro (fun b => DeadLetter b job reason now)). intros b q Ek Hinv. rewrite <- Ek in HK |- *.
      apply (settle_once b _ job q (Buried (range_map (dead_fields job reason now))) _ Hinv (DeadLetter_ok b HK q job reason now)); [done|].
      by intros q' [did ->]; exists did. }
    intros w. exact (H (clock w.2) w).
  - intros f jobs [b s] [= <-] Hok. pose proof Hok as (Hc & Hd & q0 & Hs0 & Hinv0). simpl in Hc, Hd, Hs0.
    pose proof (K_of_same _ _ Hc Hd) as Ek. cbn.
    apply (moves_settles (batch_succeeded jobs (AckBatch b jobs s).2)); [done | | apply batch_settled_ids].
    apply (moves_op b0 (fun errs q q' => ends_once q q' (batch_succeeded jobs errs))). intros q Hs Hinv.
    rewrite <- Ek in HK, Hs |- *. destruct (AckBatch_once b HK jobs q s Hinv Hs) as (q' & Hs' & Hr & He).
    eauto 10 using surjective_pairing.
Qed.

#[export] Instance store_shared_laws : SharedLaws (V:=store_leases b0).
Proof.
  split; [|done..]. intros p s p' s' p2 [_ Hm] _. split; [done|]. intros q Hq.
  destruct (Hm q Hq) as (q' & Hq' & Hr & _). by exists q'.
Qed.
End world.

(** ** What a fleet on the store never does *)

Section on_store.
Context {R : Redis} {L : RedisLaws R} {C : Client R} {CL : ClientLaws C} {E : Env R}.
Context (b0 : Store) (HK : keys_ok (K_of b0)) {EL : EnvLaws E b0} {WE : WorkerEnv (Store * rdb)}.
Implicit Types (q : qstate) (s : rdb).

Abbreviation store_fleet := (fleet Store rdb).
Abbreviation store_fstep := (fstep (V:=store_leases b0)).

Lemma store_fleet_inv s0 (f : store_fleet) : rtc store_fstep (Fleet s0 []) f ->
  finv (V:=store_leases b0) (D:=store_settled b0) f.
Proof.
  exact (fleet_inv (LL:=store_lease_laws b0 HK) (SL:=store_settle_laws b0 HK) (SH:=store_shared_laws b0) s0 f).
Qed.

(** An honoured lease is not over. *)
Lemma owned_not_over p s q l :
  represents (K_of b0) (view s) q -> lease_owns q l = true -> ~ over (Leases:=store_leases b0) (p, s) l.
Proof.
  intros Hq Ho (q1 & [Hq1 _] & Hov). destruct (represents_group _ _ q q1 Hq Hq1) as (_ & El & Ep).
  assert (superseded q (MessageID l) (Token l)) as Hs by (unfold superseded; by rewrite El, Ep).
  unfold lease_owns in Ho. by rewrite (superseded_not_owned _ _ _ _ Hs) in Ho.
Qed.

(** C6: any number of workers on one queue, with all their goroutines in any interleaving,
    processes starting and being killed, other clients at work and a Redis client that may
    lose replies: of two goroutines that run the same delivery, in one process or in two, at
    most one has a lease that the store honours. *)
Theorem fleet_exclusive s0 (f : store_fleet) q i m a g j m' b g' :
  rtc store_fstep (Fleet s0 []) f -> represents (K_of b0) (view (f_shared f)) q ->
  f_members f !! i = Some m -> u_jobs (m_run m) !! a = Some g ->
  f_members f !! j = Some m' -> u_jobs (m_run m') !! b = Some g' ->
  (i, a) <> (j, b) -> delivery (g_job g) = delivery (g_job g') ->
  lease_owns q (JLease (g_job g)) = false \/ lease_owns q (JLease (g_job g')) = false.
Proof.
  intros Hr Hq Hi Ha Hj Hb Hne Hd.
  destruct (lease_owns q (JLease (g_job g))) eqn:E1; [|by left].
  destruct (lease_owns q (JLease (g_job g'))) eqn:E2; [|by right]. destruct Hne.
  destruct (fleet_exclusion (SL:=store_settle_laws b0 HK) (SH:=store_shared_laws b0)
    f b0 i m a g j m' b g' (store_fleet_inv s0 f Hr) Hi Ha Hj Hb Hd) as [-> ->]; [by eapply owned_not_over.. | done].
Qed.

(** C5: and in every such run no delivery is reported completed, retried or dead-lettered
    twice, by one worker or by two; one that is reported has left the stream, and no state
    the queue can get to honours any lease of it. *)
Theorem fleet_settles_once s0 (f : store_fleet) q :
  rtc store_fstep (Fleet s0 []) f -> represents (K_of b0) (view (f_shared f)) q ->
  NoDup (fleet_reports f) /\
  forall d, d ∈ fleet_reports f ->
    (d.1 ∉ q_ids q) /\ forall q' owner token, reaches q q' -> q_owns q' d.1 owner token = false.
Proof.
  intros Hr Hq. destruct (fleet_reports_once (SH:=store_shared_laws b0)
    f b0 (store_fleet_inv s0 f Hr)) as [Hnd Hall]. split; [done|]. intros d Hd.
  rewrite Forall_forall in Hall. destruct (Hall d Hd) as (q1 & [Hq1 [Hwf _]] & Hg).
  destruct (represents_group _ _ q q1 Hq Hq1) as (Ee & El & Ep). split.
  - unfold q_ids. rewrite Ee. intros ([id fs] & Hd1 & Hin)%list_elem_of_fmap. rewrite Hd1 in Hg. by eapply gone_entry.
  - intros q' owner token Hreach. apply superseded_not_owned, (reaches_gone q); [done|].
    intros t. unfold superseded. rewrite El, Ep. apply Hg.
Qed.
End on_store.

(** ** A run of two workers *)

(** Which goroutine of which process moves next, or how much time passes. *)
Inductive fchoice := FMove (i : nat) (c : WorkerRunStore.choice) | FTick (d : Z).

Section exec.
Context {R : Redis} {L : RedisLaws R} {C : Client R} {CL : ClientLaws C} {E : Env R}.
Context (b0 : Store) (HK : keys_ok (K_of b0)) {EL : EnvLaws E b0} {WE : WorkerEnv (Store * rdb)}.

Definition fleet_move (c : fchoice) (f : fleet Store rdb) : option (fleet Store rdb) :=
  match c with
  | FMove i c =>
      m ← f_members f !! i;
      u' ← move (m_cfg m) (m_handlers m) c (sees (f_shared f) (m_run m));
      Some (Fleet (u_world u').2 (<[i := with_run m u']> (f_members f)))
  | FTick d => if 0 <=? d then Some (Fleet (tick d (f_shared f)) (f_members f)) else None
  end.

Fixpoint fleet_moves (cs : list fchoice) (f : fleet Store rdb) : option (fleet Store rdb) :=
  match cs with [] => Some f | c :: cs' => f' ← fleet_move c f; fleet_moves cs' f' end.

Lemma tick_later b s d : 0 <= d -> later (Leases:=store_leases b0) (b, s) (b, tick d s).
Proof.
  intros Hd. split; [done|]. intros q [Hs Hinv]. exists (q_tick d q).
  assert (reaches q (q_tick d q)) as Hr by (by eapply reaches_step, step_tick).
  split_and!; [split; [by apply rep_tick | by eapply reaches_inv] | done | done].
Qed.

Lemma fleet_moves_sound cs : forall f f', fleet_moves cs f = Some f' -> rtc (fstep (V:=store_leases b0)) f f'.
Proof.
  induction cs as [|c cs IH]; intros f f'; cbn; [by intros [= <-]; apply rtc_refl|].
  destruct (fleet_move c f) as [f1|] eqn:Ef; [|done]. intros H. eapply rtc_l; [|by apply IH].
  destruct c as [i c|d]; cbn in Ef.
  - apply bind_Some in Ef as (m & Hm & (u' & Hu & [= <-])%bind_Some). apply f_member; [done|]. by eapply move_sound.
  - destruct (Z.leb_spec 0 d) as [Hd|]; simplify_eq. apply f_outside. intros p _. by apply tick_later.
Qed.
End exec.

Definition demo_cfg2 : WorkerConfig :=
  NewWorker (mkWorkerConfig "w2" 4 0 false 0 0 0 0 0 (mkRetryPolicy 0 0 F_nan)).

Definition demo_fleet : fleet Store rview :=
  Fleet demo_db [Member demo_cfg demo_handlers demo_idle; Member demo_cfg2 demo_handlers demo_idle].

(** The first worker takes both jobs and starts them. Its leases expire; the second
    takes both over, finishes the first job and reports it. The first worker finishes
    the same job and finds its lease lost. *)
Definition demo_stall : list fchoice := (FMove 0 <$> demo_started) ++ [FTick 60000] ++ (FMove 1 <$> demo_started).
Definition demo_race : list fchoice :=
  demo_stall ++ (FMove 1 <$> drop 5 demo_acked) ++ (FMove 0 <$> drop 5 demo_acked) ++ [FMove 0 (CJob 0)].

Definition demo_fleet_at (cs : list fchoice) : fleet Store rview := default demo_fleet (fleet_moves (R:=ref_redis) cs demo_fleet).

Lemma demo_member_ok cfg u : wc_Concurrency cfg = 4 -> member_ok (V:=store_leases (R:=ref_redis) default_store) (Member cfg demo_handlers u).
Proof. intros Hc. split; [cbn; by rewrite Hc|]. intros task h job w Hh. by eapply demo_handlers_step. Qed.

Lemma demo_fleet_reached cs :
  fleet_moves (R:=ref_redis) cs demo_fleet = Some (demo_fleet_at cs) ->
  rtc (fstep (V:=store_leases (R:=ref_redis) default_store)) (Fleet demo_db []) (demo_fleet_at cs).
Proof.
  intros Hm. eapply rtc_l; [|eapply rtc_l; [|by eapply fleet_moves_sound]].
  - apply (f_start (Fleet demo_db []) (Member demo_cfg demo_handlers demo_idle) default_store);
      [by apply demo_member_ok | apply demo_store_ok | reflexivity].
  - apply (f_start (Fleet demo_db [Member demo_cfg demo_handlers demo_idle])
      (Member demo_cfg2 demo_handlers demo_idle) default_store); [by apply demo_member_ok | apply demo_store_ok | reflexivity].
Qed.

Lemma demo_fleet_queue cs m :
  fleet_moves (R:=ref_redis) cs demo_fleet = Some (demo_fleet_at cs) -> f_members (demo_fleet_at cs) !! 0%nat = Some m ->
  exists q, represents (K_of default_store) (f_shared (demo_fleet_at cs)) q.
Proof.
  intros Hm Hms. pose proof (store_fleet_inv default_store default_keys_ok _ _ (demo_fleet_reached cs Hm)) as Hf.
  destruct (Forall_lookup_1 _ _ _ _ (fi_each _ Hf) Hms) as [_ Hinv _].
  destruct (i_ok _ _ _ Hinv) as (_ & _ & q & Hq & _). by exists q.
Qed.

Lemma fleet_exclusive_witness :
  exists q, represents (K_of default_store) (f_shared (demo_fleet_at demo_stall)) q /\
    (lease_owns q (mkLease (5%N, 0%N) "w1" 2 0) = false \/ lease_owns q (mkLease (5%N, 0%N) "w2" 3 0) = false).
Proof.
  assert (fleet_moves (R:=ref_redis) demo_stall demo_fleet = Some (demo_fleet_at demo_stall)) as Hm by (vm_compute; reflexivity).
  destruct (demo_fleet_queue demo_stall _ Hm ltac:(vm_compute; reflexivity)) as [q Hq]. exists q. split; [done|].
  eapply (fleet_exclusive (R:=ref_redis) default_store default_keys_ok demo_db (demo_fleet_at demo_stall) q 0 _ 0
    (JobG (set_Lease demo_job (mkLease (5%N, 0%N) "w1" 2 0)) JStart None None) 1 _ 0
    (JobG (set_Lease demo_job (mkLease (5%N, 0%N) "w2" 3 0)) JStart None None)).
  - by apply demo_fleet_reached.
  - done.
  - vm_compute. reflexivity.
  - vm_compute. reflexivity.
  - vm_compute. reflexivity.
  - vm_compute. reflexivity.
  - done.
  - reflexivity.
Defined.

Lemma fleet_settles_once_witness :
  exists q, represents (K_of default_store) (f_shared (demo_fleet_at demo_race)) q /\
    fleet_reports (demo_fleet_at demo_race) = [((5%N, 0%N), 0)] /\
    NoDup (fleet_reports (demo_fleet_at demo_race)) /\
    forall d, d ∈ fleet_reports (demo_fleet_at demo_race) ->
      (d.1 ∉ q_ids q) /\ forall q' owner token, reaches (R:=ref_redis) q q' -> q_owns q' d.1 owner token = false.
Proof.
  assert (fleet_moves (R:=ref_redis) demo_race demo_fleet = Some (demo_fleet_at demo_race)) as Hm by (vm_compute; reflexivity).
  destruct (demo_fleet_queue demo_race _ Hm ltac:(vm_compute; reflexivity)) as [q Hq]. exists q.
  split; [done|]. split; [vm_compute; reflexivity|].
  apply (fleet_settles_once (R:=ref_redis) default_store default_keys_ok demo_db); [by apply demo_fleet_reached | done].
Defined.
