(* ===== verification/Tracing.v ===== *)
(** * Spans ([queue/tracing.go], [internal/telemetry])

    The producer span of an enqueue, the consumer span of a run and how a run's outcome
    is recorded on it. The propagator and the span contexts are OpenTelemetry's and a
    parameter ([Propagator]); what is relied on is that a context written as a W3C
    traceparent is read back. *)

From S2P Require Import Prelude GoNum GoTime Errors Job Retry Store Backend Worker Json.
From Stdlib Require Import Ascii QArith.
From stdpp Require Import strings.

Open Scope Z_scope.

(** The identity of a span is its trace and its own ID. *)
Class Propagator := {
  spanctx : Type;
  identity : spanctx -> string * string;
  traceparent : spanctx -> string;
  inject : spanctx -> list (string * string);                (* the calls of [Set] *)
  extract : (string -> string) -> option spanctx;             (* from the answers of [Get] *)
}.

Class PropagatorLaws (P : Propagator) : Prop := {
  inject_traceparent sc : (traceparentKey, traceparent sc) ∈ inject sc;
  inject_only sc v : (traceparentKey, v) ∈ inject sc -> v = traceparent sc;
  extract_traceparent sc get : get traceparentKey = traceparent sc -> identity <$> extract get = Some (identity sc);
}.

Inductive span_kind := SpanKindProducer | SpanKindConsumer.

Inductive attr_value := AString (s : string) | AInt (z : Z).

Section spans.
Context {P : Propagator}.

Record span := mkSpan {
  sp_name : string;
  sp_kind : span_kind;
  sp_attrs : list (string * attr_value);    (* a later value of a key counts *)
  sp_parent : option spanctx;
  sp_errors : list string;                  (* recorded errors *)
  sp_status : option string;                (* the description of an error status *)
}.

(** A context is the span it carries; [own] is the context of the new span. *)
Definition start_enqueue_span (ctx : option spanctx) (own : spanctx) (job : Job) : Job * span :=
  (startEnqueueSpan (inject own) job,
   mkSpan ("enqueue " +:+ Task job) SpanKindProducer
     [("messaging.system", AString "redis"); ("dtq.task", AString (Task job)); ("dtq.job_id", AString (ID job))]
     ctx [] None).

Definition startProcessSpan (ctx : option spanctx) (job : Job) (workerID : string) : span :=
  let parent := match extract (carrier_Get job) with Some sc => Some sc | None => ctx end in
  mkSpan ("process " +:+ Task job) SpanKindConsumer
    [("messaging.system", AString "redis"); ("dtq.task", AString (Task job)); ("dtq.job_id", AString (ID job));
     ("dtq.attempt", AInt (Attempt job)); ("dtq.delivery", AInt (Token (JLease job))); ("dtq.worker", AString workerID)]
    parent [] None.

Definition setOutcome (outcome : string) (err : option error) (s : span) : span :=
  let attrs := sp_attrs s ++ [("dtq.outcome", AString outcome)] in
  match err with
  | None => mkSpan (sp_name s) (sp_kind s) attrs (sp_parent s) (sp_errors s) (sp_status s)
  | Some e => mkSpan (sp_name s) (sp_kind s) attrs (sp_parent s) (sp_errors s ++ [error_string e]) (Some (error_string e))
  end.

(** The calls of [setOutcome] among the events of a run, in order. *)
Definition observe (s : span) (e : event) : span :=
  match e with Outcome name err => setOutcome name err s | _ => s end.

Definition span_attr (key : string) (s : span) : option attr_value :=
  snd <$> last (filter (fun kv => kv.1 = key) (sp_attrs s)).

(** ** One trace per job *)

Context {L : PropagatorLaws P}.

Lemma carrier_last sets t job : (traceparentKey, t) ∈ sets -> (forall v, (traceparentKey, v) ∈ sets -> v = t) ->
  TraceParent (startEnqueueSpan sets job) = t.
Proof.
  unfold startEnqueueSpan. intros Hin Hall.
  assert (forall l (j : Job), TraceParent j = t -> (forall v, (traceparentKey, v) ∈ l -> v = t) ->
    TraceParent (foldl carrier_Set j l) = t) as Hkeep.
  { induction l as [|[k v] l IH]; intros j Hj Hl; [done|]. cbn. apply IH; [|set_solver].
    unfold carrier_Set. cbn. case_bool_decide as Hk; [|done]. subst k. destruct j. cbn. apply Hl. set_solver. }
  revert job. induction sets as [|[k v] sets IH]; intros job; [by apply not_elem_of_nil in Hin|]. cbn.
  apply elem_of_cons in Hin as [[= <- <-]|Hin].
  - apply Hkeep; [by destruct job | set_solver].
  - apply IH; [done | set_solver].
Qed.

(** One trace shows a job's enqueue and all its runs: a run of a job with the trace
    parent the enqueue stored on it starts a span whose parent is the enqueue's span,
    whatever its attempt and whoever runs it. *)
Theorem trace_linked ctx own job run ctx' workerID :
  TraceParent run = TraceParent (start_enqueue_span ctx own job).1 ->
  identity <$> sp_parent (startProcessSpan ctx' run workerID) = Some (identity own).
Proof.
  intros Ht. cbn [sp_parent startProcessSpan]. cbn [start_enqueue_span fst] in Ht.
  rewrite (carrier_last _ (traceparent own)) in Ht by (apply inject_traceparent || apply inject_only).
  pose proof (extract_traceparent own (carrier_Get run)) as He. unfold carrier_Get at 1 in He.
  rewrite bool_decide_true in He by done. specialize (He Ht).
  by destruct (extract (carrier_Get run)).
Qed.
End spans.

(** ** Every run has one outcome *)

Section outcomes.
Context {P : Propagator} {W : Type} {B : Backend W} {E : WorkerEnv W} (cfg : WorkerConfig).
Context (handlers : gmap string (HandlerFunc W)).

Definition outcomes (evs : list event) : list (string * option error) :=
  omap (fun e => match e with Outcome n err => Some (n, err) | _ => None end) evs.

Definition settled_names : list string := ["completed"; "retried"; "dead_lettered"].
Definition failed_names : list string := ["settle_failed"; "abandoned"; "skipped"].

(** One outcome that fits the error returned. *)
Definition one_outcome (evs : list event) (err : option error) : Prop :=
  exists name oerr, outcomes evs = [(name, oerr)] /\
    match err with None => name ∈ settled_names | Some e => name ∈ failed_names /\ oerr = Some e end.

Lemma deadLetter_outcome job reason w : one_outcome (deadLetter job reason w).2.1 (deadLetter job reason w).2.2.
Proof.
  unfold deadLetter. destruct (be_DeadLetter job reason w) as [w' [e|]]; cbn; do 2 eexists; (split; [done|]); set_solver.
Qed.

Lemma one_outcome_app evs evs' err : outcomes evs = [] -> one_outcome evs' err -> one_outcome (evs ++ evs') err.
Proof. intros H (n & o & H' & Hn). exists n, o. unfold outcomes in *. by rewrite omap_app, H, H'. Qed.

Lemma handleOne_outcome job w :
  one_outcome (handleOne cfg handlers job w).2.1 (handleOne cfg handlers job w).2.2.
Proof.
  unfold handleOne. case_match; [apply deadLetter_outcome|].
  destruct (handlers !! Task job) as [h|]; [|case_match; [apply deadLetter_outcome|]].
  2:{ do 2 eexists; (split; [done|]); set_solver. }
  destruct (h job w) as [w1 res]. destruct (job_cause job w1); [do 2 eexists; (split; [done|]); set_solver|].
  destruct (ResErr res) as [failure|].
  - destruct (_ || _).
    + pose proof (deadLetter_outcome job (error_string failure) w1) as Hd.
      destruct (deadLetter job (error_string failure) w1) as [w2 [evs2 err]]. by apply one_outcome_app.
    + destruct (be_Retry _ _ _) as [w2 [e|]]; do 2 eexists; (split; [done|]); set_solver.
  - destruct (ack job w1) as [w2 [e|]]; do 2 eexists; (split; [done|]); set_solver.
Qed.

Lemma observe_all (s : span) evs : foldl observe s evs = foldl (fun s o => setOutcome o.1 o.2 s) s (outcomes evs).
Proof. revert s. induction evs as [|e evs IH]; intros s; [done|]. cbn. destruct e; cbn; apply IH. Qed.

(** The span of a run gets exactly one outcome: completed, retried or dead_lettered when
    the run settled its job, settle_failed, abandoned or skipped with the run's error when
    it did not; the span has an error status exactly when the outcome has an error. *)
Theorem run_outcome job w workerID ctx :
  let r := handleOne cfg handlers job w in
  let s := foldl observe (startProcessSpan ctx job workerID) r.2.1 in
  exists name oerr, span_attr "dtq.outcome" s = Some (AString name) /\ sp_status s = error_string <$> oerr /\
    sp_errors s = match oerr with Some e => [error_string e] | None => [] end /\
    match r.2.2 with None => name ∈ settled_names | Some e => name ∈ failed_names /\ oerr = Some e end.
Proof.
  intros r s. destruct (handleOne_outcome job w) as (name & oerr & Ho & Hm). exists name, oerr.
  assert (s = setOutcome name oerr (startProcessSpan ctx job workerID)) as -> by (unfold s; rewrite observe_all; unfold r; by rewrite Ho).
  destruct oerr; split_and!; done.
Qed.
End outcomes.

(** ** Installing tracing *)

(** What the process has installed: the W3C propagator, and the service name of the span
    exporter's provider if there is one. *)
Record otel := mkOtel { ot_propagates : bool; ot_provider : option string }.

Inductive shutdown := ShutdownNothing | ShutdownProvider.

(** [exporter] and [merged] are the errors of making the exporter and the resource. *)
Definition Setup (getenv : string -> string) (exporter merged : option error) (service : string) (st : otel) :
    otel * result error shutdown :=
  let st := mkOtel true (ot_provider st) in
  if bool_decide (getenv "OTEL_EXPORTER_OTLP_ENDPOINT" = "") && bool_decide (getenv "OTEL_EXPORTER_OTLP_TRACES_ENDPOINT" = "")
  then (st, Ok ShutdownNothing)
  else match exporter with
  | Some e => (st, Err e)
  | None => match merged with Some e => (st, Err e) | None => (mkOtel true (Some service), Ok ShutdownProvider) end
  end.

(** Trace contexts are always passed on; spans are exported only if an endpoint is set and
    nothing failed, and then there is a provider to flush. *)
Lemma Setup_exports getenv exporter merged service :
  let '(st, r) := Setup getenv exporter merged service (mkOtel false None) in
  ot_propagates st = true /\
  (ot_provider st = Some service <-> r = Ok ShutdownProvider) /\
  (getenv "OTEL_EXPORTER_OTLP_ENDPOINT" = "" -> getenv "OTEL_EXPORTER_OTLP_TRACES_ENDPOINT" = "" ->
    ot_provider st = None /\ r = Ok ShutdownNothing).
Proof.
  unfold Setup. case_bool_decide as H1; [case_bool_decide as H2|]; cbn [andb]; [done | |];
    destruct exporter, merged; cbn; split_and!; done.
Qed.

(** ** Example: a propagator with one text per span *)

Definition text_propagator : Propagator := {|
  spanctx := string;
  identity sc := (sc, sc);
  traceparent sc := "00-" +:+ sc;
  inject sc := [(traceparentKey, "00-" +:+ sc)];
  extract get := strip "00-" (get traceparentKey);
|}.

Lemma text_propagator_laws : PropagatorLaws text_propagator.
Proof.
  split; cbn.
  - set_solver.
  - intros sc v Hv. set_solver.
  - intros sc get ->. done.
Qed.

Definition trace_job : Job := mkJob "j1" "send_email" "{}" 0 3 "" 0 0 "" zeroLease.

Lemma trace_linked_witness :
  (fun sc => (sc, sc)) <$> sp_parent (P := text_propagator) (startProcessSpan None
    (set_Attempt (startEnqueueSpan [(traceparentKey, "00-span7")] trace_job) 2) "w1") = Some ("span7", "span7").
Proof.
  apply (trace_linked (P := text_propagator) (L := text_propagator_laws) None "span7" trace_job
           (set_Attempt (startEnqueueSpan [(traceparentKey, "00-span7")] trace_job) 2) None "w1").
  reflexivity.
Defined.
