(* ===== verification/PromMetrics.v ===== *)
(** * The Prometheus metrics ([prommetrics/metrics.go])

    The implementation of [queue.Metrics]. The Prometheus client is not modelled:
    a callback is a function on the state [Metrics] keeps between callbacks that
    also gives the calls it makes on the collectors, in order. Times are passed in
    where the source reads the clock. *)

From S2P Require Import Prelude GoNum GoTime Errors Job Retry Store Backend Worker.
From stdpp Require Import gmap strings.

Open Scope Z_scope.

(** ** The collectors *)

Inductive collector :=
  | enqueued | started | completed | failed | retried | deadLettered | leaseLost
  | duration | pickup | endToEnd
  | streamLength | inFlight | deadLetterDepth | retryScheduled.

#[export] Instance collector_eq_dec : EqDecision collector.
Proof. solve_decision. Defined.

Definition taskLabel : string := "task".

(** What a collector is created as: [NewCounterVec], [NewHistogramVec], [NewGauge]. *)
Inductive vkind := Counter | Histogram | Gauge.

(** The collectors in the order [New] creates them, with their kinds, names and labels. *)
Definition collectors : list (collector * (vkind * string * list string)) :=
  [(enqueued, (Counter, "dtq_jobs_enqueued_total", [taskLabel]));
   (started, (Counter, "dtq_jobs_started_total", [taskLabel]));
   (completed, (Counter, "dtq_jobs_completed_total", [taskLabel]));
   (failed, (Counter, "dtq_jobs_failed_total", [taskLabel; "retryable"]));
   (retried, (Counter, "dtq_jobs_retried_total", [taskLabel]));
   (deadLettered, (Counter, "dtq_jobs_dead_lettered_total", [taskLabel]));
   (leaseLost, (Counter, "dtq_job_leases_lost_total", [taskLabel]));
   (duration, (Histogram, "dtq_job_duration_seconds", [taskLabel]));
   (pickup, (Histogram, "dtq_job_pickup_seconds", [taskLabel]));
   (endToEnd, (Histogram, "dtq_job_end_to_end_seconds", [taskLabel]));
   (streamLength, (Gauge, "dtq_stream_length", []));
   (inFlight, (Gauge, "dtq_in_flight_jobs", []));
   (deadLetterDepth, (Gauge, "dtq_dead_letter_depth", []));
   (retryScheduled, (Gauge, "dtq_retry_scheduled", []))].

Definition names : list string := (fun c => c.2.1.2) <$> collectors.

(** Calls on the collectors. A histogram observes a duration in seconds, kept
    here in nanoseconds. *)
Inductive prom_call :=
  | Touch (v : collector) (labels : list string)             (* WithLabelValues *)
  | Inc (v : collector) (labels : list string)
  | Observe (v : collector) (labels : list string) (d : Z)
  | SetTo (v : collector) (x : Z).

(** ** State *)

(** [startKey]: the job and the stream entry it was delivered as. *)
Abbreviation startKey := (string * eid)%type.
Definition keyOf (job : Job) : startKey := (ID job, MessageID (JLease job)).

Record Metrics := mkMetrics {
  m_startTimes : gmap startKey Z;
  m_staleAfter : Z;
  m_sweepEvery : Z;
  m_lastSweep : Z;
  m_initialized : gset string;
}.

(** [MustRegister] panics on a name that is taken. *)
Fixpoint register_all (cs : list string) (reg : gset string) : option (gset string) :=
  match cs with
  | [] => Some reg
  | c :: cs' => if decide (c ∈ reg) then None else register_all cs' ({[c]} ∪ reg)
  end.

Definition New (reg : gset string) (now : Z) : option (gset string * Metrics) :=
  match register_all names reg with
  | Some reg' => Some (reg', mkMetrics ∅ hour minute now ∅)
  | None => None
  end.

(** ** Callbacks *)

Definition set_starts (m : Metrics) (st : gmap startKey Z) : Metrics :=
  mkMetrics st (m_staleAfter m) (m_sweepEvery m) (m_lastSweep m) (m_initialized m).

Definition prom_JobEnqueued (job : Job) (m : Metrics) : Metrics * list prom_call :=
  (m, [Inc enqueued [Task job]]).

Definition initTask (task : string) (m : Metrics) : Metrics * list prom_call :=
  if decide (task ∈ m_initialized m) then (m, []) else
  (mkMetrics (m_startTimes m) (m_staleAfter m) (m_sweepEvery m) (m_lastSweep m)
     ({[task]} ∪ m_initialized m),
   [Touch completed [task]; Touch failed [task; "true"]; Touch failed [task; "false"];
    Touch retried [task]; Touch deadLettered [task]; Touch leaseLost [task]]).

(** Callbacks run one at a time here, so the compare-and-swap succeeds. *)
Definition sweepStale (now : Z) (m : Metrics) : Metrics :=
  if wrap64 (now - m_lastSweep m) <? m_sweepEvery m then m else
  mkMetrics (filter (fun kv => time_Sub now kv.2 <= m_staleAfter m) (m_startTimes m))
    (m_staleAfter m) (m_sweepEvery m) now (m_initialized m).

(** [now] is read for the start time, [now2] for the pickup time. *)
Definition prom_JobStarted (job : Job) (now now2 : Z) (m : Metrics) : Metrics * list prom_call :=
  let '(m, calls) := initTask (Task job) m in
  let m := set_starts m (<[keyOf job := now]> (m_startTimes m)) in
  let m := sweepStale now m in
  (m, calls ++
      (if (Attempt job =? 0) && (Token (JLease job) =? 1)
       then [Observe pickup [Task job] (time_Sub now2 (AvailableAt job))] else []) ++
      [Inc started [Task job]]).

(** [LoadAndDelete] of the start time, and the observation of the duration. *)
Definition take_start (job : Job) (now : Z) (m : Metrics) : Metrics * list prom_call :=
  match m_startTimes m !! keyOf job with
  | Some start =>
      (set_starts m (delete (keyOf job) (m_startTimes m)),
       [Observe duration [Task job] (time_Sub now start)])
  | None => (m, [])
  end.

Definition prom_JobCompleted (job : Job) (now now2 : Z) (m : Metrics) : Metrics * list prom_call :=
  let '(m, calls) := take_start job now m in
  (m, calls ++ [Inc completed [Task job];
                Observe endToEnd [Task job] (time_Sub now2 (CreatedAt job))]).

Definition prom_JobFailed (job : Job) (retryable : bool) (m : Metrics) : Metrics * list prom_call :=
  (m, [Inc failed [Task job; if retryable then "true" else "false"]]).

Definition prom_JobRetried (job : Job) (now : Z) (m : Metrics) : Metrics * list prom_call :=
  let '(m, calls) := take_start job now m in (m, calls ++ [Inc retried [Task job]]).

Definition prom_JobDeadLettered (job : Job) (now : Z) (m : Metrics) : Metrics * list prom_call :=
  let '(m, calls) := take_start job now m in (m, calls ++ [Inc deadLettered [Task job]]).

Definition prom_JobLeaseLost (job : Job) (m : Metrics) : Metrics * list prom_call :=
  (set_starts m (delete (keyOf job) (m_startTimes m)), [Inc leaseLost [Task job]]).

(** The gauges' [float64] conversion is exact for lengths below 2^53. *)
Definition prom_StatsObserved (st : Stats) (m : Metrics) : Metrics * list prom_call :=
  (m, [SetTo streamLength (StreamLength st); SetTo inFlight (InFlight st);
       SetTo deadLetterDepth (DeadLetterDepth st); SetTo retryScheduled (RetryScheduled st)]).

(** The callback an event of the worker or the producer stands for; span
    outcomes go to the tracer, not to [Metrics]. *)
Definition observe (e : event) (now now2 : Z) (m : Metrics) : Metrics * list prom_call :=
  match e with
  | JobEnqueued job => prom_JobEnqueued job m
  | JobStarted job => prom_JobStarted job now now2 m
  | JobCompleted job => prom_JobCompleted job now now2 m
  | JobFailed job r => prom_JobFailed job r m
  | JobRetried job => prom_JobRetried job now m
  | JobDeadLettered job => prom_JobDeadLettered job now m
  | JobLeaseLost job => prom_JobLeaseLost job m
  | StatsObserved st => prom_StatsObserved st m
  | Outcome _ _ => (m, [])
  end.

(** A sequence of callbacks, each with the two clock readings it may take. *)
Definition timed : Type := event * (Z * Z).

Fixpoint observe_all (es : list timed) (m : Metrics) : Metrics * list prom_call :=
  match es with
  | [] => (m, [])
  | (e, (now, now2)) :: es' =>
      let '(m1, c1) := observe e now now2 m in
      let '(m2, c2) := observe_all es' m1 in
      (m2, c1 ++ c2)
  end.
