(* ===== verification/PromProps.v ===== *)
(** * What the metrics measure

    Every callback uses its collectors as they were registered; the start-time
    map pairs each end of a run with its start; what runs without an end leave
    behind is swept; a run of the worker that settles its job leaves nothing. *)

From S2P Require Import Prelude GoNum GoTime Errors Job Redis RefRedis QueueSpec Retry Store Demo Backend.
From S2P Require Import Demo StoreBackend Worker WorkerStore PromMetrics.
From stdpp Require Import gmap strings.

Open Scope Z_scope.

(** ** Collectors *)

(** How [v] was created. *)
Definition created_as (v : collector) : option (vkind * string * list string) :=
  snd <$> head (filter (fun c => c.1 = v) collectors).

Definition vkind_of (v : collector) : option vkind := (fun c => c.1.1) <$> created_as v.

(** The labels [v] was registered with. *)
Definition labels_of (v : collector) : list string := default [] (snd <$> created_as v).

(** The call fits the collector: [WithLabelValues] panics on a wrong number of
    values. *)
Definition well_typed (c : prom_call) : Prop :=
  match c with
  | Touch v ls => vkind_of v <> Some Gauge /\ length ls = length (labels_of v)
  | Inc v ls => vkind_of v = Some Counter /\ length ls = length (labels_of v)
  | Observe v ls _ => vkind_of v = Some Histogram /\ length ls = length (labels_of v)
  | SetTo v _ => vkind_of v = Some Gauge
  end.

Lemma observe_all_cons e now now2 es m :
  observe_all ((e, (now, now2)) :: es) m =
  ((observe_all es (observe e now now2 m).1).1,
   (observe e now now2 m).2 ++ (observe_all es (observe e now now2 m).1).2).
Proof.
  cbn [observe_all]. destruct (observe e now now2 m) as [m1 c1]. simpl.
  by destruct (observe_all es m1).
Qed.

(** Unfolds a callback. *)
Ltac unfold_callback :=
  cbn [observe]; unfold prom_JobEnqueued, prom_JobStarted, prom_JobCompleted, prom_JobFailed,
    prom_JobRetried, prom_JobDeadLettered, prom_JobLeaseLost, prom_StatsObserved, take_start, initTask.

Lemma observe_typed e now now2 m : Forall well_typed (observe e now now2 m).2.
Proof.
  destruct e; unfold_callback; repeat case_match; simplify_eq/=; rewrite ?Forall_app; repeat constructor;
    done.
Qed.

Lemma register_all_disjoint cs : forall reg, NoDup cs -> (forall c, c ∈ cs -> c ∉ reg) ->
  register_all cs reg = Some (list_to_set cs ∪ reg).
Proof.
  induction cs as [|c cs IH]; intros reg Hnd Hdis; cbn [register_all]; [f_equal; set_solver|].
  apply NoDup_cons in Hnd as [Hnin Hnd]. rewrite decide_False by (apply Hdis; by left).
  rewrite IH; [f_equal; set_solver | done | set_solver].
Qed.

Lemma register_all_taken cs : forall reg c, c ∈ cs -> c ∈ reg -> register_all cs reg = None.
Proof.
  induction cs as [|d cs IH]; intros reg c Hc Hr; [set_solver|]. cbn [register_all].
  destruct (decide (d ∈ reg)); [done|]. apply (IH _ c); set_solver.
Qed.

(** C36: the callbacks never misuse a collector: whatever the worker and the
    producer report, every call is made on a collector of the right kind, with as
    many label values as it was registered with (anything else panics). *)
Theorem callbacks_well_typed es m : Forall well_typed (observe_all es m).2.
Proof.
  revert m. induction es as [|[e [now now2]] es IH]; intros m; [constructor|].
  rewrite observe_all_cons. apply Forall_app. split; [apply observe_typed | apply IH].
Qed.

(** [New] registers fourteen distinct names; a second one on the same registry
    panics. *)
Theorem New_once reg now :
  (forall c, c ∈ names -> c ∉ reg) ->
  exists reg' m, New reg now = Some (reg', m) /\ reg' = list_to_set names ∪ reg /\
    forall now', New reg' now' = None.
Proof.
  intros Hdis. unfold New. assert (NoDup names) as Hnd by (apply (bool_decide_unpack (NoDup names)); vm_compute; exact I).
  rewrite register_all_disjoint by done. eexists _, _. split_and!; [reflexivity | done|].
  intros now'. rewrite (register_all_taken _ _ "dtq_jobs_enqueued_total"); [done | by left|].
  apply elem_of_union. left. apply elem_of_list_to_set. by left.
Qed.

(** ** Start times *)

(** The start of the run of [k] that is under way after [es], in the order the
    callbacks came. *)
Definition opens_run (k : startKey) (e : event) (now : Z) (cur : option Z) : option Z :=
  match e with
  | JobStarted job => if decide (keyOf job = k) then Some now else cur
  | JobCompleted job | JobRetried job | JobDeadLettered job | JobLeaseLost job =>
      if decide (keyOf job = k) then None else cur
  | _ => cur
  end.

Definition under_way (k : startKey) (es : list timed) (cur : option Z) : option Z :=
  foldl (fun cur x => opens_run k x.1 x.2.1 cur) cur es.

(** What a sweep at [now] drops. *)
Definition swept (now : Z) (m : Metrics) (t : Z) : Prop :=
  m_staleAfter m < time_Sub now t.

Lemma sweepStale_lookup now m k :
  m_startTimes (sweepStale now m) !! k = m_startTimes m !! k \/
  (m_startTimes (sweepStale now m) !! k = None /\
   exists t, m_startTimes m !! k = Some t /\ swept now m t).
Proof.
  unfold sweepStale. destruct (_ <? _); [by left|]. cbn [m_startTimes]. rewrite map_lookup_filter.
  destruct (m_startTimes m !! k) as [t|]; [|by left]. simpl.
  destruct (decide (time_Sub now t <= m_staleAfter m)).
  - left. by rewrite option_guard_True.
  - right. rewrite option_guard_False by done. split; [done|]. exists t. unfold swept. split; [done | lia].
Qed.

Lemma take_start_lookup job now m k :
  m_startTimes (take_start job now m).1 !! k =
  (if decide (keyOf job = k) then None else m_startTimes m !! k).
Proof.
  unfold take_start. destruct (m_startTimes m !! keyOf job) eqn:E; simpl.
  - case_decide; subst; [by rewrite lookup_delete_eq | by rewrite lookup_delete_ne].
  - by case_decide; subst.
Qed.

Lemma initTask_state task m :
  m_startTimes (initTask task m).1 = m_startTimes m /\ m_staleAfter (initTask task m).1 = m_staleAfter m /\
  m_sweepEvery (initTask task m).1 = m_sweepEvery m /\ m_lastSweep (initTask task m).1 = m_lastSweep m.
Proof. unfold initTask. by case_decide. Qed.

Lemma started_lookup job now m m0 k :
  m_startTimes m0 = m_startTimes m -> m_staleAfter m0 = m_staleAfter m ->
  let m' := sweepStale now (set_starts m0 (<[keyOf job := now]> (m_startTimes m0))) in
  let want := opens_run k (JobStarted job) now (m_startTimes m !! k) in
  m_startTimes m' !! k = want \/ (m_startTimes m' !! k = None /\ exists t, want = Some t /\ swept now m t).
Proof.
  intros E1 E2. cbn zeta. rewrite E1. set (want := opens_run _ _ _ _).
  assert (<[keyOf job := now]> (m_startTimes m) !! k = want) as Hk.
  { unfold want. cbn [opens_run]. case_decide; [subst; apply lookup_insert_eq | by apply lookup_insert_ne]. }
  destruct (sweepStale_lookup now (set_starts m0 (<[keyOf job := now]> (m_startTimes m))) k)
    as [H|[H (t & Ht & Hsw)]]; cbn [set_starts m_startTimes] in *.
  - left. by rewrite H.
  - right. split; [done|]. exists t. unfold swept in *. cbn [set_starts m_staleAfter] in Hsw.
    split; [congruence | by rewrite <- E2].
Qed.

(** One callback does to the entry of [k] what [opens_run] says, or sweeps it. *)
Lemma observe_lookup e now now2 m k :
  let m' := (observe e now now2 m).1 in
  let want := opens_run k e now (m_startTimes m !! k) in
  m_startTimes m' !! k = want \/
  (m_startTimes m' !! k = None /\ exists job t, e = JobStarted job /\ want = Some t /\ swept now m t).
Proof.
  destruct e as [job|job|job|job r|job|job|job|st|n err]; cbn zeta; try (by left).
  - unfold_callback. pose proof (initTask_state (Task job) m) as (E1 & E2 & _).
    unfold initTask in E1, E2. destruct (decide (Task job ∈ m_initialized m)); cbn [fst] in *;
      destruct (started_lookup job now m _ k E1 E2) as [H|[H (t & Ht & Hsw)]]; eauto 10.
  - left. unfold_callback. cbn [opens_run]. rewrite <- (take_start_lookup job now m k). unfold take_start.
    by destruct (m_startTimes m !! keyOf job).
  - left. unfold_callback. cbn [opens_run]. rewrite <- (take_start_lookup job now m k). unfold take_start.
    by destruct (m_startTimes m !! keyOf job).
  - left. unfold_callback. cbn [opens_run]. rewrite <- (take_start_lookup job now m k). unfold take_start.
    by destruct (m_startTimes m !! keyOf job).
  - left. cbn. case_decide as Hk; [subst; by rewrite lookup_delete_eq | by rewrite lookup_delete_ne].
Qed.

Lemma observe_params e now now2 m :
  m_staleAfter (observe e now now2 m).1 = m_staleAfter m /\
  m_sweepEvery (observe e now now2 m).1 = m_sweepEvery m.
Proof.
  destruct e; unfold_callback; unfold sweepStale; repeat case_match; simplify_eq/=; done.
Qed.

(** A start time is missing although its run is under way only if some run
    started more than [staleAfter] later. *)
Definition outlived (stale : Z) (es : list timed) (t : Z) : Prop :=
  exists job now now2, (JobStarted job, (now, now2)) ∈ es /\ stale < time_Sub now t.

Definition agrees (stale : Z) (all : list timed) (have cur : option Z) : Prop :=
  have = cur \/ (have = None /\ exists t, cur = Some t /\ outlived stale all t).

Lemma agrees_step stale all e now now2 m k cur :
  m_staleAfter m = stale -> (e, (now, now2)) ∈ all -> agrees stale all (m_startTimes m !! k) cur ->
  agrees stale all (m_startTimes (observe e now now2 m).1 !! k) (opens_run k e now cur).
Proof.
  intros Hst Hin Hag.
  assert (opens_run k e now (m_startTimes m !! k) = opens_run k e now cur \/
    (opens_run k e now (m_startTimes m !! k) = m_startTimes m !! k /\ opens_run k e now cur = cur)) as Hrun.
  { destruct e; simpl; try (right; done); (case_decide; [by left | by right]). }
  destruct (observe_lookup e now now2 m k) as [->|[-> (job & t & -> & Hw & Hsw)]].
  - destruct Hrun as [->|[-> ->]]; [by left | done].
  - assert (outlived stale all t) as Hout by (exists job, now, now2; subst stale; done).
    destruct Hrun as [H|[H1 H2]].
    + right. split; [done|]. exists t. by rewrite <- H.
    + rewrite H2. rewrite H1 in Hw. rewrite Hw in Hag. destruct Hag as [<-|[? _]]; [|done].
      right. split; [done|]. eauto.
Qed.

Lemma start_times_agree stale all es : forall m k cur,
  (forall x, x ∈ es -> x ∈ all) -> m_staleAfter m = stale ->
  agrees stale all (m_startTimes m !! k) cur ->
  agrees stale all (m_startTimes (observe_all es m).1 !! k) (under_way k es cur).
Proof.
  induction es as [|[e [now now2]] es IH]; intros m k cur Hin Hst Hag; [done|].
  rewrite observe_all_cons. cbn [under_way foldl fst]. apply IH.
  - intros x Hx. apply Hin. by right.
  - destruct (observe_params e now now2 m) as [-> _]. done.
  - apply (agrees_step _ _ _ now now2); [done | apply Hin; by left | done].
Qed.

Lemma under_way_started k es : forall cur t, under_way k es cur = Some t ->
  cur = Some t \/ exists job now2, (JobStarted job, (t, now2)) ∈ es /\ keyOf job = k.
Proof.
  induction es as [|[e [now now2]] es IH]; intros cur t H; [by left|].
  cbn [under_way foldl fst] in H. apply IH in H as [H|(job & n2 & Hin & Hk)].
  - destruct e; simpl in H; try (by left); case_decide; simplify_eq; try (by left).
    right. eexists _, now2. split; [by left | done].
  - right. exists job, n2. split; [by right | done].
Qed.

(** The start-time map is exact: after any sequence of callbacks, the entry
    of a delivery is the start of the run of it that is under way, in the order
    the callbacks came; it is missing for a run under way only if another run
    started more than [staleAfter] later, which sweeps it. *)
Theorem start_times_exact es m k :
  m_startTimes m = ∅ ->
  let have := m_startTimes (observe_all es m).1 !! k in
  have = under_way k es None \/
  (have = None /\ exists t, under_way k es None = Some t /\ outlived (m_staleAfter m) es t).
Proof. intros H0. apply start_times_agree; [done | done|]. left. by rewrite H0, lookup_empty. Qed.

(** ** Durations *)

Definition ends_run (e : event) : option Job :=
  match e with JobCompleted job | JobRetried job | JobDeadLettered job => Some job | _ => None end.

Definition is_duration (c : prom_call) : bool :=
  match c with Observe duration _ _ => true | _ => false end.

(** Reference: each end of a run that has a start observes the time since. *)
Fixpoint durations_spec (es : list timed) (cur : startKey -> option Z) : list prom_call :=
  match es with
  | [] => []
  | (e, (now, _)) :: es' =>
      match ends_run e with
      | Some job =>
          match cur (keyOf job) with
          | Some t => [Observe duration [Task job] (time_Sub now t)]
          | None => []
          end
      | None => []
      end ++ durations_spec es' (fun k => opens_run k e now (cur k))
  end.

(** No run is under way for longer than [stale] when another one starts. *)
Fixpoint quick (stale : Z) (es : list timed) (cur : startKey -> option Z) : Prop :=
  match es with
  | [] => True
  | (e, (now, _)) :: es' =>
      (forall job k t, e = JobStarted job -> opens_run k e now (cur k) = Some t -> time_Sub now t <= stale) /\
      quick stale es' (fun k => opens_run k e now (cur k))
  end.

Lemma filter_duration_none l :
  (forall c, c ∈ l -> is_duration c = false) -> filter (fun c => is_duration c = true) l = [].
Proof.
  intros H. apply elem_of_nil_inv. intros c [Hc Hin]%list_elem_of_filter. specialize (H c Hin). congruence.
Qed.

Lemma take_start_durations job now m rest :
  (forall c, c ∈ rest -> is_duration c = false) ->
  filter (fun c => is_duration c = true) ((take_start job now m).2 ++ rest) =
  match m_startTimes m !! keyOf job with
  | Some t => [Observe duration [Task job] (time_Sub now t)]
  | None => []
  end.
Proof.
  intros H. rewrite filter_app, (filter_duration_none rest), app_nil_r by done.
  unfold take_start. by destruct (m_startTimes m !! keyOf job).
Qed.

Lemma observe_durations e now now2 m :
  filter (fun c => is_duration c = true) (observe e now now2 m).2 =
  match ends_run e with
  | Some job => match m_startTimes m !! keyOf job with
                | Some t => [Observe duration [Task job] (time_Sub now t)]
                | None => []
                end
  | None => []
  end.
Proof.
  destruct e as [job|job|job|job r|job|job|job|st|n err]; cbn [ends_run];
    try (apply filter_duration_none; unfold_callback; repeat case_match; simplify_eq/=; set_solver);
    cbn [observe]; unfold prom_JobCompleted, prom_JobRetried, prom_JobDeadLettered.
  all: rewrite <- (take_start_durations job now m []) by set_solver; rewrite app_nil_r;
    destruct (take_start job now m) as [m' calls]; cbn [snd];
    rewrite filter_app, (filter_duration_none [_]) || rewrite filter_app, (filter_duration_none [_; _]);
    [by rewrite app_nil_r | set_solver].
Qed.

(** Measured durations are right: as long as no run lasts longer than
    [staleAfter], the durations observed are exactly, in order, the times between
    the end of each run (completed, retried or dead-lettered) and the start of
    the same delivery. *)
Theorem durations_exact es m :
  m_startTimes m = ∅ -> quick (m_staleAfter m) es (fun _ => None) ->
  filter (fun c => is_duration c = true) (observe_all es m).2 = durations_spec es (fun _ => None).
Proof.
  intros H0. assert (forall k, m_startTimes m !! k = (fun _ => None) k) as Hcur.
  { intros k. by rewrite H0, lookup_empty. }
  clear H0. revert m Hcur. generalize (fun _ : startKey => @None Z) as cur.
  induction es as [|[e [now now2]] es IH]; intros cur m Hcur Hq; [done|].
  destruct Hq as [Hq1 Hq]. rewrite observe_all_cons. cbn [snd durations_spec].
  rewrite filter_app, observe_durations. f_equal.
  { destruct (ends_run e); [|done]. by rewrite Hcur. }
  apply IH.
  - intros k. cbn beta. rewrite <- Hcur.
    destruct (observe_lookup e now now2 m k) as [->|[-> (job & t & -> & Hw & Hsw)]]; [done|].
    exfalso. rewrite Hcur in Hw. specialize (Hq1 job k t eq_refl Hw). unfold swept in Hsw. lia.
  - destruct (observe_params e now now2 m) as [-> _]. done.
Qed.

(** ** What is left behind *)

(** The callbacks come in the order of the clock, from [t0] on, within the range
    of [UnixNano]. *)
Fixpoint clocked (t0 : Z) (es : list timed) : Prop :=
  match es with
  | [] => True
  | (_, (now, _)) :: es' => t0 <= now <= max_int64 /\ clocked now es'
  end.

(** No entry is older than [staleAfter] at the last sweep, and the sweep is not
    in the future. *)
Definition sweep_ok (t0 : Z) (m : Metrics) : Prop :=
  0 <= m_lastSweep m <= t0 /\ 0 <= m_staleAfter m /\ 0 < m_sweepEvery m /\
  forall k t, m_startTimes m !! k = Some t -> m_lastSweep m - m_staleAfter m <= t.

Lemma time_Sub_exact now t : 0 <= now <= max_int64 -> - max_int64 <= t <= now -> time_Sub now t = Z.min max_int64 (now - t).
Proof. unfold time_Sub, min_int64, max_int64. lia. Qed.

Lemma sweepStale_ok t0 now m :
  t0 <= now <= max_int64 -> sweep_ok t0 m -> m_staleAfter m < max_int64 ->
  (forall k t, m_startTimes m !! k = Some t -> t <= now) ->
  sweep_ok now (sweepStale now m) /\
  forall k t, m_startTimes (sweepStale now m) !! k = Some t -> now - m_staleAfter m - m_sweepEvery m < t.
Proof.
  intros Hnow (Hls & Hst & Hsw & Hold) Hbig Hpast. unfold sweepStale.
  rewrite wrap64_id by (unfold int64_ok, min_int64, max_int64 in *; lia).
  destruct (Z.ltb_spec (now - m_lastSweep m) (m_sweepEvery m)) as [Hlt|Hge].
  - split; [split_and!; [lia | lia | done | done | done]|]. intros k t Hk. specialize (Hold k t Hk). lia.
  - assert (forall k t, filter (fun kv => time_Sub now kv.2 <= m_staleAfter m) (m_startTimes m) !! k = Some t ->
      now - m_staleAfter m <= t) as Hnew.
    { intros k t [Hk Hle]%map_lookup_filter_Some. simpl in Hle. specialize (Hold k t Hk).
      unfold time_Sub, min_int64, max_int64 in *. lia. }
    split; [split_and!; simpl; [lia | lia | done | done | exact Hnew]|].
    cbn [m_startTimes]. intros k t Hk%Hnew. lia.
Qed.

Lemma started_sweep_ok t0 job now m m0 :
  m_startTimes m0 = m_startTimes m -> m_staleAfter m0 = m_staleAfter m ->
  m_sweepEvery m0 = m_sweepEvery m -> m_lastSweep m0 = m_lastSweep m ->
  t0 <= now <= max_int64 -> sweep_ok t0 m -> m_staleAfter m < max_int64 ->
  (forall k t, m_startTimes m !! k = Some t -> t <= t0) ->
  let m' := sweepStale now (set_starts m0 (<[keyOf job := now]> (m_startTimes m0))) in
  sweep_ok now m' /\
  forall k t, m_startTimes m' !! k = Some t -> now - m_staleAfter m - m_sweepEvery m < t.
Proof.
  intros E1 E2 E3 E4 Hnow (Hls & Hst & Hsw & Hold) Hbig Hpast.
  set (m1 := set_starts m0 (<[keyOf job := now]> (m_startTimes m0))).
  assert (forall k t, m_startTimes m1 !! k = Some t -> m_lastSweep m - m_staleAfter m <= t <= now) as Hm1.
  { unfold m1. cbn [set_starts m_startTimes]. rewrite E1.
    intros k t [[<- <-]|[_ Hk]]%lookup_insert_Some; [lia|].
    pose proof (Hold k t Hk). pose proof (Hpast k t Hk). lia. }
  destruct (sweepStale_ok t0 now m1) as [H1 H2]; [done | | | |].
  - unfold m1. split_and!; cbn [set_starts m_lastSweep m_staleAfter m_sweepEvery]; rewrite ?E2, ?E3, ?E4; try lia.
    intros k t Hk%Hm1. lia.
  - unfold m1. cbn. by rewrite E2.
  - intros k t Hk%Hm1. lia.
  - split; [exact H1|]. intros k t Hk%H2. unfold m1 in Hk. cbn [set_starts m_staleAfter m_sweepEvery] in Hk.
    by rewrite E2, E3 in Hk.
Qed.

Lemma observe_past t0 e now now2 m :
  t0 <= now -> (forall k t, m_startTimes m !! k = Some t -> t <= t0) ->
  forall k t, m_startTimes (observe e now now2 m).1 !! k = Some t -> t <= now.
Proof.
  intros Hnow Hpast k t Hk. destruct (observe_lookup e now now2 m k) as [E|[E _]]; rewrite E in Hk; [|done].
  destruct e; simpl in Hk; try (apply Hpast in Hk; lia); case_decide; simplify_eq; try lia;
    apply Hpast in Hk; lia.
Qed.

Lemma observe_sweep_ok t0 e now now2 m :
  t0 <= now <= max_int64 -> sweep_ok t0 m -> m_staleAfter m < max_int64 ->
  (forall k t, m_startTimes m !! k = Some t -> t <= t0) ->
  let m' := (observe e now now2 m).1 in
  sweep_ok now m' /\
  (forall job k t, e = JobStarted job -> m_startTimes m' !! k = Some t ->
     now - m_staleAfter m - m_sweepEvery m < t).
Proof.
  intros Hnow Hok Hbig Hpast m'.
  assert ((exists job, e = JobStarted job) \/ (forall job, e <> JobStarted job)) as [[job ->]|Hne].
  { destruct e; eauto. }
  - unfold m'. unfold_callback. pose proof (initTask_state (Task job) m) as (E1 & E2 & E3 & E4).
    unfold initTask in E1, E2, E3, E4. destruct (decide (Task job ∈ m_initialized m)); cbn [fst] in *;
      destruct (started_sweep_ok t0 job now m _ E1 E2 E3 E4 Hnow Hok Hbig Hpast) as [H1 H2];
      (split; [exact H1 | intros _ k t _; apply H2]).
  - split; [|intros job k t He; by destruct (Hne job)].
    destruct Hok as (Hls & Hst & Hsw & Hold).
    assert (m_lastSweep m' = m_lastSweep m) as El.
    { unfold m'. destruct e; try (by destruct (Hne job)); unfold_callback; repeat case_match; simplify_eq/=; done. }
    destruct (observe_params e now now2 m) as [Es Ew]. fold m' in Es, Ew.
    split_and!; rewrite ?El, ?Es, ?Ew; try lia. intros k t Hk.
    destruct (observe_lookup e now now2 m k) as [E|[E _]]; fold m' in E; rewrite E in Hk; [|done].
    destruct e; simpl in Hk; try (by apply Hold in Hk); try (by destruct (Hne job));
      case_decide; try done; by apply Hold in Hk.
Qed.

(** An entry that survives a callback was there before, or is its start. *)
Lemma observe_older e now now2 m k t :
  m_startTimes (observe e now now2 m).1 !! k = Some t -> m_startTimes m !! k = Some t \/ t = now.
Proof.
  intros Hk. destruct (observe_lookup e now now2 m k) as [E|[E _]]; rewrite E in Hk; [|done].
  destruct e; simpl in Hk; auto; case_decide; simplify_eq; auto.
Qed.

Lemma bounded_run es : forall t0 m,
  clocked t0 es -> sweep_ok t0 m -> m_staleAfter m < max_int64 ->
  (forall k t, m_startTimes m !! k = Some t -> t <= t0) ->
  forall T, (forall k t, m_startTimes m !! k = Some t -> T - m_staleAfter m - m_sweepEvery m < t) /\ T <= t0 \/
    (exists job T2, (JobStarted job, (T, T2)) ∈ es) ->
  forall k t, m_startTimes (observe_all es m).1 !! k = Some t -> T - m_staleAfter m - m_sweepEvery m < t.
Proof.
  induction es as [|[e [now now2]] es IH]; intros t0 m Hcl Hok Hbig Hpast T HT k t Hk.
  { destruct HT as [[H _]|(? & ? & ?%not_elem_of_nil)]; [by eapply H | done]. }
  destruct Hcl as [Hnow Hcl]. rewrite observe_all_cons in Hk. cbn [fst] in Hk.
  destruct (observe_sweep_ok t0 e now now2 m Hnow Hok Hbig Hpast) as [Hok' Hstart].
  destruct (observe_params e now now2 m) as [Es Ew]. rewrite <- Es, <- Ew.
  eapply (IH now); [done | done | by rewrite Es | | | exact Hk].
  - eapply observe_past; [|done]. lia.
  - rewrite Es, Ew. destruct HT as [[H HT]|(job & T2 & [[= <- <- <-]|Hin]%elem_of_cons)].
    + left. split; [|lia]. intros k' t' [Hk'| ->]%observe_older; [by eapply H|].
      destruct Hok as (_ & ? & ? & _). lia.
    + left. split; [|lia]. intros k' t' Hk'. by apply (Hstart job k').
    + right. eauto.
Qed.

(** Start times do not pile up: whatever runs never reach a terminal
    callback, after a start at time [T] the map only has entries of runs started
    in the last [staleAfter + sweepEvery] before [T], or after it: an hour and a
    minute with [New]'s settings. *)
Theorem starts_bounded reg t0 es job T T2 k t reg' m :
  New reg t0 = Some (reg', m) -> 0 <= t0 -> clocked t0 es -> (JobStarted job, (T, T2)) ∈ es ->
  m_startTimes (observe_all es m).1 !! k = Some t ->
  T - (hour + minute) < t /\ exists job' t2, (JobStarted job', (t, t2)) ∈ es /\ keyOf job' = k.
Proof.
  unfold New. destruct (register_all names reg); [|done]. intros [= _ <-] H0 Hcl Hin Hk.
  set (m := mkMetrics ∅ hour minute t0 ∅) in *. split.
  - assert (T - hour - minute < t); [|lia].
    assert (forall k' t', m_startTimes m !! k' = Some t' -> False) as Hnone.
    { intros k' t'. unfold m. cbn [m_startTimes]. by rewrite lookup_empty. }
    apply (bounded_run es t0 m Hcl) with (T := T) (k := k); [| reflexivity | | right; eauto | exact Hk].
    + split_and!; [simpl; lia | simpl; lia | done | done|]. intros k' t' Hk'. by destruct (Hnone k' t').
    + intros k' t' Hk'. by destruct (Hnone k' t').
  - destruct (start_times_agree (m_staleAfter m) es es m k None) as [E|[E _]]; try done.
    + left. apply lookup_empty.
    + rewrite E in Hk. by apply under_way_started in Hk as [?|?].
    + congruence.
Qed.

(** ** Runs of the worker *)

(** Whether a run of [k] is under way, from the events alone. *)
Definition is_open (o : option Z) : bool := match o with Some _ => true | None => false end.

Definition open_after (k : startKey) (evs : list event) (o : bool) : bool :=
  foldl (fun (o : bool) e => is_open (opens_run k e 0 (if o then Some 0 else None))) o evs.

Lemma open_after_under_way k es : forall cur,
  is_open (under_way k es cur) = open_after k (fst <$> es) (is_open cur).
Proof.
  induction es as [|[e [now now2]] es IH]; intros cur; [done|].
  cbn [under_way foldl fst fmap list_fmap open_after]. etrans; [apply IH|]. unfold open_after. f_equal.
  destruct e, cur; simpl; repeat case_decide; done.
Qed.

Lemma closed_after k es m :
  (forall o, open_after k (fst <$> es) o = false) -> m_startTimes (observe_all es m).1 !! k = None.
Proof.
  intros Hcl. destruct (start_times_agree (m_staleAfter m) es es m k (m_startTimes m !! k)) as [E|[E _]];
    [done | done | by left | | done].
  rewrite E. pose proof (open_after_under_way k es (m_startTimes m !! k)) as Ho.
  rewrite Hcl in Ho. by destruct (under_way _ _ _).
Qed.

Section worker.
Context {W : Type} {B : Backend W} {E : WorkerEnv W}.
Context (cfg : WorkerConfig) (handlers : gmap string (HandlerFunc W)).

Lemma process_events job w :
  let '(_, (evs, err)) := handleOne cfg handlers job w in
  match err with
  | None => forall o, open_after (keyOf job) evs o = false
  | Some _ => forall o, open_after (keyOf job) (evs ++ [JobLeaseLost job]) o = false
  end.
Proof.
  destruct (handleOne cfg handlers job w) as [w' [evs [e|]]] eqn:H.
  - intros o. unfold open_after. rewrite foldl_app. simpl. by rewrite decide_True.
  - intros o. revert H. unfold handleOne, deadLetter. repeat case_match; intros Heq; simplify_eq/=;
      unfold open_after; simpl; rewrite ?foldl_app; simpl; repeat (rewrite decide_True by done); done.
Qed.

(** A run that settles its job leaves no start time behind: whatever came
    before, after the callbacks of one run of [process] that completed, retried
    or dead-lettered its job, or found its lease lost, the map has no entry for
    that delivery. Only runs abandoned at shutdown or whose settling call failed
    leave one, for the sweep. *)
Theorem settled_run_clears job w es m :
  (fst <$> es) = (process cfg handlers job w).2 ->
  let err := (handleOne cfg handlers job w).2.2 in
  (forall e, err = Some e -> errors_Is e ErrLeaseLost = true) ->
  m_startTimes (observe_all es m).1 !! keyOf job = None.
Proof.
  intros Hes err Herr. apply closed_after. rewrite Hes. pose proof (process_events job w) as H.
  unfold process. unfold err in Herr. destruct (handleOne cfg handlers job w) as [w' [evs [e|]]]; simpl in *.
  - by rewrite (Herr e eq_refl).
  - exact H.
Qed.
End worker.

(** ** Two deliveries of one entry *)

(** The key does not tell a redelivery from the delivery it replaced: when
    a worker starts an entry again (recovered from itself, under a new token)
    while its first run is still going, the end of the first run reports the time
    since the second start, and the end of the second run reports nothing. *)
Theorem redelivery_shares_start j1 j2 m t1 t2 t3 t4 :
  ID j1 = ID j2 -> MessageID (JLease j1) = MessageID (JLease j2) ->
  m_startTimes m = ∅ -> 0 <= m_staleAfter m ->
  filter (fun c => is_duration c = true)
    (observe_all [(JobStarted j1, (t1, t1)); (JobStarted j2, (t2, t2));
                  (JobCompleted j1, (t3, t3)); (JobCompleted j2, (t4, t4))] m).2
  = [Observe duration [Task j1] (time_Sub t3 t2)].
Proof.
  intros Hid Hmsg H0 Hst. assert (keyOf j1 = keyOf j2) as Hk by (unfold keyOf; congruence).
  rewrite !observe_all_cons. cbn [snd observe_all]. rewrite !filter_app, !observe_durations. cbn [ends_run].
  set (m1 := (observe (JobStarted j1) t1 t1 m).1). set (m2 := (observe (JobStarted j2) t2 t2 m1).1).
  assert (m_startTimes m2 !! keyOf j1 = Some t2) as E2.
  { destruct (observe_lookup (JobStarted j2) t2 t2 m1 (keyOf j1)) as [E|[_ (? & t & _ & Hw & Hsw)]].
    - unfold m2. rewrite E. simpl. by rewrite decide_True.
    - exfalso. simpl in Hw. rewrite decide_True in Hw by done. injection Hw as <-.
      unfold swept in Hsw. destruct (observe_params (JobStarted j1) t1 t1 m) as [Es _]. fold m1 in Es.
      unfold time_Sub, min_int64, max_int64 in Hsw. lia. }
  set (m3 := (observe (JobCompleted j1) t3 t3 m2).1).
  assert (m_startTimes m3 !! keyOf j2 = None) as E3.
  { destruct (observe_lookup (JobCompleted j1) t3 t3 m2 (keyOf j2)) as [E|[E _]]; unfold m3; rewrite E; [|done].
    simpl. by rewrite decide_True. }
  by rewrite E2, E3.
Qed.

(** ** Witnesses *)

Definition demo_metrics : Metrics := mkMetrics ∅ hour minute demo_time ∅.

(** [demo_job] runs for three seconds and completes; a second job starts and is
    never heard of again. *)
Definition demo_events : list timed :=
  [(JobStarted demo_job, (demo_time, demo_time));
   (JobStarted demo_job2, (demo_time + second, demo_time + second));
   (JobCompleted demo_job, (demo_time + 3 * second, demo_time + 3 * second))].

Lemma start_times_exact_witness :
  m_startTimes (observe_all demo_events demo_metrics).1 !! keyOf demo_job2 = Some (demo_time + second) /\
  (let have := m_startTimes (observe_all demo_events demo_metrics).1 !! keyOf demo_job in
   have = under_way (keyOf demo_job) demo_events None \/
   (have = None /\ exists t, under_way (keyOf demo_job) demo_events None = Some t /\
      outlived hour demo_events t)).
Proof.
  split; [vm_compute; reflexivity|].
  apply (start_times_exact demo_events demo_metrics (keyOf demo_job)). reflexivity.
Defined.

Lemma durations_exact_witness :
  filter (fun c => is_duration c = true) (observe_all demo_events demo_metrics).2
  = durations_spec demo_events (fun _ => None) /\
  durations_spec demo_events (fun _ => None) = [Observe duration ["email"] (3 * second)].
Proof.
  split; [|vm_compute; reflexivity]. apply (durations_exact demo_events demo_metrics); [reflexivity|].
  repeat split; intros job k t Hj; simplify_eq; cbn [opens_run]; repeat case_decide;
    intros Ht; simplify_eq; vm_compute; congruence.
Defined.

Lemma starts_bounded_witness :
  demo_time + second - (hour + minute) < demo_time + second /\
  exists job' t2, (JobStarted job', (demo_time + second, t2)) ∈ demo_events /\ keyOf job' = keyOf demo_job2.
Proof.
  apply (starts_bounded ∅ demo_time demo_events demo_job2 (demo_time + second) (demo_time + second)
    (keyOf demo_job2) (demo_time + second) (default ∅ (register_all names ∅)) demo_metrics).
  - unfold New. rewrite (register_all_disjoint names ∅); [reflexivity | | set_solver].
    apply (bool_decide_unpack (NoDup names)). vm_compute. exact I.
  - vm_compute. congruence.
  - repeat split; vm_compute; congruence.
  - right. by left.
  - vm_compute. reflexivity.
Defined.

Lemma settled_run_clears_witness :
  m_startTimes (observe_all ((fun e => (e, (demo_time, demo_time))) <$>
    (process (B:=store_backend (R:=ref_redis)) demo_cfg demo_handlers demo_job demo_world).2) demo_metrics).1
    !! keyOf demo_job = None.
Proof.
  apply (settled_run_clears (B:=store_backend (R:=ref_redis)) demo_cfg demo_handlers demo_job demo_world).
  - rewrite <- list_fmap_compose. apply list_fmap_id.
  - intros e. vm_compute. intros [=].
Defined.

Definition demo_again : Job := set_Lease demo_job (mkLease (5%N, 0%N) "w1" 2 0).

Lemma redelivery_shares_start_witness :
  filter (fun c => is_duration c = true)
    (observe_all [(JobStarted demo_job, (demo_time, demo_time));
                  (JobStarted demo_again, (demo_time + 10 * second, demo_time + 10 * second));
                  (JobCompleted demo_job, (demo_time + 15 * second, demo_time + 15 * second));
                  (JobCompleted demo_again, (demo_time + 30 * second, demo_time + 30 * second))]
      demo_metrics).2 = [Observe duration ["email"] (5 * second)].
Proof.
  apply (redelivery_shares_start demo_job demo_again demo_metrics); try reflexivity. vm_compute. congruence.
Defined.

Lemma New_once_witness : exists reg' m, New ∅ demo_time = Some (reg', m) /\
  reg' = list_to_set names ∪ ∅ /\ forall now', New reg' now' = None.
Proof. apply (New_once ∅ demo_time). intros c _. apply not_elem_of_empty. Defined.
