(* ===== verification/Tasks.v ===== *)
(** * The example tasks and the demo producer ([examples/tasks], [cmd/enqueue-demo])

    The handlers of the demo worker, over any world with a clock to sleep on, and
    the payloads the demo producer makes for them. *)

From S2P Require Import Prelude GoNum Errors Job GoJson Json Retry Backend Queue Worker.
From Stdlib Require Import Ascii.
From stdpp Require Import strings.

Open Scope Z_scope.

(** ** Payloads *)

Record EmailPayload := mkEmailPayload {
  em_To : string;
  em_Subject : string;
  em_Body : string;
  em_LatencyMs : Z;
}.

Record ImagePayload := mkImagePayload {
  im_ImageID : string;
  im_URL : string;
  im_LatencyMs : Z;
}.

Definition zero_email : EmailPayload := mkEmailPayload "" "" "" 0.
Definition zero_image : ImagePayload := mkImagePayload "" "" 0.

Definition email_fields : list (setter EmailPayload) :=
  [("to", of_string (fun x p => mkEmailPayload x (em_Subject p) (em_Body p) (em_LatencyMs p)));
   ("subject", of_string (fun x p => mkEmailPayload (em_To p) x (em_Body p) (em_LatencyMs p)));
   ("body", of_string (fun x p => mkEmailPayload (em_To p) (em_Subject p) x (em_LatencyMs p)));
   ("latency_ms", of_int (fun x p => mkEmailPayload (em_To p) (em_Subject p) (em_Body p) x))].

Definition image_fields : list (setter ImagePayload) :=
  [("image_id", of_string (fun x p => mkImagePayload x (im_URL p) (im_LatencyMs p)));
   ("url", of_string (fun x p => mkImagePayload (im_ImageID p) x (im_LatencyMs p)));
   ("latency_ms", of_int (fun x p => mkImagePayload (im_ImageID p) (im_URL p) x))].

(** [omitempty] leaves out a zero. *)
Definition omit_zero (name : string) (z : Z) : list (string * jval) :=
  if z =? 0 then [] else [(name, JNum (Itoa z))].

Definition marshal_email (p : EmailPayload) : string :=
  json_struct ([("to", JStr (em_To p)); ("subject", JStr (em_Subject p)); ("body", JStr (em_Body p))] ++
    omit_zero "latency_ms" (em_LatencyMs p)).

Definition marshal_image (p : ImagePayload) : string :=
  json_struct ([("image_id", JStr (im_ImageID p)); ("url", JStr (im_URL p))] ++
    omit_zero "latency_ms" (im_LatencyMs p)).

(** ** Handlers *)

Definition Millisecond : Z := 1000000.

Section handlers.
Context {W : Type} (time_Sleep : Z -> W -> W) (json_error : string -> error).

(** The artificial latency of a payload, as a wrapping product. *)
Definition sleep_ms (ms : Z) (w : W) : W :=
  if 0 <? ms then time_Sleep (wrap64 (ms * Millisecond)) w else w.

Definition SendEmail : HandlerFunc W := fun job w =>
  match json_Unmarshal email_fields (Payload job) zero_email with
  | None => (w, NewPermanentError (json_error (Payload job)))
  | Some payload =>
      if bool_decide (em_To payload = "") then
        (w, NewPermanentError (ErrMsg "email recipient is required"))
      else (sleep_ms (em_LatencyMs payload) w, mkJobResult false None)
  end.

Definition ProcessImage : HandlerFunc W := fun job w =>
  match json_Unmarshal image_fields (Payload job) zero_image with
  | None => (w, NewPermanentError (json_error (Payload job)))
  | Some payload =>
      if bool_decide (im_ImageID payload = "") then
        (w, NewPermanentError (ErrMsg "image id is required"))
      else (sleep_ms (im_LatencyMs payload) w, mkJobResult false None)
  end.

Definition PermanentFail : HandlerFunc W := fun job w =>
  (w, NewPermanentError (ErrMsg "this task always fails")).

Definition succeedOnAttempt : Z := 2.

Definition FlakyEmail : HandlerFunc W := fun job w =>
  if Attempt job <? succeedOnAttempt then (w, NewRetryableError (ErrMsg "transient failure (demo)"))
  else (w, mkJobResult false None).

(** The handlers the demo worker registers. *)
Definition worker_demo_handlers : gmap string (HandlerFunc W) :=
  <["send_email" := SendEmail]> (<["process_image" := ProcessImage]>
  (<["permanent_fail" := PermanentFail]> (<["flaky_email" := FlakyEmail]> ∅))).
End handlers.

(** ** The demo producer *)

(** [pickTask] of [rand.IntN(100)]. *)
Definition pickTask (r : Z) : string :=
  if r <? 70 then "send_email"
  else if r <? 85 then "process_image"
  else if r <? 97 then "flaky_email"
  else "permanent_fail".

(** The latency of a job of the mix; [rand] is [rand.IntN], which panics unless
    its bound is positive. *)
Definition mix_latency (rand : Z -> Z) (ms : Z) : option Z :=
  let bound := wrap64 (ms + 1) in
  if 0 <? bound then Some (wrap64 (Z.quot ms 2 + rand bound)) else None.

(** The payload as [Enqueue] marshals it, and the attempts it gets. *)
Definition payloadFor (task : string) (latencyMs : Z) : string * Z :=
  if bool_decide (task = "process_image") then
    (marshal_image (mkImagePayload "img-demo" "https://example.com/demo.jpg" latencyMs), 3)
  else if bool_decide (task = "permanent_fail") then (json_struct [], 1)
  else if bool_decide (task = "flaky_email") then
    (marshal_email (mkEmailPayload "dev@example.com" "Flaky email demo"
       "This job fails twice then succeeds." latencyMs), 5)
  else
    (marshal_email (mkEmailPayload "dev@example.com" "Distributed queue demo"
       "This job should eventually be handled by a worker." latencyMs), 3).

(** ** Round trips *)

Lemma omit_zero_ok name z : utf8_valid name = true -> fields_ok (omit_zero name z).
Proof. intros Hn. unfold omit_zero. destruct (z =? 0); repeat constructor; done. Qed.

Lemma email_roundtrip p :
  utf8_valid (em_To p) = true -> utf8_valid (em_Subject p) = true -> utf8_valid (em_Body p) = true ->
  int64_ok (em_LatencyMs p) ->
  json_Unmarshal email_fields (marshal_email p) zero_email = Some p.
Proof.
  intros H1 H2 H3 H4. unfold marshal_email. rewrite json_Unmarshal_struct.
  - destruct p as [to sub body ms]. unfold omit_zero. simpl in *.
    destruct (Z.eqb_spec ms 0) as [->|]; [done|]. pose proof (Atoi_Itoa ms H4) as E. cbv -[Atoi Itoa]. by rewrite E.
  - apply Forall_app. split; [|by apply omit_zero_ok]. repeat constructor; done.
Qed.

Lemma image_roundtrip p :
  utf8_valid (im_ImageID p) = true -> utf8_valid (im_URL p) = true -> int64_ok (im_LatencyMs p) ->
  json_Unmarshal image_fields (marshal_image p) zero_image = Some p.
Proof.
  intros H1 H2 H3. unfold marshal_image. rewrite json_Unmarshal_struct.
  - destruct p as [id url ms]. unfold omit_zero. simpl in *.
    destruct (Z.eqb_spec ms 0) as [->|]; [done|]. pose proof (Atoi_Itoa ms ltac:(done)) as E. cbv -[Atoi Itoa]. by rewrite E.
  - apply Forall_app. split; [|by apply omit_zero_ok]. repeat constructor; done.
Qed.

(** ** What becomes of the demo's jobs *)

Inductive job_fate :=
  | Completed (attempt : Z)
  | DeadLettered (attempt : Z) (reason : string).

(** The attempts of a job, deciding as [handleOne] does after each run; a retry
    is the next attempt. *)
Fixpoint journey {W} (fuel : nat) (h : HandlerFunc W) (job : Job) (w : W) : option job_fate :=
  match fuel with
  | O => None
  | S fuel' =>
      let '(w', res) := h job w in
      match ResErr res with
      | None => Some (Completed (Attempt job))
      | Some e =>
          if negb (Retryable res) || ShouldDeadLetter job
          then Some (DeadLettered (Attempt job) (error_string e))
          else journey fuel' h (set_Attempt job (wrap64 (Attempt job + 1))) w'
      end
  end.

Definition demo_fate (task : string) : job_fate :=
  if bool_decide (task = "permanent_fail") then DeadLettered 0 "this task always fails"
  else if bool_decide (task = "flaky_email") then Completed 2
  else Completed 0.

Lemma pickTask_cases r : pickTask r ∈ ["send_email"; "process_image"; "flaky_email"; "permanent_fail"].
Proof. unfold pickTask. repeat case_match; set_solver. Qed.

(** The four demo tasks reach their handlers with payloads these can read, and
    end as their names say: the plain ones complete on the first attempt, the
    flaky one on its third, the failing one is dead-lettered at once. *)
Theorem demo_jobs_settle {W} (sleep : Z -> W -> W) json_error r ms b now w :
  int64_ok ms ->
  let task := pickTask r in
  let '(payload, maxAttempts) := payloadFor task ms in
  exists h job,
    newJob task (EnqEnv (Ok payload) b now) (mkEnqueueOptions maxAttempts 0 "") = Ok job /\
    worker_demo_handlers sleep json_error !! task = Some h /\
    journey 3 h job w = Some (demo_fate task).
Proof.
  intros Hms. pose proof (pickTask_cases r) as Hr. cbv zeta. revert Hr. generalize (pickTask r).
  intros task [-> | [-> | [-> | [-> | []%not_elem_of_nil]%elem_of_cons]%elem_of_cons]%elem_of_cons]%elem_of_cons.
  - eexists (SendEmail sleep json_error), _. split_and!; [reflexivity | reflexivity|]. cbn [journey Payload].
    unfold SendEmail. cbn [Payload]. by rewrite email_roundtrip.
  - eexists (ProcessImage sleep json_error), _. split_and!; [reflexivity | reflexivity|]. cbn [journey Payload].
    unfold ProcessImage. cbn [Payload]. by rewrite image_roundtrip.
  - eexists FlakyEmail, _. split_and!; reflexivity.
  - eexists PermanentFail, _. split_and!; reflexivity.
Qed.

(** The latency of the mix is within half of the one asked for. *)
Lemma mix_latency_range rand ms x :
  0 <= ms < 2 ^ 62 -> (forall n, 0 < n -> 0 <= rand n < n) -> mix_latency rand ms = Some x ->
  Z.quot ms 2 <= x <= ms + Z.quot ms 2.
Proof.
  intros Hms Hr. unfold mix_latency.
  assert (wrap64 (ms + 1) = ms + 1) as -> by (apply wrap64_id; unfold int64_ok, min_int64, max_int64; lia).
  destruct (Z.ltb_spec 0 (ms + 1)); [|done]. specialize (Hr (ms + 1)). rewrite Z.quot_div_nonneg by lia.
  pose proof (Z.div_pos ms 2). pose proof (Z.div_le_upper_bound ms 2 ms).
  rewrite wrap64_id by (unfold int64_ok, min_int64, max_int64; lia). intros [= <-]. lia.
Qed.

(** A negative latency makes the mix panic. *)
Example mix_latency_negative rand : mix_latency rand (-1) = None.
Proof. reflexivity. Qed.
