(* ===== verification/Downstream.v ===== *)
(** * The downstream system of the chaos test ([cmd/chaos/downstream.go])

    The receiver that turns at-least-once delivery into exactly-once effects: it
    rejects runs that present an old fencing token and applies each job's effect
    at most once. The scripts on Redis, what they do to an abstract ledger, and
    the guarantees over every sequence of their executions. *)

From S2P Require Import Prelude GoNum Errors Job GoJson Retry GoFloat Redis RefRedis Scripts QueueRep Store.
From Stdlib Require Import QArith Lqa.
From stdpp Require Import strings.

Open Scope Z_scope.
Open Scope se_scope.

(** ** The scripts *)

Record downstream := mkDownstream { ds_prefix : string }.

(** The four keys, in the order of KEYS. *)
Definition ds_fence (d : downstream) : string := ds_prefix d +:+ "{ds}:fence".
Definition ds_outcomes (d : downstream) : string := ds_prefix d +:+ "{ds}:outcomes".
Definition ds_applied (d : downstream) : string := ds_prefix d +:+ "{ds}:applied".
Definition ds_effects (d : downstream) : string := ds_prefix d +:+ "{ds}:effects".

(** An integer as a number of Lua. *)
Definition lua_num (n : Z) : Q := rnd (inject_Z n).

Definition Qlt_bool (x y : Q) : bool := negb (Qle_bool y x).

Section scripts.
Context {R : Redis} (d : downstream).

Abbreviation M := (SE rdb error).

(** Lua's [tonumber] on a decimal integer: numbers are doubles, so the value is
    the nearest one. *)
Definition tonumber (s : string) : M Q :=
  match Atoi s with
  | Some n => ret (lua_num n)
  | None => throw (ErrReply "attempt to compare number with nil")
  end.

Definition fence (id : string) (token : Z) : M bool :=
  let! x := HGET (ds_fence d) id in
  let! seen := tonumber (default "-1" x) in
  let! t := tonumber (Itoa token) in
  if Qlt_bool t seen then
    do! HINCRBY (ds_outcomes d) "fenced" 1 in
    ret false
  else
    do! HSET (ds_fence d) id (Itoa token) in
    ret true.

Definition beginScript (id : string) (token : Z) : M Z :=
  let! ok := fence id token in
  if negb ok then ret 0 else ret 1.

Definition applyScript (id : string) (token n : Z) : M string :=
  let! ok := fence id token in
  if negb ok then ret "fenced" else
  let! fresh := HSETNX (ds_applied d) id (Itoa n) in
  if negb fresh then
    do! HINCRBY (ds_outcomes d) "deduped" 1 in
    ret "deduped"
  else
    do! HINCRBY (ds_effects d) (Itoa n) 1 in
    do! HINCRBY (ds_outcomes d) "applied" 1 in
    ret "applied".

Definition ds_begin {C : Client R} (job : Job) : M bool :=
  let! n := call (beginScript (ID job) (FencingToken job)) in
  ret (negb (n =? 0)).

Definition ds_apply {C : Client R} (job : Job) (n : Z) : M string :=
  call (applyScript (ID job) (FencingToken job) n).
End scripts.

(** ** The abstract ledger *)

Record ledger := Ledger {
  l_fence : gmap string Z;       (* job ID -> highest token seen *)
  l_outcomes : gmap string Z;
  l_applied : gmap string Z;     (* job ID -> payload, once applied *)
  l_effects : gmap string Z;     (* payload -> effects applied *)
}.

Definition empty_ledger : ledger := Ledger ∅ ∅ ∅ ∅.

Inductive dop :=
  | DBegin (id : string) (token : Z)
  | DApply (id : string) (token n : Z).

Definition bump (k : string) (m : gmap string Z) : gmap string Z := <[k := default 0 (m !! k) + 1]> m.

(** Tokens are compared by their value [num]: the tokens themselves
    ([inject_Z]) in the specification, the doubles of Lua ([lua_num]) in the
    scripts. *)
Section by_value.
Context (num : Z -> Q).

Definition d_stale (l : ledger) (id : string) (token : Z) : bool :=
  Qlt_bool (num token) (num (default (-1) (l_fence l !! id))).

Definition d_note (k : string) (l : ledger) : ledger :=
  Ledger (l_fence l) (bump k (l_outcomes l)) (l_applied l) (l_effects l).

Definition d_pass (id : string) (token : Z) (l : ledger) : ledger :=
  Ledger (<[id := token]> (l_fence l)) (l_outcomes l) (l_applied l) (l_effects l).

Definition d_effect (id : string) (n : Z) (l : ledger) : ledger :=
  Ledger (l_fence l) (bump "applied" (l_outcomes l)) (<[id := n]> (l_applied l))
    (bump (Itoa n) (l_effects l)).

(** What an execution does, and its answer. *)
Definition d_step (op : dop) (l : ledger) : ledger * string :=
  match op with
  | DBegin id token =>
      if d_stale l id token then (d_note "fenced" l, "0") else (d_pass id token l, "1")
  | DApply id token n =>
      if d_stale l id token then (d_note "fenced" l, "fenced") else
      let l1 := d_pass id token l in
      match l_applied l !! id with
      | Some _ => (d_note "deduped" l1, "deduped")
      | None => (d_effect id n l1, "applied")
      end
  end.

Fixpoint d_run (ops : list dop) (l : ledger) : ledger * list string :=
  match ops with
  | [] => (l, [])
  | op :: ops' =>
      let '(l1, r) := d_step op l in
      let '(l2, rs) := d_run ops' l1 in (l2, r :: rs)
  end.
End by_value.

(** ** Guarantees of the ledger *)

(** The jobs whose effect on payload [n] was applied. *)
Definition applied_to (l : ledger) (n : Z) : nat := size (filter (fun kv => kv.2 = n) (l_applied l)).

Definition l_inv (l : ledger) : Prop :=
  forall n, default 0 (l_effects l !! Itoa n) = Z.of_nat (applied_to l n).

Lemma applied_to_insert l id n m :
  l_applied l !! id = None ->
  applied_to (d_effect id n l) m = ((if decide (n = m) then 1 else 0) + applied_to l m)%nat.
Proof.
  intros Hnone. unfold applied_to. simpl. rewrite map_filter_insert. simpl. case_decide as Hn.
  - rewrite map_size_insert_None; [done|]. apply map_lookup_filter_None. by left.
  - by rewrite map_filter_delete, delete_id by (apply map_lookup_filter_None; by left).
Qed.

Section any_value.
Context (num : Z -> Q).
Abbreviation d_stale := (d_stale num).
Abbreviation d_step := (d_step num).
Abbreviation d_run := (d_run num).

(** The value of the highest token seen. *)
Definition seen_num (l : ledger) (id : string) : Q := num (default (-1) (l_fence l !! id)).

Lemma d_step_inv op l : l_inv l -> l_inv (d_step op l).1.
Proof.
  intros Hl. destruct op as [id token|id token n]; simpl; destruct (d_stale l id token); try exact Hl.
  destruct (l_applied l !! id) eqn:Ea; simpl; [exact Hl|].
  intros m. rewrite (applied_to_insert (d_pass id token l)) by done.
  change (applied_to (d_pass id token l) m) with (applied_to l m). simpl. unfold bump.
  destruct (decide (n = m)) as [->|Hne].
  - rewrite lookup_insert_eq. simpl. rewrite Hl. lia.
  - rewrite lookup_insert_ne by (intros H; by apply Itoa_inj in H). apply Hl.
Qed.

Lemma d_run_inv ops : forall l, l_inv l -> l_inv (d_run ops l).1.
Proof.
  induction ops as [|op ops IH]; intros l Hl; cbn [Downstream.d_run]; [done|].
  pose proof (d_step_inv op l Hl) as Hl1. destruct (d_step op l) as [l1 r].
  specialize (IH l1 Hl1). by destruct (d_run ops l1).
Qed.

(** Tokens seen only grow; an applied effect is final. *)
Lemma d_step_mono op l :
  (forall id, seen_num l id <= seen_num (d_step op l).1 id)%Q /\
  (forall id n, l_applied l !! id = Some n -> l_applied (d_step op l).1 !! id = Some n).
Proof.
  assert (forall id token i, d_stale l id token = false ->
    (seen_num l i <= num (default (-1)%Z (<[id := token]> (l_fence l) !! i)))%Q) as Hf.
  { intros id token i Hs. unfold Downstream.d_stale, Qlt_bool in Hs.
    apply negb_false_iff, Qle_bool_iff in Hs. unfold seen_num.
    destruct (decide (id = i)) as [->|]; [by rewrite lookup_insert_eq|].
    rewrite lookup_insert_ne by done. apply Qle_refl. }
  destruct op as [id token|id token n]; simpl; destruct (d_stale l id token) eqn:Es; simpl;
    try (split; [intros; apply Qle_refl | done]); try (split; [intros i; exact (Hf id token i Es) | done]).
  destruct (l_applied l !! id) eqn:Ea; (split; [intros i; exact (Hf id token i Es)|]); simpl; auto.
  intros i m Hi. rewrite lookup_insert_ne; [done | congruence].
Qed.

Lemma d_run_mono ops : forall l,
  (forall id, seen_num l id <= seen_num (d_run ops l).1 id)%Q /\
  (forall id n, l_applied l !! id = Some n -> l_applied (d_run ops l).1 !! id = Some n).
Proof.
  induction ops as [|op ops IH]; intros l; cbn [Downstream.d_run]; [split; simpl; [intros; apply Qle_refl | done]|].
  destruct (d_step_mono op l) as [H1 H2]. destruct (d_step op l) as [l1 r].
  destruct (IH l1) as [H3 H4]. destruct (d_run ops l1) as [l2 rs]. simpl in *. split.
  - intros id. eapply Qle_trans; [apply H1 | apply H3].
  - auto.
Qed.

Definition is_set (o : option Z) : nat := match o with Some _ => 1 | None => 0 end.

(** How many executions for job [id] answered "applied". *)
Definition applied_answer (id : string) (x : dop * string) : bool :=
  match x with
  | (DApply i _ _, r) => bool_decide (i = id) && bool_decide (r = "applied")
  | _ => false
  end.

Definition answers (id : string) (ops : list dop) (l : ledger) : nat :=
  length (List.filter (applied_answer id) (zip ops (d_run ops l).2)).

Lemma d_step_answer id op l :
  ((if applied_answer id (op, (d_step op l).2) then 1 else 0) +
   is_set (l_applied l !! id) =
   is_set (l_applied (d_step op l).1 !! id))%nat.
Proof.
  destruct op as [i t|i t n]; simpl; destruct (d_stale l i t); simpl; try done.
  - by rewrite andb_false_r.
  - destruct (l_applied l !! i) eqn:Ea; simpl; [by rewrite andb_false_r|].
    destruct (decide (i = id)) as [->|Hne].
    + by rewrite bool_decide_eq_true_2, lookup_insert_eq, Ea.
    + by rewrite bool_decide_eq_false_2, lookup_insert_ne.
Qed.

Lemma answers_count id ops : forall l,
  (answers id ops l + is_set (l_applied l !! id) =
   is_set (l_applied (d_run ops l).1 !! id))%nat.
Proof.
  unfold answers. induction ops as [|op ops IH]; intros l; [done|]. cbn [Downstream.d_run].
  pose proof (d_step_answer id op l) as H1. destruct (d_step op l) as [l1 r].
  specialize (IH l1). destruct (d_run ops l1) as [l2 rs]. cbn [zip zip_with List.filter fst snd] in *.
  destruct (applied_answer id (op, r)); cbn [length] in *; lia.
Qed.

End any_value.

(** On tokens below 2^53 both values order the same. *)
Definition small_token (t : Z) : Prop := Z.abs t < 2 ^ 53.

Definition op_token (op : dop) : Z := match op with DBegin _ t | DApply _ t _ => t end.

Lemma lua_num_small t : small_token t -> lua_num t = inject_Z t.
Proof. apply rnd_int_double. Qed.

Definition small_ledger (l : ledger) : Prop := map_Forall (fun _ t => small_token t) (l_fence l).

Lemma d_step_small op l : small_ledger l -> small_token (op_token op) ->
  d_step lua_num op l = d_step inject_Z op l /\ small_ledger (d_step inject_Z op l).1.
Proof.
  intros Hl Ht.
  assert (forall id, lua_num (default (-1) (l_fence l !! id)) = inject_Z (default (-1) (l_fence l !! id))) as Hseen.
  { intros id. apply lua_num_small. destruct (l_fence l !! id) as [t|] eqn:E; [by apply (Hl id) | done]. }
  assert (forall id t, small_token t -> small_ledger (d_pass id t l)) as Hp
    by (intros id t Hs; by apply map_Forall_insert_2).
  destruct op as [id t|id t n]; simpl in *; unfold d_stale; rewrite lua_num_small, Hseen by done;
    (split; [done|]); destruct (Qlt_bool _ _); simpl; try done; try by apply (Hp id t Ht).
  destruct (l_applied l !! id); by apply (Hp id t Ht).
Qed.

Lemma d_run_small ops : forall l, small_ledger l -> Forall (fun op => small_token (op_token op)) ops ->
  d_run lua_num ops l = d_run inject_Z ops l.
Proof.
  induction ops as [|op ops IH]; intros l Hl Hops; [done|]. inversion Hops as [|? ? Ht Hops']; subst.
  destruct (d_step_small op l Hl Ht) as [E Hl1]. cbn [d_run]. rewrite E.
  destruct (d_step inject_Z op l) as [l1 r]. by rewrite IH.
Qed.

(** From 2^53 on they do not: a stale token passes. *)
Example stale_passes :
  let l := d_pass "a" (2 ^ 53 + 1) empty_ledger in
  d_stale inject_Z l "a" (2 ^ 53) = true /\ d_stale lua_num l "a" (2 ^ 53) = false.
Proof. vm_compute. by split. Qed.

(** ** The scripts implement the ledger *)

Section refinement.
Context {R : Redis} {L : RedisLaws R} (d : downstream).
Abbreviation d_stale := (d_stale lua_num).
Abbreviation d_step := (d_step lua_num).
Abbreviation d_run := (d_run lua_num).

(** The keyspace holds the ledger. *)
Record ds_rep (v : rview) (l : ledger) : Prop := {
  dr_fence : hash_at v (ds_fence d) = Some (Itoa <$> l_fence l);
  dr_outcomes : hash_at v (ds_outcomes d) = Some (Itoa <$> l_outcomes l);
  dr_applied : hash_at v (ds_applied d) = Some (Itoa <$> l_applied l);
  dr_effects : hash_at v (ds_effects d) = Some (Itoa <$> l_effects l);
  dr_tokens : forall id t, l_fence l !! id = Some t -> int64_ok t;
}.

(** The counters are not at the end of their range. *)
Definition counts_room (m : gmap string Z) : Prop :=
  forall k, int64_ok (default 0 (m !! k)) /\ int64_ok (default 0 (m !! k) + 1).

Lemma ds_keys_ne a c : a <> c -> ds_prefix d +:+ a <> ds_prefix d +:+ c.
Proof. intros Hne H. by apply str_app_inj_l in H. Qed.

Lemma hash_at_put_eq k h v : hash_at (put_hash k h v) k = Some h.
Proof. unfold hash_at, put_hash. rewrite lookup_put_key_eq. case_decide; by subst. Qed.

Lemma hash_at_put_ne k k' h v : k <> k' -> hash_at (put_hash k h v) k' = hash_at v k'.
Proof. intros. unfold hash_at, put_hash. by rewrite lookup_put_key_ne. Qed.

Ltac ds_keys := repeat first
  [ rewrite hash_at_put_eq | rewrite hash_at_put_ne by (apply ds_keys_ne; discriminate) ].

(** A counter goes up by one. *)
Lemma incr_runs s key k m (Q : rdb -> Z -> Prop) :
  hash_at (view s) key = Some (Itoa <$> m) -> counts_room m ->
  (forall s' n, view s' = put_hash key (Itoa <$> bump k m) (view s) -> Q s' n) ->
  runs (HINCRBY key k 1) s Q.
Proof.
  intros Hh Hroom HQ. destruct (Hroom k) as [H1 H2].
  eapply runs_mono; [apply (HINCRBY_law s key k 1 _ (default 0 (m !! k)) Hh)|]; [| done|].
  - rewrite lookup_fmap. destruct (m !! k) as [x|]; simpl in *; [by apply Atoi_Itoa | done].
  - intros s' n [_ Hv]. apply (HQ s' n). by rewrite Hv, <- fmap_insert.
Qed.

Lemma fence_runs s l id token :
  ds_rep (view s) l -> counts_room (l_outcomes l) -> int64_ok token ->
  runs (fence d id token) s (fun s' ok =>
    ok = negb (d_stale l id token) /\
    ds_rep (view s') (if d_stale l id token then d_note "fenced" l else d_pass id token l)).
Proof.
  intros [H1 H2 H3 H4 H5] Hroom Htok. unfold fence.
  eapply runs_bind; [by apply (HGET_law s _ id _ H1)|]. cbn beta. intros s1 x [Hv1 ->].
  assert (Atoi (default "-1" ((Itoa <$> l_fence l) !! id)) = Some (default (-1) (l_fence l !! id))) as Ha.
  { rewrite lookup_fmap. destruct (l_fence l !! id) as [t|] eqn:Et; simpl; [apply Atoi_Itoa; eauto | done]. }
  unfold tonumber. rewrite Ha, Atoi_Itoa by done.
  eapply (runs_bind _ _ _ _ (fun s' a => s' = s1 /\ a = lua_num (default (-1) (l_fence l !! id)))); [by apply runs_ret|].
  intros ? ? [-> ->]. eapply (runs_bind _ _ _ _ (fun s' a => s' = s1 /\ a = lua_num token)); [by apply runs_ret|].
  intros ? ? [-> ->]. fold (d_stale l id token). destruct (d_stale l id token).
  - eapply runs_bind; [apply (incr_runs s1 _ "fenced" (l_outcomes l)
      (fun s' _ => view s' = put_hash (ds_outcomes d) (Itoa <$> bump "fenced" (l_outcomes l)) (view s)));
      [by rewrite Hv1 | done | intros; by rewrite <- Hv1]|].
    cbn beta. intros s2 _ Hv2. apply runs_ret. split; [done|]. rewrite Hv2.
    split; simpl; unfold ds_fence, ds_outcomes, ds_applied, ds_effects in *; ds_keys; done.
  - eapply runs_bind; [apply (HSET_law s1 _ id (Itoa token) (Itoa <$> l_fence l)); by rewrite Hv1|].
    cbn beta. intros s2 _ Hv2. apply runs_ret. split; [done|]. rewrite Hv2, <- fmap_insert, Hv1.
    split; simpl; unfold ds_fence, ds_outcomes, ds_applied, ds_effects in *; ds_keys; try done.
    intros i t. rewrite lookup_insert_Some. naive_solver.
Qed.

(** One execution of either script. *)
Lemma scripts_step s l id token n :
  ds_rep (view s) l -> counts_room (l_outcomes l) -> counts_room (l_effects l) -> int64_ok token ->
  runs (beginScript d id token) s (fun s' r =>
    ds_rep (view s') (d_step (DBegin id token) l).1 /\ Itoa r = (d_step (DBegin id token) l).2) /\
  runs (applyScript d id token n) s (fun s' r =>
    ds_rep (view s') (d_step (DApply id token n) l).1 /\ r = (d_step (DApply id token n) l).2).
Proof.
  intros Hrep Ho He Htok. split.
  - unfold beginScript. eapply runs_bind; [by apply fence_runs|]. cbn beta. intros s1 ok [-> Hs1].
    simpl. destruct (d_stale l id token); simpl; by apply runs_ret.
  - unfold applyScript. eapply runs_bind; [by apply fence_runs|]. cbn beta. intros s1 ok [-> Hs1].
    simpl. destruct (d_stale l id token); simpl; [by apply runs_ret|].
    destruct Hs1 as [H1 H2 H3 H4 H5]. simpl in *.
    eapply runs_bind; [apply (HSETNX_law s1 _ id (Itoa n) _ H3)|]. cbn beta. intros s2 b [-> Hv2].
    rewrite lookup_fmap in Hv2 |- *.
    destruct (l_applied l !! id) as [m|] eqn:Ea; simpl in *.
    + eapply runs_bind; [apply (incr_runs s2 _ "deduped" (l_outcomes l)
        (fun s' _ => view s' = put_hash (ds_outcomes d) (Itoa <$> bump "deduped" (l_outcomes l)) (view s1)));
        [by rewrite Hv2 | done | intros; by rewrite <- Hv2]|].
      cbn beta. intros s3 _ Hv3. apply runs_ret. split; [|done]. rewrite Hv3.
      split; simpl; unfold ds_fence, ds_outcomes, ds_applied, ds_effects in *; ds_keys; done.
    + rewrite <- fmap_insert in Hv2.
      eapply runs_bind; [apply (incr_runs s2 _ (Itoa n) (l_effects l) (fun s' _ =>
        view s' = put_hash (ds_effects d) (Itoa <$> bump (Itoa n) (l_effects l)) (view s2)));
        [|done | done]|].
      { rewrite Hv2. unfold ds_applied, ds_effects in *. by ds_keys. }
      cbn beta. intros s3 _ Hv3.
      eapply runs_bind; [apply (incr_runs s3 _ "applied" (l_outcomes l) (fun s' _ =>
        view s' = put_hash (ds_outcomes d) (Itoa <$> bump "applied" (l_outcomes l)) (view s3)));
        [|done | done]|].
      { rewrite Hv3, Hv2. unfold ds_applied, ds_effects, ds_outcomes in *. by ds_keys. }
      cbn beta. intros s4 _ Hv4. apply runs_ret. split; [|done]. rewrite Hv4, Hv3, Hv2.
      split; simpl; unfold ds_fence, ds_outcomes, ds_applied, ds_effects in *; ds_keys; done.
Qed.

(** The executions of a list, one after the other, with their answers. *)
Fixpoint run_scripts (ops : list dop) : SE rdb error (list string) :=
  match ops with
  | [] => ret []
  | op :: ops' =>
      let! r := match op with
                | DBegin id token => let! n := beginScript d id token in ret (Itoa n)
                | DApply id token n => applyScript d id token n
                end in
      let! rs := run_scripts ops' in
      ret (r :: rs)
  end.

(** [k] more executions cannot overflow a counter. *)
Definition room (k : nat) (m : gmap string Z) : Prop :=
  forall x, 0 <= default 0 (m !! x) /\ default 0 (m !! x) + Z.of_nat k <= max_int64.

Lemma room_counts k m : room (S k) m -> counts_room m.
Proof.
  intros H x. specialize (H x). unfold int64_ok, min_int64, max_int64 in *. lia.
Qed.

Lemma room_le k k' m : (k <= k')%nat -> room k' m -> room k m.
Proof. intros Hk H x. specialize (H x). lia. Qed.

Lemma room_S k m : room (S k) m -> room k m.
Proof. intros H x. specialize (H x). lia. Qed.

Lemma room_bump k m x : room (S k) m -> room k (bump x m).
Proof.
  intros H y. unfold bump. destruct (decide (x = y)) as [->|].
  - rewrite lookup_insert_eq. simpl. specialize (H y). lia.
  - rewrite lookup_insert_ne by done. specialize (H y). lia.
Qed.

Lemma room_step k op l :
  room (S k) (l_outcomes l) -> room (S k) (l_effects l) ->
  room k (l_outcomes (d_step op l).1) /\ room k (l_effects (d_step op l).1).
Proof.
  intros Ho He. destruct op as [id t|id t n]; simpl; destruct (d_stale l id t); simpl;
    auto using room_S, room_bump.
  destruct (l_applied l !! id); simpl; auto using room_S, room_bump.
Qed.

Lemma run_room ops k : forall l,
  room (length ops + k) (l_outcomes l) -> room (length ops + k) (l_effects l) ->
  room k (l_outcomes (d_run ops l).1) /\ room k (l_effects (d_run ops l).1).
Proof.
  induction ops as [|op ops IH]; intros l Ho He; [done|]. cbn [Downstream.d_run].
  destruct (room_step (length ops + k) op l Ho He) as [Ho1 He1].
  destruct (d_step op l) as [l1 r]. specialize (IH l1 Ho1 He1). by destruct (d_run ops l1).
Qed.

Lemma run_scripts_ok ops : forall s l,
  ds_rep (view s) l -> room (length ops) (l_outcomes l) -> room (length ops) (l_effects l) ->
  Forall (fun op => int64_ok (op_token op)) ops ->
  runs (run_scripts ops) s (fun s' rs => ds_rep (view s') (d_run ops l).1 /\ rs = (d_run ops l).2).
Proof.
  induction ops as [|op ops IH]; intros s l Hrep Ho He Htok; cbn [run_scripts d_run].
  { by apply runs_ret. }
  inversion Htok as [|? ? Ht Htok']; subst.
  destruct (room_step (length ops) op l Ho He) as [Ho1 He1].
  assert (forall id t n, int64_ok t -> _) as Hstep by
    (intros id t n; apply (scripts_step s l id t n Hrep); by eapply room_counts).
  eapply (runs_bind _ _ _ _ (fun s' r => ds_rep (view s') (d_step op l).1 /\ r = (d_step op l).2)).
  - destruct op as [id t|id t n]; [|by apply Hstep].
    eapply runs_bind; [by apply (Hstep id t 0)|]. cbn beta. intros s1 n [Hs1 Hn]. by apply runs_ret.
  - intros s1 r [Hs1 ->]. destruct (d_step op l) as [l1 r]. simpl in *.
    eapply runs_bind; [by apply (IH s1 l1)|]. cbn beta. intros s2 rs [Hs2 ->].
    destruct (d_run ops l1) as [l2 rs2]. by apply runs_ret.
Qed.

(** C28: the Lua scripts implement the abstract ledger: on a keyspace that holds
    a ledger, any sequence of executions (for any jobs, retransmissions included)
    gives the ledger's answers and leaves the keyspace holding the ledger's next
    state, while the counters are in range and the tokens are below 2^53. (Lua
    compares tokens as doubles: from 2^53 on, one that is behind can pass, see
    [stale_passes].) *)
Theorem downstream_refines ops s l :
  ds_rep (view s) l -> room (length ops) (l_outcomes l) -> room (length ops) (l_effects l) ->
  small_ledger l -> Forall (fun op => small_token (op_token op)) ops ->
  runs (run_scripts ops) s (fun s' rs =>
    ds_rep (view s') (Downstream.d_run inject_Z ops l).1 /\ rs = (Downstream.d_run inject_Z ops l).2).
Proof.
  intros Hrep Ho He Hl Hops. rewrite <- (d_run_small ops l Hl Hops). apply run_scripts_ok; [done..|].
  eapply Forall_impl; [exact Hops|]. intros op Ht.
  unfold small_token, int64_ok, min_int64, max_int64 in *. lia.
Qed.
End refinement.

Definition demo_ds : downstream := mkDownstream "chaos:".
Definition demo_ops : list dop := [DBegin "a" 5; DApply "a" 5 7; DApply "a" 5 7].

Lemma demo_ds_rep : ds_rep demo_ds (RView ∅ 0) empty_ledger.
Proof. split; try reflexivity. intros id t. simpl. by rewrite lookup_empty. Qed.

Lemma demo_room : room 10 (l_outcomes empty_ledger).
Proof. intros k. simpl. rewrite lookup_empty. vm_compute. split; congruence. Qed.

Lemma demo_tokens : Forall (fun op => int64_ok (op_token op)) demo_ops.
Proof. repeat (constructor; [split; vm_compute; congruence|]). constructor. Qed.

Lemma downstream_refines_witness :
  runs (run_scripts (R:=ref_redis) demo_ds demo_ops) (RView ∅ 0) (fun s' rs =>
    ds_rep demo_ds s' (d_run inject_Z demo_ops empty_ledger).1 /\ rs = ["1"; "applied"; "deduped"]).
Proof.
  apply (downstream_refines (R:=ref_redis) demo_ds demo_ops (RView ∅ 0) empty_ledger);
    [apply demo_ds_rep | eapply room_le, demo_room; simpl; lia.. | apply map_Forall_empty |].
  repeat (constructor; [reflexivity|]). constructor.
Defined.

Lemma d_step_fence num op l id token :
  op = DBegin id token \/ (exists n, op = DApply id token n) ->
  (num token <= seen_num num (d_step num op l).1 id)%Q.
Proof.
  intros Hop. unfold seen_num.
  assert (forall m, default (-1) (<[id := token]> m !! id) = token) as Hi
    by (intros m; by rewrite lookup_insert_eq).
  assert (d_stale num l id token = true -> (num token <= num (default (-1)%Z (l_fence l !! id)))%Q) as Hs.
  { unfold d_stale, Qlt_bool. intros H%negb_true_iff. apply Qlt_le_weak, Qnot_le_lt. intros Hle%Qle_bool_iff. congruence. }
  destruct Hop as [->|[n ->]]; simpl; destruct (d_stale num l id token) eqn:E; simpl; auto;
    [rewrite Hi; apply Qle_refl|].
  destruct (l_applied l !! id); simpl; rewrite Hi; apply Qle_refl.
Qed.

Section guarantees.
Context {R : Redis} {L : RedisLaws R} (d : downstream).

(** C29: effects happen at most once: over any sequence of executions of the two
    scripts, from an empty keyspace, for any jobs, tokens and retransmissions, at
    most one execution for a job answers "applied", and the effects the keyspace
    counts for a payload are exactly the jobs recorded as applied to it. *)
Theorem effects_at_most_once ops id n s :
  ds_rep d (view s) empty_ledger -> Z.of_nat (length ops) <= max_int64 ->
  Forall (fun op => int64_ok (op_token op)) ops ->
  runs (run_scripts d ops) s (fun s' rs =>
    (length (List.filter (applied_answer id) (zip ops rs)) <= 1)%nat /\
    exists l, ds_rep d (view s') l /\ default 0 (l_effects l !! Itoa n) = Z.of_nat (applied_to l n)).
Proof.
  intros Hrep Hlen Htok.
  assert (room (length ops) (l_outcomes empty_ledger)) as Hroom.
  { intros x. simpl. rewrite lookup_empty. simpl. lia. }
  eapply runs_mono; [by apply (run_scripts_ok d ops s empty_ledger)|]. cbn beta.
  intros s' rs [Hs' ->]. split.
  - pose proof (answers_count lua_num id ops empty_ledger) as H. unfold answers in H. simpl in H.
    rewrite lookup_empty in H.
    destruct (l_applied (d_run lua_num ops empty_ledger).1 !! id); simpl in H; lia.
  - exists (d_run lua_num ops empty_ledger).1. split; [done|]. apply d_run_inv.
    intros m. unfold applied_to. simpl. by rewrite lookup_empty, map_filter_empty.
Qed.

(** Zombies are fenced: once any execution has presented a token for a job,
    then after any further executions a run of that job with a lower token is
    refused by both scripts, and its write changes neither what was applied nor
    the effects. With tokens that order the runs of a job, a superseded run can
    never apply its effect. Lower means lower as a double, which below 2^53 is
    lower. *)
Theorem zombie_fenced ops op l id token old n s :
  op = DBegin id token \/ (exists m, op = DApply id token m) -> (lua_num old < lua_num token)%Q -> int64_ok old ->
  ds_rep d (view s) l -> room (2 + length ops) (l_outcomes l) -> room (2 + length ops) (l_effects l) ->
  Forall (fun op => int64_ok (op_token op)) (op :: ops) ->
  runs (run_scripts d (op :: ops)) s (fun s1 _ =>
    runs (beginScript d id old) s1 (fun _ r => r = 0) /\
    runs (applyScript d id old n) s1 (fun s2 r => r = "fenced" /\
      hash_at (view s2) (ds_applied d) = hash_at (view s1) (ds_applied d) /\
      hash_at (view s2) (ds_effects d) = hash_at (view s1) (ds_effects d))).
Proof.
  intros Hop Hlt Hold Hrep Ho He Htok.
  eapply runs_mono; [apply (run_scripts_ok d (op :: ops) s l Hrep); [by apply room_S.. | done]|].
  cbn beta. intros s1 _ [Hs1 _]. destruct (run_room (op :: ops) 1 l) as [Ho1 He1];
    [eapply room_le; [|eassumption]; simpl; lia..|].
  set (l1 := (d_run lua_num (op :: ops) l).1) in *.
  assert (d_stale lua_num l1 id old = true) as Hs.
  { pose proof (d_step_fence lua_num op l id token Hop) as Hf. unfold l1.
    cbn [d_run]. destruct (d_step lua_num op l) as [l0 r0]. simpl in Hf.
    destruct (d_run_mono lua_num ops l0) as [Hm _]. specialize (Hm id). destruct (d_run lua_num ops l0).
    unfold d_stale, Qlt_bool. apply negb_true_iff. unfold seen_num in *. simpl in *.
    destruct (Qle_bool _ _) eqn:E; [|done]. apply Qle_bool_iff in E. lra. }
  destruct (scripts_step d s1 l1 id old n Hs1) as [Hb Ha]; [by eapply room_counts.. | done|].
  simpl in Hb, Ha. rewrite Hs in Hb, Ha. simpl in Hb, Ha. split.
  - eapply runs_mono; [exact Hb|]. cbn beta. intros _ r [_ Hr]. by apply (Itoa_inj r 0).
  - eapply runs_mono; [exact Ha|]. cbn beta. intros s2 r [Hs2 ->]. split; [done|].
    destruct Hs1 as [_ _ A1 E1 _], Hs2 as [_ _ A2 E2 _]. simpl in A2, E2.
    by rewrite A1, A2, E1, E2.
Qed.
End guarantees.

Lemma effects_at_most_once_witness :
  runs (run_scripts (R:=ref_redis) demo_ds demo_ops) (RView ∅ 0) (fun s' rs =>
    (length (List.filter (applied_answer "a") (zip demo_ops rs)) <= 1)%nat /\
    exists l, ds_rep demo_ds s' l /\ default 0 (l_effects l !! Itoa 7) = Z.of_nat (applied_to l 7)).
Proof.
  apply (effects_at_most_once (R:=ref_redis) demo_ds demo_ops "a" 7 (RView ∅ 0));
    [apply demo_ds_rep | vm_compute; congruence | apply demo_tokens].
Defined.

Lemma zombie_fenced_witness :
  runs (run_scripts (R:=ref_redis) demo_ds demo_ops) (RView ∅ 0) (fun s1 _ =>
    runs (beginScript (R:=ref_redis) demo_ds "a" 3) s1 (fun _ r => r = 0) /\
    runs (applyScript (R:=ref_redis) demo_ds "a" 3 1) s1 (fun s2 r => r = "fenced" /\
      hash_at s2 (ds_applied demo_ds) = hash_at s1 (ds_applied demo_ds) /\
      hash_at s2 (ds_effects demo_ds) = hash_at s1 (ds_effects demo_ds))).
Proof.
  apply (zombie_fenced (R:=ref_redis) demo_ds [DApply "a" 5 7; DApply "a" 5 7] (DBegin "a" 5)
    empty_ledger "a" 5 3 1 (RView ∅ 0));
    [by left | reflexivity | by split | apply demo_ds_rep | eapply room_le, demo_room; simpl; lia.. | apply demo_tokens].
Defined.
