(* ===== verification/Chaos.v ===== *)
(** * The chaos test's jobs, handler and report ([cmd/chaos/main.go])

    The jobs it enqueues, the handler its workers run, as a sequence of sections
    that other runs may interleave with, and the report that judges a run from
    what it left in Redis. *)

From S2P Require Import Prelude GoNum GoTime Errors Job GoJson Json Backend Queue Worker Tasks Downstream.
From Stdlib Require Import Ascii.
From stdpp Require Import strings.

Open Scope Z_scope.

Definition chaos_task : string := "chaos".
Definition chaos_maxAttempts : Z := 8.
Definition permanentEvery : Z := 50.

(** ** Payloads *)

Record payload := mkPayload { pl_N : Z; pl_LatencyMs : Z; pl_Permanent : bool }.

Definition zero_payload : payload := mkPayload 0 0 false.

Definition payload_fields : list (setter payload) :=
  [("n", of_int (fun x p => mkPayload x (pl_LatencyMs p) (pl_Permanent p)));
   ("latency_ms", of_int (fun x p => mkPayload (pl_N p) x (pl_Permanent p)));
   ("permanent", of_bool (fun x p => mkPayload (pl_N p) (pl_LatencyMs p) x))].

Definition marshal_payload (p : payload) : string :=
  json_struct ([("n", JNum (Itoa (pl_N p))); ("latency_ms", JNum (Itoa (pl_LatencyMs p)))] ++
    (if pl_Permanent p then [("permanent", JBool true)] else [])).

Definition unmarshal_payload (s : string) : option payload := json_Unmarshal payload_fields s zero_payload.

(** The payload of job [i]; [r] is [rand.IntN(90)], [visibility] in ns. *)
Definition chaos_payload (visibility r i : Z) : payload :=
  let latency := if Z.rem i 100 =? 1 then wrap64 (2 * Z.quot visibility 1000000) else 10 + r in
  mkPayload i latency (Z.rem i permanentEvery =? 0).

(** ** Enqueueing *)

Section enqueue.
Context {W : Type} {B : Backend W} (visibility : Z).

(** What one iteration takes from its environment: the random latency, the
    environments of the two calls of [Enqueue] and what their spans write. *)
Record iter_env := IterEnv {
  ie_latency : Z;
  ie_rand : list ascii * list ascii;
  ie_now : Z * Z;
  ie_sets : list (string * string) * list (string * string);
}.

Definition chaos_opts (i : Z) : EnqueueOptions := mkEnqueueOptions chaos_maxAttempts 0 ("job-" +:+ Itoa i).

(** One job; every 10th enqueue is sent again and must get the same ID. An
    error ends the program. *)
Definition enqueue_one (e : iter_env) (i : Z) (w : W) : W * result error string :=
  let text := Ok (marshal_payload (chaos_payload visibility (ie_latency e) i)) in
  let '(w1, (_, r)) :=
    queue_Enqueue chaos_task (EnqEnv text (ie_rand e).1 (ie_now e).1) (chaos_opts i) (ie_sets e).1 w in
  match r with
  | Err err => (w1, Err (ErrWrap "enqueue: " err ""))
  | Ok id =>
      if Z.rem i 10 =? 3 then
        let '(w2, (_, r2)) :=
          queue_Enqueue chaos_task (EnqEnv text (ie_rand e).2 (ie_now e).2) (chaos_opts i) (ie_sets e).2 w1 in
        match r2 with
        | Err err => (w2, Err (ErrWrap "enqueue: " err ""))
        | Ok again =>
            if bool_decide (again = id) then (w2, Ok id)
            else (w2, Err (ErrMsg ("retried enqueue of job " +:+ Itoa i +:+ " created a second job (" +:+
                                   id +:+ ", " +:+ again +:+ ")")))
        end
      else (w1, Ok id)
  end.

(** [envs] has one environment per job. *)
Fixpoint enqueue_all (envs : list iter_env) (i : Z) (w : W) : W * result error (list string) :=
  match envs with
  | [] => (w, Ok [])
  | e :: envs' =>
      let '(w1, r) := enqueue_one e i w in
      match r with
      | Err err => (w1, Err err)
      | Ok id =>
          let '(w2, rs) := enqueue_all envs' (i + 1) w1 in
          (w2, match rs with Ok ids => Ok (id :: ids) | Err err => Err err end)
      end
  end.
End enqueue.

(** ** The ledger of runs *)

(** [fmt.Sprintf("%d %d %d %s", ...)]. *)
Definition ledger_entry (n start stop : Z) (worker : string) : string :=
  Itoa n +:+ " " +:+ Itoa start +:+ " " +:+ Itoa stop +:+ " " +:+ worker.

(** White space of [fmt.Sscanf] in ASCII, less the newline. *)
Definition scan_space (c : ascii) : bool :=
  let n := N_of_ascii c in ((n =? 32) || (n =? 9) || (n =? 11) || (n =? 12) || (n =? 13))%N.

Fixpoint skip_space (s : string) : string :=
  match s with String c r => if scan_space c then skip_space r else s | "" => "" end.

(** [%d]: leading space, a sign, digits, in the range of [int64]. *)
Definition scan_int (s : string) : option (Z * string) :=
  let '(sign, r) :=
    match skip_space s with
    | String "-" r => ("-", r)
    | String "+" r => ("", r)
    | r => ("", r)
    end in
  match digits1 r with
  | Some (d, rest) => match Atoi (sign +:+ d) with Some z => Some (z, rest) | None => None end
  | None => None
  end.

(** A space of the format: some space, or the end of the input. *)
Definition scan_gap (s : string) : option string :=
  match s with
  | "" => Some ""
  | String c _ => if scan_space c then Some (skip_space s) else None
  end.

(** [%s]: leading space, then up to the next space; not empty. *)
Fixpoint span_word (s : string) : string * string :=
  match s with
  | String c r =>
      if scan_space c || bool_decide (c = "010"%char) then ("", s)
      else let '(w, t) := span_word r in (String c w, t)
  | "" => ("", "")
  end.

Definition scan_word (s : string) : option string :=
  match (span_word (skip_space s)).1 with "" => None | w => Some w end.

(** [fmt.Sscanf(line, "%d %d %d %s", ...)]; what follows the word is left. *)
Definition scan_entry (line : string) : option (Z * (Z * Z) * string) :=
  match scan_int line with
  | Some (n, r1) =>
      match scan_gap r1 ≫= scan_int with
      | Some (start, r2) =>
          match scan_gap r2 ≫= scan_int with
          | Some (stop, r3) =>
              match scan_gap r3 ≫= scan_word with
              | Some w => Some (n, (start, stop), w)
              | None => None
              end
          | None => None
          end
      | None => None
      end
  | None => None
  end.

(** ** The handler *)

(** What it shares with the other runs: the downstream system, by its abstract
    ledger, and the list of runs. *)
Record cworld := CWorld { cw_ds : ledger; cw_lines : list string }.

Inductive pc :=
  | AtBegin
  | AtWait
  | AtLedger
  | AtApply
  | Ended (res : JobResult).

Record run := Run { r_job : Job; r_payload : payload; r_start : Z; r_worker : string; r_pc : pc }.

Definition at_pc (r : run) (p : pc) : run := Run (r_job r) (r_payload r) (r_start r) (r_worker r) p.

(** What a section takes from its environment: how often the client executed
    its call, whether the answer was lost, the context, the random failure and
    the clock. *)
Record choice := Choice {
  ch_more : nat;              (* executions: one more than this with an answer *)
  ch_lost : option error;     (* no answer after [ch_more] executions *)
  ch_cancelled : option error;
  ch_fails : bool;
  ch_now : Z;
}.

Section call.
Context {S A : Type}.

Fixpoint exec_times (n : nat) (exec : S -> S * A) (s : S) : S :=
  match n with O => s | Datatypes.S n' => exec_times n' exec (exec s).1 end.

(** A call over the network. *)
Definition net_call (c : choice) (exec : S -> S * A) (s : S) : S * result error A :=
  let s' := exec_times (ch_more c) exec s in
  match ch_lost c with
  | Some e => (s', Err e)
  | None => let '(s'', a) := exec s' in (s'', Ok a)
  end.
End call.

Definition superseded_error (ok : string) (e : option error) : error :=
  ErrMsg ("superseded run (ok=" +:+ ok +:+ "): " +:+ match e with Some e => error_string e | None => "<nil>" end).

(** Up to the first section: decoding the payload. *)
Definition start_run (json_error : string -> error) (job : Job) (now : Z) (worker : string) : run :=
  match unmarshal_payload (Payload job) with
  | None => Run job zero_payload now worker (Ended (NewPermanentError (json_error (Payload job))))
  | Some p => Run job p now worker AtBegin
  end.

Definition handler_section (c : choice) (r : run) (w : cworld) : cworld * run :=
  let job := r_job r in
  let p := r_payload r in
  match r_pc r with
  | AtBegin =>
      let '(ds, ans) := net_call c (d_step lua_num (DBegin (ID job) (FencingToken job))) (cw_ds w) in
      (CWorld ds (cw_lines w), at_pc r (
        match ans with
        | Err e => Ended (NewRetryableError (superseded_error "false" (Some e)))
        | Ok a => if bool_decide (a = "1") then AtWait
                  else Ended (NewRetryableError (superseded_error "false" None))
        end))
  | AtWait =>
      (w, at_pc r (
        match ch_cancelled c with
        | Some e => Ended (NewRetryableError e)
        | None =>
            if pl_Permanent p then Ended (NewPermanentError (ErrMsg "permanent failure (chaos)"))
            else if ch_fails c then Ended (NewRetryableError (ErrMsg "transient failure (chaos)"))
            else AtLedger
        end))
  | AtLedger =>
      let entry := ledger_entry (pl_N p) (r_start r) (ch_now c) (r_worker r) in
      let '(lines, ans) := net_call c (fun ls => (ls ++ [entry], tt)) (cw_lines w) in
      (CWorld (cw_ds w) lines, at_pc r (
        match ans with Err e => Ended (NewRetryableError e) | Ok _ => AtApply end))
  | AtApply =>
      let '(ds, ans) := net_call c (d_step lua_num (DApply (ID job) (FencingToken job) (pl_N p))) (cw_ds w) in
      (CWorld ds (cw_lines w), at_pc r (
        match ans with
        | Err e => Ended (NewRetryableError e)
        | Ok a => if bool_decide (a = "fenced")
                  then Ended (NewRetryableError (ErrMsg "side effect rejected: superseded run"))
                  else Ended (mkJobResult false None)
        end))
  | Ended _ => (w, r)
  end.

(** ** The report *)

Abbreviation execution := (Z * Z)%type.

(** What the report reads: the ledger, the dead letters of all partitions, the
    effects (in the order the map is walked), the stats and the workers that
    exited without being killed. *)
Record report_in := ReportIn {
  ri_jobs : Z;
  ri_ledger : list string;
  ri_dead : list (gmap string string);
  ri_effects : list (string * string);
  ri_stats : result error (Z * Z * Z);   (* stream length, in flight, scheduled *)
  ri_crashed : nat;
}.

(** A line that cannot be read ends the program ([None]). *)
Fixpoint read_ledger (lines : list string) (m : gmap Z (list execution)) : option (gmap Z (list execution)) :=
  match lines with
  | [] => Some m
  | line :: lines' =>
      match scan_entry line with
      | Some (n, e, _) => read_ledger lines' (<[n := default [] (m !! n) ++ [e]]> m)
      | None => None
      end
  end.

Fixpoint read_dead (msgs : list (gmap string string)) (m : gmap Z string) : option (gmap Z string) :=
  match msgs with
  | [] => Some m
  | v :: msgs' =>
      match unmarshal_payload (default "" (v !! "payload")) with
      | Some p => read_dead msgs' (<[pl_N p := default "" (v !! "reason")]> m)
      | None => None
      end
  end.

(** [strconv.Atoi] with its error dropped: 0, or the end of the range. *)
Definition Atoi_value (s : string) : Z :=
  let parsed :=
    match s with
    | String "+"%char rest => Z.of_uint <$> DecimalString.NilZero.uint_of_string rest
    | _ => Z.of_int <$> DecimalString.NilZero.int_of_string s
    end in
  match parsed with Some z => Z.max min_int64 (Z.min max_int64 z) | None => 0 end.

Definition read_effects (raw : list (string * string)) : gmap Z Z :=
  foldl (fun m kv => <[Atoi_value kv.1 := Atoi_value kv.2]> m) ∅ raw.

(** [slices.SortFunc] by start. *)
Definition exec_le (a b : execution) : Prop := wrap64 (a.1 - b.1) <= 0.
#[export] Instance exec_le_dec : RelDecision exec_le.
Proof. intros a b. unfold exec_le. apply _. Defined.

(** Whether a run starts before the one before it has ended. *)
Fixpoint overlaps (execs : list execution) : bool :=
  match execs with
  | a :: (b :: _) as r => (b.1 <? a.2) || overlaps r
  | _ => false
  end.

Record tally := Tally {
  t_completed : Z;
  t_deadExpected : Z;
  t_duplicates : Z;
  t_overlapping : Z;
  t_lost : list Z;
  t_misrouted : list Z;
  t_otherDead : gmap string Z;
}.

Definition zero_tally : tally := Tally 0 0 0 0 [] [] ∅.

(** The runs of a job that is neither permanent nor lost. *)
Definition count_runs (execs : list execution) (t : tally) : tally :=
  if (0 <? length execs)%nat then
    Tally (t_completed t + 1) (t_deadExpected t) (t_duplicates t + (Z.of_nat (length execs) - 1))
      (t_overlapping t + (if overlaps (merge_sort exec_le execs) then 1 else 0))
      (t_lost t) (t_misrouted t) (t_otherDead t)
  else t.

Definition count_job (executions : gmap Z (list execution)) (dead : gmap Z string) (t : tally) (id : Z) : tally :=
  let execs := default [] (executions !! id) in
  let isDead := bool_decide (is_Some (dead !! id)) in
  if Z.rem id permanentEvery =? 0 then
    if negb isDead || (0 <? length execs)%nat then
      Tally (t_completed t) (t_deadExpected t) (t_duplicates t) (t_overlapping t) (t_lost t)
        (t_misrouted t ++ [id]) (t_otherDead t)
    else
      Tally (t_completed t) (t_deadExpected t + 1) (t_duplicates t) (t_overlapping t) (t_lost t)
        (t_misrouted t) (t_otherDead t)
  else if (length execs =? 0)%nat && negb isDead then
    Tally (t_completed t) (t_deadExpected t) (t_duplicates t) (t_overlapping t) (t_lost t ++ [id])
      (t_misrouted t) (t_otherDead t)
  else if isDead then
    let reason := default "" (dead !! id) in
    count_runs execs (Tally (t_completed t) (t_deadExpected t) (t_duplicates t) (t_overlapping t)
      (t_lost t) (t_misrouted t) (<[reason := default 0 (t_otherDead t !! reason) + 1]> (t_otherDead t)))
  else count_runs execs t.

Definition job_ids (jobs : Z) : list Z := Z.of_nat <$> seq 0 (Z.to_nat jobs).

Definition duplicateEffects (jobs : Z) (effects : gmap Z Z) : list Z :=
  filter (fun id => 1 < default 0 (effects !! id)) (job_ids jobs).

Definition missingEffects (jobs : Z) (effects : gmap Z Z) (dead : gmap Z string) : list Z :=
  filter (fun id => default 0 (effects !! id) = 0 /\ dead !! id = None) (job_ids jobs).

Definition leftover (r : report_in) : Z :=
  match ri_stats r with Ok (a, b, c) => wrap64 (a + b + c) | Err _ => 0 end.

Record report_out := ReportOut {
  ro_tally : tally;
  ro_duplicateEffects : list Z;
  ro_missingEffects : list Z;
  ro_leftover : Z;
  ro_exit : Z;
}.

(** [None]: the report could not be made and the program ends with an error. *)
Definition report (r : report_in) : option report_out :=
  match read_ledger (ri_ledger r) ∅, read_dead (ri_dead r) ∅ with
  | Some executions, Some dead =>
      let t := foldl (count_job executions dead) zero_tally (job_ids (ri_jobs r)) in
      let effects := read_effects (ri_effects r) in
      let dup := duplicateEffects (ri_jobs r) effects in
      let missing := missingEffects (ri_jobs r) effects dead in
      let fail := (0 <? length (t_lost t))%nat || (0 <? length (t_misrouted t))%nat || (0 <? leftover r) ||
        (0 <? ri_crashed r)%nat || (0 <? length dup)%nat || (0 <? length missing)%nat in
      Some (ReportOut t dup missing (leftover r) (if fail then 1 else 0))
  | _, _ => None
  end.

(** The number the report gives of enqueues that were sent twice. *)
Definition retried_enqueues (jobs : Z) : Z := Z.quot (jobs + 6) 10.
