(* ===== verification/ChaosReport.v ===== *)
(** * What the chaos test's report says

    The ledger lines round-trip, the counts are exact, overlapping runs are found,
    and the verdict is the conjunction of the guarantees under test. *)

From S2P Require Import Prelude GoNum GoTime Errors Job GoJson Json Backend Queue Worker Tasks Downstream.
From S2P Require Import Chaos.
From Stdlib Require Import Ascii String DecimalString.
From stdpp Require Import strings sorting.

Open Scope Z_scope.

(** ** Round trips *)

Lemma payload_roundtrip p :
  int64_ok (pl_N p) -> int64_ok (pl_LatencyMs p) -> unmarshal_payload (marshal_payload p) = Some p.
Proof.
  intros H1 H2. unfold unmarshal_payload, marshal_payload. rewrite json_Unmarshal_struct.
  - destruct p as [n ms perm]. simpl in *.
    pose proof (Atoi_Itoa n H1) as E1. pose proof (Atoi_Itoa ms H2) as E2.
    destruct perm; cbv -[Atoi Itoa]; rewrite E1, E2; reflexivity.
  - destruct p as [n ms []]; repeat constructor; done.
Qed.

(** Text that ends a number or a word. *)
Definition gap (t : string) : Prop := exists r, t = String " " r.

Lemma span_digits_gap d t : gap t -> span_digits (NilEmpty.string_of_uint d +:+ t) = (NilEmpty.string_of_uint d, t).
Proof.
  intros (r & ->). induction d; cbn [NilEmpty.string_of_uint]; rewrite ?str_app_cons, ?str_app_nil_l;
    [done | cbn [span_digits]; rewrite IHd; reflexivity..].
Qed.

Lemma digits1_uint d t : d <> Decimal.Nil -> gap t ->
  digits1 (NilZero.string_of_uint d +:+ t) = Some (NilZero.string_of_uint d, t).
Proof.
  intros Hd Ht. unfold digits1. pose proof (span_digits_gap d t Ht) as E.
  destruct d; [done|..]; cbn [NilZero.string_of_uint NilEmpty.string_of_uint] in *; rewrite E; reflexivity.
Qed.

(** A number that starts with a digit. *)
Lemma scan_int_digits s t z : 
  (exists c r, s = String c r /\ is_digit c = true) -> Atoi s = Some z ->
  digits1 (s +:+ t) = Some (s, t) -> scan_int (s +:+ t) = Some (z, t).
Proof.
  intros (c & r & -> & Hc) Ha Hd. unfold scan_int. rewrite str_app_cons in *.
  assert (match skip_space (String c (r +:+ t)) with
    | String "-" r' => ("-", r') | String "+" r' => ("", r') | r' => ("", r') end = ("", String c (r +:+ t))) as ->
    by (by destruct c as [[] [] [] [] [] [] [] []]).
  rewrite Hd, str_app_nil_l. by rewrite Ha.
Qed.

Lemma scan_int_Itoa z t : int64_ok z -> gap t -> scan_int (Itoa z +:+ t) = Some (z, t).
Proof.
  intros Hz Ht. pose proof (Atoi_Itoa z Hz) as Ha. unfold Itoa in *.
  destruct z as [|p|p]; simpl Z.to_int in *; cbn [NilZero.string_of_int] in *.
  - apply scan_int_digits; [eexists _, _; split; reflexivity | done | by apply (digits1_uint (Decimal.D0 Decimal.Nil))].
  - apply scan_int_digits; [|done | by apply digits1_uint, Ht; apply to_uint_not_nil].
    destruct (Pos.to_uint p); eexists _, _; (split; [reflexivity | done]).
  - rewrite str_app_cons. unfold scan_int. cbn [skip_space].
    change (scan_space "-") with false. cbn iota.
    rewrite digits1_uint by (done || apply to_uint_not_nil).
    change ("-" +:+ NilZero.string_of_uint (Pos.to_uint p)) with (String "-" (NilZero.string_of_uint (Pos.to_uint p))).
    by rewrite Ha.
Qed.

(** A worker ID: not empty, no white space. *)
Fixpoint word (s : string) : bool :=
  match s with
  | "" => true
  | String c r => negb (scan_space c) && negb (bool_decide (c = "010"%char)) && word r
  end.

Lemma span_word_word w : word w = true -> span_word w = (w, "").
Proof.
  induction w as [|c w IH]; [done|]. cbn [word span_word]. intros H.
  apply andb_true_iff in H as [[H1 H2]%andb_true_iff H3].
  apply negb_true_iff in H1, H2. by rewrite H1, H2, IH.
Qed.

Lemma scan_word_word w : word w = true -> w <> "" -> scan_word w = Some w.
Proof.
  intros H Hne. unfold scan_word.
  assert (skip_space w = w) as ->.
  { destruct w as [|c w]; [done|]. cbn in H |- *. by destruct (scan_space c). }
  rewrite span_word_word by done. by destruct w.
Qed.

Lemma Itoa_gap z t : skip_space (Itoa z +:+ t) = Itoa z +:+ t.
Proof.
  destruct (Itoa_head z) as (c & r & -> & [-> | Hc]); [done|].
  rewrite str_app_cons. by destruct c as [[] [] [] [] [] [] [] []].
Qed.

Lemma scan_gap_Itoa z t : scan_gap (String " " (Itoa z +:+ t)) = Some (Itoa z +:+ t).
Proof. cbn -[skip_space]. f_equal. cbn [skip_space]. change (scan_space " ") with true. apply Itoa_gap. Qed.

(** The report reads back every line a handler writes: the payload number, the
    start and the end of the run, and the worker. *)
Lemma ledger_roundtrip n start stop worker :
  int64_ok n -> int64_ok start -> int64_ok stop -> word worker = true -> worker <> "" ->
  scan_entry (ledger_entry n start stop worker) = Some (n, (start, stop), worker).
Proof.
  intros Hn Hs He Hw Hne. unfold scan_entry, ledger_entry. rewrite !str_app_cons, !str_app_nil_l.
  rewrite scan_int_Itoa by (done || by eexists). rewrite scan_gap_Itoa. cbn [mbind option_bind].
  rewrite scan_int_Itoa by (done || by eexists). rewrite scan_gap_Itoa. cbn [mbind option_bind].
  rewrite scan_int_Itoa by (done || by eexists).
  assert (scan_gap (String " " worker) = Some worker) as ->.
  { cbn -[skip_space]. f_equal. cbn [skip_space]. change (scan_space " ") with true. cbn iota.
    destruct worker as [|c w]; [done|]. cbn in Hw |- *. by destruct (scan_space c). }
  cbn [mbind option_bind]. by rewrite scan_word_word.
Qed.

(** ** Overlapping runs *)

(** The runs share some time. *)
Definition meets (a b : execution) : Prop := a.1 < b.2 /\ b.1 < a.2.

(** Times of a run, in microseconds. *)
Definition run_times (e : execution) : Prop := 0 <= e.1 /\ e.1 < e.2 /\ e.2 < 2 ^ 62.

Definition start_le (a b : execution) : Prop := a.1 <= b.1.

#[local] Instance start_le_trans : Transitive start_le.
Proof. unfold start_le. intros a b c. lia. Qed.

#[local] Instance exec_le_total : Total exec_le.
Proof.
  intros a b. unfold exec_le, wrap64. replace (b.1 - a.1) with (- (a.1 - b.1)) by lia.
  generalize (a.1 - b.1). intros z. 
  destruct (decide ((z + 2 ^ 63) mod 2 ^ 64 - 2 ^ 63 <= 0)) as [H|H]; [by left|right].
  pose proof (Z.mod_pos_bound (z + 2 ^ 63) (2 ^ 64)). pose proof (Z.mod_pos_bound (- z + 2 ^ 63) (2 ^ 64)).
  pose proof (Z.div_mod (z + 2 ^ 63) (2 ^ 64)). pose proof (Z.div_mod (- z + 2 ^ 63) (2 ^ 64)). lia.
Qed.

Lemma exec_le_start a b : run_times a -> run_times b -> exec_le a b -> start_le a b.
Proof.
  unfold run_times, exec_le, start_le. intros Ha Hb H.
  rewrite wrap64_id in H; [lia|]. unfold int64_ok, min_int64, max_int64. lia.
Qed.

Lemma sorted_starts l : Forall run_times l -> StronglySorted start_le (merge_sort exec_le l).
Proof.
  intros Hl. apply Sorted_StronglySorted; [exact _|].
  assert (Forall run_times (merge_sort exec_le l)) as Hm by (by rewrite merge_sort_Permutation).
  pose proof (Sorted_merge_sort exec_le l) as Hs. revert Hm Hs.
  generalize (merge_sort exec_le l). clear l Hl. intros l Hl Hs. induction Hs as [|a l Hs IH Hr]; [constructor|].
  apply Forall_cons in Hl as [Ha Hl]. constructor; [by apply IH|].
  destruct Hr as [|b l Hr]; constructor. apply Forall_cons in Hl as [Hb _]. by apply exec_le_start.
Qed.

Lemma overlaps_found l :
  StronglySorted start_le l -> Forall run_times l -> overlaps l = true ->
  exists a b rest, l ≡ₚ a :: b :: rest /\ meets a b.
Proof.
  induction l as [|a l IH]; [done|]. intros [Hs Ha]%StronglySorted_inv [Hta Hl]%Forall_cons.
  destruct l as [|b l]; [done|]. cbn [overlaps]. intros [H|H]%orb_true_iff.
  - apply Z.ltb_lt in H. exists a, b, l. split; [done|].
    apply Forall_cons in Ha as [Hab _], Hl as [Htb _]. unfold meets, start_le, run_times in *. lia.
  - destruct (IH Hs Hl H) as (x & y & rest & Hp & Hm). exists x, y, (a :: rest). split; [|done].
    rewrite Hp. by rewrite (Permutation_swap x a), (Permutation_swap y a).
Qed.

Lemma overlaps_missed l :
  StronglySorted start_le l -> overlaps l = false -> ForallOrdPairs (fun a b => ~ meets a b) l.
Proof.
  induction l as [|a l IH]; [constructor|]. intros [Hs Ha]%StronglySorted_inv H.
  destruct l as [|b l]; [repeat constructor|]. cbn [overlaps] in H.
  apply orb_false_iff in H as [H1 H2]. apply Z.ltb_ge in H1. constructor; [|by apply IH].
  apply StronglySorted_inv in Hs as [_ Hb]. constructor; [unfold meets; lia|].
  eapply Forall_impl; [exact Hb|]. unfold start_le, meets. lia.
Qed.

Lemma ForallOrdPairs_perm {A} (P : A -> A -> Prop) l l' :
  (forall a b, P a b -> P b a) -> l ≡ₚ l' -> ForallOrdPairs P l -> ForallOrdPairs P l'.
Proof.
  intros Hsym. induction 1 as [|x l l' Hp IH|x y l|]; [done|..|by auto].
  - inversion 1; subst. constructor; [by rewrite <- Hp | by apply IH].
  - inversion 1 as [|? ? Hy H']; subst. inversion H' as [|? ? Hx Hl]; subst.
    apply Forall_cons in Hy as [Hyx Hy]. constructor; [constructor; [by apply Hsym | done] | by constructor].
Qed.

(** The report counts a job as overlapping exactly when two of its runs
    share some time, although after sorting it compares only neighbours. *)
Theorem overlap_exact l :
  Forall run_times l ->
  overlaps (merge_sort exec_le l) = true <-> exists a b rest, l ≡ₚ a :: b :: rest /\ meets a b.
Proof.
  intros Hl. pose proof (sorted_starts l Hl) as Hs.
  pose proof (merge_sort_Permutation exec_le l) as Hp. split.
  - intros H. destruct (overlaps_found _ Hs ltac:(by rewrite Hp) H) as (a & b & rest & Hp' & Hm).
    exists a, b, rest. by rewrite <- Hp, Hp'.
  - intros (a & b & rest & Hp' & Hm). destruct (overlaps _) eqn:E; [done|].
    apply overlaps_missed in E; [|done].
    eapply ForallOrdPairs_perm in E; [|unfold meets; intuition | by rewrite Hp; exact Hp'].
    inversion E as [|? ? Ha _]; subst. by apply Forall_cons in Ha as [Hn _].
Qed.

Lemma overlap_exact_witness :
  overlaps (merge_sort exec_le [(10, 30); (1, 5); (20, 40)]) = true <->
  exists a b rest, [(10, 30); (1, 5); (20, 40)] ≡ₚ a :: b :: rest /\ meets a b.
Proof. apply overlap_exact. repeat constructor; simpl; lia. Defined.

(** ** The counts *)

Section counts.
Context (executions : gmap Z (list execution)) (dead : gmap Z string).

Definition runs_of (id : Z) : list execution := default [] (executions !! id).
Definition permanent (id : Z) : Prop := Z.rem id permanentEvery = 0.

(** A permanent job that was not dead-lettered, or that ran to its effect. *)
Definition misrouted (id : Z) : Prop := permanent id /\ (dead !! id = None \/ runs_of id <> []).
(** Another job of which there is no trace. *)
Definition lost (id : Z) : Prop := ~ permanent id /\ runs_of id = [] /\ dead !! id = None.
Definition completed (id : Z) : Prop := ~ permanent id /\ runs_of id <> [].

#[export] Instance permanent_dec id : Decision (permanent id).
Proof. unfold permanent. apply _. Defined.
#[export] Instance nonempty_dec {A} (l : list A) : Decision (l <> []).
Proof. destruct l; [right | left]; congruence. Defined.
#[export] Instance misrouted_dec id : Decision (misrouted id).
Proof. unfold misrouted. apply _. Defined.
#[export] Instance lost_dec id : Decision (lost id).
Proof. unfold lost. destruct (runs_of id); apply _. Defined.
#[export] Instance completed_dec id : Decision (completed id).
Proof. unfold completed. apply _. Defined.

Definition one {P : Prop} (d : Decision P) : Z := if d then 1 else 0.

Lemma count_job_lists t id : let t' := count_job executions dead t id in
  t_lost t' = t_lost t ++ (if decide (lost id) then [id] else []) /\
  t_misrouted t' = t_misrouted t ++ (if decide (misrouted id) then [id] else []) /\
  t_completed t' = t_completed t + one (decide (completed id)) /\
  t_deadExpected t' = t_deadExpected t + one (decide (permanent id /\ ~ misrouted id)) /\
  t_duplicates t' = t_duplicates t +
    (if decide (completed id) then Z.of_nat (length (runs_of id)) - 1 else 0).
Proof.
  unfold count_job, count_runs, one. fold (runs_of id).
  destruct (decide (lost id)) as [H1|H1], (decide (misrouted id)) as [H2|H2],
    (decide (completed id)) as [H3|H3], (decide (permanent id /\ ~ misrouted id)) as [H4|H4];
    unfold lost, completed in *; unfold misrouted in H2, H4;
    destruct (Z.eqb_spec (Z.rem id permanentEvery) 0) as [Hp|Hp]; fold (permanent id) in Hp;
    destruct (dead !! id) as [x|] eqn:Hd; destruct (runs_of id) as [|e es] eqn:He;
    rewrite ?(bool_decide_eq_true_2 (is_Some (Some _))), ?(bool_decide_eq_false_2 (is_Some None))
      by (eauto || intros [? [=]]);
    cbn; rewrite ?app_nil_r, ?Z.add_0_r; try (intuition congruence).
Qed.

Definition count (P : Z -> Prop) `{!forall x, Decision (P x)} (ids : list Z) : Z :=
  Z.of_nat (length (filter P ids)).

Lemma tally_counts ids : forall t, let t' := foldl (count_job executions dead) t ids in
  t_lost t' = t_lost t ++ filter lost ids /\
  t_misrouted t' = t_misrouted t ++ filter misrouted ids /\
  t_completed t' = t_completed t + count completed ids /\
  t_deadExpected t' = t_deadExpected t + count (fun id => permanent id /\ ~ misrouted id) ids /\
  t_duplicates t' = t_duplicates t +
    (Z.of_nat (length (filter completed ids ≫= runs_of)) - count completed ids).
Proof.
  unfold count. induction ids as [|id ids IH]; intros t; cbv zeta; cbn [foldl].
  { rewrite !filter_nil. simpl. rewrite !app_nil_r. split_and!; try done; lia. }
  destruct (count_job_lists t id) as (H1 & H2 & H3 & H4 & H5).
  destruct (IH (count_job executions dead t id)) as (G1 & G2 & G3 & G4 & G5).
  rewrite G1, G2, G3, G4, G5, H1, H2, H3, H4, H5. rewrite !filter_cons. unfold one.
  clear. split_and!.
  - case_decide; by rewrite <- app_assoc.
  - case_decide; by rewrite <- app_assoc.
  - case_decide; cbn [length]; lia.
  - case_decide; cbn [length]; lia.
  - case_decide; cbn [mbind list_bind length]; rewrite ?length_app; lia.
Qed.
End counts.

(** ** The verdict *)

Lemma job_ids_elem jobs id : id ∈ job_ids jobs <-> 0 <= id < jobs.
Proof.
  unfold job_ids. rewrite list_elem_of_fmap. split.
  - intros (n & -> & Hn%elem_of_seq). lia.
  - intros Hid. exists (Z.to_nat id). rewrite elem_of_seq. lia.
Qed.

Lemma filter_none {A} (P : A -> Prop) `{!forall x, Decision (P x)} (l : list A) :
  (0 <? length (filter P l))%nat = false <-> forall x, x ∈ l -> ~ P x.
Proof.
  rewrite Nat.ltb_ge. split.
  - intros Hl x Hx HP. assert (x ∈ filter P l) as Hf by by apply list_elem_of_filter.
    destruct (filter P l); [by apply not_elem_of_nil in Hf | simpl in Hl; lia].
  - intros Hl. destruct (filter P l) as [|x l'] eqn:E; [done|].
    assert (x ∈ filter P l) as [HP Hx]%list_elem_of_filter by (rewrite E; left). by destruct (Hl x).
Qed.

(** What is checked of one job: permanent failures are dead-lettered and never
    complete; the others complete or are dead-lettered; an effect is applied at
    most once, and once unless the job was dead-lettered. *)
Definition job_verdict (executions : gmap Z (list execution)) (dead : gmap Z string) (effects : gmap Z Z)
    (id : Z) : Prop :=
  (permanent id -> is_Some (dead !! id) /\ runs_of executions id = []) /\
  (~ permanent id -> runs_of executions id <> [] \/ is_Some (dead !! id)) /\
  default 0 (effects !! id) <= 1 /\
  (default 0 (effects !! id) = 0 -> is_Some (dead !! id)).

Lemma job_verdict_alt executions dead effects id :
  job_verdict executions dead effects id <->
  ~ lost executions dead id /\ ~ misrouted executions dead id /\
  ~ 1 < default 0 (effects !! id) /\ ~ (default 0 (effects !! id) = 0 /\ dead !! id = None).
Proof.
  unfold job_verdict, lost, misrouted. rewrite <- not_eq_None_Some.
  destruct (decide (dead !! id = None)) as [Hd|Hd], (decide (permanent id)) as [Hp|Hp],
    (runs_of executions id) as [|e es]; intuition (try congruence; try lia).
Qed.

Lemma report_exit r executions dead :
  read_ledger (ri_ledger r) ∅ = Some executions -> read_dead (ri_dead r) ∅ = Some dead ->
  exists out, report r = Some out /\
    ro_tally out = foldl (count_job executions dead) zero_tally (job_ids (ri_jobs r)) /\
    (ro_exit out = 0 \/ ro_exit out = 1) /\
    (ro_exit out = 0 <->
      (forall id, 0 <= id < ri_jobs r -> job_verdict executions dead (read_effects (ri_effects r)) id) /\
      leftover r <= 0 /\ ri_crashed r = O).
Proof.
  intros H1 H2. unfold report. rewrite H1, H2. eexists. split; [reflexivity|]. simpl.
  split; [done|]. split; [destruct (_ || _); auto|].
  destruct (tally_counts executions dead (job_ids (ri_jobs r)) zero_tally) as (-> & -> & _).
  match goal with |- (if ?b then 1 else 0) = 0 <-> _ => transitivity (b = false); [by destruct b|] end.
  rewrite !orb_false_iff. cbn [t_lost t_misrouted zero_tally app]. unfold duplicateEffects, missingEffects.
  rewrite !filter_none, Z.ltb_ge, Nat.ltb_ge, Nat.le_0_r.
  setoid_rewrite job_verdict_alt. setoid_rewrite job_ids_elem. split.
  - intros (((((G1 & G2) & G3) & G4) & G5) & G6). split_and!; [|done|done]. intros id Hid. auto.
  - intros (G & G3 & G4). split_and!; try done; intros id Hid; by apply G.
Qed.

(** The report passes exactly when every job meets its guarantee, nothing
    is left in the queue and no worker crashed; the lost and misrouted jobs, the
    completed ones and the runs beyond one per completed job are counted exactly. *)
Theorem report_verdict r executions dead :
  read_ledger (ri_ledger r) ∅ = Some executions -> read_dead (ri_dead r) ∅ = Some dead ->
  let ids := job_ids (ri_jobs r) in
  exists out, report r = Some out /\
    (ro_exit out = 0 <->
      (forall id, 0 <= id < ri_jobs r -> job_verdict executions dead (read_effects (ri_effects r)) id) /\
      leftover r <= 0 /\ ri_crashed r = O) /\
    t_lost (ro_tally out) = filter (lost executions dead) ids /\
    t_misrouted (ro_tally out) = filter (misrouted executions dead) ids /\
    t_completed (ro_tally out) = count (completed executions) ids /\
    t_duplicates (ro_tally out) =
      Z.of_nat (length (filter (completed executions) ids ≫= runs_of executions)) - count (completed executions) ids.
Proof.
  intros H1 H2 ids. destruct (report_exit r executions dead H1 H2) as (out & E & Et & _ & Hiff).
  destruct (tally_counts executions dead ids zero_tally) as (T1 & T2 & T3 & _ & T5).
  exists out. rewrite Et. fold ids. by rewrite T1, T2, T3, T5.
Qed.

(** The error of [Stats] is dropped: when it fails, nothing counts as left. *)
Example stats_error_passes e :
  ro_exit <$> report (ReportIn 0 [] [] [] (Err e) 0) = Some 0.
Proof. reflexivity. Qed.

(** A job that ran to its ledger entry counts as completed although its effect
    never landed, if it was dead-lettered later. *)
Example completed_without_effect :
  let dead := <["payload" := marshal_payload (mkPayload 1 10 false)]> (<["reason" := "poison"]> ∅) in
  let dead0 := <["payload" := marshal_payload (mkPayload 0 10 true)]> (<["reason" := "permanent"]> ∅) in
  (fun out => (ro_exit out, t_completed (ro_tally out))) <$>
    report (ReportIn 2 [ledger_entry 1 5 6 "w"] [dead0; dead] [] (Ok (0, 0, 0)) 0) = Some (0, 1).
Proof. vm_compute. reflexivity. Qed.

(** The number of retried enqueues reported is the number sent. *)
Lemma retried_enqueues_exact n :
  retried_enqueues (Z.of_nat n) =
  Z.of_nat (length (filter (fun i => Z.rem i 10 = 3) (job_ids (Z.of_nat n)))).
Proof.
  unfold retried_enqueues, job_ids. rewrite Nat2Z.id.
  induction n as [|n IH]; [done|]. rewrite seq_S, fmap_app, filter_app, length_app, Nat2Z.inj_add, <- IH.
  clear IH. cbn [fmap list_fmap Nat.add filter list_filter].
  case_decide; cbn [length]; Z.to_euclidean_division_equations; lia.
Qed.

(** ** Witnesses *)

(** Two jobs: the first fails for good, the second ran twice. *)
Definition demo_report : report_in :=
  ReportIn 2 [ledger_entry 1 5 9 "chaos-worker-1"; ledger_entry 1 7 12 "chaos-worker-2"]
    [<["payload" := marshal_payload (mkPayload 0 10 true)]> (<["reason" := "permanent failure (chaos)"]> ∅)]
    [("1", "1")] (Ok (0, 0, 0)) 0.

Lemma report_verdict_witness :
  exists out, report demo_report = Some out /\
    (ro_exit out = 0 <->
      (forall id, 0 <= id < 2 ->
        job_verdict {[ 1 := [(5, 9); (7, 12)] ]} {[ 0 := "permanent failure (chaos)" ]}
          (read_effects [("1", "1")]) id) /\
      leftover demo_report <= 0 /\ ri_crashed demo_report = O) /\
    t_lost (ro_tally out) = [] /\ t_misrouted (ro_tally out) = [] /\
    t_completed (ro_tally out) = 1 /\ t_duplicates (ro_tally out) = 1.
Proof.
  destruct (report_verdict demo_report {[ 1 := [(5, 9); (7, 12)] ]} {[ 0 := "permanent failure (chaos)" ]})
    as (out & E & Hiff & T1 & T2 & T3 & T4); [vm_compute; reflexivity.. |].
  exists out. split; [exact E|]. split; [exact Hiff|]. rewrite T1, T2, T3, T4. vm_compute. by repeat split.
Defined.
