(* ===== verification/ChaosRun.v ===== *)
(** * Runs of the chaos test

    Any number of handler runs interleaved, killed at any point and redelivered
    with any fencing token. Whatever happens, a settled run of the queue makes the
    report pass: the test raises no false alarm. *)

From S2P Require Import Prelude GoNum GoTime Errors Job GoJson Json Backend Queue Worker Tasks Downstream.
From S2P Require Import Chaos ChaosReport.
From Stdlib Require Import Ascii String DecimalString.
From stdpp Require Import strings relations.

Open Scope Z_scope.

(** ** Calls of the handler *)

(** What any number of executions does to the downstream ledger. *)
Lemma exec_times_keep {S A} (P : S -> Prop) n (exec : S -> S * A) s :
  (forall s, P s -> P (exec s).1) -> P s -> P (exec_times n exec s).
Proof. intros He. revert s. induction n as [|n IH]; intros s Hs; [done|]. cbn. by apply IH, He. Qed.

Lemma net_call_keep {S A} (P : S -> Prop) c (exec : S -> S * A) s s' r :
  (forall s, P s -> P (exec s).1) -> P s -> net_call c exec s = (s', r) -> P s'.
Proof.
  intros He Hs. unfold net_call. pose proof (exec_times_keep P (ch_more c) exec s He Hs) as Hn.
  destruct (ch_lost c); [by intros [= <- _]|]. apply He in Hn.
  destruct (exec _) as [s2 a]. by intros [= <- _].
Qed.

(** An answer is that of the last execution. *)
Lemma net_call_answer {S A} c (exec : S -> S * A) s s' a :
  net_call c exec s = (s', Ok a) -> exists s1, exec s1 = (s', a).
Proof.
  unfold net_call. destruct (ch_lost c); [done|].
  destruct (exec (exec_times _ _ _)) as [s2 b] eqn:E. intros [= <- <-]. eauto.
Qed.

Lemma begin_applied id t l : l_applied (d_step lua_num (DBegin id t) l).1 = l_applied l /\
  l_effects (d_step lua_num (DBegin id t) l).1 = l_effects l.
Proof. cbn. by destruct (d_stale lua_num l id t). Qed.

(** An effect goes to this job's entries only. *)
Lemma apply_applied id t n l :
  let l' := (d_step lua_num (DApply id t n) l).1 in
  (forall i m, l_applied l' !! i = Some m -> l_applied l !! i = Some m \/ (i = id /\ m = n)) /\
  (forall k, is_Some (l_effects l' !! k) -> is_Some (l_effects l !! k) \/ k = Itoa n).
Proof.
  cbn. destruct (d_stale lua_num l id t); cbn; [auto|]. destruct (l_applied l !! id) eqn:E; cbn; [auto|].
  split; [intros i m | intros k].
  - rewrite lookup_insert_Some. naive_solver.
  - unfold bump. rewrite lookup_insert_is_Some'. naive_solver.
Qed.

(** Unless it was fenced, the effect has been applied. *)
Lemma apply_answer id t n l l' a :
  d_step lua_num (DApply id t n) l = (l', a) -> a <> "fenced" -> is_Some (l_applied l' !! id).
Proof.
  cbn. destruct (d_stale lua_num l id t); [by intros [= <- <-]|].
  destruct (l_applied l !! id) eqn:E; intros [= <- <-] _; cbn; [by rewrite E|].
  rewrite lookup_insert_eq. eauto.
Qed.

(** ** The system *)

Record csys := CSys {
  cs_world : cworld;
  cs_runs : list run;
  cs_done : list (Job * JobResult);     (* what the handlers returned *)
}.

Definition c_init : csys := CSys (CWorld empty_ledger []) [] [].

Section system.
Context (json_error : string -> error) (visibility : Z) (ids : list string).

(** A delivery of job [i], with any attempt and lease. *)
Definition plan_job (i : Z) (job : Job) : Prop :=
  0 <= i /\ ids !! Z.to_nat i = Some (ID job) /\
  exists r, Payload job = marshal_payload (chaos_payload visibility r i) /\ 0 <= r < 90.

Inductive cstep : csys -> csys -> Prop :=
  | c_start w rs done i job now worker :
      plan_job i job -> int64_ok now -> word worker = true -> worker <> "" ->
      cstep (CSys w rs done) (CSys w (rs ++ [start_run json_error job now worker]) done)
  | c_section w rs done k r c w' r' :
      rs !! k = Some r -> int64_ok (ch_now c) -> handler_section c r w = (w', r') ->
      cstep (CSys w rs done) (CSys w' (<[k := r']> rs) done)
  | c_return w rs done k r res :
      rs !! k = Some r -> r_pc r = Ended res ->
      cstep (CSys w rs done) (CSys w (delete k rs) (done ++ [(r_job r, res)]))
  | c_kill w rs done k r :
      rs !! k = Some r -> cstep (CSys w rs done) (CSys w (delete k rs) done).

(** ** The invariant *)

(** The ledger has a line of a run of job [i]. *)
Definition line_of (i : Z) (line : string) : Prop :=
  exists start stop worker, line = ledger_entry i start stop worker /\
    int64_ok start /\ int64_ok stop /\ word worker = true /\ worker <> "".

Definition has_line (i : Z) (lines : list string) : Prop := Exists (line_of i) lines.

Definition numbered (i : Z) : Prop := 0 <= i < Z.of_nat (length ids).

Definition applied_in (w : cworld) (job : Job) : Prop := is_Some (l_applied (cw_ds w) !! ID job).

Record run_ok (w : cworld) (r : run) : Prop := {
  rk_plan : exists i, plan_job i (r_job r) /\ pl_N (r_payload r) = i /\
    pl_Permanent (r_payload r) = (Z.rem i permanentEvery =? 0);
  rk_start : int64_ok (r_start r);
  rk_worker : word (r_worker r) = true /\ r_worker r <> "";
  rk_ledger : r_pc r = AtLedger -> ~ permanent (pl_N (r_payload r));
  rk_apply : r_pc r = AtApply -> has_line (pl_N (r_payload r)) (cw_lines w);
  rk_done : forall res, r_pc r = Ended res -> ResErr res = None -> applied_in w (r_job r);
}.

Record world_ok (w : cworld) : Prop := {
  wk_lines : Forall (fun line => exists i, numbered i /\ ~ permanent i /\ line_of i line) (cw_lines w);
  wk_applied : forall id n, l_applied (cw_ds w) !! id = Some n ->
    numbered n /\ ids !! Z.to_nat n = Some id /\ has_line n (cw_lines w);
  wk_effects : forall k, is_Some (l_effects (cw_ds w) !! k) -> exists i, numbered i /\ k = Itoa i;
  wk_ledger : l_inv (cw_ds w);
}.

Definition done_ok (w : cworld) (jr : Job * JobResult) : Prop :=
  (exists i, plan_job i jr.1) /\ (ResErr jr.2 = None -> applied_in w jr.1).

Record csys_ok (s : csys) : Prop := {
  ck_world : world_ok (cs_world s);
  ck_runs : Forall (run_ok (cs_world s)) (cs_runs s);
  ck_done : Forall (done_ok (cs_world s)) (cs_done s);
}.

Lemma plan_job_numbered i job : plan_job i job -> numbered i.
Proof. intros (Hi & H%lookup_lt_Some & _). unfold numbered. lia. Qed.

(** Nothing recorded is taken back. *)
Record grows (w w' : cworld) : Prop := {
  gr_lines i : has_line i (cw_lines w) -> has_line i (cw_lines w');
  gr_applied job : applied_in w job -> applied_in w' job;
}.

Lemma run_ok_grows w w' r : grows w w' -> run_ok w r -> run_ok w' r.
Proof. intros [Hl Ha] [H1 H2 H3 H4 H5 H6]. split; eauto. Qed.

Lemma done_ok_grows w w' jr : grows w w' -> done_ok w jr -> done_ok w' jr.
Proof. intros [Hl Ha] [H1 H2]. split; auto. Qed.

Lemma start_run_ok w i job now worker :
  Z.of_nat (length ids) < 2 ^ 62 ->
  plan_job i job -> int64_ok now -> word worker = true -> worker <> "" ->
  run_ok w (start_run json_error job now worker).
Proof.
  intros Hlen Hj Hn Hw Hne. pose proof (plan_job_numbered i job Hj) as Hi.
  pose proof Hj as (_ & _ & r & Hp & Hr). unfold start_run. rewrite Hp, payload_roundtrip.
  - split; cbn; try done. by exists i.
  - cbn. unfold numbered, int64_ok, min_int64, max_int64 in *. lia.
  - cbn. destruct (_ =? 1); [apply wrap64_ok | unfold int64_ok, min_int64, max_int64; lia].
Qed.

(** *** Each section keeps the invariant *)

Lemma grows_refl w : grows w w.
Proof. by split. Qed.

Lemma begin_section w r ds ans c :
  world_ok w ->
  net_call c (d_step lua_num (DBegin (ID (r_job r)) (FencingToken (r_job r)))) (cw_ds w) = (ds, ans) ->
  world_ok (CWorld ds (cw_lines w)) /\ grows w (CWorld ds (cw_lines w)).
Proof.
  intros [H1 H2 H3 H4] E.
  eapply (net_call_keep (fun l => l_applied l = l_applied (cw_ds w) /\ l_effects l = l_effects (cw_ds w) /\ l_inv l))
    in E as (Ha & He & Hl); [| |done].
  - split; split; cbn; rewrite ?Ha, ?He; try done. intros job. unfold applied_in. cbn. by rewrite Ha.
  - intros l (Ha & He & Hl). destruct (begin_applied (ID (r_job r)) (FencingToken (r_job r)) l) as [-> ->].
    split_and!; [done | done | by apply d_step_inv].
Qed.

Lemma ledger_section w i entry lines ans c :
  world_ok w -> numbered i -> ~ permanent i -> line_of i entry ->
  net_call c (fun ls => (ls ++ [entry], tt)) (cw_lines w) = (lines, ans) ->
  let w' := CWorld (cw_ds w) lines in
  world_ok w' /\ grows w w' /\ (forall a, ans = Ok a -> has_line i lines).
Proof.
  intros [H1 H2 H3 H4] Hi Hp Hline E. pose proof E as E'.
  eapply (net_call_keep (fun ls =>
      Forall (fun line => exists i, numbered i /\ ~ permanent i /\ line_of i line) ls /\
      (forall j, has_line j (cw_lines w) -> has_line j ls))) in E as [Hl Hmono]; [|cbn|done].
  - split_and!; [split; cbn; try done|split; cbn; auto|].
    + intros id n Hn. destruct (H2 id n Hn) as (? & ? & ?). eauto.
    + intros a ->. apply net_call_answer in E' as (ls & [= <- _]).
      apply Exists_app. right. by constructor.
  - intros ls [Hls Hm]. split; [apply Forall_app; split; [done|]; constructor; eauto|].
    intros j Hj. apply Exists_app. left. by apply Hm.
Qed.

Lemma apply_section w job i ds ans c :
  world_ok w -> numbered i -> ids !! Z.to_nat i = Some (ID job) -> has_line i (cw_lines w) ->
  net_call c (d_step lua_num (DApply (ID job) (FencingToken job) i)) (cw_ds w) = (ds, ans) ->
  let w' := CWorld ds (cw_lines w) in
  world_ok w' /\ grows w w' /\ (forall a, ans = Ok a -> a <> "fenced" -> applied_in w' job).
Proof.
  intros [H1 H2 H3 H4] Hi Hid Hline E. pose proof E as E'.
  eapply (net_call_keep (fun l => l_inv l /\
      (forall id n, l_applied l !! id = Some n ->
        numbered n /\ ids !! Z.to_nat n = Some id /\ has_line n (cw_lines w)) /\
      (forall k, is_Some (l_effects l !! k) -> exists j, numbered j /\ k = Itoa j) /\
      (forall id, is_Some (l_applied (cw_ds w) !! id) -> is_Some (l_applied l !! id))))
    in E as (Hl & Ha & He & Hm); [| |done].
  - split_and!; [split; done | split; cbn; [done | intros j; apply Hm]|].
    intros a -> Hne. apply net_call_answer in E' as (l1 & E1). by eapply apply_answer.
  - intros l (Hl & Ha & He & Hm).
    destruct (apply_applied (ID job) (FencingToken job) i l) as [Ga Ge].
    split_and!; [by apply d_step_inv | | |].
    + intros id n [Hn|[-> ->]]%Ga; [by apply Ha | done].
    + intros k [Hk| ->]%Ge; [by apply He | by exists i].
    + intros id [n Hn]%Hm. exists n. by apply d_step_mono.
Qed.

(** A run that moves to a place where nothing is known of it yet, or that ends
    without success. *)
Definition quiet (p : pc) : Prop :=
  match p with AtBegin | AtWait => True | AtLedger | AtApply => False | Ended res => ResErr res <> None end.

Lemma run_ok_quiet w w' r p : grows w w' -> run_ok w r -> quiet p -> run_ok w' (at_pc r p).
Proof.
  intros Hg [H1 H2 H3 H4 H5 H6] Hq. split; cbn; try done; [by intros -> | by intros -> |].
  intros res -> Hn. done.
Qed.

Lemma section_ok c r w w' r' :
  world_ok w -> run_ok w r -> int64_ok (ch_now c) -> handler_section c r w = (w', r') ->
  world_ok w' /\ grows w w' /\ run_ok w' r'.
Proof.
  intros Hw Hr Hc. pose proof Hr as [(i & Hj & HN & Hperm) Hs [Hwo Hne] Hled Happ _].
  pose proof (plan_job_numbered i _ Hj) as Hi. unfold handler_section. destruct (r_pc r) eqn:Epc.
  - destruct (net_call _ _ _) as [ds ans] eqn:E. intros [= <- <-].
    destruct (begin_section _ _ _ _ _ Hw E) as [Hw' Hg]. split_and!; [done | done|].
    eapply run_ok_quiet; [done | done|]. destruct ans as [a|e]; [|done]. by destruct (bool_decide _).
  - intros [= <- <-]. split_and!; [done | apply grows_refl|].
    destruct (ch_cancelled c); [eapply run_ok_quiet; [apply grows_refl | done | done]|].
    destruct (pl_Permanent (r_payload r)) eqn:Ep; [eapply run_ok_quiet; [apply grows_refl | done | done]|].
    destruct (ch_fails c); [eapply run_ok_quiet; [apply grows_refl | done | done]|].
    destruct Hr as [G1 G2 G3 _ _ _]. split; cbn; try done. intros _. unfold permanent. rewrite HN.
    symmetry in Hperm. by apply Z.eqb_neq in Hperm.
  - destruct (net_call _ _ _) as [lines ans] eqn:E. intros [= <- <-].
    rewrite HN in *. eapply ledger_section in E as (Hw' & Hg & Hok);
      [|done|exact Hi|by apply Hled|by eexists _, _, _]. split_and!; [done | done|].
    destruct ans as [a|e]; [|by eapply run_ok_quiet].
    destruct Hr as [G1 G2 G3 _ _ _]. split; cbn; try done. intros _. rewrite HN. by eapply Hok.
  - destruct (net_call _ _ _) as [ds ans] eqn:E. intros [= <- <-].
    rewrite HN in *. pose proof Hj as (_ & Hid & _).
    destruct (apply_section _ (r_job r) i _ _ _ Hw Hi Hid (Happ eq_refl) E) as (Hw' & Hg & Hok).
    split_and!; [done | done|]. destruct ans as [a|e]; [|by eapply run_ok_quiet].
    destruct (bool_decide (a = "fenced")) eqn:Ef; [by eapply run_ok_quiet|].
    apply bool_decide_eq_false in Ef.
    destruct Hr as [G1 G2 G3 _ _ _]. split; cbn; try done. intros res _ _. by eapply Hok.
  - intros [= <- <-]. split_and!; [done | apply grows_refl | done].
Qed.

Context (Hlen : Z.of_nat (length ids) < 2 ^ 62).

Lemma cstep_ok s s' : csys_ok s -> cstep s s' -> csys_ok s'.
Proof.
  intros [Hw Hr Hd] Hst. destruct Hst as [w rs done i job now worker Hj Hn Hwo Hne
    |w rs done k r c w' r' Hk Hc E|w rs done k r res Hk Hpc|w rs done k r Hk]; cbn in *.
  - split; cbn; [done | | done]. apply Forall_app. split; [done|]. constructor; [|constructor].
    by eapply start_run_ok.
  - destruct (section_ok c r w w' r') as (Hw' & Hg & Hr'); [done | by eapply Forall_lookup_1 | done | done |].
    split; cbn; [done | |].
    + apply Forall_insert; [|done]. eapply Forall_impl; [done|]. intros r0. by apply run_ok_grows.
    + eapply Forall_impl; [done|]. intros jr. by apply done_ok_grows.
  - pose proof (Forall_lookup_1 _ _ _ _ Hr Hk) as [(i & Hj & _) _ _ _ _ Hdone].
    split; cbn; [done | by apply Forall_delete |]. apply Forall_app. split; [done|].
    constructor; [|constructor]. split; [by exists i | by apply Hdone].
  - split; cbn; [done | by apply Forall_delete | done].
Qed.

Lemma reach_ok s : rtc cstep c_init s -> csys_ok s.
Proof.
  intros Hr. eapply (rtc_ind_r (fun s => csys_ok s)); [|intros; by eapply cstep_ok | exact Hr].
  split; [|constructor..]. split; cbn; [constructor | | |].
  - intros id n. by rewrite lookup_empty.
  - intros k. rewrite lookup_empty. by intros [? [=]].
  - intros n. unfold applied_to. cbn. by rewrite lookup_empty.
Qed.

(** ** What the report reads *)

Lemma numbered_int64 i : numbered i -> int64_ok i.
Proof. unfold numbered, int64_ok, min_int64, max_int64. lia. Qed.

Lemma line_of_scan i line :
  int64_ok i -> line_of i line -> exists e w, scan_entry line = Some (i, e, w).
Proof. intros Hi (start & stop & w & -> & H1 & H2 & H3 & H4). eexists _, _. by apply ledger_roundtrip. Qed.

Lemma read_ledger_ok lines :
  Forall (fun line => exists i, numbered i /\ ~ permanent i /\ line_of i line) lines -> forall m,
  exists m', read_ledger lines m = Some m' /\
    forall j, int64_ok j -> (runs_of m' j <> [] <-> runs_of m j <> [] \/ has_line j lines).
Proof.
  induction 1 as [|line lines (i & Hi & Hp & Hline) Hlines IH]; intros m; cbn [read_ledger].
  { exists m. split; [done|]. intros j _. unfold has_line. rewrite Exists_nil. tauto. }
  destruct (line_of_scan i line (numbered_int64 i Hi) Hline) as (e & w & Esc). rewrite Esc.
  destruct (IH (<[i := default [] (m !! i) ++ [e]]> m)) as (m' & E & Hm'). exists m'. split; [done|].
  intros j Hj. rewrite Hm' by done. unfold has_line. rewrite Exists_cons.
  assert (line_of j line <-> j = i) as ->.
  { split; [|by intros ->]. intros Hlj. destruct (line_of_scan j line Hj Hlj) as (e' & w' & E'). congruence. }
  unfold runs_of. destruct (decide (i = j)) as [->|Hne].
  - rewrite lookup_insert_eq. cbn. split; [by auto|]. intros _. left. intros H. by apply app_nil in H as [_ [=]].
  - rewrite lookup_insert_ne by done. naive_solver.
Qed.

(** Reading a map back whose keys are distinct numbers. *)
Lemma foldl_insert_lookup (l : list (Z * Z)) : forall (m : gmap Z Z) i,
  NoDup l.*1 -> (forall k, k ∈ l.*1 -> m !! k = None) ->
  foldl (fun m kv => <[kv.1 := kv.2]> m) m l !! i =
    match list_to_map (M := gmap Z Z) l !! i with Some x => Some x | None => m !! i end.
Proof.
  induction l as [|[k x] l IH]; intros m i; cbn; [done|]. intros [Hk Hnd]%NoDup_cons Hm.
  rewrite IH; [|done|].
  - destruct (decide (k = i)) as [->|Hne].
    + rewrite lookup_insert_eq. rewrite (not_elem_of_list_to_map_1 l i) by done. by rewrite lookup_insert_eq.
    + by rewrite !lookup_insert_ne.
  - intros j Hj. rewrite lookup_insert_ne by (by intros ->). apply Hm. by right.
Qed.

Lemma Atoi_value_Itoa z : int64_ok z -> Atoi_value (Itoa z) = z.
Proof.
  intros Hz. pose proof (Atoi_Itoa z Hz) as H. unfold Atoi in H. unfold Atoi_value.
  destruct (match Itoa z with String "+" rest => _ | _ => _ end) as [y|]; [|done].
  destruct (decide (int64_ok y)) as [Hy|]; [|done]. injection H as ->.
  unfold int64_ok, min_int64, max_int64 in *. lia.
Qed.

Lemma read_effects_ok (m : gmap string Z) raw i :
  raw ≡ₚ map_to_list (Itoa <$> m) ->
  (forall k, is_Some (m !! k) -> exists j, int64_ok j /\ k = Itoa j) ->
  (forall k v, m !! k = Some v -> int64_ok v) -> int64_ok i ->
  read_effects raw !! i = m !! Itoa i.
Proof.
  intros Hp Hk Hv Hi. unfold read_effects.
  set (f := fun kv : string * string => (Atoi_value kv.1, Atoi_value kv.2)).
  assert (foldl (fun (m : gmap Z Z) kv => <[Atoi_value kv.1 := Atoi_value kv.2]> m) ∅ raw =
    foldl (fun m kv => <[kv.1 := kv.2]> m) ∅ (f <$> raw)) as ->.
  { generalize (∅ : gmap Z Z). clear Hp. induction raw as [|kv raw IH]; intros m0; [done|]. cbn. apply IH. }
  assert (forall kv, kv ∈ raw -> exists j v, m !! Itoa j = Some v /\ kv = (Itoa j, Itoa v) /\ f kv = (j, v)) as Hin.
  { intros [k x] Hkx. rewrite Hp in Hkx. apply elem_of_map_to_list in Hkx. rewrite lookup_fmap in Hkx.
    destruct (m !! k) as [v|] eqn:Em; [|done]. injection Hkx as <-.
    destruct (Hk k) as (j & Hj & ->); [eauto|]. exists j, v. split_and!; [done | done |].
    unfold f. cbn. rewrite !Atoi_value_Itoa; eauto. }
  assert (NoDup (f <$> raw).*1) as Hnd.
  { rewrite <- list_fmap_compose. apply NoDup_fmap_2_strong.
    - intros kv1 kv2 (j1 & v1 & H1 & -> & F1)%Hin (j2 & v2 & H2 & -> & F2)%Hin. cbn [compose].
      rewrite F1, F2. cbn. intros <-. congruence.
    - rewrite Hp. apply NoDup_map_to_list. }
  rewrite foldl_insert_lookup by (done || (intros; apply lookup_empty)). rewrite lookup_empty.
  destruct (m !! Itoa i) as [v|] eqn:Em.
  - assert ((i, v) ∈ f <$> raw) as Hiv.
    { apply list_elem_of_fmap. exists (Itoa i, Itoa v). split.
      - unfold f. cbn. rewrite !Atoi_value_Itoa by eauto. done.
      - rewrite Hp. apply elem_of_map_to_list. by rewrite lookup_fmap, Em. }
    apply elem_of_list_to_map in Hiv; [|done]. by rewrite Hiv.
  - destruct (list_to_map (f <$> raw) !! i) as [x|] eqn:El; [|done].
    apply elem_of_list_to_map in El; [|done]. apply list_elem_of_fmap in El as (kv & Ekv & Hkv).
    destruct (Hin kv Hkv) as (j & y & Hj & _ & F). rewrite F in Ekv. injection Ekv as -> ->. congruence.
Qed.

Lemma map_eq_nothing (m : gmap string Z) : (forall k n, m !! k = Some n -> False) -> m = ∅.
Proof. intros H. apply map_empty. intros k. destruct (m !! k) eqn:E; [by apply H in E | done]. Qed.

Lemma applied_to_one w i : world_ok w -> (applied_to (cw_ds w) i <= 1)%nat.
Proof.
  intros [_ Ha _ _]. unfold applied_to. destruct (ids !! Z.to_nat i) as [id|] eqn:Eid.
  - transitivity (size ({[ id := i ]} : gmap string Z)); [|by rewrite map_size_singleton].
    apply map_subseteq_size, map_subseteq_spec. intros k n [Hk Hn]%map_lookup_filter_Some. cbn in Hn. subst.
    destruct (Ha k i Hk) as (_ & Hid & _). rewrite Eid in Hid. injection Hid as ->. apply lookup_singleton_eq.
  - match goal with |- (size ?m <= 1)%nat => rewrite (map_eq_nothing m) end; [by rewrite map_size_empty; lia|].
    intros k n [Hk Hn]%map_lookup_filter_Some. cbn in Hn. subst.
    destruct (Ha k i Hk) as (_ & Hid & _). congruence.
Qed.

Lemma effects_once w i : world_ok w -> 0 <= default 0 (l_effects (cw_ds w) !! Itoa i) <= 1.
Proof. intros Hw. rewrite (wk_ledger _ Hw). pose proof (applied_to_one w i Hw). lia. Qed.

Lemma effects_applied w id i :
  world_ok w -> l_applied (cw_ds w) !! id = Some i -> default 0 (l_effects (cw_ds w) !! Itoa i) <> 0.
Proof.
  intros Hw Hid. rewrite (wk_ledger _ Hw). unfold applied_to.
  assert (size (filter (fun kv => kv.2 = i) (l_applied (cw_ds w))) <> O); [|lia].
  apply (map_size_ne_0_lookup_2 _ id). exists i. by apply map_lookup_filter_Some.
Qed.

Lemma effects_values w k v : world_ok w -> l_effects (cw_ds w) !! k = Some v -> int64_ok v.
Proof.
  intros Hw Hk. destruct (wk_effects _ Hw k) as (i & _ & ->); [eauto|].
  pose proof (effects_once w i Hw) as He. rewrite Hk in He. cbn in He.
  unfold int64_ok, min_int64, max_int64. lia.
Qed.

(** A line names one job. *)
Lemma has_line_numbered w i : world_ok w -> int64_ok i -> has_line i (cw_lines w) -> ~ permanent i.
Proof.
  intros Hw Hi (line & Hin & Hline)%Exists_exists.
  destruct (proj1 (Forall_forall _ _) (wk_lines _ Hw) line Hin) as (j & Hj & Hp & Hlj).
  destruct (line_of_scan i line Hi Hline) as (e & v & E).
  destruct (line_of_scan j line (numbered_int64 j Hj) Hlj) as (e' & v' & E'). congruence.
Qed.

(** A job whose run succeeded has its effect, once, and a line. *)
Lemma succeeded_effect w i job :
  NoDup ids -> world_ok w -> plan_job i job -> applied_in w job ->
  has_line i (cw_lines w) /\ default 0 (l_effects (cw_ds w) !! Itoa i) <> 0.
Proof.
  intros Hnd Hw Hj [n Hn]. pose proof (plan_job_numbered i job Hj) as Hi. destruct Hj as (_ & Hid & _).
  destruct (wk_applied _ Hw _ _ Hn) as (Hnn & Hidn & Hline).
  assert (n = i) as ->. { pose proof (NoDup_lookup _ _ _ _ Hnd Hidn Hid). unfold numbered in *. lia. }
  split; [done|]. by eapply effects_applied.
Qed.

(** C39: the chaos test raises no false alarm. However runs interleave, are
    killed, lose answers or are redelivered with stale tokens: once every job was
    dead-lettered or acknowledged after a successful run, nothing is left in the
    queue and no worker crashed, the report over what the run left in Redis
    passes. In particular every effect landed exactly once. *)
Theorem chaos_no_false_alarm s r dead :
  NoDup ids -> rtc cstep c_init s ->
  ri_jobs r = Z.of_nat (length ids) -> ri_ledger r = cw_lines (cs_world s) ->
  ri_effects r ≡ₚ map_to_list (Itoa <$> l_effects (cw_ds (cs_world s))) ->
  read_dead (ri_dead r) ∅ = Some dead -> leftover r = 0 -> ri_crashed r = O ->
  (forall i, numbered i -> is_Some (dead !! i) \/
     exists job res, (job, res) ∈ cs_done s /\ plan_job i job /\ ResErr res = None) ->
  exists out, report r = Some out /\ ro_exit out = 0.
Proof.
  intros Hnd Hreach Hjobs Hled Heff Hdead Hleft Hcr Hset. destruct (reach_ok s Hreach) as [Hw _ Hdone].
  destruct (read_ledger_ok _ (wk_lines _ Hw) ∅) as (execs & Eex & Hex).
  destruct (report_exit r execs dead) as (out & Eout & _ & _ & Hiff); [by rewrite Hled | done|].
  exists out. split; [done|]. apply Hiff. split_and!; [|lia|done]. rewrite Hjobs. intros i Hi.
  pose proof (numbered_int64 i Hi) as Hi64.
  assert (read_effects (ri_effects r) !! i = l_effects (cw_ds (cs_world s)) !! Itoa i) as Eeff.
  { apply read_effects_ok; [done | | by intros k v; apply effects_values | done].
    intros k (j & Hj & ->)%(wk_effects _ Hw). eauto using numbered_int64. }
  assert (is_Some (dead !! i) \/ has_line i (cw_lines (cs_world s)) /\
    default 0 (l_effects (cw_ds (cs_world s)) !! Itoa i) <> 0) as Hok.
  { destruct (Hset i Hi) as [Hd|(job & res & Hin & Hj & Hres)]; [by left|right].
    eapply succeeded_effect; [done | done | exact Hj|].
    by apply (proj1 (Forall_forall _ _) Hdone _ Hin). }
  assert (runs_of execs i <> [] <-> has_line i (cw_lines (cs_world s))) as Hrun.
  { rewrite Hex by done. unfold runs_of. rewrite lookup_empty. cbn. naive_solver. }
  pose proof (has_line_numbered (cs_world s) i Hw Hi64) as Hlp. pose proof (effects_once (cs_world s) i Hw).
  unfold job_verdict. rewrite Eeff. split_and!; [|tauto|lia|tauto].
  intros Hp. split; [tauto|]. destruct (runs_of execs i); [done|]. by destruct Hlp; [apply Hrun|].
Qed.
End system.

(** ** A run *)

(** Job 1 is delivered to a worker that is killed after its effect landed, and
    redelivered; job 0 fails for good. *)
Definition demo_ids : list string := ["a"; "b"].
Definition demo_error : string -> error := fun s => ErrMsg s.

Definition chaos_job (i attempt : Z) : Job :=
  mkJob (if i =? 0 then "a" else "b") chaos_task (marshal_payload (chaos_payload 2000000000 5 i)) attempt 8 ""
    0 0 "" (mkLease (1%N, 0%N) "w" 1 0).

Definition demo_choice (now : Z) : choice := Choice 0 None None false now.

Definition demo_sections (now : Z) (n : nat) (rw : cworld * run) : cworld * run :=
  Nat.iter n (fun rw => handler_section (demo_choice now) rw.2 rw.1) rw.

Definition demo_w1 : cworld * run :=
  demo_sections 20 4 (CWorld empty_ledger [], start_run demo_error (chaos_job 1 0) 10 "w1").
Definition demo_w2 : cworld * run :=
  demo_sections 50 4 (demo_w1.1, start_run demo_error (chaos_job 1 1) 30 "w2").

Definition demo_end : csys := CSys demo_w2.1 [] [(chaos_job 1 1, mkJobResult false None)].

Lemma demo_plan i attempt : i = 0 \/ i = 1 -> plan_job 2000000000 demo_ids i (chaos_job i attempt).
Proof. intros [-> | ->]; (split; [lia|split; [done|]]; exists 5; split; [done | lia]). Qed.

(** [n] sections of the only run. *)
Lemma demo_steps now n done w r :
  int64_ok now ->
  rtc (cstep demo_error 2000000000 demo_ids) (CSys w [r] done)
    (CSys (demo_sections now n (w, r)).1 [(demo_sections now n (w, r)).2] done).
Proof.
  intros Hn. induction n as [|n IH]; [done|]. eapply rtc_r; [exact IH|].
  change (demo_sections now (S n) (w, r)) with
    (handler_section (demo_choice now) (demo_sections now n (w, r)).2 (demo_sections now n (w, r)).1).
  destruct (demo_sections now n (w, r)) as [w1 r1]. cbn [fst snd].
  destruct (handler_section (demo_choice now) r1 w1) as [w2 r2] eqn:E.
  apply (c_section _ _ _ w1 [r1] done 0 r1 (demo_choice now) w2 r2); [done | exact Hn | exact E].
Qed.

(** A delivery from its start through [n] sections. *)
Lemma demo_delivery wr attempt start now n worker w :
  wr = demo_sections now n (w, start_run demo_error (chaos_job 1 attempt) start worker) ->
  int64_ok start -> int64_ok now -> word worker = true -> worker <> "" ->
  rtc (cstep demo_error 2000000000 demo_ids) (CSys w [] []) (CSys wr.1 [wr.2] []).
Proof.
  intros -> Hs Hn Hw Hne. eapply rtc_l; [|by apply demo_steps].
  apply (c_start _ _ _ _ [] [] 1); [apply demo_plan; by right | done..].
Qed.

Lemma demo_ended : r_pc demo_w2.2 = Ended (mkJobResult false None) /\ r_job demo_w2.2 = chaos_job 1 1.
Proof. vm_compute. done. Qed.

Lemma demo_last done w r res :
  r_pc r = Ended res ->
  cstep demo_error 2000000000 demo_ids (CSys w [r] done) (CSys w [] (done ++ [(r_job r, res)])).
Proof. intros Hr. by apply (c_return _ _ _ w [r] done 0). Qed.

Lemma demo_killed done w r : cstep demo_error 2000000000 demo_ids (CSys w [r] done) (CSys w [] done).
Proof. by apply (c_kill _ _ _ w [r] done 0 r). Qed.

Lemma demo_path w1 w2 res job :
  w1 = demo_sections 20 4 (CWorld empty_ledger [], start_run demo_error (chaos_job 1 0) 10 "w1") ->
  w2 = demo_sections 50 4 (w1.1, start_run demo_error (chaos_job 1 1) 30 "w2") ->
  r_pc w2.2 = Ended res -> r_job w2.2 = job ->
  rtc (cstep demo_error 2000000000 demo_ids) c_init (CSys w2.1 [] [(job, res)]).
Proof.
  intros H1 H2 Hpc <-.
  etrans; [apply (demo_delivery w1 0 10 20 4 "w1" _ H1); [by split | by split | done | done]|].
  eapply rtc_l; [apply demo_killed|].
  etrans; [apply (demo_delivery w2 1 30 50 4 "w2" _ H2); [by split | by split | done | done]|].
  apply rtc_once, (demo_last [] w2.1 w2.2 _ Hpc).
Qed.

Lemma demo_reach : rtc (cstep demo_error 2000000000 demo_ids) c_init demo_end.
Proof.
  destruct demo_ended as [H1 H2]. apply (demo_path demo_w1 demo_w2); [| |exact H1|exact H2].
  - unfold demo_w1. reflexivity.
  - unfold demo_w2. reflexivity.
Qed.

Definition demo_final : report_in :=
  ReportIn 2 (cw_lines (cs_world demo_end))
    [<["payload" := marshal_payload (chaos_payload 2000000000 7 0)]>
      (<["reason" := "permanent failure (chaos)"]> ∅)]
    [("1", "1")] (Ok (0, 0, 0)) 0.

Lemma chaos_no_false_alarm_witness : exists out, report demo_final = Some out /\ ro_exit out = 0.
Proof.
  apply (chaos_no_false_alarm demo_error 2000000000 demo_ids ltac:(done) demo_end demo_final
    {[ 0 := "permanent failure (chaos)" ]}).
  - repeat constructor; set_solver.
  - exact demo_reach.
  - done.
  - done.
  - by vm_compute.
  - by vm_compute.
  - done.
  - done.
  - intros i Hi. unfold numbered in Hi. cbn in Hi. assert (i = 0 \/ i = 1) as [-> | ->] by lia.
    + left. by eexists.
    + right. exists (chaos_job 1 1), (mkJobResult false None). split_and!; [left | apply demo_plan; auto | done].
Defined.
