(* ===== verification/ChaosCtl.v ===== *)
(** * The chaos test's controller ([cmd/chaos/main.go])

    The worker processes and what the controller does to them: spawning, killing
    and replacing, pausing and resuming, shutting down. Its main goroutine, the
    goroutines that wait for a process and the timers that resume one interleave
    as steps. The controller's mutex is part of the state: a critical section is a
    step that takes it and a step that does the work and releases it. When timers
    fire and when the queue counts as drained is left open. A worker that runs exits
    after a SIGTERM; one that does so unasked is a crash, with a label of its own. *)

From S2P Require Import Prelude GoNum Errors.
From stdpp Require Import strings relations.

Open Scope Z_scope.

(** ** State *)

(** A process at the operating system: [Gone] has whether [Wait] gives an error. *)
Inductive pstate := Running | Stopped | Gone (failed : bool).

#[export] Instance pstate_eq_dec : EqDecision pstate.
Proof. solve_decision. Defined.

Record proc := mkProc {
  p_id : string;
  p_os : pstate;
  p_killed : bool;
  p_paused : bool;
  p_done : bool;          (* the channel is closed *)
  p_victim : bool;        (* ended by the controller's SIGKILL *)
  p_term : bool;          (* was sent a SIGTERM *)
}.

(** Where the main goroutine is. [back] says whether [spawn] is called from
    [injectFaults] or with so many workers left to start. *)
Inductive mpc :=
  | MInit (left : nat)
  | MList (k : nat) (back : option nat)        (* in spawn, before the append *)
  | MFaults                                    (* in the select of injectFaults *)
  | MPickKill
  | MKillPicked (k : nat)
  | MKillMarked (k : nat)
  | MKillSent (k : nat)
  | MPickPause
  | MPausePicked (k : nat)
  | MPauseMarked (k : nat)
  | MResumeAll
  | MResume (todo : list nat)
  | MDrain                                     (* waiting for the queue *)
  | MPending                                   (* in printPending *)
  | MStopAll
  | MTerm (todo all : list nat)                (* the SIGTERMs of stopAll *)
  | MJoining (todo : list nat)
  | MReport.

(** Who holds [mu]: the main goroutine, the one that waits for process [k], or the
    timer that resumes process [k]. *)
Inductive owner := OMain | OWait (k : nat) | OTimer (k : nat).

Record ctl := mkCtl {
  c_next : Z;
  c_heap : list proc;          (* every process ever started, by its pointer *)
  c_procs : list nat;
  c_crashed : list string;
  c_kills : Z;
  c_pauses : Z;
  c_timers : list nat;         (* pending AfterFunc calls of resume *)
  c_main : mpc;
  c_mu : option owner;
}.

Definition set_heap (c : ctl) (h : list proc) : ctl :=
  mkCtl (c_next c) h (c_procs c) (c_crashed c) (c_kills c) (c_pauses c) (c_timers c) (c_main c) (c_mu c).
Definition set_main (c : ctl) (m : mpc) : ctl :=
  mkCtl (c_next c) (c_heap c) (c_procs c) (c_crashed c) (c_kills c) (c_pauses c) (c_timers c) m (c_mu c).
Definition set_timers (c : ctl) (ts : list nat) : ctl :=
  mkCtl (c_next c) (c_heap c) (c_procs c) (c_crashed c) (c_kills c) (c_pauses c) ts (c_main c) (c_mu c).
Definition set_counts (c : ctl) (kills pauses : Z) : ctl :=
  mkCtl (c_next c) (c_heap c) (c_procs c) (c_crashed c) kills pauses (c_timers c) (c_main c) (c_mu c).
Definition set_mu (c : ctl) (o : option owner) : ctl :=
  mkCtl (c_next c) (c_heap c) (c_procs c) (c_crashed c) (c_kills c) (c_pauses c) (c_timers c) (c_main c) o.
Definition unlock (c : ctl) : ctl := set_mu c None.

Definition set_os (s : pstate) (p : proc) : proc :=
  mkProc (p_id p) s (p_killed p) (p_paused p) (p_done p) (p_victim p) (p_term p).
Definition mark_killed (p : proc) : proc :=
  mkProc (p_id p) (p_os p) true (p_paused p) (p_done p) (p_victim p) (p_term p).
Definition mark_paused (b : bool) (p : proc) : proc :=
  mkProc (p_id p) (p_os p) (p_killed p) b (p_done p) (p_victim p) (p_term p).
Definition mark_done (p : proc) : proc :=
  mkProc (p_id p) (p_os p) (p_killed p) (p_paused p) true (p_victim p) (p_term p).

(** Signals; a process that is gone ignores them. A SIGKILL ends a stopped process
    too; a SIGTERM is kept until the process acts on it. *)
Definition sig_kill (p : proc) : proc :=
  match p_os p with
  | Gone _ => p
  | _ => mkProc (p_id p) (Gone true) (p_killed p) (p_paused p) (p_done p) true (p_term p)
  end.
Definition sig_terminate (p : proc) : proc :=
  match p_os p with
  | Gone _ => p
  | _ => mkProc (p_id p) (p_os p) (p_killed p) (p_paused p) (p_done p) (p_victim p) true
  end.
Definition sig_stop (p : proc) : proc :=
  match p_os p with Running => set_os Stopped p | _ => p end.
Definition sig_cont (p : proc) : proc :=
  match p_os p with Stopped => set_os Running p | _ => p end.

Definition on_proc (k : nat) (f : proc -> proc) (c : ctl) : ctl := set_heap c (alter f k (c_heap c)).

(** ** Critical sections *)

(** [spawn] up to the start of the waiting goroutine; the process's arguments are
    left out. *)
Definition spawn (c : ctl) : ctl :=
  let next := c_next c + 1 in
  mkCtl next (c_heap c ++ [mkProc ("chaos-worker-" +:+ Itoa next) Running false false false false false])
    (c_procs c) (c_crashed c) (c_kills c) (c_pauses c) (c_timers c) (c_main c) (c_mu c).

(** The end of [spawn]. *)
Definition list_proc (k : nat) (c : ctl) : ctl :=
  mkCtl (c_next c) (c_heap c) (c_procs c ++ [k]) (c_crashed c) (c_kills c) (c_pauses c) (c_timers c) (c_main c) (c_mu c).

(** The goroutine of process [k] after [Wait] returned [err]. The channel is closed
    in the same step: only the main goroutine waits for it. *)
Definition reap (k : nat) (err : string) (c : ctl) : ctl :=
  match c_heap c !! k with
  | Some p =>
      let crashed := match p_os p with
                     | Gone true => if p_killed p then c_crashed c else c_crashed c ++ [p_id p +:+ ": " +:+ err]
                     | _ => c_crashed c
                     end in
      mkCtl (c_next c) (alter mark_done k (c_heap c)) (filter (fun q => q <> k) (c_procs c)) crashed
        (c_kills c) (c_pauses c) (c_timers c) (c_main c) (c_mu c)
  | None => c
  end.

(** The workers [pick] chooses from. *)
Definition pickable (c : ctl) (k : nat) : Prop :=
  match c_heap c !! k with Some p => p_paused p = false /\ p_killed p = false | None => False end.
#[export] Instance pickable_dec c k : Decision (pickable c k).
Proof. unfold pickable. destruct (c_heap c !! k); apply _. Defined.

Definition live_procs (c : ctl) : list nat := filter (pickable c) (c_procs c).

Definition pick (r : nat) (c : ctl) : option nat := live_procs c !! r.

Definition resume (k : nat) (c : ctl) : ctl :=
  match c_heap c !! k with
  | Some p => if p_paused p then on_proc k (sig_cont ∘ mark_paused false) c else c
  | None => c
  end.

(** ** Steps *)

(** Where the main goroutine needs [mu] to go on. *)
Definition wants_mu (m : mpc) : bool :=
  match m with
  | MList _ _ | MPickKill | MKillPicked _ | MPickPause | MPausePicked _ | MResumeAll | MResume (_ :: _)
  | MPending | MStopAll => true
  | _ => false
  end.

(** The kinds of steps: a fault the controller injects, a worker that ends
    unasked, and all the rest. *)
Inductive kact := KFault | KCrash | KRun.

Section steps.
Context (killEvery pauseEvery : Z).

Inductive kstep : kact -> ctl -> ctl -> Prop :=
  (* taking the mutex *)
  | k_lock_main c : c_mu c = None -> wants_mu (c_main c) = true -> kstep KRun c (set_mu c (Some OMain))
  | k_lock_wait c k p failed : c_mu c = None -> c_heap c !! k = Some p -> p_os p = Gone failed -> p_done p = false ->
      kstep KRun c (set_mu c (Some (OWait k)))
  | k_lock_timer c k : c_mu c = None -> k ∈ c_timers c -> kstep KRun c (set_mu c (Some (OTimer k)))
  (* the main goroutine: starting workers *)
  | k_init c n : c_main c = MInit (S n) ->
      kstep KRun c (set_main (spawn c) (MList (length (c_heap c)) (Some n)))
  | k_list c k back : c_main c = MList k back -> c_mu c = Some OMain ->
      kstep KRun c (unlock (set_main (list_proc k c) (match back with Some n => MInit n | None => MFaults end)))
  | k_started c : c_main c = MInit 0 -> kstep KRun c (set_main c MFaults)
  (* a kill *)
  | k_kill_due c : c_main c = MFaults -> 0 < killEvery -> kstep KFault c (set_main c MPickKill)
  | k_pick_kill c r k : c_main c = MPickKill -> c_mu c = Some OMain -> pick r c = Some k ->
      kstep KRun c (unlock (set_main c (MKillPicked k)))
  | k_no_kill c : c_main c = MPickKill -> c_mu c = Some OMain -> live_procs c = [] ->
      kstep KRun c (unlock (set_main c MFaults))
  | k_mark_kill c k : c_main c = MKillPicked k -> c_mu c = Some OMain ->
      kstep KRun c (unlock (set_main (on_proc k mark_killed c) (MKillMarked k)))
  | k_kill c k : c_main c = MKillMarked k ->
      kstep KRun c (set_main (on_proc k sig_kill c) (MKillSent k))
  | k_replace c k p : c_main c = MKillSent k -> c_heap c !! k = Some p -> p_done p = true ->
      kstep KRun c (set_main (spawn (set_counts c (c_kills c + 1) (c_pauses c))) (MList (length (c_heap c)) None))
  (* a pause *)
  | k_pause_due c : c_main c = MFaults -> 0 < pauseEvery -> kstep KFault c (set_main c MPickPause)
  | k_pick_pause c r k : c_main c = MPickPause -> c_mu c = Some OMain -> pick r c = Some k ->
      kstep KRun c (unlock (set_main c (MPausePicked k)))
  | k_no_pause c : c_main c = MPickPause -> c_mu c = Some OMain -> live_procs c = [] ->
      kstep KRun c (unlock (set_main c MFaults))
  | k_mark_pause c k : c_main c = MPausePicked k -> c_mu c = Some OMain ->
      kstep KRun c (unlock (set_main (on_proc k (mark_paused true) c) (MPauseMarked k)))
  | k_pause c k : c_main c = MPauseMarked k ->
      kstep KRun c (set_main (set_timers (set_counts (on_proc k sig_stop c) (c_kills c) (c_pauses c + 1))
                                (c_timers c ++ [k])) MFaults)
  (* the end of the faults, and the shutdown *)
  | k_faults_over c : c_main c = MFaults -> kstep KRun c (set_main c MResumeAll)
  | k_resume_all c : c_main c = MResumeAll -> c_mu c = Some OMain ->
      kstep KRun c (unlock (set_main c (MResume (c_procs c))))
  | k_resume c k todo : c_main c = MResume (k :: todo) -> c_mu c = Some OMain ->
      kstep KRun c (unlock (set_main (resume k c) (MResume todo)))
  | k_resumed c : c_main c = MResume [] -> kstep KRun c (set_main c MDrain)
  | k_drained c : c_main c = MDrain -> kstep KRun c (set_main c MStopAll)
  | k_late c : c_main c = MDrain -> kstep KRun c (set_main c MPending)
  | k_pending c : c_main c = MPending -> c_mu c = Some OMain -> kstep KRun c (unlock (set_main c MStopAll))
  | k_stop_all c : c_main c = MStopAll -> c_mu c = Some OMain ->
      kstep KRun c (unlock (set_main c (MTerm (c_procs c) (c_procs c))))
  | k_term c k todo all : c_main c = MTerm (k :: todo) all ->
      kstep KRun c (set_main (on_proc k sig_terminate c) (MTerm todo all))
  | k_termed c all : c_main c = MTerm [] all -> kstep KRun c (set_main c (MJoining all))
  | k_join c k todo p : c_main c = MJoining (k :: todo) -> c_heap c !! k = Some p -> p_done p = true ->
      kstep KRun c (set_main c (MJoining todo))
  | k_joined c : c_main c = MJoining [] -> kstep KRun c (set_main c MReport)
  (* timers, processes, and the goroutines that wait for them *)
  | k_timer c ts1 k ts2 : c_mu c = Some (OTimer k) -> c_timers c = ts1 ++ k :: ts2 ->
      kstep KRun c (unlock (resume k (set_timers c (ts1 ++ ts2))))
  | k_exit c k p failed : c_heap c !! k = Some p -> p_os p = Running -> p_term p = true ->
      kstep KRun c (on_proc k (set_os (Gone failed)) c)
  | k_crash c k p failed : c_heap c !! k = Some p -> p_os p = Running ->
      kstep KCrash c (on_proc k (set_os (Gone failed)) c)
  | k_reap c k p failed err : c_mu c = Some (OWait k) -> c_heap c !! k = Some p -> p_os p = Gone failed ->
      p_done p = false -> kstep KRun c (unlock (reap k err c)).

(** A run, with what its steps were. *)
Inductive ksteps : list kact -> ctl -> ctl -> Prop :=
  | ksteps_refl c : ksteps [] c c
  | ksteps_step a tr c c1 c2 : kstep a c c1 -> ksteps tr c1 c2 -> ksteps (a :: tr) c c2.

Definition ctl_init (workers : nat) : ctl := mkCtl 0 [] [] [] 0 0 [] (MInit workers) None.
End steps.
