(* ===== verification/ChaosCtlProps.v ===== *)
(** * Guarantees of the chaos test's controller

    Faults the controller injects are never taken for crashes, and once it injects
    no more it finishes: the signals it sends end what it waits for, and the mutex
    is always released. *)

From S2P Require Import Prelude GoNum Errors ChaosCtl.
From stdpp Require Import strings relations.

Open Scope Z_scope.

Section props.
Context (killEvery pauseEvery : Z).
Abbreviation step := (kstep killEvery pauseEvery).
Abbreviation steps := (ksteps killEvery pauseEvery).

(** ** Processes *)

Definition has (c : ctl) (k : nat) (P : proc -> Prop) : Prop := exists p, c_heap c !! k = Some p /\ P p.

Definition gone (p : proc) : Prop := exists f, p_os p = Gone f.
Definition paused (p : proc) : Prop := p_paused p = true.

(** What is true of a process at any time. *)
Record proc_ok (p : proc) : Prop := {
  po_stopped : p_os p = Stopped -> paused p;
  po_victim : p_victim p = true -> p_killed p = true;
  po_done : p_done p = true -> gone p;
}.

(** A line of the crash list is about a worker that failed on its own. *)
Definition crash_of (s : string) (p : proc) : Prop :=
  p_os p = Gone true /\ p_victim p = false /\ exists err, s = p_id p +:+ ": " +:+ err.

(** Paused and still there. *)
Definition pending (c : ctl) (k : nat) : Prop := has c k (fun p => paused p /\ ~ gone p).

Record core (c : ctl) : Prop := {
  co_procs : Forall proc_ok (c_heap c);
  co_listed : forall k, k ∈ c_procs c -> has c k (fun _ => True);
  co_paused : forall k, pending c k -> k ∈ c_procs c;
  co_crashed : Forall (fun s => exists k, has c k (crash_of s)) (c_crashed c);
}.

(** While faults are injected, each paused worker has one timer, but for the one
    being paused. *)
Definition timed (c : ctl) : Prop :=
  NoDup (c_timers c) /\ forall j, (j ∈ c_timers c) <-> has c j paused.

(** Told to end, or gone. *)
Definition ending (p : proc) : Prop := p_term p = true \/ gone p.

Definition phase_ok (c : ctl) : Prop :=
  match c_main c with
  | MKillPicked k => timed c /\ has c k (fun _ => True)
  | MKillMarked k => timed c /\ has c k (fun p => p_killed p = true)
  | MKillSent k => timed c /\ has c k gone
  | MPausePicked k => timed c /\ has c k (fun p => ~ paused p /\ (k ∈ c_procs c \/ gone p))
  | MPauseMarked k =>
      NoDup (c_timers c) /\ ~ (k ∈ c_timers c) /\ forall j, (j ∈ c_timers c \/ j = k) <-> has c j paused
  | MList k _ => timed c /\ has c k (fun _ => True)
  | MResume todo => forall j, pending c j -> j ∈ todo
  | MDrain | MPending | MStopAll | MReport => forall j, ~ pending c j
  | MTerm todo all => (forall j, ~ pending c j) /\
      Forall (fun k => has c k (fun _ => True) /\ (k ∈ todo \/ has c k ending)) all
  | MJoining todo => (forall j, ~ pending c j) /\ Forall (fun k => has c k ending) todo
  | _ => timed c
  end.

(** Whoever holds the mutex has work to do with it. *)
Definition mu_ok (c : ctl) : Prop :=
  match c_mu c with
  | None => True
  | Some OMain => wants_mu (c_main c) = true
  | Some (OWait k) => has c k (fun p => gone p /\ p_done p = false)
  | Some (OTimer k) => k ∈ c_timers c
  end.

Definition ctl_ok (c : ctl) : Prop := core c /\ phase_ok c /\ mu_ok c.

(** ** Updates *)

Lemma has_on_proc k f c j (P : proc -> Prop) :
  has (on_proc k f c) j P <->
  (j = k /\ has c k (fun p => P (f p))) \/ (j <> k /\ has c j P).
Proof.
  unfold has, on_proc, set_heap. cbn. destruct (decide (k = j)) as [->|Hne].
  - rewrite list_lookup_alter_eq. destruct (c_heap c !! j) as [p|]; cbn; naive_solver.
  - rewrite list_lookup_alter_ne by done. naive_solver.
Qed.

(** An update that keeps what [P] looks at. *)
Lemma has_on_proc_same k f c j (P : proc -> Prop) :
  (forall p, c_heap c !! k = Some p -> P (f p) <-> P p) -> has (on_proc k f c) j P <-> has c j P.
Proof.
  intros Hf. rewrite has_on_proc. destruct (decide (j = k)) as [->|Hne]; [|naive_solver].
  unfold has. split; [|intros (p & Hp & HP); left; split; [done|]; exists p; split; [done|]; by apply Hf].
  intros [[_ (p & Hp & HP)]|[Hn _]]; [|done]. exists p. split; [done|]. by apply Hf.
Qed.

Lemma has_impl c k (P Q : proc -> Prop) : (forall p, P p -> Q p) -> has c k P -> has c k Q.
Proof. intros H (p & Hp & HP). exists p. auto. Qed.

(** A new process is running and has no marks. *)
Lemma has_spawn c k (P : proc -> Prop) :
  has (spawn c) k P <-> has c k P \/
  (k = length (c_heap c) /\
   P (mkProc ("chaos-worker-" +:+ Itoa (c_next c + 1)) Running false false false false false)).
Proof.
  unfold has, spawn. cbn. setoid_rewrite lookup_app_Some. split.
  - intros (p & [Hp|[Hk Hp]] & HP); [eauto|]. apply list_lookup_singleton_Some in Hp as [H0 <-].
    right. split; [lia | done].
  - intros [(p & Hp & HP)|[-> HP]]; [eauto|]. eexists. split; [|exact HP]. right. split; [lia|].
    by rewrite Nat.sub_diag.
Qed.

Lemma Forall_alter_proc (P : proc -> Prop) f k h :
  Forall P h -> (forall p, h !! k = Some p -> P p -> P (f p)) -> Forall P (alter f k h).
Proof.
  intros Hh Hf. apply Forall_lookup. intros j p. destruct (decide (k = j)) as [->|Hne].
  - rewrite list_lookup_alter_eq. destruct (h !! j) as [q|] eqn:E; [|done]. intros [= <-].
    apply Hf; [done|]. by eapply Forall_lookup_1.
  - rewrite list_lookup_alter_ne by done. by apply Forall_lookup_1.
Qed.

(** ** The core of the invariant *)

Lemma core_same c c' :
  c_heap c' = c_heap c -> c_procs c' = c_procs c -> c_crashed c' = c_crashed c -> core c -> core c'.
Proof.
  intros Hh Hp Hc [H1 H2 H3 H4]. unfold pending, has in *.
  split; unfold pending, has; rewrite ?Hh, ?Hp, ?Hc; done.
Qed.

Lemma core_on_proc k f c :
  core c ->
  (forall p, c_heap c !! k = Some p -> proc_ok p -> proc_ok (f p)) ->
  (forall p, c_heap c !! k = Some p -> paused (f p) -> ~ gone (f p) -> (paused p /\ ~ gone p) \/ k ∈ c_procs c) ->
  (forall p s, c_heap c !! k = Some p -> crash_of s p -> crash_of s (f p)) ->
  core (on_proc k f c).
Proof.
  intros [H1 H2 H3 H4] Hok Hpend Hcr. split.
  - apply Forall_alter_proc; [done|]. auto.
  - intros j Hj. apply has_on_proc_same; [done|]. by apply H2.
  - intros j [[-> (p & Hp & Hpa & Hg)]|[_ Hj]]%has_on_proc; [|by apply H3].
    destruct (Hpend p Hp Hpa Hg) as [Hold|Hin]; [|done]. apply H3. by exists p.
  - eapply Forall_impl; [exact H4|]. intros s0 (j & p & Hp & Hs). exists j. apply has_on_proc.
    destruct (decide (j = k)) as [->|Hne]; [left|right]; (split; [done|]); exists p; eauto.
Qed.

Lemma core_spawn c : core c -> core (spawn c).
Proof.
  intros [H1 H2 H3 H4]. split.
  - apply Forall_app. split; [done|]. constructor; [by split | constructor].
  - intros k Hk. apply has_spawn. left. by apply H2.
  - intros k [Hk|[_ [Hk _]]]%has_spawn; [by apply H3 | done].
  - eapply Forall_impl; [exact H4|]. intros s0 (k & Hk). exists k. apply has_spawn. by left.
Qed.

Lemma core_list c k : core c -> has c k (fun _ => True) -> core (list_proc k c).
Proof.
  intros [H1 H2 H3 H4] Hk. split; [done | | | done].
  - intros j [Hj|Hj%list_elem_of_singleton]%elem_of_app; [by apply H2 | by subst].
  - intros j Hj. apply elem_of_app. left. by apply H3.
Qed.

Lemma core_reap c k p failed err :
  core c -> c_heap c !! k = Some p -> p_os p = Gone failed -> core (reap k err c).
Proof.
  intros [H1 H2 H3 H4] Hp Hos. unfold reap. rewrite Hp, Hos.
  assert (forall j P, (forall p, P (mark_done p) <-> P p) ->
    has (mkCtl (c_next c) (alter mark_done k (c_heap c)) [] [] 0 0 [] MFaults None) j P <-> has c j P) as Hsame.
  { intros j P HP. by apply (has_on_proc_same k mark_done c). }
  split; cbn.
  - apply Forall_alter_proc; [done|]. intros q Hq [G1 G2 G3]. split; [done..|].
    intros _. assert (q = p) as -> by congruence. by exists failed.
  - intros j [_ Hj]%list_elem_of_filter. apply (Hsame j (fun _ => True)); [done|]. by apply H2.
  - intros j Hj%(Hsame j (fun p => paused p /\ ~ gone p)); [|done]. apply list_elem_of_filter.
    split; [|by apply H3]. intros ->. destruct Hj as (q & Hq & _ & Hg). apply Hg.
    assert (q = p) as -> by congruence. by exists failed.
  - assert (forall s0, (exists j, has c j (crash_of s0)) ->
      exists j, has (mkCtl (c_next c) (alter mark_done k (c_heap c)) [] [] 0 0 [] MFaults None) j (crash_of s0)) as Hkeep.
    { intros s0 (j & Hj). exists j. by apply Hsame. }
    assert (Forall (fun s => exists j, has c j (crash_of s))
      (if failed then if p_killed p then c_crashed c else c_crashed c ++ [p_id p +:+ ": " +:+ err]
       else c_crashed c)) as Hall; [|destruct failed; eapply Forall_impl; eauto].
    destruct failed; [|done]. destruct (p_killed p) eqn:Ek; [done|]. apply Forall_app. split; [done|].
    constructor; [|constructor]. exists k, p. split; [done|]. split_and!; [done | | by exists err].
    pose proof (Forall_lookup_1 _ _ _ _ H1 Hp) as [_ Hv _]. destruct (p_victim p); [|done].
    rewrite Hv in Ek; done.
Qed.

(** ** Resuming *)

Lemma resume_fields k c :
  c_procs (resume k c) = c_procs c /\ c_crashed (resume k c) = c_crashed c /\
  c_timers (resume k c) = c_timers c /\ c_main (resume k c) = c_main c.
Proof. unfold resume. repeat case_match; done. Qed.

Lemma has_resume_ne k c j P : j <> k -> has (resume k c) j P <-> has c j P.
Proof.
  intros Hne. unfold resume. destruct (c_heap c !! k); [|done]. destruct (p_paused _); [|done].
  rewrite has_on_proc. naive_solver.
Qed.

Lemma sig_cont_keeps p : p_paused (sig_cont p) = p_paused p /\ p_killed (sig_cont p) = p_killed p /\
  p_victim (sig_cont p) = p_victim p /\ p_id (sig_cont p) = p_id p /\ (gone (sig_cont p) <-> gone p) /\
  p_os (sig_cont p) <> Stopped /\ p_done (sig_cont p) = p_done p /\ p_term (sig_cont p) = p_term p.
Proof. unfold sig_cont, gone, set_os. destruct (p_os p) eqn:E; cbn; rewrite ?E; split_and!; try done; naive_solver. Qed.

Lemma has_resume_not k c : ~ has (resume k c) k paused.
Proof.
  unfold resume. destruct (c_heap c !! k) as [p|] eqn:Ep; [|intros (q & Hq & _); congruence].
  destruct (p_paused p) eqn:Eb.
  - intros [[_ (q & Hq & Hqp)]|[Hn _]]%has_on_proc; [|done].
    cbn in Hqp. unfold paused in Hqp. by rewrite (proj1 (sig_cont_keeps _)) in Hqp.
  - intros (q & Hq & Hqp). unfold paused in Hqp. congruence.
Qed.

(** Being resumed keeps what does not depend on being paused. *)
Lemma has_resume_same k c j (P : proc -> Prop) :
  (forall q, P (sig_cont (mark_paused false q)) <-> P q) -> has (resume k c) j P <-> has c j P.
Proof.
  intros HP. unfold resume. destruct (c_heap c !! k) as [p|]; [|done]. destruct (p_paused p); [|done].
  apply has_on_proc_same. intros q _. apply HP.
Qed.

Lemma has_resume_some k c j : has (resume k c) j (fun _ => True) <-> has c j (fun _ => True).
Proof. by apply has_resume_same. Qed.

Lemma has_resume_killed k c j :
  has (resume k c) j (fun p => p_killed p = true) <-> has c j (fun p => p_killed p = true).
Proof. apply has_resume_same. intros q. by rewrite (proj1 (proj2 (sig_cont_keeps _))). Qed.

Lemma gone_cont q : gone (sig_cont (mark_paused false q)) <-> gone q.
Proof. destruct (sig_cont_keeps (mark_paused false q)) as (_ & _ & _ & _ & -> & _). done. Qed.

Lemma has_resume_gone k c j : has (resume k c) j gone <-> has c j gone.
Proof. apply has_resume_same, gone_cont. Qed.

Lemma has_resume_ending k c j : has (resume k c) j ending <-> has c j ending.
Proof.
  apply has_resume_same. intros q. unfold ending. rewrite gone_cont.
  by destruct (sig_cont_keeps (mark_paused false q)) as (_ & _ & _ & _ & _ & _ & _ & ->).
Qed.

Lemma has_resume_waited k c j :
  has (resume k c) j (fun p => gone p /\ p_done p = false) <-> has c j (fun p => gone p /\ p_done p = false).
Proof.
  apply has_resume_same. intros q. rewrite gone_cont.
  by destruct (sig_cont_keeps (mark_paused false q)) as (_ & _ & _ & _ & _ & _ & -> & _).
Qed.

Lemma pending_resume k c j : pending (resume k c) j -> pending c j /\ j <> k.
Proof.
  intros Hj. assert (j <> k) as Hne.
  { intros ->. apply (has_resume_not k c). eapply has_impl; [|exact Hj]. by intros p []. }
  split; [|done]. by apply (has_resume_ne k).
Qed.

Lemma core_resume k c : core c -> core (resume k c).
Proof.
  intros Hc. unfold resume. destruct (c_heap c !! k) as [p0|] eqn:Ep; [|done].
  destruct (p_paused p0); [|done]. apply core_on_proc; [done | | |].
  - intros p _ [G1 G2 G3]. pose proof (sig_cont_keeps (mark_paused false p)) as (K1 & K2 & K3 & _ & K5 & K6 & K7 & _).
    split; cbn in *; [done | rewrite K2, K3; exact G2 | rewrite K7; intros Hd; apply K5; by apply G3].
  - intros p _ Hpa. unfold paused, compose in Hpa. rewrite (proj1 (sig_cont_keeps _)) in Hpa. discriminate Hpa.
  - intros p s0 _ (Hos & Hv & err & Hs). unfold crash_of, compose, sig_cont, mark_paused. cbn. rewrite Hos. cbn. eauto.
Qed.

(** ** Steps of the others *)

(** Nobody is newly paused; who is gone stays gone. *)
Lemma phase_timer c ts1 k ts2 :
  c_timers c = ts1 ++ k :: ts2 -> phase_ok c -> phase_ok (resume k (set_timers c (ts1 ++ ts2))).
Proof.
  intros Ht Hph. set (c1 := set_timers c (ts1 ++ ts2)).
  pose proof (resume_fields k c1) as (Ep & _ & Et & Em).
  assert (NoDup (c_timers c) -> NoDup (ts1 ++ ts2) /\ ~ (k ∈ ts1 ++ ts2) /\
    forall j, (j ∈ ts1 ++ ts2) <-> j ∈ c_timers c /\ j <> k) as Hrest.
  { rewrite Ht. intros Hnd. apply NoDup_Permutation_proper with (y := k :: ts1 ++ ts2) in Hnd;
      [|symmetry; apply Permutation_middle].
    apply NoDup_cons in Hnd as [Hk Hnd]. split_and!; [done | done|]. intros j. set_solver. }
  assert (forall j, has (resume k c1) j paused <-> has c j paused /\ j <> k) as Hpa.
  { intros j. destruct (decide (j = k)) as [->|Hne].
    - split; [intros H; by apply has_resume_not in H | naive_solver].
    - rewrite has_resume_ne by done. naive_solver. }
  assert (timed c -> timed (resume k c1)) as Htimed.
  { intros [Hnd Hiff]. destruct (Hrest Hnd) as (Hnd' & _ & Hel). split; rewrite Et; [done|].
    intros j. cbn. rewrite Hel, Hpa, Hiff. done. }
  assert (forall j, pending (resume k c1) j -> pending c j) as Hpend by (intros j Hj; by apply pending_resume in Hj as [Hj _]).
  unfold phase_ok in *. rewrite Em. cbn. destruct (c_main c) eqn:Emain; try (by apply Htimed).
  - destruct Hph as [H1 H2]. split; [by apply Htimed | by apply has_resume_some].
  - destruct Hph as [H1 H2]. split; [by apply Htimed | by apply has_resume_some].
  - destruct Hph as [H1 H2]. split; [by apply Htimed | by apply has_resume_killed].
  - destruct Hph as [H1 H2]. split; [by apply Htimed | by apply has_resume_gone].
  - destruct Hph as [H1 H2]. split; [by apply Htimed|]. rewrite Ep. apply has_resume_ne; [|done].
    intros ->. assert (has c k paused) as (p & Hp & Hpp) by (apply H1; rewrite Ht; set_solver).
    destruct H2 as (q & Hq & Hn & _). congruence.
  - destruct Hph as (Hnd & Hnin & Hiff). destruct (Hrest Hnd) as (Hnd' & _ & Hel). rewrite Et. cbn.
    split_and!; [done | rewrite Hel; tauto|]. intros j. rewrite Hel, Hpa, <- Hiff.
    destruct (decide (j = k)) as [->|Hjk]; [|tauto].
    assert (k ∈ c_timers c) by (rewrite Ht; set_solver). split; [|tauto]. intros [[_ []]|Hk]; [done|]. subst. done.
  - intros j Hj. by apply Hph, Hpend.
  - intros j Hj. by apply (Hph j), Hpend.
  - intros j Hj. by apply (Hph j), Hpend.
  - intros j Hj. by apply (Hph j), Hpend.
  - destruct Hph as [H1 H2]. split; [intros j Hj; by apply (H1 j), Hpend|].
    eapply Forall_impl; [exact H2|]. intros j. by rewrite has_resume_some, has_resume_ending.
  - destruct Hph as [H1 H2]. split; [intros j Hj; by apply (H1 j), Hpend|].
    eapply Forall_impl; [exact H2|]. intros j Hj. by apply has_resume_ending.
  - intros j Hj. by apply (Hph j), Hpend.
Qed.

(** A process changes without being paused or resumed, and [procs] loses only
    processes that are gone. *)
Lemma phase_mono c c' :
  c_main c' = c_main c -> c_timers c' = c_timers c ->
  (forall j, has c' j paused <-> has c j paused) ->
  (forall j, pending c' j -> pending c j) ->
  (forall j, has c j (fun _ => True) -> has c' j (fun _ => True)) ->
  (forall j, has c j (fun p => p_killed p = true) -> has c' j (fun p => p_killed p = true)) ->
  (forall j, has c j gone -> has c' j gone) ->
  (forall j, has c j ending -> has c' j ending) ->
  (forall j, has c j (fun p => ~ paused p /\ (j ∈ c_procs c \/ gone p)) ->
    has c' j (fun p => ~ paused p /\ (j ∈ c_procs c' \/ gone p))) ->
  phase_ok c -> phase_ok c'.
Proof.
  intros Em Et Hpa Hpe Hs Hk Hgo Hen Hpi Hph. unfold phase_ok, timed in *. rewrite Em, Et.
  destruct (c_main c); try (setoid_rewrite Hpa; done).
  - destruct Hph as [H1 H2]. setoid_rewrite Hpa. auto.
  - destruct Hph as [H1 H2]. setoid_rewrite Hpa. auto.
  - destruct Hph as [H1 H2]. setoid_rewrite Hpa. auto.
  - destruct Hph as [H1 H2]. setoid_rewrite Hpa. auto.
  - destruct Hph as [H1 H2]. setoid_rewrite Hpa. auto.
  - intros j Hj. auto.
  - intros j Hj. by apply (Hph j), Hpe.
  - intros j Hj. by apply (Hph j), Hpe.
  - intros j Hj. by apply (Hph j), Hpe.
  - destruct Hph as [H1 H2]. split; [intros j Hj; by apply (H1 j), Hpe|].
    eapply Forall_impl; [exact H2|]. naive_solver.
  - destruct Hph as [H1 H2]. split; [intros j Hj; by apply (H1 j), Hpe|].
    eapply Forall_impl; [exact H2|]. auto.
  - intros j Hj. by apply (Hph j), Hpe.
Qed.

Lemma phase_exit c k p failed :
  c_heap c !! k = Some p -> p_os p = Running -> phase_ok c -> phase_ok (on_proc k (set_os (Gone failed)) c).
Proof.
  intros Hp Hos. apply phase_mono; try done.
  - intros j. by apply has_on_proc_same.
  - intros j [[-> (q & Hq & _ & Hg)]|[_ Hj]]%has_on_proc; [|done]. destruct Hg. by exists failed.
  - intros j Hj. by apply has_on_proc_same.
  - intros j Hj. by apply has_on_proc_same.
  - intros j (q & Hq & Hg). apply has_on_proc. destruct (decide (j = k)) as [->|Hne]; [left|right];
      (split; [done|]); exists q; (split; [done|]); [by exists failed | done].
  - intros j (q & Hq & Hg). apply has_on_proc. destruct (decide (j = k)) as [->|Hne]; [left|right];
      (split; [done|]); exists q; (split; [done|]); [right; by exists failed | done].
  - intros j (q & Hq & Hn & Ho). apply has_on_proc. destruct (decide (j = k)) as [->|Hne].
    + left. split; [done|]. exists q. split; [done|]. split; [done|]. right. by exists failed.
    + right. split; [done|]. exists q. done.
Qed.

Lemma core_exit c k p failed :
  core c -> c_heap c !! k = Some p -> p_os p = Running -> core (on_proc k (set_os (Gone failed)) c).
Proof.
  intros Hc Hp Hos. apply core_on_proc; [done | | |].
  - intros q _ [G1 G2 G3]. split; [done..|]. intros _. by exists failed.
  - intros q _ _ Hg. destruct Hg. by exists failed.
  - intros q s0 Hq (Hg & _). congruence.
Qed.

Lemma has_reap c k p err j P :
  c_heap c !! k = Some p -> (forall q, P (mark_done q) <-> P q) -> has (reap k err c) j P <-> has c j P.
Proof. intros Hp HP. unfold reap. rewrite Hp. by apply (has_on_proc_same k mark_done c). Qed.

Lemma phase_reap c k p failed err :
  c_heap c !! k = Some p -> p_os p = Gone failed -> phase_ok c -> phase_ok (reap k err c).
Proof.
  intros Hp Hos.
  assert (c_procs (reap k err c) = filter (fun q => q <> k) (c_procs c)) as Epr by (unfold reap; by rewrite Hp).
  apply phase_mono; try (unfold reap; by rewrite Hp).
  - intros j. by apply (has_reap _ _ p).
  - intros j Hj. by apply (has_reap _ _ p) in Hj.
  - intros j Hj. by apply (has_reap _ _ p).
  - intros j Hj. by apply (has_reap _ _ p).
  - intros j Hj. by apply (has_reap _ _ p).
  - intros j Hj. by apply (has_reap _ _ p).
  - intros j Hj. apply (has_reap _ _ p); [done | done|]. rewrite Epr.
    destruct Hj as (q & Hq & Hn & Ho). exists q. split; [done|]. split; [done|].
    destruct (decide (j = k)) as [->|Hne].
    + right. assert (q = p) as -> by congruence. by exists failed.
    + destruct Ho as [Ho|Ho]; [left|by right]. by apply list_elem_of_filter.
Qed.

(** ** Steps of the main goroutine *)

Lemma timed_same c c' :
  c_heap c' = c_heap c -> c_timers c' = c_timers c -> timed c -> timed c'.
Proof. intros Hh Ht. unfold timed, has. by rewrite Hh, Ht. Qed.

Lemma timed_on_proc k f c :
  (forall p, c_heap c !! k = Some p -> paused (f p) <-> paused p) -> timed c -> timed (on_proc k f c).
Proof. intros Hf [Hnd Hiff]. split; [done|]. intros j. rewrite has_on_proc_same by done. apply Hiff. Qed.

Lemma timed_spawn c : timed c -> timed (spawn c).
Proof.
  intros [Hnd Hiff]. split; [done|]. intros j. rewrite has_spawn. cbn. rewrite Hiff. unfold paused. naive_solver.
Qed.

Lemma sig_kill_keeps p : p_paused (sig_kill p) = p_paused p /\ p_killed (sig_kill p) = p_killed p /\
  gone (sig_kill p) /\ p_os (sig_kill p) <> Stopped /\ p_done (sig_kill p) = p_done p.
Proof. unfold sig_kill, gone. destruct (p_os p) eqn:E; cbn; rewrite ?E; split_and!; eauto. Qed.

Lemma sig_stop_keeps p : p_paused (sig_stop p) = p_paused p /\ p_killed (sig_stop p) = p_killed p /\
  p_victim (sig_stop p) = p_victim p /\ (gone (sig_stop p) <-> gone p) /\ p_done (sig_stop p) = p_done p.
Proof. unfold sig_stop, gone, set_os. destruct (p_os p) eqn:E; cbn; rewrite ?E; split_and!; try done; naive_solver. Qed.

Lemma sig_term_keeps p : p_paused (sig_terminate p) = p_paused p /\ p_killed (sig_terminate p) = p_killed p /\
  p_victim (sig_terminate p) = p_victim p /\ p_os (sig_terminate p) = p_os p /\ p_done (sig_terminate p) = p_done p /\
  p_id (sig_terminate p) = p_id p.
Proof. unfold sig_terminate. by destruct (p_os p) eqn:E; cbn; rewrite ?E. Qed.

(** It makes a process end. *)
Lemma sig_term_ends p : ending (sig_terminate p).
Proof. unfold sig_terminate, ending, gone. destruct (p_os p) eqn:E; cbn; rewrite ?E; eauto. Qed.

Lemma core_kill c k :
  core c -> has c k (fun p => p_killed p = true) -> core (on_proc k sig_kill c).
Proof.
  intros Hc (p0 & Hp0 & Hk0). apply core_on_proc; [done | | |].
  - intros p Hp _. assert (p = p0) as -> by congruence. destruct (sig_kill_keeps p0) as (_ & H2 & H3 & H4 & _).
    split; [done | intros _; by rewrite H2 | done].
  - intros p _ _ Hg. by destruct Hg, (sig_kill_keeps p) as (_ & _ & Hg & _).
  - intros p s0 _ Hcr. destruct Hcr as (Hos & Hr). unfold sig_kill. by rewrite Hos.
Qed.

Lemma core_stop c k : core c -> has c k paused -> core (on_proc k sig_stop c).
Proof.
  intros Hc (p0 & Hp0 & Hk0). apply core_on_proc; [done | | |].
  - intros p Hp [G1 G2 G3]. assert (p = p0) as -> by congruence.
    destruct (sig_stop_keeps p0) as (H1 & H2 & H3 & H4 & H5). split; [|by rewrite H2, H3 | by rewrite H4, H5].
    intros _. unfold paused. by rewrite H1.
  - intros p _ Hpa Hg. destruct (sig_stop_keeps p) as (H1 & _ & _ & H4 & _). unfold paused in *.
    rewrite H1 in Hpa. rewrite H4 in Hg. by left.
  - intros p s0 _ (Hos & Hr). unfold sig_stop. rewrite Hos. by split.
Qed.

Lemma core_term c k : core c -> core (on_proc k sig_terminate c).
Proof.
  intros Hc. apply core_on_proc; [done | | |]; intros p; destruct (sig_term_keeps p) as (H1 & H2 & H3 & H4 & H5 & H6);
    unfold paused, gone, crash_of in *.
  - intros _ [G1 G2 G3]. split; unfold paused, gone in *; by rewrite ?H1, ?H2, ?H3, ?H4, ?H5.
  - rewrite H1, H4. by left.
  - by rewrite H3, H4, H6.
Qed.

Lemma core_mark_killed c k : core c -> core (on_proc k mark_killed c).
Proof.
  intros Hc. apply core_on_proc; [done | intros p _ [G1 G2 G3]; by split | by left | done].
Qed.

Lemma core_mark_paused c k :
  core c -> has c k (fun p => ~ paused p /\ (k ∈ c_procs c \/ gone p)) -> core (on_proc k (mark_paused true) c).
Proof.
  intros Hc (p0 & Hp0 & _ & Ho). apply core_on_proc; [done | intros p _ [G1 G2 G3]; by split | | done].
  intros p Hp _ Hg. assert (p = p0) as -> by congruence. right. destruct Ho as [Ho|Ho]; [done|]. by destruct Hg.
Qed.

Lemma pick_ok c r k : core c -> pick r c = Some k -> has c k (fun p => ~ paused p /\ (k ∈ c_procs c \/ gone p)).
Proof.
  intros Hc Hk%list_elem_of_lookup_2. apply list_elem_of_filter in Hk as [Hpk Hin].
  unfold pickable in Hpk. destruct (c_heap c !! k) as [p|] eqn:E; [|done].
  exists p. split; [done|]. split; [|by left]. unfold paused. destruct Hpk. congruence.
Qed.

Lemma mark_pause_phase c k :
  timed c -> has c k (fun p => ~ paused p /\ (k ∈ c_procs c \/ gone p)) ->
  phase_ok (set_main (on_proc k (mark_paused true) c) (MPauseMarked k)).
Proof.
  intros [Hnd Hiff] (p & Hp & Hn & _). cbn. split_and!; [done | |].
  - intros (q & Hq & Hpa)%Hiff. congruence.
  - intros j. rewrite Hiff. change (has (set_main ?x _) j paused) with (has x j paused). rewrite has_on_proc.
    destruct (decide (j = k)) as [->|Hne]; [|naive_solver].
    split; [|by right]. intros _. left. split; [done|]. by exists p.
Qed.

Lemma pause_phase c k :
  phase_ok (set_main c (MPauseMarked k)) ->
  timed (set_main (set_timers (set_counts (on_proc k sig_stop c) (c_kills c) (c_pauses c + 1))
    (c_timers c ++ [k])) MFaults).
Proof.
  cbn. intros (Hnd & Hnin & Hiff). split; cbn.
  - apply NoDup_app. split_and!; [done | set_solver | apply NoDup_singleton].
  - intros j. rewrite elem_of_app, list_elem_of_singleton, Hiff.
    change (has c j paused <-> has (on_proc k sig_stop c) j paused). symmetry. apply has_on_proc_same.
    intros p _. unfold paused. by rewrite (proj1 (sig_stop_keeps p)).
Qed.

(** One more of the workers has its SIGTERM. *)
Lemma term_phase c k todo all :
  phase_ok (set_main c (MTerm (k :: todo) all)) -> phase_ok (set_main (on_proc k sig_terminate c) (MTerm todo all)).
Proof.
  cbn. intros [Hn Hall].
  assert (forall j P, (forall p, P (sig_terminate p) <-> P p) ->
    has (on_proc k sig_terminate c) j P <-> has c j P) as Hsame by (intros; by apply has_on_proc_same).
  split.
  - intros j Hj. apply (Hn j). apply (Hsame j); [|exact Hj]. intros p. unfold paused, gone.
    by destruct (sig_term_keeps p) as (-> & _ & _ & -> & _).
  - eapply Forall_impl; [exact Hall|]. intros j [Hj Ho]. split; [by apply (Hsame j)|].
    destruct (decide (j = k)) as [->|Hne].
    + right. apply (has_on_proc k sig_terminate c). left. split; [done|].
      eapply has_impl; [|exact Hj]. intros p _. apply sig_term_ends.
    + destruct Ho as [[?|?]%elem_of_cons|Ho]; [done | by left|]. right. apply (has_on_proc k sig_terminate c). by right.
Qed.

Lemma phase_at c m : c_main c = m -> phase_ok c -> phase_ok (set_main c m).
Proof. intros <-. by destruct c. Qed.

(** ** The mutex *)

Definition waited (c : ctl) (k : nat) : Prop := has c k (fun p => gone p /\ p_done p = false).

(** A step that does not touch the mutex. *)
Lemma mu_keep c c' :
  mu_ok c -> c_mu c' = c_mu c -> (wants_mu (c_main c) = false \/ c_main c' = c_main c) ->
  (forall k, waited c k -> waited c' k) -> (forall k, k ∈ c_timers c -> k ∈ c_timers c') -> mu_ok c'.
Proof.
  unfold mu_ok. intros H -> Hm Hw Ht. destruct (c_mu c) as [[|k|k]|]; [|by apply Hw | by apply Ht | done].
  destruct Hm as [Hm| ->]; [congruence | done].
Qed.

Lemma waited_on_proc k f c j :
  (forall p, gone p -> gone (f p) /\ p_done (f p) = p_done p) -> waited c j -> waited (on_proc k f c) j.
Proof.
  intros Hf (p & Hp & Hg & Hd). apply has_on_proc. destruct (decide (j = k)) as [->|]; [left | right];
    (split; [done|]); exists p; (split; [done|]); [|done]. destruct (Hf p Hg) as [? ->]. done.
Qed.

Lemma waited_exit k failed c j : waited c j -> waited (on_proc k (set_os (Gone failed)) c) j.
Proof. apply waited_on_proc. intros p _. split; [by exists failed | done]. Qed.

Lemma waited_spawn c j : waited c j -> waited (spawn c) j.
Proof. intros Hj. apply has_spawn. by left. Qed.

(** ** Every step keeps the invariant *)

(** The processes and the list are the same. *)
Lemma ctl_ok_same c c' :
  c_heap c' = c_heap c -> c_procs c' = c_procs c -> c_crashed c' = c_crashed c ->
  core c -> phase_ok c' -> mu_ok c' -> ctl_ok c'.
Proof. intros ? ? ? Hc Hp Hm. split_and!; [by apply (core_same c) | done | done]. Qed.

Lemma kstep_ok a c c' : step a c c' -> ctl_ok c -> ctl_ok c'.
Proof.
  intros Hst (Hc & Hph & Hmu).
  destruct Hst as [c Hf Hw|c k p failed Hf Hp Hos Hd|c k Hf Hk|c n Em|c k back Em _|c Em|c Em _|c r k Em _ Hk|c Em _ _
    |c k Em _|c k Em|c k p Em Hp Hd|c Em _|c r k Em _ Hk|c Em _ _|c k Em _|c k Em|c Em|c Em _|c k todo Em _|c Em|c Em|c Em
    |c Em _|c Em _|c k todo all Em|c all Em|c k todo p Em Hp Hd|c Em|c ts1 k ts2 Hf Et|c k p failed Hp Hos _
    |c k p failed Hp Hos|c k p failed err Hf Hp Hos Hd];
    try (apply (phase_at _ _ Em) in Hph; cbn in Hph);
    try (assert (mu_ok c) as Hmu' by exact Hmu; unfold mu_ok in Hmu').
  - by apply (ctl_ok_same c).
  - apply (ctl_ok_same c); [done.. | exact Hph |]. exists p. split; [done|]. split; [by exists failed | done].
  - by apply (ctl_ok_same c).
  - split_and!; [by apply (core_same (spawn c)), core_spawn | |].
    + split; [by apply timed_spawn|]. apply (has_spawn c). right. by split.
    + eapply (mu_keep c); [done | done | left; by rewrite Em | apply waited_spawn | done].
  - destruct Hph as [Ht Hk]. split_and!; [by apply (core_same (list_proc k c)), core_list | by destruct back | done].
  - apply (ctl_ok_same c); [done.. | exact Hph |]. eapply (mu_keep c); [done | done | left; by rewrite Em | done..].
  - apply (ctl_ok_same c); [done.. | exact Hph |]. eapply (mu_keep c); [done | done | left; by rewrite Em | done..].
  - apply (ctl_ok_same c); [done.. | | done]. split; [done|].
    eapply has_impl; [|exact (pick_ok c r k Hc Hk)]. done.
  - by apply (ctl_ok_same c).
  - destruct Hph as [Ht Hk]. split_and!; [by apply (core_same (on_proc k mark_killed c)), core_mark_killed | | done].
    split; [by apply (timed_on_proc k mark_killed c)|]. apply (has_on_proc k mark_killed c). left.
    split; [done|]. eapply has_impl; [|exact Hk]. done.
  - destruct Hph as [Ht Hk]. split_and!; [by apply (core_same (on_proc k sig_kill c)), core_kill | |].
    + split; [apply (timed_on_proc k sig_kill c); [|done]; intros p _; unfold paused; by rewrite (proj1 (sig_kill_keeps p))|].
      apply (has_on_proc k sig_kill c). left. split; [done|].
      eapply has_impl; [|exact Hk]. intros p _. apply sig_kill_keeps.
    + eapply (mu_keep c); [done | done | left; by rewrite Em | | done]. intros j. apply (waited_on_proc k sig_kill c).
      intros p _. split; apply sig_kill_keeps.
  - destruct Hph as [Ht Hk]. split_and!; [by apply (core_same (spawn c)), core_spawn | |].
    + split; [by apply (timed_spawn c)|]. apply (has_spawn c). right. by split.
    + eapply (mu_keep c); [done | done | left; by rewrite Em | apply waited_spawn | done].
  - apply (ctl_ok_same c); [done.. | exact Hph |]. eapply (mu_keep c); [done | done | left; by rewrite Em | done..].
  - apply (ctl_ok_same c); [done.. | | done]. split; [done|]. exact (pick_ok c r k Hc Hk).
  - by apply (ctl_ok_same c).
  - destruct Hph as [Ht Hk]. split_and!; [|by apply (mark_pause_phase c k) | done].
    by apply (core_same (on_proc k (mark_paused true) c)), core_mark_paused.
  - split_and!; [|by apply (pause_phase c k) |].
    + apply (core_same (on_proc k sig_stop c)), (core_stop c k Hc); try done. apply Hph. by right.
    + eapply (mu_keep c); [done | done | left; by rewrite Em | |].
      * intros j. apply (waited_on_proc k sig_stop c). intros p Hg. split; [by apply sig_stop_keeps | apply sig_stop_keeps].
      * intros j Hj. apply elem_of_app. by left.
  - apply (ctl_ok_same c); [done.. | exact Hph |]. eapply (mu_keep c); [done | done | left; by rewrite Em | done..].
  - apply (ctl_ok_same c); [done.. | | done]. exact (co_paused c Hc).
  - split_and!; [by apply (core_same (resume k c)), core_resume | | done]. intros j Hj.
    change (pending (resume k c) j) in Hj. apply pending_resume in Hj as [Hj Hne].
    apply Hph in Hj. set_solver.
  - apply (ctl_ok_same c); [done.. | |].
    + intros j Hj. by apply Hph, not_elem_of_nil in Hj.
    + eapply (mu_keep c); [done | done | left; by rewrite Em | done..].
  - apply (ctl_ok_same c); [done.. | exact Hph |]. eapply (mu_keep c); [done | done | left; by rewrite Em | done..].
  - apply (ctl_ok_same c); [done.. | exact Hph |]. eapply (mu_keep c); [done | done | left; by rewrite Em | done..].
  - by apply (ctl_ok_same c).
  - apply (ctl_ok_same c); [done.. | | done]. split; [exact Hph|]. apply Forall_forall. intros j Hj.
    split; [exact (co_listed c Hc j Hj) | by left].
  - split_and!; [by apply (core_same (on_proc k sig_terminate c)), core_term | by apply term_phase |].
    eapply (mu_keep c); [done | done | left; by rewrite Em | | done]. intros j. apply (waited_on_proc k sig_terminate c).
    intros p. unfold gone. by destruct (sig_term_keeps p) as (_ & _ & _ & -> & -> & _).
  - apply (ctl_ok_same c); [done.. | |].
    + destruct Hph as [H1 H2]. split; [done|]. eapply Forall_impl; [exact H2|].
      intros j [_ [Hj%not_elem_of_nil|Hj]]; done.
    + eapply (mu_keep c); [done | done | left; by rewrite Em | done..].
  - apply (ctl_ok_same c); [done.. | |].
    + destruct Hph as [H1 H2]. split; [done|]. by inversion H2.
    + eapply (mu_keep c); [done | done | left; by rewrite Em | done..].
  - apply (ctl_ok_same c); [done.. | exact (proj1 Hph) |]. eapply (mu_keep c); [done | done | left; by rewrite Em | done..].
  - split_and!; [|by apply (phase_timer c) | done].
    apply (core_same (resume k (set_timers c (ts1 ++ ts2)))), core_resume; try done. by apply (core_same c).
  - split_and!; [by eapply core_exit | by eapply phase_exit|]. eapply (mu_keep c); [done | done | by right | apply waited_exit | done].
  - split_and!; [by eapply core_exit | by eapply phase_exit|]. eapply (mu_keep c); [done | done | by right | apply waited_exit | done].
  - split_and!; [|by eapply (phase_reap c) | done]. by eapply (core_same (reap k err c)), core_reap.
Qed.

Lemma init_ok n : ctl_ok (ctl_init n).
Proof.
  split_and!; [| |done].
  - split; cbn; [constructor | | | constructor]; [set_solver|].
    intros k (p & Hp & _). by destruct k.
  - split; [constructor|]. cbn. intros j. split; [set_solver|]. intros (p & Hp & _). by destruct j.
Qed.

Lemma ksteps_ok tr c c' : steps tr c c' -> ctl_ok c -> ctl_ok c'.
Proof. induction 1; [done|]. eauto using kstep_ok. Qed.

Lemma reach_ctl_ok n tr c : steps tr (ctl_init n) c -> ctl_ok c.
Proof. intros Hr. eapply ksteps_ok, init_ok. exact Hr. Qed.

(** Faults are never taken for crashes: in every interleaving, each line of
    the crash list names a worker whose exit was an error, never one that ended by
    the controller's SIGKILL, however kill, exit and reaping race. *)
Theorem crashes_are_real n tr c s :
  steps tr (ctl_init n) c -> s ∈ c_crashed c ->
  exists k p err, c_heap c !! k = Some p /\ s = p_id p +:+ ": " +:+ err /\
    p_os p = Gone true /\ p_victim p = false.
Proof.
  intros Hr Hs. destruct (reach_ctl_ok n tr c Hr) as [[_ _ _ Hc] _].
  rewrite Forall_forall in Hc. destruct (Hc s Hs) as (k & p & Hp & Hos & Hv & err & He).
  by exists k, p, err.
Qed.

(** ** The controller is never stuck *)

(** No process is stopped once all have been resumed. *)
Lemma none_stopped c k p :
  core c -> (forall j, ~ pending c j) -> c_heap c !! k = Some p -> p_os p <> Stopped.
Proof.
  intros [Hok _ _ _] Hn Hp Hs.
  apply (Hn k). exists p. split; [done|]. pose proof (Forall_lookup_1 _ _ _ _ Hok Hp) as [Hst _ _].
  split; [by apply Hst|]. intros (f & Hf). congruence.
Qed.

(** Who holds the mutex releases it. *)
Lemma holder_moves c o : ctl_ok c -> c_mu c = Some o -> exists c', step KRun c c'.
Proof.
  intros (Hc & Hph & Hmu) Ho. unfold mu_ok in Hmu. rewrite Ho in Hmu. destruct o as [|k|k].
  - destruct (c_main c) as [| | | |k| | | |k| | |[|k todo]| | | | | |] eqn:Em; try discriminate Hmu;
      try (eexists; by econstructor).
    + destruct (live_procs c) as [|k ks] eqn:E; [eexists; by apply k_no_kill|].
      eexists. apply (k_pick_kill _ _ c 0 k); [done | done|]. unfold pick. by rewrite E.
    + destruct (live_procs c) as [|k ks] eqn:E; [eexists; by apply k_no_pause|].
      eexists. apply (k_pick_pause _ _ c 0 k); [done | done|]. unfold pick. by rewrite E.
  - destruct Hmu as (p & Hp & (f & Hg) & Hd). eexists. by apply (k_reap _ _ c k p f "").
  - apply list_elem_of_split in Hmu as (ts1 & ts2 & Ht). eexists. by eapply k_timer.
Qed.

(** A process that is gone is reaped. *)
Lemma gone_moves c k p :
  c_mu c = None -> c_heap c !! k = Some p -> gone p -> p_done p = false -> exists c', step KRun c c'.
Proof. intros Hf Hp (f & Hg) Hd. eexists. by eapply k_lock_wait. Qed.

Lemma progress c : ctl_ok c -> c_main c = MReport \/ exists c', step KRun c c'.
Proof.
  intros Hok. destruct (c_mu c) as [o|] eqn:Emu; [right; by eapply holder_moves|].
  destruct Hok as (Hc & Hph & _). destruct (wants_mu (c_main c)) eqn:Ew; [right; eexists; by apply k_lock_main|].
  unfold phase_ok in Hph. destruct (c_main c) as [[|n]| | | | | |k| | | | |[|k todo]| | | |[|k todo] all|[|k todo]|] eqn:Em;
    try discriminate Ew; try (right; eexists; by econstructor); [| |by left].
  - right. destruct Hph as [_ (p & Hp & Hg)]. destruct (p_done p) eqn:Ed; [eexists; by eapply k_replace|].
    by eapply gone_moves.
  - right. destruct Hph as [Hn Hl]. apply Forall_cons in Hl as [(p & Hp & He) _].
    destruct (p_done p) eqn:Ed; [eexists; by eapply k_join|].
    destruct (p_os p) as [| |f] eqn:Eo.
    + destruct He as [Ht|(f & Hg)]; [|congruence]. eexists. by eapply (k_exit _ _ c k p false).
    + by destruct (none_stopped c k p Hc Hn Hp).
    + eapply gone_moves; [done | done | by exists f | done].
Qed.

(** ** It gets closer to the end *)

Definition proc_work (p : proc) : nat :=
  if p_done p then 0 else match p_os p with Gone _ => 3 | _ => 5 end.

Fixpoint heap_work (h : list proc) : nat :=
  match h with [] => 0 | p :: h' => proc_work p + heap_work h' end.

(** What is left for the main goroutine when [n] workers are listed. *)
Definition main_work (n : nat) (m : mpc) : nat :=
  match m with
  | MReport => 0
  | MJoining todo => 1 + length todo
  | MTerm todo all => 2 + length todo + length all
  | MStopAll => 2 * n + 5
  | MPending => 2 * n + 7
  | MDrain => 2 * n + 8
  | MResume todo => 2 * n + 9 + 2 * length todo
  | MResumeAll => 4 * n + 11
  | MFaults => 4 * n + 12
  | MPauseMarked _ => 4 * n + 16
  | MPausePicked _ => 4 * n + 18
  | MPickPause => 4 * n + 20
  | MList _ None => 4 * n + 18
  | MKillSent _ => 4 * n + 24
  | MKillMarked _ => 4 * n + 25
  | MKillPicked _ => 4 * n + 27
  | MPickKill => 4 * n + 29
  | MInit m => 4 * n + 13 + 20 * m
  | MList _ (Some m) => 4 * n + 20 + 20 * m
  end.

Definition mu_work (o : option owner) : nat := match o with None => 1 | Some _ => 0 end.

(** Steps left, at most, if no more faults are injected. *)
Definition ctl_work (c : ctl) : nat :=
  main_work (length (c_procs c)) (c_main c) + heap_work (c_heap c) + 3 * length (c_timers c) + mu_work (c_mu c).

Lemma heap_work_alter f k h p :
  h !! k = Some p -> (heap_work (alter f k h) + proc_work p = heap_work h + proc_work (f p))%nat.
Proof.
  revert k. induction h as [|q h IH]; intros [|k] Hp; [done | done | |].
  - injection Hp as ->. cbn. lia.
  - specialize (IH k Hp). change (alter f (S k) (q :: h)) with (q :: alter f k h). cbn [heap_work]. lia.
Qed.

(** A change that does not add work. *)
Lemma heap_work_same f k h :
  (forall p, proc_work (f p) <= proc_work p)%nat -> (heap_work (alter f k h) <= heap_work h)%nat.
Proof.
  intros Hf. revert k. induction h as [|q h IH]; intros [|k]; [done | done | |].
  - specialize (Hf q). cbn. lia.
  - specialize (IH k). change (alter f (S k) (q :: h)) with (q :: alter f k h). cbn [heap_work]. lia.
Qed.

Lemma heap_work_spawn c : heap_work (c_heap (spawn c)) = (heap_work (c_heap c) + 5)%nat.
Proof. unfold spawn. cbn. induction (c_heap c) as [|p h IH]; cbn; [done | lia]. Qed.

Lemma heap_work_resume k c : (heap_work (c_heap (resume k c)) <= heap_work (c_heap c))%nat.
Proof.
  unfold resume. destruct (c_heap c !! k) as [p|]; [|done]. destruct (p_paused p); [|done].
  apply heap_work_same. intros q. unfold proc_work, compose, sig_cont, mark_paused. cbn.
  destruct (p_os q) eqn:E; cbn; rewrite ?E; destruct (p_done q); lia.
Qed.

Lemma signal_work f k h :
  f = sig_kill \/ f = sig_stop \/ f = sig_terminate \/ f = mark_killed \/ f = mark_paused true ->
  (heap_work (alter f k h) <= heap_work h)%nat.
Proof.
  intros Hf. apply heap_work_same. intros p. revert Hf.
  unfold proc_work, sig_kill, sig_stop, sig_terminate, mark_killed, mark_paused, set_os.
  intros [->|[->|[->|[->| ->]]]]; destruct (p_os p) eqn:E; cbn; rewrite ?E; destruct (p_done p); cbn; lia.
Qed.

Lemma exit_work c k p failed :
  core c -> c_heap c !! k = Some p -> p_os p = Running ->
  (heap_work (alter (set_os (Gone failed)) k (c_heap c)) < heap_work (c_heap c))%nat.
Proof.
  intros [Hok _ _ _] Hp Hos. pose proof (Forall_lookup_1 _ _ _ _ Hok Hp) as [_ _ Hd].
  pose proof (heap_work_alter (set_os (Gone failed)) k _ p Hp) as H. unfold proc_work in H. cbn in H. rewrite Hos in H.
  destruct (p_done p); [destruct Hd as [f Hf]; [done | congruence] | lia].
Qed.

Lemma reap_work c k p failed err :
  c_heap c !! k = Some p -> p_os p = Gone failed -> p_done p = false ->
  (heap_work (c_heap (reap k err c)) + 3 = heap_work (c_heap c))%nat /\
  (length (c_procs (reap k err c)) <= length (c_procs c))%nat /\
  c_main (reap k err c) = c_main c /\ c_timers (reap k err c) = c_timers c.
Proof.
  intros Hp Hos Hd. unfold reap. rewrite Hp. cbn. pose proof (heap_work_alter mark_done k _ p Hp) as H.
  unfold proc_work in H. cbn in H. rewrite Hos, Hd in H. split_and!; [lia | apply length_filter | done | done].
Qed.

Lemma main_work_mono n n' m : (n <= n')%nat -> (main_work n m <= main_work n' m)%nat.
Proof. intros. destruct m as [|? []| | | | | | | | | | | | | | | |]; cbn; lia. Qed.

(** Every step but a new fault leaves less to do. *)
Lemma step_work a c c' : step a c c' -> ctl_ok c -> a <> KFault -> (ctl_work c' < ctl_work c)%nat.
Proof.
  intros Hst (Hc & _) Ha. unfold ctl_work.
  destruct Hst as [c Hf Hw|c k p failed Hf Hp Hos Hd|c k Hf Hk|c n Em|c k back Em Hf|c Em|c Em _|c r k Em Hf Hk|c Em Hf _
    |c k Em Hf|c k Em|c k p Em Hp Hd|c Em _|c r k Em Hf Hk|c Em Hf _|c k Em Hf|c k Em|c Em|c Em Hf|c k todo Em Hf|c Em|c Em|c Em
    |c Em Hf|c Em Hf|c k todo all Em|c all Em|c k todo p Em Hp Hd|c Em|c ts1 k ts2 Hf Et|c k p failed Hp Hos _
    |c k p failed Hp Hos|c k p failed err Hf Hp Hos Hd]; try done;
    try (rewrite Em); try (rewrite Hf);
    cbn [c_main c_procs c_heap c_timers c_mu set_main set_mu unlock set_counts set_timers set_heap on_proc list_proc
      main_work mu_work length]; rewrite ?length_app; cbn [length]; try lia.
  - rewrite heap_work_spawn. cbn [spawn c_procs c_timers c_mu]. lia.
  - destruct back; cbn [main_work]; lia.
  - pose proof (signal_work mark_killed k (c_heap c) ltac:(auto 6)). lia.
  - pose proof (signal_work sig_kill k (c_heap c) ltac:(auto 6)). lia.
  - rewrite heap_work_spawn. cbn [spawn c_procs c_timers c_mu c_heap set_counts]. lia.
  - pose proof (signal_work (mark_paused true) k (c_heap c) ltac:(auto 6)). lia.
  - pose proof (signal_work sig_stop k (c_heap c) ltac:(auto 6)). lia.
  - pose proof (heap_work_resume k c). destruct (resume_fields k c) as (-> & _ & -> & _). lia.
  - pose proof (signal_work sig_terminate k (c_heap c) ltac:(auto 6)). lia.
  - set (c1 := set_timers c (ts1 ++ ts2)). pose proof (heap_work_resume k c1).
    destruct (resume_fields k c1) as (-> & _ & -> & ->). unfold c1 in *. cbn in *.
    rewrite Et, !length_app. cbn [length]. lia.
  - pose proof (exit_work c k p failed Hc Hp Hos). lia.
  - pose proof (exit_work c k p failed Hc Hp Hos). lia.
  - destruct (reap_work c k p failed err Hp Hos Hd) as (H1 & H2 & -> & ->).
    pose proof (main_work_mono _ _ (c_main c) H2). lia.
Qed.

(** C38: once the controller injects no more faults, it finishes: from every state
    it reaches, in any interleaving of faults, timers, exits and locks, a run in which
    no new fault starts is at most [ctl_work c] steps long, and wherever it is, the
    controller is at its report or has a step to take that is not a worker ending
    unasked. So the processes it waits for end by the signals it sent them (a SIGKILL,
    or a SIGTERM after every worker has been resumed), and the mutex is never held for
    good. That a running worker ends after a SIGTERM is assumed. *)
Theorem controller_finishes n tr c tr' c' :
  steps tr (ctl_init n) c -> steps tr' c c' -> Forall (fun a => a <> KFault) tr' ->
  (length tr' + ctl_work c' <= ctl_work c)%nat /\ (c_main c' = MReport \/ exists c'', step KRun c' c'').
Proof.
  intros Hok%reach_ctl_ok Hr Hq. split; [|by eapply progress, ksteps_ok].
  induction Hr as [|a tr1 c c1 c2 Hs _ IH]; [cbn; lia|]. inversion Hq; subst.
  assert (ctl_ok c1) as Hok1 by by eapply kstep_ok. specialize (IH Hok1 ltac:(done)).
  pose proof (step_work _ _ _ Hs Hok ltac:(done)). cbn [length]. lia.
Qed.
End props.

(** ** Runs *)

(** A worker fails while the faults run, before the next is killed. *)
Definition crash_run : ctl :=
  mkCtl 2
    [mkProc "chaos-worker-1" (Gone true) false false true false false;
     mkProc "chaos-worker-2" (Gone true) true false false true false]
    [1%nat] ["chaos-worker-1: exit status 2"] 0 0 [] (MKillSent 1) None.

Definition crash_acts : list kact :=
  [KRun; KRun; KRun; KRun; KRun; KRun; KRun; KCrash; KRun; KRun; KFault; KRun; KRun; KRun; KRun; KRun].

Lemma crash_run_reached : ksteps 1 1 crash_acts (ctl_init 2) crash_run.
Proof.
  eapply ksteps_step; [by apply k_init|]. eapply ksteps_step; [by apply k_lock_main|].
  eapply ksteps_step; [by apply k_list|].
  eapply ksteps_step; [by apply k_init|]. eapply ksteps_step; [by apply k_lock_main|].
  eapply ksteps_step; [by apply k_list|]. eapply ksteps_step; [by apply k_started|].
  eapply ksteps_step; [by apply (k_crash _ _ _ 0 (mkProc "chaos-worker-1" Running false false false false false) true)|].
  eapply ksteps_step; [by apply (k_lock_wait _ _ _ 0 (mkProc "chaos-worker-1" (Gone true) false false false false false) true)|].
  eapply ksteps_step; [by apply (k_reap _ _ _ 0 (mkProc "chaos-worker-1" (Gone true) false false false false false) true "exit status 2")|].
  eapply ksteps_step; [by apply k_kill_due|]. eapply ksteps_step; [by apply k_lock_main|].
  eapply ksteps_step; [by apply (k_pick_kill _ _ _ 0 1)|]. eapply ksteps_step; [by apply k_lock_main|].
  eapply ksteps_step; [by apply k_mark_kill|]. eapply ksteps_step; [by apply k_kill|].
  by apply ksteps_refl.
Qed.

Lemma crashes_are_real_witness :
  exists k p err, c_heap crash_run !! k = Some p /\ "chaos-worker-1: exit status 2" = p_id p +:+ ": " +:+ err /\
    p_os p = Gone true /\ p_victim p = false.
Proof.
  apply (crashes_are_real 1 1 2 crash_acts); [exact crash_run_reached|]. by constructor.
Defined.

(** The victim's goroutine takes the mutex. *)
Lemma controller_finishes_witness :
  let c' := set_mu crash_run (Some (OWait 1)) in
  (1 + ctl_work c' <= ctl_work crash_run)%nat /\ (c_main c' = MReport \/ exists c'', kstep 1 1 KRun c' c'').
Proof.
  apply (controller_finishes 1 1 2 crash_acts crash_run [KRun]); [exact crash_run_reached | |].
  - eapply ksteps_step; [|apply ksteps_refl].
    by apply (k_lock_wait _ _ _ 1 (mkProc "chaos-worker-2" (Gone true) true false false true false) true).
  - by repeat constructor.
Defined.

(** [pick] promises a live worker. A worker that exits before [spawn] has listed it
    is removed from the list before it is in it, so it stays listed and can be picked;
    [kills] then counts a process that was already gone. *)
Example pick_gone : exists tr c, ksteps 1 1 tr (ctl_init 1) c /\ pick 0 c = Some 0%nat /\
  c_heap c !! 0%nat = Some (mkProc "chaos-worker-1" (Gone true) false false true false false).
Proof.
  eexists _, _. split_and!.
  - eapply ksteps_step; [by apply k_init|].
    eapply ksteps_step; [by apply (k_crash _ _ _ 0 (mkProc "chaos-worker-1" Running false false false false false) true)|].
    eapply ksteps_step; [by apply (k_lock_wait _ _ _ 0 (mkProc "chaos-worker-1" (Gone true) false false false false false) true)|].
    eapply ksteps_step; [by apply (k_reap _ _ _ 0 (mkProc "chaos-worker-1" (Gone true) false false false false false) true "exit status 2")|].
    eapply ksteps_step; [by apply k_lock_main|].
    eapply ksteps_step; [by apply k_list|]. by apply ksteps_refl.
  - by vm_compute.
  - by vm_compute.
Qed.
