(* ===== verification/Sharded.v ===== *)
(** * The sharded backend ([redisstream/sharded.go])

    A queue split into partitions, each a [Store] with keys of its own. Calls
    the source makes in parallel on different partitions run here one after the
    other, in an order [go_order] that stands for the scheduler's choice. The
    long polls ([waitForJobs], [poll]) and the tracker of their connections are in
    [LongPoll]. *)

From S2P Require Import Prelude GoNum GoTime Errors Job GoJson Redis Scripts QueueSpec QueueRep.
From S2P Require Import Store StoreOk.
From Stdlib Require Import Ascii.
From stdpp Require Import strings.

Open Scope Z_scope.
Open Scope se_scope.

(** ** Configuration *)

Record ShardedConfig := mkShardedConfig {
  sc_Partitions : Z;
  sc_Prefix : string;
  sc_DedupeWindow : Z;
  sc_ConsumerIdleTimeout : Z;
}.

Record Sharded := mkSharded {
  sh_parts : list Store;
  sh_enqueueNext : Z;        (* uint64 *)
  sh_claimNext : Z;          (* uint64 *)
  sh_buffered : list Job;
}.

Definition sharded_defaults (c : ShardedConfig) : ShardedConfig :=
  mkShardedConfig (if sc_Partitions c <=? 0 then 16 else sc_Partitions c)
    (or_default (sc_Prefix c) "dtq") (sc_DedupeWindow c) (sc_ConsumerIdleTimeout c).

Definition part_tag (prefix : string) (p : Z) : string := prefix +:+ ":{p" +:+ Itoa p +:+ "}:".

Definition part_config (c : ShardedConfig) (p : Z) : Config :=
  let tag := part_tag (sc_Prefix c) p in
  mkConfig "" (tag +:+ "jobs") (sc_Prefix c +:+ ":workers") (tag +:+ "retry") (tag +:+ "dead")
    (tag +:+ "dedupe:") (sc_DedupeWindow c) (sc_ConsumerIdleTimeout c).

(** ** Routing *)

(** [hash/fnv]'s 32-bit FNV-1a. *)
Definition fnv32a (s : string) : Z :=
  foldl (fun h c => Z.lxor h (Z.of_N (N_of_ascii c)) * 16777619 mod 2 ^ 32)
    2166136261 (String.list_ascii_of_string s).

Definition wrapu64 (z : Z) : Z := z mod 2 ^ 64.

Definition nparts (s : Sharded) : Z := Z.of_nat (length (sh_parts s)).

(** [s.parts[p]]; [None] is Go's index-out-of-range panic, which the operations
    below turn into an error of that text. *)
Definition part_at (s : Sharded) (p : Z) : option Store :=
  if p <? 0 then None else sh_parts s !! Z.to_nat p.

(** The partition, and the state with the round-robin counter moved on. *)
Definition route (s : Sharded) (job : Job) : Sharded * Z :=
  if negb (bool_decide (IdempotencyKey job = "")) then
    (s, fnv32a (IdempotencyKey job) mod nparts s)
  else
    let next := wrapu64 (sh_enqueueNext s + 1) in
    (mkSharded (sh_parts s) next (sh_claimNext s) (sh_buffered s), next mod nparts s).

Definition partOf (s : Sharded) (job : Job) : result error Store :=
  let p := Partition (JLease job) in
  if (p <? 0) || (nparts s <=? p) then
    Err (ErrMsg ("job " +:+ ID job +:+ " has unknown partition " +:+ Itoa p))
  else match part_at s p with
       | Some st => Ok st
       | None => Err (ErrMsg "index out of range")
       end.

Definition tag (jobs : list Job) (partition : Z) : list Job :=
  (fun j => set_Lease j (set_Partition (JLease j) partition)) <$> jobs.

Definition set_part (s : Sharded) (p : Z) (st : Store) : Sharded :=
  mkSharded (<[Z.to_nat p := st]> (sh_parts s)) (sh_enqueueNext s) (sh_claimNext s) (sh_buffered s).

Definition set_buffered (s : Sharded) (js : list Job) : Sharded :=
  mkSharded (sh_parts s) (sh_enqueueNext s) (sh_claimNext s) js.

(** ** Buffered jobs *)

Definition takeBuffered (s : Sharded) (limit : Z) : Sharded * list Job :=
  let n := Z.to_nat (Z.min limit (Z.of_nat (length (sh_buffered s)))) in
  (set_buffered s (drop n (sh_buffered s)), take n (sh_buffered s)).

(** The partition visited [i]-th by a sweep. *)
Definition sweep_part (s : Sharded) (start i : Z) : Z := Z.rem (wrap64 (start + i)) (nparts s).

(** ** Grouping by partition *)

(** The indexes [0..n) of the jobs that go to partition [p], in order. *)
Definition indexes (part : nat -> option Z) (n : nat) (p : Z) : list nat :=
  filter (fun i => part i = Some p) (seq 0 n).

(** The partitions that have jobs. *)
Definition groups (part : nat -> option Z) (n : nat) : list Z :=
  remove_dups (omap part (seq 0 n)).

(** [errs[idx[i]] = err] for each result. *)
Fixpoint scatter {A} (idx : list nat) (res : list A) (errs : list A) : list A :=
  match idx, res with
  | i :: idx', r :: res' => scatter idx' res' (<[i := r]> errs)
  | _, _ => errs
  end.

Section sharded.
Context {R : Redis} {C : Client R}.
Context (go_order : list Z -> list Z).

Abbreviation M := (SE rdb error).

Fixpoint new_parts (c : ShardedConfig) (ps : list Z) : M (list Store) :=
  match ps with
  | [] => ret []
  | p :: ps' =>
      let! r := try_ (NewWithClient (part_config c p)) in
      match r with
      | Err e => throw (ErrWrap ("partition " +:+ Itoa p +:+ ": ") e "")
      | Ok part => let! parts := new_parts c ps' in ret (part :: parts)
      end
  end.

Definition NewSharded (c : ShardedConfig) : M Sharded :=
  let c := sharded_defaults c in
  let! parts := new_parts c (Z.of_nat <$> seq 0 (Z.to_nat (sc_Partitions c))) in
  ret (mkSharded parts 0 0 []).

(** *** Enqueueing *)

Definition sharded_Enqueue (s : Sharded) (rand : list ascii) (now : Z) (job : Job) (db : rdb) :
    rdb * (Sharded * result error string) :=
  let '(s', p) := route s job in
  match part_at s' p with
  | Some st => let '(db', r) := Enqueue st rand now job db in (db', (s', r))
  | None => (db, (s', Err (ErrMsg "index out of range")))
  end.

(** Routing the jobs of a batch, in order. *)
Fixpoint route_all (s : Sharded) (jobs : list Job) : Sharded * list Z :=
  match jobs with
  | [] => (s, [])
  | job :: jobs' =>
      let '(s1, p) := route s job in
      let '(s2, ps) := route_all s1 jobs' in (s2, p :: ps)
  end.

(** The groups of a batch: each partition commits its own; the first error is
    the batch's. *)
Fixpoint enqueue_groups (s : Sharded) (now : Z) (jobs : list Job) (ps : list Z) (todo : list Z)
    (ids : list string) (firstErr : option error) (db : rdb) : rdb * (list string * option error) :=
  match todo with
  | [] => (db, (ids, firstErr))
  | p :: todo' =>
      let idx := indexes (fun i => ps !! i) (length jobs) p in
      let batch := omap (fun i => jobs !! i) idx in
      match part_at s p with
      | None => (db, (ids, Some (ErrMsg "index out of range")))
      | Some st =>
          match EnqueueBatch st (replicate (length batch) []) now batch db with
          | (db', Err e) =>
              enqueue_groups s now jobs ps todo' ids
                (match firstErr with
                 | Some e0 => Some e0
                 | None => Some (ErrWrap ("partition " +:+ Itoa p +:+ ": ") e "")
                 end) db'
          | (db', Ok got) => enqueue_groups s now jobs ps todo' (scatter idx got ids) firstErr db'
          end
      end
  end.

Definition sharded_EnqueueBatch (s : Sharded) (rands : list (list ascii)) (now : Z) (jobs : list Job)
    (db : rdb) : rdb * (Sharded * (list string * option error)) :=
  let jobs := zip_with with_ID rands jobs in
  let '(s', ps) := route_all s jobs in
  let todo := go_order (groups (fun i => ps !! i) (length jobs)) in
  let '(db', r) := enqueue_groups s' now jobs ps todo (replicate (length jobs) "") None db in
  (db', (s', r)).

(** *** Claiming *)

Fixpoint sweep (n : nat) (i start : Z) (s : Sharded) (workerID : string) (limit now : Z)
    (jobs : list Job) (db : rdb) : rdb * (list Job * option error) :=
  match n with
  | O => (db, (jobs, None))
  | S n' =>
      if limit <=? Z.of_nat (length jobs) then (db, (jobs, None)) else
      let p := sweep_part s start i in
      match part_at s p with
      | None => (db, (jobs, Some (ErrMsg "index out of range")))
      | Some st =>
          match claimReady st workerID (limit - Z.of_nat (length jobs)) now db with
          | (db', Ok got) => sweep n' (i + 1) start s workerID limit now (jobs ++ tag got p) db'
          | (db', Err e) => (db', (jobs, Some (ErrWrap ("partition " +:+ Itoa p +:+ ": ") e "")))
          end
      end
  end.

(** [Claim] up to the long polls: [None] means it goes on to [waitForJobs]. *)
Definition sharded_Claim_ready (s : Sharded) (workerID : string) (limit wait now : Z) (db : rdb) :
    rdb * (Sharded * option (list Job * option error)) :=
  let '(s1, jobs) := takeBuffered s limit in
  let next := wrapu64 (sh_claimNext s1 + 1) in
  let s2 := mkSharded (sh_parts s1) (sh_enqueueNext s1) next (sh_buffered s1) in
  let '(db', (jobs', err)) :=
    sweep (length (sh_parts s2)) 0 (wrap64 next) s2 workerID limit now jobs db in
  match err with
  | Some e => (db', (s2, Some (jobs', Some e)))
  | None =>
      if (0 <? length jobs')%nat || (wait <=? 0) then (db', (s2, Some (jobs', None)))
      else (db', (s2, None))
  end.

Fixpoint recover_sweep (n : nat) (i start : Z) (s : Sharded) (vt : Z) (workerID : string)
    (limit now : Z) (jobs : list Job) (db : rdb) : rdb * (Sharded * (list Job * option error)) :=
  match n with
  | O => (db, (s, (jobs, None)))
  | S n' =>
      if limit <=? Z.of_nat (length jobs) then (db, (s, (jobs, None))) else
      let p := sweep_part s start i in
      match part_at s p with
      | None => (db, (s, (jobs, Some (ErrMsg "index out of range"))))
      | Some st =>
          let '(db', (st', r)) :=
            RecoverExpired st vt workerID (limit - Z.of_nat (length jobs)) now now db in
          let s' := set_part s p st' in
          match r with
          | Ok got => recover_sweep n' (i + 1) start s' vt workerID limit now (jobs ++ tag got p) db'
          | Err e => (db', (s', (jobs, Some (ErrWrap ("partition " +:+ Itoa p +:+ ": ") e ""))))
          end
      end
  end.

Definition sharded_RecoverExpired (s : Sharded) (vt : Z) (workerID : string) (limit now : Z) (db : rdb) :
    rdb * (Sharded * (list Job * option error)) :=
  recover_sweep (length (sh_parts s)) 0 (wrap64 (sh_claimNext s)) s vt workerID limit now [] db.

(** *** Settling *)

Definition on_part {A} (s : Sharded) (job : Job) (op : Store -> M A) : M A :=
  match partOf s job with Ok st => op st | Err e => throw e end.

Definition sharded_Extend (s : Sharded) (job : Job) : M unit := on_part s job (fun st => Extend st job).
Definition sharded_Ack (s : Sharded) (job : Job) : M unit := on_part s job (fun st => Ack st job).
Definition sharded_Retry (s : Sharded) (job : Job) (nextRunAt : Z) : M unit :=
  on_part s job (fun st => Retry st job nextRunAt).
Definition sharded_DeadLetter (s : Sharded) (job : Job) (reason : string) (now : Z) : M unit :=
  on_part s job (fun st => DeadLetter st job reason now).

(** The partition of a job, if it is known. *)
Definition known_part (s : Sharded) (jobs : list Job) (i : nat) : option Z :=
  match jobs !! i with
  | Some job => match partOf s job with Ok _ => Some (Partition (JLease job)) | Err _ => None end
  | None => None
  end.

Fixpoint run_groups (s : Sharded) (jobs : list Job)
    (op : Store -> list Job -> rdb -> rdb * list (option error)) (todo : list Z)
    (errs : list (option error)) (db : rdb) : rdb * list (option error) :=
  match todo with
  | [] => (db, errs)
  | p :: todo' =>
      let idx := indexes (known_part s jobs) (length jobs) p in
      let batch := omap (fun i => jobs !! i) idx in
      match part_at s p with
      | None => (db, errs)
      | Some st =>
          let '(db', res) := op st batch db in
          run_groups s jobs op todo' (scatter idx res errs) db'
      end
  end.

Definition perPartition (s : Sharded) (jobs : list Job)
    (op : Store -> list Job -> rdb -> rdb * list (option error)) (db : rdb) :
    rdb * list (option error) :=
  let errs := (fun job => match partOf s job with Ok _ => None | Err e => Some e end) <$> jobs in
  run_groups s jobs op (go_order (groups (known_part s jobs) (length jobs))) errs db.

Definition sharded_AckBatch (s : Sharded) (jobs : list Job) (db : rdb) : rdb * list (option error) :=
  perPartition s jobs AckBatch db.

(** [ExtendBatch] also renews the buffered jobs and drops those it lost. *)
Definition sharded_ExtendBatch (s : Sharded) (jobs : list Job) (db : rdb) :
    rdb * (Sharded * list (option error)) :=
  let buffered := sh_buffered s in
  let '(db', errs) := perPartition s (jobs ++ buffered) ExtendBatch db in
  let lost := omap (fun je => match je.2 with
                              | Some e => if errors_Is e ErrLeaseLost then Some (JLease je.1) else None
                              | None => None
                              end) (zip buffered (drop (length jobs) errs)) in
  (db', (set_buffered s (filter (fun j => JLease j ∉ lost) (sh_buffered s)), take (length jobs) errs)).

(** *** Housekeeping *)

Fixpoint deregister_from (p : Z) (parts : list Store) (workerID : string) : M unit :=
  match parts with
  | [] => ret tt
  | part :: parts' =>
      let! r := try_ (Deregister part workerID) in
      match r with
      | Err e => throw (ErrWrap ("partition " +:+ Itoa p +:+ ": ") e "")
      | Ok _ => deregister_from (p + 1) parts' workerID
      end
  end.

Definition sharded_Deregister (s : Sharded) (workerID : string) : M unit :=
  deregister_from 0 (sh_parts s) workerID.

Fixpoint stats_of (parts : list Store) (between : rdb -> rdb) : M (list (result error Stats)) :=
  match parts with
  | [] => ret []
  | part :: parts' =>
      let! r := try_ (store_Stats part between) in
      let! rs := stats_of parts' between in
      ret (r :: rs)
  end.

Fixpoint sum_stats (p : Z) (rs : list (result error Stats)) (total : Stats) : result error Stats :=
  match rs with
  | [] => Ok total
  | Err e :: _ => Err (ErrWrap ("partition " +:+ Itoa p +:+ ": ") e "")
  | Ok st :: rs' =>
      sum_stats (p + 1) rs'
        (mkStats (wrap64 (StreamLength total + StreamLength st))
                 (wrap64 (InFlight total + InFlight st))
                 (wrap64 (DeadLetterDepth total + DeadLetterDepth st))
                 (wrap64 (RetryScheduled total + RetryScheduled st)))
  end.

Definition sharded_Stats (s : Sharded) (between : rdb -> rdb) : M Stats :=
  let! rs := stats_of (sh_parts s) between in
  lift_result (sum_stats 0 rs (mkStats 0 0 0 0)).
End sharded.
