(* ===== verification/LongPoll.v ===== *)
(** * Long polls of the sharded backend ([redisstream/sharded.go])

    When a sweep finds nothing, [Claim] waits on one poller goroutine per
    partition. The pollers, the callers of [Claim] and [ExtendBatch] and [Close]
    run concurrently and share the fields under [mu], the channel [arrived] and
    the keyspace. [lstep] is the step relation of that system: each critical
    section of [mu], each channel operation and each request to Redis is one
    step, every interleaving is possible, and other processes ([outside]) may
    act on the keyspace between any two steps. While a read blocks in Redis its
    poller takes no step; the read itself is the step that ends the block. *)

From S2P Require Import Prelude GoNum GoTime Errors Job Redis Scripts Store Sharded.
From stdpp Require Import strings gmap sets fin_sets.

Open Scope Z_scope.

(** ** State *)

Record pollArgs := mkPollArgs {
  pa_worker : string;
  pa_count : Z;
  pa_wait : Z;
}.

(** Where the goroutine [poll(p)] is. *)
Inductive poller :=
  | PTop                          (* at the top of the loop *)
  | PReading (args : pollArgs)    (* in claimBlocking *)
  | PSleeping (d : Z)             (* after an error *)
  | PGot (got : list Job)         (* holding the jobs it read *)
  | PSignal.                      (* its jobs are buffered; about to signal *)

(** A call of [Claim], and where it is. *)
Record call := mkCall {
  c_worker : string;
  c_limit : Z;
  c_wait : Z;
}.

Inductive caller :=
  | CTake                                       (* about to take buffered jobs *)
  | CSweep (i start : Z) (jobs : list Job)      (* sweeping the partitions *)
  | CEnter                                      (* about to enter waitForJobs *)
  | CSelect                                     (* in the select *)
  | CWoken                                      (* received from arrived *)
  | CEnding                                     (* timer, context or Close *)
  | CLeave (jobs : list Job).                   (* about to leave waitForJobs *)

(** A call of [ExtendBatch]. *)
Inductive extender :=
  | XClone
  | XCall (buffered : list Job)
  | XDrop (lost : list Lease) (errs : list (option error)).

(** How far [Close] is. *)
Inductive closing := KOpen | KClosed | KStopped | KCut | KDone.

Record lstate {R : Redis} := LState {
  l_sh : Sharded;
  l_waiting : Z;
  l_polling : list bool;
  l_pollWith : pollArgs;
  l_arrived : bool;               (* the channel, of capacity one *)
  l_close : closing;
  l_pollers : list (Z * poller);
  l_calls : list (call * caller);
  l_exts : list (list Job * extender);
  l_db : rdb;
}.
Arguments LState {R}.

(** [s.closed] is closed; [s.pollCtx] is cancelled. *)
Definition is_closed (k : closing) : bool := match k with KOpen => false | _ => true end.
Definition polls_stopped (k : closing) : bool := match k with KOpen | KClosed => false | _ => true end.

(** ** The critical sections *)

(** The share of [limit] each poll asks for. *)
Definition poll_count (limit n : Z) : Z := Z.max 1 (Z.quot (wrap64 (wrap64 (limit + n) - 1)) n).

(** The partitions that have no poller. *)
Definition unpolled (polling : list bool) : list Z :=
  Z.of_nat <$> filter (fun p => polling !! p = Some false) (seq 0 (length polling)).

Section steps.
Context {R : Redis} {C : Client R}.
Context (go_order : list Z -> list Z).

Definition set_sh (l : lstate) (s : Sharded) : lstate :=
  LState s (l_waiting l) (l_polling l) (l_pollWith l) (l_arrived l) (l_close l)
    (l_pollers l) (l_calls l) (l_exts l) (l_db l).
Definition set_db (l : lstate) (db : rdb) : lstate :=
  LState (l_sh l) (l_waiting l) (l_polling l) (l_pollWith l) (l_arrived l) (l_close l)
    (l_pollers l) (l_calls l) (l_exts l) db.
Definition set_calls (l : lstate) (cs : list (call * caller)) : lstate :=
  LState (l_sh l) (l_waiting l) (l_polling l) (l_pollWith l) (l_arrived l) (l_close l)
    (l_pollers l) cs (l_exts l) (l_db l).
Definition set_pollers (l : lstate) (ps : list (Z * poller)) : lstate :=
  LState (l_sh l) (l_waiting l) (l_polling l) (l_pollWith l) (l_arrived l) (l_close l)
    ps (l_calls l) (l_exts l) (l_db l).
Definition set_polling (l : lstate) (p : Z) (b : bool) : lstate :=
  LState (l_sh l) (l_waiting l) (<[Z.to_nat p := b]> (l_polling l)) (l_pollWith l) (l_arrived l)
    (l_close l) (l_pollers l) (l_calls l) (l_exts l) (l_db l).
Definition set_arrived (l : lstate) (b : bool) : lstate :=
  LState (l_sh l) (l_waiting l) (l_polling l) (l_pollWith l) b (l_close l)
    (l_pollers l) (l_calls l) (l_exts l) (l_db l).
Definition set_waiting (l : lstate) (n : Z) : lstate :=
  LState (l_sh l) n (l_polling l) (l_pollWith l) (l_arrived l) (l_close l)
    (l_pollers l) (l_calls l) (l_exts l) (l_db l).
Definition set_exts (l : lstate) (xs : list (list Job * extender)) : lstate :=
  LState (l_sh l) (l_waiting l) (l_polling l) (l_pollWith l) (l_arrived l) (l_close l)
    (l_pollers l) (l_calls l) xs (l_db l).
Definition set_close (l : lstate) (k : closing) : lstate :=
  LState (l_sh l) (l_waiting l) (l_polling l) (l_pollWith l) (l_arrived l) k
    (l_pollers l) (l_calls l) (l_exts l) (l_db l).

(** Entering [waitForJobs]: nothing once closed; else the call counts as
    waiting, its arguments become the pollers', and every partition without a
    poller gets one. *)
Definition wait_enter (c : call) (l : lstate) : option lstate :=
  if is_closed (l_close l) then None else
  Some (LState (l_sh l) (l_waiting l + 1) ((fun _ => true) <$> l_polling l)
    (mkPollArgs (c_worker c) (poll_count (c_limit c) (nparts (l_sh l))) (c_wait c))
    (l_arrived l) (l_close l)
    (l_pollers l ++ ((fun p => (p, PTop)) <$> unpolled (l_polling l)))
    (l_calls l) (l_exts l) (l_db l)).

(** The top of [poll]'s loop: [None] when the poller stops. *)
Definition poll_top (l : lstate) : option pollArgs :=
  if (l_waiting l =? 0) || polls_stopped (l_close l) then None else Some (l_pollWith l).

(** What [poll] does with the outcome of a read. *)
Definition poll_next (k : closing) (args : pollArgs) (r : result error (list Job)) : poller :=
  match r with
  | Err _ => if polls_stopped k then PTop else PSleeping (Z.max (pa_wait args) (100 * millisecond))
  | Ok [] => PTop
  | Ok got => PGot got
  end.

Definition poll_buffer (p : Z) (got : list Job) (l : lstate) : lstate :=
  set_polling (set_sh l (set_buffered (l_sh l) (sh_buffered (l_sh l) ++ tag got p))) p false.

(** One round of a claim's sweep: the next partition, or what comes after it. *)
Inductive swept_to :=
  | SwGo (pc : caller)
  | SwReturn (jobs : list Job) (err : option error).

Definition sweep_next (c : call) (i start now : Z) (jobs : list Job) (s : Sharded) (db : rdb) :
    rdb * (list Job * swept_to) :=
  if (nparts s <=? i) || (c_limit c <=? Z.of_nat (length jobs)) then
    (db, ([], if (0 <? length jobs)%nat || (c_wait c <=? 0) then SwReturn jobs None else SwGo CEnter))
  else
    let p := sweep_part s start i in
    match part_at s p with
    | None => (db, ([], SwReturn jobs (Some (ErrMsg "index out of range"))))
    | Some st =>
        match claimReady st (c_worker c) (c_limit c - Z.of_nat (length jobs)) now db with
        | (db', Ok got) => (db', (tag got p, SwGo (CSweep (i + 1) start (jobs ++ tag got p))))
        | (db', Err e) => (db', ([], SwReturn jobs (Some (ErrWrap ("partition " +:+ Itoa p +:+ ": ") e ""))))
        end
    end.

(** The leases [ExtendBatch] found lost among the [buffered] jobs it renewed. *)
Definition lost_leases (jobs buffered : list Job) (errs : list (option error)) : list Lease :=
  omap (fun je => match je.2 with
                  | Some e => if errors_Is e ErrLeaseLost then Some (JLease je.1) else None
                  | None => None
                  end) (zip buffered (drop (length jobs) errs)).

(** ** Steps *)

(** What a step does with jobs: leases new ones, hands some to its caller, or
    drops some whose lease is lost. [LExpired] is the end of a wait by a timer, by
    the context or by [Close], which no other goroutine of the system brings about
    by delivering jobs. *)
Inductive label :=
  | LTau
  | LExpired
  | LClaimed (c : call) (jobs : list Job)
  | LPolled (p : Z) (args : pollArgs) (jobs : list Job)
  | LReturned (c : call) (jobs : list Job) (err : option error)
  | LDropped (lost : list Lease) (jobs : list Job)
  | LRenewed (errs : list (option error)).

(** What other processes and the other methods do: they may change the keyspace
    and the stores' private fields. *)
Context (outside : list Store * rdb -> list Store * rdb -> Prop).

Inductive lstep : lstate -> label -> lstate -> Prop :=
  (* Claim *)
  | ls_call l c :
      lstep l LTau (set_calls l (l_calls l ++ [(c, CTake)]))
  | ls_take l c cs1 cs2 s' jobs :
      l_calls l = cs1 ++ (c, CTake) :: cs2 ->
      takeBuffered (l_sh l) (c_limit c) = (s', jobs) ->
      let next := wrapu64 (sh_claimNext s' + 1) in
      lstep l LTau
        (set_calls (set_sh l (mkSharded (sh_parts s') (sh_enqueueNext s') next (sh_buffered s')))
           (cs1 ++ (c, CSweep 0 (wrap64 next) jobs) :: cs2))
  | ls_sweep l c cs1 cs2 i start jobs now db' got pc :
      l_calls l = cs1 ++ (c, CSweep i start jobs) :: cs2 ->
      sweep_next c i start now jobs (l_sh l) (l_db l) = (db', (got, SwGo pc)) ->
      lstep l (LClaimed c got) (set_calls (set_db l db') (cs1 ++ (c, pc) :: cs2))
  | ls_return l c cs1 cs2 i start jobs now db' got js err :
      l_calls l = cs1 ++ (c, CSweep i start jobs) :: cs2 ->
      sweep_next c i start now jobs (l_sh l) (l_db l) = (db', (got, SwReturn js err)) ->
      lstep l (LReturned c js err) (set_calls (set_db l db') (cs1 ++ cs2))
  (* waitForJobs *)
  | ls_refused l c cs1 cs2 :
      l_calls l = cs1 ++ (c, CEnter) :: cs2 -> wait_enter c l = None ->
      lstep l (LReturned c [] None) (set_calls l (cs1 ++ cs2))
  | ls_enter l c cs1 cs2 l' :
      l_calls l = cs1 ++ (c, CEnter) :: cs2 -> wait_enter c l = Some l' ->
      lstep l LTau (set_calls l' (cs1 ++ (c, CSelect) :: cs2))
  | ls_receive l c cs1 cs2 :
      l_calls l = cs1 ++ (c, CSelect) :: cs2 -> l_arrived l = true ->
      lstep l LTau (set_calls (set_arrived l false) (cs1 ++ (c, CWoken) :: cs2))
  | ls_woken l c cs1 cs2 s' jobs :
      l_calls l = cs1 ++ (c, CWoken) :: cs2 -> takeBuffered (l_sh l) (c_limit c) = (s', jobs) ->
      lstep l LTau (set_calls (set_sh l s')
        (cs1 ++ (c, if (0 <? length jobs)%nat then CLeave jobs else CSelect) :: cs2))
  | ls_end l c cs1 cs2 :     (* the timer fired, the context is done, or closed *)
      l_calls l = cs1 ++ (c, CSelect) :: cs2 ->
      lstep l LExpired (set_calls l (cs1 ++ (c, CEnding) :: cs2))
  | ls_ending l c cs1 cs2 s' jobs :
      l_calls l = cs1 ++ (c, CEnding) :: cs2 -> takeBuffered (l_sh l) (c_limit c) = (s', jobs) ->
      lstep l LTau (set_calls (set_sh l s') (cs1 ++ (c, CLeave jobs) :: cs2))
  | ls_leave l c cs1 cs2 jobs :
      l_calls l = cs1 ++ (c, CLeave jobs) :: cs2 ->
      lstep l (LReturned c jobs None) (set_calls (set_waiting l (l_waiting l - 1)) (cs1 ++ cs2))
  (* poll *)
  | lp_read l p ps1 ps2 args :
      l_pollers l = ps1 ++ (p, PTop) :: ps2 -> poll_top l = Some args ->
      lstep l LTau (set_pollers l (ps1 ++ (p, PReading args) :: ps2))
  | lp_stop l p ps1 ps2 :
      l_pollers l = ps1 ++ (p, PTop) :: ps2 -> poll_top l = None ->
      lstep l LTau (set_pollers (set_polling l p false) (ps1 ++ ps2))
  | lp_poll l p ps1 ps2 args st db' r :
      l_pollers l = ps1 ++ (p, PReading args) :: ps2 -> part_at (l_sh l) p = Some st ->
      claimBlocking st (pa_worker args) (pa_count args) (fun s => s) (polls_stopped (l_close l))
        (l_db l) = (db', r) ->
      lstep l (LPolled p args (match r with Ok got => tag got p | Err _ => [] end))
        (set_pollers (set_db l db') (ps1 ++ (p, poll_next (l_close l) args r) :: ps2))
  | lp_wake l p ps1 ps2 d :
      l_pollers l = ps1 ++ (p, PSleeping d) :: ps2 ->
      lstep l LExpired (set_pollers l (ps1 ++ (p, PTop) :: ps2))
  | lp_buffer l p ps1 ps2 got :
      l_pollers l = ps1 ++ (p, PGot got) :: ps2 ->
      lstep l LTau (set_pollers (poll_buffer p got l) (ps1 ++ (p, PSignal) :: ps2))
  | lp_signal l p ps1 ps2 :
      l_pollers l = ps1 ++ (p, PSignal) :: ps2 ->
      lstep l LTau (set_pollers (set_arrived l true) (ps1 ++ ps2))
  (* ExtendBatch *)
  | lx_call l jobs : lstep l LTau (set_exts l (l_exts l ++ [(jobs, XClone)]))
  | lx_clone l jobs xs1 xs2 :
      l_exts l = xs1 ++ (jobs, XClone) :: xs2 ->
      lstep l LTau (set_exts l (xs1 ++ (jobs, XCall (sh_buffered (l_sh l))) :: xs2))
  | lx_renew l jobs xs1 xs2 buffered db' errs :
      l_exts l = xs1 ++ (jobs, XCall buffered) :: xs2 ->
      perPartition go_order (l_sh l) (jobs ++ buffered) ExtendBatch (l_db l) = (db', errs) ->
      lstep l (LRenewed errs) (set_exts (set_db l db')
        (xs1 ++ (jobs, XDrop (lost_leases jobs buffered errs) (take (length jobs) errs)) :: xs2))
  | lx_drop l jobs xs1 xs2 lost errs :
      l_exts l = xs1 ++ (jobs, XDrop lost errs) :: xs2 ->
      lstep l (LDropped lost (filter (fun j => JLease j ∈ lost) (sh_buffered (l_sh l))))
        (set_exts (set_sh l (set_buffered (l_sh l)
           (filter (fun j => JLease j ∉ lost) (sh_buffered (l_sh l))))) (xs1 ++ xs2))
  (* Close *)
  | lk_close l : l_close l = KOpen -> lstep l LTau (set_close l KClosed)
  | lk_stop l : l_close l = KClosed -> lstep l LTau (set_close l KStopped)
  | lk_cut l : l_close l = KStopped -> lstep l LTau (set_close l KCut)
  | lk_wait l : l_close l = KCut -> l_pollers l = [] -> lstep l LTau (set_close l KDone)
  (* everything else *)
  | lo_outside l parts' db' :
      outside (sh_parts (l_sh l), l_db l) (parts', db') ->
      lstep l LTau (set_db (set_sh l (mkSharded parts' (sh_enqueueNext (l_sh l))
        (sh_claimNext (l_sh l)) (sh_buffered (l_sh l)))) db').

(** A run and what it did. [P] restricts the states it goes through. *)
Inductive lsteps (P : lstate -> Prop) : lstate -> list label -> lstate -> Prop :=
  | lsteps_refl l : lsteps P l [] l
  | lsteps_step l1 a l2 tr l3 :
      lstep l1 a l2 -> P l2 -> lsteps P l2 tr l3 -> lsteps P l1 (a :: tr) l3.

(** The state [NewSharded] leaves. *)
Definition l_new (s : Sharded) (db : rdb) : lstate :=
  LState s 0 (replicate (length (sh_parts s)) false) (mkPollArgs "" 0 0) false KOpen [] [] [] db.
End steps.

(** ** The connection tracker ([redisstream/sharded.go], [connTracker])

    The sockets of the poll client, so that [Close] can cut off reads blocked on
    them. A socket is a number; [open] are the sockets open at the operating
    system. Critical sections of the tracker's mutex are single steps; dialing and
    [trackedConn.Close] do part of their work outside it. *)

Record connTracker := mkTracker {
  t_conns : gset nat;
  t_closed : bool;
}.

(** ** The critical sections *)

(** The end of [dial], for a new socket: whether it is kept. *)
Definition dial_register (t : connTracker) (c : nat) : connTracker * bool :=
  if t_closed t then (t, false) else (mkTracker ({[c]} ∪ t_conns t) false, true).

(** The first half of [trackedConn.Close]. *)
Definition forget (t : connTracker) (c : nat) : connTracker :=
  mkTracker (t_conns t ∖ {[c]}) (t_closed t).

(** The new tracker, and the sockets [closeAll] closes. *)
Definition closeAll (t : connTracker) : connTracker * gset nat := (mkTracker ∅ true, t_conns t).

(** ** Steps *)

Record tstate := TState {
  ts_tracker : connTracker;
  ts_open : gset nat;
  ts_dialing : gset nat;      (* dialed, not registered yet *)
  ts_ending : gset nat;       (* forgotten by their Close, not closed yet *)
}.

Inductive tstep : tstate -> tstate -> Prop :=
  | t_dialed t o d e c :
      c ∉ o -> c ∉ t_conns t ->
      tstep (TState t o d e) (TState t ({[c]} ∪ o) ({[c]} ∪ d) (e ∖ {[c]}))
  | t_registered t o d e c t' :
      c ∈ d -> dial_register t c = (t', true) ->
      tstep (TState t o d e) (TState t' o (d ∖ {[c]}) e)
  | t_refused t o d e c t' :
      c ∈ d -> dial_register t c = (t', false) ->
      tstep (TState t o d e) (TState t' (o ∖ {[c]}) (d ∖ {[c]}) e)
  | t_forget t o d e c :
      c ∉ d -> tstep (TState t o d e) (TState (forget t c) o d ({[c]} ∪ e))
  | t_close t o d e c :
      c ∈ e -> tstep (TState t o d e) (TState t (o ∖ {[c]}) d (e ∖ {[c]}))
  | t_closeAll t o d e t' cs :
      closeAll t = (t', cs) -> tstep (TState t o d e) (TState t' (o ∖ cs) d e).

Definition t_init : tstate := TState (mkTracker ∅ false) ∅ ∅ ∅.

(** Every open socket is tracked, or in the hands of its dialer or closer; a
    closed tracker tracks nothing. *)
Record t_inv (s : tstate) : Prop := {
  ti_open : ts_open s ⊆ t_conns (ts_tracker s) ∪ ts_dialing s ∪ ts_ending s;
  ti_closed : t_closed (ts_tracker s) = true -> t_conns (ts_tracker s) = ∅;
}.

Lemma tstep_inv s s' : tstep s s' -> t_inv s -> t_inv s'.
Proof.
  intros H [Ho Hc]. destruct H; simpl in *;
    unfold dial_register, forget, closeAll in *; try (destruct (t_closed t) eqn:Et); simplify_eq;
    (split; simpl;
      [ intros x Hx; specialize (Ho x);
        try match goal with c : nat |- _ => destruct (decide (x = c)) as [->|?] end;
        set_solver
      | intros Ht; try done; try congruence; try (specialize (Hc Ht)); set_solver ]).
Qed.

Lemma trun_inv s s' : rtc tstep s s' -> t_inv s -> t_inv s'.
Proof. induction 1; eauto using tstep_inv. Qed.

Lemma t_init_inv : t_inv t_init.
Proof. split; simpl; [set_solver | done]. Qed.

(** After [closeAll], whatever happens, the only sockets that can be open are
    those [dial] is about to refuse and those whose own [Close] is under way; once
    both are done none is, and none is opened for use again. *)
Theorem closeAll_cuts s : rtc tstep t_init s -> t_closed (ts_tracker s) = true ->
  ts_open s ⊆ ts_dialing s ∪ ts_ending s /\
  (ts_dialing s = ∅ -> ts_ending s = ∅ -> ts_open s = ∅) /\
  (forall c, (dial_register (ts_tracker s) c).2 = false) /\
  (forall s', rtc tstep s s' -> t_closed (ts_tracker s') = true).
Proof.
  intros Hrun Hcl. destruct (trun_inv _ _ Hrun t_init_inv) as [Ho Hc]. specialize (Hc Hcl).
  rewrite Hc in Ho. split_and!; [set_solver | set_solver | |].
  - intros c. unfold dial_register. by rewrite Hcl.
  - clear -Hcl. intros s' Hr. induction Hr as [|s1 s2 s3 Hs _ IH]; [done|]. apply IH.
    destruct Hs; simpl in *; unfold dial_register, closeAll in *; try (rewrite Hcl in *); naive_solver.
Qed.
