(* ===== verification/ShardedOk.v ===== *)
(** * Partitions do not interfere

    The keys of different partitions are disjoint, so a call on one partition
    leaves the queues of the others as they are. [holds] says which queue each
    partition holds; [wps] is the triple of a call on a sharded queue. *)

From S2P Require Import Prelude GoNum GoTime Errors Job GoJson Redis Scripts QueueSpec QueueRep.
From S2P Require Import ScriptsOk QueueSteps Store JobCodec StoreOk EnqueueOk ClaimOk Sharded.
From Stdlib Require Import Ascii String DecimalString.
From stdpp Require Import strings.

Open Scope Z_scope.
Open Scope se_scope.

(** ** The keys of a partition *)

Fixpoint lacks (c : ascii) (s : string) : Prop :=
  match s with EmptyString => True | String a s' => a <> c /\ lacks c s' end.

(** Text up to the first [c] is determined by the whole. *)
Lemma lacks_app_inj c a b x y :
  lacks c a -> lacks c b -> a +:+ String c x = b +:+ String c y -> a = b.
Proof.
  revert b. induction a as [|d a IH]; intros [|e b]; rewrite ?str_app_nil_l, ?str_app_cons;
    simpl; intros Ha Hb [=]; subst; [done | tauto.. |].
  f_equal. apply IH; tauto.
Qed.

Lemma lacks_string_of_uint d : lacks "}" (NilZero.string_of_uint d).
Proof.
  assert (forall d, lacks "}" (NilEmpty.string_of_uint d)) as H.
  { induction d0; simpl; [done | split; [discriminate | done]..]. }
  destruct d; [by split | apply H..].
Qed.

Lemma lacks_Itoa z : lacks "}" (Itoa z).
Proof.
  unfold Itoa. destruct (Z.to_int z) as [d|d]; simpl; [|split; [discriminate|]];
    apply lacks_string_of_uint.
Qed.

Lemma part_tag_inj prefix p1 p2 x y :
  part_tag prefix p1 +:+ x = part_tag prefix p2 +:+ y -> p1 = p2.
Proof.
  unfold part_tag. norm_str. intros E%str_app_inj_l. injection E as E.
  apply Itoa_inj. eapply (lacks_app_inj "}"); [apply lacks_Itoa.. | exact E].
Qed.

(** The store of partition [p]. *)
Definition part_store (c : ShardedConfig) (p : Z) : Store := new_store (with_defaults (part_config c p)).

Lemma or_default_app a c s d : or_default (a +:+ String c s) d = a +:+ String c s.
Proof. destruct a; reflexivity. Qed.

Lemma part_keys c p : let tag := part_tag (sc_Prefix c) p in
  K_of (part_store c p) = QKeys (tag +:+ "jobs") (sc_Prefix c +:+ ":workers") (tag +:+ "retry")
    (tag +:+ "retry:jobs") (tag +:+ "dead") (tag +:+ "dedupe:").
Proof.
  intros tag. unfold K_of, part_store, part_config, with_defaults, new_store. simpl.
  fold tag. rewrite !or_default_app. f_equal. by norm_str.
Qed.

Lemma part_in_keys c p k :
  in_keys (K_of (part_store c p)) k -> exists t, k = part_tag (sc_Prefix c) p +:+ t.
Proof.
  rewrite part_keys. unfold in_keys. simpl.
  intros [->|[->|[->|[->|[key ->]]]]]; norm_str; eauto.
Qed.

Lemma part_keys_disjoint c p1 p2 k :
  p1 <> p2 -> in_keys (K_of (part_store c p1)) k -> ~ in_keys (K_of (part_store c p2)) k.
Proof. intros Hne [x ->]%part_in_keys [y E]%part_in_keys. by apply part_tag_inj in E. Qed.

Lemma part_keys_ok c p : keys_ok (K_of (part_store c p)).
Proof.
  rewrite part_keys. split; simpl; try (intros E%str_app_inj_l; discriminate E).
  intros key k ->. rewrite str_app_assoc.
  split_and!; intros E%str_app_inj_l; discriminate E.
Qed.

(** ** Several queues in one keyspace *)

Record keys_apart (Ks : list qkeys) : Prop := {
  apart_ok K : K ∈ Ks -> keys_ok K;
  apart_disjoint i j K1 K2 k : i <> j -> Ks !! i = Some K1 -> Ks !! j = Some K2 ->
    in_keys K1 k -> ~ in_keys K2 k;
}.

Definition holds (Ks : list qkeys) (v : rview) (qs : list qstate) : Prop :=
  Forall2 (fun K q => represents K v q) Ks qs.

(** The keys of [K] and the clock are as they were. *)
Definition agree (K : qkeys) (v v' : rview) : Prop :=
  (forall k, in_keys K k -> rv_keys v' !! k = rv_keys v !! k) /\ rv_now v' = rv_now v.

Lemma agree_frame K K' v v' :
  (forall k, in_keys K k -> ~ in_keys K' k) -> frame K' v v' -> agree K v v'.
Proof. intros Hdis [Hf Hn]. split; auto. Qed.

Lemma agree_trans K v1 v2 v3 : agree K v1 v2 -> agree K v2 v3 -> agree K v1 v3.
Proof. intros [H1 N1] [H2 N2]. split; [|congruence]. intros k Hk. rewrite H2, H1; done. Qed.

Lemma represents_agree K v v' q : agree K v v' -> represents K v q -> represents K v' q.
Proof.
  intros [Hsame Hn] [Hs Hz Hd Hl Hu Hnow].
  split; unfold stream_at, zset_at, hash_at, stream_or_new in *;
    try (rewrite Hsame by auto with dtq; assumption).
  - intros key. rewrite Hsame by auto with dtq. apply Hu.
  - congruence.
Qed.

Lemma holds_update Ks v v' qs i K q' :
  keys_apart Ks -> holds Ks v qs -> Ks !! i = Some K ->
  represents K v' q' -> frame K v v' -> holds Ks v' (<[i := q']> qs).
Proof.
  intros HKs Hh HK Hr Hf. apply Forall2_same_length_lookup. split.
  { rewrite length_insert. by eapply Forall2_length. }
  intros j K2 q2 HK2 Hq2. destruct (decide (i = j)) as [->|Hne].
  - apply list_lookup_insert_Some in Hq2 as [(_ & <- & _)|[? _]]; [|done]. congruence.
  - rewrite list_lookup_insert_ne in Hq2 by done.
    eapply represents_agree; [eapply agree_frame; [|exact Hf]|].
    + intros k. by apply (apart_disjoint _ HKs j i).
    + by apply (Forall2_lookup_lr _ _ _ _ _ _ Hh HK2 Hq2).
Qed.

Lemma holds_lookup Ks v qs i K :
  holds Ks v qs -> Ks !! i = Some K -> exists q, qs !! i = Some q /\ represents K v q.
Proof. intros Hh HK. by apply (Forall2_lookup_l _ _ _ _ _ Hh HK). Qed.

Section wps.
Context {R : Redis} (Ks : list qkeys) (HKs : keys_apart Ks).

Definition wps {X} (m : rdb -> rdb * X) (qs : list qstate) (Q : X -> list qstate -> Prop) : Prop :=
  forall s, holds Ks (view s) qs -> exists s' x qs',
    m s = (s', x) /\ holds Ks (view s') qs' /\ Q x qs'.

(** A call on one partition. *)
Lemma wps_part {A} (m : SE rdb error A) qs i K q Q :
  Ks !! i = Some K -> qs !! i = Some q -> wpc (K:=K) m q Q ->
  wps m qs (fun r qs' => exists q', qs' = <[i := q']> qs /\ Q r q').
Proof.
  intros HK Hq Hm s Hs. destruct (holds_lookup _ _ _ _ _ Hs HK) as (q0 & Hq0 & Hr).
  assert (q0 = q) as -> by congruence.
  destruct (Hm s Hr) as (s' & r & q' & E & Hr' & Hf & HQ).
  exists s', r, (<[i := q']> qs). split_and!; [done | by eapply holds_update | eauto].
Qed.

Lemma wps_mono {X} (m : rdb -> rdb * X) qs (P Q : X -> list qstate -> Prop) :
  wps m qs P -> (forall x qs', P x qs' -> Q x qs') -> wps m qs Q.
Proof. intros Hm HPQ s Hs. destruct (Hm s Hs) as (s' & x & qs' & ? & ? & ?). eauto 10. Qed.
End wps.

(** ** A sharded queue *)

Definition keys_of (s : Sharded) : list qkeys := K_of <$> sh_parts s.

Lemma part_at_Some s p st :
  part_at s p = Some st <-> 0 <= p < nparts s /\ sh_parts s !! Z.to_nat p = Some st.
Proof.
  unfold part_at, nparts. destruct (Z.ltb_spec p 0); split; [done | lia | | naive_solver].
  intros Hp. split; [|done]. apply lookup_lt_Some in Hp. lia.
Qed.

Lemma part_at_range s p : 0 <= p < nparts s -> exists st, part_at s p = Some st.
Proof.
  intros Hp. destruct (lookup_lt_is_Some_2 (sh_parts s) (Z.to_nat p)) as [st Hst].
  { unfold nparts in Hp. lia. }
  exists st. by apply part_at_Some.
Qed.

Lemma partOf_Ok s job st :
  partOf s job = Ok st <-> part_at s (Partition (JLease job)) = Some st.
Proof.
  unfold partOf. set (p := Partition (JLease job)).
  destruct (part_at s p) as [st'|] eqn:E.
  - pose proof (proj1 (part_at_Some _ _ _) E) as [Hp _].
    rewrite (proj2 (Z.ltb_ge _ _)), (proj2 (Z.leb_gt _ _)) by lia. simpl. naive_solver.
  - destruct ((p <? 0) || (nparts s <=? p)); naive_solver.
Qed.

Lemma keys_of_part s p st : part_at s p = Some st -> keys_of s !! Z.to_nat p = Some (K_of st).
Proof. intros [_ E]%part_at_Some. unfold keys_of. by rewrite list_lookup_fmap, E. Qed.

(** A claimed job goes back to the partition it came from. *)
Lemma partOf_tag s p st jobs job :
  part_at s p = Some st -> job ∈ tag jobs p -> partOf s job = Ok st.
Proof. intros Hp (j & -> & _)%list_elem_of_fmap. by apply partOf_Ok. Qed.

(** The partitions of [NewSharded] have disjoint keys. *)
Lemma part_stores_apart c ps :
  NoDup ps -> keys_apart (K_of <$> (part_store c <$> ps)).
Proof.
  intros Hnd. split.
  - intros K (st & -> & (p & -> & _)%list_elem_of_fmap)%list_elem_of_fmap. apply part_keys_ok.
  - intros i j K1 K2 k Hij. rewrite !list_lookup_fmap.
    destruct (ps !! i) as [p1|] eqn:E1, (ps !! j) as [p2|] eqn:E2; simpl; try done.
    intros [= <-] [= <-]. apply part_keys_disjoint. intros ->. apply Hij.
    by eapply NoDup_lookup.
Qed.
