(* ===== verification/LongPollOk.v ===== *)
(** * Invariants of the long polls

    Facts about every run of [lstep]: jobs are neither lost nor duplicated
    between the partitions and the callers, one poller per partition, the
    counter of waiting calls, what wakes a waiting call, the size of the buffer,
    and how [Close] ends. *)

From S2P Require Import Prelude GoNum GoTime Errors Job Redis Scripts QueueSpec QueueRep.
From S2P Require Import ScriptsOk QueueSteps Store JobCodec StoreOk EnqueueOk ClaimOk Sharded ShardedOk.
From S2P Require Import LongPoll.
From Stdlib Require Import Permutation.
From stdpp Require Import strings.

Open Scope Z_scope.

Create Rewrite HintDb dtq_cnt.

(** Unfolds the state updates of a step. *)
Ltac lsimpl :=
  cbn [set_sh set_db set_calls set_pollers set_polling set_arrived set_waiting set_exts set_close
       poll_buffer l_sh l_waiting l_polling l_pollWith l_arrived l_close l_pollers l_calls l_exts l_db
       set_buffered sh_buffered sh_parts sh_claimNext] in *.

(** ** Where the jobs are *)

(** The jobs a goroutine holds. *)
Definition poller_jobs (x : Z * poller) : list Job :=
  match x.2 with PGot got => tag got x.1 | _ => [] end.
Definition caller_jobs (x : call * caller) : list Job :=
  match x.2 with CSweep _ _ js | CLeave js => js | _ => [] end.

Section conservation.
Context {R : Redis} {C : Client R} (go_order : list Z -> list Z).
Context (outside : list Store * rdb -> list Store * rdb -> Prop).
Abbreviation lstep := (lstep go_order outside).
Abbreviation lsteps := (lsteps go_order outside).

(** The jobs leased to this process and not yet handed out. *)
Definition held_jobs (l : lstate) : list Job :=
  sh_buffered (l_sh l) ++ (l_pollers l ≫= poller_jobs) ++ (l_calls l ≫= caller_jobs).

(** What a step adds to them, and takes away. *)
Definition leased (a : label) : list Job :=
  match a with LClaimed _ js | LPolled _ _ js => js | _ => [] end.
Definition handed (a : label) : list Job :=
  match a with LReturned _ js _ => js | _ => [] end.
Definition dropped (a : label) : list Job :=
  match a with LDropped _ js => js | _ => [] end.

Definition cnt (x : Job) (l : list Job) : nat := count_occ Job_eq_dec l x.

Lemma cnt_app x l1 l2 : cnt x (l1 ++ l2) = (cnt x l1 + cnt x l2)%nat.
Proof. apply count_occ_app. Qed.
Lemma cnt_perm l1 l2 : (forall x, cnt x l1 = cnt x l2) -> l1 ≡ₚ l2.
Proof. apply (Permutation_count_occ Job_eq_dec). Qed.
Lemma cnt_of_perm l1 l2 x : l1 ≡ₚ l2 -> cnt x l1 = cnt x l2.
Proof. intros H. by apply (Permutation_count_occ Job_eq_dec). Qed.

Lemma cnt_filter x (P : Job -> Prop) `{!forall j, Decision (P j)} l :
  cnt x l = (cnt x (filter (fun j => ~ P j) l) + cnt x (filter P l))%nat.
Proof.
  rewrite <- cnt_app. apply cnt_of_perm. rewrite Permutation_app_comm.
  induction l as [|j l IH]; [done|]. destruct (decide (P j)).
  - rewrite filter_cons_True, filter_cons_False by tauto. simpl. by constructor.
  - rewrite filter_cons_False, filter_cons_True by tauto.
    rewrite <- Permutation_middle. by constructor.
Qed.

Lemma takeBuffered_split s limit s' jobs :
  takeBuffered s limit = (s', jobs) ->
  sh_buffered s = jobs ++ sh_buffered s' /\ sh_parts s' = sh_parts s /\
  sh_claimNext s' = sh_claimNext s /\ Z.of_nat (length jobs) <= Z.max 0 limit /\
  (0 < limit -> jobs = [] -> sh_buffered s = []).
Proof.
  unfold takeBuffered. intros [= <- <-]. simpl. rewrite take_drop. split_and!; try done.
  - rewrite length_take. lia.
  - intros Hl. destruct (sh_buffered s) as [|j js]; [done|]. simpl length.
    destruct (Z.to_nat _) eqn:E; [lia | done].
Qed.

Lemma sweep_next_jobs c i start now jobs s db db' got next :
  sweep_next c i start now jobs s db = (db', (got, next)) ->
  match next with
  | SwGo pc => caller_jobs (c, pc) = jobs ++ got /\
      ((exists i' st', pc = CSweep i' st' (jobs ++ got)) \/ (pc = CEnter /\ jobs = [] /\ got = []))
  | SwReturn js _ => js = jobs
  end.
Proof.
  unfold sweep_next. intros H. repeat case_match; simplify_eq/=; eauto.
  all: destruct jobs; eauto; done.
Qed.

Lemma cnt_bind_app {A} (f : A -> list Job) x l1 l2 :
  cnt x ((l1 ++ l2) ≫= f) = (cnt x (l1 ≫= f) + cnt x (l2 ≫= f))%nat.
Proof. by rewrite bind_app, cnt_app. Qed.
Lemma cnt_bind_cons {A} (f : A -> list Job) x a l :
  cnt x ((a :: l) ≫= f) = (cnt x (f a) + cnt x (l ≫= f))%nat.
Proof. by rewrite bind_cons, cnt_app. Qed.

#[local] Hint Rewrite cnt_app @cnt_bind_app @cnt_bind_cons : dtq_cnt.

Lemma unpolled_jobs ps : ((fun p => (p, PTop)) <$> ps) ≫= poller_jobs = [].
Proof. by induction ps. Qed.

Lemma wait_enter_Some c l l' :
  wait_enter c l = Some l' ->
  is_closed (l_close l) = false /\ l' = LState (l_sh l) (l_waiting l + 1) ((fun _ => true) <$> l_polling l)
    (mkPollArgs (c_worker c) (poll_count (c_limit c) (nparts (l_sh l))) (c_wait c))
    (l_arrived l) (l_close l) (l_pollers l ++ ((fun p => (p, PTop)) <$> unpolled (l_polling l)))
    (l_calls l) (l_exts l) (l_db l).
Proof. unfold wait_enter. destruct (is_closed _); [done|]. by intros [= <-]. Qed.

Lemma poll_next_jobs p k args r :
  poller_jobs (p, poll_next k args r) = match r with Ok got => tag got p | Err _ => [] end.
Proof. destruct r as [[|]|]; simpl; [done.. |]. by destruct (polls_stopped k). Qed.

(** No step loses or duplicates a job. *)
Lemma step_conserves l a l' :
  lstep l a l' -> held_jobs l ++ leased a ≡ₚ held_jobs l' ++ handed a ++ dropped a.
Proof.
  intros H. apply cnt_perm. intros x. unfold held_jobs.
  destruct H; simpl leased; simpl handed; simpl dropped; lsimpl;
    repeat match goal with
    | H : l_calls _ = _ |- _ => rewrite H; clear H
    | H : l_pollers _ = _ |- _ => rewrite H; clear H
    | H : takeBuffered _ _ = _ |- _ => apply takeBuffered_split in H as (H & _); rewrite H; clear H
    | H : sweep_next _ _ _ _ _ _ _ = _ |- _ => apply sweep_next_jobs in H
    | H : wait_enter _ _ = Some _ |- _ => apply wait_enter_Some in H as [_ ->]
    end;
    lsimpl; autorewrite with dtq_cnt; rewrite ?poll_next_jobs, ?unpolled_jobs;
    cbn [caller_jobs poller_jobs snd fst app]; autorewrite with dtq_cnt;
    try (unfold cnt; simpl; lia).
  - destruct H0 as [-> _]; autorewrite with dtq_cnt; unfold cnt; simpl; lia.
  - subst js. unfold cnt; simpl; lia.
  - destruct jobs; unfold caller_jobs; simpl; unfold cnt; simpl; lia.
  - rewrite (cnt_filter x (fun j => JLease j ∈ lost)). unfold cnt; simpl; lia.
Qed.

Lemma run_conserves P l tr l' :
  lsteps P l tr l' -> held_jobs l ++ (tr ≫= leased) ≡ₚ held_jobs l' ++ (tr ≫= handed) ++ (tr ≫= dropped).
Proof.
  intros H. apply cnt_perm. intros x.
  induction H as [l|l1 a l2 tr l3 Hs _ _ IH]; [simpl; autorewrite with dtq_cnt; done|].
  apply step_conserves, (cnt_of_perm _ _ x) in Hs. autorewrite with dtq_cnt in *. lia.
Qed.
End conservation.

(** ** Pollers and waiting calls *)

(** The poller still owns its partition's slot in [polling]. *)
Definition active (x : poller) : bool := match x with PSignal => false | _ => true end.
Definition actives (p : Z) (ps : list (Z * poller)) : nat :=
  length (filter (fun x => x.1 = p /\ active x.2 = true) ps).

Lemma actives_app p l1 l2 : actives p (l1 ++ l2) = (actives p l1 + actives p l2)%nat.
Proof. unfold actives. by rewrite filter_app, length_app. Qed.
Lemma actives_cons p x l :
  actives p (x :: l) = ((if decide (x.1 = p /\ active x.2 = true) then 1 else 0) + actives p l)%nat.
Proof.
  unfold actives. destruct (decide _) as [H|H].
  - by rewrite filter_cons_True.
  - by rewrite filter_cons_False.
Qed.

(** The calls that count as waiting. *)
Definition waits (x : caller) : bool :=
  match x with CSelect | CWoken | CEnding | CLeave _ => true | _ => false end.
Definition waiters (cs : list (call * caller)) : nat :=
  length (filter (fun x => waits x.2 = true) cs).

Lemma waiters_app l1 l2 : waiters (l1 ++ l2) = (waiters l1 + waiters l2)%nat.
Proof. unfold waiters. by rewrite filter_app, length_app. Qed.
Lemma waiters_cons x l : waiters (x :: l) = (Nat.b2n (waits x.2) + waiters l)%nat.
Proof.
  unfold waiters. destruct (waits x.2) eqn:E.
  - by rewrite filter_cons_True.
  - rewrite filter_cons_False; [done|]. by rewrite E.
Qed.

Create Rewrite HintDb dtq_poll.
Lemma waiters_nil : waiters [] = 0%nat.
Proof. done. Qed.
#[export] Hint Rewrite actives_app actives_cons waiters_app waiters_cons waiters_nil : dtq_poll.

Section pollers.
Context {R : Redis} {C : Client R} (go_order : list Z -> list Z).
Context (outside : list Store * rdb -> list Store * rdb -> Prop).
Abbreviation lstep := (lstep go_order outside).
Abbreviation lsteps := (lsteps go_order outside).
(** Other processes and methods do not change how the queue is laid out. *)
Context (outside_keys : forall ps db ps' db',
  outside (ps, db) (ps', db') -> K_of <$> ps' = K_of <$> ps).

Record linv (l : lstate) : Prop := {
  li_polling : length (l_polling l) = length (sh_parts (l_sh l));
  li_waiting : l_waiting l = Z.of_nat (waiters (l_calls l));
  li_active p b : l_polling l !! p = Some b -> actives (Z.of_nat p) (l_pollers l) = Nat.b2n b;
  li_range : Forall (fun x => 0 <= x.1 < nparts (l_sh l)) (l_pollers l);
}.

Lemma elem_of_unpolled polling p :
  p ∈ unpolled polling <-> exists k, p = Z.of_nat k /\ polling !! k = Some false.
Proof.
  unfold unpolled. rewrite list_elem_of_fmap. split.
  - intros (k & -> & Hk). apply list_elem_of_filter in Hk as [Hk _]. eauto.
  - intros (k & -> & Hk). exists k. split; [done|]. apply list_elem_of_filter. split; [done|].
    apply elem_of_seq. apply lookup_lt_Some in Hk. lia.
Qed.

Lemma actives_new p ps : NoDup ps ->
  actives p ((fun q => (q, PTop)) <$> ps) = if decide (p ∈ ps) then 1%nat else 0%nat.
Proof.
  induction ps as [|q ps IH]; intros Hnd; [done|]. apply NoDup_cons in Hnd as [Hnin Hnd].
  cbn [fmap list_fmap]. rewrite actives_cons, (IH Hnd). cbn [fst snd active].
  repeat case_decide; set_solver.
Qed.

Lemma NoDup_unpolled polling : NoDup (unpolled polling).
Proof.
  apply NoDup_fmap_2; [intros x y; apply Nat2Z.inj|]. apply NoDup_filter, NoDup_seq.
Qed.

Lemma actives_unpolled (polling : list bool) k b : polling !! k = Some b ->
  actives (Z.of_nat k) ((fun q => (q, PTop)) <$> unpolled polling) = Nat.b2n (negb b).
Proof.
  intros Hk. rewrite actives_new by apply NoDup_unpolled.
  destruct (decide _) as [H|H]; rewrite elem_of_unpolled in H.
  - destruct H as (k' & ->%Nat2Z.inj & H). rewrite Hk in H. by injection H as ->.
  - destruct b; [done|]. destruct H. eauto.
Qed.

Lemma nparts_keys ps ps' a b js a' b' js' :
  K_of <$> ps' = K_of <$> ps -> nparts (mkSharded ps' a b js) = nparts (mkSharded ps a' b' js').
Proof. intros H%(f_equal length). rewrite !length_fmap in H. unfold nparts. simpl. lia. Qed.

Lemma linv_new s db : linv (l_new s db).
Proof.
  split; simpl; [apply length_replicate | done | | constructor].
  by intros p b [-> _]%lookup_replicate.
Qed.

(** Rewrites with the places of the goroutine that moves. *)
Ltac at_pcs :=
  repeat match goal with
  | H : l_calls _ = _ |- _ => rewrite H in *; clear H
  | H : l_pollers _ = _ ++ _ |- _ => rewrite H in *; clear H
  end.

(** Clearing the slot of the poller that stops. *)
Lemma clear_slot p0 (polling : list bool) pc pc' ps1 ps2 :
  0 <= p0 -> active pc = true ->
  (forall p b, polling !! p = Some b -> actives (Z.of_nat p) (ps1 ++ (p0, pc) :: ps2) = Nat.b2n b) ->
  active pc' = false ->
  forall p b, <[Z.to_nat p0 := false]> polling !! p = Some b ->
    actives (Z.of_nat p) (ps1 ++ (p0, pc') :: ps2) = Nat.b2n b /\
    actives (Z.of_nat p) (ps1 ++ ps2) = Nat.b2n b.
Proof.
  intros H0 Hact Ha Hina p b Hp. destruct (decide (p = Z.to_nat p0)) as [->|Hne].
  - apply list_lookup_insert_Some in Hp as [(_ & <- & Hlt)|[? _]]; [|done].
    apply lookup_lt_is_Some_2 in Hlt as [b' Hb']. specialize (Ha _ _ Hb').
    rewrite Z2Nat.id in * by done. autorewrite with dtq_poll in *. simpl in *.
    rewrite Hact, Hina in *. destruct b'; repeat case_decide; simpl in *; naive_solver lia.
  - rewrite list_lookup_insert_ne in Hp by done. specialize (Ha _ _ Hp).
    autorewrite with dtq_poll in *. simpl in *. repeat case_decide; naive_solver lia.
Qed.

(** A poller that moves on within its loop keeps its slot. *)
Lemma keep_slot p p0 pc pc' ps1 ps2 :
  active pc = active pc' -> actives p (ps1 ++ (p0, pc) :: ps2) = actives p (ps1 ++ (p0, pc') :: ps2).
Proof. intros H. autorewrite with dtq_poll. simpl. by rewrite H. Qed.

Lemma poll_next_active k args r : active (poll_next k args r) = true.
Proof. destruct r as [[|]|]; simpl; try done. by destruct (polls_stopped k). Qed.

Lemma range_move {X} (P : Z * X -> Prop) ps1 p x y ps2 :
  (P (p, x) -> P (p, y)) -> Forall P (ps1 ++ (p, x) :: ps2) -> Forall P (ps1 ++ (p, y) :: ps2).
Proof. intros H. rewrite !Forall_app, !Forall_cons. tauto. Qed.
Lemma range_gone {X} (P : X -> Prop) ps1 x ps2 : Forall P (ps1 ++ x :: ps2) -> Forall P (ps1 ++ ps2).
Proof. rewrite !Forall_app, Forall_cons. tauto. Qed.

Lemma sweep_next_waits c i start now jobs s db db' got pc :
  sweep_next c i start now jobs s db = (db', (got, SwGo pc)) -> waits pc = false.
Proof. intros H%sweep_next_jobs. naive_solver. Qed.

Lemma step_linv l a l' : lstep l a l' -> linv l -> linv l'.
Proof.
  intros H [Hlen Hwait Hact Hrange].
  destruct H; lsimpl; at_pcs;
    repeat match goal with
    | H : takeBuffered _ _ = _ |- _ => apply takeBuffered_split in H as (_ & ? & ? & _)
    | H : wait_enter _ _ = Some _ |- _ => apply wait_enter_Some in H as [_ ->]
    | H : sweep_next _ _ _ _ _ _ _ = (_, (_, SwGo _)) |- _ => apply sweep_next_waits in H
    | H : outside _ _ |- _ => apply outside_keys in H; pose proof (f_equal length H);
        rewrite !length_fmap in *
    end;
    (split; lsimpl; unfold nparts in *; lsimpl;
      [try (congruence || by rewrite ?length_fmap, ?length_insert)
      | try (autorewrite with dtq_poll in *; simpl in *; lia)
      | try done | try (done || congruence)]).
  all: try (intros p' b' Hp'; rewrite <- (Hact _ _ Hp'); apply keep_slot;
            rewrite ?poll_next_active; done).
  all: try (by eapply range_move; [|exact Hrange]). all: try (by eapply range_gone).
  all: repeat match goal with
    | H : sh_parts ?s = _ |- Forall _ _ => rewrite H
    | H : length ?ps = length (sh_parts _) |- Forall _ _ => rewrite H
    end; try done.
  - autorewrite with dtq_poll in *. simpl in *. rewrite H0. simpl. lia.
  - intros p b Hp. apply list_lookup_fmap_Some in Hp as (b' & -> & Hb').
    rewrite actives_app, (Hact _ _ Hb'), (actives_unpolled _ _ _ Hb'). by destruct b'.
  - apply Forall_app. split; [done|]. apply Forall_fmap, Forall_forall.
    intros p (k & -> & Hk)%elem_of_unpolled. simpl. apply lookup_lt_Some in Hk. lia.
  - autorewrite with dtq_poll in *. destruct jobs; simpl in *; lia.
  - apply Forall_app in Hrange as [_ [? _]%Forall_cons]. simpl in *.
    intros p' b Hp. eapply (clear_slot p _ PTop PSignal) in Hp as [_ ?]; done || lia.
  - apply Forall_app in Hrange as [_ [? _]%Forall_cons]. simpl in *.
    intros p' b Hp. eapply (clear_slot p _ (PGot got) PSignal) in Hp as [? _]; done || lia.
  - intros p' b Hp. rewrite <- (Hact _ _ Hp). autorewrite with dtq_poll. simpl.
    case_decide; [naive_solver | lia].
Qed.

Lemma run_linv P l tr l' : lsteps P l tr l' -> linv l -> linv l'.
Proof. induction 1; [done|]. eauto using step_linv. Qed.

(** ** Waking a waiting call *)

(** Looking for jobs with nothing in hand. *)
Definition idle (x : caller) : bool :=
  match x with CSweep _ _ [] | CEnter | CSelect => true | _ => false end.

(** When a lone call looks for jobs, buffered jobs come with a signal, sent or
    about to be. *)
Definition wake_ok (l : lstate) : Prop :=
  forall c pc, l_calls l = [(c, pc)] -> 0 < c_limit c -> idle pc = true ->
    sh_buffered (l_sh l) <> [] -> l_arrived l = true \/ exists p, (p, PSignal) ∈ l_pollers l.

Lemma singleton_mid {A} (l1 l2 : list A) x y : l1 ++ x :: l2 = [y] -> l1 = [] /\ l2 = [] /\ x = y.
Proof. destruct l1 as [|? [|? ?]]; intros [=]; subst; done. Qed.

Lemma signal_move l1 l2 (p q : Z) pc pc' :
  pc <> PSignal -> (q, PSignal) ∈ l1 ++ (p, pc) :: l2 -> (q, PSignal) ∈ l1 ++ (p, pc') :: l2.
Proof. rewrite !elem_of_app, !elem_of_cons. naive_solver. Qed.
Lemma signal_gone l1 l2 (p q : Z) pc :
  pc <> PSignal -> (q, PSignal) ∈ l1 ++ (p, pc) :: l2 -> (q, PSignal) ∈ l1 ++ l2.
Proof. rewrite !elem_of_app, !elem_of_cons. naive_solver. Qed.

Lemma step_wake l a l' :
  lstep l a l' -> (length (l_calls l) <= 1)%nat -> wake_ok l -> wake_ok l'.
Proof.
  intros H Hone Hw c0 pc0 Hcs Hlim Hidle Hbuf.
  assert (forall cs1 x cs2, l_calls l = cs1 ++ x :: cs2 -> cs1 ++ cs2 = [(c0, pc0)] -> False) as Hno.
  { intros cs1 x cs2 E E'. apply (f_equal length) in E'. rewrite E in Hone.
    rewrite !length_app in *. simpl in *. lia. }
  destruct H; lsimpl;
    try match goal with
    | H : wait_enter _ _ = Some _ |- _ => apply wait_enter_Some in H as [_ ->]; lsimpl
    end;
    try (apply singleton_mid in Hcs as (-> & -> & [= -> Hpc]); rewrite <- Hpc in *; cbn [idle] in * );
    try match goal with H : takeBuffered _ _ = _ |- _ =>
      apply takeBuffered_split in H as (Hsplit & ? & ? & _ & Hnil) end;
    try done; try (exfalso; by eapply Hno).
  all: try match goal with H : l_calls _ = [] ++ _ |- _ => specialize (Hw _ _ H Hlim) end.
  all: try match goal with H : l_pollers _ = _ |- _ => specialize (Hw _ _ Hcs Hlim Hidle); rewrite H in Hw end.
  - apply singleton_mid in Hcs as (_ & _ & [= -> <-]). done.
  - destruct jobs; [|done]. exfalso. apply Hbuf. rewrite (Hnil Hlim eq_refl) in Hsplit. done.
  - apply Hw; [|done]. apply sweep_next_jobs in H0 as [_ [(i' & st' & ->)|(-> & -> & _)]]; [|done].
    by destruct jobs.
  - destruct Hw as [?|[p Hp]]; [done..|by left|]. right. exists p. apply elem_of_app. by left.
  - destruct jobs; [|done]. exfalso. apply Hbuf. rewrite (Hnil Hlim eq_refl) in Hsplit. done.
  - destruct Hw as [?|[q Hq]]; [done|by left|]. right. exists q. eapply signal_move, Hq; discriminate.
  - destruct Hw as [?|[q Hq]]; [done|by left|]. right. exists q. eapply signal_gone, Hq; discriminate.
  - destruct Hw as [?|[q Hq]]; [done|by left|]. right. exists q. eapply signal_move, Hq; discriminate.
  - destruct Hw as [?|[q Hq]]; [done|by left|]. right. exists q. eapply signal_move, Hq; discriminate.
  - right. exists p. apply elem_of_app. right. by left.
  - by left.
  - by eapply Hw.
  - by eapply Hw.
  - by eapply Hw.
  - eapply Hw; [done..|]. intros E. apply Hbuf. by rewrite E.
  - by eapply Hw.
  - by eapply Hw.
  - by eapply Hw.
  - rewrite H0. by apply Hw.
  - by eapply Hw.
Qed.

Lemma run_wake P l tr l' :
  (forall m, P m -> (length (l_calls m) <= 1)%nat) ->
  lsteps P l tr l' -> (length (l_calls l) <= 1)%nat -> wake_ok l -> wake_ok l'.
Proof. intros HP. induction 1; [done|]. eauto using step_wake. Qed.

(** ** Closing *)

(** How many steps a poller can still take once the polls are stopped. *)
Definition steps_left (x : poller) : nat :=
  match x with PTop | PSignal => 1 | PSleeping _ | PGot _ => 2 | PReading _ => 3 end.
Definition all_left (l : lstate) : nat := list_sum ((fun x => steps_left x.2) <$> l_pollers l).

Lemma sum_mid {A} (f : A -> nat) l1 x l2 :
  list_sum (f <$> l1 ++ x :: l2) = (f x + list_sum (f <$> l1 ++ l2))%nat.
Proof. rewrite !fmap_app, fmap_cons, !list_sum_app. simpl. lia. Qed.

Lemma poll_next_left k args r :
  polls_stopped k = true -> (steps_left (poll_next k args r) <= 2)%nat.
Proof. intros Hk. destruct r as [[|]|]; simpl; [lia.. |]. rewrite Hk. simpl. lia. Qed.

Lemma stopped_closed k : polls_stopped k = true -> is_closed k = true.
Proof. by destruct k. Qed.

(** Once stopped, nobody starts a poller, and every move of a poller brings it
    closer to its end. *)
Lemma step_closes l a l' :
  lstep l a l' -> polls_stopped (l_close l) = true ->
  polls_stopped (l_close l') = true /\
  (l_pollers l' = l_pollers l \/ (all_left l' < all_left l)%nat).
Proof.
  intros H Hk. pose proof (stopped_closed _ Hk) as Hcl.
  destruct H; lsimpl; try (split; [done | by left]);
    try match goal with H : wait_enter _ _ = Some _ |- _ => apply wait_enter_Some in H as [? _]; congruence end;
    try match goal with H : l_close _ = _ |- _ => rewrite H in Hk; try done; by split; [|left] end;
    (split; [done|]); right; unfold all_left; lsimpl; rewrite H, ?sum_mid; simpl; try lia.
  - exfalso. unfold poll_top in H0. rewrite Hk, orb_true_r in H0. done.
  - pose proof (poll_next_left (l_close l) args r Hk). lia.
Qed.

(** A poller can always take its next step. *)
Lemma poller_moves l x ps :
  linv l -> polls_stopped (l_close l) = true -> l_pollers l = x :: ps ->
  exists a l', lstep l a l' /\ (all_left l' < all_left l)%nat.
Proof.
  intros Hinv Hk Hps. assert (exists a l', lstep l a l' /\ l_pollers l' <> l_pollers l) as (a & l' & Hs & Hne).
  { destruct x as [p pc]. change ((p, pc) :: ps) with ([] ++ (p, pc) :: ps) in Hps.
    assert (forall (y : Z * poller) l, [] ++ l <> [] ++ y :: l) as Hcons.
    { intros y l0 E. apply (f_equal length) in E. simpl in E. lia. }
    destruct pc.
    - eexists _, _. split; [eapply lp_stop; [exact Hps|]|]; lsimpl.
      + unfold poll_top. by rewrite Hk, orb_true_r.
      + rewrite Hps. apply Hcons.
    - pose proof (li_range _ Hinv) as Hr. rewrite Hps in Hr. apply Forall_cons in Hr as [Hr _].
      destruct (part_at_range _ _ Hr) as [st Hst].
      destruct (claimBlocking st (pa_worker args) (pa_count args) (fun s => s)
        (polls_stopped (l_close l)) (l_db l)) as [db' r] eqn:E.
      eexists _, _. split; [by eapply lp_poll|]. lsimpl. rewrite Hps.
      destruct r as [[|]|]; simpl; try discriminate. by destruct (polls_stopped (l_close l)).
    - eexists _, _. split; [by eapply lp_wake|]. lsimpl. by rewrite Hps.
    - eexists _, _. split; [by eapply lp_buffer|]. lsimpl. by rewrite Hps.
    - eexists _, _. split; [by eapply lp_signal|]. lsimpl. rewrite Hps. apply Hcons. }
  exists a, l'. split; [done|]. by destruct (step_closes _ _ _ Hs Hk) as [_ [?|?]].
Qed.

Lemma pollers_end n : forall l, (all_left l <= n)%nat -> linv l -> polls_stopped (l_close l) = true ->
  exists tr l', lsteps (fun _ => True) l tr l' /\ l_pollers l' = [] /\ (length tr <= n)%nat.
Proof.
  induction n as [|n IH]; intros l Hn Hinv Hk; (destruct (l_pollers l) as [|x ps] eqn:E;
    [exists [], l; split_and!; [constructor | done | simpl; lia]|]);
    destruct (poller_moves l x ps Hinv Hk E) as (a & l' & Hs & Hlt).
  { lia. }
  destruct (IH l') as (tr & l2 & Hr & Hl2 & Hlen); [lia | by eapply step_linv | |].
  { by apply (step_closes _ _ _ Hs). }
  exists (a :: tr), l2. split_and!; [by econstructor | done | simpl; lia].
Qed.
End pollers.
