(* ===== verification/ShardedProps.v ===== *)
(** * Guarantees of the sharded queue

    Opening it, settling a job in the partition it came from, claiming across
    the partitions, routing of idempotency keys. *)

From S2P Require Import Prelude GoNum GoTime Errors Job GoJson Redis RefRedis Scripts QueueSpec.
From S2P Require Import QueueRep ScriptsOk QueueSteps Store JobCodec StoreOk EnqueueOk ClaimOk.
From S2P Require Import Demo ClaimProps EnqueueProps Sharded ShardedOk.
From Stdlib Require Import Ascii String.
From stdpp Require Import strings.

Open Scope Z_scope.
Open Scope se_scope.

(** ** Opening *)

Section opening.
Context {R : Redis} {L : RedisLaws R} {C : Client R} (Hrel : reliable C).

(** The keys [K] hold the queue [q], or nothing yet and [q] is empty. *)
Definition opens (K : qkeys) (v : rview) (q : qstate) : Prop :=
  represents K v q \/
  (q = q_empty (rv_now v) /\ forall k, in_keys K k -> rv_keys v !! k = None).

Lemma opens_agree K v v' q : agree K v v' -> opens K v q -> opens K v' q.
Proof.
  intros Ha [Hr|[-> Hnone]]; [left; by eapply represents_agree|].
  destruct Ha as [Hsame Hnow]. right. split; [by rewrite Hnow|].
  intros k Hk. rewrite Hsame; auto.
Qed.

Lemma NewWithClient_opens c db q :
  let st := new_store (with_defaults c) in
  keys_ok (K_of st) -> opens (K_of st) (view db) q ->
  exists db', NewWithClient c db = (db', Ok st) /\
    represents (K_of st) (view db') q /\ frame (K_of st) (view db) (view db').
Proof.
  intros st HK Ho. unfold NewWithClient, bind, try_. rewrite Hrel.
  set (K := K_of st) in *. destruct Ho as [Hr|[-> Hnone]].
  - destruct (rep_stream _ _ _ Hr) as (groups & Hs & Hg).
    destruct (XGROUP_CREATE_busy db (k_stream K) (k_group K) (Group (q_last q) (q_pel q) (q_cons q)))
      as (db' & E & Hv); [unfold group_at; by rewrite Hs|].
    exists db'. change (XGROUP_CREATE _ _ db) with (XGROUP_CREATE (k_stream K) (k_group K) db).
    rewrite E. cbn -[str_contains]. rewrite Hv. split_and!; done.
  - assert (stream_or_new (view db) (k_stream K) = Some empty_stream) as Hs.
    { unfold stream_or_new. by rewrite Hnone by auto with dtq. }
    destruct (XGROUP_CREATE_law db (k_stream K) (k_group K) _ Hs) as (db' & [] & E & Hv);
      [apply lookup_empty|].
    exists db'. change (XGROUP_CREATE _ _ db) with (XGROUP_CREATE (k_stream K) (k_group K) db).
    rewrite E. split; [done|]. rewrite Hv. split; [|apply frame_put_key; auto with dtq].
    pose proof (ko_dedupe _ HK) as Hd. unfold put_stream.
    split; unfold stream_at, zset_at, hash_at, stream_or_new.
    + eexists. rewrite lookup_put_key_eq. split; [reflexivity|]. apply lookup_insert_eq.
    + rewrite lookup_put_key_ne, Hnone by (destruct HK; auto with dtq); done.
    + rewrite lookup_put_key_ne, Hnone by (destruct HK; auto with dtq); done.
    + rewrite lookup_put_key_ne, Hnone by (destruct HK; auto with dtq). by eexists _, _.
    + intros key. rewrite lookup_put_key_ne by (destruct (Hd key _ eq_refl); congruence).
      simpl. rewrite lookup_empty. apply Hnone. auto with dtq.
    + done.
Qed.

Lemma new_parts_opens c ps : forall qs db,
  NoDup ps -> Forall2 (fun p q => opens (K_of (part_store c p)) (view db) q) ps qs ->
  exists db', new_parts c ps db = (db', Ok (part_store c <$> ps)) /\
    holds (K_of <$> (part_store c <$> ps)) (view db') qs /\
    (forall k, (forall p, p ∈ ps -> ~ in_keys (K_of (part_store c p)) k) ->
      rv_keys (view db') !! k = rv_keys (view db) !! k) /\
    rv_now (view db') = rv_now (view db).
Proof.
  induction ps as [|p ps IH]; intros qs db Hnd Ho; inversion Ho as [|? q ? qs' Hq Hqs]; subst.
  { exists db. split_and!; [done | constructor | done | done]. }
  apply NoDup_cons in Hnd as [Hnin Hnd].
  assert (forall p' k, p' ∈ ps -> in_keys (K_of (part_store c p')) k ->
    ~ in_keys (K_of (part_store c p)) k) as Hdis.
  { intros p' k Hp'. apply part_keys_disjoint. by intros ->. }
  destruct (NewWithClient_opens (part_config c p) db q (part_keys_ok c p) Hq) as (db1 & E & Hr & Hf).
  destruct (IH qs' db1 Hnd) as (db2 & E2 & Hh & Hkeep & Hnow).
  { apply Forall2_same_length_lookup. split; [by eapply Forall2_length|]. intros i p' q' Hp' Hq'.
    eapply opens_agree; [eapply agree_frame; [|exact Hf]|].
    - intros k. by eapply Hdis, list_elem_of_lookup_2.
    - by apply (Forall2_lookup_lr _ _ _ _ _ _ Hqs Hp' Hq'). }
  exists db2. split_and!.
  - cbn [new_parts]. unfold bind, try_. rewrite E. by rewrite E2.
  - cbn. constructor; [|exact Hh]. eapply represents_agree; [split; [|exact Hnow] | exact Hr].
    intros k Hk. apply Hkeep. intros p' Hp' Hk'. by apply (Hdis p' k).
  - intros k Hk. rewrite Hkeep; [apply Hf, Hk; by left | intros p' Hp'; apply Hk; by right].
  - rewrite Hnow. apply Hf.
Qed.

(** Opening a sharded queue keeps what is there: each of the [Partitions]
    partitions gets a store of its own under keys disjoint from the others', and
    holds the jobs it held before, or none if it is new. *)
Theorem NewSharded_opens c0 qs db :
  let c := sharded_defaults c0 in
  let ps := Z.of_nat <$> seq 0 (Z.to_nat (sc_Partitions c)) in
  Forall2 (fun p q => opens (K_of (part_store c p)) (view db) q) ps qs ->
  exists db' s, NewSharded c0 db = (db', Ok s) /\ sh_parts s = part_store c <$> ps /\
    nparts s = sc_Partitions c /\ 0 < nparts s /\
    keys_apart (keys_of s) /\ holds (keys_of s) (view db') qs /\
    forall k, (forall K, K ∈ keys_of s -> ~ in_keys K k) -> rv_keys (view db') !! k = rv_keys (view db) !! k.
Proof.
  intros c ps Ho.
  assert (NoDup ps) as Hnd by (apply NoDup_fmap_2; [intros x y; apply Nat2Z.inj | apply NoDup_seq]).
  destruct (new_parts_opens c ps qs db Hnd Ho) as (db' & E & Hh & Hkeep & _).
  exists db', (mkSharded (part_store c <$> ps) 0 0 []).
  assert (0 < sc_Partitions c) by (simpl; destruct (Z.leb_spec (sc_Partitions c0) 0); lia).
  assert (nparts (mkSharded (part_store c <$> ps) 0 0 []) = sc_Partitions c) as Hn.
  { unfold nparts. simpl sh_parts. unfold ps. rewrite !length_fmap, length_seq. lia. }
  split_and!; [|done|done|lia|by apply part_stores_apart|exact Hh|].
  - unfold NewSharded. fold c. fold ps. unfold bind. by rewrite E.
  - intros k Hk. apply Hkeep. intros p Hp. apply Hk.
    unfold keys_of. simpl. by apply list_elem_of_fmap_2, list_elem_of_fmap_2.
Qed.
End opening.

(** ** Settling and routing *)

Section settling.
Context {R : Redis} {L : RedisLaws R} {C : Client R} {CL : ClientLaws C}.
Context (s : Sharded) (Hapart : keys_apart (keys_of s)).

Lemma part_keys_good p st : part_at s p = Some st -> keys_ok (K_of st).
Proof. intros Hp%keys_of_part. eapply apart_ok; [done|]. by eapply list_elem_of_lookup_2. Qed.

(** A call that goes to the partition of [job]. *)
Lemma on_part_ok {A} job st (op : Store -> SE rdb error A) q qs Q :
  let p := Z.to_nat (Partition (JLease job)) in
  partOf s job = Ok st -> qs !! p = Some q -> wpc (K:=K_of st) (op st) q Q ->
  wps (keys_of s) (on_part s job op) qs (fun r qs' => exists q', qs' = <[p := q']> qs /\ Q r q').
Proof.
  intros p Hp Hq Hop. unfold on_part. rewrite Hp. eapply wps_part; [done | | done | done].
  by apply keys_of_part, partOf_Ok.
Qed.

(** C30: a lease of a sharded queue is settled in the partition it came from,
    and only there: [Ack], [Retry] and [DeadLetter] have the outcome of the
    store's call on that partition's queue (an effect only if the lease is held,
    at most once) and leave every other partition as it was. *)
Theorem sharded_settles_own_partition qs job st q nextRunAt reason now db :
  let p := Z.to_nat (Partition (JLease job)) in
  let l := JLease job in
  let settles m eff := exists db' r q',
    m db = (db', r) /\ holds (keys_of s) (view db') (<[p := q']> qs) /\
    fenced_outcome (lease_owns q l) q eff r q' in
  holds (keys_of s) (view db) qs -> partOf s job = Ok st -> qs !! p = Some q ->
  settles (sharded_Ack s job) (fun q' => q' = q_settle (MessageID l) q) /\
  settles (sharded_Retry s job nextRunAt) (fun q' => q' = q_settle (MessageID l)
    (q_schedule (ID job) (UnixMilli nextRunAt) (retry_json job) q)) /\
  settles (sharded_DeadLetter s job reason now) (fun q' => exists did, q' = q_settle (MessageID l)
    (q_bury did (range_map (dead_fields job reason now)) q)).
Proof.
  intros p l settles Hh Hp Hq.
  assert (keys_ok (K_of st)) as HK by (by apply partOf_Ok, part_keys_good in Hp).
  assert (forall op eff, wpc (K:=K_of st) (op st) q (fenced_outcome (lease_owns q l) q eff) ->
    settles (on_part s job op) eff) as Hgo.
  { intros op eff Hop. destruct (on_part_ok job st op q qs _ Hp Hq Hop db Hh)
      as (db' & r & ? & E & Hh' & q' & -> & Ho). by exists db', r, q'. }
  split_and!; apply Hgo; [by apply Ack_ok | by apply Retry_ok | by apply DeadLetter_ok].
Qed.

Lemma route_keyed s' job :
  IdempotencyKey job <> "" -> sh_parts s' = sh_parts s ->
  route s' job = (s', fnv32a (IdempotencyKey job) mod nparts s).
Proof.
  intros Hk Hp. unfold route, nparts. by rewrite bool_decide_eq_false_2, Hp by done.
Qed.

(** Idempotency keys work across partitions: a keyed job's partition
    depends on the key alone, so a second enqueue with the same key, within the
    window, whatever was enqueued, claimed or settled in between and whatever
    the round-robin counter, reaches the partition that remembers it: it stores
    nothing anywhere, and if it returns, it returns the first job's ID. *)
Theorem sharded_idempotency rand now job qs db st q :
  let j := with_ID rand job in
  let p := fnv32a (IdempotencyKey j) mod nparts s in
  reliable C -> after_epoch now -> job_utf8 j -> IdempotencyKey j <> "" ->
  holds (keys_of s) (view db) qs ->
  part_at s p = Some st -> 0 < window_ms st ->
  qs !! Z.to_nat p = Some q -> q_dedupe q !! IdempotencyKey j = None ->
  exists db1 q1, sharded_Enqueue s rand now job db = (db1, (s, Ok (ID j))) /\
    holds (keys_of s) (view db1) (<[Z.to_nat p := q1]> qs) /\
    forall s2 qs2 q2 db2 tr rand2 now2 job2, let j2 := with_ID rand2 job2 in
      sh_parts s2 = sh_parts s -> after_epoch now2 -> job_utf8 j2 ->
      IdempotencyKey j2 = IdempotencyKey j ->
      holds (keys_of s) (view db2) qs2 -> qs2 !! Z.to_nat p = Some q2 ->
      qsteps tr q1 q2 -> q_now q2 < q_now q + window_ms st ->
      exists db3 r, sharded_Enqueue s2 rand2 now2 job2 db2 = (db3, (s2, r)) /\
        holds (keys_of s) (view db3) qs2 /\
        match r with Ok out => out = ID j | Err e => net_error e end.
Proof.
  intros j p Hrel Hn Hutf Hkey Hh Hp Hw Hq Hnone.
  pose proof (part_keys_good _ _ Hp) as HK. pose proof (keys_of_part _ _ _ Hp) as HKp.
  assert (forall r jb, IdempotencyKey (with_ID r jb) = IdempotencyKey jb) as Hid.
  { intros r jb. unfold with_ID. by case_match. }
  assert (forall s' r jb, sh_parts s' = sh_parts s -> IdempotencyKey (with_ID r jb) = IdempotencyKey j ->
    forall now' db', sharded_Enqueue s' r now' jb db' =
      let '(db'', x) := Enqueue st r now' jb db' in (db'', (s', x))) as Hroute.
  { intros s' r jb Hs' Hk now' db'. rewrite Hid in Hk. unfold sharded_Enqueue.
    rewrite (route_keyed s' jb) by congruence. rewrite Hk. fold p. unfold part_at in *.
    rewrite Hs'. by destruct (p <? 0); [|rewrite Hp]. }
  assert (wpc (K:=K_of st) (Enqueue st rand now job) q (fun r q1 =>
    r = Ok (ID j) /\ enqueued st now j q (ID j) q1)) as Hfirst.
  { unfold Enqueue. fold j. rewrite bool_decide_eq_false_2 by done. unfold enqueueOnce. cbn [negb].
    eapply wpc_mono; [apply (wpc_call_reliable Hrel st), (enqueueOnceScript_enqueued st HK Hw); done|].
    cbn beta. intros r q1 (out & -> & He).
    assert (out = ID j) as -> by (destruct He; [congruence | done..]). done. }
  destruct (wps_part _ Hapart _ qs _ _ q _ HKp Hq Hfirst db Hh)
    as (db1 & r1 & ? & E1 & Hh1 & q1 & -> & -> & Henq).
  exists db1, q1. split_and!; [by rewrite Hroute, E1 | done |].
  intros s2 qs2 q2 db2 tr rand2 now2 job2 j2 Hs2 Hn2 Hutf2 Hk2 Hh2 Hq2 Hrun Hwin.
  pose proof (enqueued_remembers st _ _ _ _ _ Hw Hkey Hnone Henq) as Hrem.
  destruct (qsteps_remembered _ _ _ _ _ _ Hrun Hrem Hwin) as [Hded _].
  rewrite <- Hk2 in Hded, Hkey.
  pose proof (Enqueue_duplicate st q2 rand2 now2 job2 _ _ HK Hw Hn2 Hutf2 Hkey Hded) as Hdup.
  destruct (wps_part _ Hapart _ qs2 _ _ q2 _ HKp Hq2 Hdup db2 Hh2)
    as (db3 & r3 & ? & E3 & Hh3 & ? & -> & -> & Hr3).
  exists db3, r3. split_and!; [by rewrite Hroute, E3 | | done].
  by rewrite list_insert_id in Hh3.
Qed.
End settling.

(** ** Claiming across partitions *)

(** A job of a sharded queue leased to [w]: its lease names the partition whose
    queue holds it. *)
Definition leased_in {R : Redis} {C : Client R} (qs : list qstate) (w : string) (job : Job) : Prop :=
  exists q j, qs !! Z.to_nat (Partition (JLease job)) = Some q /\ leased_job w q j /\
    job = set_Lease j (set_Partition (JLease j) (Partition (JLease job))).

(** The delivery a lease is about. *)
Definition slot (job : Job) : Z * eid := (Partition (JLease job), MessageID (JLease job)).

Lemma slot_tag p j : slot (set_Lease j (set_Partition (JLease j) p)) = (p, MessageID (JLease j)).
Proof. done. Qed.

Lemma slots_tag p got : slot <$> tag got p = pair p <$> (MessageID ∘ JLease <$> got).
Proof. unfold tag. rewrite <- !list_fmap_compose. by apply list_fmap_ext. Qed.

Definition visited (s : Sharded) (start : Z) (n : nat) (i : Z) : list Z :=
  (fun k => sweep_part s start (i + Z.of_nat k)) <$> seq 0 n.

Lemma visited_S s start n i :
  visited s start (S n) i = sweep_part s start i :: visited s start n (i + 1).
Proof.
  unfold visited. rewrite <- cons_seq. cbn [fmap list_fmap]. rewrite Z.add_0_r. f_equal.
  rewrite <- fmap_S_seq, <- list_fmap_compose. apply list_fmap_ext. intros k x _. cbn.
  f_equal. lia.
Qed.

(** A sweep that starts at any counter value visits every partition once. *)
Lemma sweep_part_small s start i :
  0 <= start -> 0 <= i -> start + i <= max_int64 -> 0 < nparts s ->
  sweep_part s start i = (start + i) mod nparts s.
Proof.
  intros. unfold sweep_part. rewrite wrap64_id by (unfold int64_ok, min_int64; lia).
  apply Z.rem_mod_nonneg; lia.
Qed.

Lemma visited_all s start :
  0 <= start -> start + nparts s <= max_int64 -> 0 < nparts s ->
  let ps := visited s start (length (sh_parts s)) 0 in
  NoDup ps /\ (forall p, p ∈ ps <-> 0 <= p < nparts s).
Proof.
  intros Hs Hmax Hn ps.
  assert (forall p, p ∈ ps -> 0 <= p < nparts s) as Hin.
  { intros p (k & -> & Hk%elem_of_seq)%list_elem_of_fmap. unfold nparts in *.
    rewrite sweep_part_small by (unfold nparts; lia). apply Z.mod_pos_bound. unfold nparts. lia. }
  assert (NoDup ps) as Hnd.
  { apply NoDup_fmap_2_strong; [|apply NoDup_seq]. intros x y Hx%elem_of_seq Hy%elem_of_seq.
    unfold nparts in *. rewrite !sweep_part_small by (unfold nparts; lia).
    intros E. apply Nat2Z.inj. unfold nparts in *.
    set (n := Z.of_nat (length (sh_parts s))) in *.
    assert (exists d, Z.of_nat x - Z.of_nat y = n * d) as [d Hd].
    { exists ((start + (0 + Z.of_nat x)) / n - (start + (0 + Z.of_nat y)) / n).
      pose proof (Z.div_mod (start + (0 + Z.of_nat x)) n ltac:(lia)).
      pose proof (Z.div_mod (start + (0 + Z.of_nat y)) n ltac:(lia)). lia. }
    assert (d = 0) as -> by nia. lia. }
  split; [done|]. intros p. split; [apply Hin|]. intros Hp.
  assert (ps ≡ₚ Z.of_nat <$> seq 0 (length (sh_parts s))) as ->.
  { apply submseteq_length_Permutation.
    - apply NoDup_submseteq; [done|]. intros x Hx%Hin. apply list_elem_of_fmap.
      exists (Z.to_nat x). unfold nparts in Hx. split; [lia|]. apply elem_of_seq. lia.
    - unfold ps, visited. rewrite !length_fmap, !length_seq. done. }
  apply list_elem_of_fmap. exists (Z.to_nat p). unfold nparts in Hp. split; [lia|].
  apply elem_of_seq. lia.
Qed.

Section claiming.
Context {R : Redis} {L : RedisLaws R} {C : Client R} {CL : ClientLaws C}.
Context (s : Sharded) (Hapart : keys_apart (keys_of s)).
Implicit Types (qs : list qstate) (ps : list Z) (w : string).

(** Sweeping the partitions [ps] leased the jobs [new] to [w]. *)
Record swept ps w qs qs' (new : list Job) : Prop := {
  sw_reaches : Forall2 reaches qs qs';
  sw_others p : p ∉ ps -> 0 <= p -> qs' !! Z.to_nat p = qs !! Z.to_nat p;
  sw_leased : Forall (leased_in qs' w) new;
  sw_parts : Forall (fun j => Partition (JLease j) ∈ ps) new;
  sw_nodup : NoDup (slot <$> new);
}.

Lemma swept_nil ps w qs : swept ps w qs qs [].
Proof. split; [reflexivity | done | constructor..]. Qed.

Lemma Forall2_reaches_insert qs i q q' :
  qs !! i = Some q -> reaches q q' -> Forall2 reaches qs (<[i := q']> qs).
Proof.
  intros Hq Hr. apply Forall2_same_length_lookup. split; [by rewrite length_insert|].
  intros j x y Hx Hy. destruct (decide (i = j)) as [->|Hne].
  - apply list_lookup_insert_Some in Hy as [(_ & -> & _)|[? _]]; [|done]. congruence.
  - rewrite list_lookup_insert_ne in Hy by done. assert (x = y) as -> by congruence. reflexivity.
Qed.

Lemma leased_in_tag p w limit qs q got :
  0 <= p -> qs !! Z.to_nat p = Some q -> handed_out w limit q got ->
  Forall (leased_in qs w) (tag got p).
Proof.
  intros Hp Hq (Hl & _). apply Forall_fmap. eapply Forall_impl; [exact Hl|]. intros j Hj.
  exists q, j. split_and!; [exact Hq | exact Hj | reflexivity].
Qed.

Lemma swept_one ps p w limit qs q q' got :
  0 <= p -> p ∈ ps -> qs !! Z.to_nat p = Some q -> reaches q q' -> handed_out w limit q' got ->
  swept ps w qs (<[Z.to_nat p := q']> qs) (tag got p).
Proof.
  intros Hp Hin Hq Hr Hh. split.
  - by eapply Forall2_reaches_insert.
  - intros p' Hnin Hp'. apply list_lookup_insert_ne. intros E%Z2Nat.inj; [by subst | done..].
  - eapply leased_in_tag; [done | | done]. apply list_lookup_insert_eq. by eapply lookup_lt_Some.
  - apply Forall_fmap, Forall_true. intros j. exact Hin.
  - rewrite slots_tag. apply NoDup_fmap_2; [by intros x y [= ->]|]. apply Hh.
Qed.

Lemma Forall2_reaches_trans qs1 qs2 qs3 :
  Forall2 reaches qs1 qs2 -> Forall2 reaches qs2 qs3 -> Forall2 reaches qs1 qs3.
Proof. intros. by eapply transitivity. Qed.

Lemma swept_app p ps w qs qs1 qs2 new1 new2 :
  (p ∉ ps) -> 0 <= p ->
  swept [p] w qs qs1 new1 -> swept ps w qs1 qs2 new2 -> swept (p :: ps) w qs qs2 (new1 ++ new2).
Proof.
  intros Hnin Hp [R1 O1 L1 P1 N1] [R2 O2 L2 P2 N2].
  assert (forall j, j ∈ new1 -> Partition (JLease j) = p) as Hpart.
  { intros j Hj. rewrite Forall_forall in P1. by apply P1, list_elem_of_singleton in Hj. }
  split.
  - by eapply Forall2_reaches_trans.
  - intros p' [Hne Hp']%not_elem_of_cons H0. rewrite O2, O1; try done.
    by rewrite list_elem_of_singleton.
  - apply Forall_app. split; [|done]. apply Forall_forall. intros j Hj.
    rewrite Forall_forall in L1. destruct (L1 j Hj) as (q & j' & Hq & Hj').
    exists q, j'. split; [|done]. rewrite (Hpart j Hj) in *. by rewrite O2.
  - apply Forall_app. split; [|eapply Forall_impl; [exact P2 | by right]].
    apply Forall_forall. intros j Hj. rewrite (Hpart j Hj). by left.
  - rewrite fmap_app. apply NoDup_app. split_and!; [done | | done].
    intros x (j1 & -> & H1)%list_elem_of_fmap (j2 & E & H2)%list_elem_of_fmap.
    apply Hnin. rewrite Forall_forall in P2. specialize (P2 j2 H2).
    injection E as E _. by rewrite <- (Hpart j1 H1), E.
Qed.

Lemma Forall_inv_reaches qs qs' : Forall q_inv qs -> Forall2 reaches qs qs' -> Forall q_inv qs'.
Proof.
  intros Hi Hr. induction Hr; inversion Hi; subst; constructor; [by eapply reaches_inv | auto].
Qed.

(** The queue of a partition. *)
Lemma part_queue qs v p st :
  holds (keys_of s) v qs -> Forall q_inv qs -> part_at s p = Some st ->
  exists q, qs !! Z.to_nat p = Some q /\ q_inv q.
Proof.
  intros Hh Hi Hp. destruct (holds_lookup _ _ _ _ _ Hh (keys_of_part _ _ _ Hp)) as (q & Hq & _).
  exists q. split; [done|]. by eapply Forall_lookup_1.
Qed.

(** One step of a sweep. *)
Lemma claim_part p w rest now qs db :
  0 <= p < nparts s -> 0 < rest -> Forall q_inv qs -> holds (keys_of s) (view db) qs ->
  exists st q db' r q', part_at s p = Some st /\ qs !! Z.to_nat p = Some q /\ q_inv q /\
    represents (K_of st) (view db) q /\ keys_ok (K_of st) /\
    claimReady st w rest now db = (db', r) /\
    holds (keys_of s) (view db') (<[Z.to_nat p := q']> qs) /\
    Forall q_inv (<[Z.to_nat p := q']> qs) /\ reaches q q' /\
    match r with Ok got => handed_out w rest q' got | Err _ => ~ reliable C end.
Proof.
  intros Hp Hrest Hinv Hh. destruct (part_at_range s p Hp) as [st Hst].
  destruct (part_queue qs _ p st Hh Hinv Hst) as (q & Hq & Hqi).
  pose proof (part_keys_good s Hapart p st Hst) as HK.
  destruct (holds_lookup _ _ _ _ _ Hh (keys_of_part _ _ _ Hst)) as (q0 & Hq0 & Hr0).
  assert (q0 = q) as -> by congruence.
  destruct (wps_part _ Hapart _ qs _ _ q _ (keys_of_part _ _ _ Hst) Hq
    (claimReady_ok st HK q w rest now Hrest Hqi) db Hh) as (db' & r & ? & E & Hh' & q' & -> & Hr & Hpost).
  exists st, q, db', r, q'. split_and!; try done.
  - eapply Forall_inv_reaches; [done|]. by eapply Forall2_reaches_insert.
  - destruct r as [got|e]; [apply Hpost|]. intros Hrel.
    destruct (claimReady_run Hrel st HK db q w rest now Hrest Hqi Hr0) as (? & ? & ? & ? & _ & _ & E' & _).
    rewrite E in E'. discriminate E'.
Qed.

Lemma sweep_ok start w limit now n : forall i jobs qs,
  NoDup (visited s start n i) -> (forall p, p ∈ visited s start n i -> 0 <= p < nparts s) ->
  Forall q_inv qs -> Z.of_nat (length jobs) <= limit ->
  wps (keys_of s) (sweep n i start s w limit now jobs) qs (fun out qs' => exists new,
    out.1 = jobs ++ new /\ swept (visited s start n i) w qs qs' new /\
    Z.of_nat (length out.1) <= limit /\ (reliable C -> out.2 = None)).
Proof.
  induction n as [|n IH]; intros i jobs qs Hnd Hin Hinv Hlen db Hh; cbn [sweep].
  { exists db, (jobs, None), qs. split_and!; [done..|]. exists [].
    split_and!; [by rewrite app_nil_r | apply swept_nil | done | done]. }
  destruct (Z.leb_spec limit (Z.of_nat (length jobs))) as [Hge|Hlt].
  { exists db, (jobs, None), qs. split_and!; [done..|]. exists [].
    split_and!; [by rewrite app_nil_r | apply swept_nil | done | done]. }
  rewrite visited_S in *. set (p := sweep_part s start i) in *.
  apply NoDup_cons in Hnd as [Hnin Hnd].
  assert (0 <= p < nparts s) as Hp by (apply Hin; by left).
  destruct (claim_part p w (limit - Z.of_nat (length jobs)) now qs db)
    as (st & q & db1 & r & q' & -> & Hq & _ & _ & _ & E & Hh1 & Hinv1 & Hr & Hpost); [lia | lia | done..|].
  rewrite E. destruct r as [got|e].
  - assert (swept [p] w qs (<[Z.to_nat p := q']> qs) (tag got p)) as Hsw.
    { eapply swept_one; [lia | by left | done..]. }
    assert (Z.of_nat (length (jobs ++ tag got p)) <= limit) as Hlen1.
    { destruct Hpost as (_ & _ & Hl). unfold tag. rewrite length_app, length_fmap. lia. }
    destruct (IH (i + 1) (jobs ++ tag got p) (<[Z.to_nat p := q']> qs) Hnd) with (s := db1)
      as (db2 & out & qs2 & E2 & Hh2 & new & Hnew & Hsw2 & Hlen2 & Hrel2); [|done..|].
    { intros p' Hp'. apply Hin. by right. }
    exists db2, out, qs2. split_and!; [done | done|]. exists (tag got p ++ new).
    split_and!; [by rewrite Hnew, app_assoc | | done | done].
    eapply swept_app; [done | lia | done | done].
  - exists db1, (jobs, Some (ErrWrap ("partition " +:+ Itoa p +:+ ": ") e "")), (<[Z.to_nat p := q']> qs).
    split_and!; [done | done|]. exists []. split_and!; [by rewrite app_nil_r | | done | done].
    eapply (swept_one _ p w 0 _ _ _ []); [lia | by left | done | done |].
    split_and!; [constructor | constructor | done].
Qed.

(** A partition has a job for [w]: one of its first [limit] entries never
    delivered can be parsed. *)
Definition has_ready w (limit : Z) (q : qstate) : Prop :=
  exists e, e ∈ q_ready limit q /\ is_Some (parsed w (e, 1)).

Lemma promoted_ready ids q q1 limit e :
  promoted ids q q1 -> e ∈ q_ready limit q -> e ∈ q_ready limit q1.
Proof.
  intros Hp. destruct (promoted_entries _ _ _ Hp) as [new Hnew].
  destruct (promoted_pel _ _ _ Hp) as (_ & Hlast & _).
  unfold q_ready, undelivered. rewrite Hnew, Hlast, filter_app, take_app, elem_of_app. by left.
Qed.

Lemma claimReady_finds st q w limit now db :
  reliable C -> keys_ok (K_of st) -> 0 < limit -> q_inv q -> has_ready w limit q ->
  represents (K_of st) (view db) q ->
  exists db' j js, claimReady st w limit now db = (db', Ok (j :: js)).
Proof.
  intros Hrel HK Hlim Hinv (e & He & j & Hj) Hs.
  destruct (claimReady_run Hrel st HK db q w limit now Hlim Hinv Hs)
    as (db' & q' & q1 & l & _ & Hp & E & _).
  assert (j ∈ omap (parsed w) (first_deliveries (q_ready limit q1))) as Hin.
  { apply list_elem_of_omap. exists (e, 1). split; [|done]. apply list_elem_of_fmap.
    exists e. split; [done|]. by eapply promoted_ready. }
  destruct (omap (parsed w) (first_deliveries (q_ready limit q1))) as [|j' js] eqn:Ej;
    [by apply not_elem_of_nil in Hin | eauto].
Qed.

Lemma sweep_finds start w limit now n : reliable C -> 0 < limit -> forall i qs db,
  NoDup (visited s start n i) -> (forall p, p ∈ visited s start n i -> 0 <= p < nparts s) ->
  Forall q_inv qs -> holds (keys_of s) (view db) qs ->
  (exists p q, p ∈ visited s start n i /\ qs !! Z.to_nat p = Some q /\ has_ready w limit q) ->
  exists db' j js, sweep n i start s w limit now [] db = (db', (j :: js, None)).
Proof.
  intros Hrel Hlim. induction n as [|n IH]; intros i qs db Hnd Hin Hinv Hh (p0 & q0 & Hp0 & Hq0 & Hready).
  { by apply not_elem_of_nil in Hp0. }
  rewrite visited_S in *. cbn [sweep length]. rewrite (proj2 (Z.leb_gt limit (Z.of_nat 0))) by lia.
  set (p := sweep_part s start i) in *. apply NoDup_cons in Hnd as [Hnin Hnd].
  assert (0 <= p < nparts s) as Hp by (apply Hin; by left).
  assert (forall p, p ∈ visited s start n (i + 1) -> 0 <= p < nparts s) as Hin'.
  { intros. apply Hin. by right. }
  change (Z.of_nat 0) with 0. rewrite Z.sub_0_r.
  destruct (claim_part p w limit now qs db Hp Hlim Hinv Hh)
    as (st & q & db1 & r & q' & -> & Hq & Hqi & Hs & HK & E & Hh1 & Hinv1 & Hr & Hpost).
  rewrite E. destruct r as [got|e]; [|done].
  rewrite app_nil_l. destruct got as [|j js].
  - apply (IH (i + 1) (<[Z.to_nat p := q']> qs)); [done..|].
    apply elem_of_cons in Hp0 as [->|Hp0].
    + exfalso. assert (q0 = q) as -> by congruence.
      destruct (claimReady_finds st q w limit now db) as (? & ? & ? & Ef); [done..|].
      rewrite E in Ef. discriminate Ef.
    + exists p0, q0. split_and!; [done | | done]. rewrite list_lookup_insert_ne; [done|].
      intros Ep%Z2Nat.inj; [by subst | lia | by apply Hin'].
  - destruct (sweep_ok start w limit now n (i + 1) (tag (j :: js) p) (<[Z.to_nat p := q']> qs) Hnd Hin' Hinv1)
      with (s := db1) as (db2 & [jobs' err] & qs2 & E2 & _ & new & Hnew & _ & _ & Herr); [|done|].
    + destruct Hpost as (_ & _ & Hl). unfold tag. by rewrite length_fmap.
    + simpl in Hnew, Herr. rewrite E2, Hnew, Herr by done. cbn. eauto.
Qed.

(** The claim counter has not wrapped round an [int]. *)
Definition counter_ok : Prop := 0 <= sh_claimNext s /\ sh_claimNext s + 1 + nparts s <= max_int64.

Lemma claim_start :
  counter_ok -> 0 < nparts s ->
  let start := wrap64 (wrapu64 (sh_claimNext s + 1)) in
  let ps := visited s start (length (sh_parts s)) 0 in
  NoDup ps /\ (forall p, p ∈ ps <-> 0 <= p < nparts s).
Proof.
  intros [H0 Hmax] Hn. unfold max_int64 in Hmax.
  assert (wrapu64 (sh_claimNext s + 1) = sh_claimNext s + 1) as Eu.
  { unfold wrapu64. apply Z.mod_small. lia. }
  rewrite Eu, wrap64_id by (unfold int64_ok, min_int64, max_int64; lia).
  apply visited_all; unfold max_int64; lia.
Qed.

End claiming.

Section claims.
Context {R : Redis} {L : RedisLaws R} {C : Client R} {CL : ClientLaws C}.
Context (s : Sharded) (Hapart : keys_apart (keys_of s)).

(** The jobs a claim on a sharded queue hands out (at most [limit]) are the
    oldest buffered ones followed by newly claimed ones; each new job is leased
    to the worker in the queue of the partition its lease names, where settling
    will find it, no delivery is handed out twice, and the jobs not handed out
    stay buffered. Only when there is nothing to hand out and the caller is
    willing to wait does it go on to the long polls. *)
Theorem sharded_Claim_leases qs w limit wait now db :
  0 < nparts s -> counter_ok s -> 0 < limit -> Forall q_inv qs ->
  holds (keys_of s) (view db) qs ->
  exists db' s' out qs' taken new,
    sharded_Claim_ready s w limit wait now db = (db', (s', out)) /\
    holds (keys_of s) (view db') qs' /\ Forall2 reaches qs qs' /\ sh_parts s' = sh_parts s /\
    sh_buffered s = taken ++ sh_buffered s' /\
    Forall (leased_in qs' w) new /\ Forall (fun j => exists st, partOf s j = Ok st) new /\
    NoDup (slot <$> new) /\
    match out with
    | Some (jobs, _) => jobs = taken ++ new /\ Z.of_nat (length jobs) <= limit
    | None => taken = [] /\ new = [] /\ 0 < wait
    end.
Proof.
  intros Hn Hcount Hlim Hinv Hh. destruct (claim_start s Hcount Hn) as [Hnd Hall].
  unfold sharded_Claim_ready, takeBuffered. set (k := Z.to_nat _).
  set (start := wrap64 _) in *. set (s2 := mkSharded _ _ _ _).
  destruct (sweep_ok s2 Hapart start w limit now (length (sh_parts s2)) 0 (take k (sh_buffered s)) qs)
    with (s := db) as (db' & [jobs err] & qs' & E & Hh' & new & Hnew & Hsw & Hlen & _); try done.
  { intros p Hp. by apply Hall. }
  { rewrite length_take. unfold k. lia. }
  simpl in Hnew, Hlen.
  exists db', s2, (match err with
    | Some e => Some (jobs, Some e)
    | None => if (0 <? length jobs)%nat || (wait <=? 0) then Some (jobs, None) else None
    end), qs', (take k (sh_buffered s)), new.
  split_and!; try done.
  - simpl in E |- *. rewrite E. by destruct err; [|destruct (_ || _)].
  - apply Hsw.
  - simpl. by rewrite take_drop.
  - apply Hsw.
  - eapply Forall_impl; [exact (sw_parts _ _ _ _ _ Hsw)|]. intros j Hj. apply Hall in Hj.
    destruct (part_at_range s _ Hj) as [st Hst]. exists st. by apply partOf_Ok.
  - apply Hsw.
  - destruct err as [e|]; [done|]. destruct (Nat.ltb_spec 0 (length jobs)) as [|H0]; [done|].
    destruct (Z.leb_spec wait 0); [done|]. cbn [orb].
    assert (jobs = []) as -> by (apply nil_length_inv; lia). symmetry in Hnew.
    by apply app_nil in Hnew as [-> ->].
Qed.

(** A claim never sleeps on work: over a client that delivers its requests,
    if any partition has a job ready, wherever the sweep starts, the claim hands
    out jobs at once instead of waiting. *)
Theorem sharded_Claim_finds qs w limit wait now db p q :
  reliable C -> 0 < nparts s -> counter_ok s -> 0 < limit -> Forall q_inv qs ->
  holds (keys_of s) (view db) qs ->
  qs !! p = Some q -> has_ready w limit q ->
  exists db' s' j js, sharded_Claim_ready s w limit wait now db = (db', (s', Some (j :: js, None))).
Proof.
  intros Hrel Hn Hcount Hlim Hinv Hh Hq Hready. destruct (claim_start s Hcount Hn) as [Hnd Hall].
  unfold sharded_Claim_ready, takeBuffered. set (k := Z.to_nat _).
  set (start := wrap64 _) in *. set (s2 := mkSharded _ _ _ _).
  assert (forall x, x ∈ visited s2 start (length (sh_parts s2)) 0 -> 0 <= x < nparts s2) as Hin.
  { intros x Hx. by apply Hall. }
  assert (exists db' j js, sweep (length (sh_parts s2)) 0 start s2 w limit now (take k (sh_buffered s)) db =
    (db', (j :: js, None))) as (db' & j & js & E).
  { destruct (take k (sh_buffered s)) as [|j js] eqn:Ek.
    - apply (sweep_finds s2 Hapart start w limit now _ Hrel Hlim 0 qs db Hnd Hin Hinv Hh).
      exists (Z.of_nat p), q. rewrite Nat2Z.id. split_and!; [|done..]. apply Hall.
      apply lookup_lt_Some in Hq. apply Forall2_length in Hh. unfold keys_of in Hh.
      rewrite length_fmap in Hh. unfold nparts. lia.
    - destruct (sweep_ok s2 Hapart start w limit now (length (sh_parts s2)) 0 (j :: js) qs Hnd Hin Hinv)
        with (s := db) as (db' & [jobs err] & qs' & E & _ & new & Hnew & _ & _ & Herr); [|done|].
      + rewrite <- Ek, length_take. unfold k. lia.
      + simpl in Hnew, Herr. rewrite E, Hnew, Herr by done. eauto. }
  exists db', s2, j, js. simpl in E |- *. by rewrite E.
Qed.
End claims.
