(* ===== verification/ShardedBatch.v ===== *)
(** * Batches on a sharded queue

    [perPartition] and the operations built on it: every job of a batch gets the
    answer of its own partition, and the heartbeat keeps the buffer of polled
    jobs free of lost leases. *)

From S2P Require Import Prelude GoNum GoTime Errors Job GoJson Redis RefRedis Scripts QueueSpec.
From S2P Require Import QueueRep ScriptsOk QueueSteps Store JobCodec StoreOk EnqueueOk ClaimOk.
From S2P Require Import Demo ClaimProps EnqueueProps WorkerStore Sharded ShardedOk.
From S2P Require Import ShardedProps.
From Stdlib Require Import Ascii String.
From stdpp Require Import strings.

Open Scope Z_scope.
Open Scope se_scope.

(** ** Batches split by partition *)

Lemma scatter_lookup {A} (idx : list nat) : forall (res errs : list A),
  NoDup idx -> length res = length idx -> Forall (fun i => (i < length errs)%nat) idx ->
  length (scatter idx res errs) = length errs /\
  (forall k i, idx !! k = Some i -> scatter idx res errs !! i = res !! k) /\
  (forall i, i ∉ idx -> scatter idx res errs !! i = errs !! i).
Proof.
  induction idx as [|j idx IH]; intros [|r res] errs Hnd Hlen Hb; try discriminate Hlen; [done|].
  apply NoDup_cons in Hnd as [Hnin Hnd]. inversion Hb as [|? ? Hj Hb']; subst.
  destruct (IH res (<[j := r]> errs)) as (H1 & H2 & H3); [done | by injection Hlen | |].
  { by rewrite length_insert. }
  cbn [scatter]. rewrite length_insert in H1. split_and!; [done | |].
  - intros [|k] i Hk; simpl in Hk; [|by apply H2]. injection Hk as <-.
    rewrite H3 by done. by apply list_lookup_insert_eq.
  - intros i [Hne Hi]%not_elem_of_cons. rewrite H3 by done. by apply list_lookup_insert_ne.
Qed.

Section batches.
Context {R : Redis} (go_order : list Z -> list Z) (go_perm : forall l, go_order l ≡ₚ l).
Context (s : Sharded) (jobs : list Job).
Context (op : Store -> list Job -> rdb -> rdb * list (option error)).

Definition idx_of (p : Z) : list nat := indexes (known_part s jobs) (length jobs) p.
Definition batch_of (p : Z) : list Job := omap (fun i => jobs !! i) (idx_of p).

Lemma elem_of_idx p i : i ∈ idx_of p <-> known_part s jobs i = Some p.
Proof.
  unfold idx_of, indexes. rewrite list_elem_of_filter, elem_of_seq. split; [tauto|]. intros H.
  split; [done|]. unfold known_part in H. destruct (jobs !! i) eqn:E; [|done].
  apply lookup_lt_Some in E. lia.
Qed.

Lemma NoDup_idx p : NoDup (idx_of p).
Proof. apply NoDup_filter, NoDup_seq. Qed.

Lemma idx_bound p : Forall (fun i => (i < length jobs)%nat) (idx_of p).
Proof.
  apply Forall_forall. intros i (_ & Hi%elem_of_seq)%list_elem_of_filter. lia.
Qed.

(** The jobs of a group, at the positions of its indexes. *)
Lemma batch_of_lookup p k i :
  idx_of p !! k = Some i -> exists job, jobs !! i = Some job /\ batch_of p !! k = Some job.
Proof.
  unfold batch_of. pose proof (idx_bound p) as Hb. revert k.
  induction (idx_of p) as [|j idx IH]; intros k Hk; [done|]. inversion Hb as [|? ? Hj Hb']; subst.
  destruct (lookup_lt_is_Some_2 jobs j Hj) as [job Hjob]. cbn [omap list_omap]. rewrite Hjob.
  destruct k as [|k]; simpl in Hk |- *; [|by apply IH]. simplify_eq. eauto.
Qed.

Lemma length_batch_of p : length (batch_of p) = length (idx_of p).
Proof.
  unfold batch_of. pose proof (idx_bound p) as Hb.
  induction (idx_of p) as [|j idx IH]; [done|]. inversion Hb as [|? ? Hj Hb']; subst.
  destruct (lookup_lt_is_Some_2 jobs j Hj) as [job Hjob]. cbn [omap list_omap]. rewrite Hjob. simpl.
  by rewrite IH.
Qed.

(** Each group's results land at its indexes, whatever invariant [I] of the
    server the calls keep. *)
Context (I : rdb -> Prop) (Post : Z -> list (option error) -> Prop).
Context (op_len : forall st batch db, length (op st batch db).2 = length batch).
Context (op_ok : forall p st db, part_at s p = Some st -> I db ->
  I (op st (batch_of p) db).1 /\ Post p (op st (batch_of p) db).2).

Lemma run_groups_spec todo : forall errs db,
  NoDup todo -> (forall p, p ∈ todo -> is_Some (part_at s p)) ->
  length errs = length jobs -> I db ->
  exists db' errs', run_groups s jobs op todo errs db = (db', errs') /\ I db' /\
    length errs' = length jobs /\
    (forall i, (forall p, p ∈ todo -> i ∉ idx_of p) -> errs' !! i = errs !! i) /\
    (forall p, p ∈ todo -> exists res, Post p res /\
       forall k i, idx_of p !! k = Some i -> errs' !! i = res !! k).
Proof.
  induction todo as [|p todo IH]; intros errs db Hnd Hpart Hlen HI; cbn [run_groups].
  { exists db, errs. split_and!; try done. intros p Hp. by apply not_elem_of_nil in Hp. }
  apply NoDup_cons in Hnd as [Hnin Hnd].
  destruct (Hpart p) as [st Hst]; [by left|]. rewrite Hst. fold (idx_of p). fold (batch_of p).
  destruct (op_ok p st db Hst HI) as [HI1 Hpost]. pose proof (op_len st (batch_of p) db) as Hl.
  destruct (op st (batch_of p) db) as [db1 res]. simpl in HI1, Hpost, Hl.
  destruct (scatter_lookup (idx_of p) res errs (NoDup_idx p)) as (S1 & S2 & S3).
  { by rewrite Hl, length_batch_of. }
  { rewrite Hlen. apply idx_bound. }
  destruct (IH (scatter (idx_of p) res errs) db1 Hnd) as (db' & errs' & E & HI' & Hlen' & Hsame & Hres);
    [intros; apply Hpart; by right | by rewrite S1 | done|].
  exists db', errs'. split_and!; [done | done | done | |].
  - intros i Hi. rewrite Hsame, S3; [done | apply Hi; by left |]. intros p' Hp'. apply Hi. by right.
  - intros p' [->|Hp']%elem_of_cons; [|by apply Hres]. exists res. split; [done|].
    intros k i Hk. rewrite Hsame; [by apply S2|]. intros p' Hp' Hi.
    apply list_elem_of_lookup_2, elem_of_idx in Hk. apply elem_of_idx in Hi. congruence.
Qed.

Lemma elem_of_groups p : p ∈ groups (known_part s jobs) (length jobs) <-> exists i, i ∈ idx_of p.
Proof.
  unfold groups. rewrite elem_of_remove_dups, list_elem_of_omap. split.
  - intros (i & _ & Hi). exists i. by apply elem_of_idx.
  - intros (i & Hi). exists i. split; [|by apply elem_of_idx].
    by apply list_elem_of_filter in Hi as [_ ?].
Qed.

Lemma known_part_at i p : known_part s jobs i = Some p -> is_Some (part_at s p).
Proof.
  unfold known_part. destruct (jobs !! i) as [job|]; [|done].
  destruct (partOf s job) as [st|] eqn:E; [|done]. intros [= <-]. apply partOf_Ok in E. eauto.
Qed.

Lemma perPartition_spec db : I db ->
  exists db' errs, perPartition go_order s jobs op db = (db', errs) /\ I db' /\
    length errs = length jobs /\
    (forall i job e, jobs !! i = Some job -> partOf s job = Err e -> errs !! i = Some (Some e)) /\
    (forall p, (exists i, i ∈ idx_of p) -> exists res, Post p res /\
       forall k i, idx_of p !! k = Some i -> errs !! i = res !! k).
Proof.
  intros HI. unfold perPartition. set (errs0 := _ <$> jobs).
  set (gs := groups (known_part s jobs) (length jobs)).
  assert (forall p, p ∈ go_order gs <-> exists i, i ∈ idx_of p) as Hgs.
  { intros p. rewrite (go_perm gs). apply elem_of_groups. }
  destruct (run_groups_spec (go_order gs) errs0 db) as (db' & errs & E & HI' & Hlen & Hsame & Hres).
  - rewrite (go_perm gs). apply NoDup_remove_dups.
  - intros p [i Hi]%Hgs. apply elem_of_idx in Hi. by eapply known_part_at.
  - unfold errs0. apply length_fmap.
  - done.
  - exists db', errs. split_and!; [done | done | done | |].
    + intros i job e Hjob He. rewrite Hsame.
      * unfold errs0. by rewrite list_lookup_fmap, Hjob; simpl; rewrite He.
      * intros p _ Hi%elem_of_idx. unfold known_part in Hi. by rewrite Hjob, He in Hi.
    + intros p Hp. by apply Hres, Hgs.
Qed.
End batches.

(** [perPartition] answers every job with its own partition's answer: a job
    of an unknown partition gets that error, the others the result of one call
    on exactly the jobs of their partition, at the position of the job in that
    call, whichever order the partitions' calls run in. *)
Theorem perPartition_positions {R : Redis} (go_order : list Z -> list Z) s jobs
    (op : Store -> list Job -> rdb -> rdb * list (option error)) db :
  (forall l, go_order l ≡ₚ l) -> (forall st batch db, length (op st batch db).2 = length batch) ->
  exists db' errs, perPartition go_order s jobs op db = (db', errs) /\ length errs = length jobs /\
    forall i job, jobs !! i = Some job ->
      match partOf s job with
      | Err e => errs !! i = Some (Some e)
      | Ok st => exists db1 k, let batch := batch_of s jobs (Partition (JLease job)) in
          batch !! k = Some job /\ errs !! i = (op st batch db1).2 !! k
      end.
Proof.
  intros Hperm Hlen.
  destruct (perPartition_spec go_order Hperm s jobs op (fun _ => True)
    (fun p res => exists st db1, part_at s p = Some st /\ res = (op st (batch_of s jobs p) db1).2) Hlen)
    with (db := db) as (db' & errs & E & _ & Hl & Hunk & Hres); [eauto 10 | done|].
  exists db', errs. split_and!; [done | done|]. intros i job Hjob.
  destruct (partOf s job) as [st|e] eqn:Ep; [|by eapply Hunk].
  set (p := Partition (JLease job)).
  assert (i ∈ idx_of s jobs p) as Hi.
  { apply elem_of_idx. unfold known_part. by rewrite Hjob, Ep. }
  destruct (Hres p) as (res & (st' & db1 & Hst' & ->) & Hpos); [eauto|].
  apply partOf_Ok in Ep. assert (st' = st) as -> by (unfold p in Hst'; congruence).
  apply list_elem_of_lookup_1 in Hi as [k Hk].
  destruct (batch_of_lookup s jobs p k i Hk) as (job' & Hj & Hb). exists db1, k.
  split; [congruence | by apply Hpos].
Qed.

(** ** Heartbeats *)

Lemma zip_fmap_self {A B} (f : A -> B) l : zip l (f <$> l) = (fun a => (a, f a)) <$> l.
Proof. induction l as [|a l IH]; [done|]. cbn. by f_equal. Qed.

Definition same_owners (q q' : qstate) : Prop := forall l, lease_owns q' l = lease_owns q l.

Definition renewal (q : qstate) (job : Job) : option error :=
  if lease_owns q (JLease job) then None else Some ErrLeaseLost.

Section heartbeat.
Context {R : Redis} {L : RedisLaws R} {C : Client R} {CL : ClientLaws C} (Hrel : reliable C).

(** What a renewal answers: the job's partition decides. *)
Definition answer (s : Sharded) (qs : list qstate) (job : Job) : option error :=
  match partOf s job with
  | Err e => Some e
  | Ok _ => qs !! Z.to_nat (Partition (JLease job)) ≫= fun q => renewal q job
  end.

Lemma length_ExtendBatch b jobs db : length (ExtendBatch b jobs db).2 = length jobs.
Proof.
  unfold ExtendBatch, fencedBatch. destruct (call _ db) as [db' r]. apply length_imap.
Qed.

Lemma ExtendBatch_part s qs0 qs p st jobs db :
  keys_apart (keys_of s) -> part_at s p = Some st ->
  holds (keys_of s) (view db) qs -> Forall q_wf qs -> Forall2 same_owners qs0 qs ->
  exists db' qs' q, ExtendBatch st jobs db = (db', renewal q <$> jobs) /\
    qs0 !! Z.to_nat p = Some q /\
    holds (keys_of s) (view db') qs' /\ Forall q_wf qs' /\ Forall2 same_owners qs0 qs'.
Proof.
  intros Hapart Hst Hh Hwf Hsame.
  pose proof (part_keys_good s Hapart p st Hst) as HK. pose proof (keys_of_part _ _ _ Hst) as HKp.
  destruct (holds_lookup _ _ _ _ _ Hh HKp) as (q & Hq & Hr).
  destruct (Forall2_lookup_r _ _ _ _ _ Hsame Hq) as (q0 & Hq0 & Ho0).
  assert (q_wf q) as Hqwf by (by eapply Forall_lookup_1).
  destruct (each_extend_ok Hrel st HK jobs db q Hqwf Hr)
    as (db' & q' & E & Hr' & Hf & _ & Hwf' & Ho & _).
  exists db', (<[Z.to_nat p := q']> qs), q0. split_and!.
  - rewrite (ExtendBatch_each st db q jobs Hrel HK Hqwf Hr), E. f_equal.
    apply list_fmap_ext. intros i j _. unfold renewal. by rewrite Ho0.
  - done.
  - by eapply holds_update.
  - by apply Forall_insert.
  - rewrite <- (list_insert_id qs0 _ _ Hq0). apply Forall2_insert; [done|].
    intros l. by rewrite Ho, Ho0.
Qed.

Lemma perPartition_Extend go_order s qs jobs db :
  (forall l, go_order l ≡ₚ l) -> keys_apart (keys_of s) ->
  holds (keys_of s) (view db) qs -> Forall q_wf qs ->
  exists db' qs', perPartition go_order s jobs ExtendBatch db = (db', answer s qs <$> jobs) /\
    holds (keys_of s) (view db') qs' /\ Forall2 same_owners qs qs'.
Proof.
  intros Hperm Hapart Hh Hwf.
  destruct (perPartition_spec go_order Hperm s jobs ExtendBatch
    (fun db => exists qs', holds (keys_of s) (view db) qs' /\ Forall q_wf qs' /\ Forall2 same_owners qs qs')
    (fun p res => exists q, qs !! Z.to_nat p = Some q /\ res = renewal q <$> batch_of s jobs p)
    length_ExtendBatch) with (db := db)
    as (db' & errs & E & (qs' & Hh' & _ & Hsame) & Hlen & Hunk & Hres).
  { intros p st db0 Hst (qs1 & Hh1 & Hwf1 & Hs1).
    destruct (ExtendBatch_part s qs qs1 p st (batch_of s jobs p) db0)
      as (db1 & qs2 & q & E & Hq & Hh2 & Hwf2 & Hs2); [done..|]. rewrite E. simpl. eauto 10. }
  { exists qs. split_and!; [done | done|]. by apply Forall_Forall2_diag, Forall_true. }
  exists db', qs'. split_and!; [|done | done]. rewrite E. f_equal.
  apply list_eq. intros i. rewrite list_lookup_fmap.
  destruct (jobs !! i) as [job|] eqn:Hjob; simpl.
  2: { apply lookup_ge_None_2. rewrite Hlen. by apply lookup_ge_None_1. }
  unfold answer. destruct (partOf s job) as [st|e] eqn:Ep; [|by eapply Hunk].
  set (p := Partition (JLease job)). assert (i ∈ idx_of s jobs p) as Hi.
  { apply elem_of_idx. unfold known_part. by rewrite Hjob, Ep. }
  destruct (Hres p) as (res & (q & Hq & ->) & Hpos); [eauto|]. rewrite Hq.
  apply list_elem_of_lookup_1 in Hi as [k Hk]. rewrite (Hpos k i Hk), list_lookup_fmap.
  destruct (batch_of_lookup s jobs p k i Hk) as (job' & Hj & ->). simpl. congruence.
Qed.

Lemma answer_lost s qs j j' e :
  JLease j = JLease j' -> answer s qs j' = Some e -> errors_Is e ErrLeaseLost = true ->
  answer s qs j = Some ErrLeaseLost.
Proof.
  unfold answer, partOf, renewal. intros -> He Hlost.
  destruct ((Partition (JLease j') <? 0) || _); [by simplify_eq|].
  destruct (part_at s _); [|by simplify_eq].
  destruct (qs !! _) as [q|]; [|done]. simpl in *. by destruct (lease_owns q _).
Qed.

(** The heartbeat keeps the buffer honest: [ExtendBatch] renews the leases
    of the given jobs and of the jobs the long polls buffered, in every
    partition; it reports for each given job whether its lease is still held,
    and drops from the buffer exactly the jobs whose lease is lost, so that no
    worker is handed a job that another one has taken over. No lease changes
    hands. *)
Theorem sharded_ExtendBatch_exact go_order s qs jobs db :
  (forall l, go_order l ≡ₚ l) -> keys_apart (keys_of s) ->
  holds (keys_of s) (view db) qs -> Forall q_wf qs ->
  exists db' qs', sharded_ExtendBatch go_order s jobs db =
      (db', (set_buffered s (filter (fun j => answer s qs j <> Some ErrLeaseLost) (sh_buffered s)),
             answer s qs <$> jobs)) /\
    holds (keys_of s) (view db') qs' /\ Forall2 same_owners qs qs'.
Proof.
  intros Hperm Hapart Hh Hwf.
  destruct (perPartition_Extend go_order s qs (jobs ++ sh_buffered s) db) as (db' & qs' & E & Hh' & Hs);
    [done..|].
  exists db', qs'. split_and!; [|done | done]. unfold sharded_ExtendBatch. rewrite E, fmap_app.
  rewrite take_app_length', drop_app_length' by (by rewrite length_fmap).
  do 3 f_equal. rewrite zip_fmap_self. apply filter_ext_elem.
  intros j Hj. rewrite list_elem_of_omap. split.
  - intros Hnin Hlost. apply Hnin. exists (j, Some ErrLeaseLost). split; [|done].
    apply list_elem_of_fmap. exists j. by rewrite Hlost.
  - intros Hne (je & (j' & -> & Hj')%list_elem_of_fmap & Hl). simpl in Hl.
    destruct (answer s qs j') as [e|] eqn:Ea; [|done].
    destruct (errors_Is e ErrLeaseLost) eqn:Ee; [|done]. injection Hl as Hl.
    apply Hne. by eapply answer_lost.
Qed.
End heartbeat.
