(* ===== verification/ShardedDemo.v ===== *)
(** * A sharded queue for the witnesses

    Two partitions: the first holds the jobs of [demo_q], the second is new. *)

From S2P Require Import Prelude GoNum GoTime Errors Job GoJson Redis RefRedis Scripts QueueSpec.
From S2P Require Import QueueRep ScriptsOk QueueSteps Store JobCodec StoreOk EnqueueOk ClaimOk.
From S2P Require Import Demo ClaimProps EnqueueProps Sharded ShardedOk ShardedProps.
From S2P Require Import ShardedBatch.
From Stdlib Require Import Ascii String.
From stdpp Require Import strings.

Open Scope Z_scope.

Definition demo_sconfig : ShardedConfig := mkShardedConfig 2 "" 0 0.
Definition demo_parts : list Store := part_store (sharded_defaults demo_sconfig) <$> [0; 1].
Definition demo_sharded : Sharded := mkSharded demo_parts 0 0 [].
Definition demo_buffering : Sharded := mkSharded demo_parts 0 0 [demo_job; demo_job2].

Definition demo_K0 : qkeys := K_of (part_store (sharded_defaults demo_sconfig) 0).

(** Partition 0 has its jobs before the sharded queue is opened. *)
Definition demo_before : rview := rep_view demo_K0 demo_q.
Definition demo_sqs : list qstate := [demo_q; q_empty 60000].
Definition demo_sdb : rview := (new_parts (sharded_defaults demo_sconfig) [0; 1] demo_before).1.

Lemma rep_view_other K q k : ~ in_keys K k -> rv_keys (rep_view K q) !! k = None.
Proof.
  intros Hk. unfold rep_view, put_stream, put_zset, put_hash.
  rewrite !lookup_put_key_ne by (intros <-; apply Hk; auto with dtq). simpl.
  destruct (kmap _ _ !! k) as [x|] eqn:E; [|done]. apply lookup_kmap_Some in E as (key & -> & _); [|apply _].
  destruct Hk. auto with dtq.
Qed.

Lemma demo_opens :
  Forall2 (fun p q => opens (K_of (part_store (sharded_defaults demo_sconfig) p)) demo_before q)
    [0; 1] demo_sqs.
Proof.
  constructor; [|constructor; [|constructor]].
  - left. apply rep_view_ok, part_keys_ok.
  - right. split; [done|]. intros k Hk. apply rep_view_other. intros Hk0.
    by apply (part_keys_disjoint (sharded_defaults demo_sconfig) 0 1 k).
Qed.

Lemma demo_sholds : holds (keys_of demo_sharded) demo_sdb demo_sqs.
Proof.
  destruct (new_parts_opens (R:=ref_redis) ref_client_reliable (sharded_defaults demo_sconfig) [0; 1]
    demo_sqs demo_before) as (db' & E & Hh & _);
    [repeat constructor; set_solver | apply demo_opens|].
  unfold demo_sdb. rewrite E. exact Hh.
Qed.

Lemma demo_apart : keys_apart (keys_of demo_sharded).
Proof. apply part_stores_apart. repeat constructor; set_solver. Qed.

Lemma demo_sinv : Forall (q_inv (R:=ref_redis)) demo_sqs.
Proof.
  constructor; [apply demo_inv|]. constructor; [|constructor]. split; [apply q_wf_empty|].
  intros jid json. simpl. by rewrite lookup_empty.
Qed.

Lemma demo_ready : has_ready (R:=ref_redis) "w2" 4 demo_q.
Proof.
  exists ((6%N, 0%N), demo_fields demo_job2). split; [by left|]. unfold parsed. simpl.
  rewrite (flatToMap_perm (jobFields demo_job2)), parseJob_jobFields; [eauto | | done].
  split; [discriminate | by split | by split | vm_compute; split; congruence..].
Qed.

(** ** Witnesses *)

Definition demo_st0 : Store := part_store (sharded_defaults demo_sconfig) 0.

Lemma sharded_settles_own_partition_witness :
  let settles (m : SE rview error unit) eff := exists db' r q',
    m demo_sdb = (db', r) /\ holds (keys_of demo_sharded) db' (<[0%nat := q']> demo_sqs) /\
    fenced_outcome (lease_owns demo_q demo_lease) demo_q eff r q' in
  settles (sharded_Ack (R:=ref_redis) demo_sharded demo_job) (fun q' => q' = q_settle (5%N, 0%N) demo_q) /\
  settles (sharded_Retry (R:=ref_redis) demo_sharded demo_job demo_time)
    (fun q' => q' = q_settle (5%N, 0%N)
      (q_schedule "a1" (UnixMilli demo_time) (retry_json demo_job) demo_q)) /\
  settles (sharded_DeadLetter (R:=ref_redis) demo_sharded demo_job "boom" demo_time)
    (fun q' => exists did, q' = q_settle (5%N, 0%N)
      (q_bury did (range_map (dead_fields demo_job "boom" demo_time)) demo_q)).
Proof.
  apply (sharded_settles_own_partition (R:=ref_redis) demo_sharded demo_apart demo_sqs demo_job demo_st0
    demo_q demo_time "boom" demo_time demo_sdb); [apply demo_sholds | reflexivity | reflexivity].
Defined.

(** The key of [demo_keyed] hashes to partition 1. *)
Definition demo_st1 : Store := part_store (sharded_defaults demo_sconfig) 1.

Lemma sharded_idempotency_witness :
  exists db1 q1, sharded_Enqueue (R:=ref_redis) demo_sharded [] demo_time demo_keyed demo_sdb =
      (db1, (demo_sharded, Ok "b2")) /\
    holds (keys_of demo_sharded) db1 (<[1%nat := q1]> demo_sqs) /\
    forall s2 qs2 q2 db2 tr rand2 now2 job2, let j2 := with_ID rand2 job2 in
      sh_parts s2 = demo_parts -> after_epoch now2 -> job_utf8 j2 ->
      IdempotencyKey j2 = "order-7" ->
      holds (keys_of demo_sharded) db2 qs2 -> qs2 !! 1%nat = Some q2 ->
      qsteps (R:=ref_redis) tr q1 q2 -> q_now q2 < 60000 + window_ms demo_st1 ->
      exists db3 r, sharded_Enqueue (R:=ref_redis) s2 rand2 now2 job2 db2 = (db3, (s2, r)) /\
        holds (keys_of demo_sharded) db3 qs2 /\
        match r with Ok out => out = "b2" | Err e => net_error e end.
Proof.
  apply (sharded_idempotency (R:=ref_redis) demo_sharded demo_apart [] demo_time demo_keyed demo_sqs demo_sdb
    demo_st1 (q_empty 60000)); [apply ref_client_reliable | discriminate | by split_and! | discriminate
    | apply demo_sholds | reflexivity | reflexivity | reflexivity | reflexivity].
Defined.

Lemma sharded_Claim_leases_witness :
  exists db' s' out qs' taken new,
    sharded_Claim_ready (R:=ref_redis) demo_sharded "w2" 4 0 demo_time demo_sdb = (db', (s', out)) /\
    holds (keys_of demo_sharded) db' qs' /\ Forall2 (reaches (R:=ref_redis)) demo_sqs qs' /\
    sh_parts s' = demo_parts /\ [] = taken ++ sh_buffered s' /\
    Forall (leased_in (R:=ref_redis) qs' "w2") new /\
    Forall (fun j => exists st, partOf demo_sharded j = Ok st) new /\ NoDup (slot <$> new) /\
    match out with
    | Some (jobs, _) => jobs = taken ++ new /\ Z.of_nat (length jobs) <= 4
    | None => taken = [] /\ new = [] /\ 0 < 0
    end.
Proof.
  apply (sharded_Claim_leases (R:=ref_redis) demo_sharded demo_apart demo_sqs "w2" 4 0 demo_time demo_sdb);
    [reflexivity | split; vm_compute; congruence | reflexivity | apply demo_sinv | apply demo_sholds].
Defined.

Lemma sharded_Claim_finds_witness :
  exists db' s' j js, sharded_Claim_ready (R:=ref_redis) demo_sharded "w2" 4 0 demo_time demo_sdb =
    (db', (s', Some (j :: js, None))).
Proof.
  apply (sharded_Claim_finds (R:=ref_redis) demo_sharded demo_apart demo_sqs "w2" 4 0 demo_time demo_sdb 0%nat
    demo_q); [apply ref_client_reliable | reflexivity | split; vm_compute; congruence | reflexivity
    | apply demo_sinv | apply demo_sholds | reflexivity | apply demo_ready].
Defined.

Lemma perPartition_positions_witness :
  exists db' errs, perPartition (R:=ref_redis) (@rev Z) demo_sharded [demo_job; demo_job2] ExtendBatch demo_sdb =
      (db', errs) /\ length errs = 2%nat /\
    forall i job, [demo_job; demo_job2] !! i = Some job ->
      match partOf demo_sharded job with
      | Err e => errs !! i = Some (Some e)
      | Ok st => exists db1 k,
          let batch := batch_of demo_sharded [demo_job; demo_job2] (Partition (JLease job)) in
          batch !! k = Some job /\ errs !! i = (ExtendBatch (R:=ref_redis) st batch db1).2 !! k
      end.
Proof.
  apply (perPartition_positions (R:=ref_redis) (@rev Z) demo_sharded [demo_job; demo_job2] ExtendBatch demo_sdb).
  - intros l. symmetry. apply Permutation_rev.
  - intros. apply length_ExtendBatch.
Defined.

Lemma sharded_ExtendBatch_exact_witness :
  exists db' qs', sharded_ExtendBatch (R:=ref_redis) (@rev Z) demo_buffering [demo_job] demo_sdb =
      (db', (set_buffered demo_buffering
               (filter (fun j => answer demo_buffering demo_sqs j <> Some ErrLeaseLost) [demo_job; demo_job2]),
             answer demo_buffering demo_sqs <$> [demo_job])) /\
    holds (keys_of demo_buffering) db' qs' /\ Forall2 same_owners demo_sqs qs'.
Proof.
  apply (sharded_ExtendBatch_exact (R:=ref_redis) ref_client_reliable (@rev Z) demo_buffering demo_sqs
    [demo_job] demo_sdb).
  - intros l. symmetry. apply Permutation_rev.
  - apply demo_apart.
  - apply demo_sholds.
  - eapply Forall_impl; [apply demo_sinv|]. by intros q [? _].
Defined.

(** The first buffered job is still leased, the second is not and is dropped. *)
Example demo_buffer_after :
  filter (fun j => answer demo_buffering demo_sqs j <> Some ErrLeaseLost) [demo_job; demo_job2] = [demo_job].
Proof. reflexivity. Qed.
