(* ===== verification/ShardedBackend.v ===== *)
(** * The sharded store as a backend

    Recovery across partitions, and the sharded store behind the [Backend]
    interface, so that what is shown of the worker against the interface holds
    for a worker on a sharded queue. *)

From S2P Require Import Prelude GoNum GoTime Errors Job GoJson Redis RefRedis Scripts QueueSpec.
From S2P Require Import QueueRep ScriptsOk QueueSteps Store JobCodec StoreOk EnqueueOk ClaimOk.
From S2P Require Import Demo Backend StoreBackend Worker WorkerProps Sharded ShardedOk ShardedProps.
From S2P Require Import ShardedBatch ShardedDemo.
From Stdlib Require Import Ascii.
From stdpp Require Import strings.

Open Scope Z_scope.

(** ** Recovery across partitions *)

Section recover.
Context {R : Redis} {L : RedisLaws R} {C : Client R} {CL : ClientLaws C}.

(** The same partitions, up to what a store remembers of its last sweep. *)
Definition same_parts (s s' : Sharded) : Prop :=
  keys_of s' = keys_of s /\ length (sh_parts s') = length (sh_parts s).

Lemma same_parts_trans s1 s2 s3 : same_parts s1 s2 -> same_parts s2 s3 -> same_parts s1 s3.
Proof. unfold same_parts. intros [H1 H2] [H3 H4]. split; congruence. Qed.

Lemma same_parts_set s p st st' :
  part_at s p = Some st -> K_of st' = K_of st -> same_parts s (set_part s p st').
Proof.
  intros [_ Hp]%part_at_Some HK. unfold same_parts, keys_of, set_part. simpl. split.
  - rewrite list_fmap_insert, HK. apply list_insert_id. by rewrite list_lookup_fmap, Hp.
  - by rewrite length_insert.
Qed.

Lemma visited_same s s' start n i : same_parts s s' -> visited s' start n i = visited s start n i.
Proof. intros [_ Hl]. unfold visited, sweep_part, nparts. by rewrite Hl. Qed.

Lemma recover_sweep_ok start w vt limit now n : forall i s jobs qs db,
  keys_apart (keys_of s) ->
  NoDup (visited s start n i) -> (forall p, p ∈ visited s start n i -> 0 <= p < nparts s) ->
  Forall q_inv qs -> Z.of_nat (length jobs) <= limit -> holds (keys_of s) (view db) qs ->
  exists db' s' out err qs' new,
    recover_sweep n i start s vt w limit now jobs db = (db', (s', (out, err))) /\
    same_parts s s' /\ sh_buffered s' = sh_buffered s /\
    holds (keys_of s) (view db') qs' /\ out = jobs ++ new /\
    swept (visited s start n i) w qs qs' new /\ Z.of_nat (length out) <= limit.
Proof.
  induction n as [|n IH]; intros i s jobs qs db Hapart Hnd Hin Hinv Hlen Hh; cbn [recover_sweep].
  { exists db, s, jobs, None, qs, []. split_and!; try done; [by rewrite app_nil_r | apply swept_nil]. }
  destruct (Z.leb_spec limit (Z.of_nat (length jobs))) as [Hge|Hlt].
  { exists db, s, jobs, None, qs, []. split_and!; try done; [by rewrite app_nil_r | apply swept_nil]. }
  rewrite visited_S in *. set (p := sweep_part s start i) in *.
  apply NoDup_cons in Hnd as [Hnin Hnd].
  assert (0 <= p < nparts s) as Hp by (apply Hin; by left).
  destruct (part_at_range s p Hp) as [st Hst]. rewrite Hst.
  pose proof (part_keys_good s Hapart p st Hst) as HK. pose proof (keys_of_part _ _ _ Hst) as HKp.
  destruct (holds_lookup _ _ _ _ _ Hh HKp) as (q & Hq & Hr).
  destruct (RecoverExpired_ok st HK q db vt w (limit - Z.of_nat (length jobs)) now now)
    as (db1 & st' & r & q' & E & Hr' & Hf & Hreach & Hc & Hd & Hpost);
    [lia | by eapply Forall_lookup_1 | done|].
  pose proof (K_of_same st' st Hc Hd) as HKs. rewrite E.
  assert (holds (keys_of s) (view db1) (<[Z.to_nat p := q']> qs)) as Hh1 by by eapply holds_update.
  assert (same_parts s (set_part s p st')) as Hsame by by eapply same_parts_set.
  destruct r as [got|e].
  - destruct Hpost as [Hgot _].
    assert (swept [p] w qs (<[Z.to_nat p := q']> qs) (tag got p)) as Hsw.
    { eapply swept_one; [lia | by left | done..]. }
    assert (Z.of_nat (length (jobs ++ tag got p)) <= limit) as Hlen1.
    { destruct Hgot as (_ & _ & Hl). unfold tag. rewrite length_app, length_fmap. lia. }
    pose proof (visited_same s _ start n (i + 1) Hsame) as Hvis. destruct Hsame as [Hks Hln].
    destruct (IH (i + 1) (set_part s p st') (jobs ++ tag got p) (<[Z.to_nat p := q']> qs) db1)
      as (db2 & s2 & out & err & qs2 & new & E2 & Hs2 & Hb2 & Hh2 & Hout & Hsw2 & Hl2);
      rewrite ?Hks, ?Hvis; try done.
    { intros p' Hp'. unfold nparts. rewrite Hln. apply Hin. by right. }
    { eapply Forall_inv_reaches; [done|]. by eapply Forall2_reaches_insert. }
    exists db2, s2, out, err, qs2, (tag got p ++ new). rewrite Hks, Hvis in *.
    split_and!; try done; [by eapply same_parts_trans | by rewrite app_assoc |].
    eapply swept_app; [done | lia | done | done].
  - eexists db1, _, jobs, _, (<[Z.to_nat p := q']> qs), [].
    split; [reflexivity|]. split_and!; try done; [by rewrite app_nil_r|].
    eapply (swept_one _ p w 0 _ _ _ []); [lia | by left | done | done |].
    split_and!; [constructor | constructor | done].
Qed.

(** A recovery across partitions returns at most [limit] jobs, no delivery
    twice, each leased to the caller in the partition its lease names, also when
    a partition fails half way. *)
Theorem sharded_RecoverExpired_leases s vt w limit now qs db :
  keys_apart (keys_of s) -> holds (keys_of s) (view db) qs -> Forall q_inv qs ->
  0 < nparts s -> 0 <= sh_claimNext s -> sh_claimNext s + nparts s <= max_int64 -> 0 <= limit ->
  exists db' s' out err qs',
    sharded_RecoverExpired s vt w limit now db = (db', (s', (out, err))) /\ same_parts s s' /\
    sh_buffered s' = sh_buffered s /\ holds (keys_of s) (view db') qs' /\ Forall2 reaches qs qs' /\
    Forall (leased_in qs' w) out /\ NoDup (slot <$> out) /\ Z.of_nat (length out) <= limit.
Proof.
  intros Hapart Hh Hinv Hn H0 Hmax Hlim. unfold sharded_RecoverExpired.
  rewrite wrap64_id by (unfold int64_ok, min_int64, max_int64 in *; lia).
  destruct (visited_all s (sh_claimNext s) H0 Hmax Hn) as [Hnd Hall].
  destruct (recover_sweep_ok (sh_claimNext s) w vt limit now (length (sh_parts s)) 0 s [] qs db)
    as (db' & s' & out & err & qs' & new & E & Hs & Hb & Hh' & -> & Hsw & Hl); try done.
  { intros p Hp. by apply Hall. }
  exists db', s', new, err, qs'. destruct Hsw. split_and!; done.
Qed.
End recover.

(** ** The backend *)

(** What the operations read from the machine they run on; [sh_wait] is what the
    long polls and other clients do while a call waits for jobs ([LongPoll] has
    the steps), [sh_order] the order in which parallel calls get to run. *)
Class ShEnv (R : Redis) := {
  sh_clock : rdb -> Z;
  sh_entropy : rdb -> nat -> list (list ascii);
  sh_between : rdb -> rdb;
  sh_wait : Z -> Sharded * rdb -> Sharded * rdb;
  sh_order : list Z -> list Z;
}.

Section backend.
Context {R : Redis} {C : Client R} {E : ShEnv R}.

(** [Claim], the wait for the long polls included. *)
Definition sharded_Claim (s : Sharded) (who : string) (limit wait : Z) (db : rdb) :
    (Sharded * rdb) * (list Job * option error) :=
  let '(db', (s', r)) := sharded_Claim_ready s who limit wait (sh_clock db) db in
  match r with
  | Some out => ((s', db'), out)
  | None =>
      let '(s2, db2) := sh_wait wait (s', db') in
      let '(s3, jobs) := takeBuffered s2 limit in
      ((s3, db2), (jobs, None))
  end.

Definition on_sharded {A} (s : Sharded) (x : rdb * A) : (Sharded * rdb) * A := ((s, x.1), x.2).

#[export] Instance sharded_backend : Backend (Sharded * rdb) := {|
  be_Enqueue job w :=
    let '(s, db) := w in
    let '(db', (s', r)) := sharded_Enqueue s (default [] (head (sh_entropy db 1))) (sh_clock db) job db in
    ((s', db'), match r with Ok id => (id, None) | Err e => ("", Some e) end);
  be_Claim who limit wait w := sharded_Claim w.1 who limit wait w.2;
  be_RecoverExpired timeout who limit w :=
    let '(s, db) := w in
    let '(db', (s', out)) := sharded_RecoverExpired s timeout who limit (sh_clock db) db in
    ((s', db'), out);
  be_Extend job w := on_sharded w.1 (of_unit (sharded_Extend w.1 job w.2));
  be_Ack job w := on_sharded w.1 (of_unit (sharded_Ack w.1 job w.2));
  be_Retry job nextRunAt w := on_sharded w.1 (of_unit (sharded_Retry w.1 job nextRunAt w.2));
  be_DeadLetter job reason w :=
    on_sharded w.1 (of_unit (sharded_DeadLetter w.1 job reason (sh_clock w.2) w.2));
  be_Stats w := on_sharded w.1 (sharded_Stats w.1 sh_between w.2);
  be_EnqueueBatch := Some (fun jobs w =>
    let '(s, db) := w in
    let '(db', (s', out)) :=
      sharded_EnqueueBatch sh_order s (sh_entropy db (length jobs)) (sh_clock db) jobs db in
    ((s', db'), out));
  be_AckBatch := Some (fun jobs w => on_sharded w.1 (sharded_AckBatch sh_order w.1 jobs w.2));
  be_ExtendBatch := Some (fun jobs w =>
    let '(db', (s', errs)) := sharded_ExtendBatch sh_order w.1 jobs w.2 in ((s', db'), errs));
  be_Deregister := Some (fun who w => on_sharded w.1 (of_unit (sharded_Deregister w.1 who w.2)));
|}.

(** The world holds the queues of [s0]'s partitions. *)
Definition sharded_ok (s0 : Sharded) (w : Sharded * rdb) : Prop :=
  same_parts s0 w.1 /\ exists qs, holds (keys_of s0) (view w.2) qs /\ Forall q_inv qs.
End backend.

(** What happens while a call waits leaves the queues well formed. *)
Class ShEnvLaws {R : Redis} {C : Client R} (E : ShEnv R) (s0 : Sharded) : Prop := {
  wait_law wait w : sharded_ok s0 w -> sharded_ok s0 (sh_wait wait w);
}.

Section limits.
Context {R : Redis} {L : RedisLaws R} {C : Client R} {CL : ClientLaws C} {E : ShEnv R}.
Context (s0 : Sharded) (Hapart : keys_apart (keys_of s0)) {EL : ShEnvLaws E s0}.

Lemma takeBuffered_limit s limit :
  0 <= limit -> Z.of_nat (length (takeBuffered s limit).2) <= limit /\
  sh_parts (takeBuffered s limit).1 = sh_parts s.
Proof. intros H. unfold takeBuffered. cbn. rewrite length_take. split; [lia | done]. Qed.

(** Wherever a sweep starts, it keeps the queues and the limit. *)
Lemma sweep_keeps start w limit now n : forall i s jobs qs db,
  keys_apart (keys_of s) -> Forall q_inv qs -> Z.of_nat (length jobs) <= limit ->
  holds (keys_of s) (view db) qs ->
  exists db' out qs', sweep n i start s w limit now jobs db = (db', out) /\
    holds (keys_of s) (view db') qs' /\ Forall q_inv qs' /\ Z.of_nat (length out.1) <= limit.
Proof.
  induction n as [|n IH]; intros i s jobs qs db Ha Hinv Hlen Hh; cbn [sweep]; [by eauto 10|].
  destruct (Z.leb_spec limit (Z.of_nat (length jobs))) as [Hge|Hlt]; [by eauto 10|].
  destruct (part_at s (sweep_part s start i)) as [st0|] eqn:Hst; [|by eauto 10].
  pose proof (proj1 (part_at_Some _ _ _) Hst) as [Hp _].
  destruct (claim_part s Ha (sweep_part s start i) w (limit - Z.of_nat (length jobs)) now qs db)
    as (st & q & db1 & r & q' & Hst' & Hq & _ & _ & _ & Ec & Hh1 & Hinv1 & Hr & Hpost); [done | lia | done | done|].
  assert (st0 = st) as -> by congruence. rewrite Ec. destruct r as [got|e]; [|by eauto 10].
  apply (IH (i + 1) s _ _ _ Ha Hinv1); [|done].
  destruct Hpost as (_ & _ & Hl). unfold tag. rewrite length_app, length_fmap. lia.
Qed.

Lemma recover_keeps start w vt limit now n : forall i s jobs qs db,
  keys_apart (keys_of s) -> Forall q_inv qs -> Z.of_nat (length jobs) <= limit ->
  holds (keys_of s) (view db) qs ->
  exists db' s' out qs', recover_sweep n i start s vt w limit now jobs db = (db', (s', out)) /\
    same_parts s s' /\ holds (keys_of s) (view db') qs' /\ Forall q_inv qs' /\
    Z.of_nat (length out.1) <= limit.
Proof.
  induction n as [|n IH]; intros i s jobs qs db Ha Hinv Hlen Hh; cbn [recover_sweep].
  { exists db, s, (jobs, None), qs. by split_and!. }
  destruct (Z.leb_spec limit (Z.of_nat (length jobs))) as [Hge|Hlt].
  { exists db, s, (jobs, None), qs. by split_and!. }
  destruct (part_at s (sweep_part s start i)) as [st|] eqn:Hst;
    [|eexists db, s, _, qs; split; [reflexivity|]; by split_and!].
  set (p := sweep_part s start i) in *.
  pose proof (part_keys_good s Ha p st Hst) as HK. pose proof (keys_of_part _ _ _ Hst) as HKp.
  destruct (holds_lookup _ _ _ _ _ Hh HKp) as (q & Hq & Hr).
  destruct (RecoverExpired_ok st HK q db vt w (limit - Z.of_nat (length jobs)) now now)
    as (db1 & st' & r & q' & Er & Hr' & Hf & Hreach & Hc & Hd & Hpost);
    [lia | by eapply Forall_lookup_1 | done|].
  rewrite Er.
  assert (holds (keys_of s) (view db1) (<[Z.to_nat p := q']> qs)) as Hh1 by by eapply holds_update.
  assert (same_parts s (set_part s p st')) as Hsame
    by (eapply same_parts_set; [done | by apply K_of_same]).
  assert (Forall q_inv (<[Z.to_nat p := q']> qs)) as Hinv1
    by (eapply Forall_inv_reaches; [done|]; by eapply Forall2_reaches_insert).
  destruct r as [got|e]; [|eexists db1, _, _, _; split; [reflexivity|]; by split_and!].
  destruct (IH (i + 1) (set_part s p st') (jobs ++ tag got p) _ db1 ltac:(by rewrite (proj1 Hsame)) Hinv1)
    as (db2 & s2 & out & qs2 & E2 & Hs2 & Hh2 & Hinv2 & Hl2).
  { destruct Hpost as [(_ & _ & Hl) _]. unfold tag. rewrite length_app, length_fmap. lia. }
  { by rewrite (proj1 Hsame). }
  exists db2, s2, out, qs2. rewrite (proj1 Hsame) in Hh2. split_and!; [done | | done | done | done].
  by eapply same_parts_trans.
Qed.

#[export] Instance sharded_backend_limits : BackendLimits sharded_backend (sharded_ok s0).
Proof.
  split.
  - intros who limit wait [s db] (Hsame & qs & Hh & Hinv) Hlim. cbn in *. unfold sharded_Claim, sharded_Claim_ready.
    destruct (takeBuffered s limit) as [s1 jobs] eqn:Et.
    pose proof (takeBuffered_limit s limit ltac:(lia)) as [Hl1 Hp1]. rewrite Et in Hl1, Hp1. cbn in Hl1, Hp1.
    set (s2 := mkSharded (sh_parts s1) _ _ _).
    assert (keys_of s2 = keys_of s0) as Hk2 by (unfold s2, keys_of; cbn; rewrite Hp1; apply Hsame).
    assert (same_parts s0 s2) as Hs2 by (split; [done | unfold s2; cbn; rewrite Hp1; apply Hsame]).
    destruct (sweep_keeps (wrap64 (wrapu64 (sh_claimNext s1 + 1))) who limit (sh_clock db)
      (length (sh_parts s2)) 0 s2 jobs qs db) as (db' & [jobs' err] & qs' & Es & Hh' & Hinv' & Hl');
      rewrite ?Hk2; try done.
    rewrite Es. rewrite Hk2 in Hh'.
    assert (sharded_ok s0 (s2, db')) as Hok by (split; [done | by exists qs']).
    destruct err as [e|]; [done|]. destruct ((0 <? length jobs')%nat || (wait <=? 0)); [done|].
    pose proof (wait_law (E:=E) wait _ Hok) as Hok2. destruct (sh_wait wait (s2, db')) as [s3 db3].
    destruct Hok2 as ([Hk3 Hn3] & qs3 & Hh3). cbn [fst snd] in *.
    pose proof (takeBuffered_limit s3 limit ltac:(lia)) as [Hl3 Hp3].
    destruct (takeBuffered s3 limit) as [s4 jobs4]. cbn [fst snd] in *. split; [|done].
    split; [|by exists qs3]. unfold same_parts, keys_of in *. cbn. by rewrite Hp3.
  - intros timeout who limit [s db] (Hsame & qs & Hh & Hinv) Hlim. cbn in *. unfold sharded_RecoverExpired.
    destruct (recover_keeps (wrap64 (sh_claimNext s)) who timeout limit (sh_clock db) (length (sh_parts s)) 0 s [] qs db)
      as (db' & s' & out & qs' & Es & Hs' & Hh' & Hinv' & Hl'); rewrite ?(proj1 Hsame); try done; [cbn; lia|].
    rewrite Es. cbn. split; [|done]. rewrite (proj1 Hsame) in Hh'. split; [|by exists qs'].
    by eapply same_parts_trans.
Qed.

(** A worker on a sharded queue, too, never has more jobs in flight than its
    concurrency. *)
Theorem sharded_worker_bound `{!WorkerEnv (Sharded * rdb)} cfg handlers outside w r0 r :
  (forall w w', background cfg handlers outside w w' -> sharded_ok s0 w -> sharded_ok s0 w') ->
  0 <= wc_Concurrency cfg -> sharded_ok s0 w -> r_start cfg w = Ok r0 ->
  rsteps cfg handlers outside r0 r ->
  Z.of_nat (length (r_running r)) <= wc_Concurrency cfg.
Proof.
  intros Hbg Hc Hok Hstart Hrun.
  destruct (rsteps_inv cfg (sharded_ok s0) handlers outside Hbg _ _ Hrun) as [_ Hlen].
  { unfold r_start in Hstart. case_bool_decide; simplify_eq. by split. }
  destruct (r_phase r); lia.
Qed.
End limits.

(** ** A worker on two partitions *)

#[export] Instance ref_sh_env : ShEnv ref_redis := {|
  sh_clock v := rv_now v * millisecond;
  sh_entropy _ n := replicate n (replicate 16 "a"%char);
  sh_between v := v;
  sh_wait _ w := w;
  sh_order l := l;
|}.

#[export] Instance ref_sh_env_laws s0 : ShEnvLaws ref_sh_env s0.
Proof. by split. Qed.

Lemma demo_sharded_ok : sharded_ok (R:=ref_redis) demo_sharded (demo_sharded, demo_sdb).
Proof. split; [done|]. exists demo_sqs. split; [apply demo_sholds | apply demo_sinv]. Qed.

(** Its claims keep to their limit. *)
Lemma sharded_claim_demo :
  Z.of_nat (length (be_Claim (Backend:=sharded_backend (R:=ref_redis)) "w1" 4 0 (demo_sharded, demo_sdb)).2.1) <= 4.
Proof.
  apply (claim_limit (BackendLimits:=sharded_backend_limits demo_sharded demo_apart)); [apply demo_sharded_ok | done].
Qed.
