(* ===== verification/Flags.v ===== *)
(** * Command lines

    Go's [flag] package as the tools use it: flags of each kind, parsed one after the
    other, and that a value printed for a child process is read back. *)

From S2P Require Import Prelude GoNum GoTime Errors Job Retry GoDuration GoFloat.
From Stdlib Require Import Ascii Decimal DecimalString QArith.
From stdpp Require Import strings.

Open Scope Z_scope.

(** ** Integers on the command line *)

Definition lower (c : ascii) : ascii :=
  let n := N_of_ascii c in if ((65 <=? n) && (n <=? 90))%N then ascii_of_N (n + 32) else c.

Definition digit_of (c : ascii) : option Z :=
  let n := N_of_ascii (lower c) in
  if ((48 <=? n) && (n <=? 57))%N then Some (Z.of_N n - 48)
  else if ((97 <=? n) && (n <=? 122))%N then Some (Z.of_N n - 87)
  else None.

(** [strconv.underscoreOK], on the text after the sign. *)
Fixpoint under_ok (hex : bool) (prev : ascii) (s : string) : bool :=
  match s with
  | "" => negb (bool_decide (prev = "_"%char))
  | String c r =>
      let isdig := match digit_of c with Some d => (d <? 10) || (hex && (d <? 16)) | None => false end in
      if isdig then under_ok hex "0" r
      else if bool_decide (c = "_"%char) then
        if bool_decide (prev = "0"%char) then under_ok hex "_" r else false
      else if bool_decide (prev = "_"%char) then false else under_ok hex "!" r
  end.

Definition base_of (c : ascii) : option Z :=
  if bool_decide (lower c = "b"%char) then Some 2
  else if bool_decide (lower c = "o"%char) then Some 8
  else if bool_decide (lower c = "x"%char) then Some 16
  else None.

Definition underscoreOK (s : string) : bool :=
  match s with
  | String "0" (String p r) =>
      match base_of p with
      | Some b => under_ok (b =? 16) "0" r
      | None => under_ok false "^" s
      end
  | _ => under_ok false "^" s
  end.

(** The digits of [ParseUint], with underscores skipped. *)
Fixpoint digits_in (base acc : Z) (s : string) : option Z :=
  match s with
  | "" => Some acc
  | String c r =>
      if bool_decide (c = "_"%char) then digits_in base acc r
      else match digit_of c with
           | Some d => if base <=? d then None else digits_in base (acc * base + d) r
           | None => None
           end
  end.

(** [strconv.ParseUint(s, 0, 64)]; the range is checked by the caller. *)
Definition ParseUint0 (s : string) : option Z :=
  let r :=
    match s with
    | "" => None
    | String "0" (String p (String c r)) =>
        match base_of p with
        | Some b => digits_in b 0 (String c r)
        | None => digits_in 8 0 (String p (String c r))
        end
    | String "0" r => digits_in 8 0 r
    | _ => digits_in 10 0 s
    end in
  if underscoreOK s then r else None.

(** [strconv.ParseInt(s, 0, 64)]. *)
Definition ParseInt0 (s : string) : option Z :=
  let '(neg, body) :=
    match s with
    | String "-" r => (true, r)
    | String "+" r => (false, r)
    | _ => (false, s)
    end in
  match ParseUint0 body with
  | Some n => let z := if neg : bool then - n else n in if decide (int64_ok z) then Some z else None
  | None => None
  end.

(** ** Flags *)

(** How [flag.FlagSet.parseOne] reads one argument that starts a flag: its name
    and, after [=], its value. *)
Fixpoint cut_eq (s : string) : string * option string :=
  match s with
  | "" => ("", None)
  | String c r =>
      if bool_decide (c = "="%char) then ("", Some r)
      else let '(n, v) := cut_eq r in (String c n, v)
  end.

Inductive flag_arg :=
  | FlagEnd                                       (* the first argument that is not a flag *)
  | FlagStop                                      (* "--" *)
  | FlagBad
  | FlagNamed (name : string) (value : option string).

Definition read_flag (s : string) : flag_arg :=
  match s with
  | String "-" (String "-" "") => FlagStop
  | String "-" (String "-" name) | String "-" name =>
      match name with
      | "" => FlagEnd
      | String c r =>
          if bool_decide (c = "-"%char) || bool_decide (c = "="%char) then FlagBad
          else let '(n, v) := cut_eq r in FlagNamed (String c n) v
      end
  | _ => FlagEnd
  end.

(** A flag of a tool whose options are an [S]: one that takes a value, or a boolean one,
    which needs none. *)
Inductive flag (S : Type) :=
  | Takes (set : string -> S -> option S)
  | Toggles (set : bool -> S -> S).
Arguments Takes {S}.
Arguments Toggles {S}.

(** [strconv.ParseBool]. *)
Definition ParseBool (s : string) : option bool :=
  if bool_decide (s ∈ ["1"; "t"; "T"; "true"; "TRUE"; "True"]) then Some true
  else if bool_decide (s ∈ ["0"; "f"; "F"; "false"; "FALSE"; "False"]) then Some false
  else None.

Definition FormatBool (b : bool) : string := if b then "true" else "false".

Definition toggle {S} (set : bool -> S -> S) (v : string) (s : S) : option S := (fun b => set b s) <$> ParseBool v.

(** [fs.Parse], setting each flag in turn: the options and the arguments left. *)
Fixpoint flag_Parse {S} (flags : string -> option (flag S)) (args : list string) (s : S) :
    result error (S * list string) :=
  match args with
  | [] => Ok (s, [])
  | a :: rest =>
      match read_flag a with
      | FlagEnd => Ok (s, args)
      | FlagStop => Ok (s, rest)
      | FlagBad => Err (ErrMsg ("bad flag syntax: " +:+ a))
      | FlagNamed name value =>
          let bad := ErrMsg ("invalid value for flag -" +:+ name) in
          match flags name with
          | None => Err (ErrMsg ("flag provided but not defined: -" +:+ name))
          | Some (Toggles set) =>
              match toggle set (default "true" value) s with
              | Some s' => flag_Parse flags rest s'
              | None => Err bad
              end
          | Some (Takes set) =>
              match value, rest with
              | Some v, _ => match set v s with Some s' => flag_Parse flags rest s' | None => Err bad end
              | None, v :: rest' => match set v s with Some s' => flag_Parse flags rest' s' | None => Err bad end
              | None, [] => Err (ErrMsg ("flag needs an argument: -" +:+ name))
              end
          end
      end
  end.

(** The flags of a part of the options. *)
Definition lift_flag {S T} (get : S -> T) (put : T -> S -> S) (f : flag T) : flag S :=
  match f with
  | Takes set => Takes (fun v s => (fun t => put t s) <$> set v (get s))
  | Toggles set => Toggles (fun b s => put (set b (get s)) s)
  end.

(** The kinds of values. *)
Definition StringFlag {S} (put : string -> S -> S) : flag S := Takes (fun v s => Some (put v s)).
Definition IntFlag {S} (put : Z -> S -> S) : flag S := Takes (fun v s => (fun n => put n s) <$> ParseInt0 v).
Definition DurationFlag {S} (put : Z -> S -> S) : flag S := Takes (fun v s => (fun d => put d s) <$> ParseDuration v).
Definition Float64Flag {S} (put : float64 -> S -> S) : flag S := Takes (fun v s => (fun x => put x s) <$> ParseFloat v).
Definition BoolFlag {S} (put : bool -> S -> S) : flag S := Toggles put.

(** ** Reading back *)

Lemma digits_in_acc d : forall acc,
  digits_in 10 (Zpos acc) (NilEmpty.string_of_uint d) = Some (Zpos (Pos.of_uint_acc d acc)).
Proof.
  induction d; intros acc; [done|..]; cbn [NilEmpty.string_of_uint Pos.of_uint_acc]; rewrite <- IHd;
    cbn -[Z.mul Z.add Pos.mul Pos.add]; f_equal;
    match goal with |- context [Z.of_N ?n] =>
      let v := eval vm_compute in (Z.of_N n) in change (Z.of_N n) with v
    end; lia.
Qed.

Lemma digits_in_uint d : digits_in 10 0 (NilEmpty.string_of_uint d) = Some (Z.of_uint d).
Proof.
  induction d; [done|exact IHd|..]; cbn [NilEmpty.string_of_uint]; cbn -[NilEmpty.string_of_uint digits_in];
    unfold Z.of_uint; cbn -[NilEmpty.string_of_uint digits_in]; rewrite <- digits_in_acc; reflexivity.
Qed.

Lemma under_ok_uint d : under_ok false "0" (NilEmpty.string_of_uint d) = true.
Proof. induction d; [done|exact IHd..]. Qed.

Lemma ParseUint0_pos p : ParseUint0 (NilZero.string_of_uint (Pos.to_uint p)) = Some (Zpos p).
Proof.
  pose proof (to_uint_head p) as H0. pose proof (to_uint_not_nil p) as Hn.
  assert (Z.of_uint (Pos.to_uint p) = Zpos p) as <- by
    (unfold Z.of_uint; by rewrite DecimalPos.Unsigned.of_to).
  rewrite <- digits_in_uint.
  destruct (Pos.to_uint p); [done|by edestruct H0|..]; unfold ParseUint0;
    match goal with |- (if ?b then _ else _) = _ =>
      replace b with true by (symmetry; exact (under_ok_uint u))
    end; reflexivity.
Qed.

Lemma ParseInt0_Itoa z : int64_ok z -> ParseInt0 (Itoa z) = Some z.
Proof.
  intros Hz. unfold ParseInt0, Itoa. destruct z as [|p|p]; [reflexivity|..].
  - pose proof (ParseUint0_pos p) as E. simpl Z.to_int. cbn [NilZero.string_of_int].
    pose proof (to_uint_not_nil p).
    destruct (Pos.to_uint p); [done|..]; cbn -[ParseUint0 decide] in E |- *;
      rewrite E; by rewrite decide_True.
  - simpl Z.to_int. cbn -[ParseUint0 decide NilZero.string_of_uint].
    rewrite ParseUint0_pos. by rewrite decide_True.
Qed.

Lemma flag_Parse_value {S} flags name f a v rest (s s' : S) :
  read_flag a = FlagNamed name None -> flags name = Some (Takes f) -> f v s = Some s' ->
  flag_Parse flags (a :: v :: rest) s = flag_Parse flags rest s'.
Proof. intros Ha Hf Hv. cbn [flag_Parse]. by rewrite Ha, Hf, Hv. Qed.

Lemma flag_Parse_bool {S} flags name f a v b rest (s : S) :
  read_flag a = FlagNamed name v -> flags name = Some (Toggles f) -> ParseBool (default "true" v) = Some b ->
  flag_Parse flags (a :: rest) s = flag_Parse flags rest (f b s).
Proof. intros Ha Hf Hv. cbn [flag_Parse]. unfold toggle. by rewrite Ha, Hf, Hv. Qed.

Lemma ParseBool_FormatBool b : ParseBool (FormatBool b) = Some b.
Proof. by destruct b. Qed.
