(* ===== verification/RedisUtil.v ===== *)
(** * Helpers of the command-line tools ([internal/redisutil], [redisstream.New])

    Which Redis a tool talks to and how its queue is laid out there: the flags,
    passing them to a child process, opening the queue under a key prefix, and
    deleting everything under the prefix. [SCAN] and [DEL] are parameters
    ([Scanner]). *)

From S2P Require Import Prelude GoNum GoTime Errors Job GoJson Redis Scripts QueueSpec QueueRep.
From S2P Require Import Store StoreOk Sharded Flags.
From Stdlib Require Import Ascii.
From stdpp Require Import strings.

Open Scope Z_scope.
Open Scope se_scope.

(** ** Targets *)

Record Target := mkTarget {
  tg_Addr : string;
  tg_Cluster : string;
  tg_Partitions : Z;
}.

(** The flags of a target and their defaults. *)
Definition target_defaults : Target := mkTarget "localhost:6379" "" 0.

Definition RegisterFlags (name : string) : option (flag Target) :=
  if bool_decide (name = "redis") then Some (StringFlag (fun v t => mkTarget v (tg_Cluster t) (tg_Partitions t)))
  else if bool_decide (name = "cluster") then Some (StringFlag (fun v t => mkTarget (tg_Addr t) v (tg_Partitions t)))
  else if bool_decide (name = "partitions") then Some (IntFlag (fun n t => mkTarget (tg_Addr t) (tg_Cluster t) n))
  else None.

Definition normalized (t : Target) : Target :=
  if negb (bool_decide (tg_Cluster t = "")) && (tg_Partitions t <=? 0)
  then mkTarget (tg_Addr t) (tg_Cluster t) 16 else t.

Definition Args (t : Target) : list string :=
  ["-redis"; tg_Addr t; "-cluster"; tg_Cluster t; "-partitions"; Itoa (tg_Partitions (normalized t))].

(** [strings.Split] by a comma. *)
Fixpoint split_comma (s : string) : list string :=
  match s with
  | "" => [""]
  | String c r =>
      if bool_decide (c = ","%char) then "" :: split_comma r
      else match split_comma r with
           | p :: ps => String c p :: ps
           | [] => [String c ""]
           end
  end.

Definition seeds (t : Target) : list string :=
  if bool_decide (tg_Cluster t = "") then [tg_Addr t] else split_comma (tg_Cluster t).

Definition target_String (t : Target) : string :=
  let t := normalized t in
  if negb (bool_decide (tg_Cluster t = "")) then
    "Redis Cluster at " +:+ tg_Cluster t +:+ ", " +:+ Itoa (tg_Partitions t) +:+ " partitions"
  else if 0 <? tg_Partitions t then
    "Redis at " +:+ tg_Addr t +:+ ", " +:+ Itoa (tg_Partitions t) +:+ " partitions"
  else "Redis at " +:+ tg_Addr t +:+ ", unsharded".

(** ** Opening the queue *)

(** [strings.TrimSuffix(s, ":")]. *)
Fixpoint trim_colon (s : string) : string :=
  match s with
  | "" => ""
  | String ":" "" => ""
  | String c r => String c (trim_colon r)
  end.

Inductive opened :=
  | OStore (st : Store)
  | OSharded (s : Sharded).

Section open.
Context {R : Redis} {C : Client R}.
Abbreviation M := (SE rdb error).

(** [redisstream.New]; the server at [Addr] is the one the calls go to. *)
Definition store_New (c : Config) : M Store :=
  NewWithClient (mkConfig (or_default (cfg_Addr c) "localhost:6379") (cfg_Stream c) (cfg_Group c)
    (cfg_RetryKey c) (cfg_DeadLetter c) (cfg_DedupePrefix c) (cfg_DedupeWindow c)
    (cfg_ConsumerIdleTimeout c)).

Definition open_config (t : Target) (prefix : string) (idle : Z) : Config :=
  mkConfig (tg_Addr t) (prefix +:+ "jobs") (prefix +:+ "workers") (prefix +:+ "retry") (prefix +:+ "dead")
    (prefix +:+ "dedupe:") 0 idle.

Definition open_sharded (t : Target) (prefix : string) (idle : Z) : ShardedConfig :=
  mkShardedConfig (tg_Partitions t) (trim_colon prefix) 0 idle.

Definition Open (t : Target) (prefix : string) (idle : Z) : M (opened * list Config) :=
  let t := normalized t in
  if tg_Partitions t =? 0 then
    let! store := store_New (open_config t prefix idle) in
    ret (OStore store, [st_config store])
  else
    let! s := NewSharded (open_sharded t prefix idle) in
    ret (OSharded s, st_config <$> sh_parts s).
End open.

(** The queues an opened backend uses. *)
Definition opened_keys (o : opened) : list qkeys :=
  match o with OStore st => [K_of st] | OSharded s => K_of <$> sh_parts s end.

(** ** Deleting a prefix *)

(** The two commands of [DeletePrefix], of a node of Redis: a page of a [SCAN]
    with a pattern, and [DEL] of one key. *)
Class Scanner (R : Redis) := {
  SCAN : N -> string -> Z -> SE rdb error (N * list string);
  DEL : string -> SE rdb error unit;
}.

Section delete.
Context {R : Redis} {Sc : Scanner R} {C : Client R}.
Abbreviation M := (SE rdb error).

Fixpoint del_keys (ks : list string) : M unit :=
  match ks with
  | [] => ret tt
  | k :: ks' => do! call (DEL k) in del_keys ks'
  end.

(** The iterator fetches a page when it has handed out the last one and stops
    at cursor 0. *)
Fixpoint scan_delete (fuel : nat) (cursor : N) (pattern : string) : M unit :=
  match fuel with
  | O => throw (ErrMsg "out of fuel")
  | S fuel' =>
      let! page := call (SCAN cursor pattern 1000) in
      do! del_keys page.2 in
      if (page.1 =? 0)%N then ret tt else scan_delete fuel' page.1 pattern
  end.

(** On one Redis, or on every primary of a cluster: each runs [fn] on its own
    keyspace, at the same time; an error of one is the error of the whole. *)
Fixpoint forEachNode (fn : M unit) (nodes : list rdb) : list rdb * result error unit :=
  match nodes with
  | [] => ([], Ok tt)
  | n :: ns =>
      let '(n', r) := fn n in
      let '(ns', rs) := forEachNode fn ns in
      (n' :: ns', match r with Ok _ => rs | Err e => Err e end)
  end.

Definition DeletePrefix (fuel : nat) (prefix : string) : list rdb -> list rdb * result error unit :=
  forEachNode (scan_delete fuel 0 (prefix +:+ "*")).
End delete.
