(* ===== verification/StoreClient.v ===== *)
(** * The store's client and its warnings ([redisstream/store.go])

    Who closes a client: [New] makes one of its own, [NewWithClient] uses the caller's.
    And [warnStuckBlock], which any number of goroutines call at once and which logs at
    most once a minute. *)

From S2P Require Import Prelude GoNum GoTime Errors Job GoJson Redis Scripts Store Flags RedisUtil.
From Stdlib Require Import Ascii.
From stdpp Require Import strings gmap relations sorting.

Open Scope Z_scope.

(** ** Ownership of the client *)

Section clients.
Context {R : Redis} {C : Client R}.

(** A store with its client. *)
Record handle := mkHandle { hd_store : Store; hd_client : nat; hd_ownsClient : bool }.

(** The clients made so far and those still open. *)
Record clients := mkClients { cl_made : nat; cl_open : gset nat }.

Definition close_client (c : nat) (cl : clients) : clients := mkClients (cl_made cl) (cl_open cl ∖ {[c]}).

Definition handle_NewWithClient (client : nat) (c : Config) (db : rdb) : rdb * result error handle :=
  let '(db', r) := NewWithClient c db in
  (db', match r with Ok st => Ok (mkHandle st client false) | Err e => Err e end).

(** [New]: the client it makes is closed when the store cannot be had. *)
Definition handle_New (c : Config) (db : rdb) (cl : clients) : rdb * clients * result error handle :=
  let client := cl_made cl in
  let cl := mkClients (S (cl_made cl)) (cl_open cl ∪ {[client]}) in
  let c := mkConfig (or_default (cfg_Addr c) "localhost:6379") (cfg_Stream c) (cfg_Group c) (cfg_RetryKey c)
             (cfg_DeadLetter c) (cfg_DedupePrefix c) (cfg_DedupeWindow c) (cfg_ConsumerIdleTimeout c) in
  let '(db', r) := handle_NewWithClient client c db in
  match r with
  | Ok h => (db', cl, Ok (mkHandle (hd_store h) (hd_client h) true))
  | Err e => (db', close_client client cl, Err e)
  end.

Definition store_Config (h : handle) : Config := st_config (hd_store h).

(** [err] is what closing the client returns. *)
Definition store_Close (err : option error) (h : handle) (cl : clients) : clients * option error :=
  if negb (hd_ownsClient h) then (cl, None) else (close_client (hd_client h) cl, err).

(** [New] opens the store [store_New] gives, and leaks no client: a failure leaves none
    open, and [Close] closes the one it made and no other. *)
Theorem New_client_closed c db cl err :
  (forall k, k ∈ cl_open cl -> (k < cl_made cl)%nat) ->
  let '(db', cl', r) := handle_New c db cl in
  db' = (store_New c db).1 /\
  match r with
  | Ok h => (store_New c db).2 = Ok (hd_store h) /\ cl_open cl' = (cl_open cl ∪ {[hd_client h]}) /\ (hd_client h ∉ cl_open cl) /\
            cl_open (store_Close err h cl').1 = cl_open cl /\ (store_Close err h cl').2 = err
  | Err e => (store_New c db).2 = Err e /\ cl_open cl' = cl_open cl
  end.
Proof.
  intros Hcl. unfold handle_New, handle_NewWithClient, store_New.
  assert (cl_made cl ∉ cl_open cl) as Hf by (intros Hin%Hcl; lia).
  destruct (NewWithClient _ db) as [db' [st|e]]; cbn; split; try done; split_and!; try done; set_solver.
Qed.

(** A client the caller gave is never closed. *)
Lemma NewWithClient_keeps client c db h cl err :
  (handle_NewWithClient client c db).2 = Ok h -> store_Close err h cl = (cl, None).
Proof. unfold handle_NewWithClient. destruct (NewWithClient c db) as [db' [st|e]]; intros [= <-]. done. Qed.
End clients.

(** ** [warnStuckBlock] *)

(** A call has read the clock, then also the time of the last warning. *)
Inductive warn_pc := Began (now : Z) | Loaded (now last : Z) | Returned.

Record stuck := mkStuck {
  lastStuckWarn : Z;
  sw_calls : list warn_pc;
  sw_log : list Z;             (* when each warning was logged, by its caller's clock *)
}.

Definition stuck_init : stuck := mkStuck 0 [] [].

Definition warn_begin (now : Z) (s : stuck) : stuck := mkStuck (lastStuckWarn s) (sw_calls s ++ [Began now]) (sw_log s).

Definition warn_load (i : nat) (s : stuck) : option stuck :=
  match sw_calls s !! i with
  | Some (Began now) => Some (mkStuck (lastStuckWarn s) (<[i := Loaded now (lastStuckWarn s)]> (sw_calls s)) (sw_log s))
  | _ => None
  end.

(** The test, the compare-and-swap and the warning. *)
Definition warn_finish (i : nat) (s : stuck) : option stuck :=
  match sw_calls s !! i with
  | Some (Loaded now last) =>
      let calls := <[i := Returned]> (sw_calls s) in
      if (wrap64 (now - last) <? minute) || negb (lastStuckWarn s =? last)
      then Some (mkStuck (lastStuckWarn s) calls (sw_log s))
      else Some (mkStuck now calls (sw_log s ++ [now]))
  | _ => None
  end.

(** Any number of calls in any interleaving; clocks after 1970 need not agree. *)
Inductive wstep : stuck -> stuck -> Prop :=
  | ws_begin now s : 0 <= now <= max_int64 -> wstep s (warn_begin now s)
  | ws_load i s s' : warn_load i s = Some s' -> wstep s s'
  | ws_finish i s s' : warn_finish i s = Some s' -> wstep s s'.

Definition pc_ok (pc : warn_pc) : Prop :=
  match pc with
  | Began now => 0 <= now <= max_int64
  | Loaded now last => 0 <= now <= max_int64 /\ 0 <= last <= max_int64
  | Returned => True
  end.

Definition apart (a b : Z) : Prop := a + minute <= b.

Record stuck_ok (s : stuck) : Prop := {
  so_last : 0 <= lastStuckWarn s <= max_int64;
  so_calls : Forall pc_ok (sw_calls s);
  so_spaced : StronglySorted apart (0 :: sw_log s);
  so_tail : last (0 :: sw_log s) = Some (lastStuckWarn s);
}.

Lemma sorted_snoc l x y : StronglySorted apart l -> last l = Some x -> apart x y -> StronglySorted apart (l ++ [y]).
Proof.
  intros Hl. revert x. induction Hl as [|a l Hl IH Ha]; intros x Hx Hy; [done|]. cbn [app].
  destruct l as [|b l].
  - simplify_eq/=. repeat constructor. done.
  - constructor; [by apply (IH x)|]. apply Forall_app. split; [done|]. apply Forall_singleton.
    change (last (b :: l) = Some x) in Hx. apply last_Some in Hx as [l' E]. rewrite E in Ha.
    apply Forall_app in Ha as [_ Ha]. apply Forall_inv in Ha. unfold apart, minute, second in *. lia.
Qed.

Lemma wstep_ok s s' : wstep s s' -> stuck_ok s -> stuck_ok s'.
Proof.
  intros Hst [H1 H2 H3 H4]. destruct Hst as [now s Hn | i s s' E | i s s' E].
  - split; cbn [lastStuckWarn sw_calls sw_log warn_begin]; try done. apply Forall_app. split; [done|]. by apply Forall_singleton.
  - unfold warn_load in E. destruct (sw_calls s !! i) as [[now| |]|] eqn:Ei; simplify_eq.
    split; cbn [lastStuckWarn sw_calls sw_log]; try done. apply Forall_insert; [done|]. cbn. split; [|lia].
    exact (Forall_lookup_1 _ _ _ _ H2 Ei).
  - unfold warn_finish in E. destruct (sw_calls s !! i) as [[|now lst|]|] eqn:Ei; try done.
    pose proof (Forall_lookup_1 _ _ _ _ H2 Ei) as [Hn Hl].
    rewrite wrap64_id in E by (unfold int64_ok, min_int64, max_int64 in *; lia).
    assert (Forall pc_ok (<[i := Returned]> (sw_calls s))) as Hc by by apply Forall_insert.
    destruct (Z.ltb_spec (now - lst) minute), (Z.eqb_spec (lastStuckWarn s) lst); cbn in E; simplify_eq;
      split; cbn [lastStuckWarn sw_calls sw_log]; try done.
    + apply (sorted_snoc (0 :: sw_log s) (lastStuckWarn s)); [done | done|]. unfold apart. lia.
    + change (0 :: sw_log s ++ [now]) with ((0 :: sw_log s) ++ [now]). by rewrite last_snoc.
Qed.

(** However the calls interleave, any two warnings are at least a minute apart. *)
Theorem warnings_apart s : rtc wstep stuck_init s ->
  forall i j a b, (i < j)%nat -> sw_log s !! i = Some a -> sw_log s !! j = Some b -> a + minute <= b.
Proof.
  intros Hr i j a b Hij Ha Hb.
  assert (stuck_ok s) as [_ _ Hs _].
  { eapply (rtc_ind_r stuck_ok); [|intros x y _ Hxy Hx; by eapply wstep_ok | exact Hr].
    split; cbn; [unfold max_int64; lia | constructor | repeat constructor | done]. }
  apply StronglySorted_inv in Hs as [Hs _]. clear Hr. revert i j Hij Ha Hb.
  induction Hs as [|c l Hs IH Hc]; intros i j Hij Ha Hb; [done|].
  destruct j as [|j]; [lia|]. destruct i as [|i]; simplify_eq/=; [|by apply (IH i j); [lia|..]].
  exact (Forall_lookup_1 _ _ _ _ Hc Hb).
Qed.

(** A call that is due and meets no other warns. *)
Lemma warn_due i now s : stuck_ok s -> sw_calls s !! i = Some (Loaded now (lastStuckWarn s)) ->
  lastStuckWarn s + minute <= now -> exists s', warn_finish i s = Some s' /\ sw_log s' = sw_log s ++ [now].
Proof.
  intros [H1 H2 _ _] Hi Hd. unfold warn_finish. rewrite Hi. pose proof (Forall_lookup_1 _ _ _ _ H2 Hi) as [Hn _].
  rewrite wrap64_id by (unfold int64_ok, min_int64, max_int64 in *; lia).
  destruct (Z.ltb_spec (now - lastStuckWarn s) minute); [lia|]. rewrite Z.eqb_refl. by eexists.
Qed.
