(* ===== verification/RedisUtilProps.v ===== *)
(** * Guarantees of the tools' helpers

    A child process gets the same target; a queue opened under a prefix stays
    under it; deleting the prefix removes the queue and nothing else. *)

From S2P Require Import Prelude GoNum GoTime Errors Job GoJson Redis RefRedis Scripts QueueSpec.
From S2P Require Import QueueRep ScriptsOk QueueSteps Store JobCodec StoreOk Demo.
From S2P Require Import Sharded ShardedOk ShardedProps ShardedDemo Flags RedisUtil.
From Stdlib Require Import Ascii String DecimalString DecimalPos.
From stdpp Require Import strings.

Open Scope Z_scope.
Open Scope se_scope.



(** ** Targets *)

Lemma normalized_idem t : normalized (normalized t) = normalized t.
Proof.
  unfold normalized at 2 3.
  destruct (negb (bool_decide (tg_Cluster t = "")) && (tg_Partitions t <=? 0)) eqn:E; unfold normalized; simpl.
  - by rewrite andb_false_r.
  - by rewrite E.
Qed.

Section open_props.
Context {R : Redis} {L : RedisLaws R} {C : Client R}.

(** A child process started with [Args] parses the parent's target, with
    the default number of partitions filled in, and opens the same queue. *)
Theorem Args_roundtrip t prefix idle :
  int64_ok (tg_Partitions t) ->
  exists t', flag_Parse RegisterFlags (Args t) target_defaults = Ok (t', []) /\
    t' = normalized t /\ Open t' prefix idle = Open t prefix idle.
Proof.
  intros Ht. exists (normalized t). split_and!; [|done|unfold Open; by rewrite normalized_idem].
  assert (int64_ok (tg_Partitions (normalized t))).
  { unfold normalized. destruct (_ && _); [vm_compute; by split | done]. }
  pose proof (ParseInt0_Itoa _ H) as E. unfold Args. revert E.
  generalize (Itoa (tg_Partitions (normalized t))). intros w E.
  do 2 (erewrite flag_Parse_value by reflexivity).
  erewrite flag_Parse_value by (try reflexivity; cbv beta; rewrite E; reflexivity).
  cbn [flag_Parse]. f_equal. f_equal. unfold normalized. by destruct (_ && _), t.
Qed.
End open_props.

(** ** Keys under a prefix *)

Definition under (prefix : string) (k : string) : Prop := exists t, k = prefix +:+ t.

Lemma prefix_under p k : String.prefix p k = true <-> under p k.
Proof.
  revert k. induction p as [|a p IH]; intros k; [split; [by exists k | by destruct k]|].
  destruct k as [|b k]; simpl; [by split; [|intros [t [=]]]|].
  destruct (ascii_dec a b) as [->|Hab].
  - rewrite IH. split; intros [t Ht]; exists t; [by rewrite Ht | by injection Ht].
  - split; [done|]. intros [t [=]]. by subst.
Qed.

Definition keys_under (prefix : string) (K : qkeys) : Prop := forall k, in_keys K k -> under prefix k.

Lemma trim_colon_app s : s = trim_colon s \/ s = trim_colon s +:+ ":".
Proof.
  induction s as [|a s IH]; [by left|].
  destruct s as [|b s].
  - destruct (decide (a = ":"%char)) as [->|Ha]; [by right|]. left.
    destruct a as [[] [] [] [] [] [] [] []]; try reflexivity. by destruct Ha.
  - assert (trim_colon (String a (String b s)) = String a (trim_colon (String b s))) as ->
      by (by destruct a as [[] [] [] [] [] [] [] []]).
    destruct IH as [IH|IH]; [left|right]; rewrite ?str_app_cons; congruence.
Qed.

Lemma trim_colon_nil s : trim_colon s = "" -> s = "" \/ s = ":".
Proof. destruct (trim_colon_app s) as [H|H]; intros E; rewrite E in H; rewrite H; auto. Qed.

(** The queue of an unsharded target. *)
Definition plain_keys (prefix : string) : qkeys :=
  QKeys (prefix +:+ "jobs") (prefix +:+ "workers") (prefix +:+ "retry") (prefix +:+ "retry:jobs")
    (prefix +:+ "dead") (prefix +:+ "dedupe:").

Definition plain_config (t : Target) (prefix : string) (idle : Z) : Config :=
  mkConfig (or_default (tg_Addr t) "localhost:6379") (prefix +:+ "jobs") (prefix +:+ "workers")
    (prefix +:+ "retry") (prefix +:+ "dead") (prefix +:+ "dedupe:") 0 idle.

Lemma plain_config_K t prefix idle :
  K_of (new_store (with_defaults (plain_config t prefix idle))) = plain_keys prefix.
Proof. unfold K_of, with_defaults, new_store. simpl. rewrite !or_default_app. unfold plain_keys. f_equal. by norm_str. Qed.

Lemma plain_keys_ok prefix : keys_ok (plain_keys prefix).
Proof.
  split; simpl; try (intros E%str_app_inj_l; discriminate E).
  intros key k ->. rewrite str_app_assoc. split_and!; intros E%str_app_inj_l; discriminate E.
Qed.

Lemma plain_keys_under prefix : keys_under prefix (plain_keys prefix).
Proof. intros k [->|[->|[->|[->|[key ->]]]]]; unfold under; cbn; norm_str; eexists; reflexivity. Qed.

(** The prefix of the partitions' keys. *)
Lemma sharded_under t prefix idle p :
  prefix <> ":" -> keys_under prefix (K_of (part_store (sharded_defaults (open_sharded t prefix idle)) p)).
Proof.
  intros Hp k [x ->]%part_in_keys. unfold open_sharded, sharded_defaults, part_tag, under. simpl.
  destruct (trim_colon prefix) as [|a r] eqn:E.
  - apply trim_colon_nil in E as [-> | ->]; [|done]. simpl. eauto.
  - simpl. destruct (trim_colon_app prefix) as [H|H]; rewrite H, E;
      norm_str; eexists; norm_str; reflexivity.
Qed.

(** The queues of a target under a prefix. *)
Definition target_keys (t : Target) (prefix : string) (idle : Z) : list qkeys :=
  let t := normalized t in
  if tg_Partitions t =? 0 then [plain_keys prefix]
  else let c := sharded_defaults (open_sharded t prefix idle) in
       K_of <$> (part_store c <$> (Z.of_nat <$> seq 0 (Z.to_nat (sc_Partitions c)))).

Lemma target_keys_under t prefix idle :
  prefix <> ":" -> Forall (keys_under prefix) (target_keys t prefix idle).
Proof.
  intros Hp. unfold target_keys. destruct (_ =? 0).
  - constructor; [apply plain_keys_under | constructor].
  - rewrite !Forall_fmap. apply Forall_forall. intros p _. by apply sharded_under.
Qed.

Section opens_prefix.
Context {R : Redis} {L : RedisLaws R} {C : Client R} (Hrel : reliable C).

Lemma open_plain t prefix idle q db :
  tg_Partitions (normalized t) = 0 -> opens (plain_keys prefix) (view db) q ->
  exists db' st, Open t prefix idle db = (db', Ok (OStore st, [st_config st])) /\
    K_of st = plain_keys prefix /\ represents (plain_keys prefix) (view db') q /\
    frame (plain_keys prefix) (view db) (view db').
Proof.
  intros E0 Hq. rewrite <- (plain_config_K (normalized t) prefix idle) in *.
  destruct (NewWithClient_opens Hrel (plain_config (normalized t) prefix idle) db q) as (db' & E & Hr & Hf);
    [rewrite plain_config_K; apply plain_keys_ok | exact Hq|].
  exists db', (new_store (with_defaults (plain_config (normalized t) prefix idle))). split_and!; [|done..].
  unfold Open, store_New, bind. rewrite E0. cbn -[NewWithClient normalized].
  fold (plain_config (normalized t) prefix idle). by rewrite E.
Qed.

Lemma keys_apart_one K : keys_ok K -> keys_apart [K].
Proof.
  intros HK. split; [by intros K' ->%list_elem_of_singleton|].
  intros [|i] [|j] K1 K2 k Hij; simpl; rewrite ?lookup_nil; done.
Qed.

(** A tool that opens the queue under a prefix gets a backend over the
    queues of that prefix, each with keys of its own and with the jobs it held
    before (none if it is new); no key outside the prefix is touched. *)
Theorem Open_prefix t prefix idle qs db :
  prefix <> ":" ->
  Forall2 (fun K q => opens K (view db) q) (target_keys t prefix idle) qs ->
  exists db' o cfgs, Open t prefix idle db = (db', Ok (o, cfgs)) /\
    opened_keys o = target_keys t prefix idle /\ length cfgs = length (opened_keys o) /\
    keys_apart (opened_keys o) /\ holds (opened_keys o) (view db') qs /\
    Forall (keys_under prefix) (opened_keys o) /\
    forall k, ~ under prefix k -> rv_keys (view db') !! k = rv_keys (view db) !! k.
Proof.
  intros Hp Ho. pose proof (target_keys_under t prefix idle Hp) as Hu. unfold target_keys in *.
  destruct (Z.eqb_spec (tg_Partitions (normalized t)) 0) as [E0|E0].
  - inversion Ho as [|? q ? qs' Hq Hqs]; subst. inversion Hqs; subst.
    destruct (open_plain t prefix idle q db E0 Hq) as (db' & st & E & HK & Hr & Hf).
    eexists _, _, _. split; [exact E|]. simpl. rewrite HK.
    split_and!; [done|done|by apply keys_apart_one, plain_keys_ok|by constructor; [|constructor]|exact Hu|].
    intros k Hk. apply Hf. intros Hin. by apply Hk, plain_keys_under.
  - do 2 rewrite Forall2_fmap_l in Ho.
    destruct (NewSharded_opens Hrel (open_sharded (normalized t) prefix idle) qs db)
      as (db' & s & E & Hparts & _ & _ & Hapart & Hh & Hkeep); [exact Ho|].
    assert (opened_keys (OSharded s) = keys_of s) as HK by done.
    rewrite <- Hparts in Hu |- *. eexists _, _, _. split.
    { unfold Open, bind. apply Z.eqb_neq in E0. rewrite E0, E. reflexivity. }
    split_and!; try done.
    + simpl. by rewrite !length_fmap.
    + intros k Hk. apply Hkeep. intros K HKin Hin. apply Hk.
      rewrite Forall_forall in Hu. by eapply Hu.
Qed.
End opens_prefix.

(** A single colon is not a prefix of a sharded queue: the trailing colon is
    taken off, which leaves the default prefix. *)
Example colon_prefix_lost :
  k_stream <$> target_keys (mkTarget "localhost:6379" "" 1) ":" 0 = ["dtq:{p0}:jobs"].
Proof. reflexivity. Qed.

(** ** Deleting a prefix *)

(** A run of a [SCAN] iteration: the server's state at each call and the page
    it returned; only the last call may return cursor 0. *)
Inductive scan_run {R : Redis} {Sc : Scanner R} (pattern : string) : list (rdb * list string) -> N -> Prop :=
  | scan_start : scan_run pattern [] 0
  | scan_more tr c s s' c' page :
      scan_run pattern tr c -> tr = [] \/ c <> 0%N ->
      SCAN c pattern 1000 s = (s', Ok (c', page)) ->
      scan_run pattern (tr ++ [(s, page)]) c'.

(** A prefix that has no character of a pattern. *)
Definition plain_prefix (prefix : string) : Prop :=
  lacks "*" prefix /\ lacks "?" prefix /\ lacks "[" prefix /\ lacks "\" prefix.

(** Documented behaviour: [SCAN] reads; a page has only keys that match; a full
    iteration returns every key that was there all along; it ends as long as
    the keyspace stays bounded. [glob] is the matching of patterns, [scan_bound]
    the most calls an iteration takes over so many keys. *)
Class ScannerLaws {R : Redis} (Sc : Scanner R) (glob : string -> string -> Prop)
    (scan_bound : nat -> nat) : Prop := {
  glob_prefix prefix k : plain_prefix prefix ->
    glob (prefix +:+ "*") k <-> under prefix k;
  SCAN_law c pattern n s :
    runs (SCAN c pattern n) s (fun s' r => view s' = view s /\ Forall (glob pattern) r.2);
  SCAN_complete pattern tr k :
    scan_run pattern tr 0 -> tr <> [] -> glob pattern k ->
    Forall (fun sp => is_Some (rv_keys (view sp.1) !! k)) tr -> Exists (fun sp => k ∈ sp.2) tr;
  SCAN_ends pattern n tr c :
    scan_run pattern tr c -> Forall (fun sp => (size (rv_keys (view sp.1)) <= n)%nat) tr ->
    (length tr <= scan_bound n)%nat;
  DEL_law k s : runs (DEL k) s (fun s' _ => view s' = put_key k None (view s));
}.

Section deleting.
Context {R : Redis} {Sc : Scanner R} {glob : string -> string -> Prop} {scan_bound : nat -> nat}.
Context {SL : ScannerLaws Sc glob scan_bound} {C : Client R} (Hrel : reliable C).

Lemma del_keys_ok ks : forall s,
  runs (del_keys ks) s (fun s' _ =>
    rv_now (view s') = rv_now (view s) /\
    (forall k, k ∈ ks -> rv_keys (view s') !! k = None) /\
    (forall k, k ∉ ks -> rv_keys (view s') !! k = rv_keys (view s) !! k)).
Proof.
  induction ks as [|x ks IH]; intros s; cbn [del_keys].
  { apply runs_ret. split_and!; [done|set_solver|done]. }
  eapply (runs_bind _ _ _ _ (fun s1 _ => view s1 = put_key x None (view s)));
    [unfold runs; rewrite Hrel; apply DEL_law|]. intros s1 [] Hv1.
  eapply runs_mono; [apply IH|]. intros s2 [] (Hn & Hin & Hout). rewrite Hv1 in *. split_and!.
  - done.
  - intros k [->|Hk]%elem_of_cons; [|by apply Hin]. destruct (decide (x ∈ ks)); [by apply Hin|].
    rewrite Hout by done. by rewrite lookup_put_key_eq.
  - intros k [Hne Hk]%not_elem_of_cons. rewrite Hout by done. by rewrite lookup_put_key_ne.
Qed.

(** What has been scanned is gone, what is left was there all along, and what
    does not match is untouched. *)
Record scan_inv (pattern : string) (v0 : rview) (tr : list (rdb * list string)) (v : rview) : Prop := {
  si_now : rv_now v = rv_now v0;
  si_keep k : ~ glob pattern k -> rv_keys v !! k = rv_keys v0 !! k;
  si_sub : rv_keys v ⊆ rv_keys v0;
  si_gone : Forall (fun sp => rv_keys v ⊆ rv_keys (view sp.1) /\ rv_keys (view sp.1) ⊆ rv_keys v0 /\
    forall k, k ∈ sp.2 -> rv_keys v !! k = None) tr;
}.

Lemma scan_inv_step pattern v0 tr v s page v' :
  scan_inv pattern v0 tr v -> view s = v -> Forall (glob pattern) page ->
  rv_now v' = rv_now v ->
  (forall k, k ∈ page -> rv_keys v' !! k = None) ->
  (forall k, k ∉ page -> rv_keys v' !! k = rv_keys v !! k) ->
  scan_inv pattern v0 (tr ++ [(s, page)]) v'.
Proof.
  intros [Hn Hk Hs Hg] Hv Hpage Hn' Hin Hout. rewrite Forall_forall in Hpage.
  assert (rv_keys v' ⊆ rv_keys v) as Hsub.
  { apply map_subseteq_spec. intros k x Hx. destruct (decide (k ∈ page)) as [Hp|Hp].
    - by rewrite Hin in Hx. - by rewrite Hout in Hx. }
  split.
  - congruence.
  - intros k Hnk. rewrite Hout; [by apply Hk|]. intros Hp. by apply Hnk, Hpage.
  - by etrans.
  - apply Forall_app. split.
    + eapply Forall_impl; [exact Hg|]. intros [si pi] (H1 & H2 & H3). simpl in *.
      split_and!; [by etrans | done |]. intros k Hp. specialize (H3 k Hp).
      destruct (rv_keys v' !! k) eqn:E; [|done].
      rewrite map_subseteq_spec in Hsub. apply Hsub in E. congruence.
    + constructor; [|constructor]. simpl. by rewrite Hv.
Qed.

Lemma scan_delete_ok pattern v0 n : (size (rv_keys v0) <= n)%nat -> forall fuel tr c s,
  scan_run pattern tr c -> tr = [] \/ c <> 0%N -> scan_inv pattern v0 tr (view s) ->
  (scan_bound n < fuel + length tr)%nat ->
  runs (scan_delete fuel c pattern) s (fun s' _ => exists tr',
    scan_run pattern tr' 0 /\ tr' <> [] /\ scan_inv pattern v0 tr' (view s')).
Proof.
  intros Hsize. induction fuel as [|fuel IH]; intros tr c s Hrun Hc Hi Hf.
  { assert (length tr <= scan_bound n)%nat; [|lia]. eapply SCAN_ends; [done|].
    eapply Forall_impl; [apply Hi|]. intros sp (_ & Hsub & _).
    etrans; [apply map_subseteq_size; exact Hsub | done]. }
  cbn [scan_delete]. unfold runs, bind. rewrite Hrel.
  destruct (SCAN_law c pattern 1000 s) as (s1 & [c' page] & E & Hv & Hpage). rewrite E. simpl in *.
  destruct (del_keys_ok page s1) as (s2 & [] & E2 & Hn & Hin & Hout). rewrite E2.
  rewrite Hv in *.
  assert (scan_run pattern (tr ++ [(s, page)]) c') as Hrun' by by eapply scan_more.
  assert (scan_inv pattern v0 (tr ++ [(s, page)]) (view s2)) as Hi' by by eapply scan_inv_step.
  destruct (N.eqb_spec c' 0) as [->|Hc'].
  - exists s2, tt. split; [done|]. eexists. split_and!; [done | by destruct tr | done].
  - apply (IH (tr ++ [(s, page)])); [done | by right | done |]. rewrite length_app. simpl. lia.
Qed.

Lemma scan_delete_clears prefix n s fuel :
  (size (rv_keys (view s)) <= n)%nat -> (scan_bound n < fuel)%nat ->
  runs (scan_delete fuel 0 (prefix +:+ "*")) s (fun s' _ =>
    rv_now (view s') = rv_now (view s) /\
    (forall k, glob (prefix +:+ "*") k -> rv_keys (view s') !! k = None) /\
    (forall k, ~ glob (prefix +:+ "*") k -> rv_keys (view s') !! k = rv_keys (view s) !! k)).
Proof.
  intros Hn Hf. eapply runs_mono.
  { eapply (scan_delete_ok _ (view s) n); [done | constructor | by left | | simpl; lia].
    split; [done | done | done | constructor]. }
  intros s' [] (tr & Hrun & Hne & Hi). split_and!; [apply Hi| |].
  - intros k Hk. destruct (rv_keys (view s') !! k) eqn:E; [|done]. destruct Hi as [_ _ _ Hg].
    assert (Exists (fun sp => k ∈ sp.2) tr) as (sp & Hsp & Hin)%Exists_exists.
    { eapply SCAN_complete; [done..|]. eapply Forall_impl; [exact Hg|].
      intros sp (Hsub & _). rewrite map_subseteq_spec in Hsub. eexists. by apply Hsub. }
    rewrite Forall_forall in Hg. destruct (Hg sp Hsp) as (_ & _ & H3). rewrite H3 in E; done.
  - intros k Hk. by apply Hi.
Qed.

(** What deleting leaves of one node. *)
Definition cleared prefix (s s' : rdb) : Prop :=
  (forall k, glob (prefix +:+ "*") k -> rv_keys (view s') !! k = None) /\
  (forall k, ~ glob (prefix +:+ "*") k -> rv_keys (view s') !! k = rv_keys (view s) !! k) /\
  (plain_prefix prefix ->
    (forall k, rv_keys (view s') !! k = (if String.prefix prefix k then None else rv_keys (view s) !! k)) /\
    forall K, keys_under prefix K -> opens K (view s') (q_empty (rv_now (view s)))).

Lemma clears prefix n s fuel :
  (size (rv_keys (view s)) <= n)%nat -> (scan_bound n < fuel)%nat ->
  runs (scan_delete fuel 0 (prefix +:+ "*")) s (fun s' _ => cleared prefix s s').
Proof.
  intros Hn Hf. eapply runs_mono; [by apply (scan_delete_clears prefix n)|].
  intros s' _ (Hnow & Hin & Hout). split_and!; [done | done|]. intros Hp. split.
  - intros k. pose proof (prefix_under prefix k) as Hk. rewrite <- (glob_prefix prefix k Hp) in Hk.
    destruct (String.prefix prefix k); [by apply Hin, Hk | apply Hout; by intros H%Hk].
  - intros K HK. right. split; [by rewrite Hnow|]. intros k Hk. by apply Hin, (glob_prefix prefix k Hp), HK.
Qed.
End deleting.

(** C37: over a client that delivers every request once and its reply, deleting a
    prefix on a Redis or on all primaries of a cluster ends, and leaves on every node
    exactly the keys that do not match the pattern made of the prefix and a star. If
    the prefix has no character of a pattern (star, question mark, bracket, backslash)
    these are the keys that do not start with it, and a queue whose keys are all under
    the prefix is gone ([opens] as empty). *)
Theorem DeletePrefix_clears {R : Redis} {Sc : Scanner R} {glob : string -> string -> Prop}
    {scan_bound : nat -> nat} {SL : ScannerLaws Sc glob scan_bound} {C : Client R} prefix n nodes fuel :
  reliable C -> (scan_bound n < fuel)%nat ->
  Forall (fun s => (size (rv_keys (view s)) <= n)%nat) nodes ->
  exists nodes', DeletePrefix fuel prefix nodes = (nodes', Ok tt) /\
    Forall2 (cleared (glob:=glob) prefix) nodes nodes'.
Proof.
  intros Hrel Hf. induction nodes as [|s nodes IH]; intros Hn; cbn [DeletePrefix forEachNode].
  { exists []. split; [done | constructor]. }
  inversion Hn as [|? ? Hs Hns]; subst. destruct (IH Hns) as (nodes' & E & Hall).
  destruct (clears Hrel prefix n s fuel Hs Hf) as (s' & [] & Es & Hc).
  exists (s' :: nodes'). unfold DeletePrefix in *. cbn [forEachNode]. rewrite Es, E.
  split; [done|]. by constructor.
Qed.
