(* ===== verification/Tools.v ===== *)
(** * The tools' command lines ([cmd/bench], [cmd/chaos], [cmd/worker-demo], [cmd/enqueue-demo])

    The options of each tool with their flags and defaults, the command line a
    controller starts its worker processes with, and the configuration a worker process
    gives its worker. *)

From S2P Require Import Prelude GoNum GoTime Errors Job GoJson GoText Redis Scripts QueueSpec QueueRep.
From S2P Require Import Retry GoDuration GoFloat Store StoreOk Sharded Flags RedisUtil Backend Worker.
From Stdlib Require Import Ascii QArith.
From stdpp Require Import strings.

Open Scope Z_scope.

(** Looks a flag up by its name. *)
Fixpoint find_flag {S} (table : list (string * flag S)) (name : string) : option (flag S) :=
  match table with
  | [] => None
  | (n, f) :: rest => if bool_decide (name = n) then Some f else find_flag rest name
  end.

(** The flags of a target among a tool's own, reading back [Args]. *)
Lemma parse_Args {S} (flags : string -> option (flag S)) (get : S -> Target) (put : Target -> S -> S) t s :
  (forall name f, RegisterFlags name = Some f -> flags name = Some (lift_flag get put f)) ->
  (forall t s, get (put t s) = t) -> (forall t t' s, put t (put t' s) = put t s) ->
  int64_ok (tg_Partitions t) -> flag_Parse flags (Args t) s = Ok (put (normalized t) s, []).
Proof.
  intros Hf Hget Hput Ht. unfold Args.
  assert (int64_ok (tg_Partitions (normalized t))) as Hn.
  { unfold normalized. destruct (_ && _); [vm_compute; by split | done]. }
  pose proof (ParseInt0_Itoa _ Hn) as E. revert E. generalize (Itoa (tg_Partitions (normalized t))). intros w E.
  pose proof (Hf "redis" _ eq_refl) as H1. pose proof (Hf "cluster" _ eq_refl) as H2. pose proof (Hf "partitions" _ eq_refl) as H3.
  cbn [lift_flag] in H1, H2, H3.
  erewrite flag_Parse_value; [|reflexivity | exact H1 | reflexivity].
  erewrite flag_Parse_value; [|reflexivity | exact H2 | reflexivity].
  erewrite flag_Parse_value; [|reflexivity | exact H3 | cbv beta; rewrite E; reflexivity].
  cbn [flag_Parse]. rewrite !Hget, !Hput. do 2 f_equal. f_equal.
  unfold normalized. by destruct (_ && _), t.
Qed.

(** ** The benchmark *)

Module BenchCmd.
Record bench_options := mkBench {
  target : Target;
  jobs : Z;
  workers : string;              (* -workers and -modes as given; see [counts] and [mode_list] *)
  concurrency : Z;
  modes : string;
  pollInterval : Z;
  rate : Z;
  latencyJobs : Z;
  producers : Z;
  enqueueBatch : Z;
  worker : bool;
  workerID : string;
  prefix : string;
  mode : string;
  latency : bool;
}.

Definition set_target x o := mkBench x (jobs o) (workers o) (concurrency o) (modes o) (pollInterval o) (rate o)
  (latencyJobs o) (producers o) (enqueueBatch o) (worker o) (workerID o) (prefix o) (mode o) (latency o).
Definition set_jobs x o := mkBench (target o) x (workers o) (concurrency o) (modes o) (pollInterval o) (rate o)
  (latencyJobs o) (producers o) (enqueueBatch o) (worker o) (workerID o) (prefix o) (mode o) (latency o).
Definition set_workers x o := mkBench (target o) (jobs o) x (concurrency o) (modes o) (pollInterval o) (rate o)
  (latencyJobs o) (producers o) (enqueueBatch o) (worker o) (workerID o) (prefix o) (mode o) (latency o).
Definition set_concurrency x o := mkBench (target o) (jobs o) (workers o) x (modes o) (pollInterval o) (rate o)
  (latencyJobs o) (producers o) (enqueueBatch o) (worker o) (workerID o) (prefix o) (mode o) (latency o).
Definition set_modes x o := mkBench (target o) (jobs o) (workers o) (concurrency o) x (pollInterval o) (rate o)
  (latencyJobs o) (producers o) (enqueueBatch o) (worker o) (workerID o) (prefix o) (mode o) (latency o).
Definition set_pollInterval x o := mkBench (target o) (jobs o) (workers o) (concurrency o) (modes o) x (rate o)
  (latencyJobs o) (producers o) (enqueueBatch o) (worker o) (workerID o) (prefix o) (mode o) (latency o).
Definition set_rate x o := mkBench (target o) (jobs o) (workers o) (concurrency o) (modes o) (pollInterval o) x
  (latencyJobs o) (producers o) (enqueueBatch o) (worker o) (workerID o) (prefix o) (mode o) (latency o).
Definition set_latencyJobs x o := mkBench (target o) (jobs o) (workers o) (concurrency o) (modes o) (pollInterval o)
  (rate o) x (producers o) (enqueueBatch o) (worker o) (workerID o) (prefix o) (mode o) (latency o).
Definition set_producers x o := mkBench (target o) (jobs o) (workers o) (concurrency o) (modes o) (pollInterval o)
  (rate o) (latencyJobs o) x (enqueueBatch o) (worker o) (workerID o) (prefix o) (mode o) (latency o).
Definition set_enqueueBatch x o := mkBench (target o) (jobs o) (workers o) (concurrency o) (modes o) (pollInterval o)
  (rate o) (latencyJobs o) (producers o) x (worker o) (workerID o) (prefix o) (mode o) (latency o).
Definition set_worker x o := mkBench (target o) (jobs o) (workers o) (concurrency o) (modes o) (pollInterval o)
  (rate o) (latencyJobs o) (producers o) (enqueueBatch o) x (workerID o) (prefix o) (mode o) (latency o).
Definition set_workerID x o := mkBench (target o) (jobs o) (workers o) (concurrency o) (modes o) (pollInterval o)
  (rate o) (latencyJobs o) (producers o) (enqueueBatch o) (worker o) x (prefix o) (mode o) (latency o).
Definition set_prefix x o := mkBench (target o) (jobs o) (workers o) (concurrency o) (modes o) (pollInterval o)
  (rate o) (latencyJobs o) (producers o) (enqueueBatch o) (worker o) (workerID o) x (mode o) (latency o).
Definition set_mode x o := mkBench (target o) (jobs o) (workers o) (concurrency o) (modes o) (pollInterval o)
  (rate o) (latencyJobs o) (producers o) (enqueueBatch o) (worker o) (workerID o) (prefix o) x (latency o).
Definition set_latency x o := mkBench (target o) (jobs o) (workers o) (concurrency o) (modes o) (pollInterval o)
  (rate o) (latencyJobs o) (producers o) (enqueueBatch o) (worker o) (workerID o) (prefix o) (mode o) x.

Definition bench_defaults : bench_options :=
  mkBench target_defaults 100000 "1,2,4,8" 16 "poll,block" (100 * millisecond) 200 1000 32 100 false "" "" "block" false.

Definition bench_table : list (string * flag bench_options) :=
  [("jobs", IntFlag set_jobs); ("workers", StringFlag set_workers); ("concurrency", IntFlag set_concurrency);
   ("modes", StringFlag set_modes); ("poll", DurationFlag set_pollInterval); ("rate", IntFlag set_rate);
   ("latency-jobs", IntFlag set_latencyJobs); ("producers", IntFlag set_producers);
   ("enqueue-batch", IntFlag set_enqueueBatch); ("worker", BoolFlag set_worker);
   ("worker-id", StringFlag set_workerID); ("prefix", StringFlag set_prefix); ("mode", StringFlag set_mode);
   ("latency", BoolFlag set_latency)].

Definition bench_flags (name : string) : option (flag bench_options) :=
  match RegisterFlags name with
  | Some f => Some (lift_flag target set_target f)
  | None => find_flag bench_table name
  end.

(** The command line of worker process [i]. *)
Definition bench_args (o : bench_options) (prefix mode : string) (lat : bool) (i : Z) : list string :=
  ["-worker"; "-worker-id"; "bench-" +:+ Itoa i; "-prefix"; prefix; "-mode"; mode;
   "-concurrency"; Itoa (concurrency o); "-poll"; Duration_String (pollInterval o);
   "-latency=" +:+ FormatBool lat] ++ Args (target o).

Fixpoint all_counts (ws : list string) : option (list Z) :=
  match ws with
  | [] => Some []
  | w :: rest => n ← Atoi (TrimSpace w); ns ← all_counts rest; Some (n :: ns)
  end.

(** The numbers of worker processes to test; [None] ends the program. *)
Definition counts (o : bench_options) : option (list Z) := all_counts (split_comma (workers o)).
Definition mode_list (o : bench_options) : list string := split_comma (modes o).

(** The runs of the benchmark, in order: the mode and the number of workers. *)
Definition bench_runs (o : bench_options) : option (list (string * Z)) :=
  ns ← counts o; Some (m ← mode_list o; n ← ns; [(m, n)]).

(** The worker a worker process runs. *)
Definition bench_config (o : bench_options) : WorkerConfig :=
  NewWorker (mkWorkerConfig (workerID o) (concurrency o) (pollInterval o) (bool_decide (mode o = "poll"))
    0 0 0 0 0 (mkRetryPolicy 0 0 (F_fin 0))).

Example bench_runs_ex :
  bench_runs (set_workers "1, 4" bench_defaults) = Some [("poll", 1); ("poll", 4); ("block", 1); ("block", 4)] /\
  bench_runs (set_workers "1,x" bench_defaults) = None.
Proof. vm_compute. split; reflexivity. Qed.

(** A benchmark worker runs with what the controller was told: the command line it
    is started with parses, and gives the target with its partitions filled in, the
    worker's ID, the run's key prefix, the mode, the concurrency, the poll interval and
    whether latencies are recorded. *)
Theorem bench_child o prefix mode lat i :
  int64_ok (tg_Partitions (target o)) -> int64_ok (concurrency o) -> int64_ok (pollInterval o) ->
  flag_Parse bench_flags (bench_args o prefix mode lat i) bench_defaults =
  Ok (mkBench (normalized (target o)) 100000 "1,2,4,8" (concurrency o) "poll,block" (pollInterval o) 200 1000 32 100
        true ("bench-" +:+ Itoa i) prefix mode lat, []).
Proof.
  intros Hp Hc Hd. unfold bench_args. pose proof (ParseInt0_Itoa _ Hc) as Ec. pose proof (ParseDuration_String _ Hd) as Ed.
  revert Ec Ed. generalize (Itoa (concurrency o)) (Duration_String (pollInterval o)) ("bench-" +:+ Itoa i).
  intros wc wd id Ec Ed. cbn [app].
  erewrite flag_Parse_bool by reflexivity.
  do 3 (erewrite flag_Parse_value by reflexivity).
  erewrite flag_Parse_value by (try reflexivity; cbv beta; rewrite Ec; reflexivity).
  erewrite flag_Parse_value by (try reflexivity; cbv beta; rewrite Ed; reflexivity).
  erewrite flag_Parse_bool; [|by destruct lat | reflexivity | apply ParseBool_FormatBool].
  rewrite (parse_Args _ target set_target); [done | | done | done | done].
  intros name f Hf. unfold bench_flags. by rewrite Hf.
Qed.
End BenchCmd.

(** ** The chaos test *)

Module ChaosCmd.
Record chaos_options := mkChaos {
  target : Target;
  prefix : string;
  jobs : Z;
  workers : Z;
  concurrency : Z;
  duration : Z;
  killEvery : Z;
  pauseEvery : Z;
  visibility : Z;
  failRate : float64;
  timeout : Z;
  keep : bool;
  verbose : bool;
  worker : bool;
  workerID : string;
}.

Definition set_target x o := mkChaos x (prefix o) (jobs o) (workers o) (concurrency o) (duration o) (killEvery o)
  (pauseEvery o) (visibility o) (failRate o) (timeout o) (keep o) (verbose o) (worker o) (workerID o).
Definition set_prefix x o := mkChaos (target o) x (jobs o) (workers o) (concurrency o) (duration o) (killEvery o)
  (pauseEvery o) (visibility o) (failRate o) (timeout o) (keep o) (verbose o) (worker o) (workerID o).
Definition set_jobs x o := mkChaos (target o) (prefix o) x (workers o) (concurrency o) (duration o) (killEvery o)
  (pauseEvery o) (visibility o) (failRate o) (timeout o) (keep o) (verbose o) (worker o) (workerID o).
Definition set_workers x o := mkChaos (target o) (prefix o) (jobs o) x (concurrency o) (duration o) (killEvery o)
  (pauseEvery o) (visibility o) (failRate o) (timeout o) (keep o) (verbose o) (worker o) (workerID o).
Definition set_concurrency x o := mkChaos (target o) (prefix o) (jobs o) (workers o) x (duration o) (killEvery o)
  (pauseEvery o) (visibility o) (failRate o) (timeout o) (keep o) (verbose o) (worker o) (workerID o).
Definition set_duration x o := mkChaos (target o) (prefix o) (jobs o) (workers o) (concurrency o) x (killEvery o)
  (pauseEvery o) (visibility o) (failRate o) (timeout o) (keep o) (verbose o) (worker o) (workerID o).
Definition set_killEvery x o := mkChaos (target o) (prefix o) (jobs o) (workers o) (concurrency o) (duration o) x
  (pauseEvery o) (visibility o) (failRate o) (timeout o) (keep o) (verbose o) (worker o) (workerID o).
Definition set_pauseEvery x o := mkChaos (target o) (prefix o) (jobs o) (workers o) (concurrency o) (duration o)
  (killEvery o) x (visibility o) (failRate o) (timeout o) (keep o) (verbose o) (worker o) (workerID o).
Definition set_visibility x o := mkChaos (target o) (prefix o) (jobs o) (workers o) (concurrency o) (duration o)
  (killEvery o) (pauseEvery o) x (failRate o) (timeout o) (keep o) (verbose o) (worker o) (workerID o).
Definition set_failRate x o := mkChaos (target o) (prefix o) (jobs o) (workers o) (concurrency o) (duration o)
  (killEvery o) (pauseEvery o) (visibility o) x (timeout o) (keep o) (verbose o) (worker o) (workerID o).
Definition set_timeout x o := mkChaos (target o) (prefix o) (jobs o) (workers o) (concurrency o) (duration o)
  (killEvery o) (pauseEvery o) (visibility o) (failRate o) x (keep o) (verbose o) (worker o) (workerID o).
Definition set_keep x o := mkChaos (target o) (prefix o) (jobs o) (workers o) (concurrency o) (duration o)
  (killEvery o) (pauseEvery o) (visibility o) (failRate o) (timeout o) x (verbose o) (worker o) (workerID o).
Definition set_verbose x o := mkChaos (target o) (prefix o) (jobs o) (workers o) (concurrency o) (duration o)
  (killEvery o) (pauseEvery o) (visibility o) (failRate o) (timeout o) (keep o) x (worker o) (workerID o).
Definition set_worker x o := mkChaos (target o) (prefix o) (jobs o) (workers o) (concurrency o) (duration o)
  (killEvery o) (pauseEvery o) (visibility o) (failRate o) (timeout o) (keep o) (verbose o) x (workerID o).
Definition set_workerID x o := mkChaos (target o) (prefix o) (jobs o) (workers o) (concurrency o) (duration o)
  (killEvery o) (pauseEvery o) (visibility o) (failRate o) (timeout o) (keep o) (verbose o) (worker o) x.

Definition chaos_defaults : chaos_options :=
  mkChaos target_defaults "" 10000 4 8 (30 * second) second (4 * second) (2 * second) (f64 (1 # 10)) (2 * minute)
    false false false "".

Definition chaos_table : list (string * flag chaos_options) :=
  [("jobs", IntFlag set_jobs); ("workers", IntFlag set_workers); ("concurrency", IntFlag set_concurrency);
   ("duration", DurationFlag set_duration); ("kill-every", DurationFlag set_killEvery);
   ("pause-every", DurationFlag set_pauseEvery); ("visibility", DurationFlag set_visibility);
   ("fail-rate", Float64Flag set_failRate); ("timeout", DurationFlag set_timeout); ("keep", BoolFlag set_keep);
   ("v", BoolFlag set_verbose); ("worker", BoolFlag set_worker); ("worker-id", StringFlag set_workerID);
   ("prefix", StringFlag set_prefix)].

Definition chaos_flags (name : string) : option (flag chaos_options) :=
  match RegisterFlags name with
  | Some f => Some (lift_flag target set_target f)
  | None => find_flag chaos_table name
  end.

(** The command line of worker process [id]. *)
Definition chaos_args (o : chaos_options) (id : string) : list string :=
  ["-worker"; "-worker-id"; id; "-prefix"; prefix o; "-concurrency"; Itoa (concurrency o);
   "-visibility"; Duration_String (visibility o); "-fail-rate"; FormatFloat_f (failRate o);
   "-v=" +:+ FormatBool (verbose o)] ++ Args (target o).

(** The worker a worker process runs. *)
Definition chaos_config (o : chaos_options) : WorkerConfig :=
  NewWorker (mkWorkerConfig (workerID o) (concurrency o) (50 * millisecond) false (visibility o) 0 0 0 0
    (mkRetryPolicy (50 * millisecond) second (F_fin 0))).

(** The names of a run's keys. *)
Definition chaos_prefix (now : Z) : string := "chaos:" +:+ Itoa now +:+ ":".
Definition ledgerKey (prefix : string) : string := prefix +:+ "ledger".
Definition leaseLostKey (prefix : string) : string := prefix +:+ "lease-lost".

(** [openBackend]: the queue of a run. *)
Definition chaos_open {R : Redis} {C : Client R} (o : chaos_options) : SE rdb error (opened * list Config) :=
  Open (target o) (prefix o) (10 * second).

(** [jitter]; [u] is what [rng.Float64] returns. *)
Definition chaos_jitter (u : Q) (mean : Z) : Z := trunc (rnd (rnd ((1 # 2) + u) * rnd (inject_Z mean)))%Q.

(** The largest random number gives one and a half times the mean. *)
Example chaos_jitter_top : chaos_jitter (9007199254740991 # 9007199254740992) second = 1500000000.
Proof. vm_compute. reflexivity. Qed.

(** C40: a fault-injected worker runs with what the controller was told: the command line it
    is started with parses, and gives the target with its partitions filled in, the ID,
    the run's key prefix, the concurrency, the visibility timeout, the fail rate (any
    value of a float64: negative, infinite and NaN too, with one zero) and the verbosity. *)
Theorem chaos_child o id :
  int64_ok (tg_Partitions (target o)) -> int64_ok (concurrency o) -> int64_ok (visibility o) ->
  float64_ok (failRate o) ->
  flag_Parse chaos_flags (chaos_args o id) chaos_defaults =
  Ok (mkChaos (normalized (target o)) (prefix o) 10000 4 (concurrency o) (30 * second) second (4 * second)
        (visibility o) (failRate o) (2 * minute) false (verbose o) true id, []).
Proof.
  intros Hp Hc Hv Hx. unfold chaos_args. pose proof (ParseInt0_Itoa _ Hc) as Ec.
  pose proof (ParseDuration_String _ Hv) as Ed. pose proof (ParseFloat_FormatFloat _ Hx) as Ef.
  revert Ec Ed Ef.
  generalize (Itoa (concurrency o)) (Duration_String (visibility o)) (FormatFloat_f (failRate o)).
  intros wc wd wf Ec Ed Ef.
  assert (read_flag ("-v=" +:+ FormatBool (verbose o)) = FlagNamed "v" (Some (FormatBool (verbose o)))) as Eb
    by by destruct (verbose o).
  revert Eb. generalize ("-v=" +:+ FormatBool (verbose o)). intros wb Eb. cbn [app].
  erewrite flag_Parse_bool by reflexivity.
  do 2 (erewrite flag_Parse_value by reflexivity).
  erewrite flag_Parse_value by (try reflexivity; cbv beta; rewrite Ec; reflexivity).
  erewrite flag_Parse_value by (try reflexivity; cbv beta; rewrite Ed; reflexivity).
  erewrite flag_Parse_value by (try reflexivity; cbv beta; rewrite Ef; reflexivity).
  erewrite flag_Parse_bool; [|exact Eb | reflexivity | apply ParseBool_FormatBool].
  rewrite (parse_Args _ target set_target); [done | | done | done | done].
  intros name f Hf. unfold chaos_flags. by rewrite Hf.
Qed.

Definition demo_run : chaos_options :=
  set_failRate (f64 (- (1 # 10)))
    (set_prefix "chaos:17:" (set_target (mkTarget "localhost:6379" "h1:7000,h2:7000" 0) chaos_defaults)).

Lemma chaos_child_witness :
  flag_Parse chaos_flags (chaos_args demo_run "w3") chaos_defaults =
  Ok (mkChaos (mkTarget "localhost:6379" "h1:7000,h2:7000" 16) "chaos:17:" 10000 4 8 (30 * second) second (4 * second)
        (2 * second) (f64 (- (1 # 10))) (2 * minute) false false true "w3", []).
Proof.
  apply (chaos_child demo_run "w3"); vm_compute; by split.
Defined.
End ChaosCmd.
