(* ===== verification/DemoCmds.v ===== *)
(** * The demo commands ([cmd/worker-demo], [cmd/enqueue-demo])

    The options of the two demos, the worker the one runs and the loop of the other: how
    many jobs it enqueues, when it stops, and that the worker's handlers settle each of
    them. What the host, the environment and the random numbers give is an argument. *)

From S2P Require Import Prelude GoNum GoTime Errors Job GoJson Json Redis Scripts Retry Store Backend Queue Worker Tasks.
From S2P Require Import GoDuration GoFloat Sharded ShardedOk Flags RedisUtil Tools Tracing WorkerRun.
From Stdlib Require Import Ascii DecimalString.
From stdpp Require Import strings list_numbers.

Open Scope Z_scope.

(** [os.Getenv] with a fallback. *)
Definition envOr (getenv : string -> string) (key fallback : string) : string :=
  if bool_decide (getenv key = "") then fallback else getenv key.

(** How a process ends: its status, the errors it logged, and whether the deferred flush of
    the spans ran. *)
Record exit := mkExit { ex_status : Z; ex_logged : list string; ex_flushed : bool }.

(** ** The demo worker *)

Module WorkerDemo.
(** The verb [%04x] of a number below [2 ^ 16]. *)
Definition nibble (n : Z) : ascii := ascii_of_N (Z.to_N (if n <? 10 then 48 + n else 87 + n)).

Definition hex4 (n : Z) : string :=
  String (nibble (n / 4096 mod 16)) (String (nibble (n / 256 mod 16))
    (String (nibble (n / 16 mod 16)) (String (nibble (n mod 16)) ""))).

(** The worker's ID unless one is given: the host, the process and [rand.IntN(1<<16)]. *)
Definition default_id (host : string) (pid r : Z) : string := host +:+ "-" +:+ Itoa pid +:+ "-" +:+ hex4 r.

Record demo_options := mkDemo {
  id : string;
  metricsAddr : string;
  concurrency : Z;
  visibility : Z;
  redisAddr : string;
}.

Definition demo_defaults (getenv : string -> string) (host : string) (pid r : Z) : demo_options :=
  mkDemo (default_id host pid r) ":9090" 4 (30 * second) (envOr getenv "DTQ_REDIS_ADDR" "localhost:6379").

Definition demo_flags : string -> option (flag demo_options) := find_flag
  [("id", StringFlag (fun x o => mkDemo x (metricsAddr o) (concurrency o) (visibility o) (redisAddr o)));
   ("metrics-addr", StringFlag (fun x o => mkDemo (id o) x (concurrency o) (visibility o) (redisAddr o)));
   ("concurrency", IntFlag (fun x o => mkDemo (id o) (metricsAddr o) x (visibility o) (redisAddr o)));
   ("visibility", DurationFlag (fun x o => mkDemo (id o) (metricsAddr o) (concurrency o) x (redisAddr o)));
   ("redis", StringFlag (fun x o => mkDemo (id o) (metricsAddr o) (concurrency o) (visibility o) x))].

(** The queue: all names are the defaults. *)
Definition demo_store {R : Redis} {C : Client R} (addr : string) : SE rdb error Store :=
  store_New (mkConfig addr "" "" "" "" "" 0 0).

Definition demo_config (o : demo_options) : WorkerConfig :=
  NewWorker (mkWorkerConfig (id o) (concurrency o) (250 * millisecond) false (visibility o) 0 0 0 0 DefaultRetryPolicy).

(** The registrations, in order: the handlers and the errors logged. *)
Definition register_each {W} (rs : list (string * HandlerFunc W)) : gmap string (HandlerFunc W) * list error :=
  foldl (fun '(hs, errs) r =>
    let '(hs', err) := Register r.1 (Some r.2) hs in
    (hs', errs ++ match err with Some e => [e] | None => [] end)) (∅, []) rs.

Definition demo_registered {W} (sleep : Z -> W -> W) (json_error : string -> error) :=
  register_each [("send_email", SendEmail sleep json_error); ("process_image", ProcessImage sleep json_error);
                ("permanent_fail", PermanentFail); ("flaky_email", FlakyEmail)].

Lemma demo_registered_eq {W} (sleep : Z -> W -> W) json_error :
  demo_registered sleep json_error = (worker_demo_handlers sleep json_error, []).
Proof.
  unfold demo_registered, register_each, worker_demo_handlers. reflexivity.
Qed.

(** [main], but for the metrics server: [setup] and [opened] are what installing tracing and opening the queue give,
    [ran] what [Run] returns. [os.Exit] skips the deferred calls. *)
Definition demo_main (setup : result error shutdown) (opened : result error Store) (registered : list error)
    (ran : option error) : exit :=
  match setup with
  | Err e => mkExit 1 ["tracing setup failed"] false
  | Ok _ =>
      match opened with
      | Err e => mkExit 1 [error_string e] false
      | Ok _ =>
          mkExit 0 ((error_string <$> registered) ++
            match ran with
            | Some e => if bool_decide (e = ErrCanceled) then [] else [error_string e]
            | None => []
            end) true
      end
  end.

(** A worker that was stopped by a signal ends without an error. *)
Lemma demo_main_stopped sd st : demo_main (Ok sd) (Ok st) [] (Some ErrCanceled) = mkExit 0 [] true.
Proof. done. Qed.

(** A worker that cannot run ends with status 0 too: with [-id=] it logs an error, runs
    nothing, and looks to its supervisor like one that finished. *)
Example demo_main_no_id {W} {B : Backend W} sd st o w :
  id o = "" -> exists e, run_start (demo_config o) w = Err e /\
    demo_main (Ok sd) (Ok st) [] (Some e) = mkExit 0 ["worker id is required"] true.
Proof.
  intros Hid. exists (ErrMsg "worker id is required"). split; [|done].
  unfold run_start. by rewrite bool_decide_true.
Qed.

(** *** IDs are unique *)

Lemma nibble_inj a b : 0 <= a < 16 -> 0 <= b < 16 -> nibble a = nibble b -> a = b.
Proof.
  intros Ha Hb H. apply (f_equal N_of_ascii) in H. unfold nibble in H.
  rewrite !N_ascii_embedding in H by (repeat case_match; lia).
  destruct (Z.ltb_spec a 10), (Z.ltb_spec b 10); lia.
Qed.

Lemma hex4_inj a b : 0 <= a < 2 ^ 16 -> 0 <= b < 2 ^ 16 -> hex4 a = hex4 b -> a = b.
Proof.
  intros Ha Hb [= H1 H2 H3 H4].
  apply nibble_inj in H1, H2, H3, H4; try (apply Z.mod_pos_bound; lia).
  Z.div_mod_to_equations. lia.
Qed.

(** Text after the last [c] is determined by the whole. *)
Lemma lacks_app_r c a x : ~ lacks c (a +:+ String c x).
Proof. induction a as [|d a IH]; rewrite ?str_app_nil_l, ?str_app_cons; simpl; tauto. Qed.

Lemma lacks_suffix_inj c x y : lacks c x -> lacks c y -> forall a b,
  a +:+ String c x = b +:+ String c y -> a = b /\ x = y.
Proof.
  intros Hx Hy. induction a as [|d a IH]; intros [|e b]; rewrite ?str_app_nil_l, ?str_app_cons; intros [=]; subst.
  - done.
  - by apply lacks_app_r in Hx.
  - by apply lacks_app_r in Hy.
  - edestruct IH as [-> ->]; eauto.
Qed.

Lemma app_len_inj x y : String.length x = String.length y -> forall a b, a +:+ x = b +:+ y -> a = b /\ x = y.
Proof.
  intros Hl. induction a as [|d a IH]; intros [|e b] H.
  - done.
  - apply (f_equal String.length) in H. rewrite str_app_nil_l, str_app_cons in H. cbn in H. rewrite str_length_app in H. lia.
  - apply (f_equal String.length) in H. rewrite str_app_nil_l, str_app_cons in H. cbn in H. rewrite str_length_app in H. lia.
  - rewrite !str_app_cons in H. injection H as -> H. by destruct (IH b H) as [-> ->].
Qed.

Lemma lacks_dash_Itoa z : 0 <= z -> lacks "-" (Itoa z).
Proof.
  assert (forall d, lacks "-" (NilEmpty.string_of_uint d)) as H.
  { induction d; simpl; [done | split; [discriminate | done]..]. }
  intros Hz. unfold Itoa. destruct z as [|p|p]; [by split | | lia]. simpl.
  destruct (Pos.to_uint p); [by split | apply H..].
Qed.

(** The default IDs of two workers differ unless host, process and random number are
    the same: no two of them run into each other because of where a field ends. *)
Theorem default_id_inj h1 p1 r1 h2 p2 r2 :
  0 <= p1 -> 0 <= p2 -> 0 <= r1 < 2 ^ 16 -> 0 <= r2 < 2 ^ 16 ->
  default_id h1 p1 r1 = default_id h2 p2 r2 -> h1 = h2 /\ p1 = p2 /\ r1 = r2.
Proof.
  intros Hp1 Hp2 Hr1 Hr2 H. unfold default_id in H.
  rewrite <- !(str_app_assoc _ _ (hex4 _)), <- !(str_app_assoc h1), <- !(str_app_assoc h2) in H.
  apply app_len_inj in H as [H Hr%hex4_inj]; [|done..].
  rewrite !str_app_assoc in H. rewrite <- !(str_app_assoc _ _ "-"), <- !(str_app_assoc h1), <- !(str_app_assoc h2) in H.
  apply app_len_inj in H as [H _]; [|done].
  rewrite !str_app_assoc, !str_app_cons, !str_app_nil_l in H.
  apply (lacks_suffix_inj "-") in H as [-> Hp%Itoa_inj]; [|by apply lacks_dash_Itoa..]. done.
Qed.
End WorkerDemo.

(** ** The demo producer *)

Module EnqueueDemo.
Record producer_options := mkProducer {
  n : Z;
  delay : Z;
  task : string;
  latency : Z;
  redisAddr : string;
  metricsAddr : string;
}.

Definition producer_envOr (getenv : string -> string) (key fallback : string) : string :=
  if bool_decide (getenv key = "") then fallback else getenv key.

Definition producer_defaults (getenv : string -> string) : producer_options :=
  mkProducer 1 (50 * millisecond) "send_email" 0 (producer_envOr getenv "DTQ_REDIS_ADDR" "localhost:6379") "".

Definition producer_flags : string -> option (flag producer_options) := find_flag
  [("n", IntFlag (fun x o => mkProducer x (delay o) (task o) (latency o) (redisAddr o) (metricsAddr o)));
   ("delay", DurationFlag (fun x o => mkProducer (n o) x (task o) (latency o) (redisAddr o) (metricsAddr o)));
   ("task", StringFlag (fun x o => mkProducer (n o) (delay o) x (latency o) (redisAddr o) (metricsAddr o)));
   ("latency", DurationFlag (fun x o => mkProducer (n o) (delay o) (task o) x (redisAddr o) (metricsAddr o)));
   ("redis", StringFlag (fun x o => mkProducer (n o) (delay o) (task o) (latency o) x (metricsAddr o)));
   ("metrics-addr", StringFlag (fun x o => mkProducer (n o) (delay o) (task o) (latency o) (redisAddr o) x))].

(** [main] around the loop; [log.Fatal] skips the deferred calls. *)
Definition producer_main (setup : result error shutdown) (opened : result error Store) : exit :=
  match setup with
  | Err e => mkExit 1 [error_string e] false
  | Ok _ => match opened with Err e => mkExit 1 [error_string e] false | Ok _ => mkExit 0 [] true end
  end.

(** What one round of the loop takes from outside: the random numbers, what the new job
    needs, whether the context is cancelled when a failed call returns and whether the
    wait ends by it. *)
Record round := mkRound {
  rd_pick : Z;                      (* rand.IntN(100) *)
  rd_IntN : Z -> Z;                 (* rand.IntN *)
  rd_bytes : list ascii;
  rd_now : Z;
  rd_sets : list (string * string);
  rd_cancelled : bool;
  rd_interrupted : bool;
}.

(** The task, the payload and the attempts of a round; [None] is a panic. *)
Definition round_job (o : producer_options) (x : round) : option (string * (string * Z)) :=
  let ms := Z.quot (latency o) 1000000 in
  if bool_decide (task o = "mix") then
    let name := pickTask (rd_pick x) in
    ms' ← mix_latency (rd_IntN x) ms; Some (name, payloadFor name ms')
  else Some (task o, payloadFor (task o) ms).

Inductive ending := Finished | Returned | Panicked | Going.

#[export] Instance ending_eq_dec : EqDecision ending.
Proof. solve_decision. Defined.

(** One line of the log: the round, the task and the outcome. *)
Definition log_line : Type := Z * string * result error string.

Section loop.
Context {W : Type} {B : Backend W} (o : producer_options).

(** The loop from round [i] on, as far as the rounds given go. *)
Fixpoint produce (i : Z) (rounds : list round) (w : W) : ending * list log_line * W :=
  if (n o =? 0) || (i <? n o) then
    match rounds with
    | [] => (Going, [], w)
    | x :: rest =>
        match round_job o x with
        | None => (Panicked, [], w)
        | Some (name, (payload, maxAttempts)) =>
            let '(w1, (_, r)) := queue_Enqueue name (EnqEnv (Ok payload) (rd_bytes x) (rd_now x))
                                   (mkEnqueueOptions maxAttempts 0 "") (rd_sets x) w in
            if match r with Err _ => rd_cancelled x | Ok _ => false end then (Returned, [], w1)
            else if rd_interrupted x then (Returned, [(i, name, r)], w1)
            else let '(e, log, w2) := produce (wrap64 (i + 1)) rest w1 in (e, (i, name, r) :: log, w2)
        end
    end
  else (Finished, [], w).

(** *** What the loop does *)

(** A round nobody interrupts. *)
Definition calm (x : round) : Prop := rd_cancelled x = false /\ rd_interrupted x = false.

Definition lines_of (r : ending * list log_line * W) : list Z := (fun l => l.1.1) <$> r.1.2.

Lemma mix_latency_ok rand ms : 0 <= ms < max_int64 -> is_Some (mix_latency rand ms).
Proof.
  intros Hms. unfold mix_latency. rewrite wrap64_id by (unfold int64_ok, min_int64, max_int64 in *; lia).
  destruct (Z.ltb_spec 0 (ms + 1)); [eauto | lia].
Qed.

Lemma round_job_ok x : task o = "mix" -> 0 <= latency o -> int64_ok (latency o) -> is_Some (round_job o x).
Proof.
  intros Ht H0 Hl. unfold round_job. rewrite bool_decide_true by done.
  destruct (mix_latency_ok (rd_IntN x) (Z.quot (latency o) 1000000)) as [ms ->]; [|eauto].
  rewrite Z.quot_div_nonneg by lia. unfold int64_ok, min_int64, max_int64 in *.
  Z.div_mod_to_equations. lia.
Qed.

(** A latency that is not negative, or a task of its own, gives every round a job. *)
Definition sane : Prop := task o <> "mix" \/ (0 <= latency o /\ int64_ok (latency o)).

Lemma sane_job x : sane -> is_Some (round_job o x).
Proof.
  intros [Hm|[H0 Hl]]; destruct (decide (task o = "mix")) as [Ht|Ht]; [done | | by apply round_job_ok |];
    unfold round_job; rewrite bool_decide_false by done; eauto.
Qed.

(** The loop runs through its rounds in order, one call each. *)
Lemma produce_bounded : sane -> 0 < n o <= max_int64 -> forall rounds i w, 0 <= i <= n o ->
  let r := produce i rounds w in
  r.1.1 <> Panicked /\ (exists k, (k <= Z.to_nat (n o - i))%nat /\ lines_of r = seqZ i (Z.of_nat k)) /\
  (Forall calm rounds -> (Z.to_nat (n o - i) <= length rounds)%nat ->
    r.1.1 = Finished /\ lines_of r = seqZ i (n o - i)).
Proof.
  intros Hs Hn. induction rounds as [|x rest IH]; intros i w Hi; cbn [produce];
    destruct (Z.eqb_spec (n o) 0); [lia | | lia |]; destruct (Z.ltb_spec i (n o)); cbn [orb].
  - split_and!; [done | by exists 0%nat; split; [lia|]|]. cbn. intros. lia.
  - split_and!; [done | by exists 0%nat; split; [lia|]|]. intros _ _. rewrite seqZ_nil by lia. done.
  - destruct (sane_job x Hs) as [[name [payload maxA]] ->].
    destruct (queue_Enqueue _ _ _ _ _) as [w1 [evs r]].
    destruct (match r with Err _ => rd_cancelled x | Ok _ => false end) eqn:Ec.
    { split_and!; [done | by exists 0%nat; split; [lia|]|]. intros [[Hc _] _]%Forall_cons. destruct r; congruence. }
    destruct (rd_interrupted x) eqn:Ei.
    { split_and!; [done | by exists 1%nat; split; [lia|]|]. intros [[_ Hc] _]%Forall_cons. congruence. }
    rewrite wrap64_id by (unfold int64_ok, min_int64, max_int64 in *; lia).
    destruct (IH (i + 1) w1 ltac:(lia)) as (Hp & (k & Hk & Hlog) & Hall).
    destruct (produce (i + 1) rest w1) as [[e log] w2]. unfold lines_of in *. cbn in *. split_and!; [done | |].
    + exists (S k). split; [lia|]. rewrite Hlog, (seqZ_cons i) by lia. do 2 f_equal; lia.
    + intros [_ Hf]%Forall_cons Hlen. destruct (Hall Hf ltac:(lia)) as [-> ->]. split; [done|].
      rewrite (seqZ_cons i) by lia. do 2 f_equal; lia.
  - split_and!; [done | by exists 0%nat; split; [lia|]|]. intros _ _. rewrite seqZ_nil by lia. done.
Qed.

(** With [-n 0] the loop ends only by an interruption. *)
Lemma produce_endless : sane -> n o = 0 -> forall rounds i w, Forall calm rounds ->
  (produce i rounds w).1.1 = Going /\ length (lines_of (produce i rounds w)) = length rounds.
Proof.
  intros Hs Hn. induction rounds as [|x rest IH]; intros i w Hc; cbn [produce]; rewrite Hn; cbn [Z.eqb orb]; [done|].
  apply Forall_cons in Hc as [[H1 H2] Hc]. destruct (sane_job x Hs) as [[name [payload maxA]] ->].
  destruct (queue_Enqueue _ _ _ _ _) as [w1 [evs r]].
  replace (match r with Err _ => rd_cancelled x | Ok _ => false end) with false by by destruct r.
  rewrite H2. destruct (IH (wrap64 (i + 1)) w1 Hc) as [He Hl].
  destruct (produce _ rest w1) as [[e log] w2]. unfold lines_of in *. cbn in *. by rewrite Hl.
Qed.

(** The demo producer runs as asked: with a positive [-n] its log is of rounds 0, 1, ...
    without a gap and never of more than [n], and it finishes with all [n] unless it is
    interrupted; with [-n 0] it goes on until then; it panics only if the mix is asked
    for a negative latency. *)
Theorem produce_exact rounds w :
  sane -> 0 <= n o <= max_int64 ->
  let r := produce 0 rounds w in
  r.1.1 <> Panicked /\
  (0 < n o -> exists k, Z.of_nat k <= n o /\ lines_of r = seqZ 0 (Z.of_nat k)) /\
  (Forall calm rounds -> 0 < n o -> n o <= Z.of_nat (length rounds) -> r.1.1 = Finished /\ lines_of r = seqZ 0 (n o)) /\
  (Forall calm rounds -> n o = 0 -> r.1.1 = Going /\ length (lines_of r) = length rounds).
Proof.
  intros Hs Hn. cbv zeta. destruct (decide (n o = 0)) as [H0|H0].
  - split_and!; [|lia | lia | intros; by apply produce_endless].
    clear Hn. generalize 0 at 1. revert w.
    induction rounds as [|x rest IH]; intros w i; cbn [produce]; rewrite H0; cbn [Z.eqb orb]; [done|].
    destruct (sane_job x Hs) as [[name [payload maxA]] ->]. destruct (queue_Enqueue _ _ _ _ _) as [w1 [evs r]].
    destruct (match r with Err _ => _ | Ok _ => _ end); [done|]. destruct (rd_interrupted x); [done|].
    specialize (IH w1 (wrap64 (i + 1))). by destruct (produce _ rest w1) as [[e log] w2].
  - destruct (produce_bounded Hs ltac:(lia) rounds 0 w ltac:(lia)) as (Hp & (k & Hk & Hl) & Hall).
    split_and!; [done | | | lia].
    + intros _. exists k. split; [lia | done].
    + intros Hc _ Hlen. destruct (Hall Hc ltac:(lia)) as [-> ->]. by rewrite Z.sub_0_r.
Qed.
End loop.

(** The demo worker's handlers settle what the demo producer sends: each round's job is
    valid, its task has a handler, and it ends as its name says. *)
Theorem demo_pipeline {W} (sleep : Z -> W -> W) json_error o x name payload maxAttempts w :
  task o ∈ ["send_email"; "process_image"; "flaky_email"; "permanent_fail"; "mix"] -> int64_ok (latency o) ->
  round_job o x = Some (name, (payload, maxAttempts)) ->
  exists h job,
    newJob name (EnqEnv (Ok payload) (rd_bytes x) (rd_now x)) (mkEnqueueOptions maxAttempts 0 "") = Ok job /\
    (WorkerDemo.demo_registered sleep json_error).1 !! name = Some h /\
    journey 3 h job w = Some (demo_fate name).
Proof.
  intros Ht Hl Hj. rewrite WorkerDemo.demo_registered_eq. cbn [fst].
  assert (exists r ms, int64_ok ms /\ name = pickTask r /\ payloadFor name ms = (payload, maxAttempts)) as (r & ms & Hms & -> & Hp).
  { unfold round_job in Hj. case_bool_decide as Hm.
    - unfold mix_latency in Hj. case_match; simplify_eq/=. do 2 eexists. split_and!; [apply wrap64_ok | done | done].
    - assert (int64_ok (latency o ÷ 1000000)) as Hq.
      { unfold int64_ok, min_int64, max_int64 in *. Z.quot_rem_to_equations. lia. }
      simplify_eq/=. set_unfold in Ht. destruct Ht as [E|[E|[E|[E|E]]]]; [| | | |set_solver]; rewrite E in *.
      + by exists 0, (latency o ÷ 1000000).
      + by exists 70, (latency o ÷ 1000000).
      + by exists 85, (latency o ÷ 1000000).
      + by exists 97, (latency o ÷ 1000000). }
  pose proof (demo_jobs_settle sleep json_error r ms (rd_bytes x) (rd_now x) w Hms) as H. cbv zeta in H.
  by rewrite Hp in H.
Qed.
End EnqueueDemo.
