(* ===== verification/TestRedis.v ===== *)
(** * The Redis of the tests ([internal/testredis])

    How a test gets its server, when it is skipped, and what the cleanup leaves to the
    next one. [ping] and [flush] are the client's calls: PING, and FLUSHDB with its
    error, which the cleanup drops. *)

From S2P Require Import Prelude Errors Job Redis RefRedis.
From stdpp Require Import strings gmap.

Open Scope Z_scope.

Record Instance_ := mkInstance { Addr : string }.

Inductive started := Skipped (reason : string) | Started (i : Instance_).

Definition testredis_addr (getenv : string -> string) : string :=
  if bool_decide (getenv "TEST_REDIS_ADDR" = "") then "localhost:6379" else getenv "TEST_REDIS_ADDR".

Definition testredis_Start (getenv : string -> string) (ping : string -> option error) : started :=
  let addr := testredis_addr getenv in
  match ping addr with
  | Some err => Skipped ("redis unavailable at " +:+ addr +:+ ": " +:+ error_string err +:+
                         " (start with `docker compose up -d redis`)")
  | None => Started (mkInstance addr)
  end.

Section tests.
Context {R : Redis} (getenv : string -> string) (flush : rdb -> rdb * option error).

(** The function given to [t.Cleanup]. *)
Definition testredis_cleanup (s : rdb) : rdb := (flush s).1.

(** A test, from [Start] to its cleanup; the second component says whether it ran. *)
Definition run_test (ping : string -> option error) (body : Instance_ -> rdb -> rdb) (s : rdb) : rdb * bool :=
  match testredis_Start getenv ping with
  | Skipped _ => (s, false)
  | Started i => (testredis_cleanup (body i s), true)
  end.

(** The tests of a package, one after the other; the states each of them starts in. *)
Fixpoint run_tests (tests : list ((string -> option error) * (Instance_ -> rdb -> rdb))) (s : rdb) : list rdb * rdb :=
  match tests with
  | [] => ([], s)
  | (ping, body) :: rest =>
      let '(s', ran) := run_test ping body s in
      let '(starts, s'') := run_tests rest s' in
      ((if ran then [s] else []) ++ starts, s'')
  end.

Definition no_keys (s : rdb) : Prop := rv_keys (view s) = ∅.

(** Tests do not see each other's keys: as long as FLUSHDB works, every test that runs, and
    whoever comes after the last, finds an empty database, whatever the tests do and
    whichever are skipped. *)
Theorem tests_isolated tests s :
  (forall s, no_keys (flush s).1) -> no_keys s -> Forall no_keys (run_tests tests s).1 /\ no_keys (run_tests tests s).2.
Proof.
  intros Hf. revert s. induction tests as [|[ping body] rest IH]; intros s Hs; cbn; [done|].
  assert (no_keys (run_test ping body s).1) as H1.
  { unfold run_test. destruct (testredis_Start getenv ping); [done|]. apply Hf. }
  destruct (run_test ping body s) as [s' ran]. destruct (IH s' H1) as [H2 H3].
  destruct (run_tests rest s') as [starts s'']. cbn in *. split; [|done]. destruct ran; [by constructor | done].
Qed.

(** A skipped test touches nothing. *)
Lemma skipped_untouched ping body s e : ping (testredis_addr getenv) = Some e -> run_test ping body s = (s, false).
Proof. intros Hp. unfold run_test, testredis_Start. by rewrite Hp. Qed.
End tests.

(** A failed FLUSHDB goes unnoticed: the next test finds what the last one left. *)
Example failed_flush_leaks :
  let put (_ : Instance_) (v : rview) := RView {["k" := VStr "x" None]} (rv_now v) in
  (run_tests (R:=ref_redis) (fun _ => "") (fun v => (v, Some ErrNet)) [(fun _ => None, put); (fun _ => None, put)] (RView ∅ 0)).1 =
  [RView ∅ 0; RView {["k" := VStr "x" None]} 0].
Proof. reflexivity. Qed.

Example start_ex :
  testredis_Start (fun _ => "") (fun _ => None) = Started (mkInstance "localhost:6379") /\
  testredis_Start (fun _ => "redis:1") (fun _ => Some (ErrMsg "refused")) =
    Skipped "redis unavailable at redis:1: refused (start with `docker compose up -d redis`)".
Proof. vm_compute. split; reflexivity. Qed.
