(* ===== verification/RedisUtilDemo.v ===== *)
(** * Runs of the tools' helpers

    A reference [SCAN] that walks the keyspace in two pages, for the witnesses of
    [RedisUtilProps]. *)

From S2P Require Import Prelude GoNum GoTime Errors Job GoJson Redis RefRedis Scripts QueueSpec.
From S2P Require Import QueueRep ScriptsOk QueueSteps Store JobCodec StoreOk Demo.
From S2P Require Import Sharded ShardedOk ShardedProps ShardedDemo Flags RedisUtil RedisUtilProps.
From Stdlib Require Import Ascii String.
From stdpp Require Import strings.

Open Scope Z_scope.
Open Scope se_scope.

(** ** A scanner *)

(** Patterns that end in a star. *)
Fixpoint unstar (s : string) : string :=
  match s with
  | "" | String _ "" => ""
  | String c r => String c (unstar r)
  end.

Lemma unstar_app p : unstar (p +:+ "*") = p.
Proof. induction p as [|c p IH]; [done|]. rewrite str_app_cons. simpl. rewrite IH. by destruct p. Qed.

Definition ref_glob (pattern k : string) : Prop := String.prefix (unstar pattern) k = true.
#[export] Instance ref_glob_dec pattern k : Decision (ref_glob pattern k).
Proof. unfold ref_glob. apply _. Defined.

(** The keys of even length are in page 0, the others in page 1. *)
Definition ref_page (c : N) (pattern : string) (v : rview) : list string :=
  filter (fun k => Nat.even (String.length k) = (c =? 0)%N /\ ref_glob pattern k)
    (map_to_list (rv_keys v)).*1.

Definition ref_SCAN (c : N) (pattern : string) (count : Z) : SE rview error (N * list string) := fun v =>
  (v, Ok ((if (c =? 0)%N then 1%N else 0%N), ref_page c pattern v)).

Definition ref_DEL (k : string) : SE rview error unit := fun v => (put_key k None v, Ok tt).

#[export] Instance ref_scanner : Scanner ref_redis := { SCAN := ref_SCAN; DEL := ref_DEL }.

Lemma ref_page_in c pattern (v : rview) k :
  is_Some (rv_keys v !! k) -> ref_glob pattern k -> Nat.even (String.length k) = (c =? 0)%N ->
  k ∈ ref_page c pattern v.
Proof.
  intros [x Hx] Hg He. apply list_elem_of_filter. split; [done|].
  apply list_elem_of_fmap. exists (k, x). split; [done|]. by apply elem_of_map_to_list.
Qed.

Lemma ref_run pattern tr c : scan_run (R:=ref_redis) pattern tr c ->
  (tr = [] /\ c = 0%N) \/
  (exists s, tr = [(s, ref_page 0 pattern s)] /\ c = 1%N) \/
  (exists s s', tr = [(s, ref_page 0 pattern s); (s', ref_page 1 pattern s')] /\ c = 0%N).
Proof.
  induction 1 as [|tr c s s' c' page Hrun IH Hc E]; [by left|].
  injection E as <- <- <-.
  destruct IH as [[-> ->]|[(s1 & -> & ->)|(s1 & s2 & -> & ->)]].
  - right. left. by exists s.
  - right. right. by exists s1, s.
  - by destruct Hc.
Qed.

#[export] Instance ref_scanner_laws : ScannerLaws ref_scanner ref_glob (fun _ => 2%nat).
Proof.
  split.
  - intros prefix k _. unfold ref_glob. rewrite unstar_app. apply prefix_under.
  - intros c pattern n s. eexists _, _. split; [reflexivity|]. split; [done|].
    apply Forall_forall. intros k Hk. by apply list_elem_of_filter in Hk as [[_ Hk] _].
  - intros pattern tr k Hrun Hne Hg Hall.
    destruct (ref_run _ _ _ Hrun) as [[-> _]|[(s & -> & [=])|(s & s' & -> & _)]]; [done|].
    inversion Hall as [|? ? H1 Hall']; subst. inversion Hall' as [|? ? H2 _]; subst.
    destruct (Nat.even (String.length k)) eqn:Ek.
    + apply Exists_cons_hd. simpl. by apply ref_page_in.
    + apply Exists_cons_tl, Exists_cons_hd. simpl. by apply ref_page_in.
  - intros pattern n tr c Hrun _.
    destruct (ref_run _ _ _ Hrun) as [[-> _]|[(s & -> & _)|(s & s' & -> & _)]]; simpl; lia.
  - intros k s. eexists _, _. split; reflexivity.
Qed.

(** ** Witnesses *)

Definition demo_target : Target := mkTarget "localhost:6379" "n1:7000,n2:7000" (-4).

Lemma Args_roundtrip_witness :
  exists t', flag_Parse RegisterFlags (Args demo_target) target_defaults = Ok (t', []) /\
    t' = mkTarget "localhost:6379" "n1:7000,n2:7000" 16 /\
    Open (C:=ref_client) t' "chaos:" 0 = Open (C:=ref_client) demo_target "chaos:" 0.
Proof. apply (Args_roundtrip (C:=ref_client) demo_target "chaos:" 0). vm_compute. by split. Defined.

(** Two partitions under "dtq:", the first with the jobs of [demo_q]. *)
Definition demo_two : Target := mkTarget "localhost:6379" "" 2.

Lemma demo_two_keys : target_keys demo_two "dtq:" 0 = keys_of demo_sharded.
Proof. reflexivity. Qed.

Lemma Open_prefix_witness :
  exists db' o cfgs, Open (C:=ref_client) demo_two "dtq:" 0 demo_before = (db', Ok (o, cfgs)) /\
    opened_keys o = keys_of demo_sharded /\ length cfgs = length (opened_keys o) /\
    keys_apart (opened_keys o) /\ holds (opened_keys o) db' demo_sqs /\
    Forall (keys_under "dtq:") (opened_keys o) /\
    forall k, ~ under "dtq:" k -> rv_keys db' !! k = rv_keys demo_before !! k.
Proof.
  apply (Open_prefix (R:=ref_redis) ref_client_reliable demo_two "dtq:" 0 demo_sqs demo_before).
  - discriminate.
  - rewrite demo_two_keys. unfold keys_of. simpl sh_parts. unfold demo_parts.
    apply Forall2_fmap_l, Forall2_fmap_l. exact demo_opens.
Defined.

(** A two-node cluster: the queue on one node, another tool's key on the other. *)
Definition demo_other : rview := put_str "other" "x" None (RView ∅ 60000).

Lemma DeletePrefix_clears_witness :
  exists nodes', DeletePrefix (R:=ref_redis) (C:=ref_client) 3 "dtq:" [demo_before; demo_other] = (nodes', Ok tt) /\
    Forall2 (cleared (R:=ref_redis) (glob:=ref_glob) "dtq:") [demo_before; demo_other] nodes'.
Proof.
  apply (DeletePrefix_clears (R:=ref_redis) (C:=ref_client) "dtq:" 10).
  - apply ref_client_reliable.
  - lia.
  - repeat constructor; vm_compute; lia.
Defined.

(** A negative number of partitions is shown as unsharded and opened as 16. *)
Example negative_partitions :
  let t := mkTarget "localhost:6379" "" (-1) in
  target_String t = "Redis at localhost:6379, unsharded" /\ length (target_keys t "x:" 0) = 16%nat.
Proof. split; reflexivity. Qed.
