(* ===== verification/LongPollProps.v ===== *)
(** * Guarantees of the long polls

    What the pollers lease, where the jobs go, when a waiting call wakes, how
    far the buffer grows and how [Close] ends, over every interleaving of
    [lstep], for any client and whatever other processes do to the queue. *)

From S2P Require Import Prelude GoNum GoTime Errors Job GoJson Redis RefRedis Scripts QueueSpec.
From S2P Require Import QueueRep ScriptsOk QueueSteps Store JobCodec StoreOk EnqueueOk ClaimOk.
From S2P Require Import Demo StoreRun Sharded ShardedOk ShardedProps ShardedBatch.
From S2P Require Import ShardedDemo LongPoll LongPollOk.
From stdpp Require Import strings.

Open Scope Z_scope.

(** ** The keyspace under a run *)

Section reads.
Context {R : Redis} {L : RedisLaws R} {C : Client R} {CL : ClientLaws C}.

(** A read that ends its block: what it returns is leased to the reader. *)
Lemma claimBlocking_read b q w limit stopped :
  keys_ok (K_of b) -> 0 < limit -> q_inv q ->
  wpc (K:=K_of b) (claimBlocking b w limit (fun s => s) stopped) q (fun r q' => reaches q q' /\
    match r with Ok jobs => handed_out w limit q' jobs | Err _ => True end).
Proof.
  intros HK Hlim Hinv. unfold claimBlocking.
  eapply (wpc_bind _ _ _ (fun x q' => exists r, x = Ok r /\ reaches q q' /\
    match r with
    | Ok o => held w q' (first_deliveries (default [] o)) /\ Z.of_nat (length (default [] o)) <= limit
    | Err e => net_error e
    end)); [|cbn beta|by intros e q' (r & [=] & _)].
  - eapply wpc_mono; [apply wpc_try, (wpc_call _ (fun q' => reaches q q') (fun o q' =>
      held w q' (first_deliveries (default [] o)) /\ Z.of_nat (length (default [] o)) <= limit))|].
    + reflexivity.
    + intros q1 Hr1. pose proof (reaches_inv _ _ Hr1 Hinv) as [Hwf1 _].
      eapply wpq_mono; [by apply (wpq_XREADGROUP HK)|]. cbn beta. intros o q' [-> Ho]. rewrite Ho.
      split_and!; [|by apply held_deliver | apply length_q_ready; lia].
      etrans; [exact Hr1|]. by eapply reaches_step, step_deliver.
    + cbn beta. intros x q' (r & -> & Hr & Hx). eauto.
  - intros x q1 (r & [= <-] & Hr1 & Hx). destruct x as [[es|]|e].
    + destruct Hx as [Hh Hlen]. eapply wpc_mono; [apply (parse_held_ok _ HK w _ _ limit Hh)|].
      { unfold first_deliveries. by rewrite length_fmap. }
      cbn beta. intros r q' (Hr' & -> & Hho). split; [by etrans | done].
    + apply wpc_ret. split; [done|]. split_and!; [done | constructor | simpl; lia].
    + destruct (negb stopped && isTimeout e); [|by apply wpc_throw].
      apply wpc_ret. split; [done|]. split_and!; [done | constructor | simpl; lia].
Qed.
End reads.

Section props.
Context {R : Redis} {L : RedisLaws R} {C : Client R} {CL : ClientLaws C}.
Context (go_order : list Z -> list Z) (go_perm : forall l, go_order l ≡ₚ l).
Context (outside : list Store * rdb -> list Store * rdb -> Prop).
Abbreviation lstep := (lstep go_order outside).
Abbreviation lsteps := (lsteps go_order outside).

(** Other processes and methods act on the queues of the partitions, by steps
    of those queues. *)
Record outside_ok : Prop := {
  out_keys ps db ps' db' : outside (ps, db) (ps', db') -> K_of <$> ps' = K_of <$> ps;
  out_queues ps db ps' db' qs : outside (ps, db) (ps', db') ->
    holds (K_of <$> ps) (view db) qs -> Forall q_inv qs ->
    exists qs', holds (K_of <$> ps) (view db') qs' /\ Forall2 reaches qs qs';
}.
Context (Hout : outside_ok).

(** The partitions hold well-formed queues. *)
Definition db_ok (l : lstate) : Prop :=
  keys_apart (keys_of (l_sh l)) /\
  exists qs, holds (keys_of (l_sh l)) (view (l_db l)) qs /\ Forall q_inv qs.

(** The arguments the pollers read with satisfy [Q]. *)
Definition args_all (Q : pollArgs -> Prop) (l : lstate) : Prop :=
  Forall (fun x => match x.2 with PReading args => Q args | _ => True end) (l_pollers l) /\
  (l_waiting l <> 0 -> Q (l_pollWith l)).

(** They ask for at least one job. *)
Definition args_pos : lstate -> Prop := args_all (fun args => 0 < pa_count args).

(** The arguments of a call. *)
Definition call_args (n : Z) (c : call) : pollArgs :=
  mkPollArgs (c_worker c) (poll_count (c_limit c) n) (c_wait c).

(** One poll: its jobs are leased to the worker it reads for, in partition [p]. *)
Lemma poll_leases s p st args stopped db qs :
  keys_apart (keys_of s) -> part_at s p = Some st -> 0 < pa_count args ->
  holds (keys_of s) (view db) qs -> Forall q_inv qs ->
  exists db' r qs', claimBlocking st (pa_worker args) (pa_count args) (fun s => s) stopped db = (db', r) /\
    holds (keys_of s) (view db') qs' /\ Forall q_inv qs' /\ Forall2 reaches qs qs' /\
    match r with
    | Ok got => Forall (leased_in qs' (pa_worker args)) (tag got p) /\ NoDup (slot <$> tag got p) /\
        Z.of_nat (length got) <= pa_count args
    | Err _ => True
    end.
Proof.
  intros Hapart Hst Hpos Hh Hinv. pose proof (part_keys_good s Hapart p st Hst) as HK.
  destruct (part_queue s qs _ p st Hh Hinv Hst) as (q & Hq & Hqi).
  destruct (wps_part _ Hapart _ qs _ _ q _ (keys_of_part _ _ _ Hst) Hq
    (claimBlocking_read st q (pa_worker args) (pa_count args) stopped HK Hpos Hqi) db Hh)
    as (db' & r & ? & E & Hh' & q' & -> & Hr & Hpost).
  assert (Forall2 reaches qs (<[Z.to_nat p := q']> qs)) as Hrs by (by eapply Forall2_reaches_insert).
  exists db', r, (<[Z.to_nat p := q']> qs). split_and!; try done.
  - by eapply Forall_inv_reaches.
  - destruct r as [got|]; [|done]. apply part_at_Some in Hst as [Hp _].
    assert (swept [p] (pa_worker args) qs (<[Z.to_nat p := q']> qs) (tag got p)) as Hsw.
    { eapply swept_one; [lia | by left | done..]. }
    split_and!; [apply Hsw | apply Hsw | apply Hpost].
Qed.

Lemma sweep_next_db c i start now jobs s db db' got next qs :
  keys_apart (keys_of s) -> holds (keys_of s) (view db) qs -> Forall q_inv qs ->
  sweep_next c i start now jobs s db = (db', (got, next)) ->
  exists qs', holds (keys_of s) (view db') qs' /\ Forall2 reaches qs qs' /\
    Forall (leased_in qs' (c_worker c)) got /\ NoDup (slot <$> got).
Proof.
  intros Hapart Hh Hinv. unfold sweep_next.
  destruct ((nparts s <=? i) || (c_limit c <=? Z.of_nat (length jobs))) eqn:Eg.
  { intros [= <- <- <-]. exists qs. split_and!; [done | reflexivity | constructor..]. }
  apply orb_false_iff in Eg as [_ Eg%Z.leb_gt].
  destruct (part_at s (sweep_part s start i)) as [st|] eqn:Hst.
  2: { intros [= <- <- <-]. exists qs. split_and!; [done | reflexivity | constructor..]. }
  set (p := sweep_part s start i) in *.
  assert (0 <= p < nparts s) as Hp by (apply part_at_Some in Hst; tauto).
  destruct (claim_part s Hapart p (c_worker c) (c_limit c - Z.of_nat (length jobs)) now qs db)
    as (st' & q & db1 & r & q' & Hst' & Hq & _ & _ & _ & E & Hh1 & _ & Hr & Hpost); [lia | lia | done..|].
  assert (st' = st) as -> by congruence. rewrite E.
  destruct r as [got'|e]; intros [= <- <- <-]; eexists; (split; [exact Hh1|]).
  - assert (swept [p] (c_worker c) qs (<[Z.to_nat p := q']> qs) (tag got' p)) as Hsw.
    { eapply swept_one; [lia | by left | done..]. }
    split_and!; apply Hsw.
  - split_and!; [exact (Forall2_reaches_insert _ _ _ _ Hq Hr) | constructor..].
Qed.

Lemma renew_db s jobs db qs :
  keys_apart (keys_of s) -> holds (keys_of s) (view db) qs -> Forall q_inv qs ->
  exists qs', holds (keys_of s) (view (perPartition go_order s jobs ExtendBatch db).1) qs' /\
    Forall2 reaches qs qs'.
Proof.
  intros Hapart Hh Hinv.
  destruct (perPartition_spec go_order go_perm s jobs ExtendBatch
    (fun db => exists qs', holds (keys_of s) (view db) qs' /\ Forall2 reaches qs qs')
    (fun _ _ => True) length_ExtendBatch) with (db := db)
    as (db' & errs & E & Hpost & _); [|exists qs; split; [done | reflexivity]|by rewrite E].
  intros p st db0 Hst (qs1 & Hh1 & Hr1). split; [|done].
  pose proof (Forall_inv_reaches _ _ Hinv Hr1) as Hinv1.
  pose proof (part_keys_good s Hapart p st Hst) as HK. pose proof (keys_of_part _ _ _ Hst) as HKp.
  destruct (holds_lookup _ _ _ _ _ Hh1 HKp) as (q & Hq & Hrep).
  destruct (ExtendBatch_reaches st HK (batch_of s jobs p) q db0) as (q' & Hrep' & Hr & Hf);
    [by eapply Forall_lookup_1 | done|].
  exists (<[Z.to_nat p := q']> qs1). split; [by eapply holds_update|].
  eapply Forall2_reaches_trans; [exact Hr1|]. by eapply Forall2_reaches_insert.
Qed.

Lemma db_ok_mono l s' db' :
  db_ok l -> keys_of s' = keys_of (l_sh l) ->
  (forall qs, holds (keys_of (l_sh l)) (view (l_db l)) qs -> Forall q_inv qs ->
     exists qs', holds (keys_of (l_sh l)) (view db') qs' /\ Forall2 reaches qs qs') ->
  keys_apart (keys_of s') /\ exists qs, holds (keys_of s') (view db') qs /\ Forall q_inv qs.
Proof.
  intros (Hapart & qs & Hh & Hinv) -> Hstep. split; [done|].
  destruct (Hstep qs Hh Hinv) as (qs' & Hh' & Hr). exists qs'. split; [done|].
  by eapply Forall_inv_reaches.
Qed.

Lemma poll_count_pos limit n : 0 < poll_count limit n.
Proof. unfold poll_count. lia. Qed.

Lemma args_move ps1 p pc pc' ps2 (Q : Z * poller -> Prop) :
  Q (p, pc') -> Forall Q (ps1 ++ (p, pc) :: ps2) -> Forall Q (ps1 ++ (p, pc') :: ps2).
Proof. rewrite !Forall_app, !Forall_cons. tauto. Qed.

Lemma step_args Q l a l' :
  (forall c pc, (c, pc) ∈ l_calls l -> Q (call_args (nparts (l_sh l)) c)) ->
  lstep l a l' -> linv l -> args_all Q l -> args_all Q l'.
Proof.
  intros HQ H Hinv [Ha Hw]. pose proof (li_waiting _ Hinv) as Hwait.
  destruct H; (split; lsimpl); try done;
    try match goal with H : wait_enter _ _ = Some _ |- _ => apply wait_enter_Some in H as [_ ->]; lsimpl end;
    repeat match goal with H : l_pollers _ = _ ++ _ |- _ => rewrite H in *; clear H end;
    try (by eapply args_move; [|exact Ha]); try (by eapply range_gone).
  - apply Forall_app. split; [done|]. by apply Forall_fmap, Forall_true.
  - intros _. eapply HQ. rewrite H. apply elem_of_app. right. by left.
  - intros Hne. apply Hw. rewrite H, waiters_app, waiters_cons in Hwait. simpl in Hwait. lia.
  - eapply args_move; [|exact Ha]. simpl. unfold poll_top in H0.
    destruct (Z.eqb_spec (l_waiting l) 0); [done|]. destruct (polls_stopped _); [done|].
    injection H0 as <-. auto.
  - eapply args_move; [|exact Ha]. destruct r as [[|]|]; simpl; try done. by destruct (polls_stopped _).
Qed.

Lemma step_keys l a l' : lstep l a l' -> keys_of (l_sh l') = keys_of (l_sh l).
Proof.
  intros H. destruct H; lsimpl; try done;
    try match goal with H : wait_enter _ _ = Some _ |- _ => apply wait_enter_Some in H as [_ ->]; lsimpl end;
    try match goal with H : takeBuffered _ _ = _ |- _ => apply takeBuffered_split in H as (_ & E & _) end;
    unfold keys_of; simpl; rewrite ?E; try done.
  by eapply (out_keys Hout).
Qed.

Lemma step_db l a l' : lstep l a l' -> linv l -> args_pos l -> db_ok l -> db_ok l'.
Proof.
  intros H Hinv [Ha _] Hdb. pose proof (step_keys _ _ _ H) as Hk. pose proof Hdb as (Hapart & _).
  destruct H; unfold db_ok; try (apply (db_ok_mono l); [done | exact Hk |]; lsimpl);
    try (by intros qs Hh Hi; exists qs; split; [|reflexivity]);
    try match goal with H : wait_enter _ _ = Some _ |- _ => apply wait_enter_Some in H as [_ ->]; lsimpl end;
    try (by intros qs Hh Hi; exists qs; split; [|reflexivity]);
    intros qs Hh Hi.
  - destruct (sweep_next_db _ _ _ _ _ _ _ _ _ _ _ Hapart Hh Hi H0) as (qs' & ? & ? & _). eauto.
  - destruct (sweep_next_db _ _ _ _ _ _ _ _ _ _ _ Hapart Hh Hi H0) as (qs' & ? & ? & _). eauto.
  - rewrite H in Ha. apply Forall_app in Ha as [_ [Hpos _]%Forall_cons].
    destruct (poll_leases _ p st args (polls_stopped (l_close l)) (l_db l) qs Hapart H0 Hpos Hh Hi)
      as (db2 & r2 & qs' & E & Hh' & _ & Hr & _). rewrite H1 in E. injection E as <- <-. eauto.
  - destruct (renew_db (l_sh l) (jobs ++ buffered) (l_db l) qs Hapart Hh Hi) as (qs' & Hh' & Hr).
    rewrite H0 in Hh'. eauto.
  - by eapply (out_queues Hout).
Qed.

(** All of it together. *)
Record sys_ok (l : lstate) : Prop := {
  so_linv : linv l;
  so_args : args_pos l;
  so_db : db_ok l;
}.

Lemma step_sys l a l' : lstep l a l' -> sys_ok l -> sys_ok l'.
Proof.
  intros H [H1 H2 H3]. split; [by eapply step_linv; [apply (out_keys Hout)|..] | | by eapply step_db].
  eapply step_args; [|done..]. intros c pc _. apply poll_count_pos.
Qed.
Lemma run_sys P l tr l' : lsteps P l tr l' -> sys_ok l -> sys_ok l'.
Proof. induction 1; [done|]. eauto using step_sys. Qed.

Lemma sys_new s db qs :
  keys_apart (keys_of s) -> holds (keys_of s) (view db) qs -> Forall q_inv qs -> sys_ok (l_new s db).
Proof.
  intros Ha Hh Hi. split; [apply linv_new | | split; [done | by exists qs]]. by split; [constructor|].
Qed.

(** ** Leases *)

(** Every call of the run is [w]'s: one [Sharded] per worker. *)
Definition by_worker (w : string) (l : lstate) : Prop := Forall (fun x => c_worker x.1 = w) (l_calls l).

Lemma step_leases w l a l' :
  by_worker w l -> args_all (fun args => pa_worker args = w) l -> sys_ok l -> lstep l a l' ->
  exists qs', holds (keys_of (l_sh l)) (view (l_db l')) qs' /\ Forall q_inv qs' /\
    Forall (leased_in qs' w) (leased a) /\ NoDup (slot <$> leased a).
Proof.
  intros Hby [Hargs _] Hsys H. pose proof (step_sys _ _ _ H Hsys) as [_ _ (_ & qs1 & Hh1 & Hi1)].
  pose proof (step_keys _ _ _ H) as Hk. rewrite Hk in Hh1.
  destruct Hsys as [_ [Hpos _] (Hapart & qs & Hh & Hi)].
  destruct H; cbn [leased];
    try (exists qs1; split_and!; [exact Hh1 | done | constructor..]); clear qs1 Hh1 Hi1.
  - destruct (sweep_next_db _ _ _ _ _ _ _ _ _ _ _ Hapart Hh Hi H0) as (qs' & ? & Hr & ? & ?).
    exists qs'. assert (c_worker c = w) as <-.
    { unfold by_worker in Hby. rewrite H in Hby. by apply Forall_app in Hby as [_ [? _]%Forall_cons]. }
    split_and!; [done | by eapply Forall_inv_reaches | done | done].
  - rewrite H in Hpos, Hargs. apply Forall_app in Hpos as [_ [Hp _]%Forall_cons].
    apply Forall_app in Hargs as [_ [Hw _]%Forall_cons]. simpl in Hp, Hw. subst w.
    destruct (poll_leases _ p st args (polls_stopped (l_close l)) (l_db l) qs Hapart H0 Hp Hh Hi)
      as (db2 & r2 & qs' & E & Hh' & Hi' & _ & Hpost). rewrite H1 in E. injection E as <- <-.
    exists qs'. destruct r; [|split_and!; [done | done | constructor..]].
    destruct Hpost as (? & ? & _). by split_and!.
Qed.

Lemma run_leases w l tr l' :
  lsteps (by_worker w) l tr l' -> by_worker w l ->
  args_all (fun args => pa_worker args = w) l -> sys_ok l ->
  by_worker w l' /\ args_all (fun args => pa_worker args = w) l' /\ sys_ok l' /\
  keys_of (l_sh l') = keys_of (l_sh l).
Proof.
  induction 1 as [l|l1 a l2 tr l3 Hs Hp _ IH]; intros Hby Ha Hsys; [done|].
  destruct IH as (? & ? & ? & E); [done | | by eapply step_sys|].
  - eapply step_args; [|done | apply Hsys | done]. intros c pc Hc.
    unfold by_worker in Hby. rewrite Forall_forall in Hby. exact (Hby _ Hc).
  - split_and!; [done..|]. by rewrite E, (step_keys _ _ _ Hs).
Qed.

(** C31: every job a sweep or a long poll brings in is leased to the worker: in
    any interleaving of its claims, heartbeats, pollers and [Close], over a client
    that may repeat requests and lose replies, and whatever other processes do,
    the step that leases jobs leaves them pending for this worker in the queue of
    the partition their lease names, each delivery once. *)
Theorem longpoll_leases s db qs w tr l a l' :
  keys_apart (keys_of s) -> holds (keys_of s) (view db) qs -> Forall q_inv qs ->
  lsteps (by_worker w) (l_new s db) tr l -> lstep l a l' ->
  exists qs', holds (keys_of s) (view (l_db l')) qs' /\ Forall q_inv qs' /\
    Forall (leased_in qs' w) (leased a) /\ NoDup (slot <$> leased a).
Proof.
  intros Hapart Hh Hi Hrun Hs.
  destruct (run_leases w _ _ _ Hrun) as (Hby & Ha & Hsys & Hk);
    [by constructor | by split; [constructor|] | by eapply sys_new|].
  destruct (step_leases w _ _ _ Hby Ha Hsys Hs) as (qs' & Hh' & H). rewrite Hk in Hh'. eauto.
Qed.

(** C32: no job gets lost or doubled on its way from the partitions to the
    callers: at any moment of any run, the jobs leased so far, by sweeps and long
    polls, are exactly those returned to a caller of [Claim], those dropped
    because their lease was found lost, and those still held (buffered, with a
    poller, or with a call under way), each one once. *)
Theorem longpoll_conserves s db P tr l :
  sh_buffered s = [] -> lsteps P (l_new s db) tr l ->
  tr ≫= leased ≡ₚ held_jobs l ++ (tr ≫= handed) ++ (tr ≫= dropped).
Proof.
  intros Hs Hrun. apply run_conserves in Hrun. unfold held_jobs in Hrun at 1. simpl in Hrun.
  by rewrite Hs in Hrun.
Qed.

(** One poller per partition: in every reachable state, partition [p] has
    exactly one goroutine in its read loop if [polling[p]] is set and none
    otherwise, every poller's partition exists, and [waiting] is the number of
    calls inside [waitForJobs]. *)
Theorem one_poller s db P tr l :
  lsteps P (l_new s db) tr l ->
  length (l_polling l) = length (sh_parts s) /\
  (forall p b, l_polling l !! p = Some b -> actives (Z.of_nat p) (l_pollers l) = Nat.b2n b) /\
  Forall (fun x => is_Some (part_at (l_sh l) x.1)) (l_pollers l) /\
  l_waiting l = Z.of_nat (waiters (l_calls l)).
Proof.
  intros Hrun. assert (keys_of (l_sh l) = keys_of s) as Hk.
  { remember (l_new s db) as l0 eqn:E0. assert (keys_of (l_sh l0) = keys_of s) as <- by (by subst).
    clear E0. induction Hrun as [|l1 a l2 tr l3 Hs _ _ IH]; [done|]. by rewrite IH, (step_keys _ _ _ Hs). }
  apply run_linv in Hrun as [Hlen Hw Ha Hr]; [|apply (out_keys Hout) | apply linv_new].
  split_and!; [|done| |done].
  - rewrite Hlen. apply (f_equal length) in Hk. unfold keys_of in Hk. by rewrite !length_fmap in Hk.
  - eapply Forall_impl; [exact Hr|]. intros x Hx. by destruct (part_at_range _ _ Hx) as [st ->].
Qed.

(** One call at a time. *)
Definition lone (m : lstate) : Prop := (length (l_calls m) <= 1)%nat.

(** Receiving the signal, taking the jobs and leaving. *)
Lemma wake_run l c :
  l_calls l = [(c, CSelect)] -> 0 < c_limit c -> sh_buffered (l_sh l) <> [] -> l_arrived l = true ->
  exists l', lsteps lone l
    [LTau; LTau; LReturned c (take (Z.to_nat (c_limit c)) (sh_buffered (l_sh l))) None] l' /\ l_calls l' = [].
Proof.
  intros Hcs Hlim Hbuf Harr. set (jobs := take _ _).
  destruct (takeBuffered (l_sh l) (c_limit c)) as [s' js] eqn:Et.
  assert (js = jobs) as ->.
  { unfold takeBuffered in Et. injection Et as _ <-. unfold jobs.
    destruct (Z.min_spec (c_limit c) (Z.of_nat (length (sh_buffered (l_sh l))))) as [[? ->]|[? ->]]; [done|].
    rewrite Nat2Z.id, !take_ge by lia. done. }
  assert ((0 <? length jobs)%nat = true) as Hne.
  { apply Nat.ltb_lt. destruct jobs eqn:Ej; [|simpl; lia]. exfalso.
    apply takeBuffered_split in Et as (_ & _ & _ & _ & Hnil). by apply Hbuf, Hnil. }
  set (l1 := set_calls (set_arrived l false) [(c, CWoken)]).
  set (l2 := set_calls (set_sh l1 s') [(c, CLeave jobs)]).
  set (l3 := set_calls (set_waiting l2 (l_waiting l2 - 1)) []).
  assert (lone l1 /\ lone l2 /\ lone l3) as (Hl1 & Hl2 & Hl3) by (unfold lone; simpl; lia).
  exists l3. split; [|done]. apply (lsteps_step _ _ _ _ _ l1); [by apply (ls_receive _ _ l c [] []) | done|].
  apply (lsteps_step _ _ _ _ _ l2); [|done|].
  - pose proof (ls_woken go_order outside l1 c [] [] s' jobs eq_refl Et) as H. by rewrite Hne in H.
  - apply (lsteps_step _ _ _ _ _ l3); [by apply (ls_leave _ _ l2 c [] []) | done | constructor].
Qed.

(** C33: no wake-up is lost: when a worker makes one [Claim] at a time, a call
    that waits in the select while jobs are buffered is woken by them. At most
    three internal steps, none of them the end of a wait by a timer, the context
    or [Close] and none a new call (a poller finishing its signal, receiving it,
    taking the jobs), lead to the return of that very call with the oldest jobs,
    up to its limit. *)
Theorem no_lost_wakeup s db tr l c :
  sh_buffered s = [] ->
  lsteps (fun m => (length (l_calls m) <= 1)%nat) (l_new s db) tr l ->
  l_calls l = [(c, CSelect)] -> 0 < c_limit c -> sh_buffered (l_sh l) <> [] ->
  exists pre l', lsteps (fun m => (length (l_calls m) <= 1)%nat) l
      (pre ++ [LReturned c (take (Z.to_nat (c_limit c)) (sh_buffered (l_sh l))) None]) l' /\
    (length pre <= 3)%nat /\ Forall (eq LTau) pre /\ l_calls l' = [].
Proof.
  intros Hs Hrun Hcs Hlim Hbuf.
  assert (wake_ok l) as Hw.
  { eapply run_wake; [| exact Hrun | simpl; lia | by intros ? ? [=]]. done. }
  destruct (Hw c CSelect Hcs Hlim eq_refl Hbuf) as [Harr|[p Hp]].
  - destruct (wake_run l c Hcs Hlim Hbuf Harr) as (l' & Hrun' & Hl'). exists [LTau; LTau], l'.
    split_and!; [done | simpl; lia | repeat constructor | done].
  - apply list_elem_of_split in Hp as (ps1 & ps2 & Hps).
    set (l1 := set_pollers (set_arrived l true) (ps1 ++ ps2)).
    destruct (wake_run l1 c Hcs Hlim Hbuf eq_refl) as (l' & Hrun' & Hl'). exists [LTau; LTau; LTau], l'.
    split_and!; [|simpl; lia | repeat constructor | done].
    apply (lsteps_step _ _ _ _ _ l1); [by eapply lp_signal | unfold l1; simpl; by rewrite Hcs | exact Hrun'].
Qed.

(** C34: [Close] ends: once it has cancelled the polls, no step of anyone starts
    a poller again and every step a poller takes brings it closer to its end, so
    the wait for them is over after at most [all_left l] poller steps (three per
    poller at worst); from then on there are none. *)
Theorem Close_ends s db P tr l :
  lsteps P (l_new s db) tr l -> polls_stopped (l_close l) = true ->
  (forall a l', lstep l a l' -> polls_stopped (l_close l') = true /\
     (l_pollers l' = l_pollers l \/ (all_left l' < all_left l)%nat)) /\
  (exists tr' l', lsteps (fun _ => True) l tr' l' /\ l_pollers l' = [] /\ (length tr' <= all_left l)%nat) /\
  (all_left l <= 3 * length (l_pollers l))%nat.
Proof.
  intros Hrun Hk. apply run_linv in Hrun as Hinv; [|apply (out_keys Hout) | apply linv_new].
  split_and!.
  - intros a l' Hs. by eapply step_closes.
  - by apply (pollers_end _ _ (out_keys Hout)).
  - unfold all_left. clear. induction (l_pollers l) as [|[p pc] ps IH]; [done|].
    rewrite fmap_cons. unfold list_sum in *. cbn [foldr length snd].
    assert (steps_left pc <= 3)%nat by (destruct pc; simpl; lia). lia.
Qed.

(** ** The size of the buffer *)

Definition total_active (ps : list (Z * poller)) : nat :=
  length (filter (fun x => active x.2 = true) ps).

Lemma total_app l1 l2 : total_active (l1 ++ l2) = (total_active l1 + total_active l2)%nat.
Proof. unfold total_active. by rewrite filter_app, length_app. Qed.
Lemma total_cons x l : total_active (x :: l) = (Nat.b2n (active x.2) + total_active l)%nat.
Proof.
  unfold total_active. destruct (active x.2) eqn:E.
  - by rewrite filter_cons_True.
  - rewrite filter_cons_False; [done|]. by rewrite E.
Qed.

Lemma NoDup_actives ps : (forall p, (actives p ps <= 1)%nat) ->
  NoDup (fst <$> filter (fun x => active x.2 = true) ps).
Proof.
  induction ps as [|[p pc] ps IH]; intros Hone; [constructor|].
  assert (NoDup (fst <$> filter (fun x => active x.2 = true) ps)) as Hnd.
  { apply IH. intros p'. specialize (Hone p'). rewrite actives_cons in Hone. lia. }
  destruct (active pc) eqn:E.
  - rewrite filter_cons_True by done. apply NoDup_cons. split; [|done].
    intros (x & Hx & Hin)%list_elem_of_fmap. specialize (Hone p).
    rewrite actives_cons in Hone. simpl in Hone, Hx. rewrite decide_True in Hone by done.
    assert (actives p ps = 0%nat) as H0 by lia. unfold actives in H0. apply nil_length_inv in H0.
    apply list_elem_of_filter in Hin as [Hin1 Hin2].
    eapply not_elem_of_nil. rewrite <- H0. apply list_elem_of_filter. by split; [split|].
  - rewrite filter_cons_False; [done|]. simpl. by rewrite E.
Qed.

(** At most one active poller per partition. *)
Lemma total_bound l : linv l -> Z.of_nat (total_active (l_pollers l)) <= nparts (l_sh l).
Proof.
  intros Hinv. pose proof (li_range _ Hinv) as Hr. rewrite Forall_forall in Hr.
  set (ids := fst <$> filter (fun x => active x.2 = true) (l_pollers l)).
  assert (forall p, p ∈ ids -> 0 <= p < nparts (l_sh l)) as Hin.
  { intros p (x & -> & Hx)%list_elem_of_fmap. apply list_elem_of_filter in Hx as [_ Hx]. by apply Hr. }
  assert (NoDup ids) as Hnd.
  { apply NoDup_actives. intros p. destruct (decide (0 <= p < nparts (l_sh l))) as [Hp|Hp].
    - destruct (lookup_lt_is_Some_2 (l_polling l) (Z.to_nat p)) as [b Hb].
      { rewrite (li_polling _ Hinv). unfold nparts in Hp. lia. }
      pose proof (li_active _ Hinv _ _ Hb) as E. rewrite Z2Nat.id in E by lia. rewrite E.
      destruct b; simpl; lia.
    - assert (actives p (l_pollers l) = 0%nat) as ->; [|lia]. unfold actives.
      apply length_zero_iff_nil, elem_of_nil_inv. intros x Hx.
      apply list_elem_of_filter in Hx as [[<- _] Hx]. by apply Hp, Hr. }
  assert (length ids <= length (sh_parts (l_sh l)))%nat as Hle.
  { rewrite <- (length_seq (length (sh_parts (l_sh l))) 0), <- (length_fmap Z.of_nat).
    apply submseteq_length, NoDup_submseteq; [done|]. intros p Hp%Hin. unfold nparts in Hp.
    apply list_elem_of_fmap. exists (Z.to_nat p). rewrite elem_of_seq. lia. }
  unfold ids in Hle. rewrite length_fmap in Hle. fold (total_active (l_pollers l)) in Hle.
  unfold nparts. lia.
Qed.

Definition buffered_len (l : lstate) : Z := Z.of_nat (length (sh_buffered (l_sh l))).

(** Sweeping, or about to wait, with nothing in hand. *)
Definition searching (x : caller) : bool := match x with CSweep _ _ [] | CEnter => true | _ => false end.

(** What the pollers may still bring in counts in full. *)
Record bound_inv (m : Z) (l : lstate) : Prop := {
  bi_args : args_all (fun args => pa_count args <= m) l;
  bi_got : Forall (fun x => match x.2 with PGot got => Z.of_nat (length got) <= m | _ => True end) (l_pollers l);
  bi_all : buffered_len l + Z.of_nat (total_active (l_pollers l)) * m <= 2 * nparts (l_sh l) * m;
  bi_search c pc : l_calls l = [(c, pc)] -> searching pc = true ->
    buffered_len l + Z.of_nat (total_active (l_pollers l)) * m <= nparts (l_sh l) * m;
}.

(** One call at a time, with a limit up to [lmax]. *)
Definition one_call (lmax : Z) (l : lstate) : Prop :=
  (length (l_calls l) <= 1)%nat /\ Forall (fun x => 0 < c_limit x.1 <= lmax) (l_calls l).

Lemma poll_count_mono limit lmax n :
  0 < limit <= lmax -> 0 <= n -> lmax + n <= max_int64 -> poll_count limit n <= poll_count lmax n.
Proof.
  intros Hl Hn Hmax. unfold poll_count. unfold max_int64 in *.
  rewrite !(wrap64_id (_ + n)), !(wrap64_id (_ + n - 1)) by (unfold int64_ok, min_int64, max_int64; lia).
  destruct (Z.eq_dec n 0) as [->|]; [by rewrite !Z.quot_0_r_ext|].
  pose proof (Z.quot_le_mono (limit + n - 1) (lmax + n - 1) n). lia.
Qed.

Lemma poll_count_total lmax n :
  0 < lmax -> 0 < n -> lmax + n <= max_int64 -> n * poll_count lmax n <= lmax + n - 1.
Proof.
  intros Hl Hn Hmax. unfold poll_count. unfold max_int64 in *.
  rewrite !(wrap64_id (_ + n)), !(wrap64_id (_ + n - 1)) by (unfold int64_ok, min_int64, max_int64; lia).
  rewrite Z.quot_div_nonneg by lia. pose proof (Z.mul_div_le (lmax + n - 1) n). nia.
Qed.

Lemma keys_nparts s s' : keys_of s' = keys_of s -> nparts s' = nparts s.
Proof. intros H%(f_equal length). unfold keys_of in H. rewrite !length_fmap in H. unfold nparts. lia. Qed.

Lemma step_got m l a l' :
  sys_ok l -> bound_inv m l -> lstep l a l' ->
  Forall (fun x => match x.2 with PGot got => Z.of_nat (length got) <= m | _ => True end) (l_pollers l').
Proof.
  intros Hsys [[Ha _] Hgot _ _] H. destruct Hsys as [_ [Hpos _] (Hapart & qs & Hh & Hi)].
  destruct H; lsimpl; try done;
    try match goal with H : wait_enter _ _ = Some _ |- _ => apply wait_enter_Some in H as [_ ->]; lsimpl end;
    try match goal with H : l_pollers _ = _ ++ _ |- _ => rewrite H in Hgot, Ha, Hpos end;
    try (by eapply args_move; [|exact Hgot]); try (by eapply range_gone).
  - apply Forall_app. split; [done|]. by apply Forall_fmap, Forall_true.
  - eapply args_move; [|exact Hgot]. apply Forall_app in Ha as [_ [Hm _]%Forall_cons].
    apply Forall_app in Hpos as [_ [Hp _]%Forall_cons]. simpl in *.
    destruct (poll_leases _ p st args (polls_stopped (l_close l)) (l_db l) qs Hapart H0 Hp Hh Hi)
      as (db2 & r2 & qs' & E & _ & _ & _ & Hpost). rewrite H1 in E. injection E as <- <-.
    destruct r as [[|]|]; simpl; try done; [|by destruct (polls_stopped _)].
    destruct Hpost as (_ & _ & Hlen). simpl in Hlen. lia.
Qed.

(** The jobs buffered and still to come from the pollers. *)
Definition load (m : Z) (l : lstate) : Z :=
  buffered_len l + Z.of_nat (total_active (l_pollers l)) * m.

(** Only entering [waitForJobs] raises the load. *)
Lemma step_load m l a l' :
  0 < m -> bound_inv m l -> lstep l a l' ->
  load m l' <= load m l \/
  (exists c cs1 cs2, l_calls l = cs1 ++ (c, CEnter) :: cs2 /\ buffered_len l' = buffered_len l /\
     l_calls l' = cs1 ++ (c, CSelect) :: cs2).
Proof.
  intros Hm [_ Hgot _ _] H. unfold load, buffered_len.
  destruct H; lsimpl; try (left; lia);
    try match goal with H : takeBuffered _ _ = _ |- _ =>
      apply takeBuffered_split in H as (E & _); left; rewrite E, length_app; lia end;
    try match goal with H : wait_enter _ _ = Some _ |- _ =>
      apply wait_enter_Some in H as [_ ->]; lsimpl; right; eauto 10 end;
    left; try match goal with H : l_pollers _ = _ ++ _ |- _ => rewrite H in *; clear H end;
    rewrite ?total_app, ?total_cons; cbn [snd]; rewrite ?poll_next_active; simpl; try lia.
  - apply Forall_app in Hgot as [_ [Hg _]%Forall_cons]. simpl in Hg.
    rewrite length_app. unfold tag. rewrite length_fmap. lia.
  - pose proof (length_filter (fun j => JLease j ∉ lost) (sh_buffered (l_sh l))). lia.
Qed.

(** A call that starts searching has emptied the buffer; before that it was
    searching already. *)
Lemma step_search l a l' c pc :
  lstep l a l' -> (length (l_calls l) <= 1)%nat -> l_calls l' = [(c, pc)] -> searching pc = true ->
  0 < c_limit c ->
  buffered_len l' = 0 \/ (exists pc0, l_calls l = [(c, pc0)] /\ searching pc0 = true).
Proof.
  intros H Hone Hcs Hs Hlim. unfold buffered_len.
  assert (forall cs1 x cs2, l_calls l = cs1 ++ x :: cs2 -> cs1 ++ cs2 = [(c, pc)] -> False) as Hno.
  { intros cs1 x cs2 E E'. apply (f_equal length) in E'. rewrite E in Hone.
    rewrite !length_app in *. simpl in *. lia. }
  destruct H; lsimpl; try (right; by eauto);
    try (apply singleton_mid in Hcs as (-> & -> & [= -> Hpc]); rewrite <- Hpc in *; cbn [searching] in * );
    try done; try (exfalso; by eapply Hno).
  - apply singleton_mid in Hcs as (_ & _ & [= -> <-]). done.
  - left. apply takeBuffered_split in H0 as (E & _ & _ & _ & Hnil). destruct jobs; [|done].
    rewrite (Hnil Hlim eq_refl) in E. simpl in E. by rewrite <- E.
  - right. rewrite H. eexists. split; [done|].
    apply sweep_next_jobs in H0 as [_ [(i' & st' & ->)|(-> & -> & _)]]; [|done]. by destruct jobs.
  - destruct (0 <? length jobs)%nat; done.
Qed.

Lemma step_bound m lmax l a l' :
  0 < m -> 0 <= nparts (l_sh l) -> lmax + nparts (l_sh l) <= max_int64 ->
  m = poll_count lmax (nparts (l_sh l)) ->
  one_call lmax l -> one_call lmax l' -> sys_ok l -> lstep l a l' -> bound_inv m l -> bound_inv m l'.
Proof.
  intros Hm Hn Hmax Em [Hone Hlims] [Hone' Hlims'] Hsys Hs Hb.
  pose proof (step_sys _ _ _ Hs Hsys) as Hsys'. pose proof (keys_nparts _ _ (step_keys _ _ _ Hs)) as Hnp.
  pose proof (total_bound _ (so_linv _ Hsys')) as Htot. rewrite Hnp in Htot.
  pose proof (step_load m _ _ _ Hm Hb Hs) as Hload. unfold load in Hload.
  split.
  - eapply step_args; [|done | apply Hsys | apply Hb]. intros c pc Hc. rewrite Forall_forall in Hlims.
    specialize (Hlims _ Hc). simpl in *. subst m. by apply poll_count_mono.
  - exact (step_got m l a l' Hsys Hb Hs).
  - rewrite Hnp. destruct Hload as [Hle|(c & cs1 & cs2 & Hcs & Hbuf & _)].
    + pose proof (bi_all _ _ Hb). lia.
    + assert (l_calls l = [(c, CEnter)]) as Hcs1.
      { rewrite Hcs in Hone |- *. rewrite length_app in Hone. simpl in Hone.
        destruct cs1, cs2; simpl in *; try lia. done. }
      pose proof (bi_search _ _ Hb c CEnter Hcs1 eq_refl). nia.
  - intros c pc Hcs Hpc. rewrite Hnp.
    assert (0 < c_limit c) as Hlim by (rewrite Hcs in Hlims'; apply Forall_cons in Hlims' as [? _]; simpl in *; lia).
    destruct (step_search _ _ _ c pc Hs Hone Hcs Hpc Hlim) as [H0|(pc0 & Hc0 & Hs0)]; [nia|].
    pose proof (bi_search _ _ Hb c pc0 Hc0 Hs0) as Hold.
    destruct Hload as [Hle|(c' & cs1 & cs2 & _ & _ & Hcs')]; [lia|].
    rewrite Hcs' in Hcs. apply singleton_mid in Hcs as (_ & _ & [= _ <-]). done.
Qed.

(** C35: the buffer stays small: while a worker makes one [Claim] at a time
    with limits up to [lmax], the long polls never leave more than twice
    [lmax + partitions - 1] jobs in the buffer (a full round of polls may come in
    while the previous one is still undelivered). *)
Theorem buffer_bound s db qs lmax tr l :
  keys_apart (keys_of s) -> holds (keys_of s) (view db) qs -> Forall q_inv qs ->
  sh_buffered s = [] -> 0 < nparts s -> 0 < lmax -> lmax + nparts s <= max_int64 ->
  lsteps (one_call lmax) (l_new s db) tr l ->
  buffered_len l <= 2 * (lmax + nparts s - 1).
Proof.
  intros Hapart Hh Hi Hs0 Hn Hl Hmax Hrun. set (m := poll_count lmax (nparts s)).
  assert (0 < m) as Hm by apply poll_count_pos.
  assert (sys_ok (l_new s db)) as Hsys by (by eapply sys_new).
  assert (one_call lmax (l_new s db)) as Hone by (split; simpl; [lia | constructor]).
  assert (bound_inv m (l_new s db)) as Hb.
  { split; [by split; [constructor|] | constructor | |by intros ? ? [=]].
    unfold buffered_len, total_active. cbn [l_new l_sh l_pollers]. rewrite Hs0.
    change (0 + 0 * m <= 2 * nparts s * m). nia. }
  assert (bound_inv m l /\ nparts (l_sh l) = nparts s) as [Hb' Hnp].
  { assert (nparts (l_sh (l_new s db)) = nparts s) as Hn0 by done.
    revert Hsys Hone Hb Hn0. clear Hs0 Hh Hi Hapart.
    induction Hrun as [l|l1 a l2 tr l3 Hs Hp _ IH]; intros Hsys Hone Hb Hn0; [done|].
    apply IH; [by eapply step_sys | done | |].
    - eapply (step_bound m lmax); rewrite ?Hn0; try done; lia.
    - rewrite <- Hn0. by eapply keys_nparts, step_keys. }
  pose proof (bi_all _ _ Hb') as Hall. rewrite Hnp in Hall.
  pose proof (poll_count_total lmax (nparts s) Hl Hn Hmax). fold m in H. nia.
Qed.
End props.
