(* ===== verification/LongPollDemo.v ===== *)
(** * Runs of the long polls

    [lexec] runs a schedule of [lstep] step by step; [lexec_sound] makes its
    result a run. The witnesses run one worker on the two partitions of
    [ShardedDemo] while a producer enqueues into the first. *)

From S2P Require Import Prelude GoNum GoTime Errors Job GoJson Redis RefRedis Scripts QueueSpec.
From S2P Require Import QueueRep ScriptsOk QueueSteps Store JobCodec StoreOk EnqueueOk ClaimOk.
From S2P Require Import Demo StoreRun Sharded ShardedOk ShardedProps ShardedBatch.
From S2P Require Import ShardedDemo LongPoll LongPollOk LongPollProps.
From stdpp Require Import strings.

Open Scope Z_scope.

#[export] Instance qkeys_eq_dec : EqDecision qkeys.
Proof. solve_decision. Defined.

(** ** Schedules *)

(** Who moves next: a new call, call [i] (at clock [now]), the end of call [i]'s
    wait, poller [i], a heartbeat, [Close], or the producer. *)
Inductive move :=
  | MCall (c : call)
  | MStep (i : nat) (now : Z)
  | MEnd (i : nat)
  | MPoll (i : nat)
  | MExtend (jobs : list Job)
  | MExt (i : nat)
  | MClose
  | MOutside.

Definition around {A} (i : nat) (l : list A) : option (list A * A * list A) :=
  match l !! i with Some x => Some (take i l, x, drop (S i) l) | None => None end.

Lemma around_Some {A} i (l l1 l2 : list A) x : around i l = Some (l1, x, l2) -> l = l1 ++ x :: l2.
Proof.
  unfold around. destruct (l !! i) as [y|] eqn:E; [|done]. intros [= <- <- <-].
  symmetry. by apply take_drop_middle.
Qed.

Section exec.
Context {R : Redis} {C : Client R} (go_order : list Z -> list Z).
Context (keys0 : list qkeys) (produce : rdb -> rdb).

(** The producer, of the queue with the keys [keys0], acts on the keyspace. *)
Definition produces (x y : list Store * rdb) : Prop :=
  K_of <$> x.1 = keys0 /\ y = (x.1, produce x.2).

Definition step_call (i : nat) (now : Z) (l : lstate) : option (label * lstate) :=
  match around i (l_calls l) with
  | None => None
  | Some (cs1, (c, pc), cs2) =>
      let go l' pc' := Some (LTau, set_calls l' (cs1 ++ (c, pc') :: cs2)) in
      match pc with
      | CTake =>
          let '(s', jobs) := takeBuffered (l_sh l) (c_limit c) in
          let next := wrapu64 (sh_claimNext s' + 1) in
          go (set_sh l (mkSharded (sh_parts s') (sh_enqueueNext s') next (sh_buffered s')))
             (CSweep 0 (wrap64 next) jobs)
      | CSweep i start jobs =>
          match sweep_next c i start now jobs (l_sh l) (l_db l) with
          | (db', (got, SwGo pc')) => Some (LClaimed c got, set_calls (set_db l db') (cs1 ++ (c, pc') :: cs2))
          | (db', (_, SwReturn js err)) => Some (LReturned c js err, set_calls (set_db l db') (cs1 ++ cs2))
          end
      | CEnter =>
          match wait_enter c l with
          | None => Some (LReturned c [] None, set_calls l (cs1 ++ cs2))
          | Some l' => go l' CSelect
          end
      | CSelect => if l_arrived l then go (set_arrived l false) CWoken else None
      | CWoken =>
          let '(s', jobs) := takeBuffered (l_sh l) (c_limit c) in
          go (set_sh l s') (if (0 <? length jobs)%nat then CLeave jobs else CSelect)
      | CEnding => let '(s', jobs) := takeBuffered (l_sh l) (c_limit c) in go (set_sh l s') (CLeave jobs)
      | CLeave jobs => Some (LReturned c jobs None, set_calls (set_waiting l (l_waiting l - 1)) (cs1 ++ cs2))
      end
  end.

Definition step_poll (i : nat) (l : lstate) : option (label * lstate) :=
  match around i (l_pollers l) with
  | None => None
  | Some (ps1, (p, pc), ps2) =>
      let go l' pc' := Some (LTau, set_pollers l' (ps1 ++ (p, pc') :: ps2)) in
      match pc with
      | PTop =>
          match poll_top l with
          | Some args => go l (PReading args)
          | None => Some (LTau, set_pollers (set_polling l p false) (ps1 ++ ps2))
          end
      | PReading args =>
          match part_at (l_sh l) p with
          | None => None
          | Some st =>
              let '(db', r) := claimBlocking st (pa_worker args) (pa_count args) (fun s => s)
                                 (polls_stopped (l_close l)) (l_db l) in
              Some (LPolled p args (match r with Ok got => tag got p | Err _ => [] end),
                    set_pollers (set_db l db') (ps1 ++ (p, poll_next (l_close l) args r) :: ps2))
          end
      | PSleeping _ => Some (LExpired, set_pollers l (ps1 ++ (p, PTop) :: ps2))
      | PGot got => go (poll_buffer p got l) PSignal
      | PSignal => Some (LTau, set_pollers (set_arrived l true) (ps1 ++ ps2))
      end
  end.

Definition step_ext (i : nat) (l : lstate) : option (label * lstate) :=
  match around i (l_exts l) with
  | None => None
  | Some (xs1, (jobs, pc), xs2) =>
      match pc with
      | XClone => Some (LTau, set_exts l (xs1 ++ (jobs, XCall (sh_buffered (l_sh l))) :: xs2))
      | XCall buffered =>
          let '(db', errs) := perPartition go_order (l_sh l) (jobs ++ buffered) ExtendBatch (l_db l) in
          Some (LRenewed errs, set_exts (set_db l db')
            (xs1 ++ (jobs, XDrop (lost_leases jobs buffered errs) (take (length jobs) errs)) :: xs2))
      | XDrop lost errs =>
          Some (LDropped lost (filter (fun j => JLease j ∈ lost) (sh_buffered (l_sh l))),
            set_exts (set_sh l (set_buffered (l_sh l)
              (filter (fun j => JLease j ∉ lost) (sh_buffered (l_sh l))))) (xs1 ++ xs2))
      end
  end.

Definition do_move (m : move) (l : lstate) : option (label * lstate) :=
  match m with
  | MCall c => Some (LTau, set_calls l (l_calls l ++ [(c, CTake)]))
  | MStep i now => step_call i now l
  | MEnd i =>
      match around i (l_calls l) with
      | Some (cs1, (c, CSelect), cs2) => Some (LExpired, set_calls l (cs1 ++ (c, CEnding) :: cs2))
      | _ => None
      end
  | MPoll i => step_poll i l
  | MExtend jobs => Some (LTau, set_exts l (l_exts l ++ [(jobs, XClone)]))
  | MExt i => step_ext i l
  | MClose =>
      match l_close l with
      | KOpen => Some (LTau, set_close l KClosed)
      | KClosed => Some (LTau, set_close l KStopped)
      | KStopped => Some (LTau, set_close l KCut)
      | KCut => match l_pollers l with [] => Some (LTau, set_close l KDone) | _ => None end
      | KDone => None
      end
  | MOutside =>
      let s := l_sh l in
      if bool_decide (keys_of s = keys0) then
        Some (LTau, set_db (set_sh l (mkSharded (sh_parts s) (sh_enqueueNext s) (sh_claimNext s)
          (sh_buffered s))) (produce (l_db l)))
      else None
  end.

Lemma do_move_sound m l a l' : do_move m l = Some (a, l') -> lstep go_order produces l a l'.
Proof.
  destruct m as [c|i now|i|i|jobs|i| |]; cbn [do_move].
  - intros [= <- <-]. apply ls_call.
  - unfold step_call. destruct (around i (l_calls l)) as [[[cs1 [c pc]] cs2]|] eqn:E; [|done].
    apply around_Some in E.
    destruct pc; repeat case_match; intros [= <- <-]; simplify_eq;
      first [by eapply ls_take | by eapply ls_sweep | by eapply ls_return | by eapply ls_refused
        | by eapply ls_enter | by eapply ls_receive | by eapply ls_ending | by eapply ls_leave | idtac].
    + pose proof (ls_woken go_order produces l c cs1 cs2 _ _ E H) as Hw. by rewrite H0 in Hw.
    + pose proof (ls_woken go_order produces l c cs1 cs2 _ _ E H) as Hw. by rewrite H0 in Hw.
  - destruct (around i (l_calls l)) as [[[cs1 [c pc]] cs2]|] eqn:E; [|done]. apply around_Some in E.
    destruct pc; intros [= <- <-]. by apply ls_end.
  - unfold step_poll. destruct (around i (l_pollers l)) as [[[ps1 [p pc]] ps2]|] eqn:E; [|done].
    apply around_Some in E. destruct pc.
    + destruct (poll_top l) eqn:Et; intros [= <- <-]; [by eapply lp_read | by eapply lp_stop].
    + destruct (part_at (l_sh l) p) as [st|] eqn:Hst; [|done].
      destruct (claimBlocking _ _ _ _ _ _) as [db' r] eqn:Ec. intros [= <- <-].
      by eapply (lp_poll _ _ _ _ _ _ _ _ _ _ E).
    + intros [= <- <-]. by eapply lp_wake.
    + intros [= <- <-]. by eapply lp_buffer.
    + intros [= <- <-]. by eapply lp_signal.
  - intros [= <- <-]. apply lx_call.
  - unfold step_ext. destruct (around i (l_exts l)) as [[[xs1 [js pc]] xs2]|] eqn:E; [|done].
    apply around_Some in E. destruct pc; repeat case_match; intros [= <- <-]; simplify_eq;
      first [by eapply lx_clone | by eapply lx_renew | by eapply lx_drop].
  - destruct (l_close l) eqn:E; [..|done].
    1-3: intros [= <- <-]; first [by apply lk_close | by apply lk_stop | by apply lk_cut].
    destruct (l_pollers l) eqn:Ep; [|done]. intros [= <- <-]. by apply lk_wait.
  - case_bool_decide as Hk; intros [= <- <-]. by apply lo_outside.
Qed.

(** A schedule, as far as every move is possible; [P] is checked after each. *)
Fixpoint lexec (P : lstate -> bool) (ms : list move) (l : lstate) : option (list label * lstate) :=
  match ms with
  | [] => Some ([], l)
  | m :: ms' =>
      match do_move m l with
      | None => None
      | Some (a, l') =>
          if P l' then
            match lexec P ms' l' with Some (tr, l2) => Some (a :: tr, l2) | None => None end
          else None
      end
  end.

Lemma lexec_sound (P : lstate -> Prop) Pb ms : (forall l, Pb l = true -> P l) ->
  forall l tr l', lexec Pb ms l = Some (tr, l') -> lsteps go_order produces P l tr l'.
Proof.
  intros HP. induction ms as [|m ms IH]; intros l tr l'; cbn [lexec]; [intros [= <- <-]; constructor|].
  destruct (do_move m l) as [[a l1]|] eqn:Em; [|done]. destruct (Pb l1) eqn:Ep; [|done].
  destruct (lexec Pb ms l1) as [[tr1 l2]|] eqn:Er; [|done]. intros [= <- <-].
  econstructor; [by eapply do_move_sound | auto | by apply IH].
Qed.
End exec.

(** ** One worker and a producer *)

Definition demo_new (id : string) : Job := mkJob id "email" "{}" 0 3 "" demo_time demo_time "" zeroLease.
Definition demo_produce : rview -> rview :=
  fun db => (Enqueue (R:=ref_redis) demo_st0 [] demo_time (demo_new "c3") db).1.
Definition demo_order (l : list Z) : list Z := l.

Abbreviation demo_outside := (produces (R:=ref_redis) (keys_of demo_sharded) demo_produce).

Lemma demo_outside_ok : outside_ok (R:=ref_redis) demo_outside.
Proof.
  split.
  - by intros ps db ps' db' [_ [= -> _]].
  - intros ps db ps' db' qs [Hk [= -> ->]] Hh Hi. simpl in Hk. rewrite Hk in *.
    pose proof (keys_of_part demo_sharded 0 demo_st0 eq_refl) as HKp.
    destruct (holds_lookup _ _ _ _ _ Hh HKp) as (q & Hq & _).
    destruct (wps_part (R:=ref_redis) _ demo_apart _ qs _ _ q _ HKp Hq
      (Enqueue_reaches demo_st0 (part_keys_ok _ _) q [] demo_time (demo_new "c3") ltac:(done)
         ltac:(vm_compute; congruence) ltac:(by split_and!)) db Hh)
      as (db' & r & ? & E & Hh' & q' & -> & Hr).
    exists (<[0%nat := q']> qs). split; [|by eapply Forall2_reaches_insert].
    unfold demo_produce. simpl. rewrite E. exact Hh'.
Qed.

Definition demo_l0 : lstate := l_new (R:=ref_redis) demo_sharded demo_sdb.
Definition demo_c1 : call := mkCall "w2" 1 second.

(** A claim takes the ready job; the next one finds nothing and waits; a job
    arrives, is polled from partition 0 and buffered. *)
Definition demo_ms : list move :=
  [MCall demo_c1; MStep 0 0; MStep 0 0; MStep 0 0; MStep 0 0;
   MCall demo_c1; MStep 0 0; MStep 0 0; MStep 0 0; MStep 0 0; MStep 0 0;
   MPoll 0; MPoll 1; MOutside; MPoll 0; MPoll 0].

(** One call at a time, all of "w2", with limit 1. *)
Definition demo_single (l : lstate) : bool :=
  (length (l_calls l) <=? 1)%nat &&
  forallb (fun x => bool_decide (c_worker x.1 = "w2") && (c_limit x.1 =? 1)) (l_calls l).

Definition demo_lrun (ms : list move) : option (list label * lstate) :=
  lexec (R:=ref_redis) demo_order (keys_of demo_sharded) demo_produce demo_single ms demo_l0.

Definition demo_after (ms : list move) : list label * lstate := default ([], demo_l0) (demo_lrun ms).
Definition demo_before_poll : list move := take 14 demo_ms.
Definition demo_closing : list move := demo_ms ++ [MClose; MClose; MClose].

Lemma demo_single_ok l : demo_single l = true ->
  (length (l_calls l) <= 1)%nat /\ by_worker (R:=ref_redis) "w2" l /\ one_call (R:=ref_redis) 1 l.
Proof.
  unfold demo_single, by_worker, one_call. intros [H1%Nat.leb_le H2]%andb_true_iff.
  rewrite forallb_forall in H2.
  split_and!; try done; apply Forall_forall; intros x Hx; apply list_elem_of_In, H2 in Hx;
    apply andb_true_iff in Hx as [Hw%bool_decide_eq_true Hl%Z.eqb_eq]; [done | lia].
Qed.

Definition demo_runs (ms : list move) : bool :=
  match demo_lrun ms with Some _ => true | None => false end.

Lemma demo_run (P : lstate -> Prop) ms :
  (forall l, demo_single l = true -> P l) -> demo_runs ms = true ->
  lsteps (R:=ref_redis) demo_order demo_outside P demo_l0 (demo_after ms).1 (demo_after ms).2.
Proof.
  unfold demo_runs, demo_after. destruct (demo_lrun ms) as [[tr l]|] eqn:E; [|done].
  intros HP _. by eapply lexec_sound.
Qed.

(** ** Witnesses *)

Definition demo_poll : option (label * lstate) :=
  do_move (R:=ref_redis) demo_order (keys_of demo_sharded) demo_produce (MPoll 0)
    (demo_after demo_before_poll).2.

Lemma longpoll_leases_witness :
  exists a l' qs', demo_poll = Some (a, l') /\ length (leased a) = 1%nat /\
    holds (keys_of demo_sharded) (l_db l') qs' /\ Forall q_inv qs' /\
    Forall (leased_in qs' "w2") (leased a) /\ NoDup (slot <$> leased a).
Proof.
  assert (option_map (fun x => length (leased x.1)) demo_poll = Some 1%nat) as Hlen
    by (vm_compute; reflexivity).
  destruct demo_poll as [[a l']|] eqn:E; [|discriminate Hlen]. injection Hlen as Hlen.
  assert (lsteps (R:=ref_redis) demo_order demo_outside (by_worker "w2") demo_l0
    (demo_after demo_before_poll).1 (demo_after demo_before_poll).2) as Hrun.
  { refine (demo_run _ _ _ _); [intros l Hl; apply (demo_single_ok l Hl) | vm_compute; reflexivity]. }
  pose proof E as E'. unfold demo_poll in E'.
  pose proof (do_move_sound (R:=ref_redis) demo_order (keys_of demo_sharded) demo_produce (MPoll 0)
    (demo_after demo_before_poll).2 a l' E') as Hs.
  destruct (longpoll_leases (R:=ref_redis) demo_order (fun l => reflexivity _) demo_outside demo_outside_ok
    demo_sharded demo_sdb demo_sqs "w2" (demo_after demo_before_poll).1
    (demo_after demo_before_poll).2 a l' demo_apart demo_sholds demo_sinv Hrun Hs) as (qs' & H).
  exists a, l', qs'. exact (conj eq_refl (conj Hlen H)).
Defined.

Lemma longpoll_conserves_witness :
  let '(tr, l) := demo_after demo_ms in
  tr ≫= leased ≡ₚ held_jobs (R:=ref_redis) l ++ (tr ≫= handed) ++ (tr ≫= dropped) /\
  length (tr ≫= leased) = 2%nat /\ length (tr ≫= handed) = 1%nat.
Proof.
  pose proof (longpoll_conserves (R:=ref_redis) demo_order demo_outside demo_sharded demo_sdb
    (fun _ => True) (demo_after demo_ms).1 (demo_after demo_ms).2 eq_refl
    (demo_run (fun _ => True) demo_ms (fun _ _ => I) ltac:(vm_compute; reflexivity))) as H.
  assert (length ((demo_after demo_ms).1 ≫= leased) = 2%nat) as H1 by (vm_compute; reflexivity).
  assert (length ((demo_after demo_ms).1 ≫= handed) = 1%nat) as H2 by (vm_compute; reflexivity).
  destruct (demo_after demo_ms) as [tr l]. exact (conj H (conj H1 H2)).
Defined.

Lemma one_poller_witness :
  let l := (demo_after demo_ms).2 in
  length (l_polling l) = 2%nat /\
  (forall p b, l_polling l !! p = Some b -> actives (Z.of_nat p) (l_pollers l) = Nat.b2n b) /\
  Forall (fun x => is_Some (part_at (l_sh l) x.1)) (l_pollers l) /\
  l_waiting l = Z.of_nat (waiters (l_calls l)).
Proof.
  apply (one_poller (R:=ref_redis) demo_order demo_outside demo_outside_ok demo_sharded demo_sdb
    (fun _ => True) (demo_after demo_ms).1).
  refine (demo_run _ _ _ _); [done | vm_compute; reflexivity].
Defined.

Lemma no_lost_wakeup_witness :
  let l := (demo_after demo_ms).2 in
  exists pre l', lsteps (R:=ref_redis) demo_order demo_outside (fun m => (length (l_calls m) <= 1)%nat) l
      (pre ++ [LReturned demo_c1 (take 1 (sh_buffered (l_sh l))) None]) l' /\
    (length pre <= 3)%nat /\ Forall (eq LTau) pre /\ l_calls l' = [].
Proof.
  apply (no_lost_wakeup (R:=ref_redis) demo_order demo_outside demo_sharded demo_sdb (demo_after demo_ms).1
    (demo_after demo_ms).2 demo_c1); [reflexivity | | vm_compute; reflexivity | reflexivity |].
  - refine (demo_run _ _ _ _); [intros l Hl; apply (demo_single_ok l Hl) | vm_compute; reflexivity].
  - vm_compute. discriminate.
Defined.

Lemma Close_ends_witness :
  let l := (demo_after demo_closing).2 in
  polls_stopped (l_close l) = true /\
  exists tr' l', lsteps (R:=ref_redis) demo_order demo_outside (fun _ => True) l tr' l' /\
    l_pollers l' = [] /\ (length tr' <= all_left (R:=ref_redis) l)%nat.
Proof.
  split; [vm_compute; reflexivity|].
  apply (Close_ends (R:=ref_redis) demo_order demo_outside demo_outside_ok demo_sharded demo_sdb
    (fun _ => True) (demo_after demo_closing).1); [|vm_compute; reflexivity].
  refine (demo_run _ _ _ _); [done | vm_compute; reflexivity].
Defined.

Lemma buffer_bound_witness :
  buffered_len (R:=ref_redis) (demo_after demo_ms).2 <= 2 * (1 + 2 - 1) /\
  buffered_len (R:=ref_redis) (demo_after demo_ms).2 = 1.
Proof.
  split; [|vm_compute; reflexivity].
  apply (buffer_bound (R:=ref_redis) demo_order (fun l => reflexivity _) demo_outside demo_outside_ok
    demo_sharded demo_sdb demo_sqs 1 (demo_after demo_ms).1 (demo_after demo_ms).2
    demo_apart demo_sholds demo_sinv eq_refl); [reflexivity | reflexivity | vm_compute; congruence |].
  refine (demo_run _ _ _ _); [intros l Hl; apply (demo_single_ok l Hl) | vm_compute; reflexivity].
Defined.

(** With one partition and limit 2 the buffer can hold four jobs: a poll left over
    from an earlier claim delivers after the next claim has looked at the buffer,
    and that claim's own poll delivers too. *)
Definition one_part : Sharded := mkSharded [demo_st0] 0 0 [].
Definition crowd_call : call := mkCall "w2" 2 second.
Definition crowd_ms : list move :=
  [MCall crowd_call; MStep 0 0; MStep 0 0; MStep 0 0;
   MCall crowd_call; MStep 0 0; MStep 0 0; MStep 0 0; MStep 0 0; MPoll 0; MEnd 0; MStep 0 0; MStep 0 0;
   MOutside; MOutside; MPoll 0; MCall crowd_call; MStep 0 0; MStep 0 0; MStep 0 0;
   MPoll 0; MStep 0 0; MPoll 1; MOutside; MOutside; MPoll 1; MPoll 1].

Lemma buffer_crowded :
  option_map (fun x => (buffered_len (R:=ref_redis) x.2, length (l_calls x.2)))
    (lexec (R:=ref_redis) demo_order (keys_of one_part) demo_produce
       (fun l => (length (l_calls l) <=? 1)%nat) crowd_ms (l_new one_part demo_sdb)) = Some (4, 1%nat).
Proof. vm_compute. reflexivity. Qed.
