(* ===== verification/PrettyLog.v ===== *)
(** * The log handler ([internal/prettylog])

    The slog handler and the handlers derived from it. A handler holds a slice of
    attributes; slices may share a backing array, so arrays are kept in a heap. The
    output is a parameter. An attribute's value is the text [%v] prints of it. *)

From S2P Require Import Prelude GoNum GoTime Errors.
From Stdlib Require Import Ascii.
From stdpp Require Import strings.

Open Scope Z_scope.

(** ** Levels and clocks *)

(** [slog.Level.String]. *)
Definition level_from (base : string) (val : Z) : string :=
  if val =? 0 then base else base +:+ (if 0 <=? val then "+" else "") +:+ Itoa val.

Definition Level_String (l : Z) : string :=
  if l <? 0 then level_from "DEBUG" (l + 4)
  else if l <? 4 then level_from "INFO" l
  else if l <? 8 then level_from "WARN" (l - 4)
  else level_from "ERROR" (l - 8).

(** [%-5s]. *)
Fixpoint pad_right (n : nat) (s : string) : string :=
  match n, s with
  | O, _ => s
  | S n', EmptyString => String " "%char (pad_right n' "")
  | S n', String c s' => String c (pad_right n' s')
  end.

(** [Time.Format("15:04:05.000")] in UTC. *)
Definition fmt_clock (t : Z) : string :=
  let ns := t mod day in
  pad 2 (ns / hour) +:+ ":" +:+ pad 2 (ns / minute mod 60) +:+ ":" +:+ pad 2 (ns / second mod 60)
    +:+ "." +:+ pad 3 (ns / millisecond mod 1000).

(** ** Slices of attributes *)

Record Attr := mkAttr { Key : string; Value : string }.

Definition zero_attr : Attr := mkAttr "" "".

(** A slice starts at its array's first cell; the nil slice has no array. *)
Record slice := mkSlice { s_arr : option nat; s_len : nat; s_cap : nat }.

Definition nil_slice : slice := mkSlice None 0 0.

Abbreviation arrays := (list (list Attr)) (only parsing).

Definition array_of (hp : arrays) (s : slice) : list Attr :=
  match s_arr s with Some a => hp !!! a | None => [] end.

Definition read (hp : arrays) (s : slice) : list Attr := take (s_len s) (array_of hp s).

(** A new array of [cap] cells that starts with [l]. *)
Definition alloc (cap : nat) (l : list Attr) (hp : arrays) : arrays * slice :=
  (hp ++ [l ++ replicate (cap - length l) zero_attr], mkSlice (Some (length hp)) (length l) cap).

(** ** Handlers *)

Record handler := mkHandler { h_attrs : slice; h_mu : nat (* its mutex *) }.

(** The heap of arrays, and the handlers made so far by their pointers. *)
Record logs := mkLogs { g_arrays : arrays; g_handlers : list handler }.

Definition add_handler (hp : arrays) (s : slice) (g : logs) : logs :=
  mkLogs hp (g_handlers g ++ [mkHandler s (length (g_handlers g))]).

Definition NewHandler : logs := mkLogs [] [mkHandler nil_slice 0].

Record Record_ := mkRecord { r_Time : Z; r_Level : Z; r_Message : string; r_Attrs : list Attr }.

Definition fmt_attr (a : Attr) : string := "  " +:+ Key a +:+ "=" +:+ Value a.

Fixpoint fmt_attrs (l : list Attr) : string :=
  match l with [] => "" | a :: l' => fmt_attr a +:+ fmt_attrs l' end.

(** What [Handle] writes for a record to a handler with these attributes. *)
Definition fmt_line (attrs : list Attr) (r : Record_) : string :=
  fmt_clock (r_Time r) +:+ " " +:+ pad_right 5 (Level_String (r_Level r)) +:+ " " +:+ r_Message r
    +:+ fmt_attrs attrs +:+ fmt_attrs (r_Attrs r).

Section handlers.
(** The capacity [append] gives a full slice; an [io.Writer]. *)
Context (grow : nat -> nat) {W : Type} (Write : string -> W -> W * option error).

Definition append1 (hp : arrays) (s : slice) (x : Attr) : arrays * slice :=
  match s_arr s with
  | Some a =>
      if (s_len s <? s_cap s)%nat
      then (alter <[s_len s := x]> a hp, mkSlice (Some a) (S (s_len s)) (s_cap s))
      else alloc (grow (s_cap s)) (read hp s ++ [x]) hp
  | None => alloc (grow (s_cap s)) [x] hp
  end.

Definition WithAttrs (h : handler) (attrs : list Attr) (g : logs) : logs :=
  let merged := read (g_arrays g) (h_attrs h) ++ attrs in
  let '(hp, s) := alloc (length merged) merged (g_arrays g) in
  add_handler hp s g.

Definition WithGroup (h : handler) (name : string) (g : logs) : logs :=
  let '(hp, s) := append1 (g_arrays g) (h_attrs h) (mkAttr "group" name) in
  add_handler hp s g.

Definition Handle (h : handler) (r : Record_) (g : logs) (w : W) : W * option error :=
  Write (fmt_line (read (g_arrays g) (h_attrs h)) r +:+ String "010"%char "") w.

(** ** Derivations

    Programs derive handlers from handlers; [D_group 2 "x"] is [WithGroup "x"] on
    the third handler made. *)
Inductive derivation := D_attrs (i : nat) (attrs : list Attr) | D_group (i : nat) (name : string).

Definition derive (g : logs) (d : derivation) : logs :=
  match d with
  | D_attrs i attrs => match g_handlers g !! i with Some h => WithAttrs h attrs g | None => g end
  | D_group i name => match g_handlers g !! i with Some h => WithGroup h name g | None => g end
  end.

Definition derives (ds : list derivation) : logs := foldl derive NewHandler ds.

(** The attributes of a handler are those of its parent and its own. *)
Definition spec_derive (l : list (list Attr)) (d : derivation) : list (list Attr) :=
  match d with
  | D_attrs i attrs => match l !! i with Some a => l ++ [a ++ attrs] | None => l end
  | D_group i name => match l !! i with Some a => l ++ [a ++ [mkAttr "group" name]] | None => l end
  end.

Definition spec_derives (ds : list derivation) : list (list Attr) := foldl spec_derive [[]] ds.

(** The handlers that were grouped. *)
Definition grouped (ds : list derivation) : list nat :=
  omap (fun d => match d with D_group i _ => Some i | _ => None end) ds.

Definition views (g : logs) : list (list Attr) := (fun h => read (g_arrays g) (h_attrs h)) <$> g_handlers g.

(** ** Invariant *)

Definition slice_ok (hp : arrays) (s : slice) : Prop :=
  match s_arr s with
  | Some a => exists l, hp !! a = Some l /\ length l = s_cap s /\ (s_len s <= s_cap s)%nat
  | None => s_len s = 0%nat
  end.

Definition shares (h h' : handler) : Prop :=
  exists a, s_arr (h_attrs h) = Some a /\ s_arr (h_attrs h') = Some a.

(** [used] are the handlers that may have been grouped. *)
Record logs_ok (used : list nat) (g : logs) : Prop := {
  lo_slices : Forall (fun h => slice_ok (g_arrays g) (h_attrs h)) (g_handlers g);
  lo_distinct : forall i j h h', g_handlers g !! i = Some h -> g_handlers g !! j = Some h' -> i <> j ->
    shares h h' -> s_len (h_attrs h) <> s_len (h_attrs h');
  lo_last : forall i j h h', g_handlers g !! i = Some h -> g_handlers g !! j = Some h' -> ~ (i ∈ used) ->
    shares h h' -> (s_len (h_attrs h') <= s_len (h_attrs h))%nat;
}.

Lemma slice_ok_app hp l s : slice_ok hp s -> slice_ok (hp ++ [l]) s /\ read (hp ++ [l]) s = read hp s.
Proof.
  unfold slice_ok, read, array_of. destruct (s_arr s) as [a|]; [|done]. intros (l0 & Ha & Hl).
  rewrite (lookup_total_app_l _ _ a) by (by eapply lookup_lt_Some). split; [|done].
  exists l0. split; [|done]. by apply lookup_app_l_Some.
Qed.

Lemma alloc_ok cap l hp :
  (length l <= cap)%nat -> let '(hp', s) := alloc cap l hp in slice_ok hp' s /\ read hp' s = l.
Proof.
  intros Hc. cbn. unfold slice_ok, read, array_of. cbn.
  rewrite lookup_total_app_r, Nat.sub_diag by lia. cbn. split; [|by rewrite take_app_length].
  eexists. split; [by apply list_lookup_middle|]. rewrite length_app, length_replicate. lia.
Qed.

(** A handler with a new array. *)
Lemma add_fresh used g cap l :
  (length l <= cap)%nat -> logs_ok used g ->
  let g' := add_handler (alloc cap l (g_arrays g)).1 (alloc cap l (g_arrays g)).2 g in
  logs_ok used g' /\ views g' = views g ++ [l].
Proof.
  intros Hc [H1 H2 H3]. pose proof (alloc_ok cap l (g_arrays g) Hc) as Hal. cbn in Hal. destruct Hal as [Hs Hr].
  set (g' := add_handler _ _ g).
  assert (forall i h, g_handlers g' !! i = Some h -> g_handlers g !! i = Some h \/
    s_arr (h_attrs h) = Some (length (g_arrays g)) /\ i = length (g_handlers g)) as Hlook.
  { intros i h [Hi|[Hi Hh]]%lookup_app_Some; [by left|]. right.
    apply list_lookup_singleton_Some in Hh as [Hi0 <-]. split; [done | lia]. }
  assert (forall i h, g_handlers g !! i = Some h -> s_arr (h_attrs h) <> Some (length (g_arrays g))) as Hold.
  { intros i h Hi E. pose proof (Forall_lookup_1 _ _ _ _ H1 Hi) as Hsl. unfold slice_ok in Hsl. rewrite E in Hsl.
    destruct Hsl as (l0 & Hl0 & _). apply lookup_lt_Some in Hl0. lia. }
  split.
  - split.
    + apply Forall_app. split; [|by constructor]. eapply Forall_impl; [exact H1|].
      intros h Hh. by apply slice_ok_app.
    + intros i j h h' [Hi|[Ea ->]]%Hlook [Hj|[Eb ->]]%Hlook Hne (a & E1 & E2); [by eapply (H2 i j); eauto; exists a| | |done].
      * destruct (Hold _ _ Hi). congruence.
      * destruct (Hold _ _ Hj). congruence.
    + intros i j h h' Hi0 Hj0 Hu (a & E1 & E2). pose proof (Hlook _ _ Hi0) as [Hi|[Ea ->]];
        pose proof (Hlook _ _ Hj0) as [Hj|[Eb ->]].
      * eapply (H3 i j); eauto. by exists a.
      * destruct (Hold _ _ Hi). congruence.
      * destruct (Hold _ _ Hj). congruence.
      * assert (h = h') as -> by congruence. done.
  - unfold views. cbn. rewrite fmap_app. cbn. f_equal; [|exact (f_equal (fun x => [x]) Hr)].
    apply list_fmap_ext. intros i h Hi. apply (slice_ok_app _ _ (h_attrs h)). by apply (Forall_lookup_1 _ _ _ _ H1 Hi).
Qed.

Lemma slice_arr g used i h a :
  logs_ok used g -> g_handlers g !! i = Some h -> s_arr (h_attrs h) = Some a ->
  exists la, g_arrays g !! a = Some la /\ length la = s_cap (h_attrs h) /\ (s_len (h_attrs h) <= s_cap (h_attrs h))%nat.
Proof.
  intros [H1 _ _] Hi Ha. pose proof (Forall_lookup_1 _ _ _ _ H1 Hi) as Hs. unfold slice_ok in Hs. by rewrite Ha in Hs.
Qed.

(** Writing past the end of a slice does not change what it holds. *)
Lemma read_alter hp a n x s :
  (s_arr s = Some a -> (s_len s <= n)%nat) -> read (alter <[n := x]> a hp) s = read hp s.
Proof.
  intros Hle. unfold read, array_of. destruct (s_arr s) as [b|]; [|done].
  rewrite !list_lookup_total_alt. destruct (decide (a = b)) as [->|Hne].
  - rewrite list_lookup_alter_eq. destruct (hp !! b) as [l|]; [|done]. cbn. apply take_insert_ge. auto.
  - by rewrite list_lookup_alter_ne.
Qed.

Lemma slice_ok_alter hp a n x s : slice_ok hp s -> slice_ok (alter <[n := x]> a hp) s.
Proof.
  unfold slice_ok. destruct (s_arr s) as [b|]; [|done]. intros (l & Hl & Hlen).
  destruct (decide (a = b)) as [->|Hne].
  - rewrite list_lookup_alter_eq, Hl. eexists. split; [done|]. by rewrite length_insert.
  - rewrite list_lookup_alter_ne by done. by exists l.
Qed.

Lemma in_place_ok used g i h a x :
  logs_ok used g -> g_handlers g !! i = Some h -> ~ (i ∈ used) -> s_arr (h_attrs h) = Some a ->
  (s_len (h_attrs h) < s_cap (h_attrs h))%nat ->
  logs_ok (i :: used) (add_handler (alter <[s_len (h_attrs h) := x]> a (g_arrays g))
    (mkSlice (Some a) (S (s_len (h_attrs h))) (s_cap (h_attrs h))) g).
Proof.
  intros Hok Hi Hu Ha Hlt. pose proof Hok as [H1 H2 H3].
  destruct (slice_arr g used i h a Hok Hi Ha) as (la & Hla & Hcap & _). set (g' := add_handler _ _ g).
  assert (forall j h', g_handlers g' !! j = Some h' -> g_handlers g !! j = Some h' \/
    s_arr (h_attrs h') = Some a /\ s_len (h_attrs h') = S (s_len (h_attrs h)) /\ j = length (g_handlers g)) as Hlook.
  { intros j h' [Hj|[Hj Hh]]%lookup_app_Some; [by left|]. right.
    apply list_lookup_singleton_Some in Hh as [Hj0 <-]. split_and!; [done | done | lia]. }
  (* among the old handlers, nothing in this array is longer than [h] *)
  assert (forall j h', g_handlers g !! j = Some h' -> s_arr (h_attrs h') = Some a ->
    (s_len (h_attrs h') <= s_len (h_attrs h))%nat) as Hmax.
  { intros j h' Hj Ej. apply (H3 i j h h' Hi Hj Hu). by exists a. }
  split.
  - apply Forall_app. split; [eapply Forall_impl; [exact H1|]; intros h' Hh'; by apply slice_ok_alter|].
    constructor; [|done]. apply (slice_ok_alter _ a (s_len (h_attrs h)) x (mkSlice (Some a) _ _)).
    exists la. cbn. split_and!; [done | done | lia].
  - intros j k h1 h2 [Hj|(Ej & Lj & ->)]%Hlook [Hk|(Ek & Lk & ->)]%Hlook Hne (b & E1 & E2); [| | |done].
    + by eapply (H2 j k); eauto; exists b.
    + assert (b = a) as -> by congruence. specialize (Hmax j h1 Hj E1). lia.
    + assert (b = a) as -> by congruence. specialize (Hmax k h2 Hk E2). lia.
  - intros j k h1 h2 [Hj|(Ej & Lj & ->)]%Hlook [Hk|(Ek & Lk & ->)]%Hlook Hnu (b & E1 & E2); [| | |lia].
    + eapply (H3 j k); eauto; [set_solver|]. by exists b.
    + assert (b = a) as -> by congruence. assert (j <> i) as Hji by set_solver.
      assert (s_len (h_attrs h) <= s_len (h_attrs h1))%nat as Hge by (eapply (H3 j i); eauto; [set_solver|by exists a]).
      specialize (Hmax j h1 Hj E1). destruct (H2 j i h1 h Hj Hi Hji); [by exists a | lia].
    + assert (b = a) as -> by congruence. specialize (Hmax k h2 Hk E2). lia.
Qed.

(** A handler grouped in place, into a cell no other slice covers. *)
Lemma add_in_place used g i h a x :
  logs_ok used g -> g_handlers g !! i = Some h -> ~ (i ∈ used) -> s_arr (h_attrs h) = Some a ->
  (s_len (h_attrs h) < s_cap (h_attrs h))%nat ->
  let g' := add_handler (alter <[s_len (h_attrs h) := x]> a (g_arrays g))
              (mkSlice (Some a) (S (s_len (h_attrs h))) (s_cap (h_attrs h))) g in
  logs_ok (i :: used) g' /\ views g' = views g ++ [read (g_arrays g) (h_attrs h) ++ [x]].
Proof.
  intros Hok Hi Hu Ha Hlt. pose proof Hok as [H1 H2 H3].
  set (n := s_len (h_attrs h)) in *. set (hp := alter _ a (g_arrays g)). set (g' := add_handler _ _ g).
  destruct (slice_arr g used i h a Hok Hi Ha) as (la & Hla & Hcap & _).
  split.
  - by apply in_place_ok.
  - unfold views. cbn. rewrite fmap_app. cbn. f_equal; [|f_equal].
    + apply list_fmap_ext. intros j h' Hj. apply read_alter. intros Ea.
      apply (H3 i j h h' Hi Hj Hu). by exists a.
    + unfold read, array_of. cbn. rewrite Ha. unfold hp.
      rewrite !list_lookup_total_alt, list_lookup_alter_eq, Hla. cbn. fold n.
      rewrite (take_S_r _ _ x) by (apply list_lookup_insert_eq; lia). by rewrite take_insert_ge.
Qed.

(** ** Every handler writes its own attributes *)

Lemma logs_ok_used used used' g : used ⊆ used' -> logs_ok used g -> logs_ok used' g.
Proof. intros Hsub [H1 H2 H3]. split; [done | done |]. intros i j h h' Hi Hj Hu. apply (H3 i j); try done. set_solver. Qed.

Lemma views_lookup g i h : g_handlers g !! i = Some h -> views g !! i = Some (read (g_arrays g) (h_attrs h)).
Proof. intros Hi. unfold views. by rewrite list_lookup_fmap, Hi. Qed.

Lemma views_None g i : g_handlers g !! i = None -> views g !! i = None.
Proof. intros Hi. unfold views. by rewrite list_lookup_fmap, Hi. Qed.

Hypothesis grows : forall n, (n < grow n)%nat.

Lemma append_step used g i h x :
  logs_ok used g -> g_handlers g !! i = Some h -> ~ (i ∈ used) ->
  let r := append1 (g_arrays g) (h_attrs h) x in
  logs_ok (i :: used) (add_handler r.1 r.2 g) /\
  views (add_handler r.1 r.2 g) = views g ++ [read (g_arrays g) (h_attrs h) ++ [x]].
Proof.
  intros Hok Hi Hu. unfold append1. pose proof (lo_slices _ _ Hok) as Hs.
  apply (fun H => Forall_lookup_1 _ _ _ _ H Hi) in Hs as Hsl. pose proof (grows (s_cap (h_attrs h))) as Hg.
  assert (forall l, (length l <= grow (s_cap (h_attrs h)))%nat ->
    let r := alloc (grow (s_cap (h_attrs h))) l (g_arrays g) in
    logs_ok (i :: used) (add_handler r.1 r.2 g) /\ views (add_handler r.1 r.2 g) = views g ++ [l]) as Hfresh.
  { intros l Hl. destruct (add_fresh used g _ l Hl Hok) as [G1 G2]. split; [|done].
    eapply logs_ok_used; [|exact G1]. set_solver. }
  destruct (s_arr (h_attrs h)) as [a|] eqn:Ea.
  - destruct (slice_arr g used i h a Hok Hi Ea) as (la & Hla & Hcap & Hle).
    destruct (Nat.ltb_spec (s_len (h_attrs h)) (s_cap (h_attrs h))) as [Hlt|Hge]; [by apply add_in_place|].
    apply Hfresh. rewrite length_app. cbn. unfold read. rewrite length_take. lia.
  - unfold slice_ok in Hsl. rewrite Ea in Hsl. assert (read (g_arrays g) (h_attrs h) = []) as ->
      by (unfold read; by rewrite Hsl). apply Hfresh. cbn. lia.
Qed.

Lemma derives_snoc ds d : derives (ds ++ [d]) = derive (derives ds) d.
Proof. unfold derives. by rewrite foldl_app. Qed.
Lemma spec_derives_snoc ds d : spec_derives (ds ++ [d]) = spec_derive (spec_derives ds) d.
Proof. unfold spec_derives. by rewrite foldl_app. Qed.

Lemma derives_ok ds :
  NoDup (grouped ds) -> logs_ok (grouped ds) (derives ds) /\ views (derives ds) = spec_derives ds.
Proof.
  induction ds as [|d ds IH] using rev_ind; intros Hnd.
  { split; [|done]. split; [by repeat constructor | |]; intros [|i] [|j] h h' Hi Hj; try done.
    intros _ (a & E & _). by simplify_eq/=. }
  unfold grouped in Hnd. rewrite omap_app in Hnd. fold (grouped ds) in Hnd.
  apply NoDup_app in Hnd as (Hnd & Hnew & _). destruct (IH Hnd) as [Hok Hv].
  rewrite derives_snoc, spec_derives_snoc, <- Hv. unfold grouped. rewrite omap_app. fold (grouped ds).
  destruct d as [i attrs|i name]; cbn [derive spec_derive omap list_omap].
  - rewrite app_nil_r. destruct (g_handlers (derives ds) !! i) as [h|] eqn:Hi; [|by rewrite views_None].
    rewrite (views_lookup _ _ _ Hi). by apply add_fresh.
  - destruct (g_handlers (derives ds) !! i) as [h|] eqn:Hi.
    + rewrite (views_lookup _ _ _ Hi). assert (~ (i ∈ grouped ds)) as Hu.
      { intros Hin. apply (Hnew i Hin). cbn. set_solver. }
      pose proof (append_step _ _ i h (mkAttr "group" name) Hok Hi Hu) as Hst. unfold WithGroup.
      destruct (append1 (g_arrays (derives ds)) (h_attrs h) (mkAttr "group" name)) as [hp s0]. destruct Hst as [G1 G2].
      split; [|done]. eapply logs_ok_used; [|exact G1]. set_solver.
    + rewrite views_None by done. split; [|done]. eapply logs_ok_used; [|exact Hok]. set_solver.
Qed.

(** However handlers are derived from each other, as long as no handler is
    grouped twice, each writes a record with the attributes it and its ancestors were
    given, in that order, after the time, level and message: slices that share an
    array do not get into each other's way. *)
Theorem Handle_own_attrs ds i h attrs r w :
  NoDup (grouped ds) -> g_handlers (derives ds) !! i = Some h -> spec_derives ds !! i = Some attrs ->
  Handle h r (derives ds) w = Write (fmt_line attrs r +:+ String "010"%char "") w.
Proof.
  intros Hnd Hi Ha. destruct (derives_ok ds Hnd) as [_ Hv]. unfold Handle.
  rewrite <- Hv, (views_lookup _ _ _ Hi) in Ha. by simplify_eq.
Qed.

(** Grouping a handler with room in its array twice: the second group's name takes
    the place of the first's. *)
Theorem sibling_group_clobbered g h a n1 n2 :
  slice_ok (g_arrays g) (h_attrs h) -> s_arr (h_attrs h) = Some a -> (s_len (h_attrs h) < s_cap (h_attrs h))%nat ->
  views (WithGroup h n2 (WithGroup h n1 g)) !! length (g_handlers g) =
    Some (read (g_arrays g) (h_attrs h) ++ [mkAttr "group" n2]).
Proof.
  intros Hs Ha Hlt. unfold slice_ok in Hs. rewrite Ha in Hs. destruct Hs as (l & Hl & Hlen & _).
  unfold WithGroup, append1. rewrite Ha, (proj2 (Nat.ltb_lt _ _) Hlt). unfold views, add_handler. cbn.
  rewrite list_lookup_fmap, lookup_app_l by (rewrite length_app; cbn; lia). rewrite list_lookup_middle by done. cbn.
  f_equal. unfold read, array_of. cbn [s_arr s_len]. rewrite Ha, !list_lookup_total_alt.
  rewrite list_lookup_alter_eq, list_lookup_alter_eq, Hl. cbn.
  rewrite (take_S_r _ _ (mkAttr "group" n2)) by (apply list_lookup_insert_eq; rewrite length_insert; lia).
  by rewrite !take_insert_ge.
Qed.

(** Each handler has a mutex of its own, also when it writes to the same output. *)
Lemma own_mutex ds i h : g_handlers (derives ds) !! i = Some h -> h_mu h = i.
Proof.
  revert i h. induction ds as [|d ds IH] using rev_ind; intros i h; [by destruct i as [|[]]; intros; simplify_eq/=|].
  rewrite derives_snoc.
  assert (forall hp s0, g_handlers (add_handler hp s0 (derives ds)) !! i = Some h -> h_mu h = i) as Hadd.
  { intros hp s0 [Hi|[Hi Hh]]%lookup_app_Some; [by apply IH|].
    apply list_lookup_singleton_Some in Hh as [Hi0 <-]. cbn. lia. }
  destruct d as [k attrs|k name]; cbn; destruct (g_handlers (derives ds) !! k) as [h0|]; try apply IH.
  - apply Hadd.
  - unfold WithGroup. destruct (append1 _ _ _) as [hp s0]. apply Hadd.
Qed.
End handlers.

(** ** Examples

    The growth of short slices: double, and one cell for the first element. *)
Definition go_grow (n : nat) : nat := Nat.max 1 (2 * n).

Lemma go_grow_grows n : (n < go_grow n)%nat.
Proof. unfold go_grow. lia. Qed.

Definition to_list (line : string) (w : list string) : list string * option error := (w ++ [line], None).

Definition demo_ds : list derivation :=
  [D_attrs 0 [mkAttr "service" "worker"]; D_group 1 "db"; D_attrs 1 [mkAttr "job" "7"]; D_attrs 2 [mkAttr "key" "k"]].

Lemma Handle_own_attrs_witness :
  Handle to_list (mkHandler (mkSlice (Some 3%nat) 3 3) 4) (mkRecord 38521123456789 0 "sent" [mkAttr "to" "dev"])
    (derives go_grow demo_ds) [] =
  to_list (fmt_line [mkAttr "service" "worker"; mkAttr "group" "db"; mkAttr "key" "k"]
    (mkRecord 38521123456789 0 "sent" [mkAttr "to" "dev"]) +:+ String "010"%char "") [].
Proof.
  apply (Handle_own_attrs go_grow to_list go_grow_grows demo_ds 4).
  - vm_compute. repeat constructor. set_solver.
  - reflexivity.
  - reflexivity.
Defined.

Example demo_line :
  fmt_line [mkAttr "service" "worker"; mkAttr "group" "db"; mkAttr "key" "k"]
    (mkRecord 38521123456789 0 "sent" [mkAttr "to" "dev"]) =
  "10:42:01.123 INFO  sent  service=worker  group=db  key=k  to=dev".
Proof. reflexivity. Qed.

(** Two groups below three: the first of the two prints the name of the second. *)
Example sibling_groups :
  views (derives go_grow [D_group 0 "a"; D_group 1 "b"; D_group 2 "c"; D_group 3 "x"; D_group 3 "y"]) !! 4%nat =
  Some [mkAttr "group" "a"; mkAttr "group" "b"; mkAttr "group" "c"; mkAttr "group" "y"].
Proof. reflexivity. Qed.
