(* ===== verification/PrettyFormat.v ===== *)
(** * Formatting a JSON log line ([Format] of [internal/prettylog])

    A line that is a JSON object is printed with its time, level and message first and
    the other members after them, in the order Go's map iteration gives ([shuffle]). For
    a record with text attributes this is the line the handler prints for it directly. *)

From S2P Require Import Prelude GoNum GoTime Errors Job GoJson Json GoText Retry GoFloat JobCodec PrettyLog.
From Stdlib Require Import Ascii QArith.
From stdpp Require Import strings sorting.

Open Scope Z_scope.

(** ** [%v] of a decoded value *)

(** A number is decoded into a float64; [None] is out of range. *)
Definition num_text (literal : string) : option string :=
  f ← ParseFloat literal;
  Some match f with
       | F_fin q => if Qeq_bool q 0 && (split_sign literal).1 then "-0" else FormatFloat_g f
       | _ => FormatFloat_g f
       end.

Fixpoint join_space (l : list string) : string :=
  match l with [] => "" | [x] => x | x :: l' => x +:+ " " +:+ join_space l' end.

(** A later member of the same name replaces an earlier one. *)
Definition go_map {A} (l : list (string * A)) : gmap string A := list_to_map (reverse l).

(** The text of a map has its keys in order. *)
Definition map_text (l : list (string * string)) : string :=
  "map[" +:+ join_space ((fun kv => kv.1 +:+ ":" +:+ kv.2) <$> merge_sort key_le (map_to_list (go_map l))) +:+ "]".

(** [None]: decoding the value is an error. *)
Fixpoint value_text (v : jval) : option string :=
  match v with
  | JNull => Some "<nil>"
  | JBool b => Some (if b then "true" else "false")
  | JNum n => num_text n
  | JStr s => Some s
  | JArr l =>
      (fun ts => "[" +:+ join_space ts +:+ "]") <$>
        (fix elems (l : list jval) : option (list string) :=
           match l with [] => Some [] | x :: l' => t ← value_text x; ts ← elems l'; Some (t :: ts) end) l
  | JObj ms =>
      map_text <$>
        (fix members (ms : list (string * jval)) : option (list (string * string)) :=
           match ms with [] => Some [] | m :: ms' => t ← value_text m.2; ts ← members ms'; Some ((m.1, t) :: ts) end) ms
  end.

Fixpoint member_texts (ms : list (string * jval)) : option (list (string * string)) :=
  match ms with [] => Some [] | m :: ms' => t ← value_text m.2; ts ← member_texts ms'; Some ((m.1, t) :: ts) end.

(** ** [Format] *)

(** [%-5s] of UTF-8 text, which is padded to five runes. *)
Fixpoint blanks (n : nat) : string := match n with O => "" | S n' => String " " (blanks n') end.
Definition pad_runes (n : nat) (s : string) : string := s +:+ blanks (n - rune_count s).

Definition time_part (v : option jval) : string :=
  match v with
  | Some (JStr ts) => match ParseRFC3339 ts with Some (wall, _) => fmt_clock wall +:+ " " | None => "" end
  | _ => ""
  end.

Definition level_part (v : option jval) : string :=
  match v with Some (JStr level) => pad_runes 5 level +:+ " " | _ => "" end.

Definition msg_part (v : option jval) : string := match v with Some (JStr msg) => msg | _ => "" end.

Definition skip : list string := ["time"; "level"; "msg"].

Section format.
Context (shuffle : list (string * string) -> list (string * string)).

Definition entry_text (ms : list (string * jval)) (texts : list (string * string)) : string :=
  let entry := go_map ms in
  time_part (entry !! "time") +:+ level_part (entry !! "level") +:+ msg_part (entry !! "msg") +:+
  fmt_attrs ((fun kv => mkAttr kv.1 kv.2) <$>
    filter (fun kv => kv.1 ∉ skip) (shuffle (map_to_list (go_map texts)))).

Definition Format (line : string) : string :=
  match parse_json (TrimSpace line) with
  | Some JNull => entry_text [] []
  | Some (JObj ms) => match member_texts ms with Some texts => entry_text ms texts | None => line end
  | _ => line
  end.
End format.

Definition in_order (l : list (string * string)) : list (string * string) := merge_sort key_le l.

Definition quoted (s : string) : string := String dq (s +:+ String dq "").

Example Format_ex :
  Format in_order ("{" +:+ quoted "time" +:+ ":" +:+ quoted "2026-05-03T10:42:01.123456+02:00" +:+ "," +:+
    quoted "level" +:+ ":" +:+ quoted "INFO" +:+ "," +:+ quoted "msg" +:+ ":" +:+ quoted "sent" +:+ "," +:+
    quoted "n" +:+ ":-0.50," +:+ quoted "l" +:+ ":[1,null,true,2e6]," +:+
    quoted "m" +:+ ":{" +:+ quoted "b" +:+ ":" +:+ quoted "x" +:+ "," +:+ quoted "a" +:+ ":{}}}") =
  "10:42:01.123 INFO  sent  l=[1 <nil> true 2e+06]  m=map[a:map[] b:x]  n=-0.5".
Proof. vm_compute. reflexivity. Qed.

Example Format_null : Format in_order "null" = "" /\ Format in_order "[1]" = "[1]" /\ Format in_order "{" = "{".
Proof. vm_compute. split_and!; reflexivity. Qed.

(** ** The handler's line *)

(** A record as a JSON object with text attributes. *)
Definition json_record (attrs : list Attr) (r : Record_) : list (string * jval) :=
  [("time", JStr (RFC3339Nano (r_Time r))); ("level", JStr (Level_String (r_Level r))); ("msg", JStr (r_Message r))] ++
  ((fun a => (Key a, JStr (Value a))) <$> attrs ++ r_Attrs r).

Lemma all_ascii_Level l : all_ascii (Level_String l) = true.
Proof.
  unfold Level_String, level_from. repeat case_match; rewrite ?all_ascii_app, ?all_ascii_Itoa; done.
Qed.

Lemma ascii_runes s : all_ascii s = true -> rune_count s = String.length s.
Proof.
  induction s as [|c s IH]; [done|]. cbn [all_ascii rune_count String.length]. intros [Hc Hs]%andb_true_iff.
  rewrite (IH Hs). destruct (cont c) eqn:E; [|done]. by rewrite cont_high in Hc.
Qed.

Lemma pad_right_blanks n s : pad_right n s = s +:+ blanks (n - String.length s).
Proof.
  revert s. induction n as [|n IH]; intros [|c s]; cbn [pad_right String.length Nat.sub blanks];
    rewrite ?str_app_nil_r, ?str_app_nil_l, ?str_app_cons; try done.
  - rewrite IH. cbn. rewrite str_app_nil_l. by replace (n - 0)%nat with n by lia.
  - by rewrite IH.
Qed.

Lemma pad_runes_ascii n s : all_ascii s = true -> pad_runes n s = pad_right n s.
Proof. intros Hs. unfold pad_runes. by rewrite pad_right_blanks, ascii_runes. Qed.

(** A member of an object without repetitions. *)
Lemma go_map_lookup {A} (l : list (string * A)) k v : NoDup l.*1 -> (k, v) ∈ l -> go_map l !! k = Some v.
Proof.
  intros Hn Hin. unfold go_map. apply elem_of_list_to_map_1; [|by apply elem_of_reverse].
  by rewrite fmap_reverse, reverse_Permutation.
Qed.

Lemma go_map_list {A} (l : list (string * A)) : NoDup l.*1 -> map_to_list (go_map l) ≡ₚ l.
Proof.
  intros Hn. unfold go_map. rewrite map_to_list_to_map; [apply reverse_Permutation|].
  by rewrite fmap_reverse, reverse_Permutation.
Qed.

Lemma member_texts_str {A} (f g : A -> string) l :
  member_texts ((fun a => (f a, JStr (g a))) <$> l) = Some ((fun a => (f a, g a)) <$> l).
Proof. induction l as [|a l IH]; [done|]. cbn. by rewrite IH. Qed.

Definition text_attr (a : Attr) : Prop := utf8_valid (Key a) = true /\ utf8_valid (Value a) = true.

Lemma json_record_ok attrs r :
  utf8_valid (r_Message r) = true -> Forall text_attr (attrs ++ r_Attrs r) -> fields_ok (json_record attrs r).
Proof.
  intros Hm Ha. unfold json_record. repeat constructor; cbn.
  - by apply all_ascii_utf8, all_ascii_RFC3339Nano.
  - by apply all_ascii_utf8, all_ascii_Level.
  - done.
  - apply Forall_fmap. eapply Forall_impl; [exact Ha|]. intros a [H1 H2]. split; [done | by constructor].
Qed.

Lemma json_struct_last l : exists t, str_rev (json_struct l) "" = String "}" t.
Proof.
  unfold json_struct. rewrite str_rev_app. cbn [str_rev]. generalize (String "{" ""). induction l as [|m l IH]; intros acc.
  - by exists acc.
  - destruct l as [|m' l]; cbn [fields_text]; rewrite !str_rev_app; [by eexists | apply IH].
Qed.

Lemma filter_id {A} (P : A -> Prop) `{!forall x, Decision (P x)} (l : list A) :
  (forall x, x ∈ l -> P x) -> filter P l = l.
Proof.
  induction l as [|x l IH]; [done|]. intros Hl. rewrite filter_cons_True by (apply Hl; set_solver).
  f_equal. apply IH. set_solver.
Qed.

Lemma entry_text_record shuffle attrs r :
  (forall l, shuffle l ≡ₚ l) -> time_ok (r_Time r) -> NoDup (skip ++ (Key <$> attrs ++ r_Attrs r)) ->
  exists l texts, member_texts (json_record attrs r) = Some texts /\ l ≡ₚ attrs ++ r_Attrs r /\
    entry_text shuffle (json_record attrs r) texts = fmt_line l (mkRecord (r_Time r) (r_Level r) (r_Message r) []).
Proof.
  intros Hs Ht Hn. set (all := attrs ++ r_Attrs r) in *.
  set (own := (fun a => (Key a, Value a)) <$> all).
  set (texts := [("time", RFC3339Nano (r_Time r)); ("level", Level_String (r_Level r)); ("msg", r_Message r)] ++ own).
  assert (own.*1 = Key <$> all) as Hown by (unfold own; by rewrite <- list_fmap_compose).
  assert (NoDup texts.*1) as Hnt by (unfold texts; by rewrite fmap_app, Hown).
  assert (NoDup (json_record attrs r).*1) as Hnm.
  { unfold json_record. rewrite fmap_app, <- list_fmap_compose. exact Hn. }
  set (others := filter (fun kv : string * string => kv.1 ∉ skip) (shuffle (map_to_list (go_map texts)))).
  assert (others ≡ₚ own) as Ho.
  { unfold others. rewrite Hs, go_map_list by done. unfold texts.
    rewrite filter_app, (filter_id _ own); [reflexivity|].
    intros [k v] Hk. apply (list_elem_of_fmap_2 fst) in Hk. rewrite Hown in Hk. cbn in *. intros Hsk.
    apply (NoDup_app skip) in Hn as (_ & Hd & _). by apply (Hd k). }
  exists ((fun kv => mkAttr kv.1 kv.2) <$> others), texts. split_and!.
  - unfold json_record. fold all. cbn [member_texts app value_text fst snd mbind option_bind].
    by rewrite (member_texts_str Key Value).
  - rewrite Ho. unfold own. rewrite <- list_fmap_compose.
    rewrite (list_fmap_ext _ id); [by rewrite list_fmap_id | by intros _ [k v] _].
  - unfold entry_text. fold others. cbv zeta.
    rewrite (go_map_lookup _ "time" (JStr (RFC3339Nano (r_Time r)))) by (done || set_solver).
    rewrite (go_map_lookup _ "level" (JStr (Level_String (r_Level r)))) by (done || set_solver).
    rewrite (go_map_lookup _ "msg" (JStr (r_Message r))) by (done || set_solver).
    cbn [time_part level_part msg_part]. rewrite Parse_RFC3339, pad_runes_ascii by (done || apply all_ascii_Level).
    unfold fmt_line. cbn [r_Time r_Level r_Message r_Attrs fmt_attrs]. by rewrite !str_app_assoc, str_app_nil_r.
Qed.

(** The two ways to print a record agree: [Format] of a record written as a line of
    JSON, its attributes texts with names of their own, is the line [Handle] prints for
    it, with the attributes in some order. *)
Theorem Format_Handle shuffle attrs r :
  (forall l, shuffle l ≡ₚ l) -> time_ok (r_Time r) -> utf8_valid (r_Message r) = true ->
  Forall text_attr (attrs ++ r_Attrs r) -> NoDup (skip ++ (Key <$> attrs ++ r_Attrs r)) ->
  exists l, l ≡ₚ attrs ++ r_Attrs r /\
    Format shuffle (json_struct (json_record attrs r) +:+ String "010" "") =
    fmt_line l (mkRecord (r_Time r) (r_Level r) (r_Message r) []).
Proof.
  intros Hs Ht Hm Ha Hn. destruct (entry_text_record shuffle attrs r Hs Ht Hn) as (l & texts & Et & Hl & E).
  exists l. split; [done|]. unfold Format.
  erewrite TrimSpace_line; [|reflexivity | apply json_struct_last].
  by rewrite parse_json_struct, Et by by apply json_record_ok.
Qed.

Lemma Format_Handle_witness : exists l, l ≡ₚ [mkAttr "service" "worker"; mkAttr "to" "dev"] /\
  Format in_order (json_struct (json_record [mkAttr "service" "worker"]
    (mkRecord 38521123456789 0 "sent" [mkAttr "to" "dev"])) +:+ String "010" "") =
  fmt_line l (mkRecord 38521123456789 0 "sent" []).
Proof.
  apply (Format_Handle in_order [mkAttr "service" "worker"] (mkRecord 38521123456789 0 "sent" [mkAttr "to" "dev"])).
  - intros l. apply merge_sort_Permutation.
  - vm_compute. by split.
  - reflexivity.
  - repeat constructor.
  - repeat constructor; set_solver.
Defined.
