(* ===== verification/Bench.v ===== *)
(** * The benchmark ([cmd/bench/main.go])

    How the backlog is enqueued by concurrent producers, one job or one batch per
    call, how the workers are held back until all are ready, and the figures that
    are reported. Measured times are arguments; printing is left out. *)

From S2P Require Import Prelude GoNum GoTime Errors Job Store Backend Queue Retry.
From Stdlib Require Import Ascii DecimalString QArith.
From stdpp Require Import strings list_numbers sorting relations.

Open Scope Z_scope.

(** ** The backlog *)

Definition noop_opts : EnqueueOptions := mkEnqueueOptions 0 0 "".

(** The random bytes and the time a new job takes. *)
Record job_env := JobEnv { je_rand : list ascii; je_now : Z }.

(** The encoding of the payload [i]. *)
Definition noop_env (i : Z) (e : job_env) : enq_env := EnqEnv (Ok (Itoa i)) (je_rand e) (je_now e).

Definition noop_request (i : Z) (e : job_env) : EnqueueRequest := mkEnqueueRequest "noop" (noop_env i e) noop_opts.

Section backlog.
Context {W : Type} {B : Backend W} (producers enqueueBatch n : Z).

(** *** Single calls *)

Record single := mkSingle {
  s_next : list Z;             (* each producer's loop variable *)
  s_calls : list Z;            (* the payloads enqueued so far *)
  s_w : W;
  s_fatal : option error;
}.

Definition single_init (w : W) : single := mkSingle (seqZ 0 producers) [] w None.

(** Producer [p] makes its next call. An error ends the program. *)
Definition single_call (p : nat) (e : job_env) (sets : list (string * string)) (s : single) : option single :=
  match s_fatal s, s_next s !! p with
  | None, Some i =>
      if i <? n then
        let '(w, (_, r)) := queue_Enqueue "noop" (noop_env i e) noop_opts sets (s_w s) in
        Some match r with
             | Ok _ => mkSingle (<[p := wrap64 (i + producers)]> (s_next s)) (s_calls s ++ [i]) w None
             | Err err => mkSingle (s_next s) (s_calls s) w (Some (ErrWrap "enqueue: " err ""))
             end
      else None
  | _, _ => None
  end.

Definition sstep (s s' : single) : Prop := exists p e sets, single_call p e sets s = Some s'.

Definition single_done (s : single) : Prop := Forall (fun i => n <= i) (s_next s).

(** *** Batches *)

Record batched := mkBatched {
  b_feed : Z;                  (* the loop variable of the goroutine that feeds the channel *)
  b_prods : list (option Z);   (* the first payload of the batch each producer works on *)
  b_calls : list (list Z);     (* the batches enqueued so far *)
  b_w : W;
  b_fatal : option error;
}.

Definition batched_init (w : W) : batched := mkBatched 0 (replicate (Z.to_nat producers) None) [] w None.

(** The channel is unbuffered: a send and the receive of an idle producer. *)
Definition batch_recv (p : nat) (s : batched) : option batched :=
  match b_fatal s, b_prods s !! p with
  | None, Some None =>
      if b_feed s <? n
      then Some (mkBatched (wrap64 (b_feed s + enqueueBatch)) (<[p := Some (b_feed s)]> (b_prods s))
                   (b_calls s) (b_w s) None)
      else None
  | _, _ => None
  end.

(** The payloads of the batch that starts at [first]. *)
Definition bench_batch (first : Z) : list Z := seqZ first (Z.min (wrap64 (first + enqueueBatch)) n - first).

Definition batch_call (p : nat) (envs : Z -> job_env) (sets : list (string * string)) (s : batched) : option batched :=
  match b_fatal s, b_prods s !! p with
  | None, Some (Some first) =>
      let reqs := (fun i => noop_request i (envs i)) <$> bench_batch first in
      let '(w, (_, (_, err))) := queue_EnqueueBatch reqs sets (b_w s) in
      Some match err with
           | None => mkBatched (b_feed s) (<[p := None]> (b_prods s)) (b_calls s ++ [bench_batch first]) w None
           | Some err => mkBatched (b_feed s) (b_prods s) (b_calls s) w (Some (ErrWrap "enqueue: " err ""))
           end
  | _, _ => None
  end.

Definition bstep (s s' : batched) : Prop :=
  (exists p, batch_recv p s = Some s') \/ exists p envs sets, batch_call p envs sets s = Some s'.

(** The channel is closed and every producer has left its loop. *)
Definition batched_done (s : batched) : Prop := n <= b_feed s /\ Forall (fun o => o = None) (b_prods s).

(** The throughput test's choice, and when it takes the backlog for drained. *)
Definition use_batches : bool := negb (enqueueBatch <=? 1).

Definition bench_drained (r : result error Stats) : bool :=
  match r with Ok st => (StreamLength st =? 0) && (InFlight st =? 0) | Err _ => false end.
End backlog.

(** ** The start barrier

    Workers count themselves in and wait for the key [go]; the controller sets it
    when the count is the number of workers. A request to Redis may run any number
    of times ([k]) and may be answered with an error. *)
Inductive worker_pc := WStarting | WWaiting | WRunning | WExited.

#[export] Instance worker_pc_eq_dec : EqDecision worker_pc.
Proof. solve_decision. Defined.

Record barrier := mkBarrier {
  r_ready : Z;
  r_go : bool;
  r_workers : list worker_pc;
  r_released : bool;         (* the controller has left [release] *)
}.

Definition barrier_init (workers : nat) : barrier := mkBarrier 0 false (replicate workers WStarting) false.

Definition worker_at (p : nat) (pc : worker_pc) (b : barrier) : barrier :=
  mkBarrier (r_ready b) (r_go b) (<[p := pc]> (r_workers b)) (r_released b).

Inductive barstep (runs : nat -> Prop) : barrier -> barrier -> Prop :=
  | bar_ready p k failed b : r_workers b !! p = Some WStarting -> runs k -> (failed = false -> 0 < k)%nat ->
      barstep runs b (mkBarrier (r_ready b + Z.of_nat k) (r_go b)
        (<[p := if failed then WExited else WWaiting]> (r_workers b)) (r_released b))
  | bar_go p b : r_workers b !! p = Some WWaiting -> r_go b = true -> barstep runs b (worker_at p WRunning b)
  | bar_exit p pc b : r_workers b !! p = Some pc -> barstep runs b (worker_at p WExited b)
  | bar_release k b : r_released b = false -> r_ready b = Z.of_nat (length (r_workers b)) -> runs k ->
      barstep runs b (mkBarrier (r_ready b) (r_go b || (0 <? k)%nat) (r_workers b) true).

(** ** The figures *)

(** [strconv.ParseInt(s, 10, 64)] with its error dropped. *)
Definition parse_us (s : string) : Z :=
  match match s with
        | String "+" rest => Z.of_uint <$> NilZero.uint_of_string rest
        | _ => Z.of_int <$> NilZero.int_of_string s
        end with
  | Some z => Z.max min_int64 (Z.min max_int64 z)
  | None => 0
  end.

Definition waits_of (raw : list string) : list Z :=
  merge_sort Z.le ((fun s => wrap64 (parse_us s * 1000)) <$> raw).

(** [waits[int(p*float64(len(waits)-1))]]; [None] is a panic. *)
Definition quantile_index (p : Q) (len : nat) : Z := trunc (rnd (rnd p * rnd (inject_Z (Z.of_nat len - 1)))%Q).

Definition at_ (waits : list Z) (p : Q) : option Z :=
  let i := quantile_index p (length waits) in
  if i <? 0 then None else waits !! Z.to_nat i.

Definition quantiles (raw : list string) : option (Z * Z * Z) :=
  let waits := waits_of raw in
  match at_ waits (50 # 100), at_ waits (95 # 100), at_ waits (99 # 100) with
  | Some p50, Some p95, Some p99 => Some (p50, p95, p99)
  | _, _, _ => None
  end.

(** [commas]: the loop over [i], three places at a time; [i <= len(s)] bounds it. *)
Fixpoint commas_loop (fuel : nat) (i : Z) (s : string) : string :=
  match fuel with
  | O => s
  | S fuel' =>
      if 0 <? i
      then commas_loop fuel' (i - 3)
             (String.substring 0 (Z.to_nat i) s +:+ "," +:+ String.substring (Z.to_nat i) (String.length s - Z.to_nat i) s)
      else s
  end.

Definition commas (n : Z) : string :=
  let s := Itoa n in commas_loop (String.length s) (Z.of_nat (String.length s) - 3) s.

Example commas_ex : commas <$> [0; 999; 1000; 123456; 1234567] = ["0"; "999"; "1,000"; "123,456"; "1,234,567"].
Proof. reflexivity. Qed.

Example quantiles_ex : quantiles ["30"; "10"; "20"] = Some (20000, 20000, 20000).
Proof. reflexivity. Qed.
