(* ===== verification/BenchProps.v ===== *)
(** * Guarantees of the benchmark

    The backlog has each payload once however producers interleave, no worker
    starts before all are ready, and the figures are elements of the sample in
    order. *)

From S2P Require Import Prelude GoNum GoTime Errors Job Store Backend Queue Retry Bench.
From Stdlib Require Import Ascii QArith Lqa.
From stdpp Require Import strings list_numbers sorting relations.

Open Scope Z_scope.

(** ** Arithmetic of strides *)

Lemma mod_window m i j : 0 < m -> j mod m = i mod m -> i <= j < i + m -> j = i.
Proof.
  intros Hm Heq Hr. pose proof (Z.div_mod i m ltac:(lia)). pose proof (Z.div_mod j m ltac:(lia)).
  assert (j - i = m * (j / m - i / m)) as Hd by lia. assert (j / m - i / m = 0) as Hk by nia. lia.
Qed.

Lemma NoDup_all n (l : list Z) : NoDup l -> (forall j, j ∈ l <-> 0 <= j < n) -> l ≡ₚ seqZ 0 n.
Proof. intros Hnd Hin. apply NoDup_Permutation; [done | apply NoDup_seqZ|]. intros j. rewrite Hin, elem_of_seqZ. lia. Qed.

(** The block of [m] numbers that starts at a multiple of [m]. *)
Lemma block_iff m f j : 0 < m -> f mod m = 0 -> m * (j / m) = f <-> f <= j < f + m.
Proof.
  intros Hm Hf. pose proof (Z.div_mod j m ltac:(lia)) as Hj. pose proof (Z.mod_pos_bound j m Hm) as Hb.
  split; [lia|]. intros Hr. pose proof (Z.div_mod f m ltac:(lia)) as Hd.
  assert (m * (f / m - j / m) = j mod m - (j - f)) as He by lia. assert (f / m - j / m = 0) as Hk by nia. lia.
Qed.

Section backlog.
Context {W : Type} {B : Backend W} (producers enqueueBatch n : Z).
Hypothesis Hn : 0 <= n.
Hypothesis Hp : 0 < producers.

(** ** Single calls *)

Section single.
Hypothesis Hfit : n + producers <= max_int64.
Abbreviation step := (sstep (B := B) producers n).

(** Producer [p] has enqueued the payloads below its variable that leave [p]. *)
Record single_ok (s : single (W := W)) : Prop := {
  so_len : length (s_next s) = Z.to_nat producers;
  so_next : forall p i, s_next s !! p = Some i -> 0 <= i < n + producers /\ i mod producers = Z.of_nat p;
  so_nodup : NoDup (s_calls s);
  so_calls : forall j, j ∈ s_calls s <->
    0 <= j < n /\ exists i, s_next s !! Z.to_nat (j mod producers) = Some i /\ j < i;
}.

Lemma single_init_ok w : single_ok (single_init producers w).
Proof.
  split; cbn.
  - by rewrite length_seqZ.
  - intros p i [-> Hlt]%lookup_seqZ. rewrite Z.mod_small; lia.
  - constructor.
  - intros j. split; [set_solver|]. intros (Hj & i & [-> _]%lookup_seqZ & Hlt).
    pose proof (Z.mod_pos_bound j producers Hp). pose proof (Z.mod_le j producers ltac:(lia) Hp). lia.
Qed.

Lemma single_call_ok p e sets s s' :
  single_ok s -> single_call (B := B) producers n p e sets s = Some s' -> single_ok s'.
Proof.
  intros [H1 H2 H3 H4] Hc. unfold single_call in Hc.
  destruct (s_fatal s), (s_next s !! p) as [i|] eqn:Ei; try done.
  destruct (Z.ltb_spec i n) as [Hin|]; [|done].
  destruct (queue_Enqueue _ _ _ _ _) as [w [evs [id|err]]]; simplify_eq; [|by split].
  destruct (H2 p i Ei) as [Hi Hmod]. rewrite wrap64_id by (unfold int64_ok, min_int64, max_int64 in *; lia).
  pose proof (lookup_lt_Some _ _ _ Ei) as Hplt. split; cbn.
  - by rewrite length_insert.
  - intros q k. destruct (decide (p = q)) as [->|Hne].
    + rewrite list_lookup_insert_eq by done. intros [= <-]. split; [lia|].
      rewrite <- Hmod, <- (Z.add_mod_idemp_r i producers producers), Z_mod_same_full, Z.add_0_r; lia.
    + rewrite list_lookup_insert_ne by done. apply H2.
  - apply NoDup_app. split_and!; [done | | apply NoDup_singleton].
    intros j Hj ->%list_elem_of_singleton. apply H4 in Hj as (_ & k & Hk & Hlt).
    rewrite Hmod, Nat2Z.id, Ei in Hk. simplify_eq. lia.
  - intros j. rewrite elem_of_app, list_elem_of_singleton, H4.
    destruct (decide (Z.to_nat (j mod producers) = p)) as [Hjp|Hne].
    + rewrite Hjp, list_lookup_insert_eq by done. rewrite Ei.
      pose proof (Z.mod_pos_bound j producers Hp). assert (j mod producers = i mod producers) as Hjm by lia. split.
      * intros [(Hj & k & [= <-] & Hlt)| ->]; (split; [lia|]); eexists; (split; [done|]); lia.
      * intros (Hj & k & [= <-] & Hlt). destruct (decide (j < i)) as [Hlt'|Hge]; [left; eauto|right].
        apply (mod_window producers); lia.
    + rewrite list_lookup_insert_ne by done. split; [|by left]. intros [H| ->]; [done|].
      by rewrite Hmod, Nat2Z.id in Hne.
Qed.

Lemma single_reach_ok w s : rtc step (single_init producers w) s -> single_ok s.
Proof.
  intros Hr. eapply (rtc_ind_r (fun s => single_ok s)); [apply single_init_ok | | exact Hr].
  intros x y _ (p & e & sets & Hc) Hx. by eapply single_call_ok.
Qed.

(** However the producers interleave: when all are done each payload below [n] has
    been enqueued once, and until then, unless a call failed, one can go on. *)
Theorem single_exact w s :
  rtc step (single_init producers w) s -> s_fatal s = None ->
  (single_done n s -> s_calls s ≡ₚ seqZ 0 n) /\ (~ single_done n s -> exists s', step s s').
Proof.
  intros Hr Hf. destruct (single_reach_ok w s Hr) as [H1 H2 H3 H4]. split.
  - intros Hd. apply NoDup_all; [done|]. intros j. rewrite H4. split; [tauto|]. intros Hj. split; [done|].
    pose proof (Z.mod_pos_bound j producers Hp).
    destruct (lookup_lt_is_Some_2 (s_next s) (Z.to_nat (j mod producers))) as [i Hi]; [lia|].
    exists i. split; [done|]. pose proof (Forall_lookup_1 _ _ _ _ Hd Hi). cbn in *. lia.
  - intros Hd. apply not_Forall_Exists in Hd; [|apply _]. apply Exists_exists in Hd as (i & Hi & Hlt).
    apply list_elem_of_lookup in Hi as (p & Hi).
    destruct (single_call producers n p (JobEnv [] 0) [] s) as [s'|] eqn:E; [by exists s', p, (JobEnv [] 0), []|].
    unfold single_call in E. rewrite Hf, Hi in E. destruct (Z.ltb_spec i n); [|cbn in Hlt; lia].
    by destruct (queue_Enqueue _ _ _ _ _) as [w' [evs r]].
Qed.
End single.

(** ** Batches *)

Section batched.
Hypothesis Hm : 0 < enqueueBatch.
Hypothesis Hfit : n + enqueueBatch <= max_int64.
Abbreviation step := (bstep (B := B) enqueueBatch n).

(** Some producer works on the batch that starts at [f]. *)
Definition working (ps : list (option Z)) (f : Z) : Prop := exists p, ps !! p = Some (Some f).

Record batched_ok (s : batched (W := W)) : Prop := {
  bo_len : length (b_prods s) = Z.to_nat producers;
  bo_feed : 0 <= b_feed s < n + enqueueBatch /\ b_feed s mod enqueueBatch = 0;
  bo_prods : forall f, working (b_prods s) f ->
    0 <= f < n /\ f + enqueueBatch <= b_feed s /\ f mod enqueueBatch = 0;
  bo_distinct : forall p q f, b_prods s !! p = Some (Some f) -> b_prods s !! q = Some (Some f) -> p = q;
  bo_sizes : Forall (fun b => 0 < Z.of_nat (length b) <= enqueueBatch) (b_calls s);
  bo_nodup : NoDup (mjoin (b_calls s));
  bo_calls : forall j, j ∈ mjoin (b_calls s) <->
    (0 <= j < n /\ j < b_feed s) /\ ~ working (b_prods s) (enqueueBatch * (j / enqueueBatch));
}.

Lemma batched_init_ok w : batched_ok (batched_init producers w).
Proof.
  assert (forall f, ~ working (replicate (Z.to_nat producers) None) f) as Hno.
  { intros f (p & [H _]%lookup_replicate). done. }
  split; cbn; [by rewrite length_replicate | | | | constructor | constructor |].
  - rewrite Zmod_0_l. lia.
  - intros f Hf. by destruct (Hno f).
  - intros p q f Hp'. destruct (Hno f). by exists p.
  - intros j. split; [set_solver | lia].
Qed.

Lemma working_insert ps p o f :
  (p < length ps)%nat -> working (<[p := o]> ps) f <-> o = Some f \/ exists q, q <> p /\ ps !! q = Some (Some f).
Proof.
  intros Hlt. unfold working. split.
  - intros (q & Hq). destruct (decide (p = q)) as [->|Hne].
    + rewrite list_lookup_insert_eq in Hq by done. simplify_eq. by left.
    + rewrite list_lookup_insert_ne in Hq by done. right. by exists q.
  - intros [->|(q & Hne & Hq)].
    + exists p. by rewrite list_lookup_insert_eq.
    + exists q. by rewrite list_lookup_insert_ne.
Qed.

Lemma batch_recv_ok p s s' : batched_ok s -> batch_recv enqueueBatch n p s = Some s' -> batched_ok s'.
Proof.
  intros [H1 [H2 H2m] H3 H4 H5 H6 H7] Hc. unfold batch_recv in Hc.
  destruct (b_fatal s), (b_prods s !! p) as [[f|]|] eqn:Ep; try done.
  destruct (Z.ltb_spec (b_feed s) n) as [Hlt|]; [|done]. simplify_eq.
  rewrite wrap64_id by (unfold int64_ok, min_int64, max_int64 in *; lia).
  pose proof (lookup_lt_Some _ _ _ Ep) as Hplt.
  assert (forall f, (exists q, q <> p /\ b_prods s !! q = Some (Some f)) <-> working (b_prods s) f) as Hold.
  { intros f. split; [intros (q & _ & Hq); by exists q|]. intros (q & Hq). exists q. split; [|done]. congruence. }
  split; cbn; [by rewrite length_insert | | | | done | done |].
  - split; [lia|]. rewrite <- Z.add_mod_idemp_l, H2m by lia. by rewrite Z.add_0_l, Z_mod_same_full.
  - intros f. rewrite working_insert, Hold by done. intros [[= <-]|Hf]; [lia|].
    destruct (H3 f Hf) as (G1 & G2 & G3). lia.
  - intros q r f. destruct (decide (p = q)) as [<-|Hq], (decide (p = r)) as [<-|Hr];
      rewrite ?list_lookup_insert_eq, ?list_lookup_insert_ne by done; [done | | | by apply H4].
    + intros [= <-] Hf. destruct (H3 (b_feed s)) as (_ & G & _); [by exists r | lia].
    + intros Hf [= <-]. destruct (H3 (b_feed s)) as (_ & G & _); [by exists q | lia].
  - intros j. rewrite H7, working_insert, Hold by done.
    pose proof (block_iff enqueueBatch (b_feed s) j Hm H2m) as Hb.
    split; [intros ((Hj & Hjf) & Hnw) | intros ((Hj & Hjf) & Hnw)].
    + split; [lia|]. intros [[= Heq]|Hw]; [|done]. symmetry in Heq. apply Hb in Heq. lia.
    + split; [|tauto]. split; [done|]. destruct (decide (j < b_feed s)) as [|Hge]; [done|]. exfalso. apply Hnw. left.
      f_equal. symmetry. apply Hb. lia.
Qed.

Lemma bench_batch_elem f j : 0 <= f < n -> j ∈ bench_batch enqueueBatch n f <-> f <= j < Z.min (f + enqueueBatch) n.
Proof.
  intros Hf. unfold bench_batch. rewrite wrap64_id by (unfold int64_ok, min_int64, max_int64 in *; lia).
  rewrite elem_of_seqZ. lia.
Qed.

Lemma batch_call_ok p envs sets s s' :
  batched_ok s -> batch_call (B := B) enqueueBatch n p envs sets s = Some s' -> batched_ok s'.
Proof.
  intros Hok Hc. pose proof Hok as [H1 H2 H3 H4 H5 H6 H7]. unfold batch_call in Hc.
  destruct (b_fatal s), (b_prods s !! p) as [[f|]|] eqn:Ep; try done.
  destruct (queue_EnqueueBatch _ _ _) as [w [evs [ids [err|]]]]; simplify_eq; [by split|].
  pose proof (lookup_lt_Some _ _ _ Ep) as Hplt. destruct (H3 f) as (G1 & G2 & G3); [by exists p|].
  assert (forall f', working (<[p := None]> (b_prods s)) f' <-> working (b_prods s) f' /\ f' <> f) as Hwork.
  { intros f'. rewrite working_insert by done. split.
    - intros [?|(q & Hne & Hq)]; [done|]. split; [by exists q|]. intros ->. by destruct Hne, (H4 q p f Hq Ep).
    - intros ((q & Hq) & Hne). right. exists q. split; [congruence | done]. }
  split; cbn; [by rewrite length_insert | done | | | | |].
  - intros f' [Hf' _]%Hwork. by apply H3.
  - intros q r f'. destruct (decide (p = q)) as [<-|Hq], (decide (p = r)) as [<-|Hr];
      rewrite ?list_lookup_insert_eq, ?list_lookup_insert_ne by done; [done | done | done | by apply H4].
  - apply Forall_app. split; [done|]. constructor; [|done]. unfold bench_batch.
    rewrite wrap64_id by (unfold int64_ok, min_int64, max_int64 in *; lia). rewrite length_seqZ. lia.
  - rewrite join_app. cbn. rewrite app_nil_r. apply NoDup_app. split_and!; [done | | apply NoDup_seqZ].
    intros j [_ Hnw]%H7 Hj%bench_batch_elem; [|done]. apply Hnw. exists p. rewrite Ep. do 2 f_equal.
    symmetry. apply (block_iff enqueueBatch f j Hm G3). lia.
  - intros j. rewrite join_app. cbn. rewrite app_nil_r, elem_of_app, H7, bench_batch_elem, Hwork by done.
    pose proof (block_iff enqueueBatch f j Hm G3) as Hb. split.
    + intros [[Hj Hnw]|Hj]; [tauto|]. split; [lia|]. intros [_ Hne]. apply Hne, Hb. lia.
    + intros [Hj Hnw]. destruct (decide (enqueueBatch * (j / enqueueBatch) = f)) as [Heq|Hne]; [right|left; tauto].
      apply Hb in Heq. lia.
Qed.

Lemma batched_reach_ok w s : rtc step (batched_init producers w) s -> batched_ok s.
Proof.
  intros Hr. eapply (rtc_ind_r (fun s => batched_ok s)); [apply batched_init_ok | | exact Hr].
  intros x y _ [(p & Hc)|(p & envs & sets & Hc)] Hx; [by eapply batch_recv_ok | by eapply batch_call_ok].
Qed.

(** The benchmark's backlog is what it says: in any interleaving of the
    goroutine that hands out batches and of the producers, every EnqueueBatch has
    between one and [enqueueBatch] jobs; when all are done each payload below [n] was
    enqueued once, and until then, unless a call failed, they can go on. *)
Theorem batches_exact w s :
  rtc step (batched_init producers w) s -> b_fatal s = None ->
  Forall (fun b => 0 < Z.of_nat (length b) <= enqueueBatch) (b_calls s) /\
  (batched_done n s -> mjoin (b_calls s) ≡ₚ seqZ 0 n) /\ (~ batched_done n s -> exists s', step s s').
Proof.
  intros Hr Hf. destruct (batched_reach_ok w s Hr) as [H1 H2 H3 H4 H5 H6 H7]. split_and!; [done | |].
  - intros [Hd1 Hd2]. apply NoDup_all; [done|]. intros j. rewrite H7. split; [tauto|]. intros Hj. split; [lia|].
    intros (p & Hw). by pose proof (Forall_lookup_1 _ _ _ _ Hd2 Hw).
  - intros Hd. destruct (decide (Forall (fun o => o = None) (b_prods s))) as [Hall|Hsome].
    + assert (b_feed s < n) as Hlt by (apply Z.nle_gt; intros Hle; by apply Hd).
      destruct (lookup_lt_is_Some_2 (b_prods s) 0) as [o Ho]; [lia|].
      pose proof (Forall_lookup_1 _ _ _ _ Hall Ho) as ->. eexists. left. exists 0%nat. unfold batch_recv.
      by rewrite Hf, Ho, (proj2 (Z.ltb_lt _ _) Hlt).
    + apply not_Forall_Exists in Hsome; [|apply _]. apply Exists_exists in Hsome as ([f|] & Hi & Hne); [|by destruct Hne].
      apply list_elem_of_lookup in Hi as (p & Hi).
      destruct (batch_call enqueueBatch n p (fun _ => JobEnv [] 0) [] s) as [s'|] eqn:E;
        [exists s'; right; by exists p, (fun _ => JobEnv [] 0), []|].
      unfold batch_call in E. rewrite Hf, Hi in E. by destruct (queue_EnqueueBatch _ _ _) as [w' [evs [ids err]]].
Qed.
End batched.
End backlog.

(** ** The barrier *)

Section barrier.

(** Each request ran at most once: a reliable client. *)
Definition once (k : nat) : Prop := (k <= 1)%nat.

Definition counted (ws : list worker_pc) : nat := length (filter (fun pc => pc <> WStarting) ws).

Definition barrier_ok (b : barrier) : Prop :=
  r_ready b <= Z.of_nat (counted (r_workers b)) /\
  (r_go b = true \/ WRunning ∈ r_workers b -> counted (r_workers b) = length (r_workers b)).

Lemma counted_le ws : (counted ws <= length ws)%nat.
Proof. apply length_filter. Qed.

(** A worker that leaves its start is counted, and others stay as they are. *)
Lemma counted_insert ws p pc pc' :
  ws !! p = Some pc -> pc' <> WStarting ->
  counted (<[p := pc']> ws) = (counted ws + (if decide (pc = WStarting) then 1 else 0))%nat.
Proof.
  intros Hp Hpc. unfold counted. rewrite <- (take_drop_middle ws p pc Hp) at 2.
  rewrite insert_take_drop by (by eapply lookup_lt_Some). rewrite !filter_app, !length_app, (filter_cons_True _ pc') by done.
  destruct (decide (pc = WStarting)) as [->|Hn]; [rewrite filter_cons_False by naive_solver | rewrite filter_cons_True by done];
    cbn; lia.
Qed.

Lemma barstep_ok b b' : barstep once b b' -> barrier_ok b -> barrier_ok b'.
Proof.
  intros Hst [Hr Hg]. destruct Hst as [p k failed b Hp Hk _|p b Hp Hgo|p pc b Hp|k b _ Hrd _]; unfold barrier_ok; cbn -[counted].
  - pose proof (counted_insert _ _ _ (if failed then WExited else WWaiting) Hp ltac:(by destruct failed)) as Hc.
    rewrite decide_True in Hc by done. pose proof (counted_le (<[p := if failed then WExited else WWaiting]> (r_workers b))) as Hle.
    rewrite length_insert in *. unfold once in Hk. split; [lia|]. intros Hor.
    assert (counted (r_workers b) = length (r_workers b)); [|lia]. apply Hg. destruct Hor as [|Hin]; [by left|right].
    apply list_elem_of_lookup in Hin as (q & Hq). apply list_lookup_insert_Some in Hq as [(-> & E & _)|[_ Hq]].
    + by destruct failed.
    + by apply list_elem_of_lookup_2 in Hq.
  - rewrite (counted_insert _ _ _ WRunning Hp), decide_False, Nat.add_0_r, length_insert by done.
    split; [done|]. intros _. apply Hg. by left.
  - rewrite (counted_insert _ _ _ WExited Hp), length_insert by done. split; [lia|]. intros Hor.
    assert (counted (r_workers b) = length (r_workers b)) as Hall.
    { apply Hg. destruct Hor as [|Hin]; [by left|right]. apply list_elem_of_lookup in Hin as (q & Hq).
      apply list_lookup_insert_Some in Hq as [(_ & E & _)|[_ Hq]]; [done|]. by apply list_elem_of_lookup_2 in Hq. }
    pose proof (counted_le (<[p := WExited]> (r_workers b))) as Hle.
    rewrite (counted_insert _ _ _ WExited Hp), length_insert in Hle by done. lia.
  - split; [done|]. intros _. pose proof (counted_le (r_workers b)). lia.
Qed.

(** No worker claims before all have started, so start-up is not timed. *)
Theorem barrier_holds n b p q :
  rtc (barstep once) (barrier_init n) b -> r_workers b !! p = Some WRunning -> r_workers b !! q <> Some WStarting.
Proof.
  intros Hr Hp Hq. assert (barrier_ok b) as [_ Hg].
  { eapply (rtc_ind_r (fun b => barrier_ok b)); [| |exact Hr].
    - split; [cbn; lia|]. cbn. intros [?|Hin]; [done|]. by apply elem_of_replicate in Hin as [? _].
    - intros x y _ Hxy Hx. by eapply barstep_ok. }
  specialize (Hg (or_intror (list_elem_of_lookup_2 _ _ _ Hp))).
  pose proof (counted_insert _ _ _ WExited Hq ltac:(done)) as Hc. rewrite decide_True in Hc by done.
  pose proof (counted_le (<[q := WExited]> (r_workers b))) as Hle. rewrite length_insert in Hle. lia.
Qed.

Lemma barrier_run : rtc (barstep once) (barrier_init 2)
  (mkBarrier 2 true [WRunning; WWaiting] true).
Proof.
  eapply rtc_l; [by apply (bar_ready once 0 1 false); [|unfold once; lia|lia]|].
  eapply rtc_l; [by apply (bar_ready once 1 1 false); [|unfold once; lia|lia]|].
  eapply rtc_l; [by apply (bar_release once 1); [| |unfold once; lia]|].
  eapply rtc_l; [by apply (bar_go once 0)|]. apply rtc_refl.
Qed.

Example barrier_holds_witness :
  ([WRunning; WWaiting] : list worker_pc) !! 1%nat <> Some WStarting.
Proof. exact (barrier_holds 2 _ 0 1 barrier_run eq_refl). Defined.

(** With a client that repeats a request, one worker counts for two and starts
    while the other is still starting. *)
Example barrier_early : exists b, rtc (barstep (fun _ => True)) (barrier_init 2) b /\
  r_workers b = [WRunning; WStarting].
Proof.
  exists (mkBarrier 2 true [WRunning; WStarting] true). split; [|done].
  eapply rtc_l; [by apply (bar_ready _ 0 2 false); [| |lia]|].
  eapply rtc_l; [by apply (bar_release _ 1)|].
  eapply rtc_l; [by apply (bar_go _ 0)|]. apply rtc_refl.
Qed.

(** [release] drops the error of its Set: when the request is lost the controller
    goes on and no worker is ever started. *)
Definition shut (b : barrier) : Prop := r_released b = true /\ r_go b = false /\ ~ (WRunning ∈ r_workers b).

Example release_lost :
  rtc (barstep once) (barrier_init 1) (mkBarrier 1 false [WWaiting] true) /\
  forall b, rtc (barstep once) (mkBarrier 1 false [WWaiting] true) b -> ~ (WRunning ∈ r_workers b).
Proof.
  split.
  - eapply rtc_l; [by apply (bar_ready once 0 1 false); [|unfold once; lia|lia]|].
    eapply rtc_l; [by apply (bar_release once 0); [| |unfold once; lia]|]. apply rtc_refl.
  - intros b Hr. assert (shut b) as (_ & _ & H); [|done].
    eapply (rtc_ind_r shut); [| |exact Hr]; [split_and!; set_solver|].
    assert (forall (ws : list worker_pc) p pc, ~ (WRunning ∈ ws) -> pc <> WRunning -> ~ (WRunning ∈ <[p := pc]> ws)) as Hins.
    { intros ws p pc H1 H2 (q & Hq)%list_elem_of_lookup.
      apply list_lookup_insert_Some in Hq as [(_ & E & _)|[_ Hq]]; [done|]. by apply H1, (list_elem_of_lookup_2 _ q). }
    intros x y _ Hxy (Hre & Hgo & Hno). destruct Hxy as [p k failed b0 Hp _ _|p b0 Hp Hg|p pc b0 Hp|k b0 Hf _ _];
      [|congruence| |congruence]; (split_and!; [done | done|]); cbn; apply Hins; try done. by destruct failed.
Qed.
End barrier.

(** ** Quantiles *)

Lemma trunc_mono q r : (-1 < q)%Q -> (q <= r)%Q -> trunc q <= trunc r.
Proof.
  intros Hq Hqr. destruct (trunc_gt r ltac:(lra)) as [H0 H1]. apply trunc_le; [lra | done].
Qed.

(** Lengths for which the index is computed to within one half. *)
Definition sample_ok (len : nat) : Prop := (0 < len)%nat /\ Z.of_nat len < 2 ^ 50.

Definition near (len : nat) (p : Q) : Q := rnd (rnd p * rnd (inject_Z (Z.of_nat len - 1)))%Q.

Lemma rnd_50 : rnd (50 # 100) = (1 # 2)%Q.
Proof. reflexivity. Qed.
Lemma rnd_95 : ((949 # 1000) < rnd (95 # 100) < (951 # 1000))%Q.
Proof. split; reflexivity. Qed.
Lemma rnd_99 : ((989 # 1000) < rnd (99 # 100) < (991 # 1000))%Q.
Proof. split; reflexivity. Qed.

Lemma near_close len p c d :
  sample_ok len -> (c <= rnd p <= d)%Q -> (0 < c)%Q -> (d < 1)%Q ->
  let m := inject_Z (Z.of_nat len - 1) in
  (c * m - (1 # 4) <= near len p <= d * m + (1 # 4))%Q.
Proof.
  intros [Hl1 Hl2] Hp Hc Hd m. unfold near. fold m.
  assert (0 <= m)%Q as Hm0 by (change 0%Q with (inject_Z 0); unfold m; rewrite <- Zle_Qle; lia).
  assert (m <= 1125899906842624)%Q as Hm1 by (change 1125899906842624%Q with (inject_Z (2 ^ 50)); unfold m; rewrite <- Zle_Qle; lia).
  pose proof (rnd_close m ltac:(lra)) as Hx. set (x := rnd m) in *. set (P := rnd p) in *.
  assert (c * m - (1 # 8) <= P * x <= d * m + (1 # 8))%Q as Hpx by nra.
  pose proof (rnd_close (P * x)%Q ltac:(split; nra)). lra.
Qed.

Lemma index_range len p c d :
  sample_ok len -> (c <= rnd p <= d)%Q -> (0 < c)%Q -> (d < 1)%Q ->
  0 <= quantile_index p len <= Z.of_nat len - 1.
Proof.
  intros Hl Hp Hc Hd. pose proof (near_close len p c d Hl Hp Hc Hd) as Hn. cbn zeta in Hn.
  change (quantile_index p len) with (trunc (near len p)). destruct Hl as [Hl1 Hl2].
  assert (0 <= inject_Z (Z.of_nat len - 1))%Q as Hm0 by (change 0%Q with (inject_Z 0); rewrite <- Zle_Qle; lia).
  split; [apply trunc_gt; nra | apply trunc_le; [nra | lia]].
Qed.

Lemma index_mono len p q c d k :
  sample_ok len -> ((1 # 10) <= rnd p <= d)%Q -> (c <= rnd q <= (995 # 1000))%Q -> (d < c)%Q ->
  ((c - d) * inject_Z k >= 1 # 2)%Q -> k < Z.of_nat len -> quantile_index p len <= quantile_index q len.
Proof.
  intros Hl Hp Hq Hcd Hk Hlen.
  assert (inject_Z k <= inject_Z (Z.of_nat len - 1))%Q as Hkm by (rewrite <- Zle_Qle; lia).
  pose proof (near_close len p (1 # 10) d Hl Hp ltac:(lra) ltac:(lra)) as Hn1.
  pose proof (near_close len q c (995 # 1000) Hl Hq ltac:(lra) ltac:(lra)) as Hn2. cbn zeta in Hn1, Hn2.
  assert (0 <= inject_Z (Z.of_nat len - 1))%Q as Hm0.
  { change 0%Q with (inject_Z 0). rewrite <- Zle_Qle. destruct Hl. lia. }
  apply (trunc_mono (near len p) (near len q)); [nra|]. nra.
Qed.

(** The first lengths one by one. *)
Lemma index_small len : (0 < len <= 14)%nat ->
  quantile_index (50 # 100) len <= quantile_index (95 # 100) len <= quantile_index (99 # 100) len.
Proof.
  intros Hl. do 15 (destruct len as [|len]; [vm_compute; intuition discriminate || lia|]). lia.
Qed.

Lemma index_ordered len : sample_ok len ->
  quantile_index (50 # 100) len <= quantile_index (95 # 100) len <= quantile_index (99 # 100) len.
Proof.
  intros Hl. destruct (decide (len <= 14)%nat) as [Hs|Hb]; [apply index_small; destruct Hl; lia|].
  pose proof rnd_50 as H50. pose proof rnd_95 as H95. pose proof rnd_99 as H99. split.
  - apply (index_mono len _ _ (949 # 1000) (1 # 2) 14 Hl); [rewrite H50; lra | lra | lra | | lia].
    change (inject_Z 14) with 14%Q. lra.
  - apply (index_mono len _ _ (989 # 1000) (951 # 1000) 14 Hl); [lra | lra | lra | | lia].
    change (inject_Z 14) with 14%Q. lra.
Qed.

Lemma waits_length raw : length (waits_of raw) = length raw.
Proof. unfold waits_of. by rewrite merge_sort_Permutation, length_fmap. Qed.

Lemma at_some raw p c d : sample_ok (length raw) -> (c <= rnd p <= d)%Q -> (0 < c)%Q -> (d < 1)%Q ->
  exists x, at_ (waits_of raw) p = Some x /\ waits_of raw !! Z.to_nat (quantile_index p (length raw)) = Some x.
Proof.
  intros Hl Hp Hc Hd. pose proof (index_range _ _ _ _ Hl Hp Hc Hd) as Hr. unfold at_. rewrite waits_length.
  destruct (Z.ltb_spec (quantile_index p (length raw)) 0); [lia|].
  destruct (lookup_lt_is_Some_2 (waits_of raw) (Z.to_nat (quantile_index p (length raw)))) as [x Hx];
    [rewrite waits_length; lia|]. eauto.
Qed.

Lemma sorted_lookup (l : list Z) i j x y :
  StronglySorted Z.le l -> (i <= j)%nat -> l !! i = Some x -> l !! j = Some y -> x <= y.
Proof.
  intros Hs Hij Hx Hy. destruct (decide (i = j)) as [->|Hne]; [simplify_eq; lia|].
  revert i j Hij Hne Hx Hy. induction Hs as [|a l Hs IH Hall]; intros [|i] [|j] Hij Hne Hx Hy; try lia; try done; cbn in *.
  - simplify_eq. by eapply (Forall_lookup_1 _ _ _ _ Hall).
  - apply (IH i j); try done; lia.
Qed.

(** The three figures are waiting times of the sample, in ascending order, for any
    sample that is not empty. *)
Theorem quantiles_ordered raw :
  sample_ok (length raw) -> exists p50 p95 p99, quantiles raw = Some (p50, p95, p99) /\ p50 <= p95 <= p99 /\
    p50 ∈ waits_of raw /\ p95 ∈ waits_of raw /\ p99 ∈ waits_of raw.
Proof.
  intros Hl. pose proof rnd_50 as H50. pose proof rnd_95 as H95. pose proof rnd_99 as H99.
  pose proof (index_ordered _ Hl) as Hord.
  destruct (at_some raw (50 # 100) (1 # 2) (1 # 2) Hl) as (x & Ex & Lx); [rewrite H50; lra | lra | lra |].
  destruct (at_some raw (95 # 100) (949 # 1000) (951 # 1000) Hl) as (y & Ey & Ly); [lra | lra | lra |].
  destruct (at_some raw (99 # 100) (989 # 1000) (991 # 1000) Hl) as (z & Ez & Lz); [lra | lra | lra |].
  assert (StronglySorted Z.le (waits_of raw)) as Hs by (apply StronglySorted_merge_sort; apply _).
  exists x, y, z. unfold quantiles. rewrite Ex, Ey, Ez. split; [done|]. split_and!.
  - eapply sorted_lookup; [exact Hs | | exact Lx | exact Ly]. lia.
  - eapply sorted_lookup; [exact Hs | | exact Ly | exact Lz]. lia.
  - by apply list_elem_of_lookup_2 in Lx.
  - by apply list_elem_of_lookup_2 in Ly.
  - by apply list_elem_of_lookup_2 in Lz.
Qed.

(** With no latency jobs the index is out of range and the program panics. *)
Example quantiles_empty : quantiles [] = None.
Proof. reflexivity. Qed.

(** With no producers the backlog is done at once and empty, whatever [n] is. *)
Lemma no_producers {W} (w : W) n : single_done n (single_init 0 w) /\ s_calls (single_init 0 w) = [].
Proof. split; [constructor | done]. Qed.

(** ** A run *)

(** A backend that keeps the jobs in a list. *)
Definition list_backend : Backend (list Job) := {|
  be_Enqueue job w := (w ++ [job], (ID job, None));
  be_Claim _ _ _ w := (w, ([], None));
  be_RecoverExpired _ _ _ w := (w, ([], None));
  be_Extend _ w := (w, None);
  be_Ack _ w := (w, None);
  be_Retry _ _ w := (w, None);
  be_DeadLetter _ _ w := (w, None);
  be_Stats w := (w, Ok (mkStats (Z.of_nat (length w)) 0 0 0));
  be_EnqueueBatch := None;
  be_AckBatch := None;
  be_ExtendBatch := None;
  be_Deregister := None;
|}.

(** Two producers enqueue five jobs in batches of two; the last batch is in before
    the second. *)
Definition demo_batches : option (batched (W := list Job)) :=
  let call p := batch_call (B := list_backend) 2 5 p (fun i => JobEnv [] i) [] in
  s1 ← batch_recv 2 5 0 (batched_init 2 []); s2 ← batch_recv 2 5 1 s1; s3 ← call 0%nat s2;
  s4 ← batch_recv 2 5 0 s3; s5 ← call 0%nat s4; call 1%nat s5.

Definition demo_last : batched (W := list Job) := default (batched_init 0 []) demo_batches.

Lemma demo_reached : rtc (bstep (B := list_backend) 2 5) (batched_init 2 []) demo_last.
Proof.
  eapply rtc_l; [left; exists 0%nat; reflexivity|]. eapply rtc_l; [left; exists 1%nat; reflexivity|].
  eapply rtc_l; [right; exists 0%nat, (fun i => JobEnv [] i), []; reflexivity|].
  eapply rtc_l; [left; exists 0%nat; reflexivity|].
  eapply rtc_l; [right; exists 0%nat, (fun i => JobEnv [] i), []; reflexivity|].
  eapply rtc_l; [right; exists 1%nat, (fun i => JobEnv [] i), []; reflexivity|].
  apply rtc_refl.
Qed.

Lemma batches_exact_witness :
  b_calls demo_last = [[0; 1]; [4]; [2; 3]] /\ mjoin (b_calls demo_last) ≡ₚ seqZ 0 5.
Proof.
  split; [reflexivity|].
  apply (batches_exact (B := list_backend) 2 2 5 ltac:(lia) ltac:(lia) ltac:(lia) ltac:(done) [] demo_last demo_reached eq_refl).
  split; [by vm_compute | repeat constructor].
Defined.
