(* ===== verification/BenchRun.v ===== *)
(** * The benchmark's tests and figures ([cmd/bench/main.go])

    The handler of a benchmark worker, when the controller takes a test for finished, and
    the figures of the table. Measured times are arguments. *)

From S2P Require Import Prelude GoNum GoTime Errors Job Json GoText Retry GoDuration GoFloat Redis Scripts Store Backend Queue Worker Sharded Flags RedisUtil Tools Bench BenchProps.
From Stdlib Require Import Ascii DecimalString QArith.
From stdpp Require Import strings sorting.

Open Scope Z_scope.

(** ** The processor time of Redis ([CPUSeconds]) *)

Definition cpu_line (total : float64) (line : string) : float64 :=
  match Cut ":" (TrimSpace line) with
  | Some (k, v) =>
      if bool_decide (k = "used_cpu_user") || bool_decide (k = "used_cpu_sys") then fadd total (float_value v) else total
  | None => total
  end.

Definition cpu_total (info : string) : float64 := foldl cpu_line (F_fin 0) (split_on "010" info).

(** What [INFO] answers on each node, by address; a node that fails has no entry. *)
Definition CPUSeconds (nodes : list (string * result error string)) : gmap string float64 :=
  foldl (fun out n => match n.2 with Ok info => <[n.1 := cpu_total info]> out | Err _ => out end) ∅ nodes.

(** [busy]: [order] lists [after] in the order of the iteration. *)
Definition busy_sum (before : gmap string float64) (elapsed : Z) (order : list (string * float64)) : float64 * float64 :=
  foldl (fun acc n =>
    let share := fdiv (fsub n.2 (default (F_fin 0) (before !! n.1))) (Seconds elapsed) in
    (fadd acc.1 share, fmax acc.2 share)) (F_fin 0, F_fin 0) order.

Definition percent (x : float64) : string := fmt_fixed 0 (fmul x (of_int64 100)) +:+ "%".

Definition busy (before : gmap string float64) (elapsed : Z) (order : list (string * float64)) : string :=
  let '(total, busiest) := busy_sum before elapsed order in
  if (length order =? 1)%nat then percent total
  else percent total +:+ " (" +:+ Itoa (Z.of_nat (length order)) +:+ " nodes, busiest " +:+ percent busiest +:+ ")".

(** ** The throughput test *)

Record throughputResult := mkThroughput {
  jobsPerSec : float64;
  enqueuePerSec : float64;
  redisBusy : string;
}.

Definition throughput_result (jobs enqueueTime elapsed : Z) (before : gmap string float64)
    (order : list (string * float64)) : throughputResult :=
  mkThroughput (fdiv (of_int64 jobs) (Seconds elapsed)) (fdiv (of_int64 jobs) (Seconds enqueueTime))
    (busy before elapsed order).

(** The loop after the release: the answers of [Stats] it takes, up to the one that ends it. *)
Fixpoint await_drained (answers : list (result error Stats)) : option (list (result error Stats)) :=
  match answers with
  | [] => None
  | a :: rest => if bench_drained a then Some [a] else (fun l => a :: l) <$> await_drained rest
  end.

(** ** The latency test *)

(** [time.Since(job.CreatedAt).Microseconds()]: a difference of times saturates. *)
Definition wait_us (now : Z) (job : Job) : Z :=
  Z.quot (Z.max min_int64 (Z.min max_int64 (now - CreatedAt job))) 1000.

(** What a worker's handler does with a job: the list of waits in Redis grows by one. *)
Definition noop_handler (latency : bool) (now : Z) (job : Job) (waits : list string) : list string * JobResult :=
  (if latency then waits ++ [Itoa (wait_us now job)] else waits, mkJobResult false None).

(** The jobs of the test, one per tick; an error ends the program. *)
Fixpoint latency_enqueue {W} {B : Backend W} (envs : list (job_env * list (string * string))) (i : Z) (w : W) :
    W * result error (list string) :=
  match envs with
  | [] => (w, Ok [])
  | (e, sets) :: envs' =>
      let '(w1, (_, r)) := queue_Enqueue "noop" (noop_env i e) noop_opts sets w in
      match r with
      | Err err => (w1, Err (ErrWrap "enqueue: " err ""))
      | Ok id =>
          let '(w2, rs) := latency_enqueue envs' (i + 1) w1 in
          (w2, match rs with Ok ids => Ok (id :: ids) | Err err => Err err end)
      end
  end.

(** The interval of the ticker; [None] is a panic, of the division or of [NewTicker]. *)
Definition tick_interval (rate : Z) : option Z :=
  if rate =? 0 then None else let d := Z.quot second rate in if d <=? 0 then None else Some d.

(** The wait for the sample; an error of [LLEN] counts as an empty list. *)
Definition sample_complete (llen : result error Z) (latencyJobs : Z) : bool :=
  negb (match llen with Ok n => n | Err _ => 0 end <? latencyJobs).

(** ** The table *)

(** A test's key prefix, and its queue. *)
Definition bench_prefix (now : Z) : string := "bench:" +:+ Itoa now +:+ ":".

Definition bench_open {R : Redis} {C : Client R} (o : BenchCmd.bench_options) (prefix : string) :
    SE rdb error (opened * list Config) := Open (BenchCmd.target o) prefix 0.

Definition bench_header (o : BenchCmd.bench_options) : list string :=
  [target_String (BenchCmd.target o) +:+ ": " +:+ Itoa (BenchCmd.jobs o) +:+ " jobs, concurrency " +:+
     Itoa (BenchCmd.concurrency o) +:+ " per worker process, enqueue batches of " +:+ Itoa (BenchCmd.enqueueBatch o) +:+
     ", poll interval " +:+ Duration_String (BenchCmd.pollInterval o) +:+ ", latency test at " +:+ Itoa (BenchCmd.rate o) +:+
     " jobs/s"; "";
   "| mode | workers | throughput (jobs/s) | redis cpu | enqueue (jobs/s) | pickup p50 | pickup p95 | pickup p99 |";
   "|---|---|---|---|---|---|---|---|"].

Definition ms (d : Z) : string := fmt_fixed 1 (fdiv (of_int64 (Z.quot d 1000)) (of_int64 1000)) +:+ "ms".

Definition row (mode : string) (w : Z) (jobsRate redis enqueueRate p50 p95 p99 : string) : string :=
  "| " +:+ mode +:+ " | " +:+ Itoa w +:+ " | " +:+ jobsRate +:+ " | " +:+ redis +:+ " | " +:+ enqueueRate +:+ " | " +:+
  p50 +:+ " | " +:+ p95 +:+ " | " +:+ p99 +:+ " |".

Definition bench_row (mode : string) (w : Z) (t : throughputResult) (p : Z * Z * Z) : option string :=
  n ← int_of (jobsPerSec t); m ← int_of (enqueuePerSec t);
  Some (row mode w (commas n) (redisBusy t) (commas m) (ms p.1.1) (ms p.1.2) (ms p.2)).

Example CPUSeconds_ex :
  CPUSeconds [("a:1", Ok ("# CPU" +:+ String "013" (String "010" "used_cpu_sys:1.5") +:+ String "013" (String "010" "used_cpu_user:2.25")));
              ("b:1", Err (ErrMsg "down"))] = {["a:1" := F_fin (15 # 4)]}.
Proof. vm_compute. reflexivity. Qed.

Example bench_row_ex :
  bench_row "block" 4 (throughput_result 100000 (2 * second) (8 * second) {["a:1" := F_fin 1]} [("a:1", F_fin 7)])
    (1234567, 15000000, 99950000) =
  Some "| block | 4 | 12,500 | 75% | 50,000 | 1.2ms | 15.0ms | 100.0ms |".
Proof. vm_compute. reflexivity. Qed.

Example tick_interval_ex : tick_interval 200 = Some 5000000 /\ tick_interval 0 = None /\ tick_interval (-5) = None /\ tick_interval 2000000000 = None.
Proof. vm_compute. split_and!; reflexivity. Qed.

(** *** What the figures are of *)

Lemma parse_us_Itoa z : int64_ok z -> parse_us (Itoa z) = z.
Proof.
  intros Hz. pose proof (Itoa_not_plus z) as Hp. pose proof (int_of_string_Itoa z) as Hi. unfold parse_us.
  assert (forall (o : option Z), o = Some z -> match o with Some x => Z.max min_int64 (Z.min max_int64 x) | None => 0 end = z) as H.
  { intros o ->. unfold int64_ok in Hz. lia. }
  destruct (Itoa z) as [|c r]; [done|].
  destruct c as [[] [] [] [] [] [] [] []]; apply H; try exact Hi; by edestruct Hp.
Qed.

(** The waits the workers of a latency test leave in Redis. *)
Definition sample (runs : list (Z * Job)) : list string :=
  foldl (fun waits run => (noop_handler true run.1 run.2 waits).1) [] runs.

Lemma sample_eq runs : sample runs = (fun run => Itoa (wait_us run.1 run.2)) <$> runs.
Proof.
  unfold sample, noop_handler. cbn [fst].
  induction runs as [|r runs IH] using rev_ind; [done|]. by rewrite foldl_snoc, IH, fmap_app.
Qed.

Lemma wait_us_ok now job : int64_ok (wait_us now job) /\ int64_ok (wait_us now job * 1000).
Proof. unfold wait_us, int64_ok, min_int64, max_int64. Z.quot_rem_to_equations. lia. Qed.

Lemma waits_of_sample runs : waits_of (sample runs) ≡ₚ ((fun run => wait_us run.1 run.2 * 1000) <$> runs).
Proof.
  unfold waits_of. rewrite merge_sort_Permutation, sample_eq, <- list_fmap_compose.
  apply reflexive_eq, list_fmap_ext. intros _ [now job] _. cbn.
  destruct (wait_us_ok now job). rewrite parse_us_Itoa by done. by rewrite wrap64_id.
Qed.

(** The latencies the benchmark reports are real ones: each is the time from the creation
    of some job to its handler's run, rounded down to a microsecond, and they ascend. *)
Theorem latency_reported runs :
  sample_ok (length runs) -> exists p50 p95 p99,
    quantiles (sample runs) = Some (p50, p95, p99) /\ p50 <= p95 <= p99 /\
    forall p, p ∈ [p50; p95; p99] -> exists now job, (now, job) ∈ runs /\ p = wait_us now job * 1000.
Proof.
  intros Hl. destruct (quantiles_ordered (sample runs)) as (x & y & z & Hq & Ho & Hx & Hy & Hz).
  { by rewrite sample_eq, length_fmap. }
  exists x, y, z. split_and!; [done | lia | lia|]. intros p Hp.
  assert (p ∈ waits_of (sample runs)) as Hin by set_solver. rewrite waits_of_sample in Hin.
  apply list_elem_of_fmap in Hin as ([now job] & -> & Hin). eauto.
Qed.
