(* ===== verification/BenchCtl.v ===== *)
(** * The processes of the benchmark ([cmd/bench/main.go])

    A test starts its worker processes, fills the queue, lets the workers go, waits for
    the end and stops them; the tests of a run follow each other. The controller's
    goroutine and the worker processes interleave as steps; how the backlog is enqueued
    and what is measured is in [Bench] and [BenchRun]. A request to Redis may run any
    number of times ([runs]) and may be answered with an error. *)

From S2P Require Import Prelude GoNum GoTime Errors Job Store Backend Queue Retry Worker RedisUtil Tools Bench BenchProps BenchRun.
From stdpp Require Import strings relations.

Open Scope Z_scope.

(** ** State *)

(** A worker process: [bp_term] once it was sent SIGTERM, [bp_failed] if it exits with
    an error, [bp_waited] once the controller has waited for it. *)
Record bproc := BProc {
  bp_args : list string;
  bp_pc : worker_pc;
  bp_term : bool;
  bp_failed : bool;
  bp_waited : bool;
}.

(** Where the controller is in a test. [TFatal] has ended the program, without the
    deferred calls; [TPanicked] has, after them. *)
Inductive test_pc :=
  | TStart (left : nat)
  | TOpen
  | TEnqueue
  | TRelease
  | TMeasure
  | TTerm (p : nat) (panic : bool)
  | TWait (p : nat) (panic : bool)
  | TDelete (panic : bool)
  | TDone
  | TPanicked
  | TFatal (err : error).

(** The controller of a test, and the keys its workers wait at. *)
Record bench_test := BenchTest {
  bt_pc : test_pc;
  bt_prefix : string;
  bt_procs : list bproc;
  bt_ready : Z;
  bt_go : bool;
  bt_released : bool;
}.

Definition with_bpc (x : worker_pc) (p : bproc) : bproc := BProc (bp_args p) x (bp_term p) (bp_failed p) (bp_waited p).
Definition exit_with (failed : bool) (p : bproc) : bproc := BProc (bp_args p) WExited (bp_term p) failed (bp_waited p).
Definition sig_term (p : bproc) : bproc := BProc (bp_args p) (bp_pc p) true (bp_failed p) (bp_waited p).
Definition wait_proc (p : bproc) : bproc := BProc (bp_args p) (bp_pc p) (bp_term p) (bp_failed p) true.

Definition at_pc (x : test_pc) (t : bench_test) : bench_test :=
  BenchTest x (bt_prefix t) (bt_procs t) (bt_ready t) (bt_go t) (bt_released t).
Definition with_procs (ps : list bproc) (t : bench_test) : bench_test :=
  BenchTest (bt_pc t) (bt_prefix t) ps (bt_ready t) (bt_go t) (bt_released t).
Definition on_bproc (p : nat) (f : bproc -> bproc) (t : bench_test) : bench_test := with_procs (alter f p (bt_procs t)) t.
Definition count_ready (k : nat) (t : bench_test) : bench_test :=
  BenchTest (bt_pc t) (bt_prefix t) (bt_procs t) (bt_ready t + Z.of_nat k) (bt_go t) (bt_released t).

Section test.
Context (o : BenchCmd.bench_options) (mode : string) (workers : Z) (latency : bool) (runs : nat -> Prop).

Definition test_init (now : Z) : bench_test := BenchTest (TStart (Z.to_nat workers)) (bench_prefix now) [] 0 false false.

(** ** The worker processes ([runWorker]) *)

Inductive child_step : bench_test -> bench_test -> Prop :=
  | w_ready t p pr k : bt_procs t !! p = Some pr -> bp_pc pr = WStarting -> runs k -> (0 < k)%nat ->
      child_step t (count_ready k (on_bproc p (with_bpc WWaiting) t))
  | w_not_ready t p pr k : bt_procs t !! p = Some pr -> bp_pc pr = WStarting -> k = 0%nat \/ runs k ->   (* an error of INCR *)
      child_step t (count_ready k (on_bproc p (exit_with true) t))
  | w_go t p pr : bt_procs t !! p = Some pr -> bp_pc pr = WWaiting -> bt_go t = true ->
      child_step t (on_bproc p (with_bpc WRunning) t)
  | w_leave t p pr : bt_procs t !! p = Some pr -> bp_pc pr = WWaiting -> bp_term pr = true ->
      child_step t (on_bproc p (exit_with false) t)
  | w_return t p pr : bt_procs t !! p = Some pr -> bp_pc pr = WRunning -> bp_term pr = true ->
      child_step t (on_bproc p (exit_with false) t)
  | w_fail t p pr : bt_procs t !! p = Some pr -> bp_pc pr <> WExited -> child_step t (on_bproc p (exit_with true) t).

(** ** The controller *)

(** [start]: the next process. *)
Definition bench_spawn (t : bench_test) : bench_test :=
  with_procs (bt_procs t ++ [BProc (BenchCmd.bench_args o (bt_prefix t) mode latency (Z.of_nat (length (bt_procs t))))
    WStarting false false false]) t.

(** The end of [release]: [k] is how often the SET ran. *)
Definition bench_release (k : nat) (t : bench_test) : bench_test :=
  BenchTest (bt_pc t) (bt_prefix t) (bt_procs t) (bt_ready t) (bt_go t || (0 <? k)%nat) true.

(** The end of [stop]: an error of [DeletePrefix] is logged. *)
Definition bench_delete (err : option error) (t : bench_test) : bench_test :=
  match err with
  | None => BenchTest (bt_pc t) (bt_prefix t) (bt_procs t) 0 false (bt_released t)
  | Some _ => t
  end.

Inductive start_step : bench_test -> bench_test -> Prop :=
  | c_spawn t n : bt_pc t = TStart (S n) -> start_step t (at_pc (TStart n) (bench_spawn t))
  | c_no_spawn t n e : bt_pc t = TStart (S n) -> start_step t (at_pc (TFatal (ErrWrap "start worker: " e "")) t)
  | c_started t : bt_pc t = TStart 0 -> start_step t (at_pc TOpen t).

(** [throughput] between [start] and [stop]. *)
Inductive throughput_step : bench_test -> bench_test -> Prop :=
  | tp_open t : bt_pc t = TOpen -> throughput_step t (at_pc TEnqueue t)
  | tp_no_open t e : bt_pc t = TOpen -> throughput_step t (at_pc (TFatal e) t)
  | tp_enqueued t : bt_pc t = TEnqueue -> throughput_step t (at_pc TRelease t)
  | tp_no_enqueue t e : bt_pc t = TEnqueue -> throughput_step t (at_pc (TFatal (ErrWrap "enqueue: " e "")) t)
  | tp_release t k : bt_pc t = TRelease -> bt_ready t = workers -> runs k ->
      throughput_step t (at_pc TMeasure (bench_release k t))
  | tp_drained t r : bt_pc t = TMeasure -> bench_drained r = true -> throughput_step t (at_pc (TTerm 0 false) t).

(** [latency] between [start] and [stop]. *)
Inductive latency_step : bench_test -> bench_test -> Prop :=
  | lt_open t : bt_pc t = TOpen -> latency_step t (at_pc TRelease t)
  | lt_no_open t e : bt_pc t = TOpen -> latency_step t (at_pc (TFatal e) t)
  | lt_release t k : bt_pc t = TRelease -> bt_ready t = workers -> runs k ->
      latency_step t (at_pc TEnqueue (bench_release k t))
  | lt_no_ticker t : bt_pc t = TEnqueue -> tick_interval (BenchCmd.rate o) = None ->
      latency_step t (at_pc (TTerm 0 true) t)
  | lt_enqueued t : bt_pc t = TEnqueue -> tick_interval (BenchCmd.rate o) <> None -> latency_step t (at_pc TMeasure t)
  | lt_no_enqueue t e : bt_pc t = TEnqueue -> tick_interval (BenchCmd.rate o) <> None ->
      latency_step t (at_pc (TFatal (ErrWrap "enqueue: " e "")) t)
  | lt_sampled t llen raw : bt_pc t = TMeasure -> sample_complete llen (BenchCmd.latencyJobs o) = true ->
      latency_step t (at_pc (TTerm 0 (match quantiles raw with Some _ => false | None => true end)) t)
  | lt_no_sample t e : bt_pc t = TMeasure -> latency_step t (at_pc (TFatal e) t).

(** [stop], deferred by both. *)
Inductive stop_step : bench_test -> bench_test -> Prop :=
  | c_term t p panic : bt_pc t = TTerm p panic -> (p < length (bt_procs t))%nat ->
      stop_step t (at_pc (TTerm (S p) panic) (on_bproc p sig_term t))
  | c_termed t p panic : bt_pc t = TTerm p panic -> (length (bt_procs t) <= p)%nat -> stop_step t (at_pc (TWait 0 panic) t)
  | c_wait t p pr panic : bt_pc t = TWait p panic -> bt_procs t !! p = Some pr -> bp_pc pr = WExited ->
      stop_step t (at_pc (TWait (S p) panic) (on_bproc p wait_proc t))
  | c_waited t p panic : bt_pc t = TWait p panic -> (length (bt_procs t) <= p)%nat -> stop_step t (at_pc (TDelete panic) t)
  | c_deleted t err panic : bt_pc t = TDelete panic ->
      stop_step t (at_pc (if panic then TPanicked else TDone) (bench_delete err t)).

Inductive ctl_step : bench_test -> bench_test -> Prop :=
  | c_start t t' : start_step t t' -> ctl_step t t'
  | c_throughput t t' : latency = false -> throughput_step t t' -> ctl_step t t'
  | c_latency t t' : latency = true -> latency_step t t' -> ctl_step t t'
  | c_stop t t' : stop_step t t' -> ctl_step t t'.

Inductive test_step : bench_test -> bench_test -> Prop :=
  | t_worker t t' : child_step t t' -> test_step t t'
  | t_controller t t' : ctl_step t t' -> test_step t t'.
End test.

(** ** The run ([main]) *)

(** What is left to run, the test at work and those before it. *)
Record bench_prog := BenchProg {
  bg_todo : list (string * Z * bool);
  bg_run : string * Z * bool;
  bg_test : bench_test;
  bg_past : list bench_test;
}.

(** For every mode and number of workers a throughput test and then a latency test. *)
Definition bench_plan (o : BenchCmd.bench_options) : option (list (string * Z * bool)) :=
  rs ← BenchCmd.bench_runs o; Some (rs ≫= (fun r => [(r, false); (r, true)])).

(** [main] up to the tests: the options are parsed, [atoi_err] is the error of a count that
    is not a number; [ping] and [exe] are what Redis and the system answer. *)
Definition bench_main (o : BenchCmd.bench_options) (atoi_err : error) (ping : result error unit) (exe : result error string) :
    result error (list (string * Z * bool)) :=
  match bench_plan o with
  | None => Err (ErrWrap "bad -workers: " atoi_err "")
  | Some plan =>
      match ping with
      | Err e => Err (ErrWrap ("redis unavailable (" +:+ target_String (BenchCmd.target o) +:+ "): ") e "")
      | Ok _ => match exe with Err e => Err e | Ok _ => Ok plan end
      end
  end.

Inductive gstep (o : BenchCmd.bench_options) (runs : nat -> Prop) : bench_prog -> bench_prog -> Prop :=
  | g_test g t' :
      test_step o (bg_run g).1.1 (bg_run g).1.2 (bg_run g).2 runs (bg_test g) t' ->
      gstep o runs g (BenchProg (bg_todo g) (bg_run g) t' (bg_past g))
  | g_next g r rest now : bt_pc (bg_test g) = TDone -> bg_todo g = r :: rest ->
      gstep o runs g (BenchProg rest r (test_init r.1.2 now) (bg_past g ++ [bg_test g])).

Definition prog_init (r : string * Z * bool) (todo : list (string * Z * bool)) (now : Z) : bench_prog :=
  BenchProg todo r (test_init r.1.2 now) [].

Example bench_plan_ex :
  bench_plan (BenchCmd.set_workers "1, 4" BenchCmd.bench_defaults) =
  Some [("poll", 1, false); ("poll", 1, true); ("poll", 4, false); ("poll", 4, true);
        ("block", 1, false); ("block", 1, true); ("block", 4, false); ("block", 4, true)].
Proof. vm_compute. reflexivity. Qed.

(** ** Guarantees of the controller

    Tests do not overlap: when one is over its worker processes have exited, the
    controller has waited for them, and only then are its keys deleted. A test that is
    stopping can always finish. Workers start together. A fatal error, in contrast,
    leaves the workers of the test behind. *)

Lemma lookup_alter_proc f p (ps : list bproc) i pr' :
  alter f p ps !! i = Some pr' -> exists pr, ps !! i = Some pr /\ ((i <> p /\ pr' = pr) \/ (i = p /\ pr' = f pr)).
Proof.
  destruct (decide (p = i)) as [->|Hne].
  - rewrite list_lookup_alter_eq. destruct (ps !! i) as [pr|]; [|done]. intros [= <-]. eauto.
  - rewrite list_lookup_alter_ne by done. eauto 10.
Qed.

(** The process is no more. *)
Definition ended (pr : bproc) : Prop := bp_pc pr = WExited /\ bp_waited pr = true.

(** A step of a worker: one process that has not exited moves on. *)
Record worker_move (t t' : bench_test) : Prop := {
  wm_proc : exists p pr f, bt_procs t !! p = Some pr /\ bp_pc pr <> WExited /\ bt_procs t' = alter f p (bt_procs t) /\
    (forall x, bp_term (f x) = bp_term x /\ bp_waited (f x) = bp_waited x);
  wm_pc : bt_pc t' = bt_pc t;
  wm_go : bt_go t' = bt_go t;
  wm_ready : bt_ready t <= bt_ready t';
}.

Lemma child_step_move runs t t' : child_step runs t t' -> worker_move t t'.
Proof.
  destruct 1 as [t p pr k H1 H2 _ _|t p pr k H1 H2 _|t p pr H1 H2 _|t p pr H1 H2 _|t p pr H1 H2 _|t p pr H1 H2];
    (split; [eexists p, pr, _; split_and!; [done | congruence | reflexivity | done] | done | done | cbn; lia]).
Qed.

Section test.
Context (o : BenchCmd.bench_options) (mode : string) (workers : Z) (latency : bool) (runs : nat -> Prop).
Abbreviation step := (test_step o mode workers latency runs).

Definition before (p : nat) (P : bproc -> Prop) (t : bench_test) : Prop :=
  forall i pr, (i < p)%nat -> bt_procs t !! i = Some pr -> P pr.

Definition stop_ok (t : bench_test) : Prop :=
  match bt_pc t with
  | TTerm p _ => before p (fun pr => bp_term pr = true) t
  | TWait p _ => before (length (bt_procs t)) (fun pr => bp_term pr = true) t /\ before p ended t
  | TDelete _ | TDone | TPanicked => before (length (bt_procs t)) ended t
  | _ => True
  end.

Lemma before_all P t : before (length (bt_procs t)) P t <-> Forall P (bt_procs t).
Proof.
  rewrite Forall_lookup. split.
  - intros H i pr Hi. eapply H; [by eapply lookup_lt_Some | done].
  - intros H i pr _ Hi. by eapply H.
Qed.

(** What holds of some processes still does after a step of one that is not over. *)
Lemma before_move t t' n (P : bproc -> Prop) :
  worker_move t t' -> (forall pr pr', bp_term pr' = bp_term pr -> bp_waited pr' = bp_waited pr -> bp_pc pr <> WExited -> P pr -> P pr') ->
  before n P t -> before n P t'.
Proof.
  intros [(p & pr & f & Hp & Hne & Eps & Hf) _ _ _] HP Hb i pr' Hi Hi'. rewrite Eps in Hi'.
  apply lookup_alter_proc in Hi' as (pr0 & H0 & [[_ ->]|[-> ->]]).
  - by apply (Hb i).
  - assert (pr0 = pr) as -> by congruence. apply (HP pr); [apply Hf | apply Hf | done | by apply (Hb p)].
Qed.

Lemma child_step_stop_ok t t' : child_step runs t t' -> stop_ok t -> stop_ok t'.
Proof.
  intros Hst%child_step_move. pose proof Hst as [(p & pr & f & Hp & Hne & Eps & Hf) Epc _ _]. unfold stop_ok.
  assert (length (bt_procs t') = length (bt_procs t)) as -> by (rewrite Eps; apply length_alter).
  assert (forall n, before n (fun pr => bp_term pr = true) t -> before n (fun pr => bp_term pr = true) t') as Hterm.
  { intros n. apply before_move; [done|]. congruence. }
  assert (forall n, before n ended t -> before n ended t') as Hend.
  { intros n. apply before_move; [done|]. by intros ? ? _ _ ? [? _]. }
  rewrite Epc. destruct (bt_pc t); naive_solver.
Qed.

(** The next process in turn is signalled, or waited for. *)
Lemma before_next P n t f :
  before n P t -> (forall pr, bt_procs t !! n = Some pr -> P (f pr)) -> before (S n) P (on_bproc n f t).
Proof.
  intros Hb Hn i pr' Hi Hi'. apply lookup_alter_proc in Hi' as (pr & Hpr & [[Hne ->]|[-> ->]]); [|by apply Hn].
  apply (Hb i); [lia | done].
Qed.

Lemma before_more P n t : (length (bt_procs t) <= n)%nat -> before n P t -> before (length (bt_procs t)) P t.
Proof. intros Hn Hb i pr Hi. apply Hb. lia. Qed.

Lemma ctl_step_stop_ok t t' : ctl_step o mode workers latency runs t t' -> stop_ok t -> stop_ok t'.
Proof.
  unfold stop_ok. destruct 1 as [t t' Hs|t t' _ Hs|t t' _ Hs|t t' Hs];
    [destruct Hs as [t n E|t n e E|t E] | destruct Hs as [t E|t e E|t E|t e E|t k E _ _|t r E _]
    | destruct Hs as [t E|t e E|t k E _ _|t E _|t E _|t e E _|t llen raw E _|t e E]
    | destruct Hs as [t p panic E Hp|t p panic E Hp|t p pr panic E Hp Hx|t p panic E Hp|t err panic E]];
    rewrite E; cbn; try done; try (by intros _ i pr ?%Nat.nlt_0_r).
  - intros Hb. by apply (before_next (fun pr => bp_term pr = true) p t sig_term Hb).
  - intros Hb. split; [by apply before_more in Hb|]. intros i pr Hi. lia.
  - intros [Ht Hb]. rewrite length_alter. split.
    + intros i pr' Hi Hi'. apply lookup_alter_proc in Hi' as (pr0 & H0 & [[_ ->]|[-> ->]]); by apply (Ht _ pr0 Hi).
    + apply before_next; [done|]. intros pr0 H0. by assert (pr0 = pr) as -> by congruence.
  - intros [_ Hb]. by apply before_more in Hb.
  - intros Hb. destruct err; cbn; by destruct panic.
Qed.

Lemma test_step_stop_ok t t' : step t t' -> stop_ok t -> stop_ok t'.
Proof. destruct 1; [by eapply child_step_stop_ok | by eapply ctl_step_stop_ok]. Qed.

Lemma reached_stop_ok now t : rtc step (test_init workers now) t -> stop_ok t.
Proof.
  intros Hr. eapply (rtc_ind_r (fun t => stop_ok t) (test_init workers now)); [exact I | | exact Hr].
  intros x y _ Hxy Hx. by eapply test_step_stop_ok.
Qed.

(** ** The end of a test *)

Definition over (t : bench_test) : Prop := bt_pc t = TDone \/ bt_pc t = TPanicked.

(** A test is over when every process it started has exited and was waited for; its keys
    were deleted after that, and nothing is left that could write them again. *)
Lemma over_clean t : stop_ok t -> over t -> Forall ended (bt_procs t) /\ forall t', ~ step t t'.
Proof.
  intros Hok Ho. assert (Forall ended (bt_procs t)) as Hall.
  { apply before_all. unfold stop_ok in Hok. by destruct Ho as [E|E]; rewrite E in Hok. }
  split; [done|]. intros t' Hst. destruct Hst as [t t' Hw|t t' Hc].
  - apply child_step_move in Hw as [(p & pr & f & Hp & Hne & _) _ _ _]. by destruct (Forall_lookup_1 _ _ _ _ Hall Hp).
  - destruct Ho as [E|E]; destruct Hc as [t t' Hs|t t' _ Hs|t t' _ Hs|t t' Hs]; destruct Hs; congruence.
Qed.

(** ** Stopping *)

Definition stopping (t : bench_test) : Prop :=
  match bt_pc t with TTerm _ _ | TWait _ _ | TDelete _ => True | _ => False end.

(** A process that was told to stop can exit, without a crash. *)
Lemma termed_exits t p pr : bt_procs t !! p = Some pr -> bp_term pr = true ->
  exists t' pr', rtc step t t' /\ bt_pc t' = bt_pc t /\ length (bt_procs t') = length (bt_procs t) /\
    bt_procs t' !! p = Some pr' /\ bp_pc pr' = WExited.
Proof.
  intros Hp Ht. destruct (decide (bp_pc pr = WExited)) as [Hx|Hx]; [by exists t, pr|].
  assert (exists f t', child_step runs t t' /\ bt_pc t' = bt_pc t /\ bt_procs t' = alter f p (bt_procs t) /\ bp_pc (f pr) = WExited)
    as (f & t' & Hw & Epc & Eps & Hf).
  { destruct (bp_pc pr) eqn:Epc; [exists (exit_with true) | exists (exit_with false).. | done].
    - eexists. split; [by apply (w_not_ready runs t p pr 0); [..|left] | done].
    - eexists. split; [by eapply w_leave | done].
    - eexists. split; [by eapply w_return | done]. }
  exists t', (f pr). rewrite Eps, length_alter, list_lookup_alter_eq, Hp. split_and!; [|done..].
  by apply rtc_once, t_worker.
Qed.

Lemma deletes t panic : bt_pc t = TDelete panic -> exists t', rtc step t t' /\ over t'.
Proof.
  intros E. eexists. split; [by apply rtc_once, t_controller, c_stop, (c_deleted t None)|].
  unfold over. destruct panic; [by right | by left].
Qed.

Lemma waits n : forall t p panic, stop_ok t -> bt_pc t = TWait p panic -> (length (bt_procs t) - p)%nat = n ->
  exists t', rtc step t t' /\ over t'.
Proof.
  induction n as [|n IH]; intros t p panic Hok E Hn.
  { destruct (deletes (at_pc (TDelete panic) t) panic eq_refl) as (t' & Hr & Ho). exists t'. split; [|done].
    eapply rtc_l; [|exact Hr]. eapply t_controller, c_stop, c_waited; [done | lia]. }
  destruct (lookup_lt_is_Some_2 (bt_procs t) p ltac:(lia)) as [pr Hp].
  assert (bp_term pr = true) as Ht.
  { unfold stop_ok in Hok. rewrite E in Hok. apply (proj1 Hok p pr); [lia | done]. }
  destruct (termed_exits t p pr Hp Ht) as (t1 & pr1 & Hr1 & E1 & L1 & Hp1 & Hx1).
  assert (step t1 (at_pc (TWait (S p) panic) (on_bproc p wait_proc t1))) as Hst.
  { eapply t_controller, c_stop, c_wait; [by rewrite E1 | done | done]. }
  assert (stop_ok t1) as Hok1.
  { eapply (rtc_ind_r (fun x => stop_ok x)); [exact Hok | | exact Hr1]. intros x y _ Hxy Hx. by eapply test_step_stop_ok. }
  destruct (IH _ (S p) panic (test_step_stop_ok _ _ Hst Hok1) eq_refl) as (t' & Hr & Ho).
  { cbn. rewrite length_alter. lia. }
  exists t'. split; [|done]. etrans; [exact Hr1|]. by eapply rtc_l.
Qed.

Lemma terms n : forall t p panic, stop_ok t -> bt_pc t = TTerm p panic -> (length (bt_procs t) - p)%nat = n ->
  exists t', rtc step t t' /\ over t'.
Proof.
  induction n as [|n IH]; intros t p panic Hok E Hn.
  - assert (step t (at_pc (TWait 0 panic) t)) as Hst by (eapply t_controller, c_stop, c_termed; [done | lia]).
    destruct (waits _ _ 0 panic (test_step_stop_ok _ _ Hst Hok) eq_refl eq_refl) as (t' & Hr & Ho).
    exists t'. split; [by eapply rtc_l | done].
  - assert (step t (at_pc (TTerm (S p) panic) (on_bproc p sig_term t))) as Hst by (eapply t_controller, c_stop, c_term; [done | lia]).
    destruct (IH _ (S p) panic (test_step_stop_ok _ _ Hst Hok) eq_refl) as (t' & Hr & Ho).
    { cbn. rewrite length_alter. lia. }
    exists t'. split; [by eapply rtc_l | done].
Qed.

(** Once a test is stopping it can finish, whatever its workers were doing. *)
Lemma stop_finishes t : stop_ok t -> stopping t -> exists t', rtc step t t' /\ over t'.
Proof.
  intros Hok Hs. unfold stopping in Hs. destruct (bt_pc t) eqn:E; try done; [by eapply terms | by eapply waits | by eapply deletes].
Qed.
End test.

(** ** The workers start together *)

Section barrier.
Context (o : BenchCmd.bench_options) (mode : string) (workers : Z) (latency : bool) (runs : nat -> Prop).
Abbreviation step := (test_step o mode workers latency runs).

(** Processes that are not started yet. *)
Definition to_start (t : bench_test) : nat := match bt_pc t with TStart n => n | _ => 0 end.

Definition ended_early (t : bench_test) : Prop :=
  match bt_pc t with TDone | TPanicked | TFatal _ => True | _ => False end.

(** A test as [Bench]'s barrier. *)
Definition barrier_of (t : bench_test) : barrier :=
  mkBarrier (bt_ready t) (bt_go t) ((bp_pc <$> bt_procs t) ++ replicate (to_start t) WStarting) (bt_released t).

(** While it runs, it is one: its workers, and the controller's release. *)
Record as_barrier (t : bench_test) : Prop := {
  ab_reach : rtc (barstep runs) (barrier_init (Z.to_nat workers)) (barrier_of t);
  ab_ready : 0 <= bt_ready t;
  ab_count : (length (bt_procs t) + to_start t = Z.to_nat workers)%nat;
  ab_released : bt_released t = match bt_pc t with
    | TStart _ | TOpen | TRelease => false | TEnqueue => latency | _ => true end;
}.

Lemma barrier_alter f p pr t : bt_procs t !! p = Some pr -> (forall x, bp_pc (f x) = bp_pc (f pr)) ->
  (bp_pc <$> alter f p (bt_procs t)) ++ replicate (to_start t) WStarting =
  <[p := bp_pc (f pr)]> ((bp_pc <$> bt_procs t) ++ replicate (to_start t) WStarting).
Proof.
  intros Hp Hf. rewrite insert_app_l by (rewrite length_fmap; by eapply lookup_lt_Some). f_equal.
  apply list_eq. intros i. rewrite list_lookup_fmap. destruct (decide (p = i)) as [->|Hne].
  - rewrite list_lookup_alter_eq, Hp, list_lookup_insert_eq; [done|]. rewrite length_fmap. by eapply lookup_lt_Some.
  - by rewrite list_lookup_alter_ne, list_lookup_insert_ne, list_lookup_fmap.
Qed.

Lemma barrier_at p pr t : bt_procs t !! p = Some pr -> r_workers (barrier_of t) !! p = Some (bp_pc pr).
Proof. intros Hp. cbn. apply lookup_app_l_Some. by rewrite list_lookup_fmap, Hp. Qed.

Ltac as_bar f p pr t Hp := change (to_start _) with (to_start t); rewrite (barrier_alter f p pr t Hp ltac:(done)).

Lemma child_step_barrier t t' : child_step runs t t' -> barstep runs (barrier_of t) (barrier_of t').
Proof.
  destruct 1 as [t p pr k Hp Hx Hk Hk0|t p pr k Hp Hx Hk|t p pr Hp Hx Hg|t p pr Hp Hx _|t p pr Hp Hx _|t p pr Hp Hx];
    pose proof (barrier_at p pr t Hp) as Hb; try rewrite Hx in Hb; unfold barrier_of at 2;
    cbn [count_ready on_bproc with_procs bt_ready bt_go bt_procs bt_released bt_pc].
  - as_bar (with_bpc WWaiting) p pr t Hp. by apply (bar_ready runs p k false (barrier_of t)).
  - as_bar (exit_with true) p pr t Hp. destruct Hk as [->|Hk]; [|by apply (bar_ready runs p k true (barrier_of t))].
    rewrite Z.add_0_r. by apply (bar_exit runs p WStarting (barrier_of t)).
  - as_bar (with_bpc WRunning) p pr t Hp. by apply (bar_go runs p (barrier_of t)).
  - as_bar (exit_with false) p pr t Hp. by eapply (bar_exit runs p _ (barrier_of t)).
  - as_bar (exit_with false) p pr t Hp. by eapply (bar_exit runs p _ (barrier_of t)).
  - as_bar (exit_with true) p pr t Hp. by eapply (bar_exit runs p _ (barrier_of t)).
Qed.

(** Steps of the controller that only move it on. *)
Lemma same_barrier t t' : barrier_of t' = barrier_of t -> length (bt_procs t') = length (bt_procs t) -> to_start t' = to_start t ->
  bt_released t' = match bt_pc t' with TStart _ | TOpen | TRelease => false | TEnqueue => latency | _ => true end ->
  as_barrier t -> as_barrier t'.
Proof.
  intros Eb El Es Er [H1 H2 H3 H4]. split; [by rewrite Eb | | lia | done].
  change (0 <= r_ready (barrier_of t')). by rewrite Eb.
Qed.

Lemma alter_same_pc f p (ps : list bproc) : (forall x, bp_pc (f x) = bp_pc x) -> bp_pc <$> alter f p ps = bp_pc <$> ps.
Proof.
  intros Hf. apply list_eq. intros i. rewrite !list_lookup_fmap. destruct (decide (p = i)) as [->|Hne].
  - rewrite list_lookup_alter_eq. destruct (ps !! i); cbn; by rewrite ?Hf.
  - by rewrite list_lookup_alter_ne.
Qed.

Lemma release_barrier t k pc : bt_pc t = TRelease -> bt_ready t = workers -> runs k ->
  pc = TMeasure \/ (pc = TEnqueue /\ latency = true) -> as_barrier t -> as_barrier (at_pc pc (bench_release k t)).
Proof.
  intros E Hr Hk Hpc [H1 H2 H3 H4]. assert (to_start t = 0%nat) as Es by (unfold to_start; by rewrite E). rewrite E in H4. rewrite Es in H3.
  split; [|done | cbn; destruct Hpc as [->|[-> _]]; exact H3 | cbn; by destruct Hpc as [->|[-> ->]]].
  eapply rtc_r; [exact H1|].
  assert (barrier_of (at_pc pc (bench_release k t)) =
    mkBarrier (r_ready (barrier_of t)) (r_go (barrier_of t) || (0 <? k)%nat) (r_workers (barrier_of t)) true) as ->.
  { unfold barrier_of. rewrite Es. by destruct Hpc as [->|[-> _]]. }
  apply bar_release; [done | | done]. cbn. rewrite Es, app_nil_r, length_fmap. lia.
Qed.

Lemma ctl_step_barrier t t' : ctl_step o mode workers latency runs t t' -> ~ ended_early t' -> as_barrier t -> as_barrier t'.
Proof.
  intros Hc Hn Ht. pose proof Ht as [H1 H2 H3 H4].
  destruct Hc as [t t' Hs|t t' Hl Hs|t t' Hl Hs|t t' Hs];
    [destruct Hs as [t n E|t n e E|t E] | destruct Hs as [t E|t e E|t E|t e E|t k E Hr Hk|t r E _]
    | destruct Hs as [t E|t e E|t k E Hr Hk|t E _|t E _|t e E _|t llen raw E _|t e E]
    | destruct Hs as [t p panic E Hp|t p panic E Hp|t p pr panic E Hp Hx|t p panic E Hp|t err panic E]];
    rewrite E in H4; try (destruct Hn; exact I);
    try (apply (same_barrier t); [unfold barrier_of, to_start; cbn; by rewrite ?E, ?alter_same_pc
      | cbn; by rewrite ?length_alter | unfold to_start; cbn; by rewrite ?E | cbn; by rewrite ?Hl in * | done]; fail).
  - unfold to_start in H3. rewrite E in H3. split; cbn; [|done | rewrite length_app; cbn; lia | done].
    unfold barrier_of, to_start in *. cbn. rewrite E in H1. rewrite fmap_app, <- app_assoc. exact H1.
  - apply (release_barrier t k TMeasure); auto.
  - apply (release_barrier t k TEnqueue); auto.
  - destruct Hn. unfold ended_early. cbn. by destruct panic.
Qed.

Lemma early_stays t t' : step t t' -> ended_early t -> ended_early t'.
Proof.
  unfold ended_early. destruct 1 as [t t' Hw|t t' Hc].
  - apply child_step_move in Hw as [_ -> _ _]. done.
  - destruct Hc as [t t' Hs|t t' _ Hs|t t' _ Hs|t t' Hs]; destruct Hs; match goal with E : bt_pc _ = _ |- _ => rewrite E end; done.
Qed.

Lemma reached_barrier now t : rtc step (test_init workers now) t -> ended_early t \/ as_barrier t.
Proof.
  intros Hr. eapply (rtc_ind_r (fun t => ended_early t \/ as_barrier t) (test_init workers now)); [| | exact Hr].
  - right. split; [apply rtc_refl | done | done | done].
  - intros x y _ Hst [Hx|Hx]; [left; by eapply early_stays|].
    assert (Decision (ended_early y)) as Hdec by (unfold ended_early; destruct (bt_pc y); apply _).
    destruct Hdec as [?|Hn]; [by left|]. right. destruct Hst as [x y Hw|x y Hc]; [|by eapply ctl_step_barrier].
    pose proof Hx as [H1 H2 H3 H4]. pose proof (child_step_move _ _ _ Hw) as [(p & pr & f & _ & _ & Eps & _) Epc _ Hrd].
    split; [eapply rtc_r; [exact H1 | by apply child_step_barrier] | lia | |].
    + unfold to_start in *. by rewrite Epc, Eps, length_alter.
    + rewrite Epc, <- H4. by destruct Hw.
Qed.
End barrier.

(** No worker runs before all of them are started and ready, if Redis runs requests at most
    once: what the throughput test measures is the work of all its workers. *)
Theorem bench_starts_together o mode workers latency now t p q pr pr' :
  rtc (test_step o mode workers latency once) (test_init workers now) t -> ~ ended_early t ->
  bt_procs t !! p = Some pr -> bp_pc pr = WRunning ->
  length (bt_procs t) = Z.to_nat workers /\ (bt_procs t !! q = Some pr' -> bp_pc pr' <> WStarting).
Proof.
  intros Hr Hn Hp Hx. destruct (reached_barrier _ _ _ _ _ _ _ Hr) as [?|[H1 _ H3 _]]; [done|].
  pose proof (barrier_at p pr t Hp) as Hb. rewrite Hx in Hb. split.
  - destruct (to_start t) as [|n] eqn:Es; [lia|].
    destruct (barrier_holds _ _ p (length (bt_procs t)) H1 Hb). cbn. rewrite lookup_app_r by (by rewrite length_fmap).
    by rewrite length_fmap, Nat.sub_diag, Es.
  - intros Hq Hs. apply (barrier_holds _ _ p q H1 Hb). rewrite <- Hs. by apply barrier_at.
Qed.

(** ** The tests of a run *)

Section prog.
Context (o : BenchCmd.bench_options) (runs : nat -> Prop) (r : string * Z * bool) (todo : list (string * Z * bool)) (now : Z).

Record prog_ok (g : bench_prog) : Prop := {
  po_now : stop_ok (bg_test g);
  po_past : Forall (fun t => bt_pc t = TDone /\ Forall ended (bt_procs t)) (bg_past g);
}.

(** Tests never overlap: at any time of the program every worker process of an earlier test
    has exited and was waited for, so that a test's figures are of its own workers. *)
Theorem bench_tests_apart g :
  rtc (gstep o runs) (prog_init r todo now) g ->
  Forall (fun t => bt_pc t = TDone /\ Forall ended (bt_procs t)) (bg_past g) /\
  (over (bg_test g) -> Forall ended (bt_procs (bg_test g))).
Proof.
  intros Hr. assert (prog_ok g) as [H1 H2].
  { eapply (rtc_ind_r (fun g => prog_ok g) (prog_init r todo now)); [by split | | exact Hr].
    intros x y _ Hst [Hx1 Hx2]. destruct Hst as [x t' Ht|x r' rest now' Hd _]; split; cbn; try done.
    - by eapply test_step_stop_ok.
    - apply Forall_app. split; [done|]. constructor; [|done]. split; [done|].
      eapply (over_clean o (bg_run x).1.1 (bg_run x).1.2 (bg_run x).2 runs); [done | by left]. }
  split; [done|]. intros Ho. by eapply (over_clean o (bg_run g).1.1 (bg_run g).1.2 (bg_run g).2 runs).
Qed.
End prog.

(** From the moment a test starts to stop its workers it can come to its end, also when a
    panic brought it there. *)
Theorem bench_can_stop o mode workers latency runs now t :
  rtc (test_step o mode workers latency runs) (test_init workers now) t -> stopping t ->
  exists t', rtc (test_step o mode workers latency runs) t t' /\ over t' /\ Forall ended (bt_procs t').
Proof.
  intros Hr Hs. pose proof (reached_stop_ok _ _ _ _ _ _ _ Hr) as Hok.
  destruct (stop_finishes o mode workers latency runs t Hok Hs) as (t' & Hr' & Ho). exists t'. split_and!; [done | done|].
  eapply (over_clean o mode workers latency runs); [|done].
  eapply (reached_stop_ok o mode workers latency runs now). by etrans.
Qed.

(** ** A fatal error leaves the workers behind *)

(** Nothing stops the workers, or lets them go, once the program has ended. *)
Lemma fatal_forever o mode workers latency runs t t' e :
  bt_pc t = TFatal e -> bt_go t = false -> rtc (test_step o mode workers latency runs) t t' ->
  bt_pc t' = TFatal e /\ bt_go t' = false /\ bt_ready t <= bt_ready t'.
Proof.
  intros E Hg Hr. eapply (rtc_ind_r (fun t' => bt_pc t' = TFatal e /\ bt_go t' = false /\ bt_ready t <= bt_ready t') t); [done | | exact Hr].
  intros x y _ Hst (E1 & G1 & R1). destruct Hst as [x y Hw|x y Hc].
  2: { destruct Hc as [x y Hs|x y _ Hs|x y _ Hs|x y Hs]; destruct Hs; congruence. }
  apply child_step_move in Hw as [_ -> -> Hle]. split_and!; [done | done | lia].
Qed.

(** When the backlog cannot be enqueued the program exits at once: its workers wait for the
    release for ever, and the test's keys stay in Redis. *)
Example fatal_leaves_workers e :
  exists t, rtc (test_step BenchCmd.bench_defaults "block" 1 false once) (test_init 1 0) t /\
    bt_pc t = TFatal (ErrWrap "enqueue: " e "") /\ bp_pc <$> bt_procs t = [WWaiting] /\ bt_ready t = 1 /\
    forall t', rtc (test_step BenchCmd.bench_defaults "block" 1 false once) t t' ->
      bt_pc t' = TFatal (ErrWrap "enqueue: " e "") /\ bt_go t' = false /\ 1 <= bt_ready t'.
Proof.
  eexists. split.
  - eapply rtc_l; [eapply t_controller, c_start, c_spawn; reflexivity|].
    eapply rtc_l; [eapply t_worker, (w_ready _ _ 0 _ 1); [reflexivity | reflexivity | unfold once; lia | lia]|].
    eapply rtc_l; [eapply t_controller, c_start, c_started; reflexivity|].
    eapply rtc_l; [eapply t_controller, c_throughput, tp_open; reflexivity|].
    eapply rtc_l; [eapply t_controller, c_throughput, (tp_no_enqueue _ _ _ e); reflexivity|]. apply rtc_refl.
  - split_and!; [reflexivity | reflexivity | reflexivity|]. intros t' Hr. by eapply fatal_forever in Hr.
Qed.

(** A test with one worker, from its start to its end. *)
Example bench_test_runs :
  exists t, rtc (test_step BenchCmd.bench_defaults "block" 1 false once) (test_init 1 0) t /\
    bt_pc t = TDone /\ Forall ended (bt_procs t) /\ length (bt_procs t) = 1%nat /\ bt_ready t = 0 /\ bt_go t = false.
Proof.
  eexists. split.
  - eapply rtc_l; [eapply t_controller, c_start, c_spawn; reflexivity|].
    eapply rtc_l; [eapply t_worker, (w_ready _ _ 0 _ 1); [reflexivity | reflexivity | unfold once; lia | lia]|].
    eapply rtc_l; [eapply t_controller, c_start, c_started; reflexivity|].
    eapply rtc_l; [eapply t_controller, c_throughput, tp_open; reflexivity|].
    eapply rtc_l; [eapply t_controller, c_throughput, tp_enqueued; reflexivity|].
    eapply rtc_l; [eapply t_controller, c_throughput, (tp_release _ _ _ 1); [reflexivity | reflexivity | reflexivity | unfold once; lia]|].
    eapply rtc_l; [eapply t_worker, (w_go _ _ 0); reflexivity|].
    eapply rtc_l; [eapply t_controller, c_throughput, (tp_drained _ _ _ (Ok (mkStats 0 0 0 0))); reflexivity|].
    eapply rtc_l; [eapply t_controller, c_stop, c_term; [reflexivity | cbn; lia]|].
    eapply rtc_l; [eapply t_controller, c_stop, c_termed; [reflexivity | cbn; lia]|].
    eapply rtc_l; [eapply t_worker, (w_return _ _ 0); reflexivity|].
    eapply rtc_l; [eapply t_controller, c_stop, c_wait; reflexivity|].
    eapply rtc_l; [eapply t_controller, c_stop, c_waited; [reflexivity | cbn; lia]|].
    eapply rtc_l; [eapply t_controller, c_stop, (c_deleted _ None); reflexivity|]. apply rtc_refl.
  - split_and!; [reflexivity | by repeat constructor | reflexivity..].
Qed.
