(* ===== verification/ChaosPrint.v ===== *)
(** * What the chaos test prints ([cmd/chaos/main.go])

    The lines of the report, of the run's header and of the unsettled deliveries. The
    verdict printed last and the exit code agree with the marks on the lines above. *)

From S2P Require Import Prelude GoNum GoTime Errors Job GoJson Json Retry GoDuration GoFloat Flags RedisUtil.
From S2P Require Import Backend Queue Worker Tasks Downstream Chaos ChaosReport PrettyLog PrettyFormat Tools.
From Stdlib Require Import Ascii QArith.
From stdpp Require Import strings.

Open Scope Z_scope.

(** ** Verbs *)

(** [%7d] of a number, [%-34s] is [pad_right]. *)
Definition pad_left (n : nat) (s : string) : string := blanks (n - String.length s) +:+ s.

(** [%v] of a slice of ints. *)
Definition ints_text (l : list Z) : string := "[" +:+ join_space (Itoa <$> l) +:+ "]".

(** [Duration.Round]: to the nearest multiple of [m], halves away from zero. *)
Definition Duration_Round (d m : Z) : Z :=
  if m <=? 0 then d else
  let r := Z.rem d m in
  if d <? 0 then
    let r := - r in
    if r + r <? m then d + r
    else let d1 := wrap64 (d - m + r) in if d1 <? d then d1 else min_int64
  else if r + r <? m then d - r
  else let d1 := wrap64 (d + m - r) in if d <? d1 then d1 else max_int64.

(** ** The counter of lost leases *)

(** The metrics of a chaos worker: only a lost lease counts, as a key in Redis. *)
Definition leaseLostCounter (e : event) (count : Z) : Z :=
  match e with JobLeaseLost _ => count + 1 | _ => NoopMetrics e count end.

(** ** The header *)

Definition header_lines (o : ChaosCmd.chaos_options) : list string :=
  ["chaos run " +:+ trim_colon (ChaosCmd.prefix o); "  " +:+ target_String (ChaosCmd.target o);
   "  " +:+ Itoa (ChaosCmd.jobs o) +:+ " jobs, " +:+ Itoa (ChaosCmd.workers o) +:+ " workers x " +:+
     Itoa (ChaosCmd.concurrency o) +:+ ", visibility " +:+ Duration_String (ChaosCmd.visibility o) +:+ ", fail rate " +:+
     fmt_fixed 0 (fmul (ChaosCmd.failRate o) (of_int64 100)) +:+ "%"].

Example header_ex : header_lines (ChaosCmd.set_prefix "chaos:17:" ChaosCmd.chaos_defaults) =
  ["chaos run chaos:17"; "  Redis at localhost:6379, unsharded"; "  10000 jobs, 4 workers x 8, visibility 2s, fail rate 10%"].
Proof. vm_compute. reflexivity. Qed.

(** ** The report *)

(** What is printed beside the figures of [report]: the faults injected, the time, the
    reasons of other dead letters in the order of the map, the downstream counters, the
    lost leases, the consumers of each partition and the workers that crashed. *)
Record print_in := mkPrintIn {
  pi_kills : Z;
  pi_pauses : Z;
  pi_elapsed : Z;
  pi_otherDead : list (string * Z);
  pi_outcomes : gmap string string;
  pi_leaseLost : Z;
  pi_consumers : list (list string);
  pi_crashed : list string;
}.

Definition ok_word (good : bool) : string := if good then "ok" else "FAIL".

Definition item (label : string) (n : Z) : string := "  " +:+ pad_right 34 label +:+ " " +:+ pad_left 7 (Itoa n).

Definition stats_of (r : report_in) : Z * Z * Z := match ri_stats r with Ok st => st | Err _ => (0, 0, 0) end.

(** The lines with a mark: what they count, the number, whether it is good, and the rest. *)
Definition checks (r : report_in) (out : report_out) : list (string * Z * bool * string) :=
  let t := ro_tally out in
  let len {A} (l : list A) : Z := Z.of_nat (length l) in
  let '(s, p, q) := stats_of r in
  [("lost", len (t_lost t), len (t_lost t) =? 0, "");
   ("permanent failures misrouted", len (t_misrouted t), len (t_misrouted t) =? 0, "");
   ("left in queue", ro_leftover out, ro_leftover out =? 0,
     " (stream " +:+ Itoa s +:+ ", pending " +:+ Itoa p +:+ ", scheduled " +:+ Itoa q +:+ ")");
   ("jobs with duplicate side effects", len (ro_duplicateEffects out), len (ro_duplicateEffects out) =? 0, "");
   ("jobs missing their effect", len (ro_missingEffects out), len (ro_missingEffects out) =? 0, "")].

Definition check_line (c : string * Z * bool * string) : string :=
  let '(label, n, good, rest) := c in item label n +:+ "  " +:+ ok_word good +:+ rest.

Definition distinct (ls : list (list string)) : gset string := list_to_set (mjoin ls).

Definition outcome_count (p : print_in) (k : string) : Z := Atoi_value (default "" (pi_outcomes p !! k)).

Definition report_lines (r : report_in) (p : print_in) (out : report_out) : list string :=
  let t := ro_tally out in
  ["  faults injected: " +:+ Itoa (pi_kills p) +:+ " SIGKILLs, " +:+ Itoa (pi_pauses p) +:+ " SIGSTOP pauses, elapsed " +:+
     Duration_String (Duration_Round (pi_elapsed p) (100 * millisecond)); "";
   item "jobs enqueued" (ri_jobs r) +:+ "  (" +:+ Itoa (retried_enqueues (ri_jobs r)) +:+ " enqueues retried and deduped)";
   item "completed" (t_completed t);
   item "dead-lettered (permanent failures)" (t_deadExpected t)] ++
  ((fun d => item "dead-lettered (poison guard etc.)" d.2 +:+ "  " +:+ d.1) <$> pi_otherDead p) ++
  (check_line <$> checks r out) ++
  [""; "  at-least-once delivery, absorbed downstream:";
   item "duplicate runs" (t_duplicates t) +:+ "  crashed or paused between side effect and ack";
   item "jobs with overlapping runs" (t_overlapping t) +:+ "  ran concurrently; only paused zombies should do this";
   item "effects deduped by job ID" (outcome_count p "deduped") +:+ "  same job ID applied again";
   item "effects rejected by fencing" (outcome_count p "fenced") +:+ "  stale fencing token";
   item "zombie queue updates rejected" (pi_leaseLost p) +:+ "  stale results fenced off by lease checks";
   item "consumers left in group" (Z.of_nat (size (distinct (pi_consumers p)))) +:+ "  killed workers not yet pruned"] ++
  ((fun crash => "  worker exited unexpectedly: " +:+ crash) <$> pi_crashed p) ++
  (if (0 <? length (t_lost t))%nat
   then [""; "  first lost jobs (payload n): " +:+ ints_text (take 5 (t_lost t))] else []) ++
  (if (0 <? length (ro_duplicateEffects out))%nat
   then ["  first jobs with duplicate effects (payload n): " +:+ ints_text (take 5 (ro_duplicateEffects out))] else []) ++
  [""; if ro_exit out =? 0 then "PASS" else "FAIL"].

(** ** Unsettled deliveries *)

Record pending_info := mkPending { pd_ID : string; pd_Consumer : string; pd_Idle : Z; pd_RetryCount : Z }.

(** At most twenty of each partition; the first error is printed instead. *)
Fixpoint gather (parts : list (result error (list pending_info))) : result error (list pending_info) :=
  match parts with
  | [] => Ok []
  | Err e :: _ => Err e
  | Ok l :: rest => match gather rest with Ok l' => Ok (l ++ l') | Err e => Err e end
  end.

Definition pending_line (live : gset string) (p : pending_info) : string :=
  "    " +:+ pd_ID p +:+ " owner=" +:+ pd_Consumer p +:+ " (alive: " +:+ FormatBool (bool_decide (pd_Consumer p ∈ live)) +:+
  ") idle=" +:+ Duration_String (Duration_Round (pd_Idle p) millisecond) +:+ " deliveries=" +:+ Itoa (pd_RetryCount p).

Definition printPending (parts : list (result error (list pending_info))) (procs : list string) : list string :=
  match gather parts with
  | Err e => ["  xpending: " +:+ error_string e]
  | Ok pending => [""; "  unsettled deliveries:"] ++ (pending_line (list_to_set procs) <$> pending)
  end.

Example printPending_ex :
  printPending [Ok [mkPending "17-0" "w1" 1234567890 2]; Ok [mkPending "18-0" "w9" 500000 1]] ["w1"; "w2"] =
  [""; "  unsettled deliveries:"; "    17-0 owner=w1 (alive: true) idle=1.235s deliveries=2";
   "    18-0 owner=w9 (alive: false) idle=1ms deliveries=1"].
Proof. vm_compute. reflexivity. Qed.

(** ** The verdict *)

(** Rounding moves a duration by at most half of the unit. *)
Lemma Duration_Round_near d m : 0 < m -> int64_ok (d - m) -> int64_ok (d + m) ->
  2 * Z.abs (Duration_Round d m - d) <= m /\ Z.rem (Duration_Round d m) m = 0.
Proof.
  intros Hm H1 H2. unfold Duration_Round. destruct (Z.leb_spec m 0); [lia|].
  pose proof (Z.quot_rem d m ltac:(lia)) as Hq. pose proof (Z.rem_bound_abs d m ltac:(lia)) as Hb.
  assert (forall k, Z.rem (m * k) m = 0) as Hk by (intros k; rewrite Z.mul_comm; apply Z.rem_mul; lia).
  destruct (Z.ltb_spec d 0).
  - pose proof (Z.rem_nonpos d m ltac:(lia) ltac:(lia)). set (r := Z.rem d m) in *. set (q := Z.quot d m) in *.
    destruct (Z.ltb_spec (- r + - r) m).
    + split; [lia|]. replace (d + - r) with (m * q) by lia. apply Hk.
    + rewrite wrap64_id by (unfold int64_ok in *; lia). destruct (Z.ltb_spec (d - m + - r) d); [|lia].
      split; [lia|]. replace (d - m + - r) with (m * (q - 1)) by lia. apply Hk.
  - pose proof (Z.rem_nonneg d m ltac:(lia) ltac:(lia)). set (r := Z.rem d m) in *. set (q := Z.quot d m) in *.
    destruct (Z.ltb_spec (r + r) m).
    + split; [lia|]. replace (d - r) with (m * q) by lia. apply Hk.
    + rewrite wrap64_id by (unfold int64_ok in *; lia). destruct (Z.ltb_spec d (d + m - r)); [|lia].
      split; [lia|]. replace (d + m - r) with (m * (q + 1)) by lia. apply Hk.
Qed.

(** What is printed agrees with the verdict: the report ends in PASS exactly when no line
    of it has the mark FAIL and no crashed worker is listed. *)
Theorem report_text_verdict r p out :
  report r = Some out -> ri_crashed r = length (pi_crashed p) -> 0 <= leftover r ->
  last (report_lines r p out) = Some (if ro_exit out =? 0 then "PASS" else "FAIL") /\
  (ro_exit out = 0 <-> Forall (fun c => c.1.2 = true) (checks r out) /\ pi_crashed p = []).
Proof.
  intros Hr Hc Hl. split; [unfold report_lines; rewrite !app_assoc, last_app; done|].
  unfold report in Hr. destruct (read_ledger _ _); [|done]. destruct (read_dead _ _); [|done]. simplify_eq.
  match goal with |- (ro_exit (ReportOut ?t ?d ?m _ _) = 0) <-> _ => generalize t d m end. intros t d m.
  cbn [ro_exit]. unfold checks. destruct (stats_of r) as [[s q] u]. cbn [ro_tally ro_duplicateEffects ro_missingEffects ro_leftover].
  match goal with |- ((if ?b then 1 else 0) = 0) <-> _ => transitivity (b = false); [by destruct b|] end.
  rewrite !orb_false_iff, !Nat.ltb_ge, Z.ltb_ge, !Forall_cons, Forall_nil, <- length_zero_iff_nil, <- Hc. cbn [fst snd].
  rewrite !Z.eqb_eq. lia.
Qed.

(** ** How the processes end *)

(** [runWorker]: [opened] is what opening the queue gives, [ran] what [Run] returns. *)
Definition chaos_worker (opened : result error unit) (ran : option error) : option error :=
  match opened with
  | Err e => Some e
  | Ok _ => match ran with Some e => if errors_Is e ErrCanceled then None else Some e | None => None end
  end.

(** How the controller ends: its exit status, and whether the deferred cleanup of the
    run's keys was reached. *)
Record chaos_end := ChaosEnd { ce_status : Z; ce_deletes : bool }.

(** [log.Fatal] ends the program without the deferred calls. *)
Definition chaos_fatal : chaos_end := ChaosEnd 1 false.

(** [runController] around the run itself: what the system, Redis, opening the queue, the
    enqueues and the report give; the report is [None] where it ends the program. *)
Definition runController (o : ChaosCmd.chaos_options) (exe : result error string) (ping : option error)
    (opened : result error unit) (enqueued : result error (list string)) (reported : option report_out) : chaos_end :=
  match exe, ping, opened, enqueued, reported with
  | Ok _, None, Ok _, Ok _, Some r => ChaosEnd (ro_exit r) (negb (ChaosCmd.keep o))
  | _, _, _, _, _ => chaos_fatal
  end.

(** [main]: the exit status. *)
Definition chaos_main (o : ChaosCmd.chaos_options) (worker : option error) (controller : chaos_end) : Z :=
  if ChaosCmd.worker o then match worker with Some _ => 1 | None => 0 end else ce_status controller.

Definition went_well {A} (r : result error A) : bool := match r with Ok _ => true | Err _ => false end.

(** The exit status is 0 exactly for a worker that was stopped, or never failed, and for a
    run whose report found nothing wrong. *)
Theorem chaos_main_ok o opened ran exe ping opened' enqueued ri :
  chaos_main o (chaos_worker opened ran) (runController o exe ping opened' enqueued (report ri)) = 0 <->
  if ChaosCmd.worker o then
    went_well opened = true /\ match ran with Some e => errors_Is e ErrCanceled = true | None => True end
  else
    exists r, went_well exe = true /\ ping = None /\ went_well opened' = true /\ went_well enqueued = true /\ report ri = Some r /\ ro_exit r = 0.
Proof.
  unfold chaos_main. destruct (ChaosCmd.worker o).
  - destruct opened; [|naive_solver]. destruct ran as [e|]; [|naive_solver]. cbn. destruct (errors_Is e ErrCanceled); naive_solver.
  - destruct exe, ping, opened', enqueued, (report ri); cbn; naive_solver.
Qed.

(** A run that ends by a fatal error leaves its keys in Redis, also without [-keep]. *)
Lemma fatal_keeps_keys o exe ping opened e reported :
  runController o exe ping opened (Err e) reported = ChaosEnd 1 false.
Proof. by destruct exe, ping, opened, reported. Qed.
